(* ===== verification/_CoqProject ===== *)
-Q . S2P
Prelude.v
Bytes.v
Collections.v
Codec.v
Transport.v
Connections.v
Model.v
StoreTypes.v
RangeManager.v
WriteWindow.v
StoreBuffer.v
Record.v
Handler.v
Watermark.v
Index.v
AlignedBuf.v
BlockCache.v
Segment.v
Wal.v
Truncate.v
Recovery.v
WalSegments.v
IoLoop.v
IoFrame.v
Tail.v
SharedBufs.v
Appending.v
Reserve.v
Ring.v
System.v
Submitting.v
Reaping.v
Durability.v
Restart.v
TaskLoop.v
RecordsBlock.v
ReplicaCache.v
Replication.v
RpcMessages.v
RpcSession.v
Quorum.v
ServerHistories.v
ReplicationStream.v
RangeWriter.v
StreamSystem.v
StreamInvariant.v
StreamSafety.v
StreamRuns.v
Failover.v
CacheStream.v
ObjectStream.v
Offload.v
ObjectStorage.v
ObjectManager.v
MetadataManager.v
ElasticStore.v
