(* ===== verification/Prelude.v ===== *)
(** * Elastic Stream: verification of the range server and of the stream client

    Elastic Stream stores streams of records.  A stream is a sequence of ranges, a range is
    replicated on several range servers.  A client sends frames over TCP
    ([components/codec], [components/transport]); the range server's handlers
    ([range-server/src/handler]) parse the record batches of a request
    ([components/model]), pass each through the append window of its range
    ([range-server/src/range_manager]), and submit it to the store
    ([components/store]).  There a buffer puts the requests of a range in order, the I/O loop
    writes them to the write-ahead log, a window of completed writes tells which prefix of
    the log is persistent, an index in RocksDB maps (stream, range, offset) to a place in the
    log, and watermarks tell which part of the log is still needed once ranges are trimmed or
    offloaded to object storage.  The server offloads the ranges it owns
    ([components/object-storage]) and learns from the placement driver which objects there
    are.  The stream client ([components/replication]) writes the open range of a stream to
    its replicas until a quorum has acknowledged, seals it and goes on in a new one when that
    fails or when another client takes over, and reads through its caches, from the servers
    and from the objects.

    ** Files

    - [Prelude.v]: [result], [outcome] (the effect of code that may panic), integers of a
      machine width with the checked arithmetic of the release profile, tactics.
    - [Bytes.v]: big-endian integers and the buffer cursors of the [bytes] crate
      ([BytesApi], [BytesLaws]), CRC-32 ([components/util/src/crc32.rs]).
    - [Collections.v]: [BTreeMap] and [BinaryHeap] of the standard library.
    - [Codec.v], Module [Frame]: [components/codec/src/frame.rs].
    - [Transport.v], Module [Connection]: [read_frame] and [write] of
      [components/transport/src/connection.rs]; the socket is a list of the chunks it
      delivers, or of the capacities it accepts.  [Connections.v], Module [Conn]: the queue of
      frames in front of [write], and connecting and closing, of the same file.
    - [Model.v]: range, stream, object and resource metadata of [components/model].
    - [StoreTypes.v]: append requests, results and errors, shared by server and store.
    - [RangeManager.v], Modules [Window], [Range], [Stream], [Manager]: the files of
      [range-server/src/range_manager].  [Manager.step] is one call or resource event with
      its response, [Manager.exec] a sequence of them: the server is single-threaded and
      calls interleave only where a handler waits.
    - [WriteWindow.v]: [components/store/src/io/write_window.rs].
    - [StoreBuffer.v]: the files of [components/store/src/store/buffer].
    - [Record.v]: record batches, their flat encoding, and the append payload.
    - [Handler.v]: the append, seal and create-range handlers, end to end from payload bytes
      to status codes.
    - [Watermark.v]: the files of [components/store/src/watermark].
    - [Index.v]: the files of [components/store/src/index] but the driver thread, and the WAL
      record header of [components/store/src/io/record.rs].
    - [AlignedBuf.v]: the buffers of [components/store/src/io/buf] and their writer.
    - [BlockCache.v], [Segment.v], [Wal.v]: the files of these names of
      [components/store/src/io]; [Truncate.v], [Recovery.v] and [WalSegments.v] hold the
      theorems on truncation, recovery and the order of the segments.
    - [IoLoop.v]: the I/O loop, [uring.rs], [task.rs] and [context.rs] of
      [components/store/src/io].  [IoFrame.v] (what reads leave alone), [Tail.v] (the segment
      at the end of the log), [SharedBufs.v] (the buffers that writer, ring and cache share),
      [Appending.v], [Reserve.v] (appends find room), [Ring.v] (writes in the ring and the
      disk) hold its lemmas.
    - [System.v]: the I/O loop with the ring and the disk as a transition system,
      [sys_step], the runs of it in which there is room for the footers, [roomy_run], and
      their invariant [sys_ok]; [Submitting.v] and [Reaping.v] show that the two large steps
      keep it, [Durability.v] and [Restart.v] draw the conclusions, [TaskLoop.v] treats the
      loop over the pending tasks.
    - [Replication.v], [ReplicationStream.v]: [replication_replica.rs],
      [replication_range.rs] and [replication_stream.rs] of
      [components/replication/src/stream]; a task is cut where it waits, and what it waits for
      is an argument of the rest.  [Quorum.v] (what a quorum confirms survives a seal),
      [ServerHistories.v] (the range managers of [RangeManager.v] keep the history that
      [Quorum.v] asks of a server), [RangeWriter.v], [StreamSystem.v] (a stream, its tasks and
      its servers as a transition system), [StreamInvariant.v], [StreamSafety.v],
      [StreamRuns.v] and [Failover.v] hold the theorems.
    - [RecordsBlock.v], [ReplicaCache.v], [CacheStream.v], [ObjectStream.v]: the blocks of
      records ([records_block.rs]), the caches ([cache.rs]), and the streams that read through
      them ([cache_stream.rs]) and from objects ([object_stream.rs], [object_reader.rs]), of
      the same directory.
    - [Offload.v], [ObjectStorage.v], [ObjectManager.v]: [range_offload.rs],
      [range_accumulator.rs] with [object_storage.rs], and [object_manager.rs] of
      [components/object-storage/src].
    - [ElasticStore.v]: [elastic_store.rs] of [components/store/src/store], the driver of the
      index ([components/store/src/index/driver.rs]), and the fetch handler
      ([range-server/src/handler/fetch.rs]) on top of them.
    - [MetadataManager.v]: [watcher.rs] and [manager.rs] of [range-server/src/metadata]: how
      the resource events of the placement driver reach the range manager and the store, and
      which data of a range can be deleted.
    - [RpcMessages.v], [RpcSession.v]: [request.rs], [response.rs] and [session.rs] of
      [components/client/src].  [SessionSystem.step] is one step of a session, its callers,
      its loops that write and read, and its connection.

    ** Conventions

    A method with [&mut self] takes the state and returns it with its result.  Integers are
    [Z]; comments and [is_uint w] hypotheses give their width.  Where the Rust code adds or
    subtracts, the model uses [uint_add w] and [uint_sub], which are [Panic] on overflow; an
    [as] cast is [as_uint] or [as_sint].  Logging and metrics are left out, and so is
    allocation failure.  Code outside the repository enters as a type class of operations
    with a class of laws, its documented behaviour: the [bytes] crate, the CRC-32 update
    function, the binary heap, the flat-buffer table of the batch metadata, RocksDB.  Each
    has a concrete instance, at which the witnesses of the theorems are evaluated.  So do the
    skip list of the block cache, the submission queue of the control ring ([RingApi]), the
    [lru] crate ([LruApi]), the object store ([OperatorApi]), and the flat buffers and the
    [chrono] crate of the RPC client ([ResponseApi], [RequestApi], [ChronoApi]).  Between components,
    [ServerHistory] is what failover asks of a range server, [ReadsObjects] what a stream asks
    of the reader of its objects, and [LogReader] what the store asks of the reads of the I/O
    loop; they are discharged by the modelled components ([servers_history],
    [reads_one_block], [complete_read_task_log] with [read_exact_at_spec]).

    The disk of [System.v] is a function from the offset in the log to the byte there: a
    segment file starts at the offset of its segment.  The kernel may apply a write at any
    time until it completes, in parts and with any order of the writes, and takes the bytes
    that the shared buffer holds, of which those behind the limit at submission are unknown.
    The operations on files, the zeroing of a new one, the renaming and the deletion, change
    the disk in any way outside of the segments that are established ([step_files]).

    ** What is shown

    - Wire format: [encode_roundtrip], [encode_spec], [check_total], [check_then_parse];
      over TCP, [read_frames_reassemble] and [write_short_writes].
    - Batches: [record_batch_roundtrip], [build_store_requests_wire]; the inputs on which the
      parsers panic, [parse_append_entry_short_panics].
    - Range manager, for every interleaving: [manager_wf_invariant],
      [appends_dispatched_in_order], [committed_prefix_persisted], [seal_covers_acks],
      [update_metadata_trims]; the whole append through its handler, [append_apply_commits];
      and what is lost on failure, [failed_append_reported_committed] (the handler does not
      take an append back that the store fails), [append_before_store_knows].
    - Store: [buffered_store_sorts], [stale_request_blocks]; [write_window_prefix],
      [write_window_order_independent].
    - The log: completions in any order, barriers, retries and the file operations of the
      segments are part of [sys_step].  For its runs in which, whenever entries are built, the
      buffers that are left have room for the footers between the pending records
      ([roomy_run]), [acknowledged_is_durable], [indexed_is_durable] and
      [acknowledged_is_recovered] hold: what the loop has acknowledged is on the disk, until
      the files of its segments are given up, and comes back after a crash.  The code does
      not see to that room: [append_lost_at_segment_end] is a run in which a write gets lost
      for lack of it, [acknowledged_append_lost] one in which an acknowledged append does.
      Its parts: [reserve_then_write], [take_hands_out],
      [read_exact_at_spec], [truncate_to_spec], [recover_spec], [recover_fails_at_boundary],
      [segments_stay_ordered], [parse_format]; the cache, [try_get_entries_spec],
      [cache_size_invariant], [merge_ranges], [try_reclaim_terminates]; the loop over the
      pending tasks, [task_loop_terminates], [read_of_closed_segment_spins].
    - Index: [index_entry_roundtrip], [index_stores], [scan_wal_offset_spec],
      [scan_left_shift_spec], [scan_misses_last_batch].
    - Watermarks: [range_high_sound], [watermarks_bound_streams], [trim_returns],
      [trim_diverges], [min_wal_skips_later_ranges], [add_range_order].
    - The store as a whole: [fetch_apply_exact] (what is appended is what is fetched, from an
      offset up to the base offset of the last batch),
      [appends_answered_in_order], [fetch_hides_objects].
    - Writing a stream that is not deleted, for every interleaving of its tasks and any
      answers of the servers, the placement driver creating ranges as it promises:
      [append_on_quorum] (a quorum has acknowledged up to the end of what succeeds),
      [append_answered_once], [stream_never_panics]; and across a change
      of the writer, [failover_covers] with [servers_history], which are about servers that
      keep running: [failover_after_restart] shows that a server that has started again has
      forgotten what it has acknowledged.
    - RPC sessions, for every interleaving: [response_matched]; and where a session does not
      recover, [going_away_strands_requests], [stale_bytes_spoil_reconnect].
    - Metadata of a worker: [deletable_justified], [observers_see_events].
    - Reading a stream: [parse_complete], [fetch_exact], [object_fetch_exact] (for objects of
      one block, and logs below 4 GiB),
      [read_cache_get], [hot_cache_get], [read_cache_size]; where it goes wrong,
      [parse_cut_panics], [fetch_gap], [fetch_size_overflows], [object_middle_unreadable],
      [hot_cache_leak], [read_cache_leak].
    - Object storage: [offload_roundtrip] (the objects that are written hold, in order, the
      batches that were read from the store), [gen_object_key_inj],
      [offload_progress_covered] (what is told to be offloaded is in objects),
      [get_continuous_objects_spec]; and [offload_offset_sizes], [storage_size_drifts].

    ** Fuel

    The loops that are not structural take fuel: [RangeBuffer.drain_loop] and
    [Append.build_loop] start with more than the size of the heap and of the payload, of
    which each iteration uses up at least one, and end in [Panic] if it runs out, which the
    theorems exclude; [StreamDescriptor.trim_loop] answers [None], [trim_returns] gives a
    sufficient fuel, [trim_diverges] shows when there is none.  The scan of the recovery has
    the length of the file as fuel, of which each record takes its length; the loops of
    [reserve_write_buffers] twice the number of tasks and two, since between two footers
    there is a task; the reclaiming of the cache the number of entries
    ([try_reclaim_terminates]).  The loop over the tasks and the loop of a write tell running
    out of fuel apart from a panic, by [None]: the first ends within the number of tasks and
    one more rounds unless a segment to read from is closed, the second within as many rounds
    as its payload goes into the free space and two ([task_loop_terminates]), and
    [read_of_closed_segment_spins] is where there is no sufficient fuel.  The loop of
    [read_exact_at] answers [None] after two lookups, which [read_exact_at_spec] excludes.
    The fuel of the reader of an object is its length
    ([object_read_terminates]), that of the search for continuous objects [2 ^ 65], which is more than
    all offsets, sizes and epochs together ([get_continuous_objects_spec]).

    ** What is not modelled

    Of the RPC client, how a session is chosen among several, how the placement driver cluster
    is refreshed, the resolution of names and the timeouts around a call; the placement driver
    client, the record caches of the store, the worker threads and the channels that only
    forward calls, configuration, metrics and tracing, and the bindings of the SDKs.  Of the
    modelled files: what builds flat-buffer responses, opens databases or connections, waits
    for the rings and starts threads. *)

From stdpp Require Export prelude gmap list numbers strings sorting.


#[global] Open Scope Z_scope.

#[global] Arguments Z.eqb : simpl never.
#[global] Arguments Z.ltb : simpl never.
#[global] Arguments Z.leb : simpl never.
#[global] Arguments Nat.ltb : simpl never.

(** ** Results and outcomes

    [result] is Rust's [Result<A, E>].  [outcome] adds the one effect that every
    function of a release build has: the release profile of [Cargo.toml] sets
    [overflow-checks = true] and [panic = "abort"], so an integer overflow, an
    out-of-bounds slice or an explicit [panic!] ends the process ([Panic]), and
    [debug_assert!] is compiled out ([debug-assertions = false]). *)

Inductive result (A E : Type) : Type :=
| Ok (a : A)
| Err (e : E).
Arguments Ok {A E} a.
Arguments Err {A E} e.

Inductive outcome (A : Type) : Type :=
| Ret (a : A)
| Panic.
Arguments Ret {A} a.
Arguments Panic {A}.

#[export] Instance outcome_ret : MRet outcome := fun A a => Ret a.
#[export] Instance outcome_bind : MBind outcome :=
  fun A B f m => match m with Ret a => f a | Panic => Panic end.
#[export] Instance outcome_fmap : FMap outcome :=
  fun A B f m => match m with Ret a => Ret (f a) | Panic => Panic end.

#[export] Instance result_eq_dec {A E} `{EqDecision A, EqDecision E} :
  EqDecision (result A E).
Proof. solve_decision. Defined.
#[export] Instance outcome_eq_dec {A} `{EqDecision A} : EqDecision (outcome A).
Proof. solve_decision. Defined.

(** The value of a computation that did not panic. *)
Definition returns {A} (m : outcome A) : Prop := exists a, m = Ret a.

Lemma bind_Ret_inv {A B} (m : outcome A) (f : A -> outcome B) b :
  (m ≫= f) = Ret b <-> exists a, m = Ret a /\ f a = Ret b.
Proof. destruct m; naive_solver. Qed.

Lemma bind_Ret {A B} (a : A) (f : A -> outcome B) : (Ret a ≫= f) = f a.
Proof. done. Qed.

(** [?] on the result of a call that also changes the state: an error ends the function with
    the state reached. *)
Definition try_with {A B E S} (m : outcome (result A E * S))
    (k : A -> S -> outcome (result B E * S)) : outcome (result B E * S) :=
  '(r, s) ← m; match r with Ok a => k a s | Err e => Ret (Err e, s) end.

Notation "'attempt' ( a , s ) := m 'in' k" := (try_with m (fun a s => k))
  (at level 200, a pattern, s pattern, m at level 200, k at level 200, right associativity,
   format "'[' 'attempt'  ( a ,  s )  :=  m  'in'  '//' k ']'").

#[global] Arguments try_with : simpl never.

Lemma try_with_Ok {A B E S} (a : A) (s : S) (k : A -> S -> outcome (result B E * S)) :
  try_with (Ret (Ok a, s)) k = k a s.
Proof. done. Qed.

(** ** Machine integers

    A [w]-bit unsigned integer is a [Z] in [0, 2^w).  [usize] is 64 bits wide. *)

Definition is_uint (w : Z) (z : Z) : Prop := 0 <= z < 2 ^ w.
Abbreviation is_u8 := (is_uint 8).
Abbreviation is_u16 := (is_uint 16).
Abbreviation is_u32 := (is_uint 32).
Abbreviation is_u64 := (is_uint 64).

#[export] Instance is_uint_dec w z : Decision (is_uint w z).
Proof. unfold is_uint. apply _. Defined.

(** Overflow-checked arithmetic: [a + b], [a - b] and [a * b] of the release build. *)
Definition uint_add (w a b : Z) : outcome Z :=
  if a + b <? 2 ^ w then Ret (a + b) else Panic.
Definition uint_sub (a b : Z) : outcome Z :=
  if b <=? a then Ret (a - b) else Panic.
Definition uint_mul (w a b : Z) : outcome Z :=
  if a * b <? 2 ^ w then Ret (a * b) else Panic.

(** Division and remainder panic on zero. *)
Definition uint_div (a b : Z) : outcome Z := if b =? 0 then Panic else Ret (a / b).
Definition uint_rem (a b : Z) : outcome Z := if b =? 0 then Panic else Ret (a mod b).

Abbreviation u64_add := (uint_add 64).
Abbreviation u32_add := (uint_add 32).
Abbreviation usize_add := (uint_add 64).

(** [as] casts: truncation to [w] bits, read as unsigned or in two's complement. *)
Definition as_uint (w z : Z) : Z := z mod 2 ^ w.
Definition as_sint (w z : Z) : Z := (z + 2 ^ (w - 1)) mod 2 ^ w - 2 ^ (w - 1).
Definition is_sint (w z : Z) : Prop := - 2 ^ (w - 1) <= z < 2 ^ (w - 1).

(** Overflow-checked signed arithmetic. *)
Definition sint_check (w z : Z) : outcome Z :=
  if (- 2 ^ (w - 1) <=? z) && (z <? 2 ^ (w - 1)) then Ret z else Panic.
Definition sint_add (w a b : Z) : outcome Z := sint_check w (a + b).
Definition sint_sub (w a b : Z) : outcome Z := sint_check w (a - b).

Lemma sint_check_Ret w z : is_sint w z -> sint_check w z = Ret z.
Proof.
  intros [H1 H2]. unfold sint_check. by rewrite (proj2 (Z.leb_le _ _)), (proj2 (Z.ltb_lt _ _)).
Qed.

Lemma uint_add_Ret w a b : a + b < 2 ^ w -> uint_add w a b = Ret (a + b).
Proof. intros. unfold uint_add. by rewrite (proj2 (Z.ltb_lt _ _)). Qed.
Lemma uint_add_Panic w a b : 2 ^ w <= a + b -> uint_add w a b = Panic.
Proof. intros. unfold uint_add. by rewrite (proj2 (Z.ltb_ge _ _)). Qed.
Lemma uint_add_inv w a b c : uint_add w a b = Ret c <-> c = a + b /\ a + b < 2 ^ w.
Proof. unfold uint_add. destruct (Z.ltb_spec (a + b) (2 ^ w)); naive_solver lia. Qed.
Lemma uint_sub_Ret a b : b <= a -> uint_sub a b = Ret (a - b).
Proof. intros. unfold uint_sub. by rewrite (proj2 (Z.leb_le _ _)). Qed.
Lemma sint_sub_inv w a b c : sint_sub w a b = Ret c <-> c = a - b /\ is_sint w (a - b).
Proof.
  unfold sint_sub, sint_check, is_sint. destruct (Z.leb_spec (- 2 ^ (w - 1)) (a - b)), (Z.ltb_spec (a - b) (2 ^ (w - 1))); simpl; naive_solver lia.
Qed.
Lemma uint_sub_inv a b c : uint_sub a b = Ret c <-> c = a - b /\ b <= a.
Proof. unfold uint_sub. destruct (Z.leb_spec b a); naive_solver lia. Qed.

Lemma uint_mul_Ret w a b : a * b < 2 ^ w -> uint_mul w a b = Ret (a * b).
Proof. intros. unfold uint_mul. by rewrite (proj2 (Z.ltb_lt _ _)). Qed.
Lemma uint_div_Ret a b : b <> 0 -> uint_div a b = Ret (a / b).
Proof. intros. unfold uint_div. by rewrite (proj2 (Z.eqb_neq _ _)). Qed.
Lemma uint_rem_Ret a b : b <> 0 -> uint_rem a b = Ret (a mod b).
Proof. intros. unfold uint_rem. by rewrite (proj2 (Z.eqb_neq _ _)). Qed.

Lemma as_uint_id w z : is_uint w z -> as_uint w z = z.
Proof. apply Z.mod_small. Qed.
Lemma as_uint_range w z : 0 <= w -> is_uint w (as_uint w z).
Proof. intros. apply Z.mod_pos_bound. lia. Qed.
Lemma as_sint_id w z : 0 < w -> is_sint w z -> as_sint w z = z.
Proof.
  intros Hw [Hl Hu]. unfold as_sint.
  assert (2 ^ w = 2 * 2 ^ (w - 1)) as Hp.
  { replace w with (Z.succ (w - 1)) at 1 by lia. apply Z.pow_succ_r. lia. }
  rewrite Z.mod_small; lia.
Qed.

(** Casting to the signed type of the same width and back is the identity. *)
Lemma as_uint_as_sint w z : 0 < w -> is_uint w z -> as_uint w (as_sint w z) = z.
Proof.
  intros Hw [Hl Hu]. unfold as_uint, as_sint.
  rewrite Zminus_mod_idemp_l. rewrite <- (Z.mod_small z (2 ^ w)) at 2 by lia.
  f_equal. lia.
Qed.
Lemma as_sint_as_uint w z : 0 < w -> is_sint w z -> as_sint w (as_uint w z) = z.
Proof.
  intros Hw Hz. rewrite <- (as_sint_id w z) at 2 by done.
  unfold as_sint, as_uint. by rewrite Zplus_mod_idemp_l.
Qed.

(** ** Automation *)

Create HintDb uint discriminated.
Create Rewrite HintDb outcome.
#[export] Hint Resolve uint_add_Ret uint_sub_Ret : uint.
#[export] Hint Rewrite uint_add_inv uint_sub_inv @bind_Ret_inv : outcome.

(** Turn the boolean comparisons of the code in hypotheses and goal into [Prop]. *)
Ltac bool_to_prop :=
  repeat match goal with
  | H : (_ <? _) = true |- _ => apply Z.ltb_lt in H
  | H : (_ <? _) = false |- _ => apply Z.ltb_ge in H
  | H : (_ <=? _) = true |- _ => apply Z.leb_le in H
  | H : (_ <=? _) = false |- _ => apply Z.leb_gt in H
  | H : (_ =? _) = true |- _ => apply Z.eqb_eq in H
  | H : (_ =? _) = false |- _ => apply Z.eqb_neq in H
  | H : (_ && _) = true |- _ => apply andb_prop in H; destruct H
  | H : (_ || _) = false |- _ => apply orb_false_iff in H; destruct H
  | H : negb _ = true |- _ => apply negb_true_iff in H
  | H : negb _ = false |- _ => apply negb_false_iff in H
  end.

(** Case analysis on the next condition of the goal, with the arithmetic contradictions
    closed. *)
Ltac case_bool :=
  match goal with
  | |- context [if ?b then _ else _] => let E := fresh "E" in destruct b eqn:E
  | H : context [if ?b then _ else _] |- _ => let E := fresh "E" in destruct b eqn:E
  end; bool_to_prop; simplify_eq; try lia.

(** Decompose a hypothesis [m = Ret x] along the binds of [m]. *)
Ltac inv_ret :=
  repeat (match goal with
  | H : (_ ≫= _) = Ret _ |- _ => apply bind_Ret_inv in H; destruct H as (? & ? & ?)
  | H : uint_add _ _ _ = Ret _ |- _ => apply uint_add_inv in H; destruct H as [-> ?]
  | H : uint_sub _ _ = Ret _ |- _ => apply uint_sub_inv in H; destruct H as [-> ?]
  | H : Ret _ = Ret _ |- _ => injection H as H; try subst
  | H : Panic = Ret _ |- _ => discriminate H
  | H : mret _ = Ret _ |- _ => unfold mret, outcome_ret in H
  end; simplify_eq/=).

(** Evaluate checked arithmetic whose bounds follow from the context. *)
Ltac ret_arith :=
  repeat first [ rewrite uint_add_Ret by lia | rewrite uint_sub_Ret by lia ]; simpl.

(** The same through a sequence of binds, each step evaluated before the next. *)
Ltac run_arith :=
  repeat (first [ rewrite uint_add_Ret by lia | rewrite uint_sub_Ret by lia
                | rewrite uint_div_Ret by lia | rewrite uint_rem_Ret by lia
                | rewrite uint_mul_Ret by lia ]; simpl).

(** ** Lists *)

Lemma sorted_sublist {A} (R : A -> A -> Prop) l1 l2 :
  l1 `sublist_of` l2 -> StronglySorted R l2 -> StronglySorted R l1.
Proof.
  induction 1 as [|x l1 l2 Hsub IH|x l1 l2 Hsub IH]; [done|..]; intros [Hs Hx]%StronglySorted_inv; [|by apply IH].
  constructor; [by apply IH|]. apply Forall_forall. intros y Hy. apply (proj1 (Forall_forall _ _) Hx).
  by eapply elem_of_submseteq, sublist_submseteq.
Qed.
