(* ===== verification/Bytes.v ===== *)
(** * Byte buffers and checksums

    The model of what the sources use of the crates [bytes], [byteorder] and
    [crc32fast].  Those crates are not part of the repository, so they are parameters:
    [BytesApi] and [Crc32Api] are the operations the code calls, [BytesLaws] and
    [Crc32Laws] the documented behaviour the theorems rely on.  [be_bytes_api] and
    [iso_hdlc_api] are concrete instances at which the laws hold.

    [crc32] and [crc32_vectored] model [components/util/src/crc32.rs]. *)

From S2P Require Import Prelude.
From Stdlib Require Strings.Byte.
From coqutil Require Export Byte Word.LittleEndianList.

Abbreviation byte := Init.Byte.byte.

#[export] Instance byte_eq_dec : EqDecision byte := Stdlib.Strings.Byte.byte_eq_dec.

(** ** Big-endian integers *)

Definition be_encode (n : nat) (z : Z) : list byte := reverse (le_split n z).
Definition be_decode (l : list byte) : Z := le_combine (reverse l).

#[global] Arguments be_encode : simpl never.
#[global] Arguments be_decode : simpl never.

Lemma length_be_encode n z : length (be_encode n z) = n.
Proof. unfold be_encode. by rewrite length_reverse, length_le_split. Qed.

Lemma be_decode_encode n z : be_decode (be_encode n z) = z mod 2 ^ (Z.of_nat n * 8).
Proof. unfold be_decode, be_encode. by rewrite reverse_involutive, le_combine_split. Qed.

Lemma be_encode_decode l : be_encode (length l) (be_decode l) = l.
Proof.
  unfold be_decode, be_encode. rewrite <- (length_reverse l), split_le_combine.
  apply reverse_involutive.
Qed.

Lemma be_decode_range l : 0 <= be_decode l < 2 ^ (Z.of_nat (length l) * 8).
Proof.
  unfold be_decode. pose proof (le_combine_bound (reverse l)) as H.
  rewrite length_reverse in H. by rewrite Z.mul_comm.
Qed.

(** The most significant byte comes first. *)
Lemma be_decode_cons b l :
  be_decode (b :: l) = byte.unsigned b * 2 ^ (Z.of_nat (length l) * 8) + be_decode l.
Proof.
  pose proof (le_combine_bound (reverse l)) as Hb. rewrite length_reverse in Hb.
  unfold be_decode. rewrite reverse_cons, le_combine_app, length_reverse, le_combine_1.
  rewrite Z.shiftl_mul_pow2 by lia.
  rewrite BitOps.or_to_plus; [lia|].
  apply Z.bits_inj'. intros i Hi. rewrite Z.land_spec, Z.bits_0.
  destruct (decide (i < Z.of_nat (length l) * 8)).
  - rewrite Z.mul_pow2_bits_low by done. apply andb_false_r.
  - rewrite <- (Z.mod_small (le_combine _) _ Hb), Z.mod_pow2_bits_high by lia. done.
Qed.

Lemma le_split_S n z : le_split (S n) z = byte.of_Z z :: le_split n (Z.shiftr z 8).
Proof. done. Qed.

(** The leading bytes hold the high bits. *)
Lemma be_encode_app n m z :
  be_encode (n + m) z = be_encode n (z / 2 ^ (Z.of_nat m * 8)) ++ be_encode m z.
Proof.
  unfold be_encode. rewrite <- reverse_app, Nat.add_comm. f_equal.
  rewrite <- Z.shiftr_div_pow2 by lia.
  revert z. induction m as [|m IH]; intros z; [by rewrite Z.shiftr_0_r|].
  rewrite (le_split_S m), Nat.add_succ_l, le_split_S, IH. simpl. do 3 f_equal.
  rewrite Z.shiftr_shiftr by lia. f_equal. lia.
Qed.

Lemma be_encode_mod n z : be_encode n (z mod 2 ^ (Z.of_nat n * 8)) = be_encode n z.
Proof. unfold be_encode. by rewrite <- le_split_mod. Qed.

(** Byte-wise lexicographic order, the order of keys in an ordered byte store. *)
Fixpoint bytes_lt (a b : list byte) : bool :=
  match a, b with
  | _, [] => false
  | [], _ :: _ => true
  | x :: a', y :: b' =>
      (byte.unsigned x <? byte.unsigned y)
      || ((byte.unsigned x =? byte.unsigned y) && bytes_lt a' b')
  end.

Lemma bytes_lt_be_decode a b :
  length a = length b -> bytes_lt a b = (be_decode a <? be_decode b).
Proof.
  revert b. induction a as [|x a IH]; intros [|y b] Hlen; simplify_eq/=; [done|].
  rewrite IH by done. rewrite !be_decode_cons, Hlen.
  pose proof (be_decode_range a). pose proof (be_decode_range b). rewrite Hlen in *.
  set (P := 2 ^ (Z.of_nat (length b) * 8)) in *.
  destruct (Z.ltb_spec (byte.unsigned x) (byte.unsigned y));
    destruct (Z.eqb_spec (byte.unsigned x) (byte.unsigned y)); simpl; try lia.
  - symmetry. apply Z.ltb_lt. nia.
  - symmetry. apply Z.ltb_ge. nia.
Qed.

Lemma bytes_lt_app a1 a2 b1 b2 :
  length a1 = length b1 ->
  bytes_lt (a1 ++ a2) (b1 ++ b2) = bytes_lt a1 b1 || (bool_decide (a1 = b1) && bytes_lt a2 b2).
Proof.
  revert b1. induction a1 as [|x a1 IH]; intros [|y b1] Hlen; simplify_eq/=; [done|].
  rewrite IH by done.
  destruct (Z.eqb_spec (byte.unsigned x) (byte.unsigned y)) as [Heq|Hne]; simpl.
  - apply byte.unsigned_inj in Heq as ->. rewrite Z.ltb_irrefl. simpl.
    destruct (decide (a1 = b1)) as [->|].
    + by rewrite !bool_decide_true.
    + rewrite !bool_decide_false by congruence. by rewrite orb_false_r.
  - rewrite bool_decide_false by congruence. simpl. by rewrite !orb_false_r.
Qed.

(** ** Slices *)

Definition remaining (l : list byte) : Z := Z.of_nat (length l).

(** [buf.slice(from..to)]. *)
Definition slice (l : list byte) (from to : Z) : outcome (list byte) :=
  if (from <=? to) && (to <=? remaining l)
  then Ret (take (Z.to_nat (to - from)) (drop (Z.to_nat from) l)) else Panic.

Lemma remaining_app a b : remaining (a ++ b) = remaining a + remaining b.
Proof. unfold remaining. rewrite length_app. lia. Qed.

Lemma remaining_nonneg l : 0 <= remaining l.
Proof. unfold remaining. lia. Qed.

Lemma slice_mid a b c from to :
  from = remaining a -> to = remaining a + remaining b -> slice (a ++ b ++ c) from to = Ret b.
Proof.
  intros -> ->. unfold slice. rewrite !remaining_app.
  pose proof (remaining_nonneg a). pose proof (remaining_nonneg b). pose proof (remaining_nonneg c).
  rewrite (proj2 (Z.leb_le _ _)), (proj2 (Z.leb_le _ _)) by lia. simpl.
  unfold remaining. rewrite Nat2Z.id, drop_app_length.
  replace (Z.to_nat _) with (length b) by lia. by rewrite take_app_length.
Qed.

Lemma slice_prefix b c to : to = remaining b -> slice (b ++ c) 0 to = Ret b.
Proof. intros ->. by apply (slice_mid [] b c). Qed.

Lemma slice_Ret l from to :
  from <= to <= remaining l ->
  slice l from to = Ret (take (Z.to_nat (to - from)) (drop (Z.to_nat from) l)).
Proof. intros. unfold slice. by rewrite !(proj2 (Z.leb_le _ _)) by lia. Qed.

Lemma slice_drop l from :
  0 <= from <= remaining l -> slice l from (remaining l) = Ret (drop (Z.to_nat from) l).
Proof.
  intros. rewrite slice_Ret by lia. f_equal. apply take_ge. rewrite length_drop.
  unfold remaining in *. lia.
Qed.

Lemma remaining_drop l n : 0 <= n <= remaining l -> remaining (drop (Z.to_nat n) l) = remaining l - n.
Proof. unfold remaining. rewrite length_drop. lia. Qed.

Lemma remaining_take l n : 0 <= n <= remaining l -> remaining (take (Z.to_nat n) l) = n.
Proof. unfold remaining. rewrite length_take. lia. Qed.

(** The bytes from [off] on are replaced by [data] ([copy_nonoverlapping] to [buf + off]). *)
Definition overwrite (l : list byte) (off : Z) (data : list byte) : list byte :=
  take (Z.to_nat off) l ++ data ++ drop (Z.to_nat off + length data) l.

Lemma length_overwrite l off data :
  0 <= off -> off + remaining data <= remaining l -> length (overwrite l off data) = length l.
Proof.
  unfold remaining, overwrite. intros. rewrite !length_app, length_take, length_drop. lia.
Qed.

Lemma overwrite_all l data : length data = length l -> overwrite l 0 data = data.
Proof. intros Hl. unfold overwrite. rewrite drop_ge by (simpl; lia). by rewrite app_nil_r. Qed.

(** ** The crates [bytes] and [byteorder]

    A cursor over a byte slice is the list of the bytes that remain. *)

Class BytesApi : Type := {
  (* BufMut::put_u8, put_u16, put_u32, put_u64: the value in [n] bytes *)
  put_uint : nat -> Z -> list byte;
  (* Buf::get_u8, get_u16, get_u32, get_u64: read [n] bytes, or panic *)
  get_uint : nat -> list byte -> outcome (Z * list byte);
  (* Buf::advance *)
  advance : nat -> list byte -> outcome (list byte);
  (* Buf::copy_to_bytes *)
  copy_to_bytes : nat -> list byte -> outcome (list byte * list byte);
  (* byteorder's ReadBytesExt::read_u32::<NetworkEndian>: an error when too few remain *)
  read_u32_be : list byte -> option (Z * list byte);
}.

(** The documented behaviour: integers in big-endian (network) byte order, and a panic
    (an error for [byteorder]) when fewer bytes remain than are asked for. *)
Class BytesLaws (B : BytesApi) : Prop := {
  put_uint_be n z : put_uint n z = be_encode n z;
  get_uint_be n l :
    get_uint n l =
      if (length l <? n)%nat then Panic else Ret (be_decode (take n l), drop n l);
  advance_drop n l :
    advance n l = if (length l <? n)%nat then Panic else Ret (drop n l);
  copy_to_bytes_take n l :
    copy_to_bytes n l = if (length l <? n)%nat then Panic else Ret (take n l, drop n l);
  read_u32_be_get l :
    read_u32_be l =
      if (length l <? 4)%nat then None else Some (be_decode (take 4 l), drop 4 l);
}.

#[export] Instance be_bytes_api : BytesApi := {
  put_uint := be_encode;
  get_uint n l :=
    if (length l <? n)%nat then Panic else Ret (be_decode (take n l), drop n l);
  advance n l := if (length l <? n)%nat then Panic else Ret (drop n l);
  copy_to_bytes n l := if (length l <? n)%nat then Panic else Ret (take n l, drop n l);
  read_u32_be l :=
    if (length l <? 4)%nat then None else Some (be_decode (take 4 l), drop 4 l);
}.

#[export] Instance be_bytes_laws : BytesLaws be_bytes_api.
Proof. done. Qed.

Section bytes_lemmas.
Context {B : BytesApi} {BL : BytesLaws B}.

Lemma length_put_uint n z : length (put_uint n z) = n.
Proof. by rewrite put_uint_be, length_be_encode. Qed.

Lemma get_uint_app n l r :
  length l = n -> get_uint n (l ++ r) = Ret (be_decode l, r).
Proof.
  intros <-. rewrite get_uint_be, take_app_length, drop_app_length, length_app.
  by destruct (Nat.ltb_spec (length l + length r) (length l)); [lia|].
Qed.

(** Reading back what was written. *)
Lemma get_put n z r :
  0 <= z < 2 ^ (Z.of_nat n * 8) -> get_uint n (put_uint n z ++ r) = Ret (z, r).
Proof.
  intros Hz. rewrite get_uint_app by apply length_put_uint.
  by rewrite put_uint_be, be_decode_encode, Z.mod_small.
Qed.

Lemma decode_put n z r :
  0 <= z < 2 ^ (Z.of_nat n * 8) ->
  be_decode (take n (put_uint n z ++ r)) = z /\ drop n (put_uint n z ++ r) = r.
Proof.
  intros Hz. pose proof (get_put n z r Hz) as H. rewrite get_uint_be in H.
  revert H. case_match; [done|]. by intros [= -> ->].
Qed.

Lemma put_get n l v r : get_uint n l = Ret (v, r) -> l = put_uint n v ++ r.
Proof.
  rewrite get_uint_be, put_uint_be. case_match eqn:E; [done|]. intros [= <- <-].
  apply Nat.ltb_ge in E.
  rewrite <- (length_take_le l n) at 1 by done.
  by rewrite be_encode_decode, take_drop.
Qed.

Lemma advance_app n l r : length l = n -> advance n (l ++ r) = Ret r.
Proof.
  intros <-. rewrite advance_drop, drop_app_length, length_app.
  by destruct (Nat.ltb_spec (length l + length r) (length l)); [lia|].
Qed.

Lemma copy_to_bytes_app n l r : length l = n -> copy_to_bytes n (l ++ r) = Ret (l, r).
Proof.
  intros <-. rewrite copy_to_bytes_take, take_app_length, drop_app_length, length_app.
  by destruct (Nat.ltb_spec (length l + length r) (length l)); [lia|].
Qed.

Lemma remaining_put n z : remaining (put_uint n z) = Z.of_nat n.
Proof. unfold remaining. by rewrite length_put_uint. Qed.

Lemma advance_remaining b c n : n = remaining b -> advance (Z.to_nat n) (b ++ c) = Ret c.
Proof. intros ->. apply advance_app. unfold remaining. lia. Qed.

Lemma read_u32_put z r : is_u32 z -> read_u32_be (put_uint 4 z ++ r) = Some (z, r).
Proof.
  intros Hz. pose proof (get_put 4 z r Hz) as H. rewrite get_uint_be in H.
  rewrite read_u32_be_get. revert H. case_match; [done|]. by intros [= -> ->].
Qed.
End bytes_lemmas.

(** ** The crate [crc32fast] and [components/util/src/crc32.rs] *)

Class Crc32Api : Type := {
  hasher : Type;
  hasher_new : hasher;
  hasher_update : hasher -> list byte -> hasher;
  hasher_finalize : hasher -> Z;
  (* crc32fast::hash *)
  crc32fast_hash : list byte -> Z;
}.

(** [hash] is the one-shot form of the hasher, feeding the hasher piecewise is feeding it
    the concatenation, and a checksum is a [u32]. *)
Class Crc32Laws (C : Crc32Api) : Prop := {
  hash_oneshot l : crc32fast_hash l = hasher_finalize (hasher_update hasher_new l);
  update_nil h : hasher_update h [] = h;
  update_app h a b : hasher_update (hasher_update h a) b = hasher_update h (a ++ b);
  finalize_u32 h : is_u32 (hasher_finalize h);
}.

Definition crc32 `{Crc32Api} (data : list byte) : Z := crc32fast_hash data.

Definition crc32_vectored `{Crc32Api} (io_vec : list (list byte)) : Z :=
  hasher_finalize (foldl hasher_update hasher_new io_vec).

Section crc_lemmas.
Context {C : Crc32Api} {CL : Crc32Laws C}.

Lemma foldl_update h vs : foldl hasher_update h vs = hasher_update h (concat vs).
Proof.
  revert h. induction vs as [|v vs IH]; intros h; simpl.
  - by rewrite update_nil.
  - by rewrite IH, update_app.
Qed.

(** The checksum of a vector of slices is the checksum of their concatenation. *)
Lemma crc32_vectored_concat vs : crc32_vectored vs = crc32 (concat vs).
Proof. unfold crc32_vectored, crc32. by rewrite foldl_update, hash_oneshot. Qed.

Lemma crc32_u32 l : is_u32 (crc32 l).
Proof. unfold crc32. rewrite hash_oneshot. apply finalize_u32. Qed.
End crc_lemmas.

(** CRC-32/ISO-HDLC, bit by bit: the reflected polynomial [0xEDB88320]. *)
Definition crc_bit (r : Z) : Z :=
  if Z.odd r then Z.lxor (Z.shiftr r 1) 0xEDB88320 else Z.shiftr r 1.
Definition crc_byte (r : Z) (b : byte) : Z :=
  Nat.iter 8 crc_bit (Z.lxor r (byte.unsigned b)).

#[export] Instance iso_hdlc_api : Crc32Api := {
  hasher := Z;
  hasher_new := 0xFFFFFFFF;
  hasher_update := foldl crc_byte;
  hasher_finalize r := as_uint 32 (Z.lxor r 0xFFFFFFFF);
  crc32fast_hash l := as_uint 32 (Z.lxor (foldl crc_byte 0xFFFFFFFF l) 0xFFFFFFFF);
}.

#[export] Instance iso_hdlc_laws : Crc32Laws iso_hdlc_api.
Proof.
  split; intros; simpl; [done|done|by rewrite foldl_app|by apply as_uint_range].
Qed.

Definition ascii_bytes (s : string) : list byte := String.list_byte_of_string s.

(** The values of the tests in [crc32.rs]. *)
Example crc32_abcdef : crc32 (ascii_bytes "abcdef") = 1267612143.
Proof. vm_compute. done. Qed.
Example crc32_vectored_abc_def :
  crc32_vectored [ascii_bytes "abc"; ascii_bytes "def"] = 1267612143.
Proof. vm_compute. done. Qed.

#[global] Opaque be_encode be_decode.
