(* ===== verification/Collections.v ===== *)
(** * Ordered collections of the Rust standard library

    [BTreeMap] with integer keys as an association list kept sorted by key, and
    [BinaryHeap] as an interface: [pop] takes a greatest element, and which of several
    equal elements comes first is not specified. *)

From S2P Require Import Prelude.

Module BTreeMap.
Section btree.
Context {V : Type}.

Definition t := list (Z * V).

Fixpoint get (m : t) (k : Z) : option V :=
  match m with
  | [] => None
  | (k', v) :: m => if k =? k' then Some v else get m k
  end.

Fixpoint insert (m : t) (k : Z) (v : V) : t :=
  match m with
  | [] => [(k, v)]
  | (k', v') :: m' =>
      if k <? k' then (k, v) :: m
      else if k =? k' then (k, v) :: m'
      else (k', v') :: insert m' k v
  end.

Fixpoint remove (m : t) (k : Z) : t :=
  match m with
  | [] => []
  | (k', v) :: m => if k =? k' then m else (k', v) :: remove m k
  end.

Definition first_key_value (m : t) : option (Z * V) := head m.
Definition pop_first (m : t) : option ((Z * V) * t) :=
  match m with [] => None | e :: m => Some (e, m) end.
Definition last_key_value (m : t) : option (Z * V) := last m.

(** [range(..=k).next_back()]: the entry with the greatest key up to [k]. *)
Definition last_le (m : t) (k : Z) : option (Z * V) :=
  last (List.filter (fun e => e.1 <=? k) m).
(** [range(k..)]: the entries with key [k] or greater. *)
Definition range_from (m : t) (k : Z) : t := List.filter (fun e => k <=? e.1) m.

(** The cursor [upper_bound(Included(k))]: the entries from the greatest key up to [k] on;
    none, which is the position behind the last entry, when there is no such key. *)
Definition upper_bound (m : t) (k : Z) : t :=
  match last_le m k with Some (k', _) => range_from m k' | None => [] end.

Definition sorted (m : t) : Prop := StronglySorted (fun a b => a.1 < b.1) m.

Lemma sorted_nil : sorted [].
Proof. constructor. Qed.

Lemma sorted_cons k v m :
  sorted ((k, v) :: m) <-> (forall k' v', (k', v') ∈ m -> k < k') /\ sorted m.
Proof.
  unfold sorted. rewrite StronglySorted_cons, Forall_forall. split; intros [H ?]; split; auto.
  - intros k' v' Hin. apply (H _ Hin).
  - intros [k' v'] Hin. simpl. eauto.
Qed.

Lemma insert_elem m k v k' v' :
  (k', v') ∈ insert m k v -> (k', v') = (k, v) \/ (k', v') ∈ m.
Proof.
  induction m as [|[k0 v0] m IH]; simpl; [set_solver|]. repeat case_bool; set_solver.
Qed.

Lemma sorted_insert m k v : sorted m -> sorted (insert m k v).
Proof.
  induction m as [|[k0 v0] m IH]; simpl; [intros; apply sorted_cons; set_solver|].
  intros [Hlt Hs]%sorted_cons. repeat case_bool; apply sorted_cons.
  - split; [|by apply sorted_cons]. intros k' v' [[= <- <-]|Hin]%elem_of_cons; [lia|].
    specialize (Hlt _ _ Hin). lia.
  - done.
  - split; [|by auto]. intros k' v' [[= -> ->]|Hin]%insert_elem; eauto. lia.
Qed.

Lemma elem_of_remove m k k' v' : (k', v') ∈ remove m k -> (k', v') ∈ m.
Proof. induction m as [|[k0 v0] m IH]; simpl; [done|]. case_bool; set_solver. Qed.

Lemma sorted_remove m k : sorted m -> sorted (remove m k).
Proof.
  induction m as [|[k0 v0] m IH]; simpl; [done|]. intros [Hlt Hs]%sorted_cons.
  case_bool; [done|]. apply sorted_cons. eauto using elem_of_remove.
Qed.

Lemma get_insert m k v k' : get (insert m k v) k' = if decide (k' = k) then Some v else get m k'.
Proof.
  induction m as [|[k0 v0] m IH]; simpl; [by repeat case_match; bool_to_prop|].
  repeat (case_bool; simpl); try rewrite IH; destruct (decide _); repeat case_bool; done.
Qed.

Lemma get_elem m k v : sorted m -> get m k = Some v <-> (k, v) ∈ m.
Proof.
  induction m as [|[k0 v0] m IH]; simpl; [set_solver|]. intros [Hlt Hs]%sorted_cons.
  rewrite elem_of_cons. case_bool.
  - split; [naive_solver|]. intros [[= ->]|Hin]; [done|]. specialize (Hlt _ _ Hin). lia.
  - rewrite IH by done. naive_solver.
Qed.

Lemma elem_of_insert m k v k' v' :
  sorted m -> (k', v') ∈ insert m k v <-> (k' = k /\ v' = v) \/ (k' <> k /\ (k', v') ∈ m).
Proof.
  intros Hs. rewrite <- !get_elem, get_insert by auto using sorted_insert.
  destruct (decide (k' = k)); naive_solver.
Qed.

Lemma get_remove m k k' :
  sorted m -> get (remove m k) k' = if decide (k' = k) then None else get m k'.
Proof.
  induction m as [|[k0 v0] m IH]; simpl; [by destruct (decide _)|].
  intros [Hlt Hs]%sorted_cons. case_bool; simpl.
  - destruct (decide (k' = k0)) as [->|]; [|by case_bool].
    destruct (get m k0) as [v|] eqn:Hg; [|done]. apply get_elem in Hg; [|done].
    specialize (Hlt _ _ Hg). lia.
  - rewrite IH by done. destruct (decide (k' = k)) as [->|]; [|done]. by case_bool.
Qed.

Lemma last_max m k v :
  sorted m -> (k, v) ∈ m -> (forall k' v', (k', v') ∈ m -> k' <= k) -> last_key_value m = Some (k, v).
Proof.
  unfold last_key_value. induction m as [|[k0 v0] m IH]; [set_solver|].
  intros [Hlt Hs]%sorted_cons Hin Hmax. destruct m as [|kv m]; [set_solver|].
  change (last ((k0, v0) :: kv :: m)) with (last (kv :: m)). apply IH; [done| |set_solver].
  apply elem_of_cons in Hin as [[= -> ->]|Hin]; [|done]. destruct kv as [k1 v1].
  pose proof (Hlt k1 v1 ltac:(set_solver)). pose proof (Hmax k1 v1 ltac:(set_solver)). lia.
Qed.

Lemma sorted_filter (f : Z * V -> bool) m : sorted m -> sorted (List.filter f m).
Proof.
  induction m as [|[k v] m IH]; simpl; [done|]. intros [Hlt Hs]%sorted_cons.
  case_match; [|by apply IH]. apply sorted_cons. split; [|by apply IH].
  intros k' v' Hin%list_elem_of_In%filter_In. apply (Hlt k' v'). apply list_elem_of_In, Hin.
Qed.

(** Removing the key of an entry takes the entry out. *)
Lemma remove_length (m : t) k v : get m k = Some v -> S (length (remove m k)) = length m.
Proof.
  induction m as [|[k0 v0] m IH]; simpl; [done|]. destruct (k =? k0); [done|]. intros H. simpl. by rewrite IH.
Qed.

Lemma remove_mid (m1 m2 : t) k v :
  sorted (m1 ++ (k, v) :: m2) -> remove (m1 ++ (k, v) :: m2) k = m1 ++ m2.
Proof.
  induction m1 as [|[k0 v0] m1 IH]; simpl.
  - intros _. by rewrite Z.eqb_refl.
  - intros [Hlt Hs]%sorted_cons. specialize (Hlt k v ltac:(set_solver)).
    rewrite (proj2 (Z.eqb_neq _ _)) by lia. by rewrite IH.
Qed.
Lemma upper_bound_incl (m : t) k e : e ∈ upper_bound m k -> e ∈ m.
Proof.
  unfold upper_bound. case_match; [|set_solver]. case_match. unfold range_from.
  rewrite !list_elem_of_In, filter_In. by intros [? _].
Qed.

Lemma upper_bound_head (m : t) k k' v :
  sorted m -> last_le m k = Some (k', v) ->
  k' <= k /\ exists rest, upper_bound m k = (k', v) :: rest.
Proof.
  intros Hs Hl. unfold upper_bound. rewrite Hl. unfold last_le in Hl.
  assert ((k', v) ∈ List.filter (fun e => e.1 <=? k) m) as Hin by by apply last_Some_elem_of.
  rewrite list_elem_of_In, filter_In in Hin. destruct Hin as [Hin Hk]. simpl in Hk. apply Z.leb_le in Hk.
  split; [done|]. apply list_elem_of_In, list_elem_of_split in Hin as (m1 & m2 & ->).
  exists (range_from m2 k'). unfold range_from. rewrite List.filter_app. simpl.
  rewrite Z.leb_refl.
  assert (List.filter (fun e : Z * _ => k' <=? e.1) m1 = []) as ->; [|done].
  assert (forall e, e ∈ m1 -> e.1 < k') as Hlt.
  { intros e He. apply (StronglySorted_app_1_elem_of _ m1 ((k', v) :: m2) e (k', v) Hs He). set_solver. }
  clear -Hlt. induction m1 as [|e m1 IH]; simpl; [done|].
  rewrite (proj2 (Z.leb_gt _ _)) by (apply Hlt; set_solver). apply IH. set_solver.
Qed.

End btree.
Arguments t : clear implicits.
End BTreeMap.

(** ** Sums over a map *)

Section map_sum.
Context {K V : Type} `{Countable K} (f : V -> Z).

Definition map_sum (m : gmap K V) : Z := map_fold (fun _ v n => f v + n) 0 m.

Lemma map_sum_insert m k v : m !! k = None -> map_sum (<[k := v]> m) = f v + map_sum m.
Proof. intros Hk. unfold map_sum. rewrite map_fold_insert_L; [done| |done]. intros; lia. Qed.

Lemma map_sum_delete m k v : m !! k = Some v -> map_sum m = f v + map_sum (delete k m).
Proof. intros Hk. rewrite <- (map_sum_insert _ k) by apply lookup_delete_eq. by rewrite insert_delete_id. Qed.

Lemma map_sum_update m k v : map_sum (<[k := v]> m) = f v + map_sum (delete k m).
Proof. by rewrite <- insert_delete_eq, map_sum_insert by apply lookup_delete_eq. Qed.

Lemma map_sum_nonneg m : (forall v, 0 <= f v) -> 0 <= map_sum m.
Proof.
  intros Hf. induction m as [|k v m Hk IH] using map_ind; [done|]. rewrite map_sum_insert by done.
  specialize (Hf v). lia.
Qed.
End map_sum.

(** ** [BinaryHeap] *)

(** [cmp a b] is [a.cmp(&b)]. *)
Class HeapApi (A : Type) := {
  heap : Type;
  heap_new : heap;
  heap_push : heap -> A -> heap;
  heap_peek : heap -> option A;
  heap_pop : heap -> option (A * heap);
  heap_items : heap -> list A;   (* the elements, in no particular order *)
}.

Definition heap_is_empty {A} `{HeapApi A} (h : heap) : bool :=
  match heap_items h with [] => true | _ => false end.

Class HeapLaws (A : Type) (cmp : A -> A -> comparison) `{H : HeapApi A} : Prop := {
  heap_items_new : heap_items heap_new = [];
  heap_items_push h a : heap_items (heap_push h a) ≡ₚ a :: heap_items h;
  heap_peek_pop h : heap_peek h = fst <$> heap_pop h;
  heap_pop_None h : heap_pop h = None <-> heap_items h = [];
  heap_pop_Some h a h' : heap_pop h = Some (a, h') ->
    heap_items h ≡ₚ a :: heap_items h' /\
    forall b, b ∈ heap_items h' -> cmp a b <> Lt;
}.

(** A heap as an unordered list from which [pop] takes the first greatest element. *)
Section list_heap.
Context {A : Type} (cmp : A -> A -> comparison).

Fixpoint list_pop (l : list A) : option (A * list A) :=
  match l with
  | [] => None
  | a :: l =>
      match list_pop l with
      | None => Some (a, l)
      | Some (b, l') => match cmp a b with Lt => Some (b, a :: l') | _ => Some (a, l) end
      end
  end.

Definition list_heap : HeapApi A := {|
  heap := list A;
  heap_new := [];
  heap_push h a := h ++ [a];
  heap_peek h := fst <$> list_pop h;
  heap_pop := list_pop;
  heap_items h := h;
|}.

Lemma list_pop_None l : list_pop l = None <-> l = [].
Proof. destruct l as [|a l]; [done|]. simpl. by repeat case_match. Qed.

Hypothesis cmp_trans : forall a b c, cmp a b <> Lt -> cmp b c <> Lt -> cmp a c <> Lt.
Hypothesis cmp_antisym : forall a b, cmp a b = Lt -> cmp b a <> Lt.

Lemma list_pop_Some l a l' :
  list_pop l = Some (a, l') -> l ≡ₚ a :: l' /\ forall b, b ∈ l' -> cmp a b <> Lt.
Proof.
  revert a l'. induction l as [|x l IH]; intros a l'; [done|]. simpl.
  destruct (list_pop l) as [[b l1]|] eqn:Hp.
  - destruct (IH _ _ eq_refl) as [Hperm Hmax]. destruct (cmp x b) eqn:Hc; intros [= <- <-].
    1,3: split; [done|]; intros y; rewrite Hperm; intros [->|Hy]%elem_of_cons;
      [congruence|eapply cmp_trans; [|by apply Hmax]; congruence].
    split; [by rewrite Hperm; constructor|].
    intros y [->|Hy]%elem_of_cons; [by apply cmp_antisym|by apply Hmax].
  - apply list_pop_None in Hp as ->. intros [= <- <-]. set_solver.
Qed.

Lemma list_heap_laws : @HeapLaws A cmp list_heap.
Proof.
  constructor; simpl; [done| |done|apply list_pop_None|apply list_pop_Some].
  intros h a. by rewrite Permutation_app_comm.
Qed.
End list_heap.
