(* ===== verification/Codec.v ===== *)
(** * The frame codec

    [components/codec/src/frame.rs] and [error.rs]: the SBP frame and its wire format.

<<
    | length 4B | magic 1B | opcode 2B | flag 1B | stream-id 4B | format 1B
    | header length 3B | header | payload | checksum 4B |
>>

    [length] counts every byte after itself.  [check] validates a prefix of the receive
    buffer, [parse] reads the frame [check] accepted, [encode] produces the buffers that
    are written to the socket.  The theorems: [check] never panics and accepts only byte
    sequences that [encode] can produce from the frame [parse] returns, [parse] after
    [check] never panics and consumes the same bytes, and [check]/[parse] read back what
    [encode] writes. *)

From S2P Require Import Prelude Bytes.

Module Frame.

(** ** Constants and data *)

Definition MAGIC_CODE : Z := 23.
Definition MIN_FRAME_LENGTH : Z := 16.
Definition MAX_FRAME_LENGTH : Z := 16 * 1024 * 1024.

Inductive HeaderFormat := Unknown | FlatBuffer | ProtoBuffer | JSON.

#[export] Instance HeaderFormat_eq_dec : EqDecision HeaderFormat.
Proof. solve_decision. Defined.

(** [num_enum]'s [IntoPrimitive] and [TryFromPrimitive] with [repr(u8)]. *)
Definition HeaderFormat_into (f : HeaderFormat) : Z :=
  match f with Unknown => 0 | FlatBuffer => 1 | ProtoBuffer => 2 | JSON => 3 end.
Definition HeaderFormat_try_from (z : Z) : option HeaderFormat :=
  if z =? 0 then Some Unknown
  else if z =? 1 then Some FlatBuffer
  else if z =? 2 then Some ProtoBuffer
  else if z =? 3 then Some JSON
  else None.

Record t := mk {
  operation_code : Z;      (* i16 *)
  flag : Z;                (* u8 *)
  stream_id : Z;           (* u32 *)
  header_format : HeaderFormat;
  header : option (list byte);
  payload : option (list (list byte));
}.

(** The message of [BadFrame] by its format string and arguments. *)
Inductive BadFrameReason :=
| LengthBelowMin (found : Z)
| HeaderTooLong (header_length frame_length : Z)
| PayloadTooLong (payload_length frame_length header_length : Z).

Inductive FrameError :=
| Incomplete
| BadFrame (reason : BadFrameReason)
| TooLongFrame (found max : Z)
| MagicCodeMismatch (found expected : Z)
| TooLongFrameHeader (found expected : Z)
| PayloadChecksumMismatch (expected actual : Z)
| ConnectionReset.

(** ** Flags *)

(** [protocol::rpc::header::CommonFlags], fbs/rpc.fbs. *)
Definition RESPONSE : Z := 1.
Definition END_OF_STREAM : Z := 2.
Definition SYSTEM_ERROR : Z := 4.

Definition set_flag (f : Z) (fr : t) : t :=
  mk (operation_code fr) f (stream_id fr) (header_format fr) (header fr) (payload fr).

Definition flag_common (fl : Z) (fr : t) : t := set_flag (Z.lor (flag fr) (as_uint 8 fl)) fr.
Definition has_common_flag (fl : Z) (fr : t) : bool :=
  Z.land (flag fr) (as_uint 8 fl) =? as_uint 8 fl.
Definition flag_go_away (fl : Z) (fr : t) : t := set_flag (Z.lor (flag fr) (as_uint 8 fl)) fr.
Definition has_go_away_flag (fl : Z) (fr : t) : bool :=
  Z.land (flag fr) (as_uint 8 fl) =? as_uint 8 fl.

Definition is_response (fr : t) : bool := has_common_flag RESPONSE fr.
Definition flag_response (fr : t) : t := flag_common RESPONSE fr.
Definition end_of_stream (fr : t) : bool := has_common_flag END_OF_STREAM fr.
Definition flag_end_of_response_stream (fr : t) : t :=
  flag_common END_OF_STREAM (flag_common RESPONSE fr).
Definition system_error (fr : t) : bool := has_common_flag SYSTEM_ERROR fr.
Definition flag_system_err (fr : t) : t :=
  flag_common SYSTEM_ERROR (flag_common RESPONSE (flag_common END_OF_STREAM fr)).

(** ** Construction

    The thread-local counter [STREAM_ID] is threaded through. *)
Definition new (op : Z) (STREAM_ID : Z) : outcome (t * Z) :=
  next ← u32_add STREAM_ID 1;
  Ret (mk op 0 STREAM_ID FlatBuffer None None, next).

Definition get_response_payload (fr : t) : option (list byte) :=
  match payload fr with
  | Some payload_parts =>
      match payload_parts with
      | [b] => Some b
      | _ => Some (concat payload_parts)
      end
  | None => None
  end.

(** ** Wire format *)

Section codec.
Context {B : BytesApi} {C : Crc32Api}.

(** The length field of three bytes: one byte and then a [u16]. *)
Definition get_u24 (src : list byte) : outcome (Z * list byte) :=
  '(hi, src) ← get_uint 1 src;
  '(lo, src) ← get_uint 2 src;
  len ← u32_add lo (as_uint 32 (Z.shiftl hi 16));
  Ret (len, src).

(** The part of [check] after the magic code was verified. *)
Definition check_body (frame_length : Z) (src : list byte)
  : outcome (result unit FrameError * list byte) :=
  src ← advance 2 src;
  src ← advance 1 src;
  src ← advance 4 src;
  src ← advance 1 src;
  '(header_length, src) ← get_u24 src;
  max_header ← uint_sub frame_length MIN_FRAME_LENGTH;
  if max_header <? header_length then
    Ret (Err (BadFrame (HeaderTooLong header_length frame_length)), src)
  else
  src ← advance (Z.to_nat header_length) src;
  sum ← u32_add header_length MIN_FRAME_LENGTH;
  if sum <? frame_length then
    d ← uint_sub frame_length header_length;
    payload_length ← uint_sub d MIN_FRAME_LENGTH;
    if as_uint 32 (Z.of_nat (length src)) <? payload_length then
      Ret (Err (BadFrame (PayloadTooLong payload_length frame_length header_length)), src)
    else
    '(body, src) ← copy_to_bytes (Z.to_nat payload_length) src;
    '(checksum, src) ← get_uint 4 src;
    if negb (checksum =? crc32 body) then
      Ret (Err (PayloadChecksumMismatch checksum (crc32 body)), src)
    else Ret (Ok (), src)
  else
    src ← advance 4 src;
    Ret (Ok (), src).

Definition check (src : list byte) : outcome (result unit FrameError * list byte) :=
  match read_u32_be src with
  | None => Ret (Err Incomplete, src)
  | Some (frame_length, src) =>
      if frame_length <? MIN_FRAME_LENGTH then
        Ret (Err (BadFrame (LengthBelowMin frame_length)), src)
      else if MAX_FRAME_LENGTH <? frame_length then
        Ret (Err (TooLongFrame frame_length MAX_FRAME_LENGTH), src)
      else if Z.of_nat (length src) <? frame_length then
        Ret (Err Incomplete, src)
      else
        '(magic_code, src) ← get_uint 1 src;
        if negb (MAGIC_CODE =? magic_code) then
          Ret (Err (MagicCodeMismatch magic_code MAGIC_CODE), src)
        else check_body frame_length src
  end.

Definition to_opcode_unchecked (code : Z) : Z := as_sint 16 code.

(** [parse] always returns [Ok] when it returns. *)
Definition parse (src : list byte) : outcome (result t FrameError * list byte) :=
  '(frame_length, src) ← get_uint 4 src;
  src ← advance 1 src;
  remaining ← uint_sub frame_length 1;
  '(op_code, src) ← get_uint 2 src;
  remaining ← uint_sub remaining 2;
  '(flag, src) ← get_uint 1 src;
  remaining ← uint_sub remaining 1;
  '(stream_id, src) ← get_uint 4 src;
  remaining ← uint_sub remaining 4;
  '(fmt, src) ← get_uint 1 src;
  remaining ← uint_sub remaining 1;
  '(header_length, src) ← get_u24 src;
  remaining ← uint_sub remaining 3;
  '(header, src) ←
    (if 0 <? header_length then
       '(h, src) ← copy_to_bytes (Z.to_nat header_length) src;
       Ret (Some h, src)
     else Ret (None, src));
  remaining ← uint_sub remaining header_length;
  payload_length ← uint_sub remaining 4;
  '(payload, src) ←
    (if 0 <? payload_length then
       '(p, src) ← copy_to_bytes (Z.to_nat payload_length) src;
       Ret (Some [p], src)
     else Ret (None, src));
  remaining ← uint_sub remaining payload_length;
  src ← advance 4 src;
  _ ← uint_sub remaining 4;
  Ret (Ok (mk (to_opcode_unchecked op_code) flag stream_id
                (default Unknown (HeaderFormat_try_from fmt)) header payload), src).

(** [iter().map(len).sum::<usize>()] *)
Fixpoint sum_lens (acc : Z) (bs : list (list byte)) : outcome Z :=
  match bs with
  | [] => Ret acc
  | b :: bs => acc ← usize_add acc (Z.of_nat (length b)); sum_lens acc bs
  end.

Definition encode (fr : t) : outcome (result (list (list byte)) FrameError) :=
  frame_length ← (match header fr with
                  | Some h => usize_add 16 (Z.of_nat (length h))
                  | None => Ret 16
                  end);
  payload_len ← sum_lens 0 (default [] (payload fr));
  frame_length ← usize_add frame_length payload_len;
  if MAX_FRAME_LENGTH <? frame_length then
    Ret (Err (TooLongFrame (as_uint 32 frame_length) MAX_FRAME_LENGTH))
  else
  let basic_part :=
    put_uint 4 (as_uint 32 frame_length) ++
    put_uint 1 MAGIC_CODE ++
    put_uint 2 (as_uint 16 (operation_code fr)) ++
    put_uint 1 (flag fr) ++
    put_uint 4 (stream_id fr) ++
    put_uint 1 (HeaderFormat_into (header_format fr)) ++
    match header fr with
    | Some h => drop 1 (be_encode 4 (as_uint 32 (Z.of_nat (length h)))) ++ h
    | None => put_uint 1 0 ++ put_uint 2 0
    end in
  match payload fr with
  | Some p => Ret (Ok ([basic_part] ++ p ++ [be_encode 4 (crc32_vectored p)]))
  | None => Ret (Ok ([basic_part] ++ [replicate 4 Init.Byte.x00]))
  end.

(** ** The wire form *)

(** The fixed part of a frame after the length field, up to the header. *)
Definition wire_fixed (op fl sid fmt hlen : Z) : list byte :=
  put_uint 2 op ++ put_uint 1 fl ++ put_uint 4 sid ++ put_uint 1 fmt ++
  put_uint 1 (hlen / 65536) ++ put_uint 2 (hlen mod 65536).

(** A complete frame with raw opcode [op], format byte [fmt] and checksum field [ck]. *)
Definition wire (op fl sid fmt : Z) (h p : list byte) (ck : Z) : list byte :=
  put_uint 4 (16 + Z.of_nat (length h) + Z.of_nat (length p)) ++
  put_uint 1 MAGIC_CODE ++
  wire_fixed op fl sid fmt (Z.of_nat (length h)) ++ h ++ p ++ put_uint 4 ck.

Definition wire_ok (op fl sid fmt : Z) (h p : list byte) (ck : Z) : Prop :=
  is_u16 op /\ is_u8 fl /\ is_u32 sid /\ is_u8 fmt /\ is_u32 ck /\
  16 + Z.of_nat (length h) + Z.of_nat (length p) <= MAX_FRAME_LENGTH.

Definition opt_bytes (l : list byte) : option (list byte) :=
  match l with [] => None | _ => Some l end.

(** The frame a receiver builds from the wire form. *)
Definition wire_frame (op fl sid fmt : Z) (h p : list byte) : t :=
  mk (to_opcode_unchecked op) fl sid (default Unknown (HeaderFormat_try_from fmt))
     (opt_bytes h) (option_map (fun b => [b]) (opt_bytes p)).
End codec.

(** What the wire preserves of a frame: an empty header or payload is no header or
    payload, and the payload arrives as one buffer. *)
Definition normalize (fr : t) : t :=
  mk (operation_code fr) (flag fr) (stream_id fr) (header_format fr)
     (opt_bytes (default [] (header fr)))
     (option_map (fun b => [b]) (opt_bytes (concat (default [] (payload fr))))).

Definition payload_bytes (fr : t) : list byte := concat (default [] (payload fr)).
Definition header_bytes (fr : t) : list byte := default [] (header fr).
Definition encoded_length (fr : t) : Z :=
  16 + Z.of_nat (length (header_bytes fr)) + Z.of_nat (length (payload_bytes fr)).

(** The ranges of the machine integers of a frame. *)
Definition wf (fr : t) : Prop :=
  is_sint 16 (operation_code fr) /\ is_u8 (flag fr) /\ is_u32 (stream_id fr).

Section theorems.
Context {B : BytesApi} {BL : BytesLaws B} {C : Crc32Api} {CL : Crc32Laws C}.

(** Any [n] available bytes are the encoding of some integer. *)
Lemma bytes_split n (l : list byte) :
  (n <= length l)%nat ->
  exists v r, l = put_uint n v ++ r /\ 0 <= v < 2 ^ (Z.of_nat n * 8) /\
              length l = (n + length r)%nat.
Proof.
  intros Hn. destruct (get_uint n l) as [[v r]|] eqn:E.
  - exists v, r. split; [by apply put_get|].
    rewrite get_uint_be in E. case_match; [done|]. injection E as <- <-.
    rewrite length_drop. split; [|lia].
    pose proof (be_decode_range (take n l)) as Hr. by rewrite length_take_le in Hr.
  - rewrite get_uint_be in E. case_match eqn:H; [|done]. apply Nat.ltb_lt in H. lia.
Qed.

Lemma get_u24_put hi lo r :
  is_u8 hi -> is_u16 lo ->
  get_u24 (put_uint 1 hi ++ put_uint 2 lo ++ r) = Ret (lo + hi * 65536, r).
Proof.
  intros Hhi Hlo. unfold get_u24, is_uint in *. rewrite !get_put by done. simpl.
  rewrite get_put by done. simpl. rewrite Z.shiftl_mul_pow2 by done.
  rewrite as_uint_id by (unfold is_uint; lia). by ret_arith.
Qed.

(** What [check] decides once the fixed part is available. *)
Lemma check_fixed len m op fl sid fmt hi lo src :
  16 <= len <= MAX_FRAME_LENGTH -> is_u8 m -> is_u8 hi -> is_u16 lo ->
  len - 12 <= Z.of_nat (length src) ->
  let hlen := lo + hi * 65536 in
  check (put_uint 4 len ++ put_uint 1 m ++ put_uint 2 op ++ put_uint 1 fl ++
         put_uint 4 sid ++ put_uint 1 fmt ++ put_uint 1 hi ++ put_uint 2 lo ++ src) =
  if negb (MAGIC_CODE =? m) then
    Ret (Err (MagicCodeMismatch m MAGIC_CODE),
         put_uint 2 op ++ put_uint 1 fl ++ put_uint 4 sid ++ put_uint 1 fmt ++
         put_uint 1 hi ++ put_uint 2 lo ++ src)
  else if len - 16 <? hlen then Ret (Err (BadFrame (HeaderTooLong hlen len)), src)
  else
    let s := drop (Z.to_nat hlen) src in
    let plen := len - hlen - 16 in
    if hlen + 16 <? len then
      if as_uint 32 (Z.of_nat (length s)) <? plen then
        Ret (Err (BadFrame (PayloadTooLong plen len hlen)), s)
      else
        let body := take (Z.to_nat plen) s in
        let s := drop (Z.to_nat plen) s in
        let ck := be_decode (take 4 s) in
        if negb (ck =? crc32 body) then
          Ret (Err (PayloadChecksumMismatch ck (crc32 body)), drop 4 s)
        else Ret (Ok (), drop 4 s)
    else Ret (Ok (), drop 4 s).
Proof.
  intros Hlen Hm Hhi Hlo Hsrc hlen. unfold check, MAX_FRAME_LENGTH, MIN_FRAME_LENGTH in *.
  assert (0 <= hlen < 2 ^ 24) as Hh by (unfold hlen, is_uint in *; lia).
  rewrite read_u32_put by (unfold is_uint; lia).
  rewrite (proj2 (Z.ltb_ge _ _)), (proj2 (Z.ltb_ge _ _)), (proj2 (Z.ltb_ge _ _)) by
    (rewrite ?length_app, ?length_put_uint; lia).
  rewrite get_put by done. simpl. destruct (MAGIC_CODE =? m); simpl; [|done].
  unfold check_body, MIN_FRAME_LENGTH.
  do 4 (rewrite advance_app by apply length_put_uint; simpl).
  rewrite get_u24_put by done. simpl. fold hlen. rewrite (uint_sub_Ret len 16) by lia. simpl.
  case_bool; [done|]. rewrite advance_drop.
  rewrite (proj2 (Nat.ltb_ge _ _)) by lia. simpl. ret_arith.
  case_bool.
  - ret_arith.
    case_bool; [done|]. rewrite copy_to_bytes_take.
    rewrite (proj2 (Nat.ltb_ge _ _)) by (rewrite length_drop; lia). simpl.
    rewrite get_uint_be, (proj2 (Nat.ltb_ge _ _)) by (rewrite !length_drop; lia). done.
  - rewrite advance_drop, (proj2 (Nat.ltb_ge _ _)) by (rewrite length_drop; lia). done.
Qed.

Lemma hlen_split hlen :
  0 <= hlen < 2 ^ 24 ->
  is_u8 (hlen / 65536) /\ is_u16 (hlen mod 65536) /\ hlen mod 65536 + hlen / 65536 * 65536 = hlen.
Proof.
  intros. unfold is_uint. pose proof (Z.div_mod hlen 65536).
  pose proof (Z.mod_pos_bound hlen 65536). repeat split; lia.
Qed.

(** Either [check] stops with an error at the length field, or the buffer holds the whole
    fixed part of the frame and [check_fixed] applies. *)
Lemma check_decompose src :
  (exists e s, check src = Ret (Err e, s)) \/
  exists len m op fl sid fmt hi lo s,
    src = put_uint 4 len ++ put_uint 1 m ++ put_uint 2 op ++ put_uint 1 fl ++
          put_uint 4 sid ++ put_uint 1 fmt ++ put_uint 1 hi ++ put_uint 2 lo ++ s /\
    16 <= len <= MAX_FRAME_LENGTH /\ is_u8 m /\ is_u16 op /\ is_u8 fl /\ is_u32 sid /\
    is_u8 fmt /\ is_u8 hi /\ is_u16 lo /\ len - 12 <= Z.of_nat (length s).
Proof.
  destruct (decide (length src < 4)%nat) as [Hs|Hs].
  { left. unfold check. rewrite read_u32_be_get, (proj2 (Nat.ltb_lt _ _)) by done. eauto. }
  destruct (bytes_split 4 src) as (len & s & -> & Hlen & _); [lia|].
  unfold check. rewrite read_u32_put by done. unfold MIN_FRAME_LENGTH.
  destruct (Z.ltb_spec len 16); [by eauto|].
  destruct (Z.ltb_spec MAX_FRAME_LENGTH len); [by eauto|].
  destruct (Z.ltb_spec (Z.of_nat (length s)) len); [by eauto|]. right.
  destruct (bytes_split 1 s) as (m & s1 & -> & Hm & Hl0); [lia|].
  destruct (bytes_split 2 s1) as (op & s2 & -> & Hop & Hl1); [lia|].
  destruct (bytes_split 1 s2) as (fl & s3 & -> & Hfl & Hl2); [lia|].
  destruct (bytes_split 4 s3) as (sid & s4 & -> & Hsid & Hl3); [lia|].
  destruct (bytes_split 1 s4) as (fmt & s5 & -> & Hfmt & Hl4); [lia|].
  destruct (bytes_split 1 s5) as (hi & s6 & -> & Hhi & Hl5); [lia|].
  destruct (bytes_split 2 s6) as (lo & s7 & -> & Hlo & Hl6); [lia|].
  exists len, m, op, fl, sid, fmt, hi, lo, s7. unfold is_uint. repeat split; lia || done.
Qed.

(** [check] accepts a complete wire form and stops right after it. *)
Lemma check_wire op fl sid fmt h p ck rest :
  wire_ok op fl sid fmt h p ck -> (p <> [] -> ck = crc32 p) ->
  Z.of_nat (length (wire op fl sid fmt h p ck ++ rest)) < 2 ^ 32 ->
  check (wire op fl sid fmt h p ck ++ rest) = Ret (Ok (), rest).
Proof.
  intros (Hop & Hfl & Hsid & Hfmt & Hck & Hmax) Hcrc Hsz.
  unfold wire, wire_fixed in *. rewrite !length_app, !length_put_uint in Hsz.
  destruct (hlen_split (Z.of_nat (length h))) as (Hhi & Hlo & Heq);
    [unfold MAX_FRAME_LENGTH in *; lia|].
  rewrite <- !(assoc_L (++)). rewrite check_fixed; try done; [|lia|].
  2: { rewrite !length_app, !length_put_uint. lia. }
  rewrite Heq. simpl. rewrite (proj2 (Z.ltb_ge _ _)) by lia.
  rewrite Nat2Z.id, drop_app_length.
  destruct p as [|b p].
  { simpl. rewrite (proj2 (Z.ltb_ge _ _)) by lia. by rewrite <- (length_put_uint 4 ck) at 1; rewrite drop_app_length. }
  rewrite (proj2 (Z.ltb_lt _ _)) by (simpl; lia).
  replace (16 + Z.of_nat (length h) + Z.of_nat (length (b :: p)) - Z.of_nat (length h) - 16)
    with (Z.of_nat (length (b :: p))) by lia.
  rewrite as_uint_id by (unfold is_uint; rewrite !length_app, length_put_uint; lia).
  rewrite (proj2 (Z.ltb_ge _ _)) by (rewrite !length_app; lia).
  rewrite Nat2Z.id, take_app_length, drop_app_length.
  destruct (decode_put 4 ck rest Hck) as [-> ->].
  by rewrite Hcrc, Z.eqb_refl.
Qed.

(** [parse] reads a complete wire form. *)
Lemma parse_wire op fl sid fmt h p ck rest :
  wire_ok op fl sid fmt h p ck ->
  parse (wire op fl sid fmt h p ck ++ rest) = Ret (Ok (wire_frame op fl sid fmt h p), rest).
Proof.
  intros (Hop & Hfl & Hsid & Hfmt & Hck & Hmax).
  unfold parse, wire, wire_fixed, MAX_FRAME_LENGTH in *.
  destruct (hlen_split (Z.of_nat (length h))) as (Hhi & Hlo & Heq); [lia|].
  rewrite <- !(assoc_L (++)).
  rewrite get_put by lia. simpl.
  rewrite advance_app by apply length_put_uint. simpl. ret_arith.
  rewrite get_put by done. simpl. ret_arith.
  rewrite get_put by done. simpl. ret_arith.
  rewrite get_put by done. simpl. ret_arith.
  rewrite get_put by done. simpl. ret_arith.
  rewrite get_u24_put by done. simpl. rewrite Heq. ret_arith.
  assert (forall l r : list byte, (if 0 <? Z.of_nat (length l) then
            '(h0, src) ← copy_to_bytes (Z.to_nat (Z.of_nat (length l))) (l ++ r);
            Ret (Some h0, src)
          else Ret (None, l ++ r)) = Ret (opt_bytes l, r)) as Hcopy.
  { intros [|b l] r; [done|]. rewrite Nat2Z.id. by rewrite copy_to_bytes_app. }
  rewrite Hcopy. simpl. ret_arith.
  match goal with |- context [uint_sub ?x 4] =>
    replace x with (4 + Z.of_nat (length p)) by lia end.
  rewrite uint_sub_Ret by lia. simpl.
  replace (4 + Z.of_nat (length p) - 4) with (Z.of_nat (length p)) by lia.
  destruct p as [|b p].
  - simpl. ret_arith. rewrite advance_app by apply length_put_uint. simpl. by ret_arith.
  - rewrite Nat2Z.id, copy_to_bytes_app by done. simpl. ret_arith.
    rewrite advance_app by apply length_put_uint. simpl. by ret_arith.
Qed.

(** [check] returns on every buffer: no slice access, subtraction or addition of
    [check] can panic, whatever bytes a peer sends. *)
Theorem check_total (src : list byte) : returns (check src).
Proof.
  unfold returns.
  destruct (check_decompose src) as [(e & s & ->)|H]; [by eauto|].
  destruct H as (len & m & op & fl & sid & fmt & hi & lo & s & -> & ? & ? & ? & ? & ? & ? & ? & ? & ?).
  rewrite check_fixed by done. cbv zeta. repeat case_match; by eexists.
Qed.

(** What [check] accepts has the canonical wire form, and its payload matches the checksum. *)
Lemma check_canonical src rest :
  check src = Ret (Ok (), rest) ->
  exists op fl sid fmt h p ck,
    wire_ok op fl sid fmt h p ck /\ src = wire op fl sid fmt h p ck ++ rest /\
    (p <> [] -> ck = crc32 p).
Proof.
  intros Hc. destruct (check_decompose src) as [(e & s & He)|H]; [congruence|].
  destruct H as (len & m & op & fl & sid & fmt & hi & lo & s & -> & Hlen & Hm & ? & ? & ? & ? & Hhi & Hlo & Hs).
  rewrite check_fixed in Hc by done.
  set (hlen := lo + hi * 65536) in *. cbv zeta in Hc.
  assert (0 <= hlen < 2 ^ 24) as Hh by (unfold hlen, is_uint in *; lia).
  case_bool. case_bool.
  assert (hlen / 65536 = hi /\ hlen mod 65536 = lo) as [Hdiv Hmod].
  { clear -Hhi Hlo. unfold is_uint, hlen in *. split.
    - rewrite Z.div_add, Z.div_small by lia. done.
    - rewrite Z.mod_add, Z.mod_small by lia. done. }
  set (h := take (Z.to_nat hlen) s). set (s1 := drop (Z.to_nat hlen) s) in *.
  assert (Z.of_nat (length h) = hlen) as Hlh by (unfold h; rewrite length_take; lia).
  assert (s = h ++ s1) as Hsplit by (symmetry; apply take_drop).
  assert (Z.of_nat (length s1) = Z.of_nat (length s) - hlen) as Hl1.
  { rewrite Hsplit, length_app. lia. }
  set (p := take (Z.to_nat (len - hlen - 16)) s1). set (s2 := drop (Z.to_nat (len - hlen - 16)) s1) in *.
  assert (Z.of_nat (length p) = len - hlen - 16) as Hlp by (unfold p; rewrite length_take; lia).
  assert (s1 = p ++ s2) as Hsplit1 by (symmetry; apply take_drop).
  destruct (bytes_split 4 s2) as (ck & r & Hck & Hckr & Hlr).
  { apply (f_equal length) in Hsplit1. rewrite length_app in Hsplit1. lia. }
  assert (be_decode (take 4 s2) = ck /\ drop 4 s2 = r) as [Hdec Hdrop].
  { rewrite Hck. by apply decode_put. }
  exists op, fl, sid, fmt, h, p, ck. split; [|split].
  - repeat split; try done; unfold is_uint in *; lia.
  - unfold wire, wire_fixed. rewrite Hlh, Hdiv, Hmod, Hlp.
    replace (16 + hlen + (len - hlen - 16)) with len by lia.
    rewrite <- !(assoc_L (++)).
    enough (r = rest) as <- by (rewrite <- Hck, <- Hsplit1, <- Hsplit; done).
    destruct (Z.ltb_spec (hlen + 16) len).
    + repeat case_bool. done.
    + rewrite <- Hdrop. injection Hc as <-. unfold s2.
      by replace (len - hlen - 16) with 0 by lia.
  - intros Hp. destruct (Z.ltb_spec (hlen + 16) len); repeat case_bool.
    + done.
    + destruct p; [done|]. simpl in Hlp. lia.
Qed.

(** A buffer that [check] accepts starts with the canonical wire form of one frame whose
    checksum field is the CRC-32 of its payload when it has one; [parse] on the same buffer
    does not panic, returns that frame with all its integers in range, and leaves the cursor
    exactly where [check] left it. *)
Theorem check_then_parse (src rest : list byte) :
  check src = Ret (Ok (), rest) ->
  exists op fl sid fmt h p ck,
    src = wire op fl sid fmt h p ck ++ rest /\
    wire_ok op fl sid fmt h p ck /\ (p <> [] -> ck = crc32 p) /\
    parse src = Ret (Ok (wire_frame op fl sid fmt h p), rest) /\
    wf (wire_frame op fl sid fmt h p).
Proof.
  intros Hc. destruct (check_canonical _ _ Hc) as (op & fl & sid & fmt & h & p & ck & Hok & -> & Hp).
  exists op, fl, sid, fmt, h, p, ck. split_and!; try done.
  - by apply parse_wire.
  - destruct Hok as (Hop & Hfl & Hsid & _). split_and!; try done.
    simpl. unfold to_opcode_unchecked, is_sint, as_sint.
    pose proof (Z.mod_pos_bound (op + 2 ^ (16 - 1)) (2 ^ 16)). lia.
Qed.

Lemma sum_lens_concat bs acc :
  acc + Z.of_nat (length (concat bs)) < 2 ^ 64 ->
  sum_lens acc bs = Ret (acc + Z.of_nat (length (concat bs))).
Proof.
  revert acc. induction bs as [|b bs IH]; intros acc H; simpl in *; [f_equal; lia|].
  rewrite length_app in *. ret_arith. rewrite IH by lia. f_equal. lia.
Qed.

Lemma sum_lens_inv bs acc v :
  sum_lens acc bs = Ret v -> v = acc + Z.of_nat (length (concat bs)).
Proof.
  revert acc. induction bs as [|b bs IH]; intros acc H; simpl in *; inv_ret; [lia|].
  rewrite length_app. apply IH in H0. lia.
Qed.

Lemma encode_wire fr :
  wf fr -> encoded_length fr <= MAX_FRAME_LENGTH ->
  exists bufs ck,
    encode fr = Ret (Ok bufs) /\
    concat bufs = wire (as_uint 16 (operation_code fr)) (flag fr) (stream_id fr)
                       (HeaderFormat_into (header_format fr)) (header_bytes fr) (payload_bytes fr) ck /\
    wire_ok (as_uint 16 (operation_code fr)) (flag fr) (stream_id fr)
            (HeaderFormat_into (header_format fr)) (header_bytes fr) (payload_bytes fr) ck /\
    (payload_bytes fr <> [] -> ck = crc32 (payload_bytes fr)).
Proof.
  intros (Hop & Hfl & Hsid) Hlen. unfold encoded_length, MAX_FRAME_LENGTH in Hlen.
  assert ((match header fr with Some h => usize_add 16 (Z.of_nat (length h)) | None => Ret 16 end)
          = Ret (16 + Z.of_nat (length (header_bytes fr)))) as Hh.
  { unfold header_bytes in *. destruct (header fr); simpl in *; by ret_arith. }
  unfold encode. rewrite Hh. simpl. rewrite sum_lens_concat by (unfold payload_bytes in *; lia).
  fold (payload_bytes fr). simpl. ret_arith. unfold MAX_FRAME_LENGTH.
  rewrite (proj2 (Z.ltb_ge _ _)) by lia.
  rewrite as_uint_id by (unfold is_uint; lia).
  set (ck := match payload fr with Some p => crc32_vectored p | None => 0 end).
  assert (is_u32 ck) as Hck.
  { unfold ck. destruct (payload fr); [|done]. rewrite crc32_vectored_concat. apply crc32_u32. }
  assert (forall h : list byte, Z.of_nat (length h) < 2 ^ 24 ->
     drop 1 (be_encode 4 (as_uint 32 (Z.of_nat (length h)))) =
     put_uint 1 (Z.of_nat (length h) / 65536) ++ put_uint 2 (Z.of_nat (length h) mod 65536)) as Hbe.
  { intros h Hsz. rewrite as_uint_id by (unfold is_uint; lia).
    rewrite (be_encode_app 1 3), (be_encode_app 1 2), !put_uint_be.
    change 65536 with (2 ^ (Z.of_nat 2 * 8)). by rewrite be_encode_mod. }
  assert (forall fmt, is_u8 (HeaderFormat_into fmt)) as Hfmt by (by intros []).
  exists ([put_uint 4 (16 + Z.of_nat (length (header_bytes fr)) + Z.of_nat (length (payload_bytes fr))) ++
     put_uint 1 MAGIC_CODE ++ put_uint 2 (as_uint 16 (operation_code fr)) ++ put_uint 1 (flag fr) ++
     put_uint 4 (stream_id fr) ++ put_uint 1 (HeaderFormat_into (header_format fr)) ++
     match header fr with
     | Some h => drop 1 (be_encode 4 (as_uint 32 (Z.of_nat (length h)))) ++ h
     | None => put_uint 1 0 ++ put_uint 2 0
     end] ++ default [] (payload fr) ++ [be_encode 4 ck]), ck.
  split_and!.
  - unfold ck. by destruct (payload fr).
  - simpl. rewrite concat_app. simpl. rewrite app_nil_r. unfold wire, wire_fixed.
    fold (payload_bytes fr). rewrite put_uint_be with (n := 4%nat) (z := ck).
    rewrite <- !(assoc_L (++)). do 6 f_equal.
    unfold header_bytes in *. destruct (header fr) as [h|]; simpl in *.
    + rewrite Hbe by lia. by rewrite <- !(assoc_L (++)).
    + by rewrite <- !(assoc_L (++)).
  - split_and!; done || (by apply as_uint_range) || (unfold MAX_FRAME_LENGTH; lia).
  - intros Hne. unfold ck. unfold payload_bytes in *. destruct (payload fr); [|done].
    apply crc32_vectored_concat.
Qed.

Lemma encode_Ok_length fr bufs :
  encode fr = Ret (Ok bufs) -> encoded_length fr <= MAX_FRAME_LENGTH.
Proof.
  intros Henc. unfold encode in Henc.
  destruct (match header fr with Some h => usize_add 16 (Z.of_nat (length h)) | None => Ret 16 end)
    as [n|] eqn:Hn; [|done]. simpl in Henc.
  destruct (sum_lens 0 (default [] (payload fr))) as [m|] eqn:Hm; [|done]. simpl in Henc.
  destruct (usize_add n m) as [k|] eqn:Hk; [|done]. simpl in Henc.
  apply uint_add_inv in Hk as [-> Hk]. case_bool.
  assert (n = 16 + Z.of_nat (length (header_bytes fr))) as ->.
  { unfold header_bytes. destruct (header fr); simpl in *; [by apply uint_add_inv in Hn as [-> _]|].
    by simplify_eq. }
  apply sum_lens_inv in Hm. unfold encoded_length, payload_bytes. lia.
Qed.

Lemma length_wire op fl sid fmt h p ck :
  length (wire op fl sid fmt h p ck) = (20 + length h + length p)%nat.
Proof. unfold wire, wire_fixed. rewrite !length_app, !length_put_uint. lia. Qed.

Lemma encode_size fr bufs :
  wf fr -> encode fr = Ret (Ok bufs) ->
  Z.of_nat (length (concat bufs)) <= 4 + MAX_FRAME_LENGTH /\ concat bufs <> [].
Proof.
  intros Hwf Henc. pose proof (encode_Ok_length _ _ Henc) as Hle.
  destruct (encode_wire fr Hwf Hle) as (bufs' & ck & Henc' & Hcat & _).
  rewrite Henc in Henc'. simplify_eq. unfold encoded_length in Hle.
  pose proof (f_equal length Hcat) as Hl. rewrite length_wire in Hl. split; [lia|].
  intros Hnil. rewrite Hnil in Hl. simpl in Hl. lia.
Qed.

(** What [encode] produces is a complete wire form of the normalized frame. *)
Lemma encode_as_wire fr bufs :
  wf fr -> encode fr = Ret (Ok bufs) ->
  exists op fl sid fmt h p ck,
    concat bufs = wire op fl sid fmt h p ck /\ wire_ok op fl sid fmt h p ck /\
    (p <> [] -> ck = crc32 p) /\ wire_frame op fl sid fmt h p = normalize fr.
Proof.
  intros Hwf Henc. pose proof (encode_Ok_length _ _ Henc) as Hle.
  destruct (encode_wire fr Hwf Hle) as (bufs' & ck & Henc' & Hcat & Hok & Hck).
  rewrite Henc in Henc'. simplify_eq. do 7 eexists. split_and!; try done.
  destruct Hwf as (Hop & _). unfold wire_frame, normalize, to_opcode_unchecked.
  rewrite as_sint_as_uint by done. f_equal. by destruct (header_format fr).
Qed.

(** C23: What [encode] writes for a frame, followed by any other bytes, is accepted by [check]
    and parsed back by [parse] to the same frame (up to [normalize]); both stop exactly at the
    end of the encoded frame. *)
Theorem encode_roundtrip (fr : t) (bufs : list (list byte)) (rest : list byte) :
  wf fr -> encode fr = Ret (Ok bufs) ->
  Z.of_nat (length (concat bufs ++ rest)) < 2 ^ 32 ->
  check (concat bufs ++ rest) = Ret (Ok (), rest) /\
  parse (concat bufs ++ rest) = Ret (Ok (normalize fr), rest).
Proof.
  intros Hwf Henc Hsz.
  destruct (encode_as_wire fr bufs Hwf Henc) as (op & fl & sid & fmt & h & p & ck & Hcat & ? & ? & <-).
  rewrite Hcat in *. split; [by apply check_wire|by apply parse_wire].
Qed.

(** [encode] succeeds exactly when the whole frame fits in 16 MiB, otherwise it reports
    [TooLongFrame] with the length it would have had; the bytes it produces are [4] more than
    the length field says. *)
Theorem encode_spec (fr : t) :
  wf fr -> encoded_length fr < 2 ^ 64 ->
  (encoded_length fr <= MAX_FRAME_LENGTH /\
   exists bufs, encode fr = Ret (Ok bufs) /\
                Z.of_nat (length (concat bufs)) = 4 + encoded_length fr) \/
  (MAX_FRAME_LENGTH < encoded_length fr /\
   encode fr = Ret (Err (TooLongFrame (as_uint 32 (encoded_length fr)) MAX_FRAME_LENGTH))).
Proof.
  intros Hwf H64. destruct (decide (encoded_length fr <= MAX_FRAME_LENGTH)) as [Hle|Hgt].
  - left. split; [done|].
    destruct (encode_wire fr Hwf Hle) as (bufs & ck & Henc & Hcat & _). exists bufs.
    split; [done|]. rewrite Hcat.
    unfold wire, wire_fixed, encoded_length. rewrite !length_app, !length_put_uint. lia.
  - right. split; [lia|]. unfold encode, encoded_length in *.
    assert ((match header fr with Some h => usize_add 16 (Z.of_nat (length h)) | None => Ret 16 end)
            = Ret (16 + Z.of_nat (length (header_bytes fr)))) as ->.
    { unfold header_bytes in *. destruct (header fr); simpl in *; by ret_arith. }
    simpl. rewrite sum_lens_concat by (unfold payload_bytes in *; lia).
    fold (payload_bytes fr). simpl. ret_arith. by rewrite (proj2 (Z.ltb_lt _ _)) by lia.
Qed.
End theorems.
End Frame.

(** ** Witnesses *)

Module FrameExample.
Import Frame.
Definition fr : t :=
  Frame.mk 0x1001 1 7 FlatBuffer (Some (ascii_bytes "header")) (Some [ascii_bytes "pay"; ascii_bytes "load"]).
Definition bufs : list (list byte) := match encode fr with Ret (Ok b) => b | _ => [] end.
Definition rest : list byte := ascii_bytes "next".

Lemma fr_wf : wf fr.
Proof. split_and!; by vm_compute. Qed.
Lemma fr_encode : encode fr = Ret (Ok bufs).
Proof. by vm_compute. Qed.
End FrameExample.

Lemma check_total_witness : returns (Frame.check FrameExample.rest).
Proof. exact (Frame.check_total FrameExample.rest). Defined.

Lemma check_then_parse_witness :
  exists op fl sid fmt h p ck,
    concat FrameExample.bufs ++ FrameExample.rest =
      Frame.wire op fl sid fmt h p ck ++ FrameExample.rest /\
    Frame.parse (concat FrameExample.bufs ++ FrameExample.rest) =
      Ret (Ok (Frame.wire_frame op fl sid fmt h p), FrameExample.rest).
Proof.
  destruct (Frame.check_then_parse (concat FrameExample.bufs ++ FrameExample.rest)
    FrameExample.rest) as (op & fl & sid & fmt & h & p & ck & H1 & _ & _ & H2 & _);
    [by vm_compute|].
  exists op, fl, sid, fmt, h, p, ck. exact (conj H1 H2).
Defined.

Lemma encode_roundtrip_witness :
  Frame.check (concat FrameExample.bufs ++ FrameExample.rest) = Ret (Ok (), FrameExample.rest) /\
  Frame.parse (concat FrameExample.bufs ++ FrameExample.rest) =
    Ret (Ok (Frame.normalize FrameExample.fr), FrameExample.rest).
Proof.
  apply (Frame.encode_roundtrip FrameExample.fr FrameExample.bufs FrameExample.rest
    FrameExample.fr_wf FrameExample.fr_encode). by vm_compute.
Defined.

Lemma encode_spec_witness :
  (Frame.encoded_length FrameExample.fr <= Frame.MAX_FRAME_LENGTH /\
   exists bufs, Frame.encode FrameExample.fr = Ret (Ok bufs) /\
     Z.of_nat (length (concat bufs)) = 4 + Frame.encoded_length FrameExample.fr) \/
  (Frame.MAX_FRAME_LENGTH < Frame.encoded_length FrameExample.fr /\
   Frame.encode FrameExample.fr =
     Ret (Err (Frame.TooLongFrame (as_uint 32 (Frame.encoded_length FrameExample.fr))
       Frame.MAX_FRAME_LENGTH))).
Proof. apply (Frame.encode_spec FrameExample.fr FrameExample.fr_wf). by vm_compute. Defined.
