(* ===== verification/Transport.v ===== *)
(** * Connections

    [components/transport/src/connection.rs]: how frames travel over one TCP connection.

    The socket is the environment.  A [writev] takes as many of the offered bytes as the
    socket has room for (a capacity per call), a [read] delivers the next chunk of the
    byte stream; both may fail.  [write] is the loop that copes with short writes
    and [read_frame] the loop that reassembles frames from chunks.  The queue in front of
    [write] is in [Connections.v]. *)

From S2P Require Import Prelude Bytes Codec.

Module Connection.
Import Frame.

Section transport.
Context {B : BytesApi} {C : Crc32Api}.

(** ** Writing *)

(** The [extract_if] closure of [write]: drop the buffers that are written entirely and
    advance the one that is written partially. *)
Fixpoint drain_written (n : Z) (buffers : list (list byte)) : outcome (Z * list (list byte)) :=
  match buffers with
  | [] => Ret (n, [])
  | buffer :: rest =>
      if Z.of_nat (length buffer) <=? n then
        n ← uint_sub n (Z.of_nat (length buffer));
        drain_written n rest
      else
        '(buffer, n) ←
          (if 0 <? n then buffer ← advance (Z.to_nat n) buffer; Ret (buffer, 0)
           else Ret (buffer, n));
        '(n, rest) ← drain_written n rest;
        Ret (n, buffer :: rest)
  end.

Inductive WriteResult :=
| Written
| EncodeFrame (e : FrameError)
| Network
| WritePending.

(** The loop of [write]: one capacity per [writev] call, [None] when the call fails.  The
    last component is what went out on the wire. *)
Fixpoint write_loop (caps : list (option nat)) (remaining : Z) (buffers : list (list byte))
    (wire : list byte) : outcome (WriteResult * list byte) :=
  match caps with
  | [] => Ret (WritePending, wire)
  | None :: _ => Ret (Network, wire)
  | Some cap :: caps =>
      let sent := take cap (concat buffers) in
      let n := Z.of_nat (length sent) in
      let wire := wire ++ sent in
      if n =? remaining then Ret (Written, wire)
      else
        remaining ← uint_sub remaining n;
        '(_, buffers) ← drain_written n buffers;
        write_loop caps remaining buffers wire
  end.

Definition write (frame : Frame.t) (caps : list (option nat)) : outcome (WriteResult * list byte) :=
  r ← encode frame;
  match r with
  | Err e => Ret (EncodeFrame e, [])
  | Ok buffers =>
      total ← sum_lens 0 buffers;
      write_loop caps total buffers []
  end.

(** ** Reading *)

Definition parse_frame (buffer : list byte)
  : outcome (result (option Frame.t) FrameError * list byte) :=
  '(r, rest) ← check buffer;
  match r with
  | Ok _ =>
      let len := (length buffer - length rest)%nat in
      '(p, _) ← parse buffer;
      match p with
      | Ok frame => buffer ← advance len buffer; Ret (Ok (Some frame), buffer)
      | Err e => Ret (Err e, buffer)
      end
  | Err Incomplete => Ret (Ok None, buffer)
  | Err e => Ret (Err e, buffer)
  end.

Inductive ReadResult :=
| ReadFrame (frame : Frame.t)
| ReadEof
| ReadError (e : FrameError)
| ReadPending.

(** The loop of [read_frame] on an open stream: one chunk per [read], [None] when the call
    fails (which counts as zero bytes).  Returns the chunks not consumed. *)
Fixpoint read_frame (chunks : list (option (list byte))) (buffer : list byte)
  : outcome (ReadResult * list byte * list (option (list byte))) :=
  '(r, buffer) ← parse_frame buffer;
  match r with
  | Err e => Ret (ReadError e, buffer, chunks)
  | Ok (Some frame) => Ret (ReadFrame frame, buffer, chunks)
  | Ok None =>
      match chunks with
      | [] => Ret (ReadPending, buffer, [])
      | c :: chunks =>
          let chunk := default [] c in
          let buffer := buffer ++ chunk in
          if (length chunk =? 0)%nat then
            match buffer with
            | [] => Ret (ReadEof, buffer, chunks)
            | _ => Ret (ReadError ConnectionReset, buffer, chunks)
            end
          else read_frame chunks buffer
      end
  end.

(** The receiving side of a session: [k] calls of [read_frame] in a row. *)
Fixpoint read_frames (k : nat) (chunks : list (option (list byte))) (buffer : list byte)
  : outcome (list ReadResult * list byte * list (option (list byte))) :=
  match k with
  | O => Ret ([], buffer, chunks)
  | S k =>
      '(r, buffer, chunks) ← read_frame chunks buffer;
      '(rs, buffer, chunks) ← read_frames k chunks buffer;
      Ret (r :: rs, buffer, chunks)
  end.

End transport.

Section theorems.
Context {B : BytesApi} {BL : BytesLaws B} {C : Crc32Api} {CL : Crc32Laws C}.

(** *** Short writes *)

Lemma drain_written_spec n buffers :
  0 <= n <= Z.of_nat (length (concat buffers)) ->
  exists buffers', drain_written n buffers = Ret (0, buffers') /\
                   concat buffers' = drop (Z.to_nat n) (concat buffers).
Proof.
  revert n. induction buffers as [|b bs IH]; intros n Hn; simpl in *.
  - exists []. by replace n with 0 by lia.
  - rewrite length_app in Hn. case_bool.
    + ret_arith. destruct (IH (n - Z.of_nat (length b))) as (bs' & -> & Hbs'); [lia|].
      exists bs'. split; [done|]. rewrite Hbs', drop_app, (drop_ge b) by lia. simpl. f_equal. lia.
    + destruct (IH 0) as (bs' & Hbs & Hcat); [lia|]. rewrite drop_0 in Hcat.
      case_bool.
      * rewrite advance_drop, (proj2 (Nat.ltb_ge _ _)) by lia. simpl. rewrite Hbs. simpl.
        eexists. split; [done|]. simpl. rewrite Hcat, drop_app.
        by replace (Z.to_nat n - length b)%nat with 0%nat by lia.
      * replace n with 0 by lia. simpl. rewrite Hbs. simpl. eexists. split; [done|].
        simpl. by rewrite Hcat.
Qed.

(** The room the socket offers over a sequence of calls that all succeed. *)
Fixpoint capacity (caps : list (option nat)) : option nat :=
  match caps with
  | [] => Some 0%nat
  | None :: _ => None
  | Some cap :: caps => Nat.add cap <$> capacity caps
  end.

Lemma write_loop_spec caps buffers w :
  exists r w',
    write_loop caps (Z.of_nat (length (concat buffers))) buffers w = Ret (r, w ++ w') /\
    w' `prefix_of` concat buffers /\ (r = Written -> w' = concat buffers) /\
    (forall room, capacity caps = Some room -> concat buffers <> [] ->
       (length (concat buffers) <= room)%nat -> r = Written).
Proof.
  revert buffers w. induction caps as [|[cap|] caps IH]; intros buffers w; simpl.
  - exists WritePending, []. rewrite app_nil_r. split_and!; [done|apply prefix_nil|done|].
    intros room [= <-]. destruct (concat buffers); simpl; [done|lia].
  - rewrite length_take. case_bool.
    + exists Written, (concat buffers). rewrite take_ge by lia. by split_and!.
    + ret_arith.
      destruct (drain_written_spec (Z.of_nat (cap `min` length (concat buffers))) buffers)
        as (bufs' & -> & Hcat); [lia|].
      simpl. replace (Z.to_nat (Z.of_nat (cap `min` length (concat buffers)))) with cap in Hcat by lia.
      replace (Z.of_nat (length (concat buffers)) - Z.of_nat (cap `min` length (concat buffers)))
        with (Z.of_nat (length (concat bufs'))) by (rewrite Hcat, length_drop; lia).
      destruct (IH bufs' (w ++ take cap (concat buffers))) as (r & w' & -> & Hpre & Hw & Hroom).
      exists r, (take cap (concat buffers) ++ w'). rewrite (assoc_L (++)).
      rewrite Hcat in *. split_and!; [done| | |].
      * rewrite <- (take_drop cap (concat buffers)) at 2. by apply prefix_app.
      * intros ->. rewrite Hw by done. apply take_drop.
      * intros room Hc Hne Hle. destruct (capacity caps) as [room'|]; simplify_eq/=.
        apply (Hroom room'); [done| |rewrite length_drop; lia].
        intros Hnil%(f_equal length). rewrite length_drop in Hnil. simpl in Hnil. lia.
  - exists Network, []. rewrite app_nil_r. split_and!; [done|apply prefix_nil|done..].
Qed.

(** Whatever short writes and failures the socket produces, [write] does not panic, what
    is on the wire is at every moment a prefix of the frame's encoding, [Ok] is reported only
    when the whole encoding was written, and if no call fails and the socket makes room for
    the whole frame the write completes. *)
Theorem write_short_writes (fr : Frame.t) (bufs : list (list byte)) (caps : list (option nat)) :
  wf fr -> encode fr = Ret (Ok bufs) ->
  exists r w,
    write fr caps = Ret (r, w) /\ w `prefix_of` concat bufs /\
    (r = Written -> w = concat bufs) /\
    (forall room, capacity caps = Some room -> (length (concat bufs) <= room)%nat -> r = Written).
Proof.
  intros Hwf Henc. unfold write. rewrite Henc. simpl.
  assert (Z.of_nat (length (concat bufs)) <= 4 + MAX_FRAME_LENGTH /\ concat bufs <> []) as [Hsz Hne].
  { by apply (encode_size fr). }
  rewrite sum_lens_concat by (unfold MAX_FRAME_LENGTH in *; lia). simpl. rewrite Z.add_0_l.
  destruct (write_loop_spec caps bufs []) as (r & w & -> & ? & ? & Hroom).
  exists r, w. rewrite app_nil_l. split_and!; try done. intros. by eapply Hroom.
Qed.

(** *** Reassembly *)

(** A proper prefix of a frame is never mistaken for a bad frame. *)
Lemma check_prefix op fl sid fmt h p ck s :
  wire_ok op fl sid fmt h p ck ->
  s `prefix_of` wire op fl sid fmt h p ck -> s <> wire op fl sid fmt h p ck ->
  exists r, check s = Ret (Err Incomplete, r).
Proof.
  intros Hok [s' Hs] Hne. assert (s' <> []) as Hs' by (by intros ->; rewrite app_nil_r in Hs).
  assert (0 < length s')%nat by (destruct s'; simpl; [done|lia]).
  unfold check. destruct (decide (length s < 4)%nat) as [Hlt|Hge].
  { rewrite read_u32_be_get, (proj2 (Nat.ltb_lt _ _)) by done. eauto. }
  unfold wire in Hs. destruct Hok as (_ & _ & _ & _ & _ & Hmax).
  set (len := 16 + _ + _) in *. assert (16 <= len < 2 ^ 32) as Hlen.
  { unfold MAX_FRAME_LENGTH in *. lia. }
  pose proof (f_equal (take 4) Hs) as Ht.
  rewrite !take_app_le in Ht by (rewrite ?length_put_uint; lia).
  rewrite (take_ge (put_uint 4 len)) in Ht by (rewrite length_put_uint; lia).
  rewrite read_u32_be_get, (proj2 (Nat.ltb_ge _ _)) by lia.
  assert (be_decode (take 4 s) = len) as ->.
  { rewrite <- Ht. pose proof (decode_put 4 len [] ltac:(lia)) as [Hd _].
    by rewrite app_nil_r, take_ge in Hd by (rewrite length_put_uint; lia). }
  unfold MIN_FRAME_LENGTH. rewrite (proj2 (Z.ltb_ge _ _)), (proj2 (Z.ltb_ge _ _)) by lia.
  rewrite (proj2 (Z.ltb_lt _ _)); [by eauto|].
  apply (f_equal length) in Hs. unfold wire_fixed in Hs.
  rewrite !length_app, !length_put_uint in Hs. rewrite length_drop. lia.
Qed.

Lemma parse_frame_wire op fl sid fmt h p ck rest :
  wire_ok op fl sid fmt h p ck -> (p <> [] -> ck = crc32 p) ->
  Z.of_nat (length (wire op fl sid fmt h p ck ++ rest)) < 2 ^ 32 ->
  parse_frame (wire op fl sid fmt h p ck ++ rest) =
    Ret (Ok (Some (wire_frame op fl sid fmt h p)), rest).
Proof.
  intros Hok Hck Hsz. unfold parse_frame. rewrite check_wire by done. simpl.
  rewrite parse_wire by done. simpl. rewrite advance_app; [done|]. rewrite length_app. lia.
Qed.

(** One call of [read_frame] on a stream that starts with a complete frame. *)
Lemma read_frame_wire op fl sid fmt h p ck chunks buffer rest :
  wire_ok op fl sid fmt h p ck -> (p <> [] -> ck = crc32 p) ->
  Forall (fun c => c <> []) chunks ->
  buffer ++ concat chunks = wire op fl sid fmt h p ck ++ rest ->
  Z.of_nat (length (wire op fl sid fmt h p ck ++ rest)) < 2 ^ 32 ->
  exists buffer' chunks',
    read_frame (Some <$> chunks) buffer =
      Ret (ReadFrame (wire_frame op fl sid fmt h p), buffer', Some <$> chunks') /\
    buffer' ++ concat chunks' = rest /\ Forall (fun c => c <> []) chunks'.
Proof.
  intros Hok Hck Hne Heq Hsz. revert buffer Heq.
  induction chunks as [|c chunks IH]; intros buffer Heq.
  - simpl in Heq. rewrite app_nil_r in Heq. subst buffer. exists rest, []. simpl.
    rewrite parse_frame_wire by done. split_and!; [done|apply app_nil_r|done].
  - inversion_clear Hne as [|? ? Hc Hcs].
    assert (concat (c :: chunks) = c ++ concat chunks) as Hcc by done.
    destruct (decide (length (wire op fl sid fmt h p ck) <= length buffer)%nat) as [Hle|Hlt].
    + assert (exists b', buffer = wire op fl sid fmt h p ck ++ b') as [b' ->].
      { exists (drop (length (wire op fl sid fmt h p ck)) buffer).
        rewrite <- (take_drop (length (wire op fl sid fmt h p ck)) buffer) at 1. f_equal.
        apply (f_equal (take (length (wire op fl sid fmt h p ck)))) in Heq.
        by rewrite take_app_le, take_app_length in Heq. }
      rewrite <- (assoc_L (++)) in Heq. apply (inj _) in Heq. rewrite <- Heq in *.
      exists b', (c :: chunks). simpl. rewrite parse_frame_wire; try done.
      * split_and!; [done|done|by constructor].
      * rewrite !length_app in *. lia.
    + assert (buffer `prefix_of` wire op fl sid fmt h p ck) as Hpre.
      { exists (drop (length buffer) (wire op fl sid fmt h p ck)).
        rewrite <- (take_drop (length buffer) (wire op fl sid fmt h p ck)) at 1. f_equal.
        apply (f_equal (take (length buffer))) in Heq.
        by rewrite take_app_length, take_app_le in Heq by lia. }
      destruct (check_prefix op fl sid fmt h p ck buffer Hok Hpre) as [r Hr]; [intros ->; lia|].
      simpl. unfold parse_frame at 1. rewrite Hr. simpl.
      rewrite (proj2 (Nat.eqb_neq _ _)) by (by destruct c).
      apply IH; [done|]. by rewrite <- (assoc_L (++)), <- Hcc.
Qed.

Lemma read_frames_wire frs encs chunks buffer :
  Forall2 (fun fr bufs => wf fr /\ encode fr = Ret (Ok bufs)) frs encs ->
  Forall (fun c => c <> []) chunks ->
  buffer ++ concat chunks = concat (@concat byte <$> encs) ->
  Z.of_nat (length (concat (@concat byte <$> encs))) < 2 ^ 32 ->
  read_frames (length frs) (Some <$> chunks) buffer =
    Ret ((fun fr => ReadFrame (normalize fr)) <$> frs, [], []).
Proof.
  intros Hall. revert chunks buffer.
  induction Hall as [|fr bufs frs encs [Hwf Henc] Hall IH]; intros chunks buffer Hne Hcat Hsz.
  - apply app_nil in Hcat as [-> Hnil]. destruct chunks as [|c chunks]; [done|].
    inversion_clear Hne. by apply app_nil in Hnil as [-> _].
  - destruct (encode_as_wire fr bufs Hwf Henc)
      as (op & fl & sid & fmt & h & p & ck & Hw & Hok & Hck & Hfr).
    rewrite fmap_cons, concat_cons, Hw in Hcat, Hsz. rewrite fmap_cons, <- Hfr. cbn [read_frames length].
    destruct (read_frame_wire op fl sid fmt h p ck chunks buffer (concat (@concat byte <$> encs)))
      as (b' & chunks' & -> & Hcat' & Hne'); try done.
    simpl. rewrite IH; [done|done|done|]. rewrite length_app in Hsz. lia.
Qed.

(** C21: Frames survive the byte stream: when the peer writes the encodings of any list of
    frames, then however TCP cuts the stream into chunks, the same number of [read_frame]
    calls returns exactly these frames in order, without panic or error, and leaves nothing
    in the buffer. *)
Theorem read_frames_reassemble (frs : list Frame.t) (encs : list (list (list byte)))
    (chunks : list (list byte)) :
  Forall2 (fun fr bufs => wf fr /\ encode fr = Ret (Ok bufs)) frs encs ->
  Forall (fun c => c <> []) chunks ->
  concat chunks = concat (@concat byte <$> encs) ->
  Z.of_nat (length (concat chunks)) < 2 ^ 32 ->
  read_frames (length frs) (Some <$> chunks) [] =
    Ret ((fun fr => ReadFrame (normalize fr)) <$> frs, [], []).
Proof. intros Hall Hne Hcat Hsz. rewrite Hcat in Hsz. by eapply read_frames_wire. Qed.
End theorems.
End Connection.

(** ** Witnesses *)

Lemma write_short_writes_witness :
  exists r w, Connection.write FrameExample.fr [Some 3%nat; Some 10%nat; Some 100%nat] = Ret (r, w) /\
    w `prefix_of` concat FrameExample.bufs /\
    (r = Connection.Written -> w = concat FrameExample.bufs) /\
    (forall room, Connection.capacity [Some 3%nat; Some 10%nat; Some 100%nat] = Some room ->
       (length (concat FrameExample.bufs) <= room)%nat -> r = Connection.Written).
Proof.
  exact (Connection.write_short_writes FrameExample.fr FrameExample.bufs
    [Some 3%nat; Some 10%nat; Some 100%nat] FrameExample.fr_wf FrameExample.fr_encode).
Defined.

Lemma read_frames_reassemble_witness :
  Connection.read_frames 2
    (Some <$> [take 5 (concat FrameExample.bufs);
               drop 5 (concat FrameExample.bufs) ++ concat FrameExample.bufs]) [] =
  Ret ([Connection.ReadFrame (Frame.normalize FrameExample.fr);
        Connection.ReadFrame (Frame.normalize FrameExample.fr)], [], []).
Proof.
  apply (Connection.read_frames_reassemble [FrameExample.fr; FrameExample.fr]
    [FrameExample.bufs; FrameExample.bufs]).
  - do 2 (constructor; [exact (conj FrameExample.fr_wf FrameExample.fr_encode)|]). constructor.
  - repeat constructor; by vm_compute.
  - by vm_compute.
  - by vm_compute.
Defined.
