(* ===== verification/Connections.v ===== *)
(** * Connections and their writers

    The rest of [components/transport/src/connection.rs]: establishing and closing a
    connection, and the queue of frames in front of the loop that writes them.  The code is
    single-threaded; [connect] and [write_frame] are cut where they wait.  Every TCP stream
    that was established has a number, which is also that of its write loop.  A write task is
    known by the stream id of its frame: the answer of its observer carries it. *)

From S2P Require Import Prelude Bytes Codec Transport.

Inductive ConnectionState := Unspecified | Connecting | Active | GoingAway | Closed.
#[export] Instance ConnectionState_eq_dec : EqDecision ConnectionState.
Proof. solve_decision. Defined.

Inductive ConnectionError :=
| EncodeFrame (e : Frame.FrameError)
| Network
| NotConnected
| Timeout_.

Module Conn.
(** The loop that [spawn_write_loop] starts, with the channel that it receives from. *)
Record write_loop := mk_loop { queue : list Frame.t; running : bool }.

Record t := mk {
  stream : option nat;
  state : ConnectionState;
  buffer : list byte;
  tx : option nat;
  tasks : list Frame.t;
  loops : list write_loop;
}.

Definition new : t := mk None Unspecified [] None [] [].

Definition set_state (c : t) (s : ConnectionState) : t := mk (stream c) s (buffer c) (tx c) (tasks c) (loops c).
Definition set_buffer (c : t) (b : list byte) : t := mk (stream c) (state c) b (tx c) (tasks c) (loops c).
Definition set_loops (c : t) (l : list write_loop) : t := mk (stream c) (state c) (buffer c) (tx c) (tasks c) l.
Definition set_tasks (c : t) (l : list Frame.t) : t := mk (stream c) (state c) (buffer c) (tx c) l (loops c).

(** What an observer gets: the stream id of the frame, and the result; an observer that is
    dropped makes [write_frame] fail with [Network]. *)
Definition answer : Type := Z * result unit ConnectionError.
Definition dropped (l : list Frame.t) : list answer := map (fun f => (Frame.stream_id f, Err Network)) l.

(** *** [connect], before and after it waits for the TCP stream *)

Definition connect_start (c : t) : t := set_state c Connecting.

(** How the attempt ends. *)
Inductive tcp_result := Established | Refused | TimedOut | NoLocalAddr | NagleFailed.

(** The tasks that were buffered meanwhile are written, or dropped. *)
Definition connect_done (c : t) (a : tcp_result) : t * list answer * result unit ConnectionError :=
  match a with
  | Established =>
      let k := length (loops c) in
      (mk (Some k) Active (buffer c) (Some k) [] (loops c ++ [mk_loop (tasks c) true]), [], Ok ())
  | Refused | NoLocalAddr => (set_tasks (set_state c Closed) [], dropped (tasks c), Err Network)
  | TimedOut => (set_tasks (set_state c Closed) [], dropped (tasks c), Err Timeout_)
  | NagleFailed => (set_tasks c [], dropped (tasks c), Err Network)
  end.

(** A connection that was accepted. *)
Definition with_stream : t := mk (Some 0%nat) Active [] (Some 0%nat) [] [mk_loop [] true].

(** *** Writing *)

(** [write_frame] up to its wait: [Some] when it fails at once. *)
Definition write_frame (c : t) (frame : Frame.t) : t * option ConnectionError :=
  match tx c with
  | Some k =>
      match loops c !! k with
      | Some l =>
          if running l
          then (set_loops c (<[k := mk_loop (queue l ++ [frame]) true]> (loops c)), None)
          else (c, Some Network)
      | None => (c, Some Network)
      end
  | None =>
      if decide (state c = Connecting) then (set_tasks c (tasks c ++ [frame]), None)
      else (c, Some NotConnected)
  end.

(** A round of a write loop: the first task of its channel is written. *)
Definition write_round (c : t) (k : nat) (res : Connection.WriteResult) : t * list answer :=
  match loops c !! k with
  | Some (mk_loop (frame :: rest) true) =>
      match res with
      | Connection.Written =>
          (set_loops c (<[k := mk_loop rest true]> (loops c)), [(Frame.stream_id frame, Ok ())])
      | Connection.EncodeFrame e =>
          (set_loops c (<[k := mk_loop rest true]> (loops c)), [(Frame.stream_id frame, Err (EncodeFrame e))])
      | Connection.Network =>
          (set_loops (set_state c Closed) (<[k := mk_loop [] false]> (loops c)), dropped (frame :: rest))
      | Connection.WritePending => (c, [])
      end
  | _ => (c, [])
  end.

(** [recv] returns [None]: the channel is empty and its sender was dropped. *)
Definition write_loop_ends (c : t) (k : nat) : t :=
  match loops c !! k with
  | Some (mk_loop [] true) =>
      if decide (tx c = Some k) then c else set_loops c (<[k := mk_loop [] false]> (loops c))
  | _ => c
  end.

(** *** Reading and closing *)

Section read.
Context {B : BytesApi} {C : Crc32Api}.

(** [read_frame] with the chunks that the stream delivers until it returns. *)
Definition read_frame (c : t) (chunks : list (option (list byte))) : outcome (t * Connection.ReadResult) :=
  match stream c with
  | Some _ =>
      '(r, buffer, _) ← Connection.read_frame chunks (buffer c);
      Ret (set_buffer c buffer, r)
  | None =>
      '(r, buffer) ← Connection.parse_frame (buffer c);
      Ret (set_buffer c buffer,
           match r with
           | Ok (Some frame) => Connection.ReadFrame frame
           | Ok None => Connection.ReadError Frame.ConnectionReset
           | Err e => Connection.ReadError e
           end)
  end.
End read.

Definition close (c : t) : t :=
  if decide (state c = Active) then mk (stream c) Closed (buffer c) None (tasks c) (loops c) else c.
End Conn.
