(* ===== verification/Model.v ===== *)
(** * The data model

    [components/model/src]: range, stream, server and object metadata, resource events,
    and their conversions to and from the generated flatbuffers objects ([RangeT],
    [StreamT], ...), whose fields and integer widths are those of
    [components/protocol/fbs/rpc.fbs].  [ObjectMetadata.find_bound] searches the sparse
    index of an offloaded object. *)

From S2P Require Import Prelude Bytes.

(** ** [range/mod.rs], [range_server.rs] *)

Module OffloadOwner.
Record t := mk { server_id : Z; (* i32 *) epoch : Z (* i16 *) }.
#[global] Instance t_eq_dec : EqDecision t.
Proof. solve_decision. Defined.
End OffloadOwner.

Module RangeServer.
Record t := mk {
  server_id : Z;               (* i32 *)
  advertise_address : string;
  state : Z;                   (* RangeServerState *)
}.
Definition new (id : Z) (address : string) (state : Z) : t := mk id address state.
End RangeServer.

Module RangeT.
Record t := mk {
  stream_id : Z; epoch : Z;      (* i64 *)
  index : Z;                     (* i32 *)
  start : Z; end_ : Z;           (* i64 *)
  servers : option (list RangeServer.t);
  replica_count : Z; ack_count : Z; (* i8 *)
  offload_owner : option OffloadOwner.t;
}.
End RangeT.

Module RangeMetadata.
Record t := mk {
  stream_id : Z;               (* u64 *)
  epoch : Z;                   (* u64 *)
  index : Z;                   (* i32 *)
  start : Z;                   (* u64 *)
  end_ : option Z;             (* Option<u64> *)
  replica : list RangeServer.t;
  replica_count : Z;           (* u8 *)
  ack_count : Z;               (* u8 *)
  offload_owner : option OffloadOwner.t;
}.

Definition new (stream_id index epoch start : Z) (end_ : option Z) : t :=
  mk stream_id epoch index start end_ [] 0 0 (Some (OffloadOwner.mk 0 0)).

Definition new_range (stream_id index epoch start : Z) (end_ : option Z)
    (replica_count ack_count : Z) : t :=
  mk stream_id epoch index start end_ [] replica_count ack_count
     (Some (OffloadOwner.mk 0 0)).

Definition held_by (m : t) (server_id : Z) : bool :=
  existsb (fun s => RangeServer.server_id s =? server_id) (replica m).

Definition contains (m : t) (offset : Z) : bool :=
  if offset <? start m then false
  else match end_ m with None => true | Some e => offset <? e end.

Definition with_start (m : t) (s : Z) : t :=
  mk (stream_id m) (epoch m) (index m) s (end_ m) (replica m) (replica_count m)
     (ack_count m) (offload_owner m).
Definition with_end (m : t) (e : option Z) : t :=
  mk (stream_id m) (epoch m) (index m) (start m) e (replica m) (replica_count m)
     (ack_count m) (offload_owner m).

(** The [debug_assert!(offset > self.start)] is not in a release build. *)
Definition trim_start (m : t) (offset : Z) : t := with_start m offset.
Definition has_end (m : t) : bool := bool_decide (is_Some (end_ m)).
Definition set_end (m : t) (e : Z) : t := with_end m (Some e).

(** The derived [PartialEq] with [replica] ignored. *)
Definition eqb (a b : t) : bool :=
  (stream_id a =? stream_id b) && (epoch a =? epoch b) && (index a =? index b) &&
  (start a =? start b) && bool_decide (end_ a = end_ b) &&
  (replica_count a =? replica_count b) && (ack_count a =? ack_count b) &&
  bool_decide (offload_owner a = offload_owner b).

(** [impl From<&RangeMetadata> for RangeT] and back. *)
Definition to_RangeT (m : t) : RangeT.t :=
  RangeT.mk (as_sint 64 (stream_id m)) (as_sint 64 (epoch m)) (index m)
    (as_sint 64 (start m))
    (match end_ m with None => -1 | Some offset => as_sint 64 offset end)
    (match replica m with [] => None | _ => Some (replica m) end)
    (as_sint 8 (replica_count m)) (as_sint 8 (ack_count m)) (offload_owner m).

Definition from_RangeT (v : RangeT.t) : t :=
  mk (as_uint 64 (RangeT.stream_id v)) (as_uint 64 (RangeT.epoch v)) (RangeT.index v)
    (as_uint 64 (RangeT.start v))
    (if RangeT.end_ v =? -1 then None else Some (as_uint 64 (RangeT.end_ v)))
    (default [] (RangeT.servers v))
    (as_uint 8 (RangeT.replica_count v)) (as_uint 8 (RangeT.ack_count v))
    (RangeT.offload_owner v).

Definition wf (m : t) : Prop :=
  is_u64 (stream_id m) /\ is_u64 (epoch m) /\ is_u64 (start m) /\
  (forall e, end_ m = Some e -> is_u64 e) /\ is_u8 (replica_count m) /\ is_u8 (ack_count m).
End RangeMetadata.

(** ** [stream/mod.rs], [replica.rs] *)

Module StreamMetadata.
Record t := mk {
  stream_id : Z;               (* u64 *)
  replica : Z;                 (* u8 *)
  ack_count : Z;               (* u8 *)
  retention_period_ms : Z;     (* Duration, in milliseconds *)
  start_offset : Z;            (* u64 *)
  epoch : Z;                   (* u64 *)
  deleted : bool;
}.

(** [Default] with the given stream id. *)
Definition holder (stream_id : Z) : t := mk stream_id 0 0 0 0 0 false.
End StreamMetadata.

Module RangeProgress.
Record t := mk { stream_id : Z; range_index : Z; confirm_offset : Z }.
End RangeProgress.

(** ** [object.rs] *)

Module ObjectMetadata.
Definition BLOCK_DELIMITER : Z := 0x66.
Definition FOOTER_MAGIC : Z := 0x88e241b785f4cff7.

Record t := mk {
  stream_id : Z;               (* u64 *)
  range_index : Z;             (* u32 *)
  epoch : Z;                   (* u16 *)
  start_offset : Z;            (* u64 *)
  end_offset_delta : Z;        (* u32 *)
  data_len : Z;                (* u32 *)
  sparse_index : list byte;
  key : option string;
}.

Definition new (stream_id range_index epoch start_offset : Z) : t :=
  mk stream_id range_index epoch start_offset 0 0 [] None.

Definition end_offset (m : t) : outcome Z := u64_add (start_offset m) (end_offset_delta m).

Section find_bound.
Context {B : BytesApi}.

(** One entry of the sparse index: an absolute end offset and a position. *)
Definition read_index (m : t) (cursor : list byte) : outcome (Z * Z * list byte) :=
  '(delta, cursor) ← get_uint 4 cursor;
  index_end_offset ← u64_add (start_offset m) delta;
  '(index_position, cursor) ← get_uint 4 cursor;
  Ret (index_end_offset, index_position, cursor).

(** The first loop: the position of the last entry that ends at or before [start]. *)
Fixpoint scan_start (fuel : nat) (m : t) (start : Z) (cursor : list byte)
    (position size_hint : Z) : outcome (Z * Z) :=
  match fuel, cursor with
  | _, [] => Ret (position, size_hint)
  | O, _ => Panic
  | S fuel, _ =>
      '(index_end_offset, index_position, cursor) ← read_index m cursor;
      if index_end_offset <=? start then scan_start fuel m start cursor index_position size_hint
      else
        d ← uint_sub index_position position;
        size_hint ← u32_add size_hint d;
        scan_start fuel m start cursor position size_hint
  end.

(** The second loop: where to stop reading. *)
Fixpoint scan_end (fuel : nat) (m : t) (end_ : option Z) (cursor : list byte)
    (start_position size_hint : Z) : outcome Z :=
  match fuel, cursor with
  | _, [] => Ret (data_len m)
  | O, _ => Panic
  | S fuel, _ =>
      '(index_end_offset, index_position, cursor) ← read_index m cursor;
      if match end_ with Some e => e <=? index_end_offset | None => false end then
        Ret index_position
      else if index_position <? start_position then
        scan_end fuel m end_ cursor start_position size_hint
      else
        d ← uint_sub index_position start_position;
        if size_hint <=? d then Ret index_position
        else scan_end fuel m end_ cursor start_position size_hint
  end.

Definition find_bound (m : t) (start : Z) (end_ : option Z) (size_hint : Z)
    (position : option Z) : outcome (option (Z * Z)) :=
  object_end_offset ← u64_add (start_offset m) (end_offset_delta m);
  if object_end_offset <=? start then Ret None
  else if match end_ with Some e => e <=? start_offset m | None => false end then Ret None
  else
  '(start_position, size_hint) ←
    (if start =? start_offset m then Ret (0, size_hint)
     else match position with
     | Some position => Ret (position, size_hint)
     | None =>
         '(position, size_hint) ←
           scan_start (length (sparse_index m)) m start (sparse_index m) 0 size_hint;
         Ret (position, if position =? 0 then data_len m else size_hint)
     end);
  end_position ←
    scan_end (length (sparse_index m)) m end_ (sparse_index m) start_position size_hint;
  Ret (Some (start_position, end_position)).

Definition gen_footer (data_len index_len : Z) : outcome (list byte) :=
  pos ← u32_add data_len 1;
  Ret (put_uint 4 pos ++ put_uint 4 index_len ++ replicate 32 Init.Byte.x00 ++
       put_uint 8 FOOTER_MAGIC).
End find_bound.
End ObjectMetadata.

(** ** [resource.rs] *)

Inductive Resource :=
| ResNone
| ResRangeServer (s : RangeServer.t)
| ResStream (s : StreamMetadata.t)
| ResRange (r : RangeMetadata.t)
| ResObject (o : ObjectMetadata.t).

Inductive EventType := EvNone | Listed | ListFinished | Added | Modified | Deleted | Reset_.

Record ResourceEvent := mkEvent { event_type : EventType; resource : Resource }.

(** ** Conversions *)

(** Converting range metadata to its wire object and back is the identity, provided the
    end offset is not [u64::MAX]: that one value is written as [-1] and read as an open range. *)
Theorem range_metadata_roundtrip (m : RangeMetadata.t) :
  RangeMetadata.wf m -> RangeMetadata.end_ m <> Some (2 ^ 64 - 1) ->
  RangeMetadata.from_RangeT (RangeMetadata.to_RangeT m) = m.
Proof.
  destruct m as [sid ep ix st e rep rc ac ow]. intros (? & ? & ? & He & ? & ?) Hne.
  unfold RangeMetadata.from_RangeT, RangeMetadata.to_RangeT. simpl in *.
  rewrite !as_uint_as_sint by done. f_equal; [|by destruct rep].
  destruct e as [e|]; [|done]. destruct (Z.eqb_spec (as_sint 64 e) (-1)) as [Hm|Hm].
  - exfalso. apply Hne. rewrite <- (as_uint_as_sint 64 e), Hm by (done || by apply He). done.
  - by rewrite as_uint_as_sint by (done || by apply He).
Qed.

Lemma range_metadata_roundtrip_witness :
  RangeMetadata.from_RangeT (RangeMetadata.to_RangeT (RangeMetadata.new 7 0 1 100 (Some 200))) =
    RangeMetadata.new 7 0 1 100 (Some 200).
Proof.
  apply (range_metadata_roundtrip (RangeMetadata.new 7 0 1 100 (Some 200))); [|done].
  split_and!; try done. intros e [= <-]. done.
Defined.
