(* ===== verification/StoreTypes.v ===== *)
(** * Requests and errors of the store

    The types that the range server and the stores exchange:
    [components/store/src/request.rs], [store/append_result.rs], [error/mod.rs],
    [components/model/src/batch.rs] and [range-server/src/error.rs]. *)

From S2P Require Import Prelude Bytes.

(** [trait Batch]. *)
Class Batch (R : Type) := { offset : R -> Z; (* u64 *) len : R -> Z (* u32 *) }.

Definition is_empty {R} `{Batch R} (r : R) : bool := len r =? 0.

Module AppendRecordRequest.
Record t := mk {
  stream_id : Z;               (* u64 *)
  range_index : Z;             (* i32 *)
  offset : Z;                  (* u64 *)
  len : Z;                     (* u32 *)
  buffer : list byte;
}.

(** [PartialEq] ignores [len] and [buffer]. *)
Definition eq (a b : t) : bool :=
  (stream_id a =? stream_id b) && (range_index a =? range_index b) && (offset a =? offset b).

(** [Ord::cmp] compares [other] with [self], so that a max-heap pops the smallest offset. *)
Definition cmp (self other : t) : comparison :=
  match stream_id other ?= stream_id self with
  | Eq =>
      match range_index other ?= range_index self with
      | Eq => offset other ?= offset self
      | c => c
      end
  | c => c
  end.
End AppendRecordRequest.

#[export] Instance AppendRecordRequest_eq_dec : EqDecision AppendRecordRequest.t.
Proof. solve_decision. Defined.

#[export] Instance AppendRecordRequest_Batch : Batch AppendRecordRequest.t :=
  { offset := AppendRecordRequest.offset; len := AppendRecordRequest.len }.

Module AppendResult.
Record t := mk {
  stream_id : Z;               (* u64 *)
  range_index : Z;             (* u32 *)
  offset : Z;                  (* u64 *)
  last_offset_delta : Z;       (* u32 *)
  wal_offset : Z;              (* u64 *)
  bytes_len : Z;               (* u32 *)
}.
End AppendResult.

Module AppendError.
Inductive t :=
| SubmissionQueue | ChannelRecv | System (errno : Z) | BadRequest | Committed | Inflight
| OutOfOrder | RangeNotFound | RangeSealed | Internal.
End AppendError.

Module FetchError.
Inductive t :=
| SubmissionQueue | ChannelRecv | TranslateIndex | NoRecord | RangeNotFound | BadRequest
| DataCorrupted.
End FetchError.

(** Messages are left out of the error values. *)
Module StoreError.
Inductive t :=
| Configuration | DiskFull | InvalidPath | InvalidLogSegmentFileName | AllocLogSegment
| WriteWindow | OffsetOutOfRange (offset : Z) | NotFound | IO | System (errno : Z) | IoUring
| OpCodeNotSupported (opcode : Z) | MemoryAlignment | OutOfMemory | Internal | DataCorrupted
| UnsupportedRecordType | InsufficientData | RocksDB | NotOpened | CacheMiss | CacheError
| AcquireLock.
End StoreError.

Module ServiceError.
Inductive t :=
| Unsupported (opcode : Z) | DescribeStream | AcquireRange | Seal | AlreadySealed
| AlreadyExisted | NotFound | OffsetCommitted | OffsetInFlight | OffsetOutOfOrder | Internal.

(** [impl From<ServiceError> for AppendError] ([handler/append.rs]). *)
Definition into_append_error (err : t) : AppendError.t :=
  match err with
  | OffsetCommitted => AppendError.Committed
  | OffsetInFlight => AppendError.Inflight
  | OffsetOutOfOrder => AppendError.OutOfOrder
  | _ => AppendError.Internal
  end.
End ServiceError.

(** ** Runs of requests *)

(** The requests tile the offsets from [a] to [b] without gap or overlap. *)
Fixpoint contiguous (a : Z) (l : list (Z * Z)) (b : Z) : Prop :=
  match l with
  | [] => a = b
  | (o, n) :: l => o = a /\ contiguous (a + n) l b
  end.

Lemma contiguous_snoc a l o n c :
  contiguous a (l ++ [(o, n)]) c <-> contiguous a l o /\ c = o + n.
Proof.
  revert a. induction l as [|[o' n'] l IH]; intros a; simpl; [|rewrite IH; tauto].
  split; intros [? ?]; subst; auto.
Qed.

Lemma contiguous_mem a l b o n :
  Forall (fun '(_, n) => 0 <= n) l -> contiguous a l b -> (o, n) ∈ l -> a <= o /\ o + n <= b.
Proof.
  intros Hpos. revert a. induction Hpos as [|[o' n'] l Hn' Hpos IH]; intros a; [set_solver|].
  intros [-> Hc] [[= <- <-]|Hin]%elem_of_cons.
  - clear IH. assert (forall a, contiguous a l b -> a <= b) as Hle; [|specialize (Hle _ Hc); lia].
    clear -Hpos. induction Hpos as [|[? ?] l ? ? IH]; simpl; [lia|].
    intros a' [-> ?%IH]. lia.
  - destruct (IH _ Hc Hin). lia.
Qed.

Lemma contiguous_cover a l b x :
  contiguous a l b -> a <= x < b -> exists o n, (o, n) ∈ l /\ o <= x < o + n.
Proof.
  revert a. induction l as [|[o n] l IH]; intros a; simpl; [lia|].
  intros [-> Hc] Hx. destruct (decide (x < a + n)).
  - exists a, n. set_solver by lia.
  - destruct (IH _ Hc) as (o & n' & ? & ?); [lia|]. exists o, n'. set_solver.
Qed.
