(* ===== verification/RangeManager.v ===== *)
(** * The range manager

    [range-server/src/range_manager]: the append window of a range ([window.rs]), ranges
    ([range.rs]), streams ([stream.rs]) and the manager that owns them ([manager.rs]).
    A method on [&mut self] returns the new state beside its result; the [HashMap] of
    streams is a [gmap].  The log identifiers are left out.

    The theorems follow executions of manager operations ([Manager.exec]) by way of the
    steps one range takes in them ([Manager.range_step]). *)

From S2P Require Import Prelude Bytes Model StoreTypes.

(** ** [window.rs] *)

Module Window.
Record t := mk { next : Z; (* u64 *) committed : Z (* u64 *) }.

Definition new (next : Z) : t := mk next next.

Definition check_barrier {R} `{Batch R} (w : t) (request : R)
    : outcome (result unit ServiceError.t * t) :=
  if offset request <? committed w then Ret (Err ServiceError.OffsetCommitted, w)
  else if offset request <? next w then Ret (Err ServiceError.OffsetInFlight, w)
  else if next w <? offset request then Ret (Err ServiceError.OffsetOutOfOrder, w)
  else
    next' ← u64_add (next w) (len request);
    Ret (Ok (), mk next' (committed w)).

Definition commit (w : t) (value : Z) : Z * t :=
  let w := if committed w <? value then mk (next w) value else w in
  (committed w, w).
End Window.

(** ** [range.rs] *)

Module Range.
Record t := mk {
  metadata : RangeMetadata.t;
  committed : option Z;
  window : option Window.t;
}.

Definition new (metadata : RangeMetadata.t) : t :=
  mk metadata None
    (if RangeMetadata.has_end metadata then None
     else Some (Window.new (RangeMetadata.start metadata))).

Definition commit (r : t) (new_committed_offset : Z) : result unit ServiceError.t * t :=
  match window r with
  | None => (Err ServiceError.AlreadySealed, r)
  | Some win =>
      let '(new_committed_offset, win) := Window.commit win new_committed_offset in
      let r := mk (metadata r) (committed r) (Some win) in
      match committed r with
      | Some c =>
          (Ok (), if c <? new_committed_offset
                  then mk (metadata r) (Some new_committed_offset) (window r) else r)
      | None =>
          (Ok (), if RangeMetadata.start (metadata r) <=? new_committed_offset
                  then mk (metadata r) (Some new_committed_offset) (window r) else r)
      end
  end.

(** Takes the metadata of the seal request and returns it with the end offset filled in. *)
Definition seal (r : t) (request : RangeMetadata.t) : RangeMetadata.t * t :=
  let end_ := default (RangeMetadata.start (metadata r)) (committed r) in
  let metadata :=
    match RangeMetadata.end_ request with
    | Some end_offset => RangeMetadata.set_end (metadata r) end_offset
    | None => metadata r
    end in
  (RangeMetadata.set_end request end_, mk metadata (committed r) None).

Definition data_complete (r : t) : bool :=
  match committed r with
  | Some c =>
      default (RangeMetadata.start (metadata r)) (RangeMetadata.end_ (metadata r)) <=? c
  | None => false
  end.

Definition with_metadata (r : t) (m : RangeMetadata.t) : t := mk m (committed r) (window r).
Definition index (r : t) : Z := RangeMetadata.index (metadata r).
End Range.

(** ** [stream.rs] *)

Module Stream.
Record t := mk { metadata : StreamMetadata.t; ranges : list Range.t }.

Definition new (metadata : StreamMetadata.t) : t := mk metadata [].

(** [retain_mut] of [trim_ranges]: [None] for a range that is dropped. *)
Definition trim_range (offset : Z) (range : Range.t) : option Range.t :=
  let m := Range.metadata range in
  if match RangeMetadata.end_ m with Some e => e <=? offset | None => false end then None
  else if RangeMetadata.start m <? offset
  then Some (Range.with_metadata range (RangeMetadata.trim_start m offset))
  else Some range.

Definition trim_ranges (s : t) (offset : Z) : t :=
  mk (metadata s) (omap (trim_range offset) (ranges s)).

Definition update_metadata (s : t) (m : StreamMetadata.t) : t :=
  trim_ranges (mk m (ranges s)) (StreamMetadata.start_offset m).

Definition verify_stream_id (s : t) (m : RangeMetadata.t) : result unit ServiceError.t :=
  if StreamMetadata.stream_id (metadata s) =? RangeMetadata.stream_id m
  then Ok () else Err ServiceError.Internal.

Definition get_range (s : t) (index : Z) : option Range.t :=
  List.find (fun r => Range.index r =? index) (ranges s).
Definition has_range (s : t) (index : Z) : bool :=
  existsb (fun r => Range.index r =? index) (ranges s).

(** A write through the reference that [get_range_mut] returns: the first range with
    the index is replaced. *)
Fixpoint set_first (index : Z) (r : Range.t) (l : list Range.t) : list Range.t :=
  match l with
  | [] => []
  | x :: l => if Range.index x =? index then r :: l else x :: set_first index r l
  end.
Definition get_range_mut (s : t) (index : Z) (r : Range.t) : t :=
  mk (metadata s) (set_first index r (ranges s)).

Definition index_le (a b : Range.t) : Prop := Range.index a <= Range.index b.
#[global] Instance index_le_dec a b : Decision (index_le a b).
Proof. unfold index_le. apply _. Defined.

Definition sort (s : t) : t := mk (metadata s) (merge_sort index_le (ranges s)).

Definition create_range (s : t) (m : RangeMetadata.t) : t :=
  match verify_stream_id s m with
  | Err _ => s
  | Ok _ =>
      match get_range s (RangeMetadata.index m) with
      | Some _ => s
      | None => sort (mk (metadata s) (ranges s ++ [Range.new m]))
      end
  end.

Definition remove_range (s : t) (m : RangeMetadata.t) : t :=
  mk (metadata s)
     (List.filter (fun r => negb (Range.index r =? RangeMetadata.index m)) (ranges s)).

Definition seal (s : t) (m : RangeMetadata.t)
    : result RangeMetadata.t ServiceError.t * t :=
  match verify_stream_id s m with
  | Err e => (Err e, s)
  | Ok _ =>
      match get_range s (RangeMetadata.index m) with
      | Some range =>
          let '(m', range) := Range.seal range m in
          (Ok m', get_range_mut s (RangeMetadata.index m) range)
      | None => (Err ServiceError.NotFound, s)
      end
  end.
End Stream.

(** ** [manager.rs] *)

Module Manager.
Record t := mk { streams : gmap Z Stream.t }.

Definition get_stream (m : t) (stream_id : Z) : option Stream.t := streams m !! stream_id.
Definition put_stream (m : t) (stream_id : Z) (s : Stream.t) : t :=
  mk (<[stream_id := s]> (streams m)).

(** [get_range] and [get_range_mut] look a range up in the same way. *)
Definition get_range (m : t) (stream_id index : Z) : option Range.t :=
  s ← get_stream m stream_id; Stream.get_range s index.
(** A write through the reference that [get_range_mut] returns. *)
Definition put_range (m : t) (stream_id index : Z) (r : Range.t) : t :=
  mk (alter (fun s => Stream.get_range_mut s index r) stream_id (streams m)).

Definition on_range_event (m : t) (ty : EventType) (metadata : RangeMetadata.t) : t :=
  let stream_id := RangeMetadata.stream_id metadata in
  match ty with
  | EvNone | Reset_ | ListFinished => m
  | Added | Modified | Listed =>
      let stream := default (Stream.new (StreamMetadata.holder stream_id))
                            (get_stream m stream_id) in
      put_stream m stream_id
        match Stream.get_range stream (RangeMetadata.index metadata) with
        | Some range =>
            Stream.get_range_mut stream (RangeMetadata.index metadata)
              (Range.with_metadata range metadata)
        | None => Stream.create_range stream metadata
        end
  | Deleted =>
      match get_stream m stream_id with
      | Some stream => put_stream m stream_id (Stream.remove_range stream metadata)
      | None => m
      end
  end.

Definition on_stream_event (m : t) (ty : EventType) (metadata : StreamMetadata.t) : t :=
  let stream_id := StreamMetadata.stream_id metadata in
  match ty with
  | EvNone | Reset_ | ListFinished => m
  | Added | Modified | Listed =>
      match get_stream m stream_id with
      | Some stream => put_stream m stream_id (Stream.update_metadata stream metadata)
      | None => put_stream m stream_id (Stream.new metadata)
      end
  | Deleted => mk (delete stream_id (streams m))
  end.

Definition on_resource_event (m : t) (event : ResourceEvent) : t :=
  match resource event with
  | ResRange range => on_range_event m (event_type event) range
  | ResStream stream => on_stream_event m (event_type event) stream
  | _ => m
  end.

(** The metadata of a stream the manager has not heard of. *)
Definition unknown_stream (stream_id : Z) : StreamMetadata.t :=
  StreamMetadata.mk stream_id 0 0 1000 0 0 false.

(** [self.store.create(&range)] builds a future that is dropped without being polled, so
    it has no effect. *)
Definition create_range (m : t) (range : RangeMetadata.t) : result unit ServiceError.t * t :=
  let stream_id := RangeMetadata.stream_id range in
  let stream := default (Stream.new (unknown_stream stream_id)) (get_stream m stream_id) in
  (Ok (), put_stream m stream_id (Stream.create_range stream range)).

Definition commit (m : t) (stream_id range_index offset last_offset_delta : Z)
    : outcome (result unit ServiceError.t * t) :=
  match get_range m stream_id range_index with
  | Some range =>
      new_committed ← u64_add offset last_offset_delta;
      let '(res, range) := Range.commit range new_committed in
      Ret (res, put_range m stream_id range_index range)
  | None => Ret (Err ServiceError.NotFound, m)
  end.

Definition seal (m : t) (range : RangeMetadata.t)
    : result RangeMetadata.t ServiceError.t * t :=
  let stream_id := RangeMetadata.stream_id range in
  match get_stream m stream_id with
  | Some stream =>
      let stream := if Stream.has_range stream (RangeMetadata.index range) then stream
                    else Stream.create_range stream range in
      let '(res, stream) := Stream.seal stream range in
      (res, put_stream m stream_id stream)
  | None =>
      let stream := Stream.create_range (Stream.new (unknown_stream stream_id)) range in
      let '(res, stream) := Stream.seal stream range in
      match res with
      | Ok range => (Ok range, put_stream m stream_id stream)
      | Err e => (Err e, m)
      end
  end.

Definition check_barrier {R} `{Batch R} (m : t) (stream_id range_index : Z) (req : R)
    : outcome (result unit AppendError.t * t) :=
  match get_range m stream_id range_index with
  | Some range =>
      match Range.window range with
      | Some window =>
          '(res, window) ← Window.check_barrier window req;
          Ret (match res with
               | Ok _ => Ok ()
               | Err e => Err (ServiceError.into_append_error e)
               end,
               put_range m stream_id range_index
                 (Range.mk (Range.metadata range) (Range.committed range) (Some window)))
      | None => Ret (Err AppendError.RangeSealed, m)
      end
  | None => Ret (Err AppendError.RangeNotFound, m)
  end.

Definition has_range (m : t) (stream_id index : Z) : bool :=
  bool_decide (is_Some (get_range m stream_id (as_sint 32 index))).

(** The ranges being offloaded come from the object storage. *)
Definition get_range_progress (m : t) (offloading_range : list (Z * Z))
    : list RangeProgress.t :=
  omap (fun '(stream_id, range_index) =>
          range ← get_range m stream_id (as_sint 32 range_index);
          committed ← Range.committed range;
          Some (RangeProgress.mk stream_id range_index committed)) offloading_range.

(** *** Executions *)

(** The calls that the handlers and the resource watcher make. *)
Inductive op :=
| OpCreate (range : RangeMetadata.t)
| OpCheck (req : AppendRecordRequest.t)
| OpCommit (stream_id range_index offset last_offset_delta : Z)
| OpSeal (range : RangeMetadata.t)
| OpEvent (event : ResourceEvent).

Inductive response :=
| RespCreate (res : result unit ServiceError.t)
| RespCheck (res : result unit AppendError.t)
| RespCommit (res : result unit ServiceError.t)
| RespSeal (res : result RangeMetadata.t ServiceError.t)
| RespEvent.

Definition step (m : t) (o : op) : outcome (response * t) :=
  match o with
  | OpCreate range => let '(res, m) := create_range m range in Ret (RespCreate res, m)
  | OpCheck req =>
      '(res, m) ← check_barrier m (AppendRecordRequest.stream_id req)
                    (AppendRecordRequest.range_index req) req;
      Ret (RespCheck res, m)
  | OpCommit stream_id range_index offset delta =>
      '(res, m) ← commit m stream_id range_index offset delta; Ret (RespCommit res, m)
  | OpSeal range => let '(res, m) := seal m range in Ret (RespSeal res, m)
  | OpEvent event => Ret (RespEvent, on_resource_event m event)
  end.

(** An execution, with a condition on every pair of consecutive states. *)
Inductive exec (K : t -> t -> Prop) : t -> list (op * response) -> t -> Prop :=
| exec_nil m : exec K m [] m
| exec_cons m o resp m1 tr m2 :
    step m o = Ret (resp, m1) -> K m m1 -> exec K m1 tr m2 ->
    exec K m ((o, resp) :: tr) m2.

(** The range is there before and after, and its start has not moved backwards.  Deletion,
    of a range or a stream, and the trim of a whole range break it. *)
Definition retains (stream_id index : Z) (m m' : t) : Prop :=
  exists r r', get_range m stream_id index = Some r /\
    get_range m' stream_id index = Some r' /\
    RangeMetadata.start (Range.metadata r) <= RangeMetadata.start (Range.metadata r').

(** What a manager operation and its response can do to the range [stream_id#index]. *)
Inductive range_step (stream_id index : Z) : op -> response -> Range.t -> Range.t -> Prop :=
| RangeSame o resp r r' :
    Range.committed r' = Range.committed r -> Range.window r' = Range.window r ->
    (forall req, o = OpCheck req -> AppendRecordRequest.stream_id req = stream_id ->
       AppendRecordRequest.range_index req = index -> resp <> RespCheck (Ok ())) ->
    (forall off delta, o = OpCommit stream_id index off delta -> resp <> RespCommit (Ok ())) ->
    (forall md res, o = OpSeal md -> RangeMetadata.stream_id md = stream_id ->
       RangeMetadata.index md = index -> resp <> RespSeal (Ok res)) ->
    range_step stream_id index o resp r r'
| RangeAccept req r w :
    AppendRecordRequest.stream_id req = stream_id ->
    AppendRecordRequest.range_index req = index ->
    Range.window r = Some w -> Window.next w = AppendRecordRequest.offset req ->
    Window.committed w <= Window.next w ->
    range_step stream_id index (OpCheck req) (RespCheck (Ok ())) r
      (Range.mk (Range.metadata r) (Range.committed r)
         (Some (Window.mk (Window.next w + AppendRecordRequest.len req) (Window.committed w))))
| RangeCommit off delta r r' :
    Range.commit r (off + delta) = (Ok (), r') ->
    range_step stream_id index (OpCommit stream_id index off delta) (RespCommit (Ok ())) r r'
| RangeSeal md md' r r' :
    RangeMetadata.stream_id md = stream_id -> RangeMetadata.index md = index ->
    Range.seal r md = (md', r') ->
    range_step stream_id index (OpSeal md) (RespSeal (Ok md')) r r'.

(** Well-formedness: a stream is filed under its id, and the ranges of a stream are
    strictly ordered by index. *)
Definition index_lt (a b : Range.t) : Prop := Range.index a < Range.index b.
Definition stream_wf (s : Stream.t) : Prop := StronglySorted index_lt (Stream.ranges s).
Definition wf (m : t) : Prop :=
  forall stream_id s, get_stream m stream_id = Some s ->
    StreamMetadata.stream_id (Stream.metadata s) = stream_id /\ stream_wf s.
End Manager.

(** ** Lookup in streams *)

Import Manager.

Lemma find_index_Some l i r :
  List.find (fun x => Range.index x =? i) l = Some r -> r ∈ l /\ Range.index r = i.
Proof. intros [Hin Heq]%find_some. bool_to_prop. split; [by apply list_elem_of_In|done]. Qed.

Lemma find_index_None l i r :
  List.find (fun x => Range.index x =? i) l = None -> r ∈ l -> Range.index r <> i.
Proof. intros Hf Hin%list_elem_of_In. by eapply find_none, Z.eqb_neq in Hf. Qed.

Lemma sorted_lt_inj l r1 r2 :
  StronglySorted index_lt l -> r1 ∈ l -> r2 ∈ l -> Range.index r1 = Range.index r2 -> r1 = r2.
Proof.
  unfold index_lt. induction 1 as [|x l _ IH Hall]; [set_solver|].
  rewrite Forall_forall in Hall. rewrite !elem_of_cons.
  intros [->|H1] [->|H2] Heq; [done| | |by auto].
  - specialize (Hall _ H2). lia.
  - specialize (Hall _ H1). lia.
Qed.

(** In a well-formed stream the lookup is by membership. *)
Lemma get_range_elem s i r :
  stream_wf s -> Stream.get_range s i = Some r <-> r ∈ Stream.ranges s /\ Range.index r = i.
Proof.
  intros Hwf. split; [apply find_index_Some|]. intros [Hin <-].
  unfold Stream.get_range. destruct (List.find _ _) as [r'|] eqn:Hf.
  - apply find_index_Some in Hf as [Hin' Heq]. f_equal. by eapply sorted_lt_inj.
  - by eapply find_index_None in Hf.
Qed.

Lemma get_range_ext s s' i :
  stream_wf s -> stream_wf s' ->
  (forall r, Range.index r = i -> r ∈ Stream.ranges s <-> r ∈ Stream.ranges s') ->
  Stream.get_range s i = Stream.get_range s' i.
Proof.
  intros Hwf Hwf' Heq. apply option_eq. intros r.
  rewrite !get_range_elem by done. naive_solver.
Qed.

Lemma has_range_get s i : Stream.has_range s i = bool_decide (is_Some (Stream.get_range s i)).
Proof.
  unfold Stream.has_range, Stream.get_range. destruct (List.find _ _) as [r|] eqn:Hf.
  - rewrite bool_decide_true by done. apply existsb_exists. by eapply find_some in Hf; eauto.
  - rewrite bool_decide_false by (by intros [? ?]). apply not_true_iff_false.
    rewrite existsb_exists. intros (x & Hin & Hx). by rewrite (find_none _ _ Hf) in Hx.
Qed.

Lemma set_first_index l i r :
  Range.index r = i -> Range.index <$> Stream.set_first i r l = Range.index <$> l.
Proof. intros Hr. induction l as [|x l IH]; [done|]. simpl. case_bool; csimpl; congruence. Qed.

Lemma get_range_mut_get s i j r r0 :
  Stream.get_range s i = Some r0 -> Range.index r = i ->
  Stream.get_range (Stream.get_range_mut s i r) j =
    if decide (j = i) then Some r else Stream.get_range s j.
Proof.
  unfold Stream.get_range, Stream.get_range_mut. simpl. intros H Hr.
  induction (Stream.ranges s) as [|x l IH]; [done|]. simpl in *.
  destruct (Range.index x =? i) eqn:E; bool_to_prop; simpl.
  - rewrite Hr. destruct (decide (j = i)) as [->|]; [by rewrite Z.eqb_refl|].
    rewrite E. by rewrite (proj2 (Z.eqb_neq i j)) by done.
  - destruct (Range.index x =? j) eqn:E2; bool_to_prop; [|by apply IH].
    rewrite decide_False by congruence. done.
Qed.

(** *** Well-formedness of streams *)

Lemma stream_wf_indices s :
  stream_wf s <-> StronglySorted Z.lt (Range.index <$> Stream.ranges s).
Proof.
  unfold stream_wf, index_lt. induction (Stream.ranges s) as [|x l IH]; csimpl.
  - split; constructor.
  - rewrite !StronglySorted_cons, IH, Forall_fmap. done.
Qed.

Lemma stream_wf_set s i r :
  stream_wf s -> Range.index r = i -> stream_wf (Stream.get_range_mut s i r).
Proof. intros Hwf Hr. rewrite stream_wf_indices in *. simpl. by rewrite set_first_index. Qed.

Lemma sorted_le_lt l :
  StronglySorted Stream.index_le l -> NoDup (Range.index <$> l) -> StronglySorted index_lt l.
Proof.
  unfold Stream.index_le, index_lt. induction 1 as [|x l _ IH Hall]; [by constructor|].
  csimpl. rewrite NoDup_cons. intros [Hx Hnd]. constructor; [by auto|].
  rewrite Forall_forall in *. intros y Hy. specialize (Hall _ Hy).
  assert (Range.index x <> Range.index y); [|lia]. intros Heq. apply Hx. rewrite Heq.
  by apply list_elem_of_fmap_2.
Qed.

Lemma sorted_lt_NoDup l : StronglySorted Z.lt l -> NoDup l.
Proof.
  induction 1 as [|x l _ IH Hall]; constructor; [|done].
  intros Hin. rewrite Forall_forall in Hall. specialize (Hall _ Hin). lia.
Qed.

#[global] Instance index_le_trans : Transitive Stream.index_le.
Proof. intros x y z. unfold Stream.index_le. lia. Qed.
#[global] Instance index_le_total : Total Stream.index_le.
Proof. intros x y. unfold Stream.index_le. lia. Qed.

Lemma create_range_ranges s m :
  Stream.verify_stream_id s m = Ok () -> Stream.get_range s (RangeMetadata.index m) = None ->
  Stream.ranges (Stream.create_range s m) ≡ₚ Range.new m :: Stream.ranges s.
Proof.
  intros Hv Hg. unfold Stream.create_range. rewrite Hv, Hg. simpl.
  by rewrite merge_sort_Permutation, Permutation_app_comm.
Qed.

Lemma stream_wf_create s m : stream_wf s -> stream_wf (Stream.create_range s m).
Proof.
  intros Hwf. unfold Stream.create_range. repeat case_match; try done. subst.
  apply sorted_le_lt; [by apply StronglySorted_merge_sort; apply _|].
  simpl. rewrite merge_sort_Permutation, Permutation_app_comm. csimpl.
  apply stream_wf_indices, sorted_lt_NoDup in Hwf. constructor; [|done].
  intros (r & Hr & Hin)%list_elem_of_fmap_1.
  by eapply find_index_None in Hin; [|done].
Qed.

Lemma trim_range_index o r r' : Stream.trim_range o r = Some r' -> Range.index r' = Range.index r.
Proof. unfold Stream.trim_range. intros. repeat case_bool; done. Qed.

Lemma stream_wf_trim s o : stream_wf s -> stream_wf (Stream.trim_ranges s o).
Proof.
  rewrite !stream_wf_indices. apply sorted_sublist. simpl.
  induction (Stream.ranges s) as [|x l IH]; [done|]. csimpl.
  destruct (Stream.trim_range o x) as [x'|] eqn:Hx; csimpl; [|by constructor].
  rewrite (trim_range_index _ _ _ Hx). by constructor.
Qed.

Lemma stream_wf_remove s m : stream_wf s -> stream_wf (Stream.remove_range s m).
Proof.
  rewrite !stream_wf_indices. apply sorted_sublist. simpl.
  induction (Stream.ranges s) as [|x l IH]; [done|]. simpl. case_bool; csimpl; by constructor.
Qed.

Lemma range_commit_index r o res r' : Range.commit r o = (res, r') -> Range.index r' = Range.index r.
Proof. unfold Range.commit, Window.commit. intros. repeat case_match; simplify_eq/=; done. Qed.

Lemma range_seal_index r md md' r' : Range.seal r md = (md', r') -> Range.index r' = Range.index r.
Proof. unfold Range.seal, Range.index. intros. simplify_eq/=. by case_match. Qed.

Lemma stream_wf_seal s m res s' : stream_wf s -> Stream.seal s m = (res, s') -> stream_wf s'.
Proof.
  unfold Stream.seal. intros Hwf. destruct (Stream.verify_stream_id s m); [|naive_solver].
  destruct (Stream.get_range s _) as [r|] eqn:Hg; [|naive_solver].
  destruct (Range.seal r m) as [md' r'] eqn:Hs. intros [= <- <-].
  apply stream_wf_set; [done|]. rewrite (range_seal_index _ _ _ _ Hs).
  by apply find_index_Some in Hg as [_ ?].
Qed.

(** ** Manager operations *)

Definition stream_ok (stream_id : Z) (s : Stream.t) : Prop :=
  StreamMetadata.stream_id (Stream.metadata s) = stream_id /\ stream_wf s.

Lemma wf_put_stream m sid s : wf m -> stream_ok sid s -> wf (put_stream m sid s).
Proof.
  intros Hwf Hs sid' s'. unfold get_stream, put_stream. simpl.
  rewrite lookup_insert_Some. intros [[<- <-]|[_ ?]]; [done|by apply Hwf].
Qed.

Lemma wf_put_range m sid i r : wf m -> Range.index r = i -> wf (put_range m sid i r).
Proof.
  intros Hwf Hr sid' s'. unfold get_stream, put_range. simpl.
  rewrite lookup_alter_Some. intros [(<- & s & Hs & ->)|[_ ?]]; [|by apply Hwf].
  destruct (Hwf _ _ Hs) as [? ?]. split; [done|by apply stream_wf_set].
Qed.

Lemma get_range_index m sid i r : get_range m sid i = Some r -> Range.index r = i.
Proof.
  unfold get_range. intros (s & _ & Hs)%bind_Some. by apply find_index_Some in Hs as [_ ?].
Qed.

Lemma create_range_metadata s m :
  Stream.metadata (Stream.create_range s m) = Stream.metadata s.
Proof. unfold Stream.create_range. by repeat case_match. Qed.

Lemma stream_seal_metadata s m res s' :
  Stream.seal s m = (res, s') -> Stream.metadata s' = Stream.metadata s.
Proof. unfold Stream.seal. intros. repeat case_match; simplify_eq/=; done. Qed.

Lemma stream_ok_create sid s m : stream_ok sid s -> stream_ok sid (Stream.create_range s m).
Proof.
  intros [? ?]. split; [by rewrite create_range_metadata|by apply stream_wf_create].
Qed.

Lemma stream_ok_seal sid s m res s' :
  stream_ok sid s -> Stream.seal s m = (res, s') -> stream_ok sid s'.
Proof.
  intros [? ?] Hs. split; [by rewrite (stream_seal_metadata _ _ _ _ Hs)|].
  by eapply stream_wf_seal.
Qed.

Lemma stream_ok_new md : stream_ok (StreamMetadata.stream_id md) (Stream.new md).
Proof. split; [done|constructor]. Qed.

Lemma stream_ok_default m md :
  wf m ->
  stream_ok (StreamMetadata.stream_id md)
    (default (Stream.new md) (get_stream m (StreamMetadata.stream_id md))).
Proof.
  intros Hwf. destruct (get_stream _ _) eqn:Hs; [by apply Hwf|apply stream_ok_new].
Qed.

Create HintDb manager discriminated.
#[export] Hint Resolve wf_put_stream wf_put_range stream_ok_create stream_ok_seal
  stream_ok_new : manager.

Lemma wf_on_range_event m ty md : wf m -> wf (on_range_event m ty md).
Proof.
  intros Hwf. unfold on_range_event.
  pose proof (stream_ok_default m (StreamMetadata.holder (RangeMetadata.stream_id md)) Hwf) as Hok.
  simpl in Hok. destruct ty; try done; [| | |].
  1-3: apply wf_put_stream; [done|]; destruct (Stream.get_range _ _) eqn:Hg;
    [|by apply stream_ok_create]; destruct Hok; split; [done|by apply stream_wf_set].
  destruct (get_stream m _) as [s|] eqn:Hs; [|done].
  destruct (Hwf _ _ Hs). apply wf_put_stream; [done|].
  split; [done|by apply stream_wf_remove].
Qed.

Lemma wf_on_stream_event m ty md : wf m -> wf (on_stream_event m ty md).
Proof.
  intros Hwf. unfold on_stream_event.
  destruct ty; try done; cycle -1.
  { intros sid s. unfold get_stream. simpl. intros [_ Hs]%lookup_delete_Some. by apply Hwf. }
  all: destruct (get_stream m _) as [s|] eqn:Hs; [|by auto with manager].
  all: destruct (Hwf _ _ Hs); apply wf_put_stream; [done|]; split; [done|].
  all: by apply stream_wf_trim.
Qed.

Lemma wf_seal m md res m' : wf m -> seal m md = (res, m') -> wf m'.
Proof.
  intros Hwf. unfold seal. destruct (get_stream m _) as [s|] eqn:Hs.
  - destruct (Stream.seal _ md) as [res' s'] eqn:Hseal. intros [= <- <-].
    specialize (Hwf _ _ Hs) as Hok. apply wf_put_stream; [done|].
    eapply stream_ok_seal, Hseal. case_match; [done|by apply stream_ok_create].
  - destruct (Stream.seal _ md) as [res' s'] eqn:Hseal. destruct res'; intros [= <- <-]; [|done].
    apply wf_put_stream; [done|]. eapply stream_ok_seal, Hseal. apply stream_ok_create.
    apply (stream_ok_new (unknown_stream _)).
Qed.

Lemma wf_check_barrier {R} `{Batch R} m sid i (req : R) res m' :
  wf m -> check_barrier m sid i req = Ret (res, m') -> wf m'.
Proof.
  intros Hwf. unfold check_barrier. destruct (get_range m sid i) as [r|] eqn:Hg; [|by intros; inv_ret].
  destruct (Range.window r) as [w|]; [|by intros; inv_ret].
  destruct (Window.check_barrier w req) as [[res' w']|]; [|done]. simpl. intros; inv_ret.
  apply wf_put_range; [done|]. exact (get_range_index _ _ _ _ Hg).
Qed.

Lemma wf_commit m sid i o d res m' : wf m -> commit m sid i o d = Ret (res, m') -> wf m'.
Proof.
  intros Hwf. unfold commit. destruct (get_range m sid i) as [r|] eqn:Hg; [|by intros; inv_ret].
  intros; inv_ret. destruct (Range.commit r _) as [res' r'] eqn:Hc. inv_ret.
  apply wf_put_range; [done|]. rewrite (range_commit_index _ _ _ _ Hc).
  by eapply get_range_index.
Qed.

Lemma wf_step m o resp m' : wf m -> step m o = Ret (resp, m') -> wf m'.
Proof.
  intros Hwf. destruct o as [md|req|sid i o d|md|ev]; simpl; intros Hs; inv_ret.
  - apply wf_put_stream; [done|]. apply stream_ok_create.
    apply (stream_ok_default m (unknown_stream _) Hwf).
  - destruct x as [res m1]. inv_ret. by eapply wf_check_barrier.
  - destruct x as [res m1]. inv_ret. by eapply wf_commit.
  - destruct (seal m md) as [res m1] eqn:Hseal. inv_ret. by eapply wf_seal.
  - unfold on_resource_event. destruct (resource ev); try done;
      [by apply wf_on_stream_event|by apply wf_on_range_event].
Qed.

(** C32: The range manager keeps its streams well-formed: from the empty manager, whatever
    calls and resource events it handles, each stream is filed under its own id and its
    ranges are strictly ordered by range index, so that no index occurs twice. *)
Theorem manager_wf_invariant K tr m :
  exec K (mk ∅) tr m ->
  forall stream_id s, get_stream m stream_id = Some s ->
    StreamMetadata.stream_id (Stream.metadata s) = stream_id /\
    StronglySorted Z.lt (Range.index <$> Stream.ranges s).
Proof.
  intros Hexec. assert (wf (mk ∅)) as Hwf by (intros ? ? ?; done).
  assert (wf m) as Hm by (induction Hexec; eauto using wf_step).
  intros sid s Hs. rewrite <- stream_wf_indices. by apply Hm.
Qed.

(** ** From manager operations to the steps of one range *)

Lemma get_range_put_stream m sid st s i :
  get_range (put_stream m sid st) s i =
    if decide (s = sid) then Stream.get_range st i else get_range m s i.
Proof.
  unfold get_range, get_stream, put_stream. simpl.
  destruct (decide (s = sid)) as [->|]; [by rewrite lookup_insert_eq|].
  by rewrite lookup_insert_ne.
Qed.

Lemma get_range_put_range m sid j r r0 s i :
  get_range m sid j = Some r0 -> Range.index r = j ->
  get_range (put_range m sid j r) s i =
    if decide (s = sid /\ i = j) then Some r else get_range m s i.
Proof.
  unfold get_range, get_stream, put_range. simpl. intros (st & Hst & Hg)%bind_Some Hr.
  destruct (decide (s = sid)) as [->|].
  - rewrite lookup_alter_eq, Hst. simpl. rewrite (get_range_mut_get _ _ _ _ _ Hg Hr).
    destruct (decide (i = j)); [by rewrite decide_True|]. rewrite decide_False; naive_solver.
  - rewrite lookup_alter_ne by done. rewrite decide_False; naive_solver.
Qed.

Lemma create_range_get s md i r :
  stream_wf s -> Stream.get_range s i = Some r ->
  Stream.get_range (Stream.create_range s md) i = Some r.
Proof.
  intros Hwf Hg. destruct (Stream.verify_stream_id s md) as [[]|e] eqn:Hv; cycle 1.
  { unfold Stream.create_range. by rewrite Hv. }
  destruct (Stream.get_range s (RangeMetadata.index md)) as [r0|] eqn:Hg0.
  { unfold Stream.create_range. by rewrite Hv, Hg0. }
  apply get_range_elem; [by apply stream_wf_create|].
  apply get_range_elem in Hg as [Hin <-]; [|done].
  rewrite create_range_ranges by done. set_solver.
Qed.

Lemma trim_ranges_get s o i r r' :
  stream_wf s -> Stream.get_range s i = Some r ->
  Stream.get_range (Stream.trim_ranges s o) i = Some r' ->
  Range.committed r' = Range.committed r /\ Range.window r' = Range.window r.
Proof.
  intros Hwf Hg Hg'. apply get_range_elem in Hg' as [Hin' Hi']; [|by apply stream_wf_trim].
  simpl in Hin'. apply list_elem_of_omap in Hin' as (x & Hx & Htrim).
  assert (x = r) as ->.
  { apply get_range_elem in Hg as [? ?]; [|done]. eapply sorted_lt_inj; [done..|].
    rewrite <- (trim_range_index _ _ _ Htrim). congruence. }
  unfold Stream.trim_range in Htrim. by repeat case_bool.
Qed.

Lemma remove_range_get s md i r r' :
  stream_wf s -> Stream.get_range s i = Some r ->
  Stream.get_range (Stream.remove_range s md) i = Some r' -> r' = r.
Proof.
  intros Hwf Hg Hg'. apply get_range_elem in Hg' as [Hin' Hi']; [|by apply stream_wf_remove].
  simpl in Hin'. apply list_elem_of_In, List.filter_In in Hin' as [Hin' _].
  apply list_elem_of_In in Hin'. apply get_range_elem in Hg as [? ?]; [|done].
  eapply sorted_lt_inj; [done..|]. congruence.
Qed.

Lemma range_event_get m ty md s i r r' :
  wf m -> get_range m s i = Some r -> get_range (on_range_event m ty md) s i = Some r' ->
  Range.committed r' = Range.committed r /\ Range.window r' = Range.window r.
Proof.
  intros Hwf Hg. unfold on_range_event.
  destruct (decide (s = RangeMetadata.stream_id md)) as [->|Hne]; cycle 1.
  { repeat case_match; rewrite ?get_range_put_stream, ?decide_False by done; naive_solver. }
  pose proof Hg as (st & Hst & Hgs)%bind_Some. destruct (Hwf _ _ Hst) as [_ Hswf].
  rewrite Hst. simpl.
  destruct ty; rewrite ?get_range_put_stream, ?decide_True by done; [naive_solver| |naive_solver| | | |naive_solver].
  1-3: destruct (Stream.get_range st (RangeMetadata.index md)) as [r0|] eqn:Hg0;
    [rewrite (get_range_mut_get _ _ _ _ _ Hg0) by done; case_decide; naive_solver
    |rewrite (create_range_get _ _ _ _ Hswf Hgs); naive_solver].
  intros Hr. by rewrite (remove_range_get _ _ _ _ _ Hswf Hgs Hr).
Qed.

Lemma stream_event_get m ty md s i r r' :
  wf m -> get_range m s i = Some r -> get_range (on_stream_event m ty md) s i = Some r' ->
  Range.committed r' = Range.committed r /\ Range.window r' = Range.window r.
Proof.
  intros Hwf Hg. unfold on_stream_event.
  destruct (decide (s = StreamMetadata.stream_id md)) as [->|Hne]; cycle 1.
  { destruct ty; try (case_match; rewrite get_range_put_stream, decide_False by done); try naive_solver.
    unfold get_range, get_stream in *. simpl. rewrite lookup_delete_ne, Hg by done. naive_solver. }
  pose proof Hg as (st & Hst & Hgs)%bind_Some. destruct (Hwf _ _ Hst) as [_ Hswf].
  rewrite Hst. destruct ty; rewrite ?get_range_put_stream, ?decide_True by done; try naive_solver.
  1-3: by apply (trim_ranges_get (Stream.mk md (Stream.ranges st))).
  unfold get_range, get_stream. simpl. by rewrite lookup_delete_eq.
Qed.

Lemma window_check_inv (w : Window.t) (req : AppendRecordRequest.t) res w' :
  Window.check_barrier w req = Ret (res, w') ->
  match res with
  | Ok _ =>
      Window.next w = AppendRecordRequest.offset req /\ Window.committed w <= Window.next w /\
      w' = Window.mk (Window.next w + AppendRecordRequest.len req) (Window.committed w)
  | Err _ => w' = w
  end.
Proof.
  unfold Window.check_barrier. intros. repeat case_bool; inv_ret; try done.
  split_and!; lia || done.
Qed.

Lemma range_same s i o resp r r' :
  Range.committed r' = Range.committed r -> Range.window r' = Range.window r ->
  match o, resp with
  | OpCheck req, RespCheck (Ok _) =>
      (AppendRecordRequest.stream_id req, AppendRecordRequest.range_index req) <> (s, i)
  | OpCommit sid j _ _, RespCommit (Ok _) => (sid, j) <> (s, i)
  | OpSeal md, RespSeal (Ok _) => (RangeMetadata.stream_id md, RangeMetadata.index md) <> (s, i)
  | _, _ => True
  end -> range_step s i o resp r r'.
Proof.
  intros Hc Hw Hne. apply RangeSame; [done..| | |].
  - intros req -> <- <- ->. simplify_eq.
  - intros off delta -> ->. simplify_eq.
  - intros md res -> <- <- ->. simplify_eq.
Qed.

Lemma step_check s i m req res m' r r' :
  wf m ->
  check_barrier m (AppendRecordRequest.stream_id req) (AppendRecordRequest.range_index req) req
    = Ret (res, m') ->
  get_range m s i = Some r -> get_range m' s i = Some r' ->
  range_step s i (OpCheck req) (RespCheck res) r r'.
Proof.
  intros Hwf Hs Hg Hg'. unfold check_barrier in Hs.
  destruct (get_range m _ _) as [r0|] eqn:Hg0; [|inv_ret; by apply range_same; [congruence..|]].
  destruct (Range.window r0) as [w|] eqn:Hw0; [|inv_ret; by apply range_same; [congruence..|]].
  inv_ret. destruct x as [res' w']. inv_ret.
  apply window_check_inv in H. rewrite (get_range_put_range _ _ _ _ _ _ _ Hg0) in Hg'
    by exact (get_range_index _ _ _ _ Hg0).
  destruct (decide (s = _ /\ i = _)) as [[-> ->]|Hne]; cycle 1.
  { apply range_same; [congruence..|]. destruct res'; naive_solver. }
  simplify_eq. destruct res' as [[]|e]; simpl in *.
  - destruct H as (Hn & Hle & ->). by apply RangeAccept.
  - subst. by apply range_same.
Qed.

Lemma step_commit s i m sid j off d res m' r r' :
  wf m -> commit m sid j off d = Ret (res, m') ->
  get_range m s i = Some r -> get_range m' s i = Some r' ->
  range_step s i (OpCommit sid j off d) (RespCommit res) r r'.
Proof.
  intros Hwf Hs Hg Hg'. unfold commit in Hs.
  destruct (get_range m sid j) as [r0|] eqn:Hg0; [|inv_ret; by apply range_same; [congruence..|]].
  inv_ret. destruct (Range.commit r0 _) as [res' r0'] eqn:Hc. inv_ret.
  rewrite (get_range_put_range _ _ _ _ _ _ _ Hg0) in Hg'.
  2:{ rewrite (range_commit_index _ _ _ _ Hc). exact (get_range_index _ _ _ _ Hg0). }
  destruct (decide (s = _ /\ i = _)) as [[-> ->]|Hne]; cycle 1.
  { apply range_same; [congruence..|]. destruct res; naive_solver. }
  simplify_eq. destruct res as [[]|e]; [by apply RangeCommit|].
  unfold Range.commit in Hc. destruct (Range.window r0); [|simplify_eq; by apply range_same].
  repeat case_match; simplify_eq.
Qed.

Lemma step_seal s i m md res m' r r' :
  wf m -> seal m md = (res, m') ->
  get_range m s i = Some r -> get_range m' s i = Some r' ->
  range_step s i (OpSeal md) (RespSeal res) r r'.
Proof.
  intros Hwf Hs Hg Hg'. unfold seal in Hs.
  destruct (decide (s = RangeMetadata.stream_id md)) as [->|Hne]; cycle 1.
  { assert (get_range m' s i = get_range m s i) as Heq.
    { repeat case_match; simplify_eq; rewrite ?get_range_put_stream, ?decide_False by done; done. }
    apply range_same; [congruence..|]. destruct res; naive_solver. }
  pose proof Hg as (st & Hst & Hgs)%bind_Some. destruct (Hwf _ _ Hst) as [Hid Hswf].
  rewrite Hst in Hs.
  set (st' := if Stream.has_range st _ then st else _) in Hs.
  assert (Stream.get_range st' i = Some r) as Hgs'.
  { unfold st'. destruct (Stream.has_range st _); [done|]. by apply create_range_get. }
  destruct (Stream.seal st' md) as [res' st2] eqn:Hseal. simplify_eq.
  rewrite get_range_put_stream, decide_True in Hg' by done.
  unfold Stream.seal in Hseal. destruct (Stream.verify_stream_id st' md) as [[]|e] eqn:Hv; cycle 1.
  { simplify_eq. by apply range_same. }
  destruct (Stream.get_range st' (RangeMetadata.index md)) as [r0|] eqn:Hg0; cycle 1.
  { simplify_eq. by apply range_same. }
  destruct (Range.seal r0 md) as [md' r0'] eqn:Hrs. simplify_eq.
  rewrite (get_range_mut_get _ _ _ _ _ Hg0) in Hg'.
  2:{ rewrite (range_seal_index _ _ _ _ Hrs). by apply find_index_Some in Hg0 as [_ ?]. }
  destruct (decide (i = RangeMetadata.index md)) as [->|Hne]; simplify_eq.
  - by apply RangeSeal.
  - apply range_same; [congruence..|]. naive_solver.
Qed.

(** Whatever the manager does, a range that is there before and after takes one of the
    steps of [range_step]. *)
Lemma step_range s i m o resp m' r r' :
  wf m -> step m o = Ret (resp, m') ->
  get_range m s i = Some r -> get_range m' s i = Some r' -> range_step s i o resp r r'.
Proof.
  intros Hwf. destruct o as [md|req|sid j off d|md|ev]; simpl; intros Hs Hg Hg'; inv_ret.
  - rewrite get_range_put_stream in Hg'. destruct (decide (s = _)) as [->|Hne]; cycle 1.
    { by apply range_same; [congruence..|]. }
    pose proof Hg as (st & Hst & Hgs)%bind_Some. destruct (Hwf _ _ Hst) as [_ Hswf].
    rewrite Hst in Hg'. simpl in Hg'. rewrite (create_range_get _ _ _ _ Hswf Hgs) in Hg'.
    by apply range_same; [congruence..|].
  - destruct x as [res m1]. inv_ret. by eapply step_check.
  - destruct x as [res m1]. inv_ret. by eapply step_commit.
  - destruct (seal m md) as [res m1] eqn:Hseal. inv_ret. by eapply step_seal.
  - unfold on_resource_event in Hg'. destruct (resource ev);
      try (by apply range_same; [congruence..|]).
    + apply (stream_event_get _ _ _ _ _ _ _ Hwf Hg) in Hg' as [? ?]. by apply range_same.
    + apply (range_event_get _ _ _ _ _ _ _ Hwf Hg) in Hg' as [? ?]. by apply range_same.
Qed.

(** ** Executions seen from one range *)

Definition reachable (m : t) : Prop := exists tr, exec (fun _ _ => True) (mk ∅) tr m.

Lemma wf_exec K m tr m' : wf m -> exec K m tr m' -> wf m'.
Proof. intros Hwf Hexec. induction Hexec; eauto using wf_step. Qed.

Lemma reachable_wf m : reachable m -> wf m.
Proof. intros [tr Hexec]. eapply wf_exec; [|done]. intros ? ? ?; done. Qed.

(** Rule induction for executions that keep a range: [Q] is a property of the range and the
    trace so far. *)
Lemma exec_range_ind s i (Q : Range.t -> list (op * response) -> Prop) m tr m' r r' pre :
  (forall pre o resp r r' rest, tr = pre ++ (o, resp) :: rest ->
     RangeMetadata.start (Range.metadata r) <= RangeMetadata.start (Range.metadata r') ->
     range_step s i o resp r r' -> Q r pre -> Q r' (pre ++ [(o, resp)])) ->
  wf m -> forall tr', tr = pre ++ tr' -> exec (retains s i) m tr' m' ->
  get_range m s i = Some r -> get_range m' s i = Some r' -> Q r pre -> Q r' tr.
Proof.
  intros Hstep Hwf tr' -> Hexec. revert r pre Hwf Hstep.
  induction Hexec as [m|m o resp m1 tr m2 Hs HK Hexec IH]; intros r pre Hwf Hstep Hg Hg' HQ.
  - rewrite app_nil_r. by simplify_eq.
  - destruct HK as (r0 & r1 & Hr0 & Hr1 & Hle). assert (r0 = r) as -> by congruence.
    pose proof (step_range _ _ _ _ _ _ _ _ Hwf Hs Hg Hr1) as Hrs.
    replace (pre ++ (o, resp) :: tr) with ((pre ++ [(o, resp)]) ++ tr)
      by by rewrite <- (assoc_L (++)).
    apply (IH r1); [by eapply wf_step| |done|done|by eapply Hstep].
    intros pre' o' resp' x x' rest Heq. apply (Hstep _ _ _ _ _ rest).
    by rewrite <- Heq, <- (assoc_L (++)).
Qed.

Lemma exec_get s i m tr m' r :
  exec (retains s i) m tr m' -> get_range m s i = Some r ->
  exists r', get_range m' s i = Some r'.
Proof.
  intros Hexec. revert r. induction Hexec as [|m o resp m1 tr m2 Hs (r0 & r1 & ? & ? & _) _ IH];
    naive_solver.
Qed.

Lemma exec_app K m tr1 tr2 m' :
  exec K m (tr1 ++ tr2) m' <-> exists m1, exec K m tr1 m1 /\ exec K m1 tr2 m'.
Proof.
  split.
  - revert m. induction tr1 as [|[o resp] tr1 IH]; intros m Hexec; [by eexists; split; [constructor|]|].
    simpl in Hexec. inversion Hexec as [|? ? ? m1 ? ? Hs HK He]; subst.
    destruct (IH _ He) as (m2 & ? & ?). exists m2. split; [by econstructor|done].
  - intros (m1 & H1 & H2). induction H1; [done|]. simpl. econstructor; eauto.
Qed.

(** *** Acknowledged appends and the sealed end *)

(** The end offset that a seal reports covers [o]. *)
Definition covers (r : Range.t) (o : Z) : Prop :=
  o <= default (RangeMetadata.start (Range.metadata r)) (Range.committed r).

Lemma range_commit_spec r v r' :
  Range.commit r v = (Ok (), r') ->
  exists w, Range.window r = Some w /\ Range.metadata r' = Range.metadata r /\
    Range.window r' =
      Some (Window.mk (Window.next w) (v `max` Window.committed w)) /\
    Range.committed r' =
      match Range.committed r with
      | Some c => Some (c `max` (v `max` Window.committed w))
      | None =>
          if RangeMetadata.start (Range.metadata r) <=? v `max` Window.committed w
          then Some (v `max` Window.committed w) else None
      end.
Proof.
  unfold Range.commit, Window.commit. destruct (Range.window r) as [[n k]|]; [|done].
  intros Hc. exists (Window.mk n k). simpl in *.
  destruct (k <? v) eqn:E; simpl in *; bool_to_prop;
    [rewrite !(Z.max_l v k) by lia|rewrite !(Z.max_r v k) by lia];
    destruct (Range.committed r) as [c|]; repeat case_bool; split_and!; simpl; try done;
    f_equal; lia.
Qed.

Lemma covers_step s i o resp r r' x :
  RangeMetadata.start (Range.metadata r) <= RangeMetadata.start (Range.metadata r') ->
  range_step s i o resp r r' -> covers r x -> covers r' x.
Proof.
  unfold covers. intros Hstart Hstep Hc.
  destruct Hstep as [o resp r r' Hcc Hw|req r w|off d r r' Hcm|md md' r r' ? ? Hs]; simpl in *.
  - rewrite Hcc. destruct (Range.committed r); simpl in *; lia.
  - done.
  - apply range_commit_spec in Hcm as (w & _ & Hm & _ & ->). rewrite Hm.
    destruct (Range.committed r); simpl in *; [lia|]. case_bool; simpl; lia.
  - unfold Range.seal in Hs. simplify_eq/=. destruct (Range.committed r); simpl in *; lia.
Qed.

Lemma covers_commit off d r r' : Range.commit r (off + d) = (Ok (), r') -> covers r' (off + d).
Proof.
  intros (w & _ & Hm & _ & Hc)%range_commit_spec. unfold covers. rewrite Hc, Hm.
  destruct (Range.committed r); simpl; [lia|]. case_bool; simpl; lia.
Qed.

Lemma sealed_step s i o resp r r' :
  range_step s i o resp r r' -> Range.window r = None ->
  Range.window r' = None /\ (forall off d, o = OpCommit s i off d -> resp <> RespCommit (Ok ())).
Proof.
  intros Hstep Hw. destruct Hstep as [o resp r r' Hcc Hw'|req r w|off d r r' Hcm|md md' r r' ? ? Hs].
  - split; [congruence|done].
  - congruence.
  - apply range_commit_spec in Hcm as (w & ? & _). congruence.
  - unfold Range.seal in Hs. by simplify_eq/=.
Qed.

Definition acks (s i : Z) (tr : list (op * response)) (x : Z) : Prop :=
  exists off d, (OpCommit s i off d, RespCommit (Ok ())) ∈ tr /\ x = off + d.
Definition seals (s i : Z) (tr : list (op * response)) (e : Z) : Prop :=
  exists md md', (OpSeal md, RespSeal (Ok md')) ∈ tr /\ RangeMetadata.stream_id md = s /\
    RangeMetadata.index md = i /\ RangeMetadata.end_ md' = Some e.

(** Along an execution: acknowledged offsets are covered, a range that reported a seal has
    no window, and every reported end covers every acknowledged offset. *)
Definition ack_inv (s i : Z) (r : Range.t) (tr : list (op * response)) : Prop :=
  (forall x, acks s i tr x -> covers r x) /\
  (forall e, seals s i tr e -> Range.window r = None) /\
  (forall x e, acks s i tr x -> seals s i tr e -> x <= e).

Lemma acks_snoc s i tr o resp x :
  acks s i (tr ++ [(o, resp)]) x <->
  acks s i tr x \/ (exists off d, o = OpCommit s i off d /\ resp = RespCommit (Ok ()) /\ x = off + d).
Proof. unfold acks. setoid_rewrite elem_of_app. setoid_rewrite list_elem_of_singleton. naive_solver. Qed.

Lemma seals_snoc s i tr o resp e :
  seals s i (tr ++ [(o, resp)]) e <->
  seals s i tr e \/ (exists md md', o = OpSeal md /\ resp = RespSeal (Ok md') /\
    RangeMetadata.stream_id md = s /\ RangeMetadata.index md = i /\ RangeMetadata.end_ md' = Some e).
Proof. unfold seals. setoid_rewrite elem_of_app. setoid_rewrite list_elem_of_singleton. naive_solver. Qed.

Lemma ack_inv_step s i o resp r r' tr :
  RangeMetadata.start (Range.metadata r) <= RangeMetadata.start (Range.metadata r') ->
  range_step s i o resp r r' -> ack_inv s i r tr -> ack_inv s i r' (tr ++ [(o, resp)]).
Proof.
  intros Hstart Hstep (Hcov & Hsealed & Hle).
  assert (Hnew : forall x, acks s i (tr ++ [(o, resp)]) x -> covers r' x).
  { intros x [Hx|(off & d & -> & -> & ->)]%acks_snoc; [by eapply covers_step; eauto|].
    inversion Hstep as [| | |]; simplify_eq; [naive_solver|by apply covers_commit with r]. }
  split_and!; [done| |].
  - intros e [He|(md & md' & -> & -> & <- & <- & He)]%seals_snoc.
    + by eapply (sealed_step s i o resp r r'); eauto.
    + inversion Hstep as [| | |? ? ? ? ? ? Hs]; simplify_eq; [naive_solver|].
      unfold Range.seal in Hs. by simplify_eq/=.
  - intros x e Hx%acks_snoc [He|(md & md' & -> & -> & <- & <- & He)]%seals_snoc.
    + destruct Hx as [?|(off & d & -> & -> & ->)]; [by eauto|].
      by destruct (proj2 (sealed_step _ _ _ _ _ _ Hstep (Hsealed _ He)) off d).
    + destruct Hx as [Hx|(? & ? & ? & _)]; [|done]. apply Hcov in Hx.
      inversion Hstep as [| | |? ? ? ? ? ? Hs]; simplify_eq; [naive_solver|].
      unfold Range.seal in Hs. simplify_eq/=. done.
Qed.

Lemma exec_ack_inv s i m tr m' r :
  reachable m -> exec (retains s i) m tr m' -> get_range m s i = Some r ->
  exists r', ack_inv s i r' tr.
Proof.
  intros Hm%reachable_wf Hexec Hg. destruct (exec_get _ _ _ _ _ _ Hexec Hg) as [r' Hg']. exists r'.
  change tr with ([] ++ tr). eapply (exec_range_ind _ _ _ _ _ _ r r' []); [|done..|].
  - intros. by eapply ack_inv_step.
  - split_and!; unfold acks, seals; set_solver.
Qed.

(** A seal reports no end below what was covered from the start. *)
Lemma exec_seal_from s i m tr m' r x :
  reachable m -> exec (retains s i) m tr m' -> get_range m s i = Some r -> covers r x ->
  forall e, seals s i tr e -> x <= e.
Proof.
  intros Hm%reachable_wf Hexec Hg Hx. destruct (exec_get _ _ _ _ _ _ Hexec Hg) as [r' Hg'].
  eapply (exec_range_ind _ _ (fun r tr => covers r x /\ forall e, seals s i tr e -> x <= e) _ _ _ r r' []); [|done..|].
  - intros pre o resp r1 r2 rest _ Hle Hstep [Hc Hs]. split; [by eapply covers_step|].
    intros e [?|(md & md' & -> & -> & <- & <- & He)]%seals_snoc; [by apply Hs|].
    inversion Hstep as [| | |? ? ? ? ? ? Hse]; simplify_eq; [naive_solver|].
    unfold Range.seal in Hse. simplify_eq/=. done.
  - split; [done|]. unfold seals. set_solver.
Qed.

(** C6: Sealing is safe.  In every execution that keeps a range (in any interleaving of
    appends, commits, seals and events), the end offset that a seal of the range reports is
    at least the end of every append of that range that was acknowledged, before or after:
    acknowledged earlier, it is covered; and after the seal nothing is acknowledged. *)
Theorem seal_covers_acks s i m tr m' :
  reachable m -> exec (retains s i) m tr m' ->
  forall off delta md md' e,
    (OpCommit s i off delta, RespCommit (Ok ())) ∈ tr ->
    (OpSeal md, RespSeal (Ok md')) ∈ tr ->
    RangeMetadata.stream_id md = s -> RangeMetadata.index md = i ->
    RangeMetadata.end_ md' = Some e -> off + delta <= e.
Proof.
  intros Hm Hexec off d md md' e Hc Hs <- <- He.
  destruct tr as [|[o resp] tr]; [by apply not_elem_of_nil in Hc|].
  pose proof Hexec as Hx. inversion Hx as [|? ? ? ? ? ? _ (r & _ & Hg & _)]; subst.
  destruct (exec_ack_inv _ _ _ _ _ _ Hm Hexec Hg) as (r' & _ & _ & Hinv).
  apply Hinv; unfold acks, seals; naive_solver.
Qed.

(** *** Order of dispatch *)

(** The requests of a range that passed the barrier, in order, as [(offset, len)]. *)
Definition accepted (s i : Z) (tr : list (op * response)) : list (Z * Z) :=
  omap (fun '(o, resp) =>
    match o, resp with
    | OpCheck req, RespCheck (Ok _) =>
        if bool_decide (AppendRecordRequest.stream_id req = s /\
                        AppendRecordRequest.range_index req = i)
        then Some (AppendRecordRequest.offset req, AppendRecordRequest.len req) else None
    | _, _ => None
    end) tr.

Lemma accepted_snoc s i tr o resp :
  accepted s i (tr ++ [(o, resp)]) = accepted s i tr ++ accepted s i [(o, resp)].
Proof. apply omap_app. Qed.

Lemma accepted_step s i o resp r r' :
  range_step s i o resp r r' ->
  (accepted s i [(o, resp)] = [] /\
     (forall w', Range.window r' = Some w' ->
        exists w, Range.window r = Some w /\ Window.next w' = Window.next w)) \/
  (exists w n, accepted s i [(o, resp)] = [(Window.next w, n)] /\ Range.window r = Some w /\
     Range.window r' = Some (Window.mk (Window.next w + n) (Window.committed w)) /\
     Range.committed r' = Range.committed r /\
     forall off d, o <> OpCommit s i off d).
Proof.
  destruct 1 as [o resp r r' Hc Hw Hchk _ _|req r w <- <- Hw Hn Hle|off d r r' Hc|md md' r r' ? ? Hs].
  - left. rewrite Hw. split; [|eauto]. unfold accepted. simpl.
    destruct o; try done. destruct resp as [|[[]|]| | |]; try done.
    case_bool_decide; [|done]. naive_solver.
  - right. exists w, (AppendRecordRequest.len req). rewrite Hn. split_and!; try done.
    unfold accepted. simpl. by rewrite bool_decide_true.
  - left. split; [done|]. apply range_commit_spec in Hc as (w & Hw & _ & -> & _). naive_solver.
  - left. split; [done|]. unfold Range.seal in Hs. by simplify_eq/=.
Qed.

(** Requests are dispatched to the store in order.  Through any interleaving of calls
    that keeps a range, the requests of the range that pass the barrier start at the [next]
    offset of its window and follow one another without gap, overlap or repetition, up to
    the [next] offset the window ends with. *)
Theorem appends_dispatched_in_order s i m tr m' r w :
  reachable m -> exec (retains s i) m tr m' ->
  get_range m s i = Some r -> Range.window r = Some w ->
  exists b, contiguous (Window.next w) (accepted s i tr) b /\
    forall r' w', get_range m' s i = Some r' -> Range.window r' = Some w' -> Window.next w' = b.
Proof.
  intros Hm%reachable_wf Hexec Hg Hw.
  destruct (exec_get _ _ _ _ _ _ Hexec Hg) as [r' Hg'].
  assert (exists b, contiguous (Window.next w) (accepted s i tr) b /\
    forall w', Range.window r' = Some w' -> Window.next w' = b) as (b & Hb & Hn).
  { eapply (exec_range_ind s i (fun r tr => exists b, contiguous _ (accepted s i tr) b /\
      forall w', Range.window r = Some w' -> Window.next w' = b) m tr m' r r' []); [|done..|].
    - intros pre o resp x x' rest _ _ Hstep (b & Hb & Hn). rewrite accepted_snoc.
      destruct (accepted_step _ _ _ _ _ _ Hstep) as [[-> Hnext]|(wx & n & -> & Hwx & Hwx' & _)].
      + rewrite app_nil_r. exists b. split; [done|].
        intros w' (w0 & Hw0 & ->)%Hnext. by apply Hn.
      + exists (b + n). rewrite contiguous_snoc, (Hn _ Hwx). split; [done|].
        intros w'. rewrite Hwx'. intros [= <-]. simpl. by rewrite (Hn _ Hwx).
    - exists (Window.next w). split; [done|]. congruence. }
  exists b. split; [done|]. intros. simplify_eq. auto.
Qed.

(** *** Persistence of the committed prefix *)

(** What the range server relies on the store for: when an append of a range is reported
    persistent, so are the requests dispatched before it ([persisted] lists them). *)
Definition ordered_store (s i : Z) (persisted : list (Z * Z)) (tr : list (op * response)) : Prop :=
  forall pre off d rest, tr = pre ++ (OpCommit s i off d, RespCommit (Ok ())) :: rest ->
    (off, d) ∈ accepted s i pre /\
    forall o n, (o, n) ∈ accepted s i pre -> o < off + d -> (o, n) ∈ persisted.

Definition durable_to (persisted l : list (Z * Z)) (h : Z) : Prop :=
  forall o n, (o, n) ∈ l -> o < h -> (o, n) ∈ persisted.

Definition durable_inv (a : Z) (persisted : list (Z * Z)) (r : Range.t) (acc : list (Z * Z)) : Prop :=
  exists b h, contiguous a acc b /\ h <= b /\ durable_to persisted acc h /\
    (forall w, Range.window r = Some w -> Window.next w = b /\ Window.committed w = h) /\
    (forall c, Range.committed r = Some c -> c <= h).

Lemma durable_commit a persisted r r' acc off d :
  Forall (fun '(_, n) => 0 <= n) acc -> (off, d) ∈ acc -> durable_to persisted acc (off + d) ->
  Range.commit r (off + d) = (Ok (), r') ->
  durable_inv a persisted r acc -> durable_inv a persisted r' acc.
Proof.
  intros Hpos Hin Hdur (w & Hw & Hm & Hw' & Hc)%range_commit_spec (b & h & Hcont & Hhb & Hh & Hwin & Hcm).
  destruct (Hwin _ Hw) as [<- <-]. destruct (contiguous_mem _ _ _ _ _ Hpos Hcont Hin).
  exists (Window.next w), ((off + d) `max` Window.committed w). split_and!; [done|lia| | |].
  - intros o n Ho Hlt. apply Z.max_lt_iff in Hlt as [?|?]; [by apply Hdur|by apply Hh].
  - rewrite Hw'. by intros ? [= <-].
  - intros c. rewrite Hc. destruct (Range.committed r) as [c0|]; [|case_bool; [intros [= <-]; lia|done]].
    specialize (Hcm _ eq_refl). intros [= <-]. lia.
Qed.

Lemma durable_same a persisted r r' acc :
  Range.committed r' = Range.committed r ->
  (forall w, Range.window r' = Some w -> Range.window r = Some w) ->
  durable_inv a persisted r acc -> durable_inv a persisted r' acc.
Proof.
  intros Hc Hw (b & h & ? & ? & ? & Hwin & Hcm). exists b, h. rewrite Hc. naive_solver.
Qed.

Lemma durable_accept a persisted r r' acc w n :
  0 <= n -> Range.window r = Some w ->
  Range.window r' = Some (Window.mk (Window.next w + n) (Window.committed w)) ->
  Range.committed r' = Range.committed r ->
  durable_inv a persisted r acc -> durable_inv a persisted r' (acc ++ [(Window.next w, n)]).
Proof.
  intros Hn Hw Hw' Hc' (b & h & Hcont & Hhb & Hh & Hwin & Hcm). destruct (Hwin _ Hw) as [<- <-].
  exists (Window.next w + n), (Window.committed w). rewrite contiguous_snoc, Hw', Hc'.
  split_and!; [done|done|lia| |by intros ? [= <-]|done].
  intros o n' [?|[= -> ->]%list_elem_of_singleton]%elem_of_app Hlt; [by apply Hh|lia].
Qed.

Lemma durable_inv_step s i a persisted o resp r r' acc :
  Forall (fun '(_, n) => 0 <= n) (acc ++ accepted s i [(o, resp)]) ->
  (forall off d, o = OpCommit s i off d -> resp = RespCommit (Ok ()) ->
     (off, d) ∈ acc /\ durable_to persisted acc (off + d)) ->
  range_step s i o resp r r' -> durable_inv a persisted r acc ->
  durable_inv a persisted r' (acc ++ accepted s i [(o, resp)]).
Proof.
  intros [Hpos Hnew]%Forall_app Hcommit Hstep Hinv.
  destruct (accepted_step _ _ _ _ _ _ Hstep) as [[Heq _]|(w & n & Heq & Hw & Hw' & Hc' & _)].
  - rewrite Heq, app_nil_r.
    destruct Hstep as [o resp r r' Hc Hw _ _ _|req r w <- <- Hw|off d r r' Hc|md md' r r' ? ? Hs].
    + apply durable_same with r; [done| |done]. by rewrite Hw.
    + unfold accepted in Heq. simpl in Heq. by rewrite bool_decide_true in Heq.
    + destruct (Hcommit off d eq_refl eq_refl). by eapply durable_commit.
    + unfold Range.seal in Hs. injection Hs as _ <-.
      apply durable_same with r; [done|intros w [=]|done].
  - rewrite Heq in *. apply Forall_cons_1 in Hnew as [Hnew _].
    exact (durable_accept _ _ _ _ _ _ _ Hnew Hw Hw' Hc' Hinv).
Qed.

(** C7: The committed prefix is persistent.  If the store reports the appends of a range
    persistent only after those dispatched before them, then from the creation of an open
    range on, in any interleaving that keeps the range, [committed] never passes [next],
    and every offset from the range's start up to [committed] (the value a seal reports)
    lies in a request that the store has persisted. *)
Theorem committed_prefix_persisted s i m md tr m' persisted r' :
  reachable m -> exec (retains s i) m tr m' ->
  get_range m s i = Some (Range.new md) -> RangeMetadata.end_ md = None ->
  Forall (fun '(_, n) => 0 <= n) (accepted s i tr) ->
  ordered_store s i persisted tr ->
  get_range m' s i = Some r' ->
  (forall w, Range.window r' = Some w -> Window.committed w <= Window.next w) /\
  (forall c x, Range.committed r' = Some c -> RangeMetadata.start md <= x < c ->
     exists o n, (o, n) ∈ persisted /\ o <= x < o + n).
Proof.
  intros Hm%reachable_wf Hexec Hg Hopen Hpos Hstore Hg'.
  set (a := RangeMetadata.start md).
  assert (durable_inv a persisted r' (accepted s i tr)) as (b & h & Hcont & Hhb & Hh & Hwin & Hcm).
  { eapply (exec_range_ind s i (fun r tr => durable_inv a persisted r (accepted s i tr)) m tr m'
      (Range.new md) r' []); [|done..|].
    - intros pre o resp x x' rest Heq _ Hstep. rewrite accepted_snoc.
      apply durable_inv_step; [|intros ? ? -> ->; by eapply Hstore|done].
      rewrite <- accepted_snoc. rewrite Heq in Hpos.
      replace (pre ++ (o, resp) :: rest) with ((pre ++ [(o, resp)]) ++ rest) in Hpos
        by by rewrite <- (assoc_L (++)).
      unfold accepted in Hpos. rewrite omap_app in Hpos. by apply Forall_app in Hpos as [? _].
    - exists a, a. unfold Range.new, RangeMetadata.has_end. rewrite Hopen.
      split_and!; try done; [by intros ? ? ?%not_elem_of_nil|]. simpl. by intros ? [= <-]. }
  split; [by intros w [-> ->]%Hwin|]. intros c x Hc Hx. specialize (Hcm _ Hc).
  destruct (contiguous_cover _ _ _ x Hcont) as (o & n & Hin & Hox); [lia|].
  exists o, n. split; [apply Hh; [done|lia]|done].
Qed.

(** ** Trimming *)

Lemma contains_iff m x :
  RangeMetadata.contains m x = true <->
  RangeMetadata.start m <= x /\ (forall e, RangeMetadata.end_ m = Some e -> x < e).
Proof.
  unfold RangeMetadata.contains. destruct (RangeMetadata.end_ m) as [e|]; repeat case_bool; naive_solver lia.
Qed.

Lemma trim_range_contains o r x :
  (exists r', Stream.trim_range o r = Some r' /\ RangeMetadata.contains (Range.metadata r') x = true)
  <-> o <= x /\ RangeMetadata.contains (Range.metadata r) x = true.
Proof.
  setoid_rewrite contains_iff. unfold Stream.trim_range.
  destruct (RangeMetadata.end_ (Range.metadata r)) as [e|] eqn:He; repeat case_bool;
    split; try naive_solver lia.
  all: intros [Hx [Hs Hend]]; eexists; split; [done|]; simpl; split; [lia|naive_solver].
Qed.

(** When the start offset of a stream moves to [start_offset], the offsets that its
    ranges contain are exactly those contained before that are not below it: whole ranges
    are dropped and the one that straddles the offset is cut, nothing else is lost. *)
Theorem update_metadata_trims s md x :
  (exists r', r' ∈ Stream.ranges (Stream.update_metadata s md) /\
     RangeMetadata.contains (Range.metadata r') x = true) <->
  StreamMetadata.start_offset md <= x /\
  (exists r, r ∈ Stream.ranges s /\ RangeMetadata.contains (Range.metadata r) x = true).
Proof.
  unfold Stream.update_metadata, Stream.trim_ranges. simpl.
  setoid_rewrite list_elem_of_omap. split.
  - intros (r' & (r & Hin & Ht) & Hc).
    destruct (proj1 (trim_range_contains (StreamMetadata.start_offset md) r x)); eauto.
  - intros [Hx (r & Hin & Hc)].
    destruct (proj2 (trim_range_contains (StreamMetadata.start_offset md) r x)) as (r' & ? & ?); eauto.
Qed.

(** ** Witnesses *)

Module Example_.
(** Executions that keep a range, computed. *)
Definition retains_b (s i : Z) (m m' : t) : bool :=
  match get_range m s i, get_range m' s i with
  | Some r, Some r' =>
      RangeMetadata.start (Range.metadata r) <=? RangeMetadata.start (Range.metadata r')
  | _, _ => false
  end.

Fixpoint run (s i : Z) (m : t) (ops : list op) : outcome (list (op * response) * t) :=
  match ops with
  | [] => Ret ([], m)
  | o :: ops =>
      '(resp, m1) ← step m o;
      if retains_b s i m m1 then
        '(tr, m2) ← run s i m1 ops;
        Ret ((o, resp) :: tr, m2)
      else Panic
  end.

Lemma run_exec s i m ops tr m' : run s i m ops = Ret (tr, m') -> exec (retains s i) m tr m'.
Proof.
  revert m tr. induction ops as [|o ops IH]; intros m tr; simpl.
  - intros [= <- <-]. constructor.
  - intros Hr. inv_ret. destruct x as [resp m1]. destruct (retains_b s i m m1) eqn:Hb; [|done].
    inv_ret. destruct x as [tr' m2]. inv_ret. econstructor; [done| |by apply IH].
    unfold retains_b in Hb. destruct (get_range m s i) as [r|] eqn:Hg; [|done].
    destruct (get_range m1 s i) as [r'|] eqn:Hg'; [|done]. bool_to_prop. by exists r, r'.
Qed.

Definition md : RangeMetadata.t := RangeMetadata.new 7 0 0 100 None.
Definition req (o n : Z) : AppendRecordRequest.t := AppendRecordRequest.mk 7 0 o n [].
Definition m0 : t := snd (create_range (mk ∅) md).
(** Two appends in flight, committed out of order around a seal; the late one is refused. *)
Definition ops : list op :=
  [OpCheck (req 100 2); OpCheck (req 102 3); OpCommit 7 0 100 2; OpSeal md; OpCommit 7 0 102 3].
Definition ops_open : list op :=
  [OpCheck (req 100 2); OpCheck (req 102 3); OpCommit 7 0 102 3; OpCommit 7 0 100 2].
Definition trace (l : list op) : list (op * response) :=
  match run 7 0 m0 l with Ret (tr, _) => tr | Panic => [] end.
Definition final (l : list op) : t :=
  match run 7 0 m0 l with Ret (_, m) => m | Panic => m0 end.

Lemma m0_reachable : reachable m0.
Proof. exists [(OpCreate md, RespCreate (Ok ()))]. by eapply exec_cons; [|done|constructor]. Qed.
Lemma ops_exec : exec (retains 7 0) m0 (trace ops) (final ops).
Proof. apply (run_exec 7 0 m0 ops). by vm_compute. Qed.
Lemma ops_trace : trace ops =
  [(OpCheck (req 100 2), RespCheck (Ok ())); (OpCheck (req 102 3), RespCheck (Ok ()));
   (OpCommit 7 0 100 2, RespCommit (Ok ()));
   (OpSeal md, RespSeal (Ok (RangeMetadata.set_end md 102)));
   (OpCommit 7 0 102 3, RespCommit (Err ServiceError.AlreadySealed))].
Proof. by vm_compute. Qed.
Lemma ops_open_exec : exec (retains 7 0) m0 (trace ops_open) (final ops_open).
Proof. apply (run_exec 7 0 m0 ops_open). by vm_compute. Qed.

Definition persisted : list (Z * Z) := [(100, 2); (102, 3)].
Lemma ops_open_store : ordered_store 7 0 persisted (trace ops_open).
Proof.
  assert (Htr : trace ops_open =
    [(OpCheck (req 100 2), RespCheck (Ok ())); (OpCheck (req 102 3), RespCheck (Ok ()));
     (OpCommit 7 0 102 3, RespCommit (Ok ())); (OpCommit 7 0 100 2, RespCommit (Ok ()))])
    by by vm_compute.
  intros pre off d rest. rewrite Htr. intros Heq.
  assert (accepted 7 0 pre = persisted /\ (off, d) ∈ persisted) as [-> ?];
    [|split; [done|by intros]].
  do 5 (destruct pre as [|? pre]; simplify_eq/=; try (split; [by vm_compute|set_solver])).
Qed.
End Example_.

Lemma seal_covers_acks_witness :
  (OpCommit 7 0 100 2, RespCommit (Ok ())) ∈ Example_.trace Example_.ops /\
  (OpSeal Example_.md, RespSeal (Ok (RangeMetadata.set_end Example_.md 102))) ∈
    Example_.trace Example_.ops /\
  100 + 2 <= 102.
Proof.
  pose proof Example_.ops_trace as Htr.
  assert (Hc : (OpCommit 7 0 100 2, RespCommit (Ok ())) ∈ Example_.trace Example_.ops)
    by (rewrite Htr; set_solver).
  assert (Hs : (OpSeal Example_.md, RespSeal (Ok (RangeMetadata.set_end Example_.md 102))) ∈
    Example_.trace Example_.ops) by (rewrite Htr; set_solver).
  split; [exact Hc|]. split; [exact Hs|].
  exact (seal_covers_acks 7 0 _ _ _ Example_.m0_reachable Example_.ops_exec _ _ _ _ _ Hc Hs
    eq_refl eq_refl eq_refl).
Defined.

Lemma manager_wf_invariant_witness :
  StreamMetadata.stream_id
    (Stream.metadata (default (Stream.new (unknown_stream 0)) (get_stream Example_.m0 7))) = 7.
Proof.
  apply (manager_wf_invariant (fun _ _ => True) [(OpCreate Example_.md, RespCreate (Ok ()))]
    Example_.m0); [by eapply exec_cons; [|done|constructor]|by vm_compute].
Defined.

Lemma appends_dispatched_in_order_witness :
  exists b, contiguous 100 (accepted 7 0 (Example_.trace Example_.ops_open)) b.
Proof.
  destruct (appends_dispatched_in_order 7 0 _ _ _ (Range.new Example_.md) (Window.new 100)
    Example_.m0_reachable Example_.ops_open_exec) as (b & Hb & _);
    [by vm_compute|by vm_compute|]. exact (ex_intro _ b Hb).
Defined.

Lemma committed_prefix_persisted_witness :
  exists r', get_range (Example_.final Example_.ops_open) 7 0 = Some r' /\
    Range.committed r' = Some 105 /\
    forall x, 100 <= x < 105 -> exists o n, (o, n) ∈ Example_.persisted /\ o <= x < o + n.
Proof.
  exists (Range.mk Example_.md (Some 105) (Some (Window.mk 105 105))).
  split; [by vm_compute|]. split; [done|]. intros x Hx.
  destruct (committed_prefix_persisted 7 0 _ Example_.md _ _ Example_.persisted
    (Range.mk Example_.md (Some 105) (Some (Window.mk 105 105)))
    Example_.m0_reachable Example_.ops_open_exec) as [_ H];
    [by vm_compute|done|by apply (bool_decide_unpack _); vm_compute
    |exact Example_.ops_open_store|by vm_compute|].
  exact (H 105 x eq_refl Hx).
Defined.
