(* ===== verification/WriteWindow.v ===== *)
(** * The window of concurrent WAL writes

    [components/store/src/io/write_window.rs].  Direct-IO writes complete in any order;
    the window tracks the offset up to which the write-ahead log is persistent, and the
    completed writes beyond it. *)

From S2P Require Import Prelude Collections.

Module WriteWindow.
Inductive WriteWindowError :=
| InvalidCommit (offset previous_length attempted_length : Z).

Record t := mk {
  committed : Z;                    (* u64 *)
  completed : BTreeMap.t Z;         (* BTreeMap<u64, u32> *)
}.

Definition new (committed : Z) : t := mk committed [].

Definition reset_committed (w : t) (committed : Z) : t := mk committed (completed w).

(** The loop of [advance], by recursion on the map that it pops from. *)
Fixpoint advance_loop (committed : Z) (completed : BTreeMap.t Z) : outcome t :=
  match completed with
  | [] => Ret (mk committed [])
  | (completed_offset, completed_len) :: rest =>
      if committed <? completed_offset then Ret (mk committed completed)
      else
        end_ ← u64_add completed_offset completed_len;
        advance_loop (end_ `max` committed) rest
  end.

Definition advance (w : t) : outcome (result Z WriteWindowError * t) :=
  w ← advance_loop (committed w) (completed w);
  Ret (Ok (committed w), w).

Definition commit (w : t) (offset length : Z) : outcome (result Z WriteWindowError * t) :=
  match BTreeMap.get (completed w) offset with
  | None => advance (mk (committed w) (BTreeMap.insert (completed w) offset length))
  | Some prev_len =>
      if prev_len <=? length then
        advance (mk (committed w) (BTreeMap.insert (completed w) offset length))
      else Ret (Err (InvalidCommit offset prev_len length), w)
  end.

(** The writes of [writes] complete one after the other; also the ones that were rejected. *)
Fixpoint commit_all (w : t) (writes : list (Z * Z)) : outcome (list (Z * Z) * t) :=
  match writes with
  | [] => Ret ([], w)
  | (offset, length) :: writes =>
      '(res, w) ← commit w offset length;
      '(rejected, w) ← commit_all w writes;
      Ret (match res with Ok _ => rejected | Err _ => (offset, length) :: rejected end, w)
  end.
End WriteWindow.

Import WriteWindow.

(** ** Specification *)

(** An offset is written if some completed write covers it. *)
Definition written (writes : list (Z * Z)) (x : Z) : Prop :=
  exists o l, (o, l) ∈ writes /\ o <= x < o + l.

(** [c] is the end of the longest prefix from [c0] on that is written. *)
Definition prefix_end (c0 : Z) (writes : list (Z * Z)) (c : Z) : Prop :=
  c0 <= c /\ (forall x, c0 <= x < c -> written writes x) /\ ~ written writes c.

Lemma prefix_end_unique c0 W c c' : prefix_end c0 W c -> prefix_end c0 W c' -> c = c'.
Proof.
  intros (Hle & Hin & Hout) (Hle' & Hin' & Hout').
  destruct (Z.lt_trichotomy c c') as [?|[?|?]]; [|done|].
  - destruct Hout. apply Hin'. lia.
  - destruct Hout'. apply Hin. lia.
Qed.

(** ** Invariant *)

Definition writes_ok (W : list (Z * Z)) : Prop :=
  forall o l, (o, l) ∈ W -> 0 <= o /\ 0 <= l /\ o + l < 2 ^ 64.

(** Everything but the condition that pending writes lie beyond [committed]. *)
Definition pre_inv (c0 : Z) (W : list (Z * Z)) (w : t) : Prop :=
  BTreeMap.sorted (completed w) /\ c0 <= committed w /\
  (forall x, c0 <= x < committed w -> written W x) /\
  (forall o l, (o, l) ∈ completed w -> (o, l) ∈ W) /\
  (forall o l, (o, l) ∈ W -> o + l <= committed w \/ exists l', l <= l' /\ (o, l') ∈ completed w).

Definition inv (c0 : Z) (W : list (Z * Z)) (w : t) : Prop :=
  pre_inv c0 W w /\ forall o l, (o, l) ∈ completed w -> committed w < o.

Lemma inv_new c0 : inv c0 [] (new c0).
Proof.
  split; [|set_solver]. split_and!; simpl; [apply BTreeMap.sorted_nil|lia|lia|set_solver..].
Qed.

Lemma advance_loop_spec c0 W c m :
  writes_ok W -> pre_inv c0 W (mk c m) ->
  exists w, advance_loop c m = Ret w /\ inv c0 W w.
Proof.
  intros HW. revert c. induction m as [|[o l] m IH]; intros c Hpre; simpl.
  { eexists. split; [done|]. split; [done|]. simpl. set_solver. }
  pose proof Hpre as (Hs & Hc0 & Hx & Hm & Hw). simpl in *.
  apply BTreeMap.sorted_cons in Hs as [Hlt Hs].
  case_bool.
  - eexists. split; [done|]. split; [done|]. simpl.
    intros o' l' [[= <- <-]|Hin]%elem_of_cons; [done|]. specialize (Hlt _ _ Hin). lia.
  - destruct (HW o l) as (? & ? & ?); [by apply Hm, list_elem_of_here|].
    rewrite uint_add_Ret by lia. apply IH. split_and!; simpl; [done|lia| | |].
    + intros x Hx'. destruct (decide (x < c)); [apply Hx; lia|].
      exists o, l. split; [by apply Hm, list_elem_of_here|lia].
    + intros o' l' Hin. by apply Hm, list_elem_of_further.
    + intros o' l' [Hle|(l'' & Hle & [[= -> ->]|Hin]%elem_of_cons)]%Hw; [left; lia|left; lia|].
      right. eauto.
Qed.

Lemma commit_insert_spec c0 W w o l :
  writes_ok ((o, l) :: W) -> inv c0 W w ->
  (forall prev, BTreeMap.get (completed w) o = Some prev -> prev <= l) ->
  exists w', advance (mk (committed w) (BTreeMap.insert (completed w) o l)) =
    Ret (Ok (committed w'), w') /\ inv c0 ((o, l) :: W) w'.
Proof.
  intros HW ((Hs & Hc0 & Hx & Hm & Hw) & Hgt) Hprev.
  destruct (advance_loop_spec c0 ((o, l) :: W) (committed w) (BTreeMap.insert (completed w) o l))
    as (w' & Heq & Hinv); [done| |].
  - split_and!; simpl; [by apply BTreeMap.sorted_insert|done| | |].
    + intros x (o' & l' & ? & ?)%Hx. exists o', l'. set_solver.
    + intros o' l' [[-> ->]|[_ Hin]]%BTreeMap.elem_of_insert; [set_solver..|done].
    + intros o' l' Hin. setoid_rewrite BTreeMap.elem_of_insert; [|done..].
      apply elem_of_cons in Hin as [[= -> ->]|[?|(l2 & Hle & Hin)]%Hw]; [naive_solver..|].
      right. destruct (decide (o' = o)) as [->|]; [|by eauto].
      apply BTreeMap.get_elem in Hin; [|done]. specialize (Hprev _ Hin). exists l. split; [lia|auto].
  - exists w'. unfold advance. simpl. by rewrite Heq.
Qed.

(** One completion: it panics on no valid write, and is rejected exactly when a longer write
    at the same offset is pending. *)
Lemma commit_spec c0 W w o l :
  writes_ok ((o, l) :: W) -> inv c0 W w ->
  (exists w', commit w o l = Ret (Ok (committed w'), w') /\ inv c0 ((o, l) :: W) w') \/
  (exists prev, commit w o l = Ret (Err (InvalidCommit o prev l), w) /\
     (o, prev) ∈ completed w /\ l < prev).
Proof.
  intros HW Hinv. unfold commit. destruct (BTreeMap.get (completed w) o) as [prev|] eqn:Hg.
  - case_bool.
    + left. apply commit_insert_spec; [done..|]. intros ? ?. by simplify_eq.
    + right. exists prev. split_and!; [done| |lia]. apply BTreeMap.get_elem; [apply Hinv|done].
  - left. apply commit_insert_spec; [done..|]. naive_solver.
Qed.

(** A rejected write lies within a pending one, so it adds nothing. *)
Lemma inv_rejected c0 W w o l prev :
  (o, prev) ∈ completed w -> l < prev -> inv c0 W w -> inv c0 ((o, l) :: W) w.
Proof.
  intros Hin Hlt ((Hs & Hc0 & Hx & Hm & Hw) & Hgt). split; [|done]. split_and!; [done..| | |].
  - intros x (o' & l' & ? & ?)%Hx. exists o', l'. set_solver.
  - set_solver.
  - intros o' l' [[= -> ->]|?]%elem_of_cons; [|by auto]. right. exists prev. split; [lia|done].
Qed.

Lemma inv_prefix_end c0 W w : inv c0 W w -> prefix_end c0 W (committed w).
Proof.
  intros ((Hs & Hc0 & Hx & Hm & Hw) & Hgt). split_and!; [done..|].
  intros (o & l & [?|(l' & _ & Hin%Hgt)]%Hw & ?); lia.
Qed.

Lemma commit_all_spec c0 W w writes :
  writes_ok (rev writes ++ W) -> inv c0 W w ->
  exists rejected w', commit_all w writes = Ret (rejected, w') /\ inv c0 (rev writes ++ W) w'.
Proof.
  revert W w. induction writes as [|[o l] writes IH]; intros W w HW Hinv; simpl; [by eauto|].
  rewrite <- (assoc_L (++)). simpl. simpl in HW. rewrite <- (assoc_L (++)) in HW. simpl in HW.
  assert (writes_ok ((o, l) :: W)) as HW1 by (intros ? ? ?; apply HW; set_solver).
  destruct (commit_spec c0 W w o l HW1 Hinv) as [(w' & -> & Hinv')|(prev & -> & Hin & Hlt)]; simpl.
  - destruct (IH _ _ HW Hinv') as (rej & w2 & -> & ?). simpl. eauto.
  - destruct (IH _ _ HW (inv_rejected _ _ _ _ _ _ Hin Hlt Hinv)) as (rej & w2 & -> & ?).
    simpl. eauto.
Qed.

Lemma written_perm W W' x : W ≡ₚ W' -> written W x -> written W' x.
Proof. intros Hp (o & l & Hin & ?). exists o, l. by rewrite <- Hp. Qed.

Lemma prefix_end_perm c0 W W' c : W ≡ₚ W' -> prefix_end c0 W c -> prefix_end c0 W' c.
Proof.
  intros Hp (? & Hin & Hout). split_and!; [done| |].
  - intros x Hx. eapply written_perm, Hin; done.
  - intros Hw. apply Hout. by eapply written_perm.
Qed.

(** ** Correctness *)

Lemma commit_all_prefix c0 writes :
  writes_ok writes ->
  exists rejected w, commit_all (new c0) writes = Ret (rejected, w) /\
    prefix_end c0 writes (committed w).
Proof.
  intros HW. destruct (commit_all_spec c0 [] (new c0) writes) as (rej & w & Heq & Hinv).
  - intros o l. rewrite app_nil_r, <- Permutation_rev. apply HW.
  - apply inv_new.
  - exists rej, w. split; [done|]. rewrite app_nil_r in Hinv.
    eapply prefix_end_perm, inv_prefix_end, Hinv. by rewrite <- Permutation_rev.
Qed.

(** C19: The write window computes the persistent prefix.  For writes that complete in any
    order, overlapping or not, repeated or extended, no call panics, and the window's
    [committed] is exactly the end of the longest prefix that completed writes cover: all
    before it is written, and the offset itself is not. *)
Theorem write_window_prefix c0 writes :
  writes_ok writes ->
  exists rejected w, commit_all (new c0) writes = Ret (rejected, w) /\
    c0 <= committed w /\
    (forall x, c0 <= x < committed w -> written writes x) /\ ~ written writes (committed w).
Proof. apply commit_all_prefix. Qed.

(** The order in which writes complete does not matter: any two completion orders of the
    same writes lead to the same committed offset. *)
Theorem write_window_order_independent c0 writes writes' rej rej' w w' :
  writes_ok writes -> writes ≡ₚ writes' ->
  commit_all (new c0) writes = Ret (rej, w) -> commit_all (new c0) writes' = Ret (rej', w') ->
  committed w = committed w'.
Proof.
  intros HW Hp H1 H2. destruct (commit_all_prefix c0 writes HW) as (? & w1 & ? & Hpre).
  destruct (commit_all_prefix c0 writes') as (? & w2 & ? & Hpre').
  { intros o l. rewrite <- Hp. apply HW. }
  assert (w1 = w /\ w2 = w') as [-> ->] by (split; congruence).
  apply (prefix_end_unique c0 writes'); [by apply prefix_end_perm with writes|done].
Qed.

(** ** Witnesses *)

Definition late_writes : list (Z * Z) := [(20, 10); (0, 10); (0, 5); (30, 5); (10, 10)].

Lemma late_writes_ok : writes_ok late_writes.
Proof.
  intros o l Hin. unfold late_writes in Hin.
  repeat (apply elem_of_cons in Hin as [[= -> ->]|Hin]; [lia|]). by apply not_elem_of_nil in Hin.
Qed.

Lemma write_window_prefix_witness :
  exists rejected w, commit_all (new 0) late_writes = Ret (rejected, w) /\
    0 <= committed w /\
    (forall x, 0 <= x < committed w -> written late_writes x) /\ ~ written late_writes (committed w).
Proof. exact (write_window_prefix 0 late_writes late_writes_ok). Defined.

Lemma write_window_order_independent_witness :
  exists w w' rej rej', commit_all (new 0) late_writes = Ret (rej, w) /\
    commit_all (new 0) (reverse late_writes) = Ret (rej', w') /\
    committed w = committed w' /\ committed w = 35.
Proof.
  exists (mk 35 []), (mk 35 []), [], []. split_and!; [by vm_compute|by vm_compute| |done].
  apply (write_window_order_independent 0 late_writes (reverse late_writes) [] []);
    [exact late_writes_ok|by rewrite reverse_Permutation|by vm_compute|by vm_compute].
Defined.
