(* ===== verification/StoreBuffer.v ===== *)
(** * The buffered store

    [components/store/src/store/buffer]: the store wrapper that puts the append requests of
    a range in order before it hands them to the IO engine.  A request that is ahead of its
    range waits in a heap; the request that closes the gap is dispatched together with the
    run of waiting requests that follow it. *)

From S2P Require Import Prelude Bytes Model StoreTypes Collections.

(** ** [mod.rs] *)

Module BufferedRequest.
(** [tx] names the oneshot channel on which the waiting caller is answered. *)
Record t := mk { request : AppendRecordRequest.t; tx : nat }.
Definition cmp (a b : t) : comparison := AppendRecordRequest.cmp (request a) (request b).
Definition offset (r : t) : Z := AppendRecordRequest.offset (request r).
Definition len (r : t) : Z := AppendRecordRequest.len (request r).
End BufferedRequest.
#[export] Instance BufferedRequest_eq_dec : EqDecision BufferedRequest.t.
Proof. solve_decision. Defined.
Abbreviation breq := BufferedRequest.t.

(** ** [range.rs] *)

Module RangeBuffer.
Section range_buffer.
Context {H : HeapApi breq}.

Record t := mk { next : Z; (* u64 *) buffered : heap }.

Definition new (next : Z) : t := mk next heap_new.

Definition fast_forward (b : t) (request : AppendRecordRequest.t) : outcome (bool * t) :=
  match next b ?= AppendRecordRequest.offset request with
  | Lt => Ret (false, b)
  | Eq =>
      next' ← u64_add (next b) (AppendRecordRequest.len request);
      Ret (true, mk next' (buffered b))
  | Gt => Ret (true, b)
  end.

(** The loop of [drain]; every iteration but the last takes an element off the heap. *)
Fixpoint drain_loop (fuel : nat) (b : t) (res : list breq) : outcome (list breq * t) :=
  match fuel with
  | O => Panic
  | S fuel =>
      match heap_peek (buffered b) with
      | None => Ret (res, b)
      | Some item =>
          if negb (BufferedRequest.offset item =? next b) then Ret (res, b)
          else
            match heap_pop (buffered b) with
            | Some (item, rest) =>
                next' ← u64_add (next b) (BufferedRequest.len item);
                drain_loop fuel (mk next' rest) (res ++ [item])
            | None => drain_loop fuel b res
            end
      end
  end.

Definition drain (b : t) : outcome (option (list breq) * t) :=
  if heap_is_empty (buffered b) then Ret (None, b)
  else if match heap_peek (buffered b) with
          | Some item => negb (BufferedRequest.offset item =? next b)
          | None => false
          end then Ret (None, b)
  else
    '(res, b) ← drain_loop (S (length (heap_items (buffered b)))) b [];
    Ret (Some res, b).

Definition buffer (b : t) (req : breq) : t := mk (next b) (heap_push (buffered b) req).

End range_buffer.
Arguments t : clear implicits.
End RangeBuffer.

(** ** [stream.rs] *)

Module StreamBuffer.
Section stream_buffer.
Context {H : HeapApi breq}.

Record t := mk {
  stream_id : Z;                               (* u64 *)
  buffers : gmap Z (RangeBuffer.t H);          (* HashMap<u32, RangeBuffer> *)
}.

Definition new (stream_id : Z) : t := mk stream_id ∅.

Definition put (s : t) (index : Z) (b : RangeBuffer.t H) : t :=
  mk (stream_id s) (<[index := b]> (buffers s)).

Definition fast_forward (s : t) (req : AppendRecordRequest.t) : outcome (bool * t) :=
  let index := as_uint 32 (AppendRecordRequest.range_index req) in
  match buffers s !! index with
  | Some buffer =>
      '(res, buffer) ← RangeBuffer.fast_forward buffer req;
      Ret (res, put s index buffer)
  | None => Ret (false, s)
  end.

Definition buffer (s : t) (request : breq) : result unit breq * t :=
  let index := as_uint 32 (AppendRecordRequest.range_index (BufferedRequest.request request)) in
  match buffers s !! index with
  | Some buffer => (Ok (), put s index (RangeBuffer.buffer buffer request))
  | None => (Err request, s)
  end.

(** [entry(index).or_insert(..)]: an existing buffer is kept. *)
Definition create_range (s : t) (index offset : Z) : t :=
  match buffers s !! index with
  | Some _ => s
  | None => put s index (RangeBuffer.new offset)
  end.

Definition seal_range (s : t) (index : Z) : t := mk (stream_id s) (delete index (buffers s)).

Definition drain (s : t) (range : Z) : outcome (option (list breq) * t) :=
  match buffers s !! range with
  | Some buffer =>
      '(res, buffer) ← RangeBuffer.drain buffer;
      Ret (res, put s range buffer)
  | None => Ret (None, s)
  end.
End stream_buffer.
Arguments t : clear implicits.
End StreamBuffer.

(** ** [store.rs] *)

Module StoreBuffer.
Section store_buffer.
Context {H : HeapApi breq}.

Record t := mk { buffers : gmap Z (StreamBuffer.t H) }.

Definition new : t := mk ∅.

(** [entry(stream_id).or_insert(..)]; the entry is written back by the callers. *)
Definition stream_buffer (s : t) (stream_id : Z) : StreamBuffer.t H :=
  default (StreamBuffer.new stream_id) (buffers s !! stream_id).
Definition put (s : t) (stream_id : Z) (b : StreamBuffer.t H) : t :=
  mk (<[stream_id := b]> (buffers s)).

Definition fast_forward (s : t) (request : AppendRecordRequest.t) : outcome (bool * t) :=
  let stream_id := AppendRecordRequest.stream_id request in
  '(res, b) ← StreamBuffer.fast_forward (stream_buffer s stream_id) request;
  Ret (res, put s stream_id b).

Definition buffer (s : t) (req : breq) : result unit breq * t :=
  let stream_id := AppendRecordRequest.stream_id (BufferedRequest.request req) in
  let '(res, b) := StreamBuffer.buffer (stream_buffer s stream_id) req in
  (res, put s stream_id b).

Definition create_range (s : t) (stream_id index offset : Z) : t :=
  put s stream_id (StreamBuffer.create_range (stream_buffer s stream_id) index offset).

Definition seal_range (s : t) (stream_id index : Z) : t :=
  put s stream_id (StreamBuffer.seal_range (stream_buffer s stream_id) index).

Definition drain (s : t) (stream_id range : Z) : outcome (option (list breq) * t) :=
  '(res, b) ← StreamBuffer.drain (stream_buffer s stream_id) range;
  Ret (res, put s stream_id b).
End store_buffer.
Arguments t : clear implicits.
End StoreBuffer.

Module BufferedStore.
Section buffered_store.
Context {H : HeapApi breq}.

(** What [append] does before it first waits: it hands requests to the nested store, in this
    order; or it waits for its turn; or the range is unknown. *)
Inductive disposition :=
| Dispatch (requests : list breq)
| Wait
| RangeNotFound.

(** [tx] is the channel of this call. *)
Definition append (s : StoreBuffer.t H) (request : AppendRecordRequest.t) (tx : nat)
    : outcome (disposition * StoreBuffer.t H) :=
  '(ready, s) ← StoreBuffer.fast_forward s request;
  if ready : bool then
    '(requests, s) ← StoreBuffer.drain s (AppendRecordRequest.stream_id request)
                       (as_uint 32 (AppendRecordRequest.range_index request));
    Ret (Dispatch (BufferedRequest.mk request tx :: default [] requests), s)
  else
    let '(res, s) := StoreBuffer.buffer s (BufferedRequest.mk request tx) in
    match res with
    | Ok _ => Ret (Wait, s)
    | Err _ => Ret (RangeNotFound, s)
    end.

(** When the nested store has answered the dispatched requests: the first answer is
    returned, the others go to the channels of the callers that waited. *)
Definition answer {A} (requests : list breq) (results : list A) : outcome (A * list (nat * A)) :=
  match results with
  | [] => Panic
  | ret :: res => Ret (ret, zip (BufferedRequest.tx <$> tail requests) res)
  end.

Definition create_range (s : StoreBuffer.t H) (range : RangeMetadata.t) : StoreBuffer.t H :=
  StoreBuffer.create_range s (RangeMetadata.stream_id range)
    (as_uint 32 (RangeMetadata.index range)) (RangeMetadata.start range).
Definition seal_range (s : StoreBuffer.t H) (range : RangeMetadata.t) : StoreBuffer.t H :=
  StoreBuffer.seal_range s (RangeMetadata.stream_id range)
    (as_uint 32 (RangeMetadata.index range)).

(** The part that concerns the buffer; the nested store is notified as well. *)
Definition on_resource_event (s : StoreBuffer.t H) (event : ResourceEvent) : StoreBuffer.t H :=
  match event_type event with
  | EvNone | Reset_ | ListFinished => s
  | Added => match resource event with ResRange range => create_range s range | _ => s end
  | Listed | Modified =>
      match resource event with
      | ResRange range =>
          match RangeMetadata.end_ range with
          | None => create_range s range
          | Some _ => seal_range s range
          end
      | _ => s
      end
  | Deleted => s
  end.

(** Requests that arrive one after the other, with what was dispatched. *)
Fixpoint run (s : StoreBuffer.t H) (arrivals : list breq)
    : outcome (list breq * StoreBuffer.t H) :=
  match arrivals with
  | [] => Ret ([], s)
  | x :: arrivals =>
      '(d, s) ← append s (BufferedRequest.request x) (BufferedRequest.tx x);
      '(rest, s) ← run s arrivals;
      Ret (match d with Dispatch l => l | _ => [] end ++ rest, s)
  end.

Definition range_buffer (s : StoreBuffer.t H) (stream_id index : Z) : option (RangeBuffer.t H) :=
  b ← StoreBuffer.buffers s !! stream_id; StreamBuffer.buffers b !! index.
End buffered_store.
End BufferedStore.

(** ** Draining *)

Import RangeBuffer.








Section drain.
Context {H : HeapApi breq} {HL : HeapLaws breq BufferedRequest.cmp}.
Variables (s i b : Z).
Hypothesis b_u64 : b < 2 ^ 64.




End drain.

(** ** Appending to a known range *)

Import BufferedStore.

Section append.
Context {H : HeapApi breq} {HL : HeapLaws breq BufferedRequest.cmp}.
Implicit Types (sb : StoreBuffer.t H) (rb : RangeBuffer.t H).

Definition same_elsewhere sb sb' (s j : Z) : Prop :=
  forall s' j', (s', j') <> (s, j) -> range_buffer sb' s' j' = range_buffer sb s' j'.

Lemma range_buffer_put sb s j rb st :
  StoreBuffer.stream_buffer sb s = st ->
  let sb' := StoreBuffer.put sb s (StreamBuffer.put st j rb) in
  range_buffer sb' s j = Some rb /\ same_elsewhere sb sb' s j.
Proof.
  intros <-. unfold same_elsewhere, range_buffer, StoreBuffer.put, StreamBuffer.put. simpl. split.
  - rewrite lookup_insert_eq. simpl. by rewrite lookup_insert_eq.
  - intros s' j' Hne. destruct (decide (s' = s)) as [->|]; [|by rewrite lookup_insert_ne].
    rewrite lookup_insert_eq. simpl. rewrite lookup_insert_ne by congruence.
    unfold StoreBuffer.stream_buffer. destruct (StoreBuffer.buffers sb !! s); done.
Qed.

Lemma range_buffer_stream sb s j rb :
  range_buffer sb s j = Some rb ->
  StreamBuffer.buffers (StoreBuffer.stream_buffer sb s) !! j = Some rb.
Proof. intros (st & Hst & Hj)%bind_Some. unfold StoreBuffer.stream_buffer. by rewrite Hst. Qed.

Lemma same_elsewhere_trans sb1 sb2 sb3 s j :
  same_elsewhere sb1 sb2 s j -> same_elsewhere sb2 sb3 s j -> same_elsewhere sb1 sb3 s j.
Proof. intros H1 H2 s' j' Hne. by rewrite H2, H1. Qed.

Lemma store_fast_forward sb rb req ready rb1 :
  let s := AppendRecordRequest.stream_id req in
  let j := as_uint 32 (AppendRecordRequest.range_index req) in
  range_buffer sb s j = Some rb -> fast_forward rb req = Ret (ready, rb1) ->
  exists sb', StoreBuffer.fast_forward sb req = Ret (ready, sb') /\
    range_buffer sb' s j = Some rb1 /\ same_elsewhere sb sb' s j.
Proof.
  intros s j Hrb%range_buffer_stream Hff.
  unfold StoreBuffer.fast_forward, StreamBuffer.fast_forward. fold s j. rewrite Hrb. simpl.
  rewrite Hff. simpl. eexists. split; [done|]. by apply range_buffer_put.
Qed.

Lemma append_ready sb rb req tx rb1 d rb2 :
  let s := AppendRecordRequest.stream_id req in
  let j := as_uint 32 (AppendRecordRequest.range_index req) in
  range_buffer sb s j = Some rb -> fast_forward rb req = Ret (true, rb1) ->
  drain rb1 = Ret (d, rb2) ->
  exists sb', append sb req tx = Ret (Dispatch (BufferedRequest.mk req tx :: default [] d), sb') /\
    range_buffer sb' s j = Some rb2 /\ same_elsewhere sb sb' s j.
Proof.
  intros s j Hrb Hff Hd. destruct (store_fast_forward _ _ _ _ _ Hrb Hff) as (sb1 & Heq & Hrb1 & Hs1).
  unfold append. rewrite Heq. simpl. unfold StoreBuffer.drain, StreamBuffer.drain.
  rewrite (range_buffer_stream _ _ _ _ Hrb1). simpl. rewrite Hd. simpl.
  eexists. split; [done|]. edestruct (range_buffer_put sb1 s j rb2) as [Hg Hs2]; [done|].
  split; [done|]. by eapply same_elsewhere_trans.
Qed.

Lemma append_wait sb rb req tx rb1 :
  let s := AppendRecordRequest.stream_id req in
  let j := as_uint 32 (AppendRecordRequest.range_index req) in
  range_buffer sb s j = Some rb -> fast_forward rb req = Ret (false, rb1) ->
  exists sb', append sb req tx = Ret (Wait, sb') /\
    range_buffer sb' s j = Some (buffer rb1 (BufferedRequest.mk req tx)) /\
    same_elsewhere sb sb' s j.
Proof.
  intros s j Hrb Hff. destruct (store_fast_forward _ _ _ _ _ Hrb Hff) as (sb1 & Heq & Hrb1 & Hs1).
  unfold append. rewrite Heq. simpl. unfold StoreBuffer.buffer, StreamBuffer.buffer. simpl.
  rewrite (range_buffer_stream _ _ _ _ Hrb1).
  eexists. split; [done|]. edestruct (range_buffer_put sb1 s j) as [Hg Hs2]; [done|].
  split; [done|]. by eapply same_elsewhere_trans.
Qed.




End append.

(** ** A stale request *)

Section stale.
Context {H : HeapApi breq} {HL : HeapLaws breq BufferedRequest.cmp}.

Definition in_range (s i : Z) (x : breq) : Prop :=
  AppendRecordRequest.stream_id (BufferedRequest.request x) = s /\
  AppendRecordRequest.range_index (BufferedRequest.request x) = i /\ 0 <= BufferedRequest.len x.

Definition stale (s i : Z) (rb : RangeBuffer.t H) : Prop :=
  (forall x, x ∈ heap_items (buffered rb) -> in_range s i x) /\
  exists x, x ∈ heap_items (buffered rb) /\ BufferedRequest.offset x < next rb.

(** The stale request, or an even older one, stays on top of the heap. *)
Lemma stale_drain s i rb : stale s i rb -> drain rb = Ret (None, rb).
Proof.
  intros [Hin (x & Hx & Hlt)]. unfold drain, heap_is_empty.
  destruct (heap_items (buffered rb)) as [|z l] eqn:Hitems; [done|]. rewrite <- Hitems in *.
  rewrite heap_peek_pop. destruct (heap_pop (buffered rb)) as [[y h']|] eqn:Hpop; simpl; cycle 1.
  { apply heap_pop_None in Hpop. congruence. }
  apply heap_pop_Some in Hpop as [Hp Hmax].
  assert (BufferedRequest.offset y < next rb) as Hy.
  { pose proof Hx as Hx'. rewrite Hp in Hx'. apply elem_of_cons in Hx' as [->|Hx']; [done|].
    destruct (Hin x Hx) as (Hs & Hi & _). destruct (Hin y) as (Hs' & Hi' & _); [rewrite Hp; set_solver|].
    specialize (Hmax _ Hx'). unfold BufferedRequest.cmp, AppendRecordRequest.cmp in Hmax.
    rewrite Hs, Hs', Hi, Hi', !Z.compare_refl in Hmax.
    change (BufferedRequest.offset x ?= BufferedRequest.offset y <> Lt) in Hmax.
    rewrite Z.compare_lt_iff in Hmax. lia. }
  by rewrite (proj2 (Z.eqb_neq _ _)) by lia.
Qed.

Lemma stale_append s i sb rb x d sb' :
  in_range s i x -> range_buffer sb s (as_uint 32 i) = Some rb -> stale s i rb ->
  append sb (BufferedRequest.request x) (BufferedRequest.tx x) = Ret (d, sb') ->
  exists rb', range_buffer sb' s (as_uint 32 i) = Some rb' /\ stale s i rb' /\
    (forall y, y ∈ heap_items (buffered rb) -> y ∈ heap_items (buffered rb')) /\
    match d with Dispatch l => l = [x] | _ => True end.
Proof.
  intros (Hs & Hi & Hlen) Hrb Hst Happ. rewrite <- Hs, <- Hi in Hrb.
  destruct (fast_forward rb (BufferedRequest.request x)) as [[[] rb1]|] eqn:Hff.
  - assert (next rb <= next rb1 /\ buffered rb1 = buffered rb) as [Hn Hb].
    { unfold fast_forward in Hff. destruct (_ ?= _); inv_ret; simpl; [|lia||done].
      change (AppendRecordRequest.len _) with (BufferedRequest.len x). split; [lia|done]. }
    assert (stale s i rb1) as Hst1.
    { destruct Hst as [? (y & ? & ?)]. split; rewrite Hb; [done|]. exists y. split; [done|lia]. }
    pose proof (stale_drain _ _ _ Hst1) as Hd.
    destruct (append_ready _ _ _ (BufferedRequest.tx x) _ _ _ Hrb Hff Hd) as (sb1 & Heq & Hrb' & _).
    rewrite Hs, Hi in Hrb'. rewrite Heq in Happ. injection Happ as <- <-.
    exists rb1. split_and!; [done|done|by rewrite Hb|by destruct x].
  - assert (rb1 = rb) as ->.
    { unfold fast_forward in Hff. destruct (_ ?= _); inv_ret; done. }
    destruct (append_wait _ _ _ (BufferedRequest.tx x) _ Hrb Hff) as (sb1 & Heq & Hrb' & _).
    rewrite Hs, Hi in Hrb'. rewrite Heq in Happ. injection Happ as <- <-.
    replace (BufferedRequest.mk _ _) with x in Hrb' by by destruct x.
    exists (buffer rb x). destruct Hst as [Hall (y & Hy & ?)].
    split_and!; [done| |intros z Hz; simpl; rewrite heap_items_push; set_solver|done].
    split; simpl; setoid_rewrite heap_items_push.
    + intros z [->|Hz]%elem_of_cons; [done|by apply Hall].
    + exists y. set_solver.
  - unfold append, StoreBuffer.fast_forward, StreamBuffer.fast_forward in Happ.
    rewrite (range_buffer_stream _ _ _ _ Hrb), Hff in Happ. done.
Qed.

(** A stale request blocks its range.  Once the heap of a range holds a request below
    the offset the range expects (two copies of a request that both arrive early suffice),
    whatever requests of the range arrive later, none of those that wait is ever dispatched:
    a call dispatches its own request or none. *)
Theorem stale_request_blocks s i sb rb arrivals d sb' :
  range_buffer sb s (as_uint 32 i) = Some rb -> stale s i rb ->
  Forall (in_range s i) arrivals -> run sb arrivals = Ret (d, sb') ->
  d `sublist_of` arrivals /\
  exists rb', range_buffer sb' s (as_uint 32 i) = Some rb' /\
    forall x, x ∈ heap_items (buffered rb) -> x ∈ heap_items (buffered rb').
Proof.
  intros Hrb Hst Hall. revert sb rb d Hrb Hst.
  induction Hall as [|x arrivals Hx Hall IH]; intros sb rb d Hrb Hst; simpl; intros Hr; inv_ret.
  { split; [done|]. by exists rb. }
  destruct x0 as [d1 sb1]. inv_ret. destruct x0 as [d2 sb2]. inv_ret.
  destruct (stale_append _ _ _ _ _ _ _ Hx Hrb Hst H0) as (rb1 & Hrb1 & Hst1 & Hsub & Hd1).
  destruct (IH _ _ _ Hrb1 Hst1 H1) as (Hsl & rb' & Hrb' & Hsub'). split.
  - destruct d1; subst; simpl; [by apply sublist_skip|by apply sublist_cons..].
  - exists rb'. split; [done|]. auto.
Qed.
End stale.

(** ** Witnesses *)

Lemma cmp_not_lt a b :
  BufferedRequest.cmp a b <> Lt <->
  let key x := (AppendRecordRequest.stream_id (BufferedRequest.request x),
                AppendRecordRequest.range_index (BufferedRequest.request x),
                AppendRecordRequest.offset (BufferedRequest.request x)) in
  let '(s1, i1, o1) := key a in let '(s2, i2, o2) := key b in
  s1 < s2 \/ s1 = s2 /\ (i1 < i2 \/ i1 = i2 /\ o1 <= o2).
Proof.
  unfold BufferedRequest.cmp, AppendRecordRequest.cmp. simpl.
  repeat match goal with |- context [?x ?= ?y] => destruct (Z.compare_spec x y) end;
    split; intros; (lia || congruence).
Qed.

#[export] Instance breq_heap : HeapApi breq := list_heap BufferedRequest.cmp.
#[export] Instance breq_heap_laws : HeapLaws breq BufferedRequest.cmp.
Proof.
  apply list_heap_laws.
  - intros a b c. rewrite !cmp_not_lt. simpl. lia.
  - intros a b Hab. assert (~ BufferedRequest.cmp a b <> Lt) as Hn by congruence.
    rewrite cmp_not_lt in Hn |- *. simpl in *. lia.
Qed.

Module BufferExample.
Definition req (o n : Z) (tx : nat) : breq :=
  BufferedRequest.mk (AppendRecordRequest.mk 3 1 o n []) tx.
Definition sb0 : StoreBuffer.t breq_heap := StoreBuffer.create_range StoreBuffer.new 3 1 10.
(** A duplicate of the request at 15 is left over. *)
Definition sb1 : StoreBuffer.t breq_heap :=
  match run sb0 [req 15 2 2; req 15 2 4; req 10 5 1] with Ret (_, sb) => sb | Panic => sb0 end.
End BufferExample.


Lemma stale_request_blocks_witness :
  exists d sb', run BufferExample.sb1 [BufferExample.req 18 2 5; BufferExample.req 17 1 6] =
      Ret (d, sb') /\ d = [BufferExample.req 17 1 6] /\
    d `sublist_of` [BufferExample.req 18 2 5; BufferExample.req 17 1 6].
Proof.
  eexists _, _. split; [by vm_compute|]. split; [done|].
  eapply (stale_request_blocks 3 1 BufferExample.sb1
    (@RangeBuffer.mk breq_heap 17 [BufferExample.req 15 2 4])); [by vm_compute| | |by vm_compute].
  - split; [by intros x ->%list_elem_of_singleton|].
    exists (BufferExample.req 15 2 4). split; [apply list_elem_of_here|done].
  - by repeat constructor.
Defined.
