(* ===== verification/Record.v ===== *)
(** * Record batches

    [components/model/src/record] and [payload.rs]: the layout of a record batch on the wire
    and in the log, and the parser for the append entries of a request payload.

    The metadata of a batch is a flatbuffers table.  The generated code and the flatbuffers
    crate are a parameter ([MetaApi]) with the documented law that unpacking what was packed
    gives it back. *)

From S2P Require Import Prelude Bytes StoreTypes.

Module RecordBatchMetaT.
Record t := mk {
  stream_id : Z;               (* i64 *)
  range_index : Z;             (* i32 *)
  flags : Z;                   (* i16 *)
  base_offset : Z;             (* i64 *)
  last_offset_delta : Z;       (* i32 *)
  base_timestamp : Z;          (* i64 *)
  properties : option (list (string * string));
}.
End RecordBatchMetaT.
Abbreviation meta := RecordBatchMetaT.t.

(** [RecordBatchMetaT::pack] into a finished builder, and [flatbuffers::root] followed by
    [unpack] or the field accessors. *)
Class MetaApi := {
  meta_pack : meta -> list byte;
  meta_root : list byte -> option meta;
}.
Class MetaLaws (M : MetaApi) : Prop := {
  meta_root_pack m : meta_root (meta_pack m) = Some m;
}.

Module DecodeError.
Inductive t := BuildRecord | DataLengthMismatch | InvalidMagic | InvalidDataFormat | Flatbuffer.
End DecodeError.

Module AppendEntry.
Record t := mk {
  stream_id : Z;               (* u64 *)
  index : Z;                   (* u32 *)
  offset : option Z;           (* u64 *)
  len : Z;                     (* u32 *)
}.
End AppendEntry.

(** ** [record/mod.rs] *)

Module RecordBatch.
Record t := mk { metadata : meta; payload : list byte }.
End RecordBatch.

Module RecordBatchBuilder.
Inductive RecordError := RequiredFieldMissing | StreamIdMismatch | ParseHeader.

Record t := mk {
  stream_id : option Z; range_index : option Z; flags : option Z; base_offset : option Z;
  last_offset_delta : option Z; base_timestamp : option Z;
  properties : option (list (string * string)); payload : option (list byte);
}.

(** [now] is the clock reading that [Utc::now] gives; the properties come in the order in
    which the map is iterated. *)
Definition build (b : t) (now : Z) : result RecordBatch.t RecordError :=
  match stream_id b, range_index b, base_offset b, last_offset_delta b, payload b with
  | Some stream_id, Some range_index, Some base_offset, Some last_offset_delta, Some payload =>
      Ok (RecordBatch.mk
            (RecordBatchMetaT.mk stream_id range_index (default 0 (flags b)) base_offset
               last_offset_delta (default now (base_timestamp b)) (properties b)) payload)
  | _, _, _, _, _ => Err RequiredFieldMissing
  end.
End RecordBatchBuilder.

(** ** [record/flat_record.rs] *)

Definition Magic0 : Z := 0x22.
Definition MIN_RECORD_BATCH_LEN : Z := 9.

Section flat.
Context {B : BytesApi} {M : MetaApi}.

(** [get_i8], [get_i32]. *)
Definition get_int (n : nat) (l : list byte) : outcome (Z * list byte) :=
  '(v, l) ← get_uint n l; Ret (as_sint (8 * Z.of_nat n) v, l).

End flat.

Module FlatRecordBatch.
Section flat_record_batch.
Context {B : BytesApi} {M : MetaApi}.

Record t := mk { magic : option Z; metadata : list byte; payload : list byte }.

Definition init_from_struct (record_batch : RecordBatch.t) : t :=
  mk (Some Magic0) (meta_pack (RecordBatch.metadata record_batch))
     (RecordBatch.payload record_batch).

(** Returns the batch and what is left of the buffer. *)
Definition init_from_buf (buf : list byte) : outcome (result t DecodeError.t * list byte) :=
  let cursor := buf in
  if remaining cursor <? MIN_RECORD_BATCH_LEN then
    Ret (Err DecodeError.DataLengthMismatch, buf)
  else
  '(magic, cursor) ← get_int 1 cursor;
  if negb (magic =? Magic0) then Ret (Err DecodeError.InvalidMagic, buf)
  else
  '(metadata_len, cursor) ← get_int 4 cursor;
  let metadata_len := as_uint 64 metadata_len in
  need ← usize_add metadata_len 4;
  if remaining cursor <? need then Ret (Err DecodeError.DataLengthMismatch, buf)
  else
  cursor ← advance (Z.to_nat metadata_len) cursor;
  '(payload_len, cursor) ← get_int 4 cursor;
  let payload_len := as_uint 64 payload_len in
  if remaining cursor <? payload_len then Ret (Err DecodeError.DataLengthMismatch, buf)
  else
  metadata_to ← usize_add 5 metadata_len;
  metadata ← slice buf 5 metadata_to;
  payload_from ← usize_add metadata_to 4;
  payload_to ← usize_add payload_from payload_len;
  payload ← slice buf payload_from payload_to;
  buf ← advance (Z.to_nat payload_to) buf;
  Ret (Ok (mk (Some magic) metadata payload), buf).

Definition encode (b : t) : outcome (list (list byte) * Z) :=
  let meta_len := remaining (metadata b) in
  total_len ← usize_add MIN_RECORD_BATCH_LEN meta_len;
  total_len ← usize_add total_len (remaining (payload b));
  Ret ([put_uint 1 (default Magic0 (magic b)) ++ put_uint 4 meta_len; metadata b;
        put_uint 4 (remaining (payload b)); payload b],
       as_sint 32 total_len).

Definition decode (b : t) : result RecordBatch.t DecodeError.t :=
  match meta_root (metadata b) with
  | Some m => Ok (RecordBatch.mk m (payload b))
  | None => Err DecodeError.InvalidDataFormat
  end.

Definition decode_to_record_batch (buf : list byte)
    : outcome (result RecordBatch.t DecodeError.t * list byte) :=
  '(res, buf) ← init_from_buf buf;
  Ret (match res with Ok b => decode b | Err e => Err e end, buf).
End flat_record_batch.
End FlatRecordBatch.

(** ** [payload.rs] *)

Module Payload.
Section payload.
Context {B : BytesApi} {M : MetaApi}.

Definition entry_of (m : meta) : AppendEntry.t :=
  let base_offset := RecordBatchMetaT.base_offset m in
  AppendEntry.mk (as_uint 64 (RecordBatchMetaT.stream_id m))
    (as_uint 32 (RecordBatchMetaT.range_index m))
    (if 0 <=? base_offset then Some (as_uint 64 base_offset) else None)
    (as_uint 32 (RecordBatchMetaT.last_offset_delta m)).

Definition parse_append_entry (payload : list byte)
    : outcome (result (option AppendEntry.t * Z) DecodeError.t) :=
  if remaining payload =? 0 then Ret (Ok (None, 0))
  else
  let cursor := payload in
  if remaining cursor <? 9 then Ret (Err DecodeError.DataLengthMismatch)
  else
  '(magic_code, cursor) ← get_int 1 cursor;
  if negb (magic_code =? Magic0) then Ret (Err DecodeError.InvalidMagic)
  else
  '(metadata_len, cursor) ← get_int 4 cursor;
  let metadata_len := as_uint 64 metadata_len in
  if remaining cursor <=? metadata_len then Ret (Err DecodeError.DataLengthMismatch)
  else
  metadata ← slice cursor 0 metadata_len;
  match meta_root metadata with
  | None => Ret (Err DecodeError.Flatbuffer)
  | Some m =>
      let entry := entry_of m in
      cursor ← advance (Z.to_nat metadata_len) cursor;
      '(payload_len, cursor) ← get_int 4 cursor;
      let payload_len := as_uint 64 payload_len in
      if remaining cursor <? payload_len then Ret (Err DecodeError.DataLengthMismatch)
      else
      cursor ← advance (Z.to_nat payload_len) cursor;
      Ret (Ok (Some entry, remaining payload - remaining cursor))
  end.

(** Every entry is at least 9 bytes long, so the payload's length is enough fuel. *)
Fixpoint parse_loop (fuel : nat) (payload : list byte) (pos : Z) (entries : list AppendEntry.t)
    : outcome (result (list AppendEntry.t) DecodeError.t) :=
  match fuel with
  | O => Panic
  | S fuel =>
      rest ← slice payload pos (remaining payload);
      res ← parse_append_entry rest;
      match res with
      | Err e => Ret (Err e)
      | Ok (None, _) => Ret (Ok entries)
      | Ok (Some entry, len) =>
          pos ← usize_add pos len;
          parse_loop fuel payload pos (entries ++ [entry])
      end
  end.

Definition parse_append_entries (payload : list byte)
    : outcome (result (list AppendEntry.t) DecodeError.t) :=
  parse_loop (S (length payload)) payload 0 [].
End payload.
End Payload.

(** ** The wire format *)

Section wire.
Context {B : BytesApi} {BL : BytesLaws B} {M : MetaApi}.

(** Magic, length of the metadata, metadata, length of the payload, payload. *)
Definition batch_wire (m p : list byte) : list byte :=
  put_uint 1 Magic0 ++ put_uint 4 (remaining m) ++ m ++ put_uint 4 (remaining p) ++ p.

Lemma remaining_batch m p : remaining (batch_wire m p) = 9 + remaining m + remaining p.
Proof. unfold batch_wire. rewrite !remaining_app, !remaining_put. lia. Qed.

Lemma get_int_put n z r :
  (0 < n)%nat -> is_sint (8 * Z.of_nat n) z -> get_int n (put_uint n z ++ r) = Ret (z, r).
Proof.
  intros Hn Hz. unfold get_int. rewrite get_uint_app by by rewrite length_put_uint.
  simpl. rewrite put_uint_be, be_decode_encode, (Z.mul_comm (Z.of_nat n) 8).
  change (_ mod _) with (as_uint (8 * Z.of_nat n) z).
  by rewrite as_sint_as_uint by (done || lia).
Qed.

Lemma init_from_buf_wire m p rest :
  remaining m < 2 ^ 31 -> remaining p < 2 ^ 31 ->
  FlatRecordBatch.init_from_buf (batch_wire m p ++ rest) =
    Ret (Ok (FlatRecordBatch.mk (Some Magic0) m p), rest).
Proof.
  intros Hm Hp. pose proof (remaining_nonneg m). pose proof (remaining_nonneg p).
  pose proof (remaining_nonneg rest). unfold FlatRecordBatch.init_from_buf.
  rewrite remaining_app, remaining_batch, (proj2 (Z.ltb_ge _ _)) by (unfold MIN_RECORD_BATCH_LEN; lia).
  unfold batch_wire. rewrite <- !(assoc_L (++)).
  rewrite get_int_put by (done || lia). simpl.
  rewrite get_int_put by (unfold is_sint; simpl; lia). simpl.
  rewrite as_uint_id by (unfold is_uint; lia).
  rewrite (uint_add_Ret 64 (remaining m) 4), (uint_add_Ret 64 5 (remaining m)) by lia. simpl.
  rewrite !remaining_app, remaining_put, (proj2 (Z.ltb_ge _ _)) by lia.
  rewrite advance_remaining by done. simpl.
  rewrite get_int_put by (unfold is_sint; simpl; lia). simpl.
  rewrite as_uint_id by (unfold is_uint; lia).
  rewrite remaining_app, (proj2 (Z.ltb_ge _ _)) by lia.
  rewrite (assoc_L (++) (put_uint 1 _)), (slice_mid _ m) by (rewrite remaining_app, !remaining_put; lia).
  simpl. rewrite uint_add_Ret by lia. simpl. rewrite uint_add_Ret by lia. simpl.
  rewrite (assoc_L (++) _ m), (assoc_L (++) _ (put_uint 4 (remaining p))).
  rewrite (slice_mid _ p) by (rewrite !remaining_app, !remaining_put; lia). simpl.
  rewrite (assoc_L (++) _ p).
  by rewrite advance_remaining by (rewrite !remaining_app, !remaining_put; lia).
Qed.

Lemma parse_append_entry_wire m p rest mt :
  remaining m < 2 ^ 31 -> remaining p < 2 ^ 31 -> meta_root m = Some mt ->
  Payload.parse_append_entry (batch_wire m p ++ rest) =
    Ret (Ok (Some (Payload.entry_of mt), remaining (batch_wire m p))).
Proof.
  intros Hm Hp Hmt. pose proof (remaining_nonneg m). pose proof (remaining_nonneg p).
  pose proof (remaining_nonneg rest). unfold Payload.parse_append_entry.
  rewrite !remaining_app, remaining_batch.
  rewrite (proj2 (Z.eqb_neq _ _)), (proj2 (Z.ltb_ge _ _)) by lia.
  unfold batch_wire. rewrite <- !(assoc_L (++)).
  rewrite get_int_put by (done || lia). simpl.
  rewrite get_int_put by (unfold is_sint; simpl; lia). simpl.
  rewrite as_uint_id by (unfold is_uint; lia).
  rewrite !remaining_app, remaining_put, (proj2 (Z.leb_gt _ _)) by lia.
  rewrite slice_prefix by done. simpl. rewrite Hmt.
  rewrite advance_remaining by done. simpl.
  rewrite get_int_put by (unfold is_sint; simpl; lia). simpl.
  rewrite as_uint_id by (unfold is_uint; lia).
  rewrite remaining_app, (proj2 (Z.ltb_ge _ _)) by lia.
  rewrite advance_remaining by done. simpl. do 4 f_equal. lia.
Qed.

Lemma encode_batch rb :
  9 + remaining (meta_pack (RecordBatch.metadata rb)) + remaining (RecordBatch.payload rb) < 2 ^ 31 ->
  exists bufs, FlatRecordBatch.encode (FlatRecordBatch.init_from_struct rb) =
      Ret (bufs, remaining (concat bufs)) /\
    concat bufs = batch_wire (meta_pack (RecordBatch.metadata rb)) (RecordBatch.payload rb).
Proof.
  set (m := meta_pack _). set (p := RecordBatch.payload rb). intros Hlen.
  pose proof (remaining_nonneg m). pose proof (remaining_nonneg p).
  unfold FlatRecordBatch.encode. simpl. fold m p. unfold MIN_RECORD_BATCH_LEN.
  rewrite uint_add_Ret by lia. simpl. rewrite uint_add_Ret by lia. simpl.
  rewrite as_sint_id by (unfold is_sint; simpl; lia).
  set (bufs := [_; m; _; p]).
  assert (concat bufs = batch_wire m p) as Hc by (cbn; by rewrite app_nil_r, <- (assoc_L (++))).
  exists bufs. by rewrite Hc, remaining_batch.
Qed.
End wire.

(** ** Round trips *)

Section roundtrip.
Context {B : BytesApi} {BL : BytesLaws B} {M : MetaApi} {ML : MetaLaws M}.

(** C27: Encoding a record batch and decoding it from the front of a buffer gives the batch
    back and leaves exactly what follows it; the total length that the encoder reports is
    the number of bytes it wrote. *)
Theorem record_batch_roundtrip rb rest :
  9 + remaining (meta_pack (RecordBatch.metadata rb)) + remaining (RecordBatch.payload rb) < 2 ^ 31 ->
  exists bufs, FlatRecordBatch.encode (FlatRecordBatch.init_from_struct rb) =
      Ret (bufs, remaining (concat bufs)) /\
    FlatRecordBatch.decode_to_record_batch (concat bufs ++ rest) = Ret (Ok rb, rest).
Proof.
  intros Hlen. destruct (encode_batch rb Hlen) as (bufs & Henc & Hc). exists bufs. split; [done|].
  pose proof (remaining_nonneg (meta_pack (RecordBatch.metadata rb))).
  pose proof (remaining_nonneg (RecordBatch.payload rb)).
  rewrite Hc. unfold FlatRecordBatch.decode_to_record_batch.
  rewrite init_from_buf_wire by lia. simpl. unfold FlatRecordBatch.decode. simpl.
  rewrite meta_root_pack. by destruct rb.
Qed.
End roundtrip.

(** ** Malformed input *)

Section malformed.
Context {B : BytesApi} {BL : BytesLaws B} {M : MetaApi}.

(** The append-entry parser panics, instead of reporting a length mismatch, on an entry
    that ends within the length field of its payload: it checks that more than the metadata
    remains, then reads four bytes. *)
Theorem parse_append_entry_short_panics m mt tl :
  meta_root m = Some mt -> 4 <= remaining m < 2 ^ 31 -> 1 <= remaining tl <= 3 ->
  Payload.parse_append_entry (put_uint 1 Magic0 ++ put_uint 4 (remaining m) ++ m ++ tl) = Panic.
Proof.
  intros Hmt Hm Htl. unfold Payload.parse_append_entry.
  rewrite !remaining_app, !remaining_put.
  rewrite (proj2 (Z.eqb_neq _ _)), (proj2 (Z.ltb_ge _ _)) by lia.
  rewrite get_int_put by (done || lia). simpl.
  rewrite get_int_put by (unfold is_sint; simpl; lia). simpl.
  rewrite as_uint_id by (unfold is_uint; lia).
  rewrite remaining_app, (proj2 (Z.leb_gt _ _)) by lia.
  rewrite slice_prefix by done. simpl. rewrite Hmt, advance_remaining by done. simpl.
  unfold get_int. rewrite get_uint_be. unfold remaining in Htl.
  by rewrite (proj2 (Nat.ltb_lt _ _)) by lia.
Qed.

(** The batch decoder panics on a metadata length from -4 to -1: cast to [usize] and
    increased by 4, it overflows. *)
Lemma init_from_buf_negative_length_panics k rest :
  -4 <= k <= -1 -> 4 <= remaining rest ->
  FlatRecordBatch.init_from_buf (put_uint 1 Magic0 ++ put_uint 4 k ++ rest) = Panic.
Proof.
  intros Hk Hrest. unfold FlatRecordBatch.init_from_buf.
  rewrite !remaining_app, !remaining_put, (proj2 (Z.ltb_ge _ _)) by (unfold MIN_RECORD_BATCH_LEN; lia).
  rewrite get_int_put by (done || lia). simpl.
  rewrite get_int_put by (unfold is_sint; simpl; lia). simpl.
  assert (as_uint 64 k = 2 ^ 64 + k) as ->.
  { unfold as_uint. rewrite <- (Z.mod_add k 1) by lia. rewrite Z.mod_small; lia. }
  by rewrite (uint_add_Panic 64 (2 ^ 64 + k) 4) by lia.
Qed.
End malformed.

(** ** Witnesses *)

#[export] Instance meta_eq_dec : EqDecision meta.
Proof. solve_decision. Defined.

(** A concrete serialisation of the metadata, for the witnesses: its number under stdpp's
    enumeration, in big-endian bytes. *)
#[export] Instance meta_countable : Countable meta.
Proof.
  refine (inj_countable'
    (fun m => (RecordBatchMetaT.stream_id m, RecordBatchMetaT.range_index m,
               RecordBatchMetaT.flags m, RecordBatchMetaT.base_offset m,
               RecordBatchMetaT.last_offset_delta m, RecordBatchMetaT.base_timestamp m,
               RecordBatchMetaT.properties m))
    (fun '(a, b, c, d, e, f, g) => RecordBatchMetaT.mk a b c d e f g) _).
  by intros [].
Defined.

#[export] Instance enum_meta_api : MetaApi := {|
  meta_pack m := be_encode (Pos.size_nat (encode m)) (Zpos (encode m));
  meta_root l := match be_decode l with Zpos p => decode p | _ => None end;
|}.

Lemma pos_size_lt p : Zpos p < 2 ^ Z.of_nat (Pos.size_nat p).
Proof.
  induction p as [p IH|p IH|]; [..|done]; cbn [Pos.size_nat];
    rewrite Nat2Z.inj_succ, Z.pow_succ_r by lia; lia.
Qed.

#[export] Instance enum_meta_laws : MetaLaws enum_meta_api.
Proof.
  constructor. intros m. simpl. rewrite be_decode_encode, Z.mod_small; [apply decode_encode|].
  split; [lia|]. eapply Z.lt_le_trans; [apply pos_size_lt|]. apply Z.pow_le_mono_r; lia.
Qed.

Definition sample_meta (base count : Z) : meta :=
  RecordBatchMetaT.mk 7 0 0 base count 1700000000 None.
Definition sample_batch (base count : Z) : RecordBatch.t :=
  RecordBatch.mk (sample_meta base count) (ascii_bytes "payload").

Lemma record_batch_roundtrip_witness :
  exists bufs, FlatRecordBatch.encode (FlatRecordBatch.init_from_struct (sample_batch 100 2)) =
      Ret (bufs, remaining (concat bufs)) /\
    FlatRecordBatch.decode_to_record_batch (concat bufs ++ ascii_bytes "rest") =
      Ret (Ok (sample_batch 100 2), ascii_bytes "rest").
Proof. apply (record_batch_roundtrip (sample_batch 100 2) (ascii_bytes "rest")). by vm_compute. Defined.

Lemma parse_append_entry_short_panics_witness :
  Payload.parse_append_entry
    (put_uint 1 Magic0 ++ put_uint 4 (remaining (meta_pack (sample_meta 100 2))) ++
     meta_pack (sample_meta 100 2) ++ ascii_bytes "ab") = Panic.
Proof.
  apply (parse_append_entry_short_panics _ (sample_meta 100 2));
    [by apply meta_root_pack|split; by vm_compute|split; by vm_compute].
Defined.

Lemma init_from_buf_negative_length_panics_witness :
  FlatRecordBatch.init_from_buf (put_uint 1 Magic0 ++ put_uint 4 (-1) ++ ascii_bytes "abcd") = Panic.
Proof. apply (init_from_buf_negative_length_panics (-1) (ascii_bytes "abcd")); by vm_compute. Defined.
