(* ===== verification/Handler.v ===== *)
(** * Request handlers of the range server

    [range-server/src/handler]: append ([append.rs]), seal ([seal_range.rs]) and creation of
    a range ([create_range.rs]).  A handler that waits for the store is split where it waits:
    [Append.apply_start] runs up to the point where every request has been submitted
    ([join_all] polls the futures in order), [Append.apply_finish] from the store's answers
    to the response.  A response is modelled by the status codes it carries. *)

From S2P Require Import Prelude Bytes Model StoreTypes Collections Codec Record RangeManager StoreBuffer.

Module ErrorCode.
Inductive t :=
| OK | BAD_REQUEST | RANGE_NOT_FOUND | RANGE_ALREADY_SEALED | APPEND_TO_COMMITTED_OFFSET
| APPEND_TO_PENDING_OFFSET | APPEND_TO_OVERTAKEN_OFFSET | RS_INTERNAL_SERVER_ERROR
| RS_SEAL_RANGE | RS_CREATE_RANGE | NO_NEW_RECORD | RS_DATA_CORRUPTED.
End ErrorCode.

(** ** [append.rs] *)

Module Append.
Record t := mk { payload : list byte }.

Definition parse_frame (request : Frame.t) : result t ErrorCode.t :=
  match Frame.payload request with
  | Some [buf] => Ok (mk buf)
  | _ => Err ErrorCode.BAD_REQUEST
  end.

(** What the handler makes of the response. *)
Inductive response :=
| Untouched
| SystemError (code : ErrorCode.t)
| Entries (codes : list ErrorCode.t).

Definition convert_store_error (err : AppendError.t) : ErrorCode.t :=
  match err with
  | AppendError.RangeNotFound => ErrorCode.RANGE_NOT_FOUND
  | AppendError.RangeSealed => ErrorCode.RANGE_ALREADY_SEALED
  | AppendError.BadRequest => ErrorCode.BAD_REQUEST
  | AppendError.Committed => ErrorCode.APPEND_TO_COMMITTED_OFFSET
  | AppendError.Inflight => ErrorCode.APPEND_TO_PENDING_OFFSET
  | AppendError.OutOfOrder => ErrorCode.APPEND_TO_OVERTAKEN_OFFSET
  | _ => ErrorCode.RS_INTERNAL_SERVER_ERROR
  end.

Section append.
Context {B : BytesApi} {M : MetaApi}.

(** [unreachable!] panics. *)
Definition replicated (a : t) : outcome (result bool ErrorCode.t) :=
  res ← Payload.parse_append_entry (payload a);
  match res with
  | Err _ => Ret (Err ErrorCode.BAD_REQUEST)
  | Ok (Some entry, _) => Ret (Ok (bool_decide (is_Some (AppendEntry.offset entry))))
  | Ok (None, _) => Panic
  end.

Fixpoint build_loop (fuel : nat) (a : t) (pos : Z) (append_requests : list AppendRecordRequest.t)
    : outcome (result (list AppendRecordRequest.t) ErrorCode.t) :=
  match fuel with
  | O => Panic
  | S fuel =>
      rest ← slice (payload a) pos (remaining (payload a));
      res ← Payload.parse_append_entry rest;
      match res with
      | Err _ => Ret (Err ErrorCode.BAD_REQUEST)
      | Ok (None, _) => Ret (Ok append_requests)
      | Ok (Some entry, len) =>
          match AppendEntry.offset entry with
          | None => Ret (Err ErrorCode.BAD_REQUEST)
          | Some offset =>
              pos' ← usize_add pos len;
              buffer ← slice (payload a) pos pos';
              let request :=
                AppendRecordRequest.mk (AppendEntry.stream_id entry)
                  (as_sint 32 (AppendEntry.index entry)) offset (AppendEntry.len entry) buffer in
              build_loop fuel a pos' (append_requests ++ [request])
          end
      end
  end.

Definition build_store_requests (a : t)
    : outcome (result (list AppendRecordRequest.t) ErrorCode.t) :=
  build_loop (S (length (payload a))) a 0 [].

(** The first poll of the futures: each request passes the barrier, and is then submitted to
    the store, or fails. *)
Fixpoint submit (m : Manager.t) (requests : list AppendRecordRequest.t)
    : outcome (list (result AppendRecordRequest.t AppendError.t) * Manager.t) :=
  match requests with
  | [] => Ret ([], m)
  | req :: requests =>
      '(res, m) ← Manager.check_barrier m (AppendRecordRequest.stream_id req)
                    (AppendRecordRequest.range_index req) req;
      '(rest, m) ← submit m requests;
      Ret (match res with Ok _ => Ok req | Err e => Err e end :: rest, m)
  end.

(** Either the handler is done, or it waits for the store's answers to the submitted
    requests. *)
Definition apply_start (a : t) (m : Manager.t)
    : outcome ((response + list (result AppendRecordRequest.t AppendError.t)) * Manager.t) :=
  rep ← replicated a;
  match rep with
  | Err e => Ret (inl (SystemError e), m)
  | Ok false => Ret (inl Untouched, m)
  | Ok true =>
      res ← build_store_requests a;
      match res with
      | Err e => Ret (inl (SystemError e), m)
      | Ok requests => '(pending, m) ← submit m requests; Ret (inr pending, m)
      end
  end.

Definition commit_code (e : ServiceError.t) : ErrorCode.t :=
  match e with
  | ServiceError.AlreadySealed => ErrorCode.RANGE_ALREADY_SEALED
  | _ => ErrorCode.RS_INTERNAL_SERVER_ERROR
  end.

Fixpoint apply_finish (m : Manager.t) (res_from_store : list (result AppendResult.t AppendError.t))
    : outcome (list ErrorCode.t * Manager.t) :=
  match res_from_store with
  | [] => Ret ([], m)
  | Ok r :: rest =>
      '(res, m) ← Manager.commit m (AppendResult.stream_id r)
                    (as_sint 32 (AppendResult.range_index r)) (AppendResult.offset r)
                    (AppendResult.last_offset_delta r);
      '(codes, m) ← apply_finish m rest;
      Ret (match res with Ok _ => ErrorCode.OK | Err e => commit_code e end :: codes, m)
  | Err e :: rest =>
      '(codes, m) ← apply_finish m rest;
      Ret (convert_store_error e :: codes, m)
  end.
End append.
End Append.

(** ** [seal_range.rs] *)

Module SealRange.
(** The status code and the range of the response. *)
Definition apply (m : Manager.t) (request : RangeT.t)
    : (ErrorCode.t * option RangeT.t) * Manager.t :=
  let '(res, m) := Manager.seal m (RangeMetadata.from_RangeT request) in
  match res with
  | Ok range => ((ErrorCode.OK, Some (RangeMetadata.to_RangeT range)), m)
  | Err e =>
      ((match e with
        | ServiceError.NotFound => ErrorCode.RANGE_NOT_FOUND
        | ServiceError.AlreadySealed => ErrorCode.RANGE_ALREADY_SEALED
        | ServiceError.Seal => ErrorCode.RS_SEAL_RANGE
        | _ => ErrorCode.RS_INTERNAL_SERVER_ERROR
        end, None), m)
  end.
End SealRange.

(** ** [create_range.rs] *)

Module CreateRange.
Definition apply (m : Manager.t) (request : RangeT.t)
    : (ErrorCode.t * option RangeT.t) * Manager.t :=
  let '(res, m) := Manager.create_range m (RangeMetadata.from_RangeT request) in
  match res with
  | Ok _ => ((ErrorCode.OK, Some request), m)
  | Err _ => ((ErrorCode.RS_CREATE_RANGE, None), m)
  end.
End CreateRange.

(** ** The requests of an append payload *)

Section build.
Context {B : BytesApi} {BL : BytesLaws B} {M : MetaApi} {ML : MetaLaws M}.

Definition wire_of (rb : RecordBatch.t) : list byte :=
  batch_wire (meta_pack (RecordBatch.metadata rb)) (RecordBatch.payload rb).

(** A batch that fits the wire format and carries an offset. *)
Definition batch_ok (rb : RecordBatch.t) : Prop :=
  let m := RecordBatch.metadata rb in
  remaining (meta_pack m) < 2 ^ 31 /\ remaining (RecordBatch.payload rb) < 2 ^ 31 /\
  is_sint 32 (RecordBatchMetaT.range_index m) /\
  0 <= RecordBatchMetaT.stream_id m < 2 ^ 63 /\ 0 <= RecordBatchMetaT.base_offset m < 2 ^ 63 /\
  0 <= RecordBatchMetaT.last_offset_delta m < 2 ^ 31.

Definition request_of (rb : RecordBatch.t) : AppendRecordRequest.t :=
  let m := RecordBatch.metadata rb in
  AppendRecordRequest.mk (RecordBatchMetaT.stream_id m) (RecordBatchMetaT.range_index m)
    (RecordBatchMetaT.base_offset m) (RecordBatchMetaT.last_offset_delta m) (wire_of rb).

Lemma entry_of_ok rb :
  batch_ok rb ->
  Payload.entry_of (RecordBatch.metadata rb) =
    AppendEntry.mk (RecordBatchMetaT.stream_id (RecordBatch.metadata rb))
      (as_uint 32 (RecordBatchMetaT.range_index (RecordBatch.metadata rb)))
      (Some (RecordBatchMetaT.base_offset (RecordBatch.metadata rb)))
      (RecordBatchMetaT.last_offset_delta (RecordBatch.metadata rb)).
Proof.
  intros (_ & _ & _ & Hs & Ho & Hl). unfold Payload.entry_of.
  rewrite (proj2 (Z.leb_le _ _)) by lia. 
  rewrite (as_uint_id 64 (RecordBatchMetaT.stream_id _)), (as_uint_id 64 (RecordBatchMetaT.base_offset _)),
    (as_uint_id 32 (RecordBatchMetaT.last_offset_delta _)) by (unfold is_uint; lia).
  done.
Qed.

Lemma slice_rest a b to : to = remaining a + remaining b -> slice (a ++ b) (remaining a) to = Ret b.
Proof. intros ->. rewrite <- (app_nil_r (a ++ b)), <- (assoc_L (++)). by apply slice_mid. Qed.

Lemma parse_wire_of rb rest :
  batch_ok rb ->
  Payload.parse_append_entry (wire_of rb ++ rest) =
    Ret (Ok (Some (Payload.entry_of (RecordBatch.metadata rb)), remaining (wire_of rb))).
Proof. intros (Hm & Hp & _). exact (parse_append_entry_wire _ _ _ _ Hm Hp (meta_root_pack _)). Qed.

Lemma build_loop_wire batches : forall fuel pre acc,
  (length batches < fuel)%nat -> Forall batch_ok batches ->
  remaining (pre ++ concat (wire_of <$> batches)) < 2 ^ 64 ->
  Append.build_loop fuel (Append.mk (pre ++ concat (wire_of <$> batches))) (remaining pre) acc =
    Ret (Ok (acc ++ (request_of <$> batches))).
Proof.
  induction batches as [|rb batches IH]; intros fuel pre acc Hfuel Hok Hlen;
    (destruct fuel as [|fuel]; [simpl in Hfuel; lia|]); cbn [Append.build_loop].
  - csimpl. rewrite slice_rest by by rewrite remaining_app. simpl. by rewrite app_nil_r.
  - apply Forall_cons in Hok as [Hrb Hok]. csimpl in Hlen. csimpl.
    rewrite slice_rest by (rewrite remaining_app; lia). simpl.
    rewrite parse_wire_of, (entry_of_ok _ Hrb) by done. simpl.
    rewrite !remaining_app in Hlen. pose proof (remaining_nonneg (concat (wire_of <$> batches))).
    rewrite uint_add_Ret by lia. simpl. rewrite slice_mid by done. simpl.
    destruct Hrb as (_ & _ & Hri & _). rewrite as_sint_as_uint by done.
    rewrite (assoc_L (++)), <- remaining_app. csimpl in Hfuel.
    rewrite (IH fuel (pre ++ wire_of rb)); [|lia|done|rewrite !remaining_app; lia].
    by rewrite <- (assoc_L (++)).
Qed.

Lemma length_wires batches : (length batches < S (length (concat (wire_of <$> batches))))%nat.
Proof.
  induction batches as [|rb batches IH]; [simpl; lia|]. csimpl. rewrite length_app.
  pose proof (remaining_batch (meta_pack (RecordBatch.metadata rb)) (RecordBatch.payload rb)) as Hr.
  pose proof (remaining_nonneg (meta_pack (RecordBatch.metadata rb))).
  pose proof (remaining_nonneg (RecordBatch.payload rb)).
  unfold wire_of at 1. unfold remaining in *. lia.
Qed.

Lemma build_requests batches :
  Forall batch_ok batches -> remaining (concat (wire_of <$> batches)) < 2 ^ 64 ->
  Append.build_store_requests (Append.mk (concat (wire_of <$> batches))) =
    Ret (Ok (request_of <$> batches)).
Proof.
  intros Hok Hlen. apply (build_loop_wire batches _ [] []); [apply length_wires|done..].
Qed.

(** The append handler finds the requests of a payload.  From the concatenated encodings
    of any number of batches, it builds one store request per batch, in order, with the
    batch's stream, range, base offset and record count, and with exactly the bytes of that
    batch as its buffer; the loop ends at the end of the payload. *)
Theorem build_store_requests_wire batches :
  Forall batch_ok batches -> remaining (concat (wire_of <$> batches)) < 2 ^ 64 ->
  Append.build_store_requests (Append.mk (concat (wire_of <$> batches))) =
    Ret (Ok (request_of <$> batches)).
Proof. apply build_requests. Qed.
End build.

(** ** An append, from the payload to the committed offset *)

Section append_flow.
Context (s i : Z).

(** The range is open with the given window. *)
Definition open_at (m : Manager.t) (w : Window.t) : Prop :=
  exists r, Manager.get_range m s i = Some r /\ Range.window r = Some w.

Lemma check_accept m w (req : AppendRecordRequest.t) :
  open_at m w -> Window.committed w <= Window.next w ->
  AppendRecordRequest.offset req = Window.next w ->
  Window.next w + AppendRecordRequest.len req < 2 ^ 64 ->
  exists m', Manager.check_barrier m s i req = Ret (Ok (), m') /\
    open_at m' (Window.mk (Window.next w + AppendRecordRequest.len req) (Window.committed w)).
Proof.
  intros (r & Hg & Hw) Hle Ho Hb. unfold Manager.check_barrier. rewrite Hg, Hw.
  unfold Window.check_barrier. simpl. rewrite Ho.
  rewrite (proj2 (Z.ltb_ge _ _)), Z.ltb_irrefl by lia. rewrite uint_add_Ret by lia. simpl.
  eexists. split; [done|].
  exists (Range.mk (Range.metadata r) (Range.committed r)
    (Some (Window.mk (Window.next w + AppendRecordRequest.len req) (Window.committed w)))).
  split; [|done]. rewrite (get_range_put_range _ _ _ _ _ _ _ Hg) by exact (get_range_index _ _ _ _ Hg).
  by rewrite decide_True.
Qed.

Lemma commit_ok m w off d :
  open_at m w -> off + d < 2 ^ 64 ->
  exists m', Manager.commit m s i off d = Ret (Ok (), m') /\
    open_at m' (Window.mk (Window.next w) ((off + d) `max` Window.committed w)).
Proof.
  intros (r & Hg & Hw) Hb. unfold Manager.commit. rewrite Hg, uint_add_Ret by lia. simpl.
  destruct (Range.commit r (off + d)) as [res r'] eqn:Hc.
  assert (res = Ok ()) as ->.
  { unfold Range.commit in Hc. rewrite Hw in Hc. repeat case_match; simplify_eq; done. }
  apply range_commit_spec in Hc as Hspec. destruct Hspec as (w' & Hw' & _ & Hwin & _).
  assert (w' = w) as -> by congruence. eexists. split; [done|]. exists r'. split; [|done].
  rewrite (get_range_put_range _ _ _ _ _ _ _ Hg).
  - by rewrite decide_True.
  - rewrite (range_commit_index _ _ _ _ Hc). exact (get_range_index _ _ _ _ Hg).
Qed.

Definition req_span (q : AppendRecordRequest.t) : Z * Z :=
  (AppendRecordRequest.offset q, AppendRecordRequest.len q).
Definition of_range (q : AppendRecordRequest.t) : Prop :=
  AppendRecordRequest.stream_id q = s /\ AppendRecordRequest.range_index q = i /\
  0 <= AppendRecordRequest.len q.

Lemma of_range_nonneg reqs :
  Forall of_range reqs -> Forall (fun '(_, n) => 0 <= n) (req_span <$> reqs).
Proof. rewrite Forall_fmap. intros H. eapply Forall_impl; [exact H|]. by intros q (_ & _ & ?). Qed.

Lemma contiguous_le a reqs b :
  Forall of_range reqs -> contiguous a (req_span <$> reqs) b -> a <= b.
Proof.
  intros Hall%of_range_nonneg. revert a. induction (req_span <$> reqs) as [|[o n] l IH]; intros a.
  - simpl. lia.
  - apply Forall_cons in Hall as [Hn Hall]. intros [-> Hc]. specialize (IH Hall _ Hc). lia.
Qed.

Lemma submit_contiguous reqs : forall m w b,
  open_at m w -> Window.committed w <= Window.next w -> Forall of_range reqs ->
  contiguous (Window.next w) (req_span <$> reqs) b -> b < 2 ^ 64 ->
  exists m', Append.submit m reqs = Ret (Ok <$> reqs, m') /\
    open_at m' (Window.mk b (Window.committed w)).
Proof.
  induction reqs as [|q reqs IH]; intros m w b Hopen Hle Hall Hc Hb.
  - exists m. split; [done|]. simpl in Hc. subst. by destruct w.
  - apply Forall_cons in Hall as [(Hs & Hi & Hl) Hall]. destruct Hc as [Ho Hc].
    pose proof (contiguous_le _ _ _ Hall Hc) as Hn.
    destruct (check_accept m w q Hopen Hle Ho) as (m1 & Heq & Hopen1); [lia|].
    simpl. rewrite Hs, Hi, Heq. simpl.
    destruct (IH m1 _ b Hopen1) as (m2 & -> & Hopen2); simpl; [lia|done..|].
    by exists m2.
Qed.

(** The store's answer to a request. *)
Definition answers (q : AppendRecordRequest.t) (res : AppendResult.t) : Prop :=
  AppendResult.stream_id res = AppendRecordRequest.stream_id q /\
  AppendResult.range_index res = as_uint 32 (AppendRecordRequest.range_index q) /\
  AppendResult.offset res = AppendRecordRequest.offset q /\
  AppendResult.last_offset_delta res = AppendRecordRequest.len q.

Lemma finish_contiguous reqs results : forall m w a b,
  is_sint 32 i -> open_at m w -> Window.committed w <= a -> Forall of_range reqs ->
  contiguous a (req_span <$> reqs) b -> b < 2 ^ 64 -> Forall2 answers reqs results ->
  exists m' c, Append.apply_finish m (Ok <$> results) =
      Ret (replicate (length reqs) ErrorCode.OK, m') /\
    open_at m' (Window.mk (Window.next w) c) /\ c <= b /\ (reqs <> [] -> c = b) /\
    (reqs = [] -> c = Window.committed w).
Proof.
  intros m w a b Hi32 Hopen Hle Hall Hc Hb Hans. revert m w a Hopen Hle Hall Hc.
  induction Hans as [|q res reqs results (Hrs & Hri & Hro & Hrd) Hans IH]; intros m w a Hopen Hle Hall Hc.
  - exists m, (Window.committed w). simpl in Hc. subst. split_and!; [done| |done..].
    by destruct w.
  - apply Forall_cons in Hall as [(Hs & Hi & Hl) Hall]. destruct Hc as [Ho Hc]. simpl in Ho.
    pose proof (contiguous_le _ _ _ Hall Hc) as Hn. simpl in Hn.
    destruct (commit_ok m w (AppendResult.offset res) (AppendResult.last_offset_delta res) Hopen)
      as (m1 & Heq & Hopen1); [rewrite Hro, Hrd; lia|].
    csimpl. rewrite Hrs, Hs, Hri, Hi, as_sint_as_uint, Heq by done. cbn [mbind outcome_bind].
    rewrite Hro, Hrd, Ho in Hopen1. rewrite Z.max_l in Hopen1 by lia.
    destruct (IH m1 _ (a + AppendRecordRequest.len q) Hopen1) as (m2 & c & -> & Hopen2 & Hcb & Hne & Hnil);
      [simpl; lia|done..|].
    exists m2, c. split_and!; [done..| |done]. intros _.
    destruct reqs; [|by apply Hne]. rewrite Hnil by done. by simpl in Hc.
Qed.
End append_flow.

Section append_handler.
Context {B : BytesApi} {BL : BytesLaws B} {M : MetaApi} {ML : MetaLaws M}.

Lemma replicated_wire rb rest :
  batch_ok rb -> Append.replicated (Append.mk (wire_of rb ++ rest)) = Ret (Ok true).
Proof.
  intros Hok. unfold Append.replicated. simpl. rewrite parse_wire_of, entry_of_ok by done. done.
Qed.

Lemma apply_start_ok s i m w batches b :
  open_at s i m w -> Window.committed w <= Window.next w -> batches <> [] -> Forall batch_ok batches ->
  Forall (of_range s i) (request_of <$> batches) ->
  contiguous (Window.next w) (req_span <$> (request_of <$> batches)) b -> b < 2 ^ 64 ->
  remaining (concat (wire_of <$> batches)) < 2 ^ 64 ->
  exists m1,
    Append.apply_start (Append.mk (concat (wire_of <$> batches))) m = Ret (inr (Ok <$> (request_of <$> batches)), m1) /\
    open_at s i m1 (Window.mk b (Window.committed w)).
Proof.
  intros Hopen Hle Hne Hok Hall Hc Hb Hlen.
  destruct (submit_contiguous s i _ m w b Hopen Hle Hall Hc Hb) as (m1 & Hsub & Hopen1).
  exists m1. split; [|done]. unfold Append.apply_start.
  assert (Append.replicated (Append.mk (concat (wire_of <$> batches))) = Ret (Ok true)) as ->.
  { destruct Hok as [|rb batches Hrb _]; [done|]. csimpl. by apply replicated_wire. }
  cbn [mbind outcome_bind]. rewrite build_requests by done. cbn. by rewrite Hsub.
Qed.

(** A batch below the committed offset is refused as committed. *)
Lemma apply_start_committed s i m w rb :
  open_at s i m w -> batch_ok rb -> of_range s i (request_of rb) -> remaining (wire_of rb) < 2 ^ 64 ->
  AppendRecordRequest.offset (request_of rb) < Window.committed w ->
  exists m1, Append.apply_start (Append.mk (wire_of rb)) m = Ret (inr [Err AppendError.Committed], m1).
Proof.
  intros (rg & Hg & Hw) Hok (Hs & Hi & _) Hlen Hlt. unfold Append.apply_start.
  rewrite <- (app_nil_r (wire_of rb)), replicated_wire by done. cbn [mbind outcome_bind].
  pose proof (build_requests [rb]) as Hbr. csimpl in Hbr. rewrite Hbr; [|by apply Forall_singleton|by rewrite app_nil_r].
  cbn [mbind outcome_bind Append.submit]. rewrite Hs, Hi. unfold Manager.check_barrier. rewrite Hg, Hw.
  unfold Window.check_barrier. change (offset (request_of rb)) with (AppendRecordRequest.offset (request_of rb)).
  rewrite (proj2 (Z.ltb_lt _ _)) by done. simpl. by eexists.
Qed.

(** C17: An append runs to its commit.  When the batches of a payload continue an open range
    at the [next] offset of its window, all of them pass the barrier and are submitted in
    order; once the store has answered them, every entry of the response is [OK] and the
    window is committed up to the end of the last batch. *)
Theorem append_apply_commits s i m w batches b :
  open_at s i m w -> Window.committed w <= Window.next w ->
  is_sint 32 i -> batches <> [] -> Forall batch_ok batches ->
  Forall (of_range s i) (request_of <$> batches) ->
  contiguous (Window.next w) (req_span <$> (request_of <$> batches)) b -> b < 2 ^ 64 ->
  remaining (concat (wire_of <$> batches)) < 2 ^ 64 ->
  exists m1,
    Append.apply_start (Append.mk (concat (wire_of <$> batches))) m =
      Ret (inr (Ok <$> (request_of <$> batches)), m1) /\
    forall results, Forall2 answers (request_of <$> batches) results ->
    exists m2, Append.apply_finish m1 (Ok <$> results) =
        Ret (replicate (length batches) ErrorCode.OK, m2) /\
      open_at s i m2 (Window.mk b b).
Proof.
  intros Hopen Hle Hi Hne Hok Hall Hc Hb Hlen.
  destruct (apply_start_ok s i m w batches b Hopen Hle Hne Hok Hall Hc Hb Hlen) as (m1 & Hst & Hopen1).
  exists m1. split; [done|]. intros results Hans.
  destruct (finish_contiguous s i _ _ m1 _ (Window.next w) b Hi Hopen1 Hle Hall Hc Hb Hans)
    as (m2 & c & Hfin & Hopen2 & _ & Hcb & _).
  exists m2. rewrite length_fmap in Hfin. split; [done|].
  by rewrite Hcb in Hopen2 by (by destruct batches).
Qed.

(** C39: The handler does not take back the offsets of an append that the store fails.  An
    append of [A] and one of [B], which continues it, pass the barrier and are submitted.
    The store fails [A], with any error, and the handler answers it with the code of that
    error; the store persists [B], which is answered [OK].  When the client now sends [A]
    again, it is not submitted to the store but answered [APPEND_TO_COMMITTED_OFFSET],
    although no record of [A] was ever stored. *)
Theorem failed_append_reported_committed s i m w A B' b e :
  open_at s i m w -> Window.committed w <= Window.next w -> is_sint 32 i ->
  Forall batch_ok [A; B'] -> Forall (of_range s i) (request_of <$> [A; B']) ->
  Forall (fun rb => remaining (wire_of rb) < 2 ^ 64) [A; B'] ->
  0 < AppendRecordRequest.len (request_of A) ->
  contiguous (Window.next w) (req_span <$> (request_of <$> [A; B'])) b -> b < 2 ^ 64 ->
  exists m1 m2,
    Append.apply_start (Append.mk (wire_of A)) m = Ret (inr [Ok (request_of A)], m1) /\
    Append.apply_start (Append.mk (wire_of B')) m1 = Ret (inr [Ok (request_of B')], m2) /\
    exists m3, Append.apply_finish m2 [Err e] = Ret ([Append.convert_store_error e], m3) /\
    forall res, answers (request_of B') res ->
    exists m4, Append.apply_finish m3 [Ok res] = Ret ([ErrorCode.OK], m4) /\
    exists m5, Append.apply_start (Append.mk (wire_of A)) m4 = Ret (inr [Err AppendError.Committed], m5) /\
      Append.apply_finish m5 [Err AppendError.Committed] = Ret ([ErrorCode.APPEND_TO_COMMITTED_OFFSET], m5).
Proof.
  intros Hopen Hle Hi Hok Hall Hlen HA Hc Hb. apply Forall_cons in Hok as [HokA [HokB _]%Forall_cons].
  apply Forall_cons in Hall as [HrA [HrB _]%Forall_cons]. apply Forall_cons in Hlen as [HlA [HlB _]%Forall_cons].
  destruct Hc as (HoA & HoB & Hend). pose proof (proj2 (proj2 HrB)) as HlenB.
  change (AppendRecordRequest.offset (request_of A) = Window.next w) in HoA.
  set (e1 := Window.next w + AppendRecordRequest.len (request_of A)).
  assert (Hend' : e1 + AppendRecordRequest.len (request_of B') = b) by exact Hend.
  destruct (apply_start_ok s i m w [A] e1 Hopen Hle) as (m1 & H1 & Ho1);
    [done|by apply Forall_singleton|by apply Forall_singleton|done|lia|csimpl; by rewrite app_nil_r|].
  destruct (apply_start_ok s i m1 (Window.mk e1 (Window.committed w)) [B'] b Ho1) as (m2 & H2 & Ho2);
    [simpl; lia|done|by apply Forall_singleton|by apply Forall_singleton|done|lia|csimpl; by rewrite app_nil_r|].
  csimpl in H1. csimpl in H2. rewrite app_nil_r in H1, H2.
  exists m1, m2. split; [done|]. split; [done|]. exists m2. split; [done|]. intros res Hans.
  destruct (finish_contiguous s i [request_of B'] [res] m2 (Window.mk b (Window.committed w)) e1 b Hi Ho2)
    as (m4 & c & Hfin & Ho4 & _ & Hcb & _); [simpl; lia|by apply Forall_singleton|done|lia|by apply Forall2_cons|].
  exists m4. split; [done|]. rewrite Hcb in Ho4 by done.
  destruct (apply_start_committed s i m4 _ A Ho4 HokA HrA HlA) as (m5 & H5); [rewrite HoA; cbn [Window.committed]; lia|]. by exists m5.
Qed.
End append_handler.

(** ** A range that the buffered store does not know *)

Lemma append_unknown {H : HeapApi breq} sb req tx :
  BufferedStore.range_buffer sb (AppendRecordRequest.stream_id req)
    (as_uint 32 (AppendRecordRequest.range_index req)) = None ->
  exists sb', BufferedStore.append sb req tx = Ret (BufferedStore.RangeNotFound, sb').
Proof.
  intros Hnone. unfold BufferedStore.append, StoreBuffer.fast_forward, StreamBuffer.fast_forward.
  assert (StreamBuffer.buffers (StoreBuffer.stream_buffer sb (AppendRecordRequest.stream_id req))
    !! as_uint 32 (AppendRecordRequest.range_index req) = None) as Hb.
  { unfold StoreBuffer.stream_buffer. unfold BufferedStore.range_buffer in Hnone.
    destruct (StoreBuffer.buffers sb !! _) as [st|]; [done|]. apply lookup_empty. }
  rewrite Hb. cbn [mbind outcome_bind]. unfold StoreBuffer.buffer, StreamBuffer.buffer. simpl.
  unfold StoreBuffer.stream_buffer at 1. unfold StoreBuffer.put at 1. simpl.
  rewrite lookup_insert_eq. simpl. rewrite Hb. eauto.
Qed.

(** [create_range] of the range manager does not reach the buffered store (the future of
    [store.create] is dropped).  As long as the store has not learnt of the range another
    way, the first append passes the barrier, is answered [RangeNotFound] by the store, and
    every retry of it is then refused as in flight, because the barrier was not taken back. *)
Theorem append_before_store_knows {H : HeapApi breq} m md req tx (sb : StoreBuffer.t H) :
  Manager.get_stream m (RangeMetadata.stream_id md) = None ->
  RangeMetadata.end_ md = None ->
  AppendRecordRequest.stream_id req = RangeMetadata.stream_id md ->
  AppendRecordRequest.range_index req = RangeMetadata.index md ->
  AppendRecordRequest.offset req = RangeMetadata.start md ->
  0 < AppendRecordRequest.len req ->
  RangeMetadata.start md + AppendRecordRequest.len req < 2 ^ 64 ->
  BufferedStore.range_buffer sb (RangeMetadata.stream_id md)
    (as_uint 32 (RangeMetadata.index md)) = None ->
  let s := RangeMetadata.stream_id md in
  let i := RangeMetadata.index md in
  exists m2 m3 sb',
    Manager.check_barrier (snd (Manager.create_range m md)) s i req = Ret (Ok (), m2) /\
    BufferedStore.append sb req tx = Ret (BufferedStore.RangeNotFound, sb') /\
    Manager.check_barrier m2 s i req = Ret (Err AppendError.Inflight, m3).
Proof.
  intros Hnone Hopen Hs Hi Ho Hl Hb Hsb s i.
  assert (open_at s i (snd (Manager.create_range m md)) (Window.new (RangeMetadata.start md))) as Hw.
  { unfold Manager.create_range. rewrite Hnone. simpl. exists (Range.new md).
    rewrite get_range_put_stream, decide_True by done.
    unfold Stream.create_range, Stream.verify_stream_id. simpl. rewrite Z.eqb_refl. simpl.
    unfold Stream.get_range. simpl. unfold Range.index. simpl. rewrite Z.eqb_refl. split; [done|].
    unfold Range.new, RangeMetadata.has_end. simpl. by rewrite Hopen. }
  destruct (check_accept s i _ _ req Hw) as (m2 & Hc & (r & Hg & Hwin)); [simpl; lia..|].
  rewrite <- Hs, <- Hi in Hsb. destruct (append_unknown sb req tx Hsb) as [sb' Happ].
  eexists m2, _, sb'. split_and!; [done..|].
  unfold Manager.check_barrier. rewrite Hg, Hwin. unfold Window.check_barrier. simpl in *.
  rewrite Ho, Z.ltb_irrefl, (proj2 (Z.ltb_lt _ _)) by lia. done.
Qed.

(** ** Witnesses *)

Module HandlerExample.
Definition batches : list RecordBatch.t := [sample_batch 100 2; sample_batch 102 3].
Definition md : RangeMetadata.t := RangeMetadata.new 7 0 0 100 None.
Definition m : Manager.t := snd (Manager.create_range (Manager.mk ∅) md).
Definition req : AppendRecordRequest.t := AppendRecordRequest.mk 7 0 100 2 [].

Lemma batches_ok : Forall batch_ok batches.
Proof. repeat constructor; by vm_compute. Qed.
Lemma batches_range : Forall (of_range 7 0) (request_of <$> batches).
Proof. repeat constructor; done. Qed.
Lemma m_open : open_at 7 0 m (Window.new 100).
Proof. exists (Range.new md). split; by vm_compute. Qed.
End HandlerExample.

Lemma build_store_requests_wire_witness :
  Append.build_store_requests (Append.mk (concat (wire_of <$> HandlerExample.batches))) =
    Ret (Ok (request_of <$> HandlerExample.batches)).
Proof.
  apply (build_store_requests_wire HandlerExample.batches HandlerExample.batches_ok).
  by vm_compute.
Defined.

Lemma append_apply_commits_witness :
  exists m1,
    Append.apply_start (Append.mk (concat (wire_of <$> HandlerExample.batches))) HandlerExample.m =
      Ret (inr (Ok <$> (request_of <$> HandlerExample.batches)), m1).
Proof.
  destruct (append_apply_commits 7 0 HandlerExample.m (Window.new 100) HandlerExample.batches 105
    HandlerExample.m_open) as (m1 & H1 & _);
    [done|by vm_compute|done|exact HandlerExample.batches_ok|exact HandlerExample.batches_range
    |by vm_compute|done|by vm_compute|].
  exact (ex_intro _ m1 H1).
Defined.

Lemma append_before_store_knows_witness :
  exists m2 m3 sb',
    Manager.check_barrier (snd (Manager.create_range (Manager.mk ∅) HandlerExample.md)) 7 0
      HandlerExample.req = Ret (Ok (), m2) /\
    BufferedStore.append (StoreBuffer.new (H := breq_heap)) HandlerExample.req 1 =
      Ret (BufferedStore.RangeNotFound, sb') /\
    Manager.check_barrier m2 7 0 HandlerExample.req = Ret (Err AppendError.Inflight, m3).
Proof.
  apply (append_before_store_knows (H := breq_heap) (Manager.mk ∅) HandlerExample.md
    HandlerExample.req 1 StoreBuffer.new); (done || by vm_compute).
Defined.

Lemma failed_append_reported_committed_witness :
  exists m1 m2,
    Append.apply_start (Append.mk (wire_of (sample_batch 100 2))) HandlerExample.m =
      Ret (inr [Ok (request_of (sample_batch 100 2))], m1) /\
    Append.apply_start (Append.mk (wire_of (sample_batch 102 3))) m1 = Ret (inr [Ok (request_of (sample_batch 102 3))], m2) /\
    exists m3, Append.apply_finish m2 [Err (AppendError.System 5)] = Ret ([ErrorCode.RS_INTERNAL_SERVER_ERROR], m3) /\
    forall res, answers (request_of (sample_batch 102 3)) res ->
    exists m4, Append.apply_finish m3 [Ok res] = Ret ([ErrorCode.OK], m4) /\
    exists m5, Append.apply_start (Append.mk (wire_of (sample_batch 100 2))) m4 = Ret (inr [Err AppendError.Committed], m5) /\
      Append.apply_finish m5 [Err AppendError.Committed] = Ret ([ErrorCode.APPEND_TO_COMMITTED_OFFSET], m5).
Proof.
  apply (failed_append_reported_committed 7 0 HandlerExample.m (Window.new 100) (sample_batch 100 2) (sample_batch 102 3) 105
    (AppendError.System 5) HandlerExample.m_open);
    [done|by vm_compute|exact HandlerExample.batches_ok|exact HandlerExample.batches_range
    |repeat constructor; by vm_compute|by vm_compute|by vm_compute|done].
Defined.
