(* ===== verification/Watermark.v ===== *)
(** * WAL watermarks

    [components/store/src/watermark]: for every stream and range that the server holds, how
    far it has been indexed, sealed, trimmed and offloaded to object storage, and from that
    the two watermarks of the write-ahead log.  The indexer that translates a logical offset
    to a WAL offset ([Indexer::scan_wal_offset]) is an argument, [tlb]; it panics where the
    index does. *)

From S2P Require Import Prelude.

Module OffloadSlice.
Record t := mk { start : Z; (* u64 *) end_ : Z (* u64 *) }.
#[global] Instance t_eq_dec : EqDecision t.
Proof. solve_decision. Defined.
End OffloadSlice.
Abbreviation slice := OffloadSlice.t.

(** [scan_wal_offset stream range offset end]. *)
Definition tlb_t : Type := Z -> Z -> Z -> option Z -> outcome (option Z).

(** ** [range_descriptor.rs] *)

Module RangeDescriptor.
Record t := mk {
  stream : Z;                  (* u64 *)
  range : Z;                   (* u32 *)
  start : Z;                   (* u64 *)
  end_ : Z;                    (* u64 *)
  seal : option Z;             (* u64 *)
  offloaded : list slice;
  wal : option Z;              (* u64 *)
}.

Definition new (stream range start : Z) : t := mk stream range start start None [] None.
Definition with_end (stream range start end_ : Z) : t :=
  mk stream range start end_ (Some end_) [] None.

Definition trim (tlb : tlb_t) (d : t) (s : Z) : outcome t :=
  if start d <=? s then
    let end' := default (end_ d) (seal d) in
    found ← tlb (stream d) (range d) s (Some end');
    Ret (mk (stream d) (range d) s (end_ d) (seal d) (offloaded d)
           (match found with Some wal_offset => Some wal_offset | None => wal d end))
  else Ret d.

Definition index (d : t) (offset : Z) : t :=
  if end_ d <? offset
  then mk (stream d) (range d) (start d) offset (seal d) (offloaded d) (wal d) else d.

Definition set_seal (d : t) (offset : Z) : t :=
  mk (stream d) (range d) (start d) (end_ d) (Some offset) (offloaded d) (wal d).

Definition set_offloaded (d : t) (l : list slice) : t :=
  mk (stream d) (range d) (start d) (end_ d) (seal d) l (wal d).

(** The loop that tries to expand a slice, on the reversed vector. *)
Fixpoint expand (sl : slice) (l : list slice) : option (list slice) :=
  match l with
  | [] => None
  | s :: l =>
      if OffloadSlice.start sl =? OffloadSlice.end_ s
      then Some (OffloadSlice.mk (OffloadSlice.start s) (OffloadSlice.end_ sl) :: l)
      else if OffloadSlice.end_ sl =? OffloadSlice.start s
      then Some (OffloadSlice.mk (OffloadSlice.start sl) (OffloadSlice.end_ s) :: l)
      else cons s <$> expand sl l
  end.

(** [try_reduce] finds the first slice that ends where its follow-up starts; it is removed
    and the follow-up extended. *)
Fixpoint merge_first (l : list slice) : list slice :=
  match l with
  | [] => []
  | s :: l' =>
      match l' with
      | s' :: l'' =>
          if OffloadSlice.end_ s =? OffloadSlice.start s'
          then OffloadSlice.mk (OffloadSlice.start s) (OffloadSlice.end_ s') :: l''
          else s :: merge_first l'
      | [] => [s]
      end
  end.

(** [position(p)] and [insert(idx + 1, slice)]. *)
Fixpoint insert_after (sl : slice) (l : list slice) : option (list slice) :=
  match l with
  | [] => None
  | s :: l =>
      if OffloadSlice.end_ s <=? OffloadSlice.start sl then Some (s :: sl :: l)
      else cons s <$> insert_after sl l
  end.

Definition offload_slice (d : t) (sl : slice) : t :=
  set_offloaded d
    match expand sl (reverse (offloaded d)) with
    | Some l => merge_first (reverse l)
    | None => default (offloaded d ++ [sl]) (insert_after sl (offloaded d))
    end.

Definition min_wal (tlb : tlb_t) (d : t) : outcome (option Z * t) :=
  if end_ d =? start d then Ret (None, d)
  else match wal d with
  | None =>
      wal ← tlb (stream d) (range d) (start d) (Some (end_ d));
      Ret (wal, mk (stream d) (range d) (start d) (end_ d) (seal d) (offloaded d) wal)
  | Some w => Ret (Some w, d)
  end.

Fixpoint high_loop (offset : Z) (l : list slice) : Z :=
  match l with
  | [] => offset
  | s :: l => if offset =? OffloadSlice.start s then high_loop (OffloadSlice.end_ s) l else offset
  end.
Definition high (d : t) : Z := high_loop (start d) (offloaded d).
End RangeDescriptor.
Abbreviation range_d := RangeDescriptor.t.

(** ** [stream_descriptor.rs] *)

Module StreamDescriptor.
Record t := mk { stream_id : Z; (* u64 *) ranges : list range_d (* VecDeque *) }.

Definition new (stream_id : Z) : t := mk stream_id [].

(** The last range with a smaller index, seen from the back; [None] if there is none. *)
Fixpoint insert_after_smaller (r : range_d) (l : list range_d) : option (list range_d) :=
  match l with
  | [] => None
  | x :: l' =>
      match insert_after_smaller r l' with
      | Some l'' => Some (x :: l'')
      | None =>
          if RangeDescriptor.range x <? RangeDescriptor.range r then Some (x :: r :: l') else None
      end
  end.

Definition add_range (d : t) (range start : Z) (end_ : option Z) : t :=
  let r := match end_ with
           | Some e => RangeDescriptor.with_end (stream_id d) range start e
           | None => RangeDescriptor.new (stream_id d) range start
           end in
  mk (stream_id d) (default (ranges d ++ [r]) (insert_after_smaller r (ranges d))).

(** The loop of [trim]; [None] when the fuel is used up. *)
Fixpoint trim_loop (fuel : nat) (tlb : tlb_t) (l : list range_d) (offset : Z)
    : outcome (option (list range_d)) :=
  match fuel with
  | O => Ret None
  | S fuel =>
      match l with
      | [] => Ret (Some [])
      | r :: l' =>
          if offset <=? RangeDescriptor.start r then Ret (Some l)
          else match RangeDescriptor.seal r with
          | Some e => if e <=? offset then trim_loop fuel tlb l' offset
                      else trim_loop fuel tlb l offset
          | None =>
              r ← (if RangeDescriptor.start r <? offset then RangeDescriptor.trim tlb r offset else Ret r);
              Ret (Some (r :: l'))
          end
      end
  end.

Definition trim (fuel : nat) (tlb : tlb_t) (d : t) (offset : Z) : outcome (option t) :=
  l ← trim_loop fuel tlb (ranges d) offset;
  Ret (match l with Some l => Some (mk (stream_id d) l) | None => None end).

Definition index (d : t) (range offset : Z) : t :=
  mk (stream_id d)
    match last (ranges d) with
    | Some r =>
        if RangeDescriptor.range r =? range
        then take (pred (length (ranges d))) (ranges d) ++ [RangeDescriptor.index r offset]
        else ranges d
    | None => ranges d
    end.

Definition on_range (range : Z) (f : range_d -> range_d) (r : range_d) : range_d :=
  if RangeDescriptor.range r =? range then f r else r.

Definition seal (d : t) (range end_ : Z) : t :=
  mk (stream_id d) (on_range range (fun r => RangeDescriptor.set_seal r end_) <$> ranges d).

Definition trim_range (tlb : tlb_t) (d : t) (range offset : Z) : outcome t :=
  l ← mapM (fun r => if RangeDescriptor.range r =? range then RangeDescriptor.trim tlb r offset else Ret r) (ranges d);
  Ret (mk (stream_id d) l).

(** The loop of [delete_range] drops ranges from the front. *)
Fixpoint drop_front (range : Z) (l : list range_d) : list range_d :=
  match l with
  | [] => []
  | r :: l' => if RangeDescriptor.range r <=? range then drop_front range l' else l
  end.
Definition delete_range (d : t) (range : Z) : t := mk (stream_id d) (drop_front range (ranges d)).

Definition min_wal (tlb : tlb_t) (d : t) : outcome (option Z * t) :=
  match ranges d with
  | [] => Ret (None, d)
  | r :: l =>
      '(w, r) ← RangeDescriptor.min_wal tlb r; Ret (w, mk (stream_id d) (r :: l))
  end.

(** The first range with the index is updated. *)
Fixpoint offload_first (range : Z) (sl : slice) (l : list range_d) : list range_d :=
  match l with
  | [] => []
  | r :: l =>
      if RangeDescriptor.range r =? range then RangeDescriptor.offload_slice r sl :: l
      else r :: offload_first range sl l
  end.
Definition data_offload (d : t) (range start delta : Z) : outcome t :=
  if existsb (fun r => RangeDescriptor.range r =? range) (ranges d) then
    end_ ← u64_add start delta;
    Ret (mk (stream_id d) (offload_first range (OffloadSlice.mk start end_) (ranges d)))
  else Ret d.

Fixpoint wal_high_loop (tlb : tlb_t) (stream_id : Z) (l : list range_d) : outcome (option Z) :=
  match l with
  | [] => Ret None
  | r :: l =>
      let watermark := RangeDescriptor.high r in
      match RangeDescriptor.seal r with
      | Some e =>
          if e <=? watermark then wal_high_loop tlb stream_id l
          else tlb stream_id (RangeDescriptor.range r) watermark (Some e)
      | None => tlb stream_id (RangeDescriptor.range r) watermark (Some (RangeDescriptor.end_ r))
      end
  end.
Definition wal_high (tlb : tlb_t) (d : t) : outcome (option Z) := wal_high_loop tlb (stream_id d) (ranges d).
End StreamDescriptor.

(** ** [manager.rs], [wal_watermark.rs] *)

Module WatermarkManager.
(** The watermarks that are notified are [(min, offload)] pairs. *)
Record t := mk {
  streams : gmap Z StreamDescriptor.t;
  watermarks : list (Z * Z);
}.

Definition new : t := mk ∅ [].

Definition stream_mut (m : t) (stream_id : Z) : StreamDescriptor.t :=
  default (StreamDescriptor.new stream_id) (streams m !! stream_id).
Definition put (m : t) (stream_id : Z) (d : StreamDescriptor.t) : t :=
  mk (<[stream_id := d]> (streams m)) (watermarks m).

Definition add_watermark (m : t) (w : Z * Z) : t := mk (streams m) (watermarks m ++ [w]).

Definition reduce_min (l : list Z) : Z :=
  match l with [] => 0 | x :: l => foldl Z.min x l end.

(** The minimum does not depend on the order in which the map is iterated. *)
Definition min_wal_offset (tlb : tlb_t) (m : t) : outcome (Z * t) :=
  l ← mapM (fun e => '(w, d) ← StreamDescriptor.min_wal tlb e.2; Ret (w, (e.1, d))) (map_to_list (streams m));
  Ret (reduce_min (omap fst l), mk (list_to_map (snd <$> l)) (watermarks m)).
Definition offload_wal_offset (tlb : tlb_t) (m : t) : outcome Z :=
  l ← mapM (fun e => StreamDescriptor.wal_high tlb e.2) (map_to_list (streams m));
  Ret (reduce_min (omap id l)).

Definition on_index (m : t) (stream_id range offset : Z) : t :=
  put m stream_id (StreamDescriptor.index (stream_mut m stream_id) range offset).

(** [None] when [StreamDescriptor::trim] does not return within the fuel. *)
Definition trim_stream (fuel : nat) (tlb : tlb_t) (m : t) (stream_id offset : Z) : outcome (option t) :=
  res ← StreamDescriptor.trim fuel tlb (stream_mut m stream_id) offset;
  match res with
  | None => Ret None
  | Some d =>
      '(min, m) ← min_wal_offset tlb (put m stream_id d);
      Ret (Some (mk (streams m) ((fun w => (min, w.2)) <$> watermarks m)))
  end.

Definition on_data_offload (tlb : tlb_t) (m : t) (stream_id range offset delta : Z) : outcome t :=
  d ← StreamDescriptor.data_offload (stream_mut m stream_id) range offset delta;
  let m := put m stream_id d in
  offload ← offload_wal_offset tlb m;
  Ret (mk (streams m) ((fun w => (w.1, offload)) <$> watermarks m)).

Definition add_range (m : t) (stream_id range start : Z) (end_ : option Z) : t :=
  put m stream_id (StreamDescriptor.add_range (stream_mut m stream_id) range start end_).
Definition delete_range (m : t) (stream_id range : Z) : t :=
  put m stream_id (StreamDescriptor.delete_range (stream_mut m stream_id) range).
Definition seal_range (m : t) (stream_id range end_ : Z) : t :=
  put m stream_id (StreamDescriptor.seal (stream_mut m stream_id) range end_).
Definition trim_range (tlb : tlb_t) (m : t) (stream_id range start : Z) : outcome t :=
  d ← StreamDescriptor.trim_range tlb (stream_mut m stream_id) range start; Ret (put m stream_id d).
End WatermarkManager.

(** ** Offloaded offsets *)

Import RangeDescriptor.

Definition in_slice (x : Z) (s : slice) : Prop := OffloadSlice.start s <= x < OffloadSlice.end_ s.
Definition slice_ok (s : slice) : Prop := OffloadSlice.start s <= OffloadSlice.end_ s.
Definition covered (l : list slice) (x : Z) : Prop := Exists (in_slice x) l.

Lemma covered_app l1 l2 x : covered (l1 ++ l2) x <-> covered l1 x \/ covered l2 x.
Proof. apply Exists_app. Qed.
Lemma covered_cons s l x : covered (s :: l) x <-> in_slice x s \/ covered l x.
Proof. apply Exists_cons. Qed.
Lemma covered_nil x : ~ covered [] x.
Proof. intros H. by apply Exists_nil in H. Qed.
Lemma covered_reverse l x : covered (reverse l) x <-> covered l x.
Proof. unfold covered. rewrite !Exists_exists. by setoid_rewrite elem_of_reverse. Qed.

Lemma expand_spec sl l l' :
  slice_ok sl -> Forall slice_ok l -> expand sl l = Some l' ->
  Forall slice_ok l' /\ forall x, covered l' x <-> in_slice x sl \/ covered l x.
Proof.
  intros Hsl Hall. revert l'. induction Hall as [|s l Hs Hall IH]; intros l'; [done|]. simpl.
  unfold slice_ok, in_slice in *.
  destruct (Z.eqb_spec (OffloadSlice.start sl) (OffloadSlice.end_ s));
    [|destruct (Z.eqb_spec (OffloadSlice.end_ sl) (OffloadSlice.start s))].
  1-2: intros [= <-]; split; [constructor; [simpl; lia|done]|]; intros x;
    rewrite !covered_cons; unfold in_slice; simpl; intuition lia.
  intros (l1 & Hl1 & ->)%fmap_Some. destruct (IH _ Hl1) as [Hok Hc]. split; [by constructor|].
  intros x. rewrite !covered_cons, Hc. unfold in_slice. tauto.
Qed.

Lemma merge_first_spec l :
  Forall slice_ok l ->
  Forall slice_ok (merge_first l) /\ forall x, covered (merge_first l) x <-> covered l x.
Proof.
  induction 1 as [|s l Hs Hall IH]; [done|].
  destruct l as [|s' l]; [by split; [constructor|]|].
  apply Forall_cons in Hall as Hall'. destruct Hall' as [Hs' Hl]. cbn [merge_first].
  unfold slice_ok in *. case_bool.
  - split; [constructor; [simpl; lia|done]|]. intros x. rewrite !covered_cons.
    unfold in_slice. simpl. intuition lia.
  - destruct IH as [Hok Hc]. split; [by constructor|]. intros x. rewrite (covered_cons s), Hc.
    by rewrite <- covered_cons.
Qed.

Lemma insert_after_spec sl l l' x :
  insert_after sl l = Some l' -> (covered l' x <-> in_slice x sl \/ covered l x) /\
  forall P : slice -> Prop, Forall P l -> P sl -> Forall P l'.
Proof.
  revert l'. induction l as [|s l IH]; intros l'; [done|]. simpl.
  destruct (OffloadSlice.end_ s <=? _).
  - intros [= <-]. rewrite !covered_cons. split; [tauto|]. intros P [? ?]%Forall_cons ?. by repeat constructor.
  - intros (l1 & Hl1 & ->)%fmap_Some. destruct (IH _ Hl1) as [Hc HP]. rewrite !covered_cons, Hc.
    split; [tauto|]. intros P [? ?]%Forall_cons ?. constructor; auto.
Qed.

Lemma offload_slice_spec d sl :
  slice_ok sl -> Forall slice_ok (offloaded d) ->
  Forall slice_ok (offloaded (offload_slice d sl)) /\
  forall x, covered (offloaded (offload_slice d sl)) x <-> in_slice x sl \/ covered (offloaded d) x.
Proof.
  intros Hsl Hall. unfold offload_slice. simpl.
  destruct (expand sl (reverse (offloaded d))) as [l|] eqn:He.
  - apply expand_spec in He as [Hok Hc]; [|done|by apply Forall_reverse].
    destruct (merge_first_spec (reverse l)) as [Hok' Hc']; [by apply Forall_reverse|].
    split; [done|]. intros x. by rewrite Hc', covered_reverse, Hc, covered_reverse.
  - destruct (insert_after sl (offloaded d)) as [l|] eqn:Hi; simpl.
    + split; [by apply (insert_after_spec _ _ _ 0 Hi)|]. intros x.
      by apply (insert_after_spec _ _ _ x Hi).
    + split; [by apply Forall_app; split; [|constructor]|].
      intros x. rewrite covered_app, covered_cons. pose proof (covered_nil x). tauto.
Qed.

Lemma high_loop_covered l o x :
  Forall slice_ok l -> o <= x < high_loop o l -> covered l x.
Proof.
  intros Hall. revert o. induction Hall as [|s l Hs Hall IH]; intros o; simpl; [lia|].
  case_bool. intros Hx. apply covered_cons. unfold slice_ok, in_slice in *.
  destruct (decide (x < OffloadSlice.end_ s)); [left; lia|right]. eapply IH. split; [|apply Hx]. lia.
Qed.

Definition offload_all (d : range_d) (sls : list slice) : range_d := foldl offload_slice d sls.

Lemma offload_all_spec d sls :
  Forall slice_ok sls -> Forall slice_ok (offloaded d) ->
  Forall slice_ok (offloaded (offload_all d sls)) /\ start (offload_all d sls) = start d /\
  forall x, covered (offloaded (offload_all d sls)) x <-> covered sls x \/ covered (offloaded d) x.
Proof.
  intros Hall. revert d. induction Hall as [|sl sls Hsl Hall IH]; intros d Hd.
  - simpl. split_and!; [done..|]. intros x. pose proof (covered_nil x). tauto.
  - destruct (offload_slice_spec d sl Hsl Hd) as [Hok Hc].
    destruct (IH (offload_slice d sl) Hok) as (Hok' & Hs & Hc').
    split_and!; [done|done|]. intros x. cbn [offload_all foldl]. fold (offload_all (offload_slice d sl) sls).
    rewrite Hc', Hc, covered_cons. tauto.
Qed.

(** The high watermark of a range never overstates what was offloaded.  Whatever slices
    the object storage reports, in whatever order, every offset from the range's start up to
    the watermark lies in a reported slice; and the slices kept cover exactly the reported
    offsets. *)
Theorem range_high_sound stream range s sls :
  Forall slice_ok sls ->
  let d := offload_all (RangeDescriptor.new stream range s) sls in
  (forall x, s <= x < high d -> Exists (in_slice x) sls) /\
  (forall x, Exists (in_slice x) (offloaded d) <-> Exists (in_slice x) sls).
Proof.
  intros Hall d. destruct (offload_all_spec (RangeDescriptor.new stream range s) sls Hall)
    as (Hok & Hs & Hc); [constructor|]. fold d in Hok, Hs, Hc. simpl in Hs.
  assert (forall x, covered (offloaded d) x <-> covered sls x) as Hc'.
  { intros x. rewrite Hc. pose proof (covered_nil x). tauto. }
  split; [|done]. intros x Hx. apply Hc'. apply (high_loop_covered _ s); [done|]. unfold high in Hx. by rewrite Hs in Hx.
Qed.

(** The high watermark can stay behind for good.  Three slices cover the offsets from 0
    to 30 and the middle one arrives last: the slices are kept out of order, so that the
    watermark stays at the start of the range although all of it was offloaded. *)
Lemma range_high_stuck stream range :
  let d := offload_all (RangeDescriptor.new stream range 0)
             [OffloadSlice.mk 20 30; OffloadSlice.mk 0 10; OffloadSlice.mk 10 20] in
  high d = 0 /\ forall x, 0 <= x < 30 -> Exists (in_slice x) (offloaded d).
Proof.
  split; [done|]. intros x Hx. unfold offload_all. simpl. rewrite !Exists_cons.
  unfold in_slice. simpl. lia.
Qed.

(** Slices that arrive in order are merged into one. *)
Fixpoint in_order (a : Z) (sls : list slice) (b : Z) : Prop :=
  match sls with
  | [] => a = b
  | s :: sls => OffloadSlice.start s = a /\ in_order (OffloadSlice.end_ s) sls b
  end.

Lemma offload_in_order d a0 a sls b :
  offloaded d = [OffloadSlice.mk a0 a] -> in_order a sls b ->
  offloaded (offload_all d sls) = [OffloadSlice.mk a0 b] /\ start (offload_all d sls) = start d.
Proof.
  revert d a. induction sls as [|s sls IH]; intros d a Hd; [by intros <-|].
  intros [Hs Hord]. destruct (IH (offload_slice d s) (OffloadSlice.end_ s)) as [? ?]; [|done..].
  unfold offload_slice. simpl. rewrite Hd. simpl. rewrite Hs, Z.eqb_refl. done.
Qed.

(** If the slices of a range are reported in order, the high watermark is the end of the
    last one. *)
Lemma range_high_in_order stream range s sls b :
  in_order s sls b -> high (offload_all (RangeDescriptor.new stream range s) sls) = b.
Proof.
  destruct sls as [|sl sls]; [by intros <-|]. intros [Hs Hord].
  destruct (offload_in_order (offload_slice (RangeDescriptor.new stream range s) sl) s
    (OffloadSlice.end_ sl) sls b) as [Ho Hst]; [|done|].
  - unfold offload_slice. simpl. destruct sl; simpl in *. by subst.
  - unfold high. cbn [offload_all foldl]. fold (offload_all (offload_slice (RangeDescriptor.new stream range s) sl) sls).
    rewrite Ho, Hst. simpl. by rewrite Z.eqb_refl.
Qed.

(** ** Trimming a stream *)

Import StreamDescriptor.

(** [StreamDescriptor::trim] does not return when the offset falls strictly inside the
    first range and that range is sealed: the loop neither drops, nor trims, nor leaves. *)
Theorem trim_diverges tlb sid r l offset e :
  RangeDescriptor.start r < offset -> RangeDescriptor.seal r = Some e -> offset < e ->
  forall fuel, StreamDescriptor.trim fuel tlb (StreamDescriptor.mk sid (r :: l)) offset = Ret None.
Proof.
  intros Hs He Hlt fuel. unfold StreamDescriptor.trim. simpl.
  induction fuel as [|fuel IH]; [done|]. simpl.
  by rewrite (proj2 (Z.leb_gt _ _)), He, (proj2 (Z.leb_gt _ _)) by lia.
Qed.

(** No sealed range has the offset strictly inside. *)
Definition no_straddle (l : list range_d) (offset : Z) : Prop :=
  forall r e, r ∈ l -> RangeDescriptor.seal r = Some e ->
    e <= offset \/ offset <= RangeDescriptor.start r.

(** In every other case [trim] returns, after at most one iteration per range and one
    more: it drops a run of sealed ranges that end at or before the offset; what is left is
    empty, or starts at the offset or later, or starts with the open range, cut to the
    offset. *)
Theorem trim_returns tlb d offset :
  no_straddle (ranges d) offset ->
  let trimmed := StreamDescriptor.trim (S (length (ranges d))) tlb d offset in
  exists dropped rest, ranges d = dropped ++ rest /\
    Forall (fun r => exists e, RangeDescriptor.seal r = Some e /\ e <= offset) dropped /\
    match rest with
    | [] => trimmed = Ret (Some (StreamDescriptor.mk (stream_id d) []))
    | r :: l =>
        (offset <= RangeDescriptor.start r /\ trimmed = Ret (Some (StreamDescriptor.mk (stream_id d) rest))) \/
        (RangeDescriptor.seal r = None /\ RangeDescriptor.start r < offset /\
         trimmed = (r' ← RangeDescriptor.trim tlb r offset; Ret (Some (StreamDescriptor.mk (stream_id d) (r' :: l)))))
    end.
Proof.
  destruct d as [sid l]. simpl. unfold StreamDescriptor.trim. simpl ranges. simpl stream_id.
  induction l as [|r l IH]; intros Hns; [by exists [], []|].
  cbn [trim_loop length]. destruct (Z.leb_spec offset (RangeDescriptor.start r)) as [Hle|Hlt].
  { exists [], (r :: l). split_and!; [done..|by left]. }
  destruct (RangeDescriptor.seal r) as [e|] eqn:He.
  - destruct (Hns r e) as [Hend|?]; [apply list_elem_of_here|done| |lia].
    rewrite (proj2 (Z.leb_le e offset)) by lia.
    destruct IH as (dropped & rest & -> & Hall & Hrest).
    { intros r' e' Hin. apply Hns. by apply list_elem_of_further. }
    exists (r :: dropped), rest. split_and!; [done| |done]. constructor; [by exists e|done].
  - rewrite (proj2 (Z.ltb_lt _ _)) by lia. exists [], (r :: l). split_and!; [done..|right].
    split_and!; [done..|]. by destruct (RangeDescriptor.trim tlb r offset).
Qed.

(** ** The watermarks of the log *)

Import WatermarkManager.

Lemma foldl_min_le l a x : x = a \/ x ∈ l -> foldl Z.min a l <= x.
Proof.
  revert a x. induction l as [|y l IH]; intros a x; simpl.
  - intros [->|Hx]; [lia|]. by apply not_elem_of_nil in Hx.
  - assert (foldl Z.min (a `min` y) l <= a `min` y) as Hle by (apply IH; by left).
    intros [->|[->|Hx]%elem_of_cons]; [lia|lia|]. apply IH. by right.
Qed.

Lemma reduce_min_le l x : x ∈ l -> reduce_min l <= x.
Proof.
  destruct l as [|y l]; [intros H; by apply not_elem_of_nil in H|].
  intros Hx%elem_of_cons. simpl. by apply foldl_min_le.
Qed.

Lemma mapM_in {A B} (f : A -> outcome B) l l' a : mapM f l = Ret l' -> a ∈ l -> exists b, b ∈ l' /\ f a = Ret b.
Proof.
  revert l'. induction l as [|x l IH]; intros l' H Ha; [by apply not_elem_of_nil in Ha|]. simpl in H.
  apply bind_Ret_inv in H as (b & Hb & H). apply bind_Ret_inv in H as (k & Hk & H). injection H as <-.
  apply elem_of_cons in Ha as [->|Ha]; [exists b; split; [apply list_elem_of_here|done]|].
  destruct (IH _ Hk Ha) as (y & Hy & ?). exists y. split; [by apply list_elem_of_further|done].
Qed.

(** The watermarks are bounds for every stream: neither the minimum nor the offload
    watermark passes the WAL offset that a stream reports as its first live, respectively
    first not yet offloaded, record. *)
Theorem watermarks_bound_streams tlb m sid d w :
  streams m !! sid = Some d ->
  (forall d' min m', StreamDescriptor.min_wal tlb d = Ret (Some w, d') -> min_wal_offset tlb m = Ret (min, m') -> min <= w) /\
  (forall offload, StreamDescriptor.wal_high tlb d = Ret (Some w) -> offload_wal_offset tlb m = Ret offload -> offload <= w).
Proof.
  intros Hd%elem_of_map_to_list. split.
  - intros d' min m' Hw H. apply bind_Ret_inv in H as (l & Hl & H). injection H as <- _.
    destruct (mapM_in _ _ _ _ Hl Hd) as (y & Hy & Hf). simpl in Hf. rewrite Hw in Hf. injection Hf as <-.
    apply reduce_min_le, list_elem_of_omap. eexists. split; [exact Hy|done].
  - intros offload Hw H. apply bind_Ret_inv in H as (l & Hl & H). injection H as <-.
    destruct (mapM_in _ _ _ _ Hl Hd) as (y & Hy & Hf). simpl in Hf. rewrite Hw in Hf. injection Hf as <-.
    apply reduce_min_le, list_elem_of_omap. eexists. split; [exact Hy|done].
Qed.

Module WatermarkExample.
(** Stream 1 has an empty range 0 and 50 records in range 1, at WAL offset 5; stream 2 has
    10 records at WAL offset 100. *)
Definition tlb : tlb_t := fun stream range _ _ =>
  Ret (if (stream =? 1) && (range =? 1) then Some 5
       else if (stream =? 2) && (range =? 0) then Some 100 else None).
Definition m : WatermarkManager.t :=
  let m := WatermarkManager.add_range WatermarkManager.new 1 0 0 None in
  let m := seal_range m 1 0 0 in
  let m := on_index (WatermarkManager.add_range m 1 1 0 None) 1 1 50 in
  on_index (WatermarkManager.add_range m 2 0 0 None) 2 0 10.
End WatermarkExample.

(** The minimum watermark looks at the first range of a stream only.  When that range is
    empty, the records of the stream's later ranges do not hold the watermark back: here it
    passes 5, the WAL offset of 50 live records. *)
Theorem min_wal_skips_later_ranges :
  (fst <$> min_wal_offset WatermarkExample.tlb WatermarkExample.m) = Ret 100 /\
  (exists d r, streams WatermarkExample.m !! 1 = Some d /\ r ∈ StreamDescriptor.ranges d /\
     (fst <$> RangeDescriptor.min_wal WatermarkExample.tlb r) = Ret (Some 5)).
Proof.
  split; [by vm_compute|].
  exists (StreamDescriptor.mk 1
    [RangeDescriptor.mk 1 0 0 0 (Some 0) [] None; RangeDescriptor.mk 1 1 0 50 None [] None]).
  exists (RangeDescriptor.mk 1 1 0 50 None [] None).
  split; [by vm_compute|]. split; [|by vm_compute].
  apply list_elem_of_further, list_elem_of_here.
Qed.

(** ** Order of the ranges of a stream *)

Definition range_lt (a b : range_d) : Prop := RangeDescriptor.range a < RangeDescriptor.range b.

Lemma insert_after_smaller_None r l :
  insert_after_smaller r l = None ->
  Forall (fun x => RangeDescriptor.range r <= RangeDescriptor.range x) l.
Proof.
  induction l as [|x l IH]; simpl; [constructor|].
  destruct (insert_after_smaller r l); [done|].
  destruct (Z.ltb_spec (RangeDescriptor.range x) (RangeDescriptor.range r)); [done|].
  intros _. constructor; [lia|by apply IH].
Qed.

Lemma insert_after_smaller_Some r l l' :
  insert_after_smaller r l = Some l' -> l' ≡ₚ r :: l.
Proof.
  revert l'. induction l as [|x l IH]; intros l'; simpl; [done|].
  destruct (insert_after_smaller r l) as [l1|].
  - intros [= <-]. rewrite (IH l1) by done. constructor.
  - destruct (_ <? _); [|done]. intros [= <-]. constructor.
Qed.

Lemma insert_after_smaller_ex r l l' :
  insert_after_smaller r l = Some l' -> Exists (fun y => range_lt y r) l.
Proof.
  revert l'. induction l as [|x l IH]; intros l'; simpl; [done|].
  destruct (insert_after_smaller r l) as [l1|]; [intros _; right; by eapply IH|].
  destruct (Z.ltb_spec (RangeDescriptor.range x) (RangeDescriptor.range r)); [|done].
  intros _. by left.
Qed.

Lemma insert_after_smaller_sorted r l l' :
  StronglySorted range_lt l -> Forall (fun x => RangeDescriptor.range x <> RangeDescriptor.range r) l ->
  insert_after_smaller r l = Some l' -> StronglySorted range_lt l'.
Proof.
  intros Hs. revert l'. induction Hs as [|x l Hs IH Hx]; intros l' Hne; simpl; [done|].
  apply Forall_cons in Hne as [Hnx Hne].
  destruct (insert_after_smaller r l) as [l1|] eqn:Hi.
  - intros [= <-]. constructor; [by apply IH|]. rewrite (insert_after_smaller_Some _ _ _ Hi).
    constructor; [|done]. apply insert_after_smaller_ex, Exists_exists in Hi as (y & Hy & Hlt).
    rewrite Forall_forall in Hx. specialize (Hx _ Hy). unfold range_lt in *. lia.
  - apply insert_after_smaller_None in Hi.
    destruct (Z.ltb_spec (RangeDescriptor.range x) (RangeDescriptor.range r)); [|done]. intros [= <-].
    assert (Forall (range_lt r) l) as Hr.
    { rewrite Forall_forall in *. intros y Hy. specialize (Hi _ Hy). specialize (Hne _ Hy).
      unfold range_lt. lia. }
    by repeat constructor.
Qed.

(** A range with a new index is added in its place as long as the stream is empty or has
    a range with a smaller index; otherwise it goes to the back, behind the greater ones. *)
Theorem add_range_order d range start end_ :
  StronglySorted range_lt (ranges d) ->
  Forall (fun x => RangeDescriptor.range x <> range) (ranges d) ->
  if decide (ranges d = [] \/ Exists (fun x => RangeDescriptor.range x < range) (ranges d))
  then StronglySorted range_lt (ranges (StreamDescriptor.add_range d range start end_))
  else ~ StronglySorted range_lt (ranges (StreamDescriptor.add_range d range start end_)).
Proof.
  intros Hs Hne. unfold StreamDescriptor.add_range. simpl.
  set (r := match end_ with Some e => _ | None => _ end).
  assert (RangeDescriptor.range r = range) as Hr by by destruct end_.
  destruct (insert_after_smaller r (ranges d)) as [l|] eqn:Hi; simpl.
  - rewrite decide_True.
    + eapply insert_after_smaller_sorted; [done| |done]. by rewrite Hr.
    + right. apply insert_after_smaller_ex in Hi. unfold range_lt in Hi. by rewrite Hr in Hi.
  - apply insert_after_smaller_None in Hi. rewrite Hr in Hi. case_decide as Hd.
    + destruct Hd as [->|Hex]; [repeat constructor|].
      apply Exists_exists in Hex as (y & Hy & Hlt). rewrite Forall_forall in Hi.
      specialize (Hi _ Hy). lia.
    + destruct (ranges d) as [|x l]; [by destruct Hd; left|].
      intros [Hx _]%StronglySorted_cons. rewrite Forall_forall in Hx.
      specialize (Hx r). unfold range_lt in Hx. apply Forall_cons in Hi as [Hi _].
      assert (r ∈ l ++ [r]) as Hin by set_solver. specialize (Hx Hin). lia.
Qed.

(** ** Witnesses *)

Lemma range_high_sound_witness :
  (forall x, 0 <= x < high (offload_all (RangeDescriptor.new 1 0 0)
      [OffloadSlice.mk 0 10; OffloadSlice.mk 20 30; OffloadSlice.mk 10 20]) ->
    Exists (in_slice x) [OffloadSlice.mk 0 10; OffloadSlice.mk 20 30; OffloadSlice.mk 10 20]) /\
  high (offload_all (RangeDescriptor.new 1 0 0)
      [OffloadSlice.mk 0 10; OffloadSlice.mk 20 30; OffloadSlice.mk 10 20]) = 30.
Proof.
  split; [|by vm_compute].
  apply (range_high_sound 1 0 0 [OffloadSlice.mk 0 10; OffloadSlice.mk 20 30; OffloadSlice.mk 10 20]).
  repeat constructor; by vm_compute.
Defined.

Lemma range_high_in_order_witness :
  high (offload_all (RangeDescriptor.new 1 0 5) [OffloadSlice.mk 5 10; OffloadSlice.mk 10 30]) = 30.
Proof.
  apply (range_high_in_order 1 0 5 [OffloadSlice.mk 5 10; OffloadSlice.mk 10 30]). by split_and!.
Defined.

Lemma trim_diverges_witness :
  StreamDescriptor.trim 1000 WatermarkExample.tlb
    (StreamDescriptor.mk 1 [RangeDescriptor.with_end 1 0 0 100]) 50 = Ret None.
Proof.
  apply (trim_diverges WatermarkExample.tlb 1 (RangeDescriptor.with_end 1 0 0 100) [] 50 100); done.
Defined.

Lemma trim_returns_witness :
  let d := StreamDescriptor.mk 1 [RangeDescriptor.with_end 1 0 0 100; RangeDescriptor.new 1 1 100] in
  exists dropped rest, ranges d = dropped ++ rest /\
    Forall (fun r => exists e, RangeDescriptor.seal r = Some e /\ e <= 150) dropped.
Proof.
  intros d. destruct (trim_returns WatermarkExample.tlb d 150) as (dropped & rest & Heq & Hd & _);
    [|exact (ex_intro _ dropped (ex_intro _ rest (conj Heq Hd)))].
  intros r e Hin. simpl in Hin. repeat (apply elem_of_cons in Hin as [->|Hin]; [intros [= <-]; left; done|]).
  by apply not_elem_of_nil in Hin.
Defined.

Lemma watermarks_bound_streams_witness :
  forall min m', min_wal_offset WatermarkExample.tlb WatermarkExample.m = Ret (min, m') -> min <= 100.
Proof.
  intros min m' H. eapply (proj1 (watermarks_bound_streams WatermarkExample.tlb WatermarkExample.m 2
    (StreamDescriptor.mk 2 [RangeDescriptor.mk 2 0 0 10 None [] None]) 100 ltac:(by vm_compute))); [by vm_compute|exact H].
Defined.

Lemma add_range_order_witness :
  ~ StronglySorted range_lt
    (ranges (StreamDescriptor.add_range (StreamDescriptor.mk 1 [RangeDescriptor.new 1 5 0]) 3 0 None)).
Proof.
  apply (add_range_order (StreamDescriptor.mk 1 [RangeDescriptor.new 1 5 0]) 3 0 None);
    repeat constructor; done.
Defined.
