(* ===== verification/Index.v ===== *)
(** * The record index

    [components/store/src/index]: index entries ([record.rs]), the indexer over RocksDB
    ([indexer.rs]) and the compaction filters ([compaction.rs]); and the record header of the
    log ([io/record.rs]).

    RocksDB is a parameter ([KvApi]): a column family is a map from byte strings to byte
    strings, iterated in bytewise order from an inclusive lower to an exclusive upper bound.
    Failures of RocksDB itself are not modelled. *)

From S2P Require Import Prelude Bytes Model StoreTypes.

(** ** [io/record.rs] *)

Module RecordType.
Inductive t := Zero | Full | First | Middle | Last.

Definition RECORD_PREFIX_LENGTH : Z := 4 + 3 + 1.

Definition into (ty : t) : Z :=
  match ty with Zero => 0 | Full => 1 | First => 2 | Middle => 3 | Last => 4 end.
Definition try_from (z : Z) : option t :=
  if z =? 0 then Some Zero else if z =? 1 then Some Full else if z =? 2 then Some First
  else if z =? 3 then Some Middle else if z =? 4 then Some Last else None.

(** [len << 8] loses the high byte of [len]. *)
Definition with_length (ty : t) (len : Z) : Z :=
  Z.lor (as_uint 32 (Z.shiftl len 8)) (into ty).

Definition parse (val : Z) : option (Z * t) :=
  ty ← try_from (as_uint 8 (Z.land val 0xFF)); Some (Z.shiftr val 8, ty).
End RecordType.

(** ** [record.rs] *)

Module HandleExt.
Inductive t := Hash (hash : Z) (* u64 *) | BatchSize (len : Z) (* u32 *).
Definition count (e : t) : Z := match e with Hash _ => 1 | BatchSize len => len end.
End HandleExt.

Module RecordIndex.
Record t := mk { stream_id : Z; (* u64 *) range : Z; (* u32 *) offset : Z (* u64 *) }.

Section coding.
Context {B : BytesApi}.

Definition try_from (value : list byte) : outcome (option t) :=
  if negb (length value =? 20)%nat then Ret None
  else
    '(stream_id, cursor) ← get_uint 8 value;
    '(range, cursor) ← get_uint 4 cursor;
    '(offset, cursor) ← get_uint 8 cursor;
    Ret (Some (mk stream_id range offset)).

Definition into_bytes (index : t) : list byte :=
  put_uint 8 (stream_id index) ++ put_uint 4 (range index) ++ put_uint 8 (offset index).
End coding.
End RecordIndex.

Module RecordHandle.
Record t := mk { wal_offset : Z; (* u64 *) len : Z; (* u32 *) ext : HandleExt.t }.

Section coding.
Context {B : BytesApi}.

(** The [debug_assert!]s are not in a release build; [get_u64], [get_u32] and [unreachable!]
    panic. *)
Definition try_from (value : list byte) : outcome (option t) :=
  if (length value <? 12)%nat then Ret None
  else
    '(offset, cursor) ← get_uint 8 value;
    '(length_type, cursor) ← get_uint 4 cursor;
    let ty := Z.land length_type 0xFF in
    let len := Z.shiftr length_type 8 in
    ext ← (if ty =? 0 then '(h, _) ← get_uint 8 cursor; Ret (HandleExt.Hash h)
           else if ty =? 1 then '(n, _) ← get_uint 4 cursor; Ret (HandleExt.BatchSize n)
           else Panic);
    Ret (Some (mk offset len ext)).

Definition into_bytes (handle : t) : list byte :=
  let length_type := as_uint 32 (Z.shiftl (len handle) 8) in
  put_uint 8 (wal_offset handle) ++
  match ext handle with
  | HandleExt.Hash hash => put_uint 4 length_type ++ put_uint 8 hash
  | HandleExt.BatchSize n => put_uint 4 (Z.lor length_type 1) ++ put_uint 4 n
  end.
End coding.
End RecordHandle.

Module IndexRecord.
Record t := mk { index : RecordIndex.t; handle : RecordHandle.t }.
Definition end_offset (r : t) : outcome Z :=
  match RecordHandle.ext (handle r) with
  | HandleExt.Hash _ => u64_add (RecordIndex.offset (index r)) 1
  | HandleExt.BatchSize len => u64_add (RecordIndex.offset (index r)) len
  end.
Definition offset (r : t) : Z := RecordIndex.offset (index r).
End IndexRecord.
Abbreviation record := IndexRecord.t.

(** ** RocksDB *)

Class KvApi := {
  kv : Type;
  kv_empty : kv;
  kv_get : kv -> list byte -> option (list byte);
  kv_put : kv -> list byte -> list byte -> kv;
  (* the entries from the lower bound to the upper bound, in order *)
  kv_iter : kv -> list byte -> option (list byte) -> list (list byte * list byte);
}.

Class KvLaws (K : KvApi) : Prop := {
  kv_get_empty k : kv_get kv_empty k = None;
  kv_get_put db k v k' : kv_get (kv_put db k v) k' = if decide (k' = k) then Some v else kv_get db k';
  kv_iter_sorted db lo up : StronglySorted (fun a b => bytes_lt a.1 b.1 = true) (kv_iter db lo up);
  kv_iter_elem db lo up k v :
    (k, v) ∈ kv_iter db lo up <->
    kv_get db k = Some v /\ bytes_lt k lo = false /\
    match up with Some u => bytes_lt k u = true | None => True end;
}.

(** ** [indexer.rs] *)

Module Indexer.
Definition WAL_CHECKPOINT : list byte := ascii_bytes "wal_checkpoint".
Definition RANGE_PREFIX : Z := 114. (* b'r' *)

Section indexer.
Context {B : BytesApi} {K : KvApi}.

Record t := mk {
  index_cf : kv;
  metadata_cf : kv;
  count : Z;                   (* usize *)
  flush_threshold : Z;         (* usize *)
}.

Definition new (flush_threshold : Z) : t := mk kv_empty kv_empty 0 flush_threshold.

Definition build_index_key (stream_id range offset : Z) : list byte :=
  RecordIndex.into_bytes (RecordIndex.mk stream_id range offset).

(** Decoding an entry; [None] when the key or the value is malformed. *)
Definition decode_entry (e : list byte * list byte) : outcome (option record) :=
  index ← RecordIndex.try_from e.1;
  match index with
  | None => Ret None
  | Some index =>
      handle ← RecordHandle.try_from e.2;
      Ret (option_map (IndexRecord.mk index) handle)
  end.

(** The [map_while] of [scan_records_from]. *)
Fixpoint scan_loop (entries : list (list byte * list byte)) (bytes_c max_bytes : Z)
    : outcome (list record) :=
  match entries with
  | [] => Ret []
  | e :: entries =>
      if max_bytes <=? bytes_c then Ret []
      else
        r ← decode_entry e;
        match r with
        | None => Ret []
        | Some r =>
            bytes_c ← u32_add bytes_c (RecordHandle.len (IndexRecord.handle r));
            rest ← scan_loop entries bytes_c max_bytes;
            Ret (r :: rest)
        end
  end.

Definition scan_records_from (ix : t) (lower upper : list byte) (max_bytes : Z)
    : outcome (option (list record)) :=
  indexes ← scan_loop (kv_iter (index_cf ix) lower (Some upper)) 0 max_bytes;
  Ret (match indexes with [] => None | _ => Some indexes end).

(** The last entry between the bounds. *)
Definition last_entry (ix : t) (lower upper : list byte) : outcome (option record) :=
  match last (kv_iter (index_cf ix) lower (Some upper)) with
  | Some e => decode_entry e
  | None => Ret None
  end.

Definition retrieve_max_key (ix : t) (stream_id range : Z) : outcome (option record) :=
  next ← u32_add range 1;
  last_entry ix (put_uint 8 stream_id ++ put_uint 4 range) (put_uint 8 stream_id ++ put_uint 4 next).

Definition retrieve_left_key (ix : t) (stream_id range offset : Z) : outcome (option record) :=
  max_key ← retrieve_max_key ix stream_id range;
  match max_key with
  | None => Ret None
  | Some r =>
      if IndexRecord.offset r <? offset then Ret None
      else if offset =? IndexRecord.offset r then Ret (Some r)
      else
        offset' ← u64_add offset 1;
        last_entry ix (build_index_key stream_id range 0) (build_index_key stream_id range offset')
  end.

Definition scan_wal_offset (ix : t) (stream_id range offset : Z) (end_ : option Z)
    : outcome (option Z) :=
  let lower := build_index_key stream_id range offset in
  let upper := build_index_key stream_id range (default (2 ^ 64 - 1) end_) in
  res ← scan_records_from ix lower upper 1;
  Ret (match res with
       | Some (r :: _) => Some (RecordHandle.wal_offset (IndexRecord.handle r))
       | _ => None
       end).

(** [stream_id + 1] is computed for an upper bound that is then replaced. *)
Definition scan_record_left_shift (ix : t) (stream_id range offset max_offset max_bytes : Z)
    : outcome (option (list record)) :=
  left_key_record ← retrieve_left_key ix stream_id range offset;
  let left_key := match left_key_record with
                  | Some entry => RecordIndex.into_bytes (IndexRecord.index entry)
                  | None => build_index_key stream_id range offset
                  end in
  _ ← u64_add stream_id 1;
  scan_records_from ix left_key (build_index_key stream_id range max_offset) max_bytes.

Definition get_wal_checkpoint (ix : t) : outcome (result Z StoreError.t) :=
  match kv_get (metadata_cf ix) WAL_CHECKPOINT with
  | Some value =>
      if (length value <? 8)%nat then Ret (Err StoreError.DataCorrupted)
      else '(wal_offset, _) ← get_uint 8 value; Ret (Ok wal_offset)
  | None => Ret (Ok 0)
  end.

Definition advance_wal_checkpoint (ix : t) (offset : Z) : t :=
  mk (index_cf ix) (kv_put (metadata_cf ix) WAL_CHECKPOINT (put_uint 8 offset))
     (count ix) (flush_threshold ix).

(** The flush that is triggered every [flush_threshold] records does not change what is read;
    the result says whether it was triggered. *)
Definition index (ix : t) (r : record) : outcome (bool * t) :=
  let ix := mk (kv_put (index_cf ix) (RecordIndex.into_bytes (IndexRecord.index r))
                  (RecordHandle.into_bytes (IndexRecord.handle r)))
               (metadata_cf ix) (count ix) (flush_threshold ix) in
  let ix := advance_wal_checkpoint ix (RecordHandle.wal_offset (IndexRecord.handle r)) in
  let prev := count ix in
  let with_count c := mk (index_cf ix) (metadata_cf ix) c (flush_threshold ix) in
  next ← usize_add prev 1;
  if flush_threshold ix <=? next then Ret (true, with_count 0) else Ret (false, with_count next).

(** *** Ranges *)

Definition range_key (stream_id index : Z) : list byte :=
  put_uint 1 RANGE_PREFIX ++ put_uint 8 stream_id ++ put_uint 4 index.

Definition put_metadata (ix : t) (k v : list byte) : t :=
  mk (index_cf ix) (kv_put (metadata_cf ix) k v) (count ix) (flush_threshold ix).

Definition add (ix : t) (stream_id : Z) (range : RangeMetadata.t) : t :=
  put_metadata ix (range_key stream_id (RangeMetadata.index range))
    (put_uint 8 (RangeMetadata.start range) ++
     match RangeMetadata.end_ range with Some e => put_uint 8 e | None => [] end).

Definition seal (ix : t) (stream_id : Z) (range : RangeMetadata.t) : result t StoreError.t :=
  match RangeMetadata.end_ range with
  | None => Err StoreError.Internal
  | Some e =>
      Ok (put_metadata ix (range_key stream_id (RangeMetadata.index range))
            (put_uint 8 (RangeMetadata.start range) ++ put_uint 8 e))
  end.

Definition starts_with (prefix l : list byte) : bool :=
  bool_decide (take (length prefix) l = prefix).

(** A range as it is read back; the stream id is that of the key. *)
Definition decode_range (e : list byte * list byte) : outcome RangeMetadata.t :=
  '(_, key_reader) ← get_uint 1 e.1;
  '(stream_id, key_reader) ← get_uint 8 key_reader;
  '(id, _) ← get_uint 4 key_reader;
  '(start, value_reader) ← get_uint 8 e.2;
  end_ ← (if (length e.2 =? 8)%nat then Ret None
          else '(end_, _) ← get_uint 8 value_reader; Ret (Some end_));
  Ret (RangeMetadata.new stream_id (as_sint 32 id) 0 start end_).

Fixpoint list_loop (prefix : list byte) (entries : list (list byte * list byte))
    : outcome (list RangeMetadata.t) :=
  match entries with
  | [] => Ret []
  | e :: entries =>
      if starts_with prefix e.1 then
        r ← decode_range e;
        rest ← list_loop prefix entries;
        Ret (r :: rest)
      else Ret []
  end.

Definition list_by_stream (ix : t) (stream_id : Z) : outcome (list RangeMetadata.t) :=
  let prefix := put_uint 1 RANGE_PREFIX ++ put_uint 8 stream_id in
  list_loop prefix (kv_iter (metadata_cf ix) prefix None).

Definition list_all (ix : t) : outcome (list RangeMetadata.t) :=
  let prefix := put_uint 1 RANGE_PREFIX in
  list_loop prefix (kv_iter (metadata_cf ix) prefix None).
End indexer.
Arguments t : clear implicits.
End Indexer.

(** ** [compaction.rs] *)

Module Compaction.
Inductive CompactionDecision := Keep | Remove.

Section filters.
Context {B : BytesApi}.

Definition index_filter (min_offset : Z) (key value : list byte) : outcome CompactionDecision :=
  if negb (length key =? 8)%nat then Ret Keep
  else if (length value <? 8)%nat then Ret Remove
  else
    '(offset, _) ← get_uint 8 value;
    Ret (if offset <? min_offset then Remove else Keep).

Definition range_filter (min_offset : Z) (value : list byte) : outcome CompactionDecision :=
  if (length value =? 8)%nat then Ret Keep
  else if (length value =? 16)%nat then
    '(start, rdr) ← get_uint 8 value;
    '(end_, _) ← get_uint 8 rdr;
    Ret (if end_ <=? min_offset then Remove else Keep)
  else Ret Keep.
End filters.
End Compaction.

(** ** Round trips *)

Lemma lor_shiftl_8 len ty : 0 <= len -> 0 <= ty < 256 -> Z.lor (Z.shiftl len 8) ty = len * 256 + ty.
Proof.
  intros Hl Ht. rewrite Z.shiftl_mul_pow2 by lia. change (2 ^ 8) with 256.
  rewrite <- Z.add_nocarry_lor; [done|].
  apply Z.bits_inj'. intros i Hi. rewrite Z.land_spec, Z.bits_0.
  destruct (decide (i < 8)).
  - change 256 with (2 ^ 8). rewrite Z.mul_pow2_bits_low by done. done.
  - rewrite <- (Z.mod_small ty (2 ^ 8)), Z.mod_pow2_bits_high by lia. apply andb_false_r.
Qed.

Lemma split_length_type len ty :
  0 <= len < 2 ^ 24 -> 0 <= ty < 256 ->
  Z.lor (as_uint 32 (Z.shiftl len 8)) ty = len * 256 + ty /\
  Z.land (len * 256 + ty) 0xFF = ty /\ Z.shiftr (len * 256 + ty) 8 = len /\
  0 <= len * 256 + ty < 2 ^ 32.
Proof.
  intros Hl Ht. rewrite as_uint_id.
  2:{ rewrite Z.shiftl_mul_pow2 by lia. unfold is_uint. lia. }
  rewrite lor_shiftl_8 by lia. change 0xFF with (Z.ones 8).
  rewrite Z.land_ones, Z.shiftr_div_pow2 by lia. change (2 ^ 8) with 256.
  rewrite Z.add_comm, Z.mod_add, Z.div_add, Z.mod_small, Z.div_small by lia. lia.
Qed.

(** The length and the type of a log record survive the packing into one word, for every
    length of up to 24 bits. *)
Lemma record_type_roundtrip ty len :
  0 <= len < 2 ^ 24 -> RecordType.parse (RecordType.with_length ty len) = Some (len, ty).
Proof.
  intros Hl. unfold RecordType.parse, RecordType.with_length.
  assert (0 <= RecordType.into ty < 256) as Ht by (destruct ty; simpl; lia).
  destruct (split_length_type len _ Hl Ht) as (-> & -> & -> & _).
  rewrite as_uint_id by (unfold is_uint; lia). by destruct ty.
Qed.

Definition index_ok (i : RecordIndex.t) : Prop :=
  is_u64 (RecordIndex.stream_id i) /\ is_u32 (RecordIndex.range i) /\ is_u64 (RecordIndex.offset i).
Definition ext_ok (e : HandleExt.t) : Prop :=
  match e with HandleExt.Hash h => is_u64 h | HandleExt.BatchSize n => is_u32 n end.
Definition handle_ok (h : RecordHandle.t) : Prop :=
  is_u64 (RecordHandle.wal_offset h) /\ 0 <= RecordHandle.len h < 2 ^ 24 /\
  ext_ok (RecordHandle.ext h).
Definition record_ok (r : record) : Prop :=
  index_ok (IndexRecord.index r) /\ handle_ok (IndexRecord.handle r).

Section coding.
Context {B : BytesApi} {BL : BytesLaws B}.

Lemma length_index_bytes i : length (RecordIndex.into_bytes i) = 20%nat.
Proof. unfold RecordIndex.into_bytes. by rewrite !length_app, !length_put_uint. Qed.

Lemma record_index_decode i :
  index_ok i -> RecordIndex.try_from (RecordIndex.into_bytes i) = Ret (Some i).
Proof.
  intros (Hs & Hr & Ho). unfold RecordIndex.try_from. rewrite length_index_bytes. simpl.
  unfold RecordIndex.into_bytes. rewrite get_put by done. simpl. rewrite get_put by done. simpl.
  rewrite <- (app_nil_r (put_uint 8 (RecordIndex.offset i))), get_put by done. by destruct i.
Qed.

Lemma record_handle_decode h :
  handle_ok h -> RecordHandle.try_from (RecordHandle.into_bytes h) = Ret (Some h).
Proof.
  intros (Hw & Hl & He). destruct h as [w l e]. simpl in *.
  unfold RecordHandle.try_from, RecordHandle.into_bytes. simpl.
  destruct (split_length_type l 0 Hl ltac:(lia)) as (H0 & L0 & S0 & B0). rewrite Z.lor_0_r in H0.
  destruct (split_length_type l 1 Hl ltac:(lia)) as (H1 & L1 & S1 & B1).
  destruct e as [hash|n]; simpl in He;
    (rewrite (proj2 (Nat.ltb_ge _ _)) by (rewrite !length_app, !length_put_uint; lia)).
  - rewrite H0, get_put by done. simpl. rewrite get_put by done. simpl. rewrite L0, S0. simpl.
    rewrite <- (app_nil_r (put_uint 8 hash)), get_put by done. done.
  - rewrite H1, get_put by done. simpl. rewrite get_put by done. simpl. rewrite L1, S1. simpl.
    rewrite <- (app_nil_r (put_uint 4 n)), get_put by done. done.
Qed.

Lemma decode_entry_ok (r : record) :
  record_ok r ->
  Indexer.decode_entry (RecordIndex.into_bytes (IndexRecord.index r),
    RecordHandle.into_bytes (IndexRecord.handle r)) = Ret (Some r).
Proof.
  intros [Hi Hh]. unfold Indexer.decode_entry. simpl. rewrite record_index_decode by done.
  simpl. rewrite record_handle_decode by done. by destruct r.
Qed.

(** An index entry, key and value, is read back from RocksDB as it was written. *)
Theorem index_entry_roundtrip i h :
  index_ok i -> handle_ok h ->
  RecordIndex.try_from (RecordIndex.into_bytes i) = Ret (Some i) /\
  RecordHandle.try_from (RecordHandle.into_bytes h) = Ret (Some h).
Proof. auto using record_index_decode, record_handle_decode. Qed.

(** ** Order of the keys *)

Lemma put_lt n a b :
  0 <= a < 2 ^ (Z.of_nat n * 8) -> 0 <= b < 2 ^ (Z.of_nat n * 8) ->
  bytes_lt (put_uint n a) (put_uint n b) = (a <? b).
Proof.
  intros Ha Hb. rewrite bytes_lt_be_decode by by rewrite !length_put_uint.
  by rewrite !put_uint_be, !be_decode_encode, !Z.mod_small.
Qed.

Lemma put_eq n a b :
  0 <= a < 2 ^ (Z.of_nat n * 8) -> 0 <= b < 2 ^ (Z.of_nat n * 8) ->
  bool_decide (put_uint n a = put_uint n b) = (a =? b).
Proof.
  intros Ha Hb. destruct (Z.eqb_spec a b) as [->|Hne]; [by rewrite bool_decide_true|].
  apply bool_decide_eq_false. intros Heq. apply Hne.
  rewrite <- (Z.mod_small a (2 ^ (Z.of_nat n * 8))), <- (Z.mod_small b (2 ^ (Z.of_nat n * 8))) by done.
  rewrite <- !be_decode_encode, <- !put_uint_be. by rewrite Heq.
Qed.

Definition key_ltb (a b : RecordIndex.t) : bool :=
  (RecordIndex.stream_id a <? RecordIndex.stream_id b) ||
  ((RecordIndex.stream_id a =? RecordIndex.stream_id b) &&
   ((RecordIndex.range a <? RecordIndex.range b) ||
    ((RecordIndex.range a =? RecordIndex.range b) &&
     (RecordIndex.offset a <? RecordIndex.offset b)))).

Lemma index_key_lt a b :
  index_ok a -> index_ok b ->
  bytes_lt (RecordIndex.into_bytes a) (RecordIndex.into_bytes b) = key_ltb a b.
Proof.
  intros (? & ? & ?) (? & ? & ?). unfold RecordIndex.into_bytes, key_ltb.
  rewrite !bytes_lt_app by by rewrite !length_put_uint.
  by rewrite !put_lt, !put_eq.
Qed.

(** The 12-byte prefixes that bound all keys of a range. *)
Lemma index_prefix_lt a s r :
  index_ok a -> is_u64 s -> is_u32 r ->
  bytes_lt (RecordIndex.into_bytes a) (put_uint 8 s ++ put_uint 4 r) =
    ((RecordIndex.stream_id a <? s) || ((RecordIndex.stream_id a =? s) && (RecordIndex.range a <? r))).
Proof.
  intros (? & ? & ?) ? ?. unfold RecordIndex.into_bytes.
  rewrite !bytes_lt_app by by rewrite !length_put_uint.
  rewrite <- (app_nil_r (put_uint 4 r)), bytes_lt_app by by rewrite !length_put_uint.
  rewrite !put_lt, !put_eq by done.
  replace (bytes_lt (put_uint 8 (RecordIndex.offset a)) []) with false by by destruct (put_uint _ _).
  by rewrite andb_false_r, orb_false_r.
Qed.
End coding.

(** ** Scans *)

Definition entry_of {B : BytesApi} (r : record) : list byte * list byte :=
  (RecordIndex.into_bytes (IndexRecord.index r), RecordHandle.into_bytes (IndexRecord.handle r)).

Lemma forall_fmap_ex {A C} (f : A -> C) (P : A -> Prop) (l : list C) :
  (forall e, e ∈ l -> exists a, P a /\ e = f a) -> exists la, l = f <$> la /\ Forall P la.
Proof.
  induction l as [|e l IH]; intros Hl; [by exists []|].
  destruct (Hl e) as (a & Ha & ->); [set_solver|].
  destruct IH as (la & -> & Hla); [set_solver|]. exists (a :: la). split; [done|by constructor].
Qed.

Lemma sorted_last {A} (R : A -> A -> Prop) (l : list A) x y :
  StronglySorted R l -> last l = Some x -> y ∈ l -> y = x \/ R y x.
Proof.
  induction 1 as [|a l Hs IH Ha]; [done|]. destruct l as [|b l].
  - intros [= <-]. rewrite list_elem_of_singleton. auto.
  - intros Hl [->|Hy]%elem_of_cons; [|by apply IH].
    right. rewrite Forall_forall in Ha. apply Ha. by apply last_Some_elem_of.
Qed.

(** The records that a scan returns: as many as it takes to reach [max] bytes. *)
Fixpoint limit (bytes max : Z) (rs : list record) : list record :=
  match rs with
  | [] => []
  | r :: rs =>
      if max <=? bytes then []
      else r :: limit (bytes + RecordHandle.len (IndexRecord.handle r)) max rs
  end.

Section scans.
Context {B : BytesApi} {BL : BytesLaws B} {K : KvApi} {KL : KvLaws K}.

Definition stored (db : kv) (r : record) : Prop :=
  record_ok r /\ kv_get db (entry_of r).1 = Some (entry_of r).2.

(** Only [index] writes to the index, so everything in it is an encoded record. *)
Definition index_wf (db : kv) : Prop :=
  forall k v, kv_get db k = Some v -> exists r, record_ok r /\ (k, v) = entry_of r.

Lemma index_wf_new th : index_wf (Indexer.index_cf (Indexer.new th)).
Proof. intros k v. simpl. by rewrite kv_get_empty. Qed.

Lemma index_eq ix r :
  0 <= Indexer.count ix -> Indexer.count ix + 1 < 2 ^ 64 ->
  let b := Indexer.flush_threshold ix <=? Indexer.count ix + 1 in
  Indexer.index ix r =
    Ret (b, Indexer.mk (kv_put (Indexer.index_cf ix) (entry_of r).1 (entry_of r).2)
              (kv_put (Indexer.metadata_cf ix) Indexer.WAL_CHECKPOINT
                 (put_uint 8 (RecordHandle.wal_offset (IndexRecord.handle r))))
              (if b then 0 else Indexer.count ix + 1) (Indexer.flush_threshold ix)).
Proof.
  intros H0 Hc. unfold Indexer.index. simpl. rewrite uint_add_Ret by done. simpl. by case_bool.
Qed.

Lemma index_wf_index ix r b ix' :
  index_wf (Indexer.index_cf ix) -> record_ok r -> Indexer.index ix r = Ret (b, ix') ->
  index_wf (Indexer.index_cf ix').
Proof.
  intros Hwf Hr. unfold Indexer.index. simpl. intros H. inv_ret.
  assert (Indexer.index_cf ix' = kv_put (Indexer.index_cf ix) (entry_of r).1 (entry_of r).2) as ->.
  { case_bool; by inv_ret. }
  intros k v. rewrite kv_get_put. case_decide as Hk; [|apply Hwf].
  intros [= <-]. exists r. split; [done|]. by rewrite Hk.
Qed.

Definition rec_lt (a b : record) : Prop :=
  key_ltb (IndexRecord.index a) (IndexRecord.index b) = true.

Lemma iter_records db lo up :
  index_wf db ->
  exists rs, kv_iter db lo (Some up) = entry_of <$> rs /\ Forall record_ok rs /\
    StronglySorted rec_lt rs /\
    forall r, r ∈ rs <-> stored db r /\ bytes_lt (entry_of r).1 lo = false /\
      bytes_lt (entry_of r).1 up = true.
Proof.
  intros Hwf.
  destruct (forall_fmap_ex entry_of record_ok (kv_iter db lo (Some up))) as (rs & Hrs & Hok).
  { intros [k v] Hin. apply kv_iter_elem in Hin as [Hg _]. apply Hwf in Hg as (r & ? & ?). eauto. }
  exists rs. split_and!; [done|done| |].
  - pose proof (kv_iter_sorted db lo (Some up)) as Hs. rewrite Hrs in Hs. clear Hrs.
    induction rs as [|r rs IH]; [constructor|]. apply Forall_cons in Hok as [Hr Hok].
    csimpl in Hs. apply StronglySorted_cons in Hs as [Hall Hs].
    constructor; [by apply IH|]. rewrite Forall_fmap in Hall. rewrite Forall_forall in *.
    intros x Hx. specialize (Hall _ Hx). simpl in Hall.
    rewrite index_key_lt in Hall by (apply Hr || by apply Hok). done.
  - intros r. split.
    + intros Hin. assert (entry_of r ∈ kv_iter db lo (Some up)) as Hin'.
      { rewrite Hrs. by apply list_elem_of_fmap_2. }
      destruct (entry_of r) as [k v] eqn:He. apply kv_iter_elem in Hin' as (? & ? & ?).
      rewrite Forall_forall in Hok. unfold stored. rewrite He. auto.
    + intros ((Hr & Hg) & Hlo & Hup).
      assert (entry_of r ∈ kv_iter db lo (Some up)) as Hin.
      { destruct (entry_of r) as [k v]. by apply kv_iter_elem. }
      rewrite Hrs in Hin. apply list_elem_of_fmap_1 in Hin as (r' & He & Hr').
      rewrite Forall_forall in Hok. pose proof (decode_entry_ok r Hr) as H1.
      pose proof (decode_entry_ok r' (Hok _ Hr')) as H2.
      change (Indexer.decode_entry (entry_of r) = Ret (Some r)) in H1.
      change (Indexer.decode_entry (entry_of r') = Ret (Some r')) in H2.
      rewrite He in H1. assert (r = r') as -> by congruence. done.
Qed.

(** The records of a range with offsets from [lo] to [hi], in order. *)
Definition slice_of (db : kv) (s r lo hi : Z) (rs : list record) : Prop :=
  StronglySorted (fun a b => IndexRecord.offset a < IndexRecord.offset b) rs /\
  forall x, x ∈ rs <-> stored db x /\ RecordIndex.stream_id (IndexRecord.index x) = s /\
    RecordIndex.range (IndexRecord.index x) = r /\ lo <= IndexRecord.offset x < hi.

Lemma rec_lt_same_range s r rs :
  StronglySorted rec_lt rs ->
  (forall x, x ∈ rs -> RecordIndex.stream_id (IndexRecord.index x) = s /\
     RecordIndex.range (IndexRecord.index x) = r) ->
  StronglySorted (fun a b => IndexRecord.offset a < IndexRecord.offset b) rs.
Proof.
  induction 1 as [|a l Hs IH Ha]; intros Hall; [constructor|]. constructor.
  - apply IH. intros x Hx. apply Hall. set_solver.
  - rewrite Forall_forall in *. intros x Hx. specialize (Ha _ Hx).
    destruct (Hall a) as [Hsa Hra]; [set_solver|]. destruct (Hall x) as [Hsx Hrx]; [set_solver|].
    unfold rec_lt, key_ltb in Ha. rewrite Hsa, Hsx, Hra, Hrx, !Z.ltb_irrefl, !Z.eqb_refl in Ha.
    simpl in Ha. by apply Z.ltb_lt in Ha.
Qed.

Lemma iter_slice db s r lo hi :
  index_wf db -> is_u64 s -> is_u32 r -> is_u64 lo -> is_u64 hi ->
  exists rs, kv_iter db (Indexer.build_index_key s r lo) (Some (Indexer.build_index_key s r hi)) =
      entry_of <$> rs /\ Forall record_ok rs /\ slice_of db s r lo hi rs.
Proof.
  intros Hwf Hs Hr Hlo Hhi.
  destruct (iter_records db (Indexer.build_index_key s r lo) (Indexer.build_index_key s r hi) Hwf)
    as (rs & Heq & Hok & Hsort & Helem).
  assert (Hin : forall x, x ∈ rs <-> stored db x /\ RecordIndex.stream_id (IndexRecord.index x) = s /\
    RecordIndex.range (IndexRecord.index x) = r /\ lo <= IndexRecord.offset x < hi).
  { intros x. rewrite Helem.
    assert (Hlt : forall o, stored db x -> is_u64 o ->
      bytes_lt (entry_of x).1 (Indexer.build_index_key s r o) =
        key_ltb (IndexRecord.index x) (RecordIndex.mk s r o)).
    { intros o [[Hi _] _] Ho. by apply index_key_lt. }
    split; intros (Hst & Hrest); (split; [done|]); rewrite !Hlt in * by done;
      unfold key_ltb, IndexRecord.offset in *; simpl in *; lia. }
  exists rs. split_and!; [done..|]. split; [|done].
  apply (rec_lt_same_range s r); [done|]. intros x Hx. apply Hin in Hx. tauto.
Qed.

Lemma scan_loop_limit rs bytes max :
  Forall record_ok rs -> max + 2 ^ 24 <= 2 ^ 32 ->
  Indexer.scan_loop (entry_of <$> rs) bytes max = Ret (limit bytes max rs).
Proof.
  intros Hok Hmax. revert bytes. induction Hok as [|r rs Hr Hok IH]; intros bytes; [done|].
  csimpl. cbn [Indexer.scan_loop limit]. case_bool; [done|].
  change (Indexer.decode_entry (entry_of r)) with
    (Indexer.decode_entry (RecordIndex.into_bytes (IndexRecord.index r),
       RecordHandle.into_bytes (IndexRecord.handle r))).
  rewrite decode_entry_ok by done. simpl. destruct Hr as [_ (_ & Hl & _)].
  rewrite uint_add_Ret by lia. simpl. by rewrite IH.
Qed.

Definition nonempty (rs : list record) : option (list record) :=
  match rs with [] => None | _ => Some rs end.

Lemma scan_from_slice ix s r lo hi max :
  index_wf (Indexer.index_cf ix) -> is_u64 s -> is_u32 r -> is_u64 lo -> is_u64 hi ->
  max + 2 ^ 24 <= 2 ^ 32 ->
  exists rs, slice_of (Indexer.index_cf ix) s r lo hi rs /\
    Indexer.scan_records_from ix (Indexer.build_index_key s r lo) (Indexer.build_index_key s r hi) max =
      Ret (nonempty (limit 0 max rs)).
Proof.
  intros Hwf Hs Hr Hlo Hhi Hmax.
  destruct (iter_slice _ s r lo hi Hwf Hs Hr Hlo Hhi) as (rs & Heq & Hok & Hsl).
  exists rs. split; [done|]. unfold Indexer.scan_records_from.
  rewrite Heq, scan_loop_limit by done. done.
Qed.

(** C26: [scan_wal_offset] finds the WAL offset of the first record of the range at or after
    the given offset and before the end, and [None] if the range has none there: the byte
    order of the keys is the order of stream, range and offset. *)
Theorem scan_wal_offset_spec ix s r o end_ :
  index_wf (Indexer.index_cf ix) -> is_u64 s -> is_u32 r -> is_u64 o ->
  is_u64 (default (2 ^ 64 - 1) end_) ->
  exists rs, slice_of (Indexer.index_cf ix) s r o (default (2 ^ 64 - 1) end_) rs /\
    Indexer.scan_wal_offset ix s r o end_ =
      Ret ((fun x => RecordHandle.wal_offset (IndexRecord.handle x)) <$> head rs).
Proof.
  intros Hwf Hs Hr Ho He.
  destruct (scan_from_slice ix s r o (default (2 ^ 64 - 1) end_) 1 Hwf Hs Hr Ho He) as (rs & Hsl & Heq);
    [lia|].
  exists rs. split; [done|]. unfold Indexer.scan_wal_offset. rewrite Heq. by destruct rs.
Qed.

(** *** Left shift *)

Lemma last_entry_spec ix lo up :
  index_wf (Indexer.index_cf ix) ->
  exists rs, Indexer.last_entry ix lo up = Ret (last rs) /\ StronglySorted rec_lt rs /\
    forall r, r ∈ rs <-> stored (Indexer.index_cf ix) r /\ bytes_lt (entry_of r).1 lo = false /\
      bytes_lt (entry_of r).1 up = true.
Proof.
  intros Hwf. destruct (iter_records _ lo up Hwf) as (rs & Heq & Hok & Hs & Hin).
  exists rs. split; [|done]. unfold Indexer.last_entry. rewrite Heq, fmap_last.
  destruct (last rs) as [r|] eqn:Hl; [|done]. simpl. apply decode_entry_ok.
  rewrite Forall_forall in Hok. by apply Hok, last_Some_elem_of.
Qed.

Definition in_range (db : kv) (s r : Z) (x : record) : Prop :=
  stored db x /\ RecordIndex.stream_id (IndexRecord.index x) = s /\
  RecordIndex.range (IndexRecord.index x) = r.

(** [best] is the record of the range with the greatest offset among those that satisfy [P]. *)
Definition greatest (db : kv) (s r : Z) (P : Z -> Prop) (best : option record) : Prop :=
  match best with
  | Some x => in_range db s r x /\ P (IndexRecord.offset x) /\
      forall y, in_range db s r y -> P (IndexRecord.offset y) ->
        IndexRecord.offset y <= IndexRecord.offset x
  | None => forall y, in_range db s r y -> ~ P (IndexRecord.offset y)
  end.

Lemma greatest_last db s r P rs :
  StronglySorted rec_lt rs ->
  (forall x, x ∈ rs <-> in_range db s r x /\ P (IndexRecord.offset x)) -> greatest db s r P (last rs).
Proof.
  intros Hs Hin. destruct (last rs) as [x|] eqn:Hl; simpl.
  - assert (x ∈ rs) as Hx by by apply last_Some_elem_of. apply Hin in Hx as Hx'. split_and!; [apply Hx'..|].
    intros y Hy HP. assert (y ∈ rs) as Hyr by by apply Hin.
    assert (StronglySorted (fun a b => IndexRecord.offset a < IndexRecord.offset b) rs) as Hs'.
    { apply (rec_lt_same_range s r); [done|]. intros z Hz. apply Hin in Hz as [(_ & ? & ?) _]. done. }
    destruct (sorted_last _ _ _ _ Hs' Hl Hyr) as [->|?]; lia.
  - intros y Hy HP. apply last_None in Hl as ->. assert (y ∈ []) as Hn by by apply Hin.
    by apply not_elem_of_nil in Hn.
Qed.

Lemma retrieve_max_key_spec ix s r :
  index_wf (Indexer.index_cf ix) -> is_u64 s -> is_u32 (r + 1) -> 0 <= r ->
  exists best, Indexer.retrieve_max_key ix s r = Ret best /\
    greatest (Indexer.index_cf ix) s r (fun _ => True) best.
Proof.
  intros Hwf Hs Hr1 Hr0. assert (is_u32 r) as Hr by (unfold is_uint in *; lia).
  unfold Indexer.retrieve_max_key. rewrite uint_add_Ret by apply Hr1. simpl.
  destruct (last_entry_spec ix (put_uint 8 s ++ put_uint 4 r) (put_uint 8 s ++ put_uint 4 (r + 1)) Hwf)
    as (rs & -> & Hsort & Hin).
  eexists. split; [done|]. apply greatest_last; [done|]. intros x. rewrite Hin. unfold in_range.
  assert (Hlt : forall q, stored (Indexer.index_cf ix) x -> is_u32 q ->
    bytes_lt (entry_of x).1 (put_uint 8 s ++ put_uint 4 q) =
      ((RecordIndex.stream_id (IndexRecord.index x) <? s) ||
       ((RecordIndex.stream_id (IndexRecord.index x) =? s) &&
        (RecordIndex.range (IndexRecord.index x) <? q)))).
  { intros q [[Hi _] _] Hq. by apply index_prefix_lt. }
  split; [intros (Hst & Hrest)|intros ((Hst & Hrest) & _)]; rewrite !Hlt in * by done;
    split_and!; try done; lia.
Qed.

Lemma retrieve_left_key_spec ix s r o :
  index_wf (Indexer.index_cf ix) -> is_u64 s -> is_u32 (r + 1) -> 0 <= r -> is_u64 o ->
  exists best, Indexer.retrieve_left_key ix s r o = Ret best /\
    ((exists y, in_range (Indexer.index_cf ix) s r y /\ o <= IndexRecord.offset y) ->
       greatest (Indexer.index_cf ix) s r (fun x => x <= o) best) /\
    ((forall y, in_range (Indexer.index_cf ix) s r y -> IndexRecord.offset y < o) -> best = None) /\
    (forall x, best = Some x -> in_range (Indexer.index_cf ix) s r x).
Proof.
  intros Hwf Hs Hr1 Hr0 Ho. assert (is_u32 r) as Hr by (unfold is_uint in *; lia).
  unfold Indexer.retrieve_left_key.
  destruct (retrieve_max_key_spec ix s r Hwf Hs Hr1 Hr0) as ([x|] & -> & Hmax); simpl in *; cycle 1.
  { exists None. split_and!; [done| |done..]. intros (y & Hy & _). by destruct (Hmax _ Hy). }
  destruct Hmax as (Hx & _ & Hmax). pose proof Hx as ((([_ [_ Hxo]] & _) & _) & _).
  fold (IndexRecord.offset x) in Hxo.
  destruct (Z.ltb_spec (IndexRecord.offset x) o) as [Hlt|Hge].
  { exists None. split_and!; [done| |done..]. intros (y & Hy & Hoy). specialize (Hmax _ Hy I). lia. }
  assert (Hno : (forall y, in_range (Indexer.index_cf ix) s r y -> IndexRecord.offset y < o) -> False).
  { intros Hall. specialize (Hall _ Hx). lia. }
  destruct (Z.eqb_spec o (IndexRecord.offset x)) as [->|Hne].
  { exists (Some x). split_and!; [done| |by intros ?%Hno|by intros ? [= <-]]. intros _. simpl. split_and!; [done|lia|].
    intros y Hy Hle. by apply Hmax. }
  unfold is_uint in Hxo, Ho. rewrite uint_add_Ret by lia. simpl.
  destruct (iter_slice (Indexer.index_cf ix) s r 0 (o + 1) Hwf Hs Hr) as (rs & Heq & Hok & Hso & Hsl);
    [unfold is_uint; lia..|].
  unfold Indexer.last_entry. rewrite Heq, fmap_last. exists (last rs).
  assert (greatest (Indexer.index_cf ix) s r (fun z => z <= o) (last rs)) as Hg.
  { destruct (last rs) as [y|] eqn:Hl; simpl.
    - assert (y ∈ rs) as (? & ? & ? & ?)%Hsl by by apply last_Some_elem_of.
      split_and!; [done..|lia|]. intros z (Hz & Hzs & Hzr) Hle.
      assert (z ∈ rs) as Hzin. { apply Hsl. pose proof Hz as [[(_ & _ & Hu) _] _]. unfold is_uint, IndexRecord.offset in *. split_and!; (done || lia). }
      destruct (sorted_last _ _ _ _ Hso Hl Hzin) as [->|?]; lia.
    - intros z (Hz & Hzs & Hzr) Hle. apply last_None in Hl as ->.
      assert (z ∈ []) as Hn. { apply Hsl. pose proof Hz as [[(_ & _ & Hu) _] _]. unfold is_uint, IndexRecord.offset in *. split_and!; (done || lia). }
      by apply not_elem_of_nil in Hn. }
  split_and!; [|done|by intros ?%Hno|].
  - destruct (last rs) as [y|] eqn:Hl; [|done]. apply decode_entry_ok.
    rewrite Forall_forall in Hok. by apply Hok, last_Some_elem_of.
  - intros y Hl. assert (y ∈ rs) as (? & ? & ? & _)%Hsl by by apply last_Some_elem_of. done.
Qed.

Lemma left_shift_slice ix s r o hi max :
  index_wf (Indexer.index_cf ix) -> is_u64 (s + 1) -> 0 <= s -> is_u32 (r + 1) -> 0 <= r ->
  is_u64 o -> is_u64 hi -> max + 2 ^ 24 <= 2 ^ 32 ->
  exists best rs,
    slice_of (Indexer.index_cf ix) s r (default o (IndexRecord.offset <$> best)) hi rs /\
    Indexer.scan_record_left_shift ix s r o hi max = Ret (nonempty (limit 0 max rs)) /\
    ((exists y, in_range (Indexer.index_cf ix) s r y /\ o <= IndexRecord.offset y) ->
       greatest (Indexer.index_cf ix) s r (fun x => x <= o) best) /\
    ((forall y, in_range (Indexer.index_cf ix) s r y -> IndexRecord.offset y < o) -> best = None).
Proof.
  intros Hwf Hs1 Hs0 Hr1 Hr0 Ho Hhi Hmax.
  assert (is_u64 s) as Hs by (unfold is_uint in *; lia).
  assert (is_u32 r) as Hr by (unfold is_uint in *; lia).
  unfold Indexer.scan_record_left_shift.
  destruct (retrieve_left_key_spec ix s r o Hwf Hs Hr1 Hr0 Ho) as (best & -> & Hg & Hnone & Hbest). simpl.
  rewrite uint_add_Ret by apply Hs1. simpl.
  assert (is_u64 (default o (IndexRecord.offset <$> best)) /\ match best with
    | Some entry => RecordIndex.into_bytes (IndexRecord.index entry)
    | None => Indexer.build_index_key s r o
    end = Indexer.build_index_key s r (default o (IndexRecord.offset <$> best))) as [Hlo ->].
  { destruct best as [x|]; [|done]. destruct (Hbest x eq_refl) as (((Hi & _) & _) & <- & <-).
    split; [apply Hi|]. simpl. unfold Indexer.build_index_key, IndexRecord.offset.
    by destruct (IndexRecord.index x). }
  destruct (scan_from_slice ix s r _ hi max Hwf Hs Hr Hlo Hhi Hmax) as (rs & Hsl & Heq).
  exists best, rs. done.
Qed.

(** [scan_record_left_shift] returns, in offset order and up to the byte budget, the
    records of the range from the batch that contains the offset on and before the maximum:
    when the range has a record at or after the offset, the scan starts at the last record
    at or before the offset, or at the offset if there is none. *)
Theorem scan_left_shift_spec ix s r o hi max :
  index_wf (Indexer.index_cf ix) -> is_u64 (s + 1) -> 0 <= s -> is_u32 (r + 1) -> 0 <= r ->
  is_u64 o -> is_u64 hi -> max + 2 ^ 24 <= 2 ^ 32 ->
  (exists y, in_range (Indexer.index_cf ix) s r y /\ o <= IndexRecord.offset y) ->
  exists best rs, greatest (Indexer.index_cf ix) s r (fun x => x <= o) best /\
    slice_of (Indexer.index_cf ix) s r (default o (IndexRecord.offset <$> best)) hi rs /\
    Indexer.scan_record_left_shift ix s r o hi max = Ret (nonempty (limit 0 max rs)).
Proof.
  intros Hwf Hs1 Hs0 Hr1 Hr0 Ho Hhi Hmax Hy.
  destruct (left_shift_slice ix s r o hi max) as (best & rs & ? & ? & Hg & _); [done..|].
  exists best, rs. auto.
Qed.

(** The last batch of a range is not found from within.  When the offset lies beyond the
    base offset of every record, so also when it lies inside the last batch, the scan is not
    shifted to the left and finds nothing. *)
Theorem scan_misses_last_batch ix s r o hi max :
  index_wf (Indexer.index_cf ix) -> is_u64 (s + 1) -> 0 <= s -> is_u32 (r + 1) -> 0 <= r ->
  is_u64 o -> is_u64 hi -> max + 2 ^ 24 <= 2 ^ 32 ->
  (forall y, in_range (Indexer.index_cf ix) s r y -> IndexRecord.offset y < o) ->
  Indexer.scan_record_left_shift ix s r o hi max = Ret None.
Proof.
  intros Hwf Hs1 Hs0 Hr1 Hr0 Ho Hhi Hmax Hall.
  destruct (left_shift_slice ix s r o hi max) as (best & rs & [_ Hsl] & -> & _ & Hnone); [done..|].
  rewrite (Hnone Hall) in Hsl. simpl in Hsl. destruct rs as [|x rs]; [done|].
  destruct (proj1 (Hsl x)) as (Hx & Hxs & Hxr & Hxo); [set_solver|].
  specialize (Hall x (conj Hx (conj Hxs Hxr))). lia.
Qed.

(** ** Checkpoint *)

(** Indexing a record always succeeds (the counter of records since the last flush does not
    overflow).  The record becomes the one stored under its key, every other key is left as
    it was, so the index stays well-formed, and the WAL checkpoint moves to the record's WAL
    offset; a flush is triggered, and the counter reset, at every [flush_threshold]-th
    record. *)
Theorem index_stores ix r :
  index_wf (Indexer.index_cf ix) -> record_ok r ->
  0 <= Indexer.count ix -> Indexer.count ix + 1 < 2 ^ 64 ->
  exists b ix', Indexer.index ix r = Ret (b, ix') /\
    index_wf (Indexer.index_cf ix') /\ stored (Indexer.index_cf ix') r /\
    (forall k, k <> RecordIndex.into_bytes (IndexRecord.index r) ->
       kv_get (Indexer.index_cf ix') k = kv_get (Indexer.index_cf ix) k) /\
    Indexer.get_wal_checkpoint ix' = Ret (Ok (RecordHandle.wal_offset (IndexRecord.handle r))) /\
    (b = true <-> Indexer.flush_threshold ix <= Indexer.count ix + 1) /\
    Indexer.count ix' = if b then 0 else Indexer.count ix + 1.
Proof.
  intros Hwf Hr H0 Hc. eexists _, _. split; [by apply index_eq|]. split_and!.
  - eapply index_wf_index; [exact Hwf|exact Hr|by apply index_eq].
  - split; [done|]. simpl. by rewrite kv_get_put, decide_True.
  - intros k Hk. simpl. by rewrite kv_get_put, decide_False.
  - unfold Indexer.get_wal_checkpoint. simpl. rewrite kv_get_put, decide_True by done.
    rewrite (proj2 (Nat.ltb_ge _ _)) by (rewrite length_put_uint; lia).
    destruct Hr as [_ (Hw & _)].
    rewrite <- (app_nil_r (put_uint 8 _)), get_put by done. done.
  - apply Z.leb_le.
  - done.
Qed.

(** ** Compaction *)

(** The compaction filter of the index removes no index entry, whatever the minimum WAL
    offset: it looks for keys of 8 bytes, and the keys of the index have 20. *)
Lemma index_filter_keeps_all (min_offset : Z) (r : record) :
  Compaction.index_filter min_offset (entry_of r).1 (entry_of r).2 = Ret Compaction.Keep.
Proof. unfold Compaction.index_filter. simpl. by rewrite length_index_bytes. Qed.
End scans.

(** ** Witnesses *)

(** An ordered key-value store: a finite map whose entries are sorted when it is iterated. *)

Lemma bytes_lt_irrefl a : bytes_lt a a = false.
Proof. induction a as [|x a IH]; [done|]. simpl. by rewrite Z.ltb_irrefl, Z.eqb_refl, IH. Qed.

Lemma bytes_lt_trans a b c : bytes_lt a b = true -> bytes_lt b c = true -> bytes_lt a c = true.
Proof.
  revert b c. induction a as [|x a IH]; intros [|y b] [|z c]; simpl; try done.
  rewrite !orb_true_iff, !andb_true_iff, !Z.ltb_lt, !Z.eqb_eq.
  intros [?|[? ?]] [?|[? ?]]; try (left; lia). right. split; [lia|by eapply IH].
Qed.

Lemma bytes_lt_total a b : bytes_lt a b = true \/ a = b \/ bytes_lt b a = true.
Proof.
  revert b. induction a as [|x a IH]; intros [|y b]; simpl; auto.
  rewrite !orb_true_iff, !andb_true_iff, !Z.ltb_lt, !Z.eqb_eq.
  destruct (Z.lt_trichotomy (byte.unsigned x) (byte.unsigned y)) as [?|[Heq|?]]; auto.
  apply byte.unsigned_inj in Heq as ->. destruct (IH b) as [?|[->|?]]; auto.
Qed.

Definition entry_le (a b : list byte * list byte) : Prop := bytes_lt b.1 a.1 = false.
#[export] Instance entry_le_dec a b : Decision (entry_le a b).
Proof. unfold entry_le. apply _. Defined.

Lemma bytes_le_iff a b : bytes_lt b a = false <-> bytes_lt a b = true \/ a = b.
Proof.
  split.
  - intros H. destruct (bytes_lt_total a b) as [?|[?|?]]; auto. congruence.
  - intros [H| ->]; [|apply bytes_lt_irrefl]. destruct (bytes_lt b a) eqn:E; [|done].
    pose proof (bytes_lt_trans _ _ _ H E) as Hc. by rewrite bytes_lt_irrefl in Hc.
Qed.

#[export] Instance entry_le_trans : Transitive entry_le.
Proof.
  intros a b c. unfold entry_le. rewrite !bytes_le_iff.
  intros [?|E1] [?|E2]; rewrite ?E1, <- ?E2; auto. left. by eapply bytes_lt_trans.
Qed.
#[export] Instance entry_le_total : Total entry_le.
Proof.
  intros a b. unfold entry_le. rewrite !bytes_le_iff.
  destruct (bytes_lt_total a.1 b.1) as [?|[->|?]]; auto.
Qed.

#[export] Instance byte_countable : Countable byte.
Proof.
  refine (inj_countable Stdlib.Strings.Byte.to_N Stdlib.Strings.Byte.of_N _).
  intros b. apply Stdlib.Strings.Byte.of_to_N.
Defined.

Definition in_bounds (lo : list byte) (up : option (list byte)) (e : list byte * list byte) : bool :=
  negb (bytes_lt e.1 lo) && match up with Some u => bytes_lt e.1 u | None => true end.

#[export] Instance gmap_kv : KvApi := {|
  kv := gmap (list byte) (list byte);
  kv_empty := ∅;
  kv_get db k := db !! k;
  kv_put db k v := <[k := v]> db;
  kv_iter db lo up := merge_sort entry_le (List.filter (in_bounds lo up) (map_to_list db));
|}.

Lemma sorted_entries l :
  StronglySorted entry_le l -> NoDup l.*1 -> StronglySorted (fun a b => bytes_lt a.1 b.1 = true) l.
Proof.
  induction 1 as [|x l Hs IH Hx]; [constructor|]. csimpl. intros [Hnx Hnd]%NoDup_cons.
  constructor; [by auto|]. rewrite Forall_forall in *. intros y Hy. specialize (Hx _ Hy).
  apply bytes_le_iff in Hx as [?|Heq]; [done|]. destruct Hnx. rewrite Heq.
  by apply list_elem_of_fmap_2.
Qed.

#[export] Instance gmap_kv_laws : KvLaws gmap_kv.
Proof.
  constructor; simpl.
  - intros k. apply lookup_empty.
  - intros db k v k'. case_decide; subst; [by rewrite lookup_insert_eq|by rewrite lookup_insert_ne].
  - intros db lo up. apply sorted_entries; [apply StronglySorted_merge_sort; apply _|].
    rewrite merge_sort_Permutation. pose proof (NoDup_fst_map_to_list db) as Hnd.
    induction (map_to_list db) as [|e l IH]; [constructor|]. csimpl in Hnd.
    apply NoDup_cons in Hnd as [Hn Hnd]. simpl. destruct (in_bounds lo up e); [|by auto].
    csimpl. constructor; [|by auto]. intros (e' & Heq & Hin)%list_elem_of_fmap_1. apply Hn.
    rewrite Heq. apply list_elem_of_fmap_2. apply list_elem_of_In, List.filter_In in Hin as [Hin _].
    by apply list_elem_of_In.
  - intros db lo up k v. rewrite merge_sort_Permutation, list_elem_of_In, List.filter_In.
    rewrite <- list_elem_of_In, elem_of_map_to_list. unfold in_bounds. simpl.
    rewrite andb_true_iff, negb_true_iff. destruct up; tauto.
Qed.

Module IndexExample.
Definition rec (o wal : Z) (n : Z) : record :=
  IndexRecord.mk (RecordIndex.mk 7 0 o) (RecordHandle.mk wal 128 (HandleExt.BatchSize n)).
(** Batches of ten records at 10, 20 and 30. *)
Definition step (ix : Indexer.t gmap_kv) (r : record) : Indexer.t gmap_kv :=
  match Indexer.index ix r with Ret (_, ix) => ix | Panic => ix end.
Definition ix : Indexer.t gmap_kv :=
  foldl step (Indexer.new 1000) [rec 10 128 10; rec 20 256 10; rec 30 384 10].

Lemma rec_ok o wal n : is_u64 o -> is_u64 wal -> is_u32 n -> record_ok (rec o wal n).
Proof. intros. by split_and!. Qed.

Lemma step_wf ix r : index_wf (Indexer.index_cf ix) -> record_ok r -> index_wf (Indexer.index_cf (step ix r)).
Proof.
  intros Hwf Hr. unfold step. destruct (Indexer.index ix r) as [[b ix']|] eqn:Hi; [|done].
  by eapply index_wf_index.
Qed.

Lemma ix_wf : index_wf (Indexer.index_cf ix).
Proof.
  unfold ix. simpl foldl. do 3 (apply step_wf; [|by apply rec_ok]). apply index_wf_new.
Qed.

Lemma step_stored ix r y :
  record_ok r -> stored (Indexer.index_cf (step ix r)) y ->
  IndexRecord.offset y = IndexRecord.offset r \/ stored (Indexer.index_cf ix) y.
Proof.
  intros Hr [Hy Hg]. unfold step in Hg. destruct (Indexer.index ix r) as [[b ix']|] eqn:Hi; [|by right].
  assert (Indexer.index_cf ix' = kv_put (Indexer.index_cf ix) (entry_of r).1 (entry_of r).2) as Hcf.
  { revert Hi. unfold Indexer.index. simpl. intros Hi. inv_ret. case_bool; by inv_ret. }
  rewrite Hcf, kv_get_put in Hg. case_decide as Hk; [left|by right].
  pose proof (record_index_decode _ (proj1 Hy)) as H1.
  pose proof (record_index_decode _ (proj1 Hr)) as H2. simpl in Hk. rewrite Hk in H1.
  rewrite H1 in H2. injection H2 as H2. unfold IndexRecord.offset. congruence.
Qed.

Lemma ix_records y : in_range (Indexer.index_cf ix) 7 0 y -> IndexRecord.offset y <= 30.
Proof.
  intros (Hst & _). unfold ix in Hst. simpl foldl in Hst.
  apply step_stored in Hst as [->|Hst]; [done| |by apply rec_ok].
  apply step_stored in Hst as [->|Hst]; [done| |by apply rec_ok].
  apply step_stored in Hst as [->|[_ Hst]]; [done| |by apply rec_ok].
  simpl in Hst. by rewrite lookup_empty in Hst.
Qed.

Lemma step_stores ix r :
  record_ok r -> Indexer.count ix + 1 < 2 ^ 64 -> stored (Indexer.index_cf (step ix r)) r.
Proof.
  intros Hr Hc. split; [done|].
  assert (Indexer.index_cf (step ix r) = kv_put (Indexer.index_cf ix) (entry_of r).1 (entry_of r).2) as ->.
  { unfold step, Indexer.index. simpl. rewrite uint_add_Ret by done. simpl. by case_bool. }
  by rewrite kv_get_put, decide_True.
Qed.

Lemma ix_last : in_range (Indexer.index_cf ix) 7 0 (rec 30 384 10).
Proof.
  split; [|done]. unfold ix. cbn [foldl]. apply step_stores; [by apply rec_ok|by vm_compute].
Qed.

End IndexExample.

Lemma record_type_roundtrip_witness :
  RecordType.parse (RecordType.with_length RecordType.Full 128) = Some (128, RecordType.Full).
Proof. apply (record_type_roundtrip RecordType.Full 128). lia. Defined.

Lemma index_entry_roundtrip_witness :
  RecordIndex.try_from (RecordIndex.into_bytes (RecordIndex.mk 7 0 10)) =
    Ret (Some (RecordIndex.mk 7 0 10)).
Proof.
  apply (index_entry_roundtrip (RecordIndex.mk 7 0 10) (RecordHandle.mk 1 2 (HandleExt.Hash 3)));
    by split_and!.
Defined.

Lemma scan_wal_offset_spec_witness :
  exists rs, slice_of (Indexer.index_cf IndexExample.ix) 7 0 15 (2 ^ 64 - 1) rs /\
    Indexer.scan_wal_offset IndexExample.ix 7 0 15 None =
      Ret ((fun x => RecordHandle.wal_offset (IndexRecord.handle x)) <$> head rs).
Proof.
  apply (scan_wal_offset_spec IndexExample.ix 7 0 15 None IndexExample.ix_wf); done.
Defined.

Lemma scan_left_shift_spec_witness :
  exists best rs, greatest (Indexer.index_cf IndexExample.ix) 7 0 (fun x => x <= 15) best /\
    slice_of (Indexer.index_cf IndexExample.ix) 7 0 (default 15 (IndexRecord.offset <$> best)) 40 rs /\
    Indexer.scan_record_left_shift IndexExample.ix 7 0 15 40 256 = Ret (nonempty (limit 0 256 rs)).
Proof.
  apply (scan_left_shift_spec IndexExample.ix 7 0 15 40 256 IndexExample.ix_wf); [done..|].
  exists (IndexExample.rec 30 384 10). split; [exact IndexExample.ix_last|done].
Defined.

(** The record at offset 35 is stored, in the batch from 30 to 40. *)
Lemma scan_misses_last_batch_witness :
  Indexer.scan_record_left_shift IndexExample.ix 7 0 35 100 256 = Ret None.
Proof.
  apply (scan_misses_last_batch IndexExample.ix 7 0 35 100 256 IndexExample.ix_wf); [done..|].
  intros y Hy%IndexExample.ix_records. lia.
Defined.

Lemma index_stores_witness :
  exists b ix', Indexer.index IndexExample.ix (IndexExample.rec 40 512 10) = Ret (b, ix') /\
    Indexer.get_wal_checkpoint ix' = Ret (Ok 512).
Proof.
  destruct (index_stores IndexExample.ix (IndexExample.rec 40 512 10) IndexExample.ix_wf)
    as (b & ix' & Hi & _ & _ & _ & Hcp & _);
    [by apply IndexExample.rec_ok|by vm_compute|by vm_compute|].
  exists b, ix'. exact (conj Hi Hcp).
Defined.

Lemma index_filter_keeps_all_witness :
  Compaction.index_filter 1000 (entry_of (IndexExample.rec 10 128 10)).1
    (entry_of (IndexExample.rec 10 128 10)).2 = Ret Compaction.Keep.
Proof. exact (index_filter_keeps_all 1000 (IndexExample.rec 10 128 10)). Defined.
