(* ===== verification/AlignedBuf.v ===== *)
(** * Aligned buffers and their writer

    [components/store/src/io/buf]: the block-aligned buffers of direct I/O
    ([aligned_buf.rs], [aligned_buf_reader.rs]) and the writer that cuts the byte stream of the
    log into them ([aligned_buf_writer.rs]).

    A buffer is shared through an [Arc] by the writer, the I/O in flight and the block cache,
    and only ever extended: [Module AlignedBufWriter] holds the current value of the buffers it
    owns, and [take] hands out their value at that time. *)

From S2P Require Import Prelude Bytes StoreTypes.

(** ** [aligned_buf.rs] *)

Module AlignedBuf.
Record t := mk {
  wal_offset : Z;              (* u64 *)
  buf : list byte;             (* all [capacity] bytes *)
  capacity : Z;                (* usize *)
  limit : Z;                   (* usize: the bytes before it are valid *)
}.

Definition is_power_of_two (n : Z) : bool := (0 <? n) && (Z.land n (n - 1) =? 0).

(** [Layout::from_size_align] refuses an alignment that is not a power of two, and a size
    that exceeds [isize::MAX] when rounded up to the alignment. *)
Definition new (wal_offset len alignment : Z) : outcome (result t StoreError.t) :=
  n ← usize_add len alignment;
  n ← uint_sub n 1;
  q ← uint_div n alignment;
  capacity ← uint_mul 64 q alignment;
  Ret (if is_power_of_two alignment && (capacity <=? 2 ^ 63 - alignment)
       then Ok (mk wal_offset (replicate (Z.to_nat capacity) Byte.x00) capacity 0)
       else Err StoreError.MemoryAlignment).

Definition set_limit (b : t) (l : Z) : t := mk (wal_offset b) (buf b) (capacity b) l.

Definition covers (b : t) (offset len : Z) : outcome bool :=
  if wal_offset b <=? offset then
    to ← u64_add offset len;
    end_ ← u64_add (wal_offset b) (limit b);
    Ret (to <=? end_)
  else Ret false.

Definition covers_partial (b : t) (offset len : Z) : outcome bool :=
  to ← u64_add offset len;
  if wal_offset b <? to then
    end_ ← u64_add (wal_offset b) (limit b);
    Ret (offset <? end_)
  else Ret false.

(** [slice(start..end)]. *)
Definition slice (b : t) (start end_ : Z) : outcome (list byte) := Bytes.slice (buf b) start end_.

(** [slice_mut(..data.len()).copy_from_slice(data)]. *)
Definition fill (b : t) (data : list byte) : outcome t :=
  if remaining data <=? remaining (buf b)
  then Ret (mk (wal_offset b) (overwrite (buf b) 0 data) (capacity b) (limit b)) else Panic.

(** The addition to the atomic [limit] wraps. *)
Definition write_buf (b : t) (data : list byte) : outcome (bool * t) :=
  to ← usize_add (limit b) (Bytes.remaining data);
  Ret (if capacity b <? to then (false, b)
       else (true, mk (wal_offset b) (overwrite (buf b) (limit b) data) (capacity b)
                      (as_uint 64 (limit b + Bytes.remaining data)))).

Definition increase_written (b : t) (len : Z) : t := set_limit b (as_uint 64 (limit b + len)).

Definition remaining (b : t) : outcome Z := uint_sub (capacity b) (limit b).

Definition partial (b : t) : bool := (0 <? limit b) && (limit b <? capacity b).
Definition has_data (b : t) : bool := 0 <? limit b.

(** The valid bytes. *)
Definition data (b : t) : list byte := take (Z.to_nat (limit b)) (buf b).
End AlignedBuf.
Abbreviation abuf := AlignedBuf.t.

(** ** [aligned_buf_reader.rs] *)

Definition alloc_read_buf (wal_offset len alignment : Z) : outcome (result abuf StoreError.t) :=
  q ← uint_div wal_offset alignment;
  from ← uint_mul 64 q alignment;
  n ← u64_add wal_offset len;
  n ← u64_add n alignment;
  n ← uint_sub n 1;
  q ← uint_div n alignment;
  to ← uint_mul 64 q alignment;
  n ← uint_sub to from;
  AlignedBuf.new from n alignment.

(** ** [aligned_buf_writer.rs] *)

Module AlignedBufWriter.
Record t := mk {
  cursor : Z;                  (* u64 *)
  alignment : Z;               (* usize *)
  full : list abuf;
  current : option abuf;
  allocated : list abuf;       (* VecDeque *)
  buffering : bool;
}.

Definition new (cursor alignment : Z) : t := mk cursor alignment [] None [] false.

Definition set_current (w : t) (b : abuf) : t :=
  mk (cursor w) (alignment w) (full w) (Some b) (allocated w) (buffering w).
Definition push_allocated (w : t) (b : abuf) : t :=
  mk (cursor w) (alignment w) (full w) (current w) (allocated w ++ [b]) (buffering w).

Definition reset_cursor (w : t) (c : Z) : t :=
  mk c (alignment w) (full w) (current w) (allocated w) (buffering w).
Definition rebase_buf (w : t) (b : abuf) : t := set_current w b.

Definition max_allocated_wal_offset (w : t) : outcome Z :=
  match last (allocated w) with
  | Some b => u64_add (AlignedBuf.wal_offset b) (AlignedBuf.capacity b)
  | None =>
      match current w with
      | Some b => u64_add (AlignedBuf.wal_offset b) (AlignedBuf.capacity b)
      | None => Ret (cursor w)
      end
  end.

(** Allocate [size] bytes at [offset]; returns the offset after them. *)
Definition allocate (w : t) (offset size : Z) : outcome (result Z StoreError.t * t) :=
  res ← AlignedBuf.new offset size (alignment w);
  match res with
  | Err e => Ret (Err e, w)
  | Ok b =>
      offset ← u64_add offset (AlignedBuf.capacity b);
      Ret (Ok offset, push_allocated w b)
  end.

Definition reserve_to (w : t) (wal_offset file_size : Z) : outcome (result unit StoreError.t * t) :=
  max_allocated ← max_allocated_wal_offset w;
  if wal_offset <=? max_allocated then Ret (Ok (), w)
  else
  prev_segment_file_index ← uint_div max_allocated file_size;
  last ← uint_sub wal_offset 1;
  segment_file_index ← uint_div last file_size;
  if negb (prev_segment_file_index =? segment_file_index) then Panic
  else
  additional ← uint_sub wal_offset max_allocated;
  '(res, w) ←
    (if alignment w <=? additional then
       q ← uint_div additional (alignment w);
       size ← uint_mul 64 q (alignment w);
       allocate w max_allocated size
     else Ret (Ok max_allocated, w));
  match res with
  | Err e => Ret (Err e, w)
  | Ok offset =>
      r ← uint_rem additional (alignment w);
      if negb (r =? 0) then
        '(res, w) ← allocate w offset (alignment w);
        match res with
        | Err e => Ret (Err e, w)
        | Ok _ => Ret (Ok (), w)
        end
      else Ret (Ok (), w)
  end.

Definition swap (w : t) : result unit StoreError.t * t :=
  match allocated w with
  | b :: rest =>
      (Ok (),
       mk (cursor w) (alignment w)
          (match current w with Some prev => full w ++ [prev] | None => full w end)
          (Some b) rest (buffering w))
  | [] => (Err StoreError.OutOfMemory, w)
  end.

(** The loop of [write]; every iteration but the last takes a buffer from [allocated]. *)
Fixpoint write_loop (fuel : nat) (w : t) (data : list byte) (pos : Z)
    : outcome (result unit StoreError.t * t) :=
  match fuel with
  | O => Panic
  | S fuel =>
      match current w with
      | Some b =>
          r ← AlignedBuf.remaining b;
          left ← uint_sub (remaining data) pos;
          _ ← u64_add (cursor w) pos;
          if left <=? r then
            chunk ← slice data pos (remaining data);
            '(_, b) ← AlignedBuf.write_buf b chunk;
            Ret (Ok (), set_current w b)
          else
            chunk ← slice data pos (pos + r);
            '(_, b) ← AlignedBuf.write_buf b chunk;
            match swap (set_current w b) with
            | (Ok _, w) => write_loop fuel w data (pos + r)
            | (Err e, w) => Ret (Err e, w)
            end
      | None =>
          match swap w with
          | (Ok _, w) => write_loop fuel w data pos
          | (Err e, w) => Ret (Err e, w)
          end
      end
  end.

Definition write (w : t) (data : list byte) : outcome (result unit StoreError.t * t) :=
  '(res, w) ← write_loop (S (length (allocated w))) w data 0;
  match res with
  | Err e => Ret (Err e, w)
  | Ok _ =>
      cursor ← u64_add (cursor w) (remaining data);
      Ret (Ok (), mk cursor (alignment w) (full w) (current w) (allocated w) true)
  end.

Definition write_u32 (w : t) (value : Z) : outcome (result unit StoreError.t * t) :=
  write w (be_encode 4 value).
Definition write_u64 (w : t) (value : Z) : outcome (result unit StoreError.t * t) :=
  write w (be_encode 8 value).

(** [extract_if] visits every full buffer and takes the first [slots]. *)
Definition take (w : t) (slots : nat) : list abuf * t :=
  let taken := length (full w) in
  let items := firstn slots (full w) in
  let full' := drop slots (full w) in
  if (taken <? slots)%nat then
    (items ++ match current w with
              | Some b => if AlignedBuf.has_data b then [b] else []
              | None => []
              end,
     mk (cursor w) (alignment w) full' (current w) (allocated w) false)
  else
    (items,
     mk (cursor w) (alignment w) full' (current w) (allocated w)
        (match full' with
         | [] => 0 <? match current w with Some b => AlignedBuf.limit b | None => 0 end
         | _ => buffering w
         end)).

Fixpoint sum_remaining (acc : Z) (l : list abuf) : outcome Z :=
  match l with
  | [] => Ret acc
  | b :: l => r ← AlignedBuf.remaining b; acc ← usize_add acc r; sum_remaining acc l
  end.

Definition remaining (w : t) : outcome Z :=
  r ← match current w with Some b => AlignedBuf.remaining b | None => Ret 0 end;
  s ← sum_remaining 0 (allocated w);
  usize_add r s.
End AlignedBufWriter.

(** ** Invariant of the writer *)

Section writer.
Import AlignedBuf.

Definition buf_ok (b : abuf) : Prop :=
  Bytes.remaining (buf b) = capacity b /\ 0 <= limit b <= capacity b /\ 0 < capacity b.

(** The buffers cover the log from [a] to [z], in whole blocks. *)
Fixpoint chain (al a : Z) (l : list abuf) (z : Z) : Prop :=
  match l with
  | [] => a = z
  | b :: l => wal_offset b = a /\ buf_ok b /\ (al | capacity b) /\ chain al (a + capacity b) l z
  end.

Lemma chain_app al a l1 l2 z :
  chain al a (l1 ++ l2) z <-> exists m, chain al a l1 m /\ chain al m l2 z.
Proof.
  revert a. induction l1 as [|b l1 IH]; intros a; simpl.
  - split; [by exists a|]. by intros (m & -> & ?).
  - rewrite IH. naive_solver.
Qed.

Lemma chain_le al a l z : chain al a l z -> a <= z.
Proof.
  revert a. induction l as [|b l IH]; intros a; simpl; [lia|].
  intros (_ & (? & ? & ?) & _ & Hc%IH). lia.
Qed.

Lemma chain_lt al a b l z : chain al a (b :: l) z -> a < z.
Proof. intros (_ & (? & ? & ?) & _ & Hc%chain_le). lia. Qed.

(** [w] holds the buffers for the log from [a] to [z], filled up to [c]. *)
Record writer_at (w : AlignedBufWriter.t) (a z c : Z) : Prop := {
  wa_chain : chain (AlignedBufWriter.alignment w) a
    (AlignedBufWriter.full w ++ option_list (AlignedBufWriter.current w) ++ AlignedBufWriter.allocated w) z;
  wa_full : Forall (fun b => limit b = capacity b) (AlignedBufWriter.full w);
  wa_allocated : Forall (fun b => limit b = 0) (AlignedBufWriter.allocated w);
  wa_cursor :
    match AlignedBufWriter.current w with
    | Some b => c = wal_offset b + limit b
    | None => AlignedBufWriter.full w = [] /\ c = a
    end;
  wa_align : is_power_of_two (AlignedBufWriter.alignment w) = true;
  wa_base : 0 <= a /\ (AlignedBufWriter.alignment w | a);
  wa_bound : z < 2 ^ 63;
}.

Definition writer_ok (w : AlignedBufWriter.t) (a z : Z) : Prop :=
  writer_at w a z (AlignedBufWriter.cursor w).

(** The bytes written since [a]. *)
Definition contents (w : AlignedBufWriter.t) : list byte :=
  concat (data <$> AlignedBufWriter.full w ++ option_list (AlignedBufWriter.current w)).

Lemma align_pos al : is_power_of_two al = true -> 0 < al.
Proof. unfold is_power_of_two. intros. by bool_to_prop. Qed.

Lemma write_buf_spec b chunk :
  buf_ok b -> capacity b < 2 ^ 63 -> Bytes.remaining chunk <= capacity b - limit b ->
  exists b', write_buf b chunk = Ret (true, b') /\ buf_ok b' /\ wal_offset b' = wal_offset b /\
    capacity b' = capacity b /\ limit b' = limit b + Bytes.remaining chunk /\
    data b' = data b ++ chunk.
Proof.
  intros (Hl & Hlim & Hc) Hb Hn. pose proof (remaining_nonneg chunk). unfold write_buf. run_arith.
  rewrite (proj2 (Z.ltb_ge _ _)) by lia. eexists. split; [done|]. simpl.
  rewrite as_uint_id by (unfold is_uint; lia).
  unfold buf_ok. split_and!; simpl; try done; try lia.
  - unfold Bytes.remaining in *. rewrite length_overwrite; unfold Bytes.remaining; lia.
  - unfold data, overwrite. simpl. unfold Bytes.remaining in *.
    rewrite (assoc_L (++)), take_app_le by (rewrite length_app, length_take; lia).
    rewrite take_ge; [done|]. rewrite length_app, length_take. lia.
Qed.

(** Replacing the current buffer by an extension of it. *)
Lemma set_current_at w a z c b b' n :
  writer_at w a z c -> AlignedBufWriter.current w = Some b ->
  buf_ok b' -> wal_offset b' = wal_offset b -> capacity b' = capacity b -> limit b' = limit b + n ->
  writer_at (AlignedBufWriter.set_current w b') a z (c + n).
Proof.
  intros [Hch Hf Hal Hc Hp Hb Hz] Hcur Hok Hw Hcap Hlim. rewrite Hcur in *.
  split; simpl; try done; [|lia].
  apply chain_app in Hch as (m & H1 & H2). apply chain_app. exists m. split; [done|].
  simpl in *. rewrite Hw, Hcap. naive_solver.
Qed.

(** Moving on to the next allocated buffer. *)
Lemma swap_at w a z c :
  writer_at w a z c -> c < z ->
  (forall b, AlignedBufWriter.current w = Some b -> limit b = capacity b) ->
  exists w', AlignedBufWriter.swap w = (Ok (), w') /\ writer_at w' a z c /\
    contents w' = contents w /\ AlignedBufWriter.current w' <> None /\
    S (length (AlignedBufWriter.allocated w')) = length (AlignedBufWriter.allocated w) /\
    AlignedBufWriter.cursor w' = AlignedBufWriter.cursor w /\
    AlignedBufWriter.buffering w' = AlignedBufWriter.buffering w /\
    AlignedBufWriter.alignment w' = AlignedBufWriter.alignment w.
Proof.
  intros [Hch Hf Hal Hc Hp Hb Hz] Hlt Hfull. unfold AlignedBufWriter.swap.
  apply chain_app in Hch as (m & H1 & H2). apply chain_app in H2 as (m' & H2 & H3).
  assert (m' = c) as ->.
  { destruct (AlignedBufWriter.current w) as [b|]; simpl in H2.
    - specialize (Hfull b eq_refl). naive_solver lia.
    - destruct Hc as [Hnil ->]. rewrite Hnil in H1. simpl in *. lia. }
  destruct (AlignedBufWriter.allocated w) as [|b rest] eqn:Hall; [simpl in H3; lia|].
  apply Forall_cons in Hal as [Hb0 Hal]. destruct H3 as (Hw & Hok & Hdiv & H3).
  set (full' := match AlignedBufWriter.current w with Some prev => _ | None => _ end).
  assert (full' = AlignedBufWriter.full w ++ option_list (AlignedBufWriter.current w)) as ->.
  { unfold full'. destruct (AlignedBufWriter.current w); simpl; by rewrite ?app_nil_r. }
  eexists. split; [done|]. split_and!; try done; simpl.
  - split; simpl; try done; [| |lia].
    + apply chain_app. exists c. split; [|by simpl]. apply chain_app. by exists m.
    + apply Forall_app. split; [done|].
      destruct (AlignedBufWriter.current w) as [b'|]; simpl; [|done]. by repeat constructor; apply Hfull.
  - unfold contents. simpl. rewrite !fmap_app, !concat_app. simpl.
    unfold data at 3. by rewrite Hb0, take_0, !app_nil_r.
Qed.

Lemma current_ok w a z c b :
  writer_at w a z c -> AlignedBufWriter.current w = Some b ->
  buf_ok b /\ 0 <= wal_offset b /\ wal_offset b + capacity b <= z /\ c = wal_offset b + limit b.
Proof.
  intros [Hch _ _ Hc _ Hb _] Hcur. rewrite Hcur in *.
  apply chain_app in Hch as (m & H1%chain_le & H2). destruct H2 as (Hw & Hok & _ & H3%chain_le).
  split_and!; [done|lia..].
Qed.

Lemma writer_loop_spec fuel w a z dat pos :
  writer_at w a z (AlignedBufWriter.cursor w + pos) ->
  0 <= pos <= Bytes.remaining dat ->
  (AlignedBufWriter.current w = None -> pos < Bytes.remaining dat) ->
  0 <= AlignedBufWriter.cursor w -> AlignedBufWriter.cursor w + Bytes.remaining dat <= z ->
  (length (AlignedBufWriter.allocated w) < fuel)%nat ->
  exists w', AlignedBufWriter.write_loop fuel w dat pos = Ret (Ok (), w') /\
    writer_at w' a z (AlignedBufWriter.cursor w + Bytes.remaining dat) /\
    contents w' = contents w ++ drop (Z.to_nat pos) dat /\
    AlignedBufWriter.cursor w' = AlignedBufWriter.cursor w /\
    AlignedBufWriter.alignment w' = AlignedBufWriter.alignment w.
Proof.
  revert w pos. induction fuel as [|fuel IH]; intros w pos Hw Hpos Hcur Hc0 Hroom Hfuel; [lia|].
  pose proof (wa_bound _ _ _ _ Hw) as Hz. simpl.
  destruct (AlignedBufWriter.current w) as [b|] eqn:Hb.
  - destruct (current_ok _ _ _ _ _ Hw Hb) as (Hok & Hwo & Hend & Hc).
    pose proof Hok as (_ & Hlim & _). unfold AlignedBuf.remaining. run_arith. case_bool.
    + rewrite slice_drop by lia. simpl.
      destruct (write_buf_spec b (drop (Z.to_nat pos) dat)) as (b' & -> & Hok' & Hwo' & Hcap' & Hlim' & Hdat');
        [done|lia|rewrite remaining_drop; lia|]. simpl. rewrite remaining_drop in Hlim' by lia.
      eexists. split; [done|]. split_and!; try done.
      * eapply set_current_at in Hw; [|done..]. by replace (_ + _ + _) with
          (AlignedBufWriter.cursor w + Bytes.remaining dat) in Hw by lia.
      * unfold contents. simpl. rewrite Hb, !fmap_app, !concat_app. simpl.
        by rewrite Hdat', !app_nil_r, (assoc_L (++)).
    + set (r := capacity b - limit b) in *. rewrite slice_Ret by lia. simpl.
      replace (pos + r - pos) with r by lia. set (chunk := take _ _).
      assert (Bytes.remaining chunk = r) as Hr by (apply remaining_take; rewrite remaining_drop; lia).
      destruct (write_buf_spec b chunk) as (b' & -> & Hok' & Hwo' & Hcap' & Hlim' & Hdat'); [done|lia..|].
      simpl. rewrite Hr in Hlim'. pose proof Hw as Hw'.
      eapply set_current_at in Hw'; [|done..]. rewrite <- Z.add_assoc in Hw'.
      destruct (swap_at _ _ _ _ Hw') as (w2 & -> & Hw2 & Hcon & Hcur2 & Hall2 & Hcr2 & _ & Hal2); [lia| |].
      { simpl. intros ? [= <-]. lia. }
      simpl in *. destruct (IH w2 (pos + r)) as (w3 & -> & Hw3 & Hcon3 & Hcr3 & Hal3);
        rewrite ?Hcr2 in *; try done; try lia.
      exists w3. split_and!; try done; [|congruence..].
      rewrite Hcon3, Hcon. unfold contents. simpl. rewrite Hb, !fmap_app, !concat_app. simpl.
      rewrite Hdat', !app_nil_r, <- !(assoc_L (++)). do 2 f_equal.
      rewrite <- (take_drop (Z.to_nat r) (drop (Z.to_nat pos) dat)), drop_drop. unfold chunk.
      do 3 f_equal. lia.
  - destruct (swap_at _ _ _ _ Hw) as (w2 & -> & Hw2 & Hcon & Hcur2 & Hall2 & Hcr2 & _ & Hal2);
      [specialize (Hcur eq_refl); lia|congruence|].
    simpl in *. destruct (IH w2 pos) as (w3 & -> & Hw3 & Hcon3 & Hcr3 & Hal3);
      rewrite ?Hcr2 in *; try done; try lia.
    exists w3. split_and!; try done; congruence.
Qed.

Lemma cursor_bounds w a z c : writer_at w a z c -> 0 <= a <= c /\ c <= z.
Proof.
  intros Hw. pose proof (wa_base _ _ _ _ Hw) as [Ha _]. pose proof (wa_chain _ _ _ _ Hw) as Hch.
  pose proof (chain_le _ _ _ _ Hch). destruct (AlignedBufWriter.current w) as [b|] eqn:Hb.
  - destruct (current_ok _ _ _ _ _ Hw Hb) as (Hok & Hwo & Hend & Hc). destruct Hok as (_ & ? & _).
    rewrite ?Hb in Hch. apply chain_app in Hch as (m & ?%chain_le & Hm & _). lia.
  - pose proof (wa_cursor _ _ _ _ Hw) as Hc. rewrite Hb in Hc. lia.
Qed.

(** Writing into reserved memory. *)
Lemma write_spec w a z dat :
  writer_ok w a z -> dat <> [] -> AlignedBufWriter.cursor w + Bytes.remaining dat <= z ->
  exists w', AlignedBufWriter.write w dat = Ret (Ok (), w') /\ writer_ok w' a z /\
    contents w' = contents w ++ dat /\
    AlignedBufWriter.cursor w' = AlignedBufWriter.cursor w + Bytes.remaining dat /\
    AlignedBufWriter.alignment w' = AlignedBufWriter.alignment w /\
    AlignedBufWriter.buffering w' = true.
Proof.
  intros Hw Hne Hroom. pose proof (cursor_bounds _ _ _ _ Hw). pose proof (wa_bound _ _ _ _ Hw).
  assert (0 < Bytes.remaining dat) by (destruct dat; [done|unfold Bytes.remaining; simpl; lia]).
  unfold AlignedBufWriter.write.
  destruct (writer_loop_spec (S (length (AlignedBufWriter.allocated w))) w a z dat 0)
    as (w' & -> & [] & Hcon & Hcr & Hal); [by rewrite Z.add_0_r|lia..|].
  simpl. rewrite Hcr. run_arith. eexists. split; [done|]. split_and!; try done.
Qed.

Lemma max_allocated_spec w a z :
  writer_ok w a z -> AlignedBufWriter.max_allocated_wal_offset w = Ret z.
Proof.
  intros Hw. pose proof (wa_bound _ _ _ _ Hw). unfold AlignedBufWriter.max_allocated_wal_offset.
  destruct Hw as [Hch _ _ Hc _ _ _]. destruct (last (AlignedBufWriter.allocated w)) as [b|] eqn:Hl.
  - apply last_Some in Hl as (l & Hl). rewrite Hl, !(assoc_L (++)) in Hch.
    apply chain_app in Hch as (m & _ & Hm & _ & _ & Hz). simpl in Hz. subst. by rewrite uint_add_Ret by lia.
  - apply last_None in Hl. rewrite Hl, app_nil_r in Hch. apply chain_app in Hch as (m & H1 & H2).
    destruct (AlignedBufWriter.current w) as [b|]; simpl in *.
    + destruct H2 as (Hm & _ & _ & Hz). subst. by rewrite uint_add_Ret by lia.
    + destruct Hc as [Hf ->]. rewrite Hf in H1. simpl in H1. by subst.
Qed.

Lemma new_spec offset size al :
  is_power_of_two al = true -> 0 < size -> (al | size) -> size < 2 ^ 62 -> al <= size ->
  exists b, new offset size al = Ret (Ok b) /\ buf_ok b /\ wal_offset b = offset /\
    capacity b = size /\ limit b = 0.
Proof.
  intros Hp Hs [q ->] Hlt Hle. pose proof (align_pos _ Hp). unfold new. run_arith.
  assert ((q * al + al - 1) / al = q) as ->.
  { symmetry. apply Z.div_unique with (r := al - 1); lia. }
  rewrite uint_mul_Ret by lia. simpl. rewrite Hp, (proj2 (Z.leb_le _ _)) by lia. simpl.
  eexists. split; [done|]. unfold buf_ok. simpl. unfold Bytes.remaining. rewrite length_replicate.
  split_and!; lia.
Qed.

(** For a range of whole blocks, the read buffer is of that range. *)
Lemma alloc_read_buf_spec off len al :
  is_power_of_two al = true -> 0 <= off -> (al | off) -> 0 < len -> (al | len) -> len < 2 ^ 62 ->
  off + len + al < 2 ^ 63 ->
  exists b, alloc_read_buf off len al = Ret (Ok b) /\ buf_ok b /\ wal_offset b = off /\
    capacity b = len /\ limit b = 0.
Proof.
  intros Hp Ho [p ->] Hl [q ->] Hlt Hsum. pose proof (align_pos _ Hp). unfold alloc_read_buf.
  rewrite uint_div_Ret by lia. simpl. rewrite Z.div_mul by lia. run_arith.
  assert ((p * al + q * al + al - 1) / al = p + q) as ->.
  { symmetry. apply Z.div_unique with (r := al - 1); lia. }
  run_arith. replace ((p + q) * al - p * al) with (q * al) by lia.
  apply new_spec; [done|done|by exists q|done|]. apply Z.divide_pos_le; [done|by exists q].
Qed.

Lemma allocate_spec w a z size :
  writer_ok w a z -> 0 < size -> (AlignedBufWriter.alignment w | size) -> z + size < 2 ^ 62 ->
  exists w', AlignedBufWriter.allocate w z size = Ret (Ok (z + size), w') /\
    writer_ok w' a (z + size) /\ contents w' = contents w /\
    AlignedBufWriter.cursor w' = AlignedBufWriter.cursor w /\
    AlignedBufWriter.alignment w' = AlignedBufWriter.alignment w.
Proof.
  intros Hw Hs Hdiv Hlt. pose proof (cursor_bounds _ _ _ _ Hw).
  pose proof (align_pos _ (wa_align _ _ _ _ Hw)).
  pose proof (Z.divide_pos_le _ _ Hs Hdiv). unfold AlignedBufWriter.allocate.
  destruct (new_spec z size (AlignedBufWriter.alignment w)) as (b & -> & Hok & Hwo & Hcap & Hlim);
    [apply (wa_align _ _ _ _ Hw)|done|done|lia|done|].
  simpl. rewrite Hcap. run_arith. eexists. split; [done|]. split_and!; try done.
  destruct Hw as [Hch Hf Hal Hc Hp Hb Hz]. split; simpl; try done; [| |lia].
  - rewrite !(assoc_L (++)). apply chain_app. exists z. rewrite <- (assoc_L (++)).
    split; [done|]. simpl. rewrite Hcap. naive_solver.
  - apply Forall_app. split; [done|]. by repeat constructor.
Qed.

Lemma chain_divide al a l z : (al | a) -> chain al a l z -> (al | z).
Proof.
  revert a. induction l as [|b l IH]; intros a Ha; simpl; [by intros <-|].
  intros (_ & _ & Hb & Hc). eapply IH; [|done]. by apply Z.divide_add_r.
Qed.

Lemma writer_divide w a z : writer_ok w a z -> (AlignedBufWriter.alignment w | z).
Proof. intros [Hch _ _ _ _ [_ Hb] _]. by eapply chain_divide. Qed.

(** The first multiple of [al] at or after [z + n], for [z] a multiple. *)
Lemma round_up_bounds al z n t e :
  0 < al -> t = z + n -> (al | z) -> (al | e) -> t <= e ->
  let z' := z + n / al * al + (if n mod al =? 0 then 0 else al) in
  t <= z' /\ z' < t + al /\ z' <= e.
Proof.
  intros Hal -> [p ->] [q ->] He. pose proof (Z.div_mod n al). pose proof (Z.mod_pos_bound n al).
  set (k := n / al) in *. set (m := n mod al) in *. destruct (Z.eqb_spec m 0); simpl.
  - split_and!; lia.
  - assert ((p + k) * al < q * al) as Hlt%Z.mul_lt_mono_pos_r by lia; [|done].
    assert ((p + k + 1) * al <= q * al) by (apply Z.mul_le_mono_nonneg_r; lia). split_and!; lia.
Qed.

Lemma reserve_spec w a z t fs :
  writer_ok w a z -> AlignedBufWriter.alignment w < 2 ^ 61 -> t < 2 ^ 61 ->
  0 < fs -> (AlignedBufWriter.alignment w | fs) -> (z < t -> z / fs = (t - 1) / fs) ->
  exists w' z', AlignedBufWriter.reserve_to w t fs = Ret (Ok (), w') /\ writer_ok w' a z' /\
    contents w' = contents w /\ AlignedBufWriter.cursor w' = AlignedBufWriter.cursor w /\
    AlignedBufWriter.alignment w' = AlignedBufWriter.alignment w /\
    z <= z' /\ t <= z' /\ (z < t -> z' < t + AlignedBufWriter.alignment w /\ z' <= (z / fs + 1) * fs).
Proof.
  intros Hw Hal Ht Hfs Hdiv Hseg. unfold AlignedBufWriter.reserve_to.
  rewrite (max_allocated_spec _ _ _ Hw). simpl. pose proof (cursor_bounds _ _ _ _ Hw).
  pose proof (align_pos _ (wa_align _ _ _ _ Hw)) as Hal0.
  set (al := AlignedBufWriter.alignment w) in *. case_bool; [exists w, z; split_and!; (done || lia)|].
  run_arith. rewrite <- Hseg, Z.eqb_refl by lia. simpl.
  assert (t <= (z / fs + 1) * fs) as Hend.
  { specialize (Hseg ltac:(lia)). pose proof (Z.mul_succ_div_gt (t - 1) fs). rewrite Hseg. lia. }
  destruct (round_up_bounds al z (t - z) t ((z / fs + 1) * fs)) as (H1 & H2 & H3);
    [done|lia|by eapply writer_divide|by apply Z.divide_mul_r|done|].
  pose proof (Z.div_mod (t - z) al). pose proof (Z.mod_pos_bound (t - z) al).
  set (n := t - z) in *.
  assert (exists w1, (if al <=? n then size ← uint_mul 64 (n / al) al;
      AlignedBufWriter.allocate w z size else Ret (Ok z, w)) = Ret (Ok (z + n / al * al), w1) /\
    writer_ok w1 a (z + n / al * al) /\ contents w1 = contents w /\
    AlignedBufWriter.cursor w1 = AlignedBufWriter.cursor w /\ AlignedBufWriter.alignment w1 = al)
    as (w1 & Hfst & Hw1 & Hc1 & Hcr1 & Hal1).
  { case_bool.
    - run_arith. apply allocate_spec; try done; [nia|by apply Z.divide_mul_r|nia].
    - rewrite Z.div_small, Z.mul_0_l, Z.add_0_r by lia. by exists w. }
  fold al. rewrite Hfst. simpl. rewrite uint_rem_Ret by (rewrite Hal1; lia). simpl. rewrite Hal1.
  destruct (Z.eqb_spec (n mod al) 0) as [Hr|Hr]; simpl.
  - exists w1, (z + n / al * al). split_and!; (done || lia).
  - destruct (allocate_spec w1 a (z + n / al * al) al) as (w2 & Ha & Hw2 & Hc2 & Hcr2 & Hal2);
      [done|done|by rewrite Hal1|lia|].
    rewrite Ha. simpl. exists w2, (z + n / al * al + al). split_and!; (congruence || done || lia).
Qed.

(** ** Properties *)

(** Reserving memory up to the end of the data and then writing it succeeds, whatever
    the buffers already hold, as long as the reservation stays in one segment file: the
    bytes follow those written before, across as many buffers as it takes; the buffers
    remain a gapless chain of whole blocks, and none reaches into the next segment. *)
Theorem reserve_then_write w a z dat fs :
  writer_ok w a z -> AlignedBufWriter.alignment w < 2 ^ 61 -> dat <> [] ->
  let t := AlignedBufWriter.cursor w + Bytes.remaining dat in
  t < 2 ^ 61 -> 0 < fs -> (AlignedBufWriter.alignment w | fs) ->
  (z < t -> z / fs = (t - 1) / fs) ->
  exists w1 w2 z', AlignedBufWriter.reserve_to w t fs = Ret (Ok (), w1) /\
    AlignedBufWriter.write w1 dat = Ret (Ok (), w2) /\ writer_ok w2 a z' /\
    contents w2 = contents w ++ dat /\ AlignedBufWriter.cursor w2 = t /\
    AlignedBufWriter.buffering w2 = true /\ (z < t -> z' <= (z / fs + 1) * fs).
Proof.
  intros Hw Hal Hne t Ht Hfs Hdiv Hseg.
  destruct (reserve_spec w a z t fs) as (w1 & z' & Hr & Hw1 & Hc1 & Hcr1 & _ & _ & Ht' & Hz'); try done.
  destruct (write_spec w1 a z' dat) as (w2 & Hwr & Hw2 & Hc2 & Hcr2 & _ & Hbuf); [done|done|by rewrite Hcr1|].
  exists w1, w2, z'. split_and!; try done; [by rewrite Hc2, Hc1|by rewrite Hcr2, Hcr1|naive_solver].
Qed.

Lemma length_data b : buf_ok b -> Bytes.remaining (data b) = limit b.
Proof. intros (Hl & Hlim & _). unfold data. by rewrite remaining_take by lia. Qed.

(** The data of filled buffers, and of one more that may be partial, in the log. *)
Lemma chain_data al a l z b :
  chain al a l z -> Forall (fun b => limit b = capacity b) (removelast l) -> b ∈ l -> (al | a) ->
  (al | wal_offset b) /\ (al | capacity b) /\ a <= wal_offset b /\
  data b = take (Z.to_nat (limit b)) (drop (Z.to_nat (wal_offset b - a)) (concat (data <$> l))).
Proof.
  revert a. induction l as [|b0 l IH]; intros a; [set_solver|].
  intros (Hwo & Hok & Hdiv & Hch) Hf Hin Ha. pose proof Hok as (_ & ? & ?).
  pose proof (length_data _ Hok) as Hlen. apply elem_of_cons in Hin as [->|Hin].
  - split_and!; [by rewrite Hwo|done|lia|]. rewrite Hwo, Z.sub_diag. simpl. rewrite drop_0.
    rewrite take_app_le by (unfold Bytes.remaining in Hlen; lia).
    rewrite take_ge; [done|]. unfold Bytes.remaining in Hlen. lia.
  - destruct l as [|b1 l]; [set_solver|]. apply Forall_cons in Hf as [Hfull Hf].
    destruct (IH _ Hch Hf Hin) as (H1 & H2 & H3 & H4); [by apply Z.divide_add_r|].
    split_and!; [done|done|lia|]. rewrite H4 at 1. f_equal.
    change (concat (data <$> b0 :: b1 :: l)) with (data b0 ++ concat (data <$> b1 :: l)).
    replace (Z.to_nat (wal_offset b - a)) with
      (length (data b0) + Z.to_nat (wal_offset b - (a + capacity b0)))%nat
      by (unfold Bytes.remaining in Hlen; lia).
    by rewrite drop_app_add.
Qed.

(** A buffer at a block boundary that holds what was written to its place in the log. *)
Definition in_place (w : AlignedBufWriter.t) (a : Z) (b : abuf) : Prop :=
  (AlignedBufWriter.alignment w | wal_offset b) /\ (AlignedBufWriter.alignment w | capacity b) /\
  a <= wal_offset b /\
  data b = take (Z.to_nat (limit b)) (drop (Z.to_nat (wal_offset b - a)) (contents w)).

Lemma written_in_place w a z :
  writer_ok w a z ->
  Forall (in_place w a) (AlignedBufWriter.full w ++ option_list (AlignedBufWriter.current w)).
Proof.
  intros [Hch Hf _ Hc _ [_ Hdiv] _]. apply Forall_forall. intros b Hin.
  rewrite (assoc_L (++)) in Hch. apply chain_app in Hch as (m & Hch & _).
  refine (chain_data _ _ _ _ _ Hch _ Hin Hdiv).
  destruct (AlignedBufWriter.current w) as [c|]; simpl; [by rewrite removelast_last|].
  by destruct Hc as [-> _].
Qed.

(** Giving up the first [n] full buffers. *)
Lemma drop_full w a z n bf :
  writer_ok w a z ->
  let w' := AlignedBufWriter.mk (AlignedBufWriter.cursor w) (AlignedBufWriter.alignment w)
    (drop n (AlignedBufWriter.full w)) (AlignedBufWriter.current w) (AlignedBufWriter.allocated w) bf in
  exists a', writer_ok w' a' z /\
    contents w = concat (data <$> firstn n (AlignedBufWriter.full w)) ++ contents w'.
Proof.
  intros [Hch Hf Hal Hc Hp [Ha Hdiv] Hz] w'.
  rewrite <- (take_drop n (AlignedBufWriter.full w)), <- (assoc_L (++)) in Hch.
  apply chain_app in Hch as (a' & H1 & H2). exists a'. split.
  - pose proof (chain_le _ _ _ _ H1). split; simpl; try done; [by apply Forall_drop| |].
    + destruct (AlignedBufWriter.current w); [done|]. destruct Hc as [Hnil ->].
      rewrite Hnil, take_nil in H1. simpl in H1. by rewrite Hnil, drop_nil.
    + split; [lia|]. by eapply chain_divide.
  - unfold contents. simpl. rewrite <- concat_app, <- fmap_app, (assoc_L (++)). by rewrite take_drop.
Qed.

(** What [take] hands out for submission: the full buffers, oldest first, as far as the
    slots go, and the partial one if a slot is left.  Each starts and ends at a block
    boundary and holds exactly the bytes that were written to its place in the log; the
    buffers that stay in the writer hold the rest; and when the writer no longer reports
    buffered data, everything it held has been handed out. *)
Theorem take_hands_out w a z slots items w' :
  writer_ok w a z -> AlignedBufWriter.take w slots = (items, w') ->
  (exists a', writer_ok w' a' z /\
     contents w = concat (data <$> firstn slots (AlignedBufWriter.full w)) ++ contents w') /\
  Forall (in_place w a) items /\
  (AlignedBufWriter.buffering w = true -> AlignedBufWriter.buffering w' = false ->
   concat (data <$> items) = contents w).
Proof.
  intros Hw. pose proof (written_in_place _ _ _ Hw) as Hin. apply Forall_app in Hin as [Hin1 Hin2].
  unfold AlignedBufWriter.take. destruct (Nat.ltb_spec (length (AlignedBufWriter.full w)) slots);
    intros [= <- <-]; (split; [by eapply drop_full|]).
  - rewrite take_ge by lia. split.
    + apply Forall_app. split; [done|].
      destruct (AlignedBufWriter.current w); simpl in *; [by case_match|done].
    + intros _ _. unfold contents. rewrite !fmap_app, !concat_app. f_equal.
      destruct (AlignedBufWriter.current w) as [b|]; simpl; [|done].
      unfold has_data. case_bool; simpl; [done|]. unfold data.
      by replace (Z.to_nat (limit b)) with 0%nat by lia.
  - split; [by apply Forall_take|]. simpl. intros Hbuf Hno.
    destruct (drop slots (AlignedBufWriter.full w)) as [|b0 l0] eqn:Hd; [|congruence].
    unfold contents. rewrite <- (take_drop slots (AlignedBufWriter.full w)) at 2.
    rewrite Hd, !fmap_app, !concat_app, !app_nil_r. simpl. rewrite <- (app_nil_r (concat _)) at 1.
    f_equal. destruct (AlignedBufWriter.current w) as [b|]; simpl; [|done].
    bool_to_prop. unfold data. by replace (Z.to_nat (limit b)) with 0%nat by lia.
Qed.
End writer.

(** ** Witnesses *)

Module WriterExample.
Definition dat : list byte := ascii_bytes "abcdef".
(** Blocks of 4 bytes, segment files of 16. *)
Definition w0 : AlignedBufWriter.t := AlignedBufWriter.new 0 4.
Definition w2 : AlignedBufWriter.t :=
  match AlignedBufWriter.reserve_to w0 6 16 with
  | Ret (_, w) => match AlignedBufWriter.write w dat with Ret (_, w) => w | Panic => w0 end
  | Panic => w0
  end.

Lemma w0_ok : writer_ok w0 0 0.
Proof. split; simpl; try done. split; [done|by exists 0]. Qed.

Lemma w2_ok : writer_ok w2 0 8.
Proof.
  split; [|vm_compute; by repeat constructor..| |done].
  - vm_compute. split_and!; try done; by exists 1.
  - split; [done|by exists 0].
Qed.
End WriterExample.

Lemma reserve_then_write_witness :
  exists w1 w2 z', AlignedBufWriter.reserve_to WriterExample.w0 6 16 = Ret (Ok (), w1) /\
    AlignedBufWriter.write w1 WriterExample.dat = Ret (Ok (), w2) /\ writer_ok w2 0 z' /\
    contents w2 = WriterExample.dat.
Proof.
  destruct (reserve_then_write WriterExample.w0 0 0 WriterExample.dat 16 WriterExample.w0_ok)
    as (w1 & w2 & z' & H1 & H2 & H3 & H4 & _); [done|done|done|done|by exists 4|done|].
  exists w1, w2, z'. exact (conj H1 (conj H2 (conj H3 H4))).
Defined.

Lemma take_hands_out_witness :
  Forall (in_place WriterExample.w2 0) (AlignedBufWriter.take WriterExample.w2 8).1 /\
  concat (AlignedBuf.data <$> (AlignedBufWriter.take WriterExample.w2 8).1) = WriterExample.dat.
Proof.
  destruct (take_hands_out WriterExample.w2 0 8 8 _ _ WriterExample.w2_ok
    (surjective_pairing (AlignedBufWriter.take WriterExample.w2 8))) as (_ & Hin & Hcon).
  exact (conj Hin (Hcon eq_refl eq_refl)).
Defined.
