(* ===== verification/BlockCache.v ===== *)
(** * The block cache of a log segment

    [components/store/src/io/block_cache.rs]: cached and loading blocks of a segment by their
    place in it, the ranges to read for a miss and their merging, and eviction by score.

    Entries are shared between the map and the score list through [Rc<UnsafeCell<Entry>>]; the
    score list sees of an entry its score and offset, which do not change while it is in the
    list, so the model keeps these pairs.  The skip list of the crate [skiplist] is a parameter
    ([SkipListApi]); a point in time is its Unix time in nanoseconds, an argument. *)

From S2P Require Import Prelude Bytes StoreTypes Collections AlignedBuf.

(** ** Ranges to read *)

Module EntryRange.
Record t := mk { wal_offset : Z; (* u64 *) len : Z (* u32 *) }.

Definition new (wal_offset len alignment : Z) : outcome t :=
  q ← uint_div wal_offset alignment;
  from ← uint_mul 64 q alignment;
  to ← u64_add wal_offset len;
  n ← u64_add to alignment;
  n ← uint_sub n 1;
  q ← uint_div n alignment;
  aligned_to ← uint_mul 64 q alignment;
  d ← uint_sub aligned_to from;
  Ret (mk from (as_uint 32 d)).

Definition le (a b : t) : Prop := wal_offset a <= wal_offset b.
#[global] Instance le_dec : RelDecision le.
Proof. intros a b. unfold le. apply _. Defined.

#[global] Instance le_trans : Transitive le.
Proof. intros a b c. unfold le. lia. Qed.
#[global] Instance le_total : Total le.
Proof. intros a b. unfold le. lia. Qed.

(** The loop of [merge], with the last merged range. *)
Fixpoint merge_loop (last_m : t) (ranges : list t) : outcome (list t) :=
  match ranges with
  | [] => Ret [last_m]
  | range :: ranges =>
      last_end ← u64_add (wal_offset last_m) (len last_m);
      if wal_offset range <=? last_end then
        to ← u64_add (wal_offset range) (len range);
        n ← uint_sub to (wal_offset last_m);
        merge_loop (mk (wal_offset last_m) (as_uint 32 (n `max` len last_m))) ranges
      else
        merged ← merge_loop range ranges;
        Ret (last_m :: merged)
  end.

Definition merge (ranges : list t) : outcome (list t) :=
  match merge_sort le ranges with
  | [] => Ret []
  | range :: ranges => merge_loop range ranges
  end.
End EntryRange.

(** ** Entries *)

Module Entry.
Record t := mk {
  hit : Z;                     (* usize *)
  last_hit_instant : Z;
  strong_rc : Z;               (* usize *)
  entry_range : option EntryRange.t;
  buf : option abuf;
}.

Definition new (b : abuf) (now : Z) : t := mk 0 now 0 None (Some b).
Definition new_loading_entry (r : EntryRange.t) (now : Z) : t := mk 0 now 0 (Some r) None.

Definition covers_partial (e : t) (r : EntryRange.t) : outcome bool :=
  match buf e, entry_range e with
  | Some b, _ => AlignedBuf.covers_partial b (EntryRange.wal_offset r) (EntryRange.len r)
  | None, Some loading =>
      to ← u64_add (EntryRange.wal_offset r) (EntryRange.len r);
      if EntryRange.wal_offset loading <? to then
        end_ ← u64_add (EntryRange.wal_offset loading) (EntryRange.len loading);
        Ret (EntryRange.wal_offset r <? end_)
      else Ret false
  | None, None => Ret false
  end.

Definition len (e : t) : Z :=
  match buf e, entry_range e with
  | Some b, _ => as_uint 32 (AlignedBuf.limit b)
  | None, Some loading => EntryRange.len loading
  | None, None => 0
  end.

Definition capacity (e : t) : Z :=
  match buf e, entry_range e with
  | Some b, _ => as_uint 32 (AlignedBuf.capacity b)
  | None, Some loading => EntryRange.len loading
  | None, None => 0
  end.

Definition is_loaded (e : t) : bool := match buf e with Some _ => true | None => false end.
Definition is_strong_referenced (e : t) : bool := 0 <? strong_rc e.

Definition wal_offset (e : t) : Z :=
  match buf e, entry_range e with
  | Some b, _ => AlignedBuf.wal_offset b
  | None, Some loading => EntryRange.wal_offset loading
  | None, None => 0
  end.

Definition score (e : t) : outcome Z :=
  u64_add (last_hit_instant e) (as_uint 64 (Z.shiftl (hit e) 27)).

Definition set_strong_rc (e : t) (n : Z) : t :=
  mk (hit e) (last_hit_instant e) n (entry_range e) (buf e).
Definition touch (e : t) (now : Z) : outcome t :=
  hit ← usize_add (hit e) 1;
  Ret (mk hit now (strong_rc e) (entry_range e) (buf e)).
End Entry.

(** ** The skip list

    Elements are pairs of a score and an offset.  [OrderedSkipList::with_comp] is given an
    order by score and then offset, in which elements with the same offset are equal. *)

Class SkipListApi := {
  skiplist : Type;
  sl_empty : skiplist;
  sl_insert : Z * Z -> skiplist -> skiplist;
  sl_remove : Z * Z -> skiplist -> skiplist;
  sl_front : skiplist -> option (Z * Z);
}.

(** ** The cache *)

Module BlockCache.
Section cache.
Context {S : SkipListApi}.

Record t := mk {
  wal_offset : Z;              (* u64 *)
  entries : @BTreeMap.t Entry.t; (* keys: u32, relative to [wal_offset] *)
  score_list : skiplist;
  cache_size : Z;              (* u32 *)
  alignment : Z;               (* usize *)
}.

Definition new (alignment offset : Z) : t := mk offset [] sl_empty 0 alignment.

Definition set_entries (c : t) (m : @BTreeMap.t Entry.t) : t :=
  mk (wal_offset c) m (score_list c) (cache_size c) (alignment c).
Definition set_scores (c : t) (l : skiplist) : t :=
  mk (wal_offset c) (entries c) l (cache_size c) (alignment c).
Definition set_size (c : t) (n : Z) : t :=
  mk (wal_offset c) (entries c) (score_list c) n (alignment c).

Definition score_insert (c : t) (e : Entry.t) : outcome t :=
  s ← Entry.score e;
  Ret (set_scores c (sl_insert (s, Entry.wal_offset e) (score_list c))).
Definition score_remove (c : t) (e : Entry.t) : outcome t :=
  s ← Entry.score e;
  Ret (set_scores c (sl_remove (s, Entry.wal_offset e) (score_list c))).

Definition unaccount (c : t) (e : Entry.t) : outcome t :=
  if Entry.is_loaded e then
    n ← uint_sub (cache_size c) (Entry.capacity e); Ret (set_size c n)
  else Ret c.

Definition add_entry (c : t) (b : abuf) (now : Z) : outcome t :=
  n ← uint_sub (AlignedBuf.wal_offset b) (wal_offset c);
  let from := as_uint 32 n in
  let new_entry := Entry.new b now in
  '(c, new_entry) ←
    match BTreeMap.get (entries c) from with
    | Some pre_entry =>
        c ← score_remove c pre_entry;
        c ← unaccount c pre_entry;
        Ret (c, Entry.set_strong_rc new_entry (Entry.strong_rc pre_entry))
    | None => Ret (c, new_entry)
    end;
  n ← u32_add (cache_size c) (Entry.capacity new_entry);
  score_insert (set_entries (set_size c n) (BTreeMap.insert (entries c) from new_entry)) new_entry.

Definition add_loading_entry (c : t) (r : EntryRange.t) (now : Z) : outcome t :=
  n ← uint_sub (EntryRange.wal_offset r) (wal_offset c);
  let from := as_uint 32 n in
  let pre_entry := BTreeMap.get (entries c) from in
  let c := set_entries c (BTreeMap.insert (entries c) from (Entry.new_loading_entry r now)) in
  match pre_entry with
  | Some pre_entry => c ← score_remove c pre_entry; unaccount c pre_entry
  | None => Ret c
  end.

(** The entries [range(start_key..to)] that cover the range partially, where [start_key] is
    the last key up to [from]. *)
Fixpoint filter_covers (r : EntryRange.t) (l : @BTreeMap.t Entry.t)
    : outcome (@BTreeMap.t Entry.t) :=
  match l with
  | [] => Ret []
  | (k, e) :: l =>
      b ← Entry.covers_partial e r;
      rest ← filter_covers r l;
      Ret (if b : bool then (k, e) :: rest else rest)
  end.

Definition range (m : @BTreeMap.t Entry.t) (from to : Z) : outcome (@BTreeMap.t Entry.t) :=
  if to <? from then Panic
  else Ret (List.filter (fun e => (from <=? e.1) && (e.1 <? to)) m).

Definition search (c : t) (r : EntryRange.t) (from to : Z) : outcome (@BTreeMap.t Entry.t) :=
  let start_key := match BTreeMap.last_le (entries c) from with Some (k, _) => k | None => from end in
  l ← range (entries c) start_key to;
  filter_covers r l.

Definition add_rc (e : Entry.t) (ref_count : Z) : outcome Entry.t :=
  n ← (if 0 <? ref_count then usize_add (Entry.strong_rc e) ref_count
       else uint_sub (Entry.strong_rc e) (- ref_count));
  Ret (Entry.set_strong_rc e n).

Fixpoint reference_loop (c : t) (l : @BTreeMap.t Entry.t) (ref_count : Z) : outcome t :=
  match l with
  | [] => Ret c
  | (k, e) :: l =>
      e ← add_rc e ref_count;
      reference_loop (set_entries c (BTreeMap.insert (entries c) k e)) l ref_count
  end.

Definition strong_reference_entries (c : t) (r : EntryRange.t) (ref_count : Z) : outcome t :=
  if EntryRange.wal_offset r <? wal_offset c then Ret c
  else
    let from := as_uint 32 (EntryRange.wal_offset r - wal_offset c) in
    to ← u32_add from (EntryRange.len r);
    l ← search c r from to;
    reference_loop c l ref_count.

(** The gaps before the entries of the search result, and where the last one ends. *)
Fixpoint missed_loop (c : t) (l : @BTreeMap.t Entry.t) (last_end : Z)
    : outcome (list EntryRange.t * Z) :=
  match l with
  | [] => Ret ([], last_end)
  | (k, e) :: l =>
      gap ← (if last_end <? k then
               o ← u64_add (wal_offset c) last_end;
               Ret [EntryRange.mk o (k - last_end)]
             else Ret []);
      last_end ← u32_add k (Entry.len e);
      '(gaps, last_end) ← missed_loop c l last_end;
      Ret (gap ++ gaps, last_end)
  end.

(** The tail is not missed when the last entry ends within a block, the one being written. *)
Definition missed_ranges (c : t) (found : @BTreeMap.t Entry.t) (from to : Z)
    : outcome (list EntryRange.t) :=
  '(missed, last_end) ← missed_loop c found from;
  if last_end <? to then
    m ← uint_rem last_end (as_uint 32 (alignment c));
    if m =? 0 then
      o ← u64_add (wal_offset c) last_end;
      Ret (missed ++ [EntryRange.mk o (to - last_end)])
    else Ret missed
  else Ret missed.

Fixpoint touch_loop (c : t) (l : @BTreeMap.t Entry.t) (now : Z) : outcome (list abuf * t) :=
  match l with
  | [] => Ret ([], c)
  | (k, e) :: l =>
      c ← score_remove c e;
      e ← Entry.touch e now;
      c ← score_insert (set_entries c (BTreeMap.insert (entries c) k e)) e;
      '(bufs, c) ← touch_loop c l now;
      Ret (match Entry.buf e with Some b => b :: bufs | None => bufs end, c)
  end.

Definition try_get_entries (c : t) (r : EntryRange.t) (now : Z)
    : outcome (result (option (list abuf)) (list EntryRange.t) * t) :=
  if EntryRange.wal_offset r <? wal_offset c then Ret (Err [r], c)
  else
    let from := as_uint 32 (EntryRange.wal_offset r - wal_offset c) in
    to ← u32_add from (EntryRange.len r);
    found ← search c r from to;
    match found with
    | [] => Ret (Err [r], c)
    | _ =>
        missed ← missed_ranges c found from to;
        match missed with
        | [] =>
            '(bufs, c) ← touch_loop c found now;
            Ret (Ok (if (length bufs =? length found)%nat then Some bufs else None), c)
        | missed => Ret (Err missed, c)
        end
    end.

Definition remove_by (c : t) (offset : Z) : outcome (option Entry.t * t) :=
  if offset <? wal_offset c then Ret (None, c)
  else
    let from := as_uint 32 (offset - wal_offset c) in
    match BTreeMap.get (entries c) from with
    | Some e =>
        c ← score_remove (set_entries c (BTreeMap.remove (entries c) from)) e;
        c ← unaccount c e;
        Ret (Some e, c)
    | None => Ret (None, c)
    end.

(** The entry at the front of the score list, which is the one of the map with its offset. *)
Definition front (c : t) : option Entry.t :=
  '(_, offset) ← sl_front (score_list c);
  BTreeMap.get (entries c) (as_uint 32 (offset - wal_offset c)).

Definition min_score (c : t) : outcome Z :=
  match front c with
  | None => Ret 0
  | Some e => if Entry.is_strong_referenced e then Ret 0 else Entry.score e
  end.

Definition remove_by_score (c : t) : outcome (option Entry.t * t) :=
  match front c with
  | None => Ret (None, c)
  | Some e => if Entry.is_strong_referenced e then Ret (None, c) else remove_by c (Entry.wal_offset e)
  end.

(** [remove]: the entries that satisfy the predicate, in key order. *)
Fixpoint remove_loop (c : t) (pred : Entry.t -> bool) (l : @BTreeMap.t Entry.t) : outcome t :=
  match l with
  | [] => Ret c
  | (k, e) :: l =>
      if pred e then
        c ← score_remove (set_entries c (BTreeMap.remove (entries c) k)) e;
        n ← uint_sub (cache_size c) (Entry.capacity e);
        remove_loop (set_size c n) pred l
      else remove_loop c pred l
  end.

Definition remove (c : t) (pred : Entry.t -> bool) : outcome t := remove_loop c pred (entries c).

Definition buf_of_last_cache_entry (c : t) : option abuf :=
  '(_, e) ← BTreeMap.last_key_value (entries c); Entry.buf e.

Definition wal_offset_of_last_cache_entry (c : t) : Z :=
  match BTreeMap.last_key_value (entries c) with Some (k, _) => k + wal_offset c | None => 0 end.
End cache.
Arguments t : clear implicits.
End BlockCache.

(** ** Merging *)

Definition in_range (r : EntryRange.t) (x : Z) : Prop :=
  EntryRange.wal_offset r <= x < EntryRange.wal_offset r + EntryRange.len r.
Definition in_ranges (l : list EntryRange.t) (x : Z) : Prop := Exists (fun r => in_range r x) l.
(** A range within [lo, hi). *)
Definition within (lo hi : Z) (r : EntryRange.t) : Prop :=
  lo <= EntryRange.wal_offset r /\ 0 <= EntryRange.len r /\
  EntryRange.wal_offset r + EntryRange.len r <= hi.
(** [b] starts after [a], with a gap between them. *)
Definition apart (a b : EntryRange.t) : Prop :=
  EntryRange.wal_offset a + EntryRange.len a < EntryRange.wal_offset b.

Lemma apart_head lo hi a r l :
  apart a r -> Forall (within lo hi) (r :: l) -> StronglySorted apart (r :: l) ->
  StronglySorted apart (a :: r :: l).
Proof.
  intros Har Hin Hs. constructor; [done|]. constructor; [done|].
  apply StronglySorted_inv in Hs as [_ Hs]. eapply Forall_impl; [exact Hs|].
  intros b Hb. apply Forall_cons in Hin as [(? & ? & ?) _]. unfold apart in *. lia.
Qed.

Lemma merge_loop_spec lo hi last_m ranges :
  0 <= lo -> hi < 2 ^ 64 -> hi - lo < 2 ^ 32 ->
  Forall (within lo hi) (last_m :: ranges) -> StronglySorted EntryRange.le (last_m :: ranges) ->
  exists r l, EntryRange.merge_loop last_m ranges = Ret (r :: l) /\
    EntryRange.wal_offset r = EntryRange.wal_offset last_m /\
    Forall (within lo hi) (r :: l) /\ StronglySorted apart (r :: l) /\
    forall x, in_ranges (r :: l) x <-> in_ranges (last_m :: ranges) x.
Proof.
  intros Hlo Hhi Hspan. revert last_m. induction ranges as [|range ranges IH]; intros last_m Hin Hs; simpl.
  - exists last_m, []. split_and!; try done. by repeat constructor.
  - apply Forall_cons in Hin as [Hm Hin]. pose proof Hm as (? & ? & ?).
    pose proof Hin as [Hr Hin']%Forall_cons. pose proof Hr as (? & ? & ?).
    apply StronglySorted_inv in Hs as [Hs Hle]. pose proof (Forall_inv Hle) as Hle1.
    unfold EntryRange.le in Hle1. run_arith. case_bool.
    + run_arith. rewrite as_uint_id by (unfold is_uint; lia). set (m := EntryRange.mk _ _).
      destruct (IH m) as (r & l & -> & Hw & Hin2 & Hs2 & Hx).
      * constructor; [|done]. unfold within, m. simpl. lia.
      * apply StronglySorted_inv in Hs as [Hs _]. constructor; [done|]. by apply Forall_cons in Hle as [_ ?].
      * exists r, l. split_and!; try done. intros x. rewrite Hx. unfold in_ranges.
        rewrite !Exists_cons, (assoc (∨)). apply or_iff_compat_r. unfold in_range, m. simpl. lia.
    + destruct (IH range) as (r & l & -> & Hw & Hin2 & Hs2 & Hx); [done..|]. simpl.
      exists last_m, (r :: l). split_and!; try done.
      * by constructor.
      * eapply apart_head; [|done..]. unfold apart. rewrite Hw. lia.
      * intros x. unfold in_ranges in *. rewrite (Exists_cons _ last_m (r :: l)), Hx, !Exists_cons. tauto.
Qed.

(** Merging the missed ranges of a segment, which may come in any order, repeat and
    overlap, loses and adds nothing: the merged ranges cover the same bytes of the log; and
    they are in order with gaps between them, so no two of them could be read in one. *)
Theorem merge_ranges lo hi ranges :
  0 <= lo -> hi < 2 ^ 64 -> hi - lo < 2 ^ 32 -> Forall (within lo hi) ranges ->
  exists merged, EntryRange.merge ranges = Ret merged /\
    (forall x, in_ranges merged x <-> in_ranges ranges x) /\ StronglySorted apart merged.
Proof.
  intros Hlo Hhi Hspan Hin. unfold EntryRange.merge.
  pose proof (merge_sort_Permutation EntryRange.le ranges) as Hp.
  assert (StronglySorted EntryRange.le (merge_sort EntryRange.le ranges)) as Hs.
  { apply (StronglySorted_merge_sort _). }
  assert (Hx : forall x, in_ranges (merge_sort EntryRange.le ranges) x <-> in_ranges ranges x).
  { intros x. unfold in_ranges. by rewrite Hp. }
  rewrite <- Hp in Hin. destruct (merge_sort EntryRange.le ranges) as [|r l].
  - exists []. split_and!; try done. constructor.
  - destruct (merge_loop_spec lo hi r l) as (r' & l' & -> & _ & _ & Hs' & Hx'); [done..|].
    exists (r' :: l'). split_and!; try done. intros x. by rewrite Hx', Hx.
Qed.

(** ** Lookup *)

Section lookup.
Context {S : SkipListApi}.
Abbreviation emap := (@BTreeMap.t Entry.t).

(** An entry at [k] of a cache that starts at [base], after at most [n] hits. *)
Definition entry_ok (n base : Z) (ke : Z * Entry.t) : Prop :=
  let '(k, e) := ke in
  0 <= k /\ 0 < Entry.len e /\ k + Entry.len e < 2 ^ 32 /\ Entry.wal_offset e = base + k /\
  match Entry.buf e with
  | Some b => is_u32 (AlignedBuf.limit b)
  | None => Entry.entry_range e <> None
  end /\
  0 <= Entry.hit e <= n /\ 0 <= Entry.last_hit_instant e < 2 ^ 62.

Definition disjoint (a b : Z * Entry.t) : Prop := a.1 + Entry.len a.2 <= b.1.

Record cache_ok (n : Z) (c : BlockCache.t S) : Prop := {
  co_base : 0 <= BlockCache.wal_offset c /\ BlockCache.wal_offset c + 2 ^ 32 <= 2 ^ 64;
  co_align : 0 < BlockCache.alignment c < 2 ^ 32;
  co_entries : Forall (entry_ok n (BlockCache.wal_offset c)) (BlockCache.entries c);
  co_disjoint : StronglySorted disjoint (BlockCache.entries c);
}.

Definition covered (m : emap) (x : Z) : Prop :=
  Exists (fun ke => ke.1 <= x < ke.1 + Entry.len ke.2) m.

Definition overlaps (from to : Z) (ke : Z * Entry.t) : bool :=
  (ke.1 <? to) && (from <? ke.1 + Entry.len ke.2).

(** The entries cover the block from [a] to [z], each from where the one before ends. *)
Fixpoint tiled (a : Z) (m : emap) (z : Z) : Prop :=
  match m with
  | [] => a = z
  | (k, e) :: m => k <= a < k + Entry.len e /\ tiled (k + Entry.len e) m z
  end.

Lemma covers_partial_spec n base k e r from :
  entry_ok n base (k, e) -> 0 <= base -> base + 2 ^ 32 <= 2 ^ 64 ->
  EntryRange.wal_offset r = base + from -> 0 <= from -> 0 <= EntryRange.len r ->
  from + EntryRange.len r < 2 ^ 32 ->
  Entry.covers_partial e r = Ret (overlaps from (from + EntryRange.len r) (k, e)).
Proof.
  intros (Hk & Hl & Hle & Hw & Hb & _) Hb0 Hb1 Hr Hf Hn Hlen.
  unfold Entry.covers_partial, AlignedBuf.covers_partial, overlaps, Entry.len, Entry.wal_offset in *.
  rewrite Hr. simpl. destruct (Entry.buf e) as [b|].
  - rewrite as_uint_id in * by done. run_arith. rewrite Hw.
    destruct (Z.ltb_spec k (from + EntryRange.len r)); simpl; case_bool; run_arith; [|done].
    f_equal. apply eq_bool_prop_intro. rewrite !Is_true_true, !Z.ltb_lt. lia.
  - destruct (Entry.entry_range e) as [l|]; [|done]. run_arith. rewrite Hw.
    destruct (Z.ltb_spec k (from + EntryRange.len r)); simpl; case_bool; run_arith; [|done].
    f_equal. apply eq_bool_prop_intro. rewrite !Is_true_true, !Z.ltb_lt. lia.
Qed.

Lemma filter_covers_spec n base r from l :
  Forall (entry_ok n base) l -> 0 <= base -> base + 2 ^ 32 <= 2 ^ 64 ->
  EntryRange.wal_offset r = base + from -> 0 <= from -> 0 <= EntryRange.len r ->
  from + EntryRange.len r < 2 ^ 32 ->
  BlockCache.filter_covers r l = Ret (List.filter (overlaps from (from + EntryRange.len r)) l).
Proof.
  intros Hl ? ? ? ? ? ?. induction Hl as [|[k e] l Hke Hl IH]; [done|]. simpl.
  rewrite (covers_partial_spec n base k e r from) by done. simpl. rewrite IH. done.
Qed.

Lemma filter_filter_imp {A} (f g : A -> bool) l :
  (forall x, x ∈ l -> f x = true -> g x = true) -> List.filter f (List.filter g l) = List.filter f l.
Proof.
  induction l as [|x l IH]; intros Hfg; [done|]. simpl.
  rewrite <- IH by (intros; apply Hfg; [by right|done]).
  destruct (g x) eqn:Hg; [done|]. destruct (f x) eqn:Hf; [|done].
  rewrite (Hfg x) in Hg; [done|by left|done].
Qed.

Lemma disjoint_key_lt n base l k e k' e' :
  Forall (entry_ok n base) l -> StronglySorted disjoint l ->
  (k, e) ∈ l -> (k', e') ∈ l -> k < k' -> k + Entry.len e <= k'.
Proof.
  intros Hok Hs H1 H2 Hlt. induction Hs as [|ke l Hs IH Hd]; [set_solver|].
  apply Forall_cons in Hok as [Hke Hok]. rewrite Forall_forall in Hd.
  apply elem_of_cons in H1 as [<-|H1], H2 as [Heq|H2].
  - simplify_eq. lia.
  - apply (Hd _ H2).
  - subst ke. specialize (Hd _ H1). unfold disjoint in Hd. simpl in Hd.
    destruct Hke as (? & ? & _). lia.
  - by apply IH.
Qed.

(** The search finds the entries that overlap the query, in order. *)
Lemma search_spec n c r from :
  cache_ok n c -> EntryRange.wal_offset r = BlockCache.wal_offset c + from -> 0 <= from ->
  0 <= EntryRange.len r -> from + EntryRange.len r < 2 ^ 32 ->
  let to := from + EntryRange.len r in
  BlockCache.search c r from to = Ret (List.filter (overlaps from to) (BlockCache.entries c)).
Proof.
  intros [[Hb0 Hb1] Hal Hok Hd] Hr Hf Hn Hlt to. unfold BlockCache.search.
  set (start := match BTreeMap.last_le _ _ with Some _ => _ | None => _ end).
  assert (start <= from /\ forall k e, (k, e) ∈ BlockCache.entries c ->
    overlaps from to (k, e) = true -> start <= k) as [Hstart Hov].
  { unfold start, BTreeMap.last_le.
    destruct (last (List.filter _ _)) as [[ks es]|] eqn:Hl.
    - assert ((ks, es) ∈ List.filter (fun e : Z * Entry.t => e.1 <=? from) (BlockCache.entries c)) as Hin.
      { apply last_Some in Hl as (l & ->). set_solver. }
      apply list_elem_of_In, filter_In in Hin as [Hin%list_elem_of_In Hks]. simpl in Hks.
      bool_to_prop. split; [done|]. intros k e Hke Ho. unfold overlaps in Ho. simpl in Ho. bool_to_prop.
      destruct (decide (ks <= k)); [done|].
      pose proof (disjoint_key_lt _ _ _ k e ks es Hok Hd Hke Hin). lia.
    - split; [done|]. intros k e Hke Ho. apply last_None in Hl.
      destruct (decide (from <= k)); [done|]. exfalso.
      assert ((k, e) ∈ List.filter (fun e : Z * Entry.t => e.1 <=? from) (BlockCache.entries c)) as Hin.
      { apply list_elem_of_In, filter_In. split; [by apply list_elem_of_In|]. simpl. apply Z.leb_le. lia. }
      rewrite Hl in Hin. set_solver. }
  unfold BlockCache.range. rewrite (proj2 (Z.ltb_ge _ _)) by lia. simpl.
  rewrite (filter_covers_spec n (BlockCache.wal_offset c) r from); [|apply Forall_forall|done..].
  - f_equal. apply filter_filter_imp. intros [k e] Hke Ho. pose proof (Hov k e Hke Ho).
    unfold overlaps in Ho. simpl in *. bool_to_prop. by rewrite (proj2 (Z.leb_le _ _)), (proj2 (Z.ltb_lt _ _)).
  - intros ke Hke%list_elem_of_In. apply filter_In in Hke as [Hke%list_elem_of_In _].
    rewrite Forall_forall in Hok. exact (Hok _ Hke).
Qed.

Lemma filter_elem (f : Z * Entry.t -> bool) m ke :
  ke ∈ List.filter f m <-> ke ∈ m /\ f ke = true.
Proof. by rewrite !list_elem_of_In, filter_In. Qed.

Lemma filter_sorted (R : Z * Entry.t -> Z * Entry.t -> Prop) f m :
  StronglySorted R m -> StronglySorted R (List.filter f m).
Proof.
  induction 1 as [|x m Hs IH Hx]; simpl; [constructor|]. case_match; [|done].
  constructor; [done|]. rewrite Forall_forall in *. intros y [Hy _]%filter_elem. by apply Hx.
Qed.

(** Ranges one after the other, from [lo] on. *)
Definition in_order (lo : Z) (l : list EntryRange.t) : Prop :=
  StronglySorted (fun a b => EntryRange.wal_offset a + EntryRange.len a <= EntryRange.wal_offset b) l /\
  Forall (fun r => lo <= EntryRange.wal_offset r) l.
(** Multiples of [d], relative to [base]. *)
Definition ranges_on (d base : Z) (l : list EntryRange.t) : Prop :=
  Forall (fun r => (d | EntryRange.wal_offset r - base) /\ (d | EntryRange.len r)) l.
Definition entries_on (d : Z) (m : emap) : Prop :=
  Forall (fun ke => (d | ke.1) /\ (d | Entry.len ke.2)) m.

Lemma in_order_app lo l1 l2 mid :
  in_order lo l1 -> in_order mid l2 -> lo <= mid ->
  Forall (fun r => EntryRange.wal_offset r + EntryRange.len r <= mid) l1 -> in_order lo (l1 ++ l2).
Proof.
  intros [Hs1 Hl1] [Hs2 Hl2] Hle Hend. split.
  - induction Hs1 as [|r l1 Hs1 IH Hr]; [done|]. simpl. apply Forall_cons in Hl1 as [_ Hl1], Hend as [Hr' Hend].
    constructor; [by apply IH|]. apply Forall_app. split; [done|]. eapply Forall_impl; [exact Hl2|].
    intros r2. simpl. lia.
  - apply Forall_app. split; [done|]. eapply Forall_impl; [exact Hl2|]. simpl. lia.
Qed.

Lemma missed_loop_spec n c l last_end :
  cache_ok n c -> Forall (entry_ok n (BlockCache.wal_offset c)) l -> StronglySorted disjoint l ->
  Forall (fun ke => last_end < ke.1 + Entry.len ke.2) l -> 0 <= last_end < 2 ^ 32 ->
  exists gaps z, BlockCache.missed_loop c l last_end = Ret (gaps, z) /\
    last_end <= z < 2 ^ 32 /\
    (l = [] \/ Exists (fun ke => ke.1 + Entry.len ke.2 = z) l) /\
    Forall (fun ke => ke.1 + Entry.len ke.2 <= z) l /\
    Forall (fun r => 0 < EntryRange.len r) gaps /\
    (forall x, last_end <= x < z -> covered l x \/ in_ranges gaps (BlockCache.wal_offset c + x)) /\
    (forall x, in_ranges gaps (BlockCache.wal_offset c + x) ->
       last_end <= x /\ Exists (fun ke => x < ke.1) l /\ ~ covered l x) /\
    (gaps = [] -> tiled last_end l z) /\
    in_order (BlockCache.wal_offset c + last_end) gaps /\
    Forall (fun r => EntryRange.wal_offset r + EntryRange.len r <= BlockCache.wal_offset c + z) gaps /\
    (forall d, (d | last_end) -> entries_on d l -> ranges_on d (BlockCache.wal_offset c) gaps /\ (d | z)).
Proof.
  intros Hc Hok Hd Hlast Hle. destruct (co_base _ _ Hc) as [Hb0 Hb1].
  revert last_end Hlast Hle. induction Hd as [|[k e] l Hd IH Hke]; intros last_end Hlast Hle; simpl.
  { exists [], last_end. split_and!; try done; try lia; try (by left); try (by repeat constructor).
    unfold in_ranges. by intros x ?%Exists_nil. }
  apply Forall_cons in Hok as [He Hok]. pose proof He as (Hk & Hl & Hkl & _).
  apply Forall_cons in Hlast as [Hlast1 Hlast]. simpl in Hlast1.
  assert (exists gap, (if last_end <? k then o ← u64_add (BlockCache.wal_offset c) last_end;
       Ret [EntryRange.mk o (k - last_end)] else Ret []) = Ret gap /\
     Forall (fun r => 0 < EntryRange.len r) gap /\ (gap = [] -> k <= last_end) /\
     in_order (BlockCache.wal_offset c + last_end) gap /\
     Forall (fun r => EntryRange.wal_offset r + EntryRange.len r <= BlockCache.wal_offset c + k) gap /\
     (forall d, (d | last_end) -> (d | k) -> ranges_on d (BlockCache.wal_offset c) gap) /\
     forall x, in_ranges gap (BlockCache.wal_offset c + x) <-> last_end <= x < k) as (gap & -> & Hpos & Hnil & Hgo & Hge & Hgd & Hgap).
  { case_bool.
    - run_arith. eexists. split; [done|].
      split_and!; try done; try (repeat constructor; simpl; lia).
      { intros d H1 H2. repeat constructor; simpl; [by replace (_ - _) with last_end by lia|].
        by apply Z.divide_sub_r. }
      intros x. unfold in_ranges. rewrite Exists_cons, Exists_nil. unfold in_range. simpl. lia.
    - exists []. split_and!; try done; try (by repeat constructor).
      intros x. unfold in_ranges. rewrite Exists_nil. lia. }
  simpl. run_arith.
  destruct (IH Hok (k + Entry.len e)) as (gaps & z & Hml & Hz & Hall & Hends & Hpos' & Hcov & Hmiss &
    Htile & Hord & Hgends & Hon).
  { apply Forall_forall. intros [k' e'] Hin. rewrite Forall_forall in Hke, Hok.
    specialize (Hke _ Hin). specialize (Hok _ Hin) as (_ & ? & _). unfold disjoint in Hke. simpl in *. lia. }
  { lia. }
  rewrite Hml. simpl. exists (gap ++ gaps), z.
  assert (Hnc : forall x, x < k + Entry.len e -> ~ covered l x).
  { intros x Hx (ke & Hin & Hcv)%Exists_exists. rewrite Forall_forall in Hke.
    specialize (Hke _ Hin). unfold disjoint in Hke. simpl in Hke. lia. }
  split_and!; [done|lia|lia| |constructor; [simpl; lia|done]|by apply Forall_app|..].
  - right. destruct Hall as [->|Hall]; [left|by right]. simpl in *. by injection Hml as <- <-.
  - intros x Hx. unfold covered, in_ranges. rewrite Exists_cons, Exists_app. simpl.
    destruct (decide (x < k)); [right; left; apply Hgap; lia|].
    destruct (decide (x < k + Entry.len e)); [left; left; lia|].
    destruct (Hcov x) as [?|?]; [lia|by left; right|by right; right].
  - intros x. unfold in_ranges. rewrite Exists_app. intros [Hx%Hgap|Hx%Hmiss].
    + split; [lia|]. split; [left; simpl; lia|]. unfold covered. rewrite Exists_cons. simpl.
      intros [?|Hcv]; [lia|]. revert Hcv. apply Hnc. lia.
    + destruct Hx as (Hx & Hex & Hncv). split; [lia|]. split; [by right|].
      unfold covered. rewrite Exists_cons. simpl. intros [?|?]; [lia|done].
  - intros [-> ->]%app_eq_nil. split; [specialize (Hnil eq_refl); lia|by apply Htile].
  - apply in_order_app with (BlockCache.wal_offset c + (k + Entry.len e)); [done|done|lia|].
    eapply Forall_impl; [exact Hge|]. simpl. lia.
  - apply Forall_app. split; [|done]. eapply Forall_impl; [exact Hge|]. simpl. lia.
  - intros d Hdl [[Hdk Hde] Hdr]%Forall_cons. simpl in *.
    destruct (Hon d) as [? ?]; [by apply Z.divide_add_r|done|]. split; [|done].
    apply Forall_app. split; [by apply Hgd|done].
Qed.

(** The same entry, but for its hits and when it was hit. *)
Definition same (a b : Z * Entry.t) : Prop :=
  a.1 = b.1 /\ Entry.strong_rc a.2 = Entry.strong_rc b.2 /\
  Entry.entry_range a.2 = Entry.entry_range b.2 /\ Entry.buf a.2 = Entry.buf b.2.

#[local] Instance same_equivalence : Equivalence same.
Proof. split; unfold same; repeat intros ?; intuition congruence. Qed.

Lemma same_len a b :
  same a b -> Entry.len a.2 = Entry.len b.2 /\ Entry.wal_offset a.2 = Entry.wal_offset b.2.
Proof. intros (_ & _ & Hr & Hb). unfold Entry.len, Entry.wal_offset. by rewrite Hr, Hb. Qed.

Lemma same_disjoint (m m' : emap) :
  Forall2 same m m' -> StronglySorted disjoint m -> StronglySorted disjoint m'.
Proof.
  induction 1 as [|a a' m m' Ha Hm IH]; [done|]. intros [Hs Hd]%StronglySorted_inv.
  constructor; [by apply IH|]. destruct (same_len _ _ Ha) as [Hla _]. destruct Ha as [Hka _].
  clear IH Hs. induction Hm as [|b b' m m' Hb Hm IH]; [done|]. apply Forall_cons in Hd as [Hd1 Hd].
  constructor; [|by apply IH]. unfold disjoint in *. destruct Hb as [Hkb _]. congruence.
Qed.

Lemma disjoint_sorted n base m :
  Forall (entry_ok n base) m -> StronglySorted disjoint m -> BTreeMap.sorted m.
Proof.
  intros Hok. induction 1 as [|[k e] m Hs IH Hd]; [constructor|].
  apply Forall_cons in Hok as [(_ & Hl & _) Hok]. constructor; [by apply IH|].
  eapply Forall_impl; [exact Hd|]. intros [k' e'] Hd'. unfold disjoint in Hd'. simpl in *. lia.
Qed.

Lemma same_insert (m : emap) k e e' :
  BTreeMap.sorted m -> BTreeMap.get m k = Some e -> same (k, e) (k, e') ->
  Forall2 same m (BTreeMap.insert m k e').
Proof.
  intros Hs Hg He. induction Hs as [|[k0 e0] m Hs IH Hlt]; simpl in *; [done|].
  destruct (Z.eqb_spec k k0) as [->|Hne].
  - rewrite Z.ltb_irrefl. simplify_eq. by constructor.
  - case_bool; [|constructor; [done|by apply IH]].
    assert ((k, e) ∈ m) as Hin by by apply BTreeMap.get_elem.
    rewrite Forall_forall in Hlt. specialize (Hlt _ Hin). simpl in Hlt. lia.
Qed.

Lemma entry_ok_mono n n' base ke : n <= n' -> entry_ok n base ke -> entry_ok n' base ke.
Proof. destruct ke as [k e]. intros Hn (?&?&?&?&?&?&?). unfold entry_ok. split_and!; (done || lia). Qed.

Lemma score_Ret n base k e :
  entry_ok n base (k, e) -> n <= 2 ^ 34 -> exists s, Entry.score e = Ret s.
Proof.
  intros (_ & _ & _ & _ & _ & [Hh Hn] & Hi) Hn'. unfold Entry.score.
  rewrite Z.shiftl_mul_pow2 by lia.
  rewrite as_uint_id by (unfold is_uint; split; [lia|]; change (2 ^ 64) with (2 ^ 37 * 2 ^ 27); nia).
  exists (Entry.last_hit_instant e + Entry.hit e * 2 ^ 27). apply uint_add_Ret. lia.
Qed.

(** The caches that a lookup leaves: the same entries, hit once more at most. *)
Definition touched (c c' : BlockCache.t S) : Prop :=
  BlockCache.wal_offset c' = BlockCache.wal_offset c /\
  BlockCache.alignment c' = BlockCache.alignment c /\
  BlockCache.cache_size c' = BlockCache.cache_size c /\
  Forall2 same (BlockCache.entries c) (BlockCache.entries c').

Lemma touch_loop_spec n c l now :
  cache_ok (n + 1) c -> n + 1 <= 2 ^ 34 -> 0 <= now < 2 ^ 62 ->
  Forall (entry_ok n (BlockCache.wal_offset c)) l ->
  Forall (fun ke => BTreeMap.get (BlockCache.entries c) ke.1 = Some ke.2) l ->
  NoDup l.*1 ->
  exists c', BlockCache.touch_loop c l now = Ret (omap (fun ke => Entry.buf ke.2) l, c') /\
    cache_ok (n + 1) c' /\ touched c c'.
Proof.
  intros Hc Hn Hnow Hok Hget Hdup. revert c Hc Hok Hget.
  induction l as [|[k e] l IH]; intros c Hc Hok Hget.
  { exists c. split_and!; try done. }
  apply Forall_cons in Hok as [Hke Hok]. apply Forall_cons in Hget as [Hk Hget]. simpl in Hk.
  apply NoDup_cons in Hdup as [Hnin Hdup]. simpl.
  unfold BlockCache.score_remove. destruct (score_Ret _ _ _ _ Hke) as [s ->]; [lia|]. simpl.
  unfold Entry.touch. pose proof Hke as (?&?&?&?&?&?&?). run_arith.
  set (e' := Entry.mk _ _ _ _ _).
  assert (entry_ok (n + 1) (BlockCache.wal_offset c) (k, e')) as He'.
  { unfold entry_ok. split_and!; try done; unfold e'; simpl; lia. }
  unfold BlockCache.score_insert. destruct (score_Ret _ _ _ _ He') as [s' ->]; [lia|]. simpl.
  set (c2 := BlockCache.set_scores _ _).
  assert (touched c c2) as Ht.
  { split_and!; try done. apply same_insert with e; [|done|by split_and!].
    by eapply disjoint_sorted; [apply Hc|apply Hc]. }
  destruct (IH Hdup c2) as (c' & -> & Hc' & Ht').
  - destruct Hc as [Hb Hal Hen Hdis]. split; try done.
    + apply Forall_forall. intros [k0 e0] [[= -> ->]|Hin]%BTreeMap.insert_elem; [done|].
      rewrite Forall_forall in Hen. by apply Hen.
    + eapply same_disjoint; [apply Ht|done].
  - done.
  - rewrite Forall_forall in Hget |- *. intros [k0 e0] Hin. simpl. rewrite BTreeMap.get_insert, decide_False.
    + exact (Hget _ Hin).
    + intros ->. apply Hnin. apply list_elem_of_fmap. by exists (k, e0).
  - simpl. exists c'. split; [by destruct (Entry.buf e)|]. split; [done|].
    destruct Ht as (Hta&Htb&Htc&Htd), Ht' as (Hta'&Htb'&Htc'&Htd'). split_and!; [congruence..|].
    by etrans.
Qed.

Lemma cache_ok_mono n n' c : n <= n' -> cache_ok n c -> cache_ok n' c.
Proof.
  intros Hn [Hb Hal Hen Hd]. split; try done. eapply Forall_impl; [exact Hen|].
  intros ke. by apply entry_ok_mono.
Qed.

(** [x] lies beyond an entry that ends within a block: the place where the log is being
    written, which is not read from disk. *)
Definition unwritten (c : BlockCache.t S) (x : Z) : Prop :=
  Exists (fun ke => ke.1 + Entry.len ke.2 <= x /\
    (ke.1 + Entry.len ke.2) mod BlockCache.alignment c <> 0) (BlockCache.entries c).

Lemma missed_ranges_spec n c l from to :
  cache_ok n c -> Forall (entry_ok n (BlockCache.wal_offset c)) l -> StronglySorted disjoint l ->
  l <> [] -> Forall (fun ke => ke.1 < to /\ from < ke.1 + Entry.len ke.2) l ->
  0 <= from -> to < 2 ^ 32 ->
  exists missed, BlockCache.missed_ranges c l from to = Ret missed /\
    Forall (fun r => 0 < EntryRange.len r) missed /\
    (forall x, in_ranges missed (BlockCache.wal_offset c + x) -> from <= x < to /\ ~ covered l x) /\
    (forall x, from <= x < to -> covered l x \/ in_ranges missed (BlockCache.wal_offset c + x) \/
       Exists (fun ke => ke.1 + Entry.len ke.2 <= x /\
         (ke.1 + Entry.len ke.2) mod BlockCache.alignment c <> 0) l) /\
    (missed = [] -> exists z, tiled from l z /\ (to <= z \/ z mod BlockCache.alignment c <> 0)) /\
    in_order (BlockCache.wal_offset c + from) missed /\
    (forall d, (d | from) -> (d | to) -> entries_on d l -> ranges_on d (BlockCache.wal_offset c) missed).
Proof.
  intros Hc Hok Hd Hne Hov Hf Hto. pose proof (co_base _ _ Hc) as [Hb0 Hb1]. pose proof (co_align _ _ Hc) as Hal.
  assert (from < 2 ^ 32).
  { destruct l as [|[k e] l]; [done|]. apply Forall_cons in Hok as [(_ & _ & ? & _) _].
    apply Forall_cons in Hov as [[_ ?] _]. simpl in *. lia. }
  destruct (missed_loop_spec n c l from) as (gaps & z & Hml & Hz & Hlast & Hends & Hpos & Hcov & Hmiss &
    Htile & Hord & Hgends & Hon); [done|done|done| |lia|].
  { eapply Forall_impl; [exact Hov|]. by intros ? [_ ?]. }
  destruct Hlast as [?|Hlast]; [done|].
  assert (Hgap : forall x, in_ranges gaps (BlockCache.wal_offset c + x) -> from <= x < to /\ ~ covered l x).
  { intros x (Hx & (ke & Hin & Hxk)%Exists_exists & Hncv)%Hmiss. rewrite Forall_forall in Hov.
    destruct (Hov _ Hin). split; [lia|done]. }
  assert (Hbeyond : forall x, z <= x -> ~ covered l x).
  { intros x Hx (ke & Hin & Hk)%Exists_exists. rewrite Forall_forall in Hends.
    specialize (Hends _ Hin). simpl in *. lia. }
  unfold BlockCache.missed_ranges. rewrite Hml. simpl.
  rewrite (as_uint_id 32) by (unfold is_uint; lia). case_bool; [rewrite uint_rem_Ret by lia; simpl; case_bool|].
  - run_arith. set (tl := EntryRange.mk _ _). exists (gaps ++ [tl]).
    assert (Htl : forall x, in_ranges (gaps ++ [tl]) (BlockCache.wal_offset c + x) <->
      in_ranges gaps (BlockCache.wal_offset c + x) \/ z <= x < to).
    { intros x. unfold in_ranges. rewrite Exists_app, Exists_cons, Exists_nil. unfold in_range at 2. simpl.
      apply or_iff_compat_l. lia. }
    assert (in_order (BlockCache.wal_offset c + z) [tl]) by (repeat constructor; simpl; lia).
    split; [done|]. split; [apply Forall_app; split; [done|]; repeat constructor; simpl; lia|]. split; [|split; [|split; [|split]]].
    + intros x [Hx|Hx]%Htl; [by apply Hgap|]. split; [lia|]. apply Hbeyond. lia.
    + intros x Hx. rewrite Htl. destruct (decide (x < z)); [destruct (Hcov x); [lia|tauto..]|].
      right; left. right. lia.
    + by destruct gaps.
    + apply in_order_app with (BlockCache.wal_offset c + z); (done || lia).
    + intros d H1 H2 H3. destruct (Hon d) as [? ?]; [done..|]. apply Forall_app. split; [done|].
      repeat constructor; simpl; [by replace (_ - _) with z by lia|by apply Z.divide_sub_r].
  - exists gaps. split; [done|]. split; [done|]. split; [done|]. split; [|split; [|split; [done|]]].
    + intros x Hx. destruct (decide (x < z)); [destruct (Hcov x); [lia|tauto..]|].
      right; right. eapply Exists_impl; [exact Hlast|]. simpl. intros ke ->. split; [lia|done].
    + intros Hnil. exists z. split; [by apply Htile|by right].
    + intros d H1 H2 H3. by apply Hon.
  - exists gaps. split; [done|]. split; [done|]. split; [done|]. split; [|split; [|split; [done|]]].
    + intros x Hx. destruct (Hcov x); [lia|tauto..].
    + intros Hnil. exists z. split; [by apply Htile|by left].
    + intros d H1 H2 H3. by apply Hon.
Qed.

Lemma sorted_NoDup (m : emap) : BTreeMap.sorted m -> NoDup m.*1.
Proof.
  induction 1 as [|[k e] m Hs IH Hlt]; csimpl; [constructor|]. constructor; [|done].
  intros ([k' e'] & Heq & Hin)%list_elem_of_fmap. rewrite Forall_forall in Hlt.
  specialize (Hlt _ Hin). simpl in *. lia.
Qed.

(** Every entry has a buffer when as many buffers as entries were collected. *)
Lemma omap_loaded (l : emap) :
  (length (omap (fun ke => Entry.buf ke.2) l) =? length l)%nat =
  forallb (fun ke => Entry.is_loaded ke.2) l.
Proof.
  assert (Hle : forall l : emap, (length (omap (fun ke => Entry.buf ke.2) l) <= length l)%nat).
  { intros l'. induction l' as [|ke l' IH]; csimpl; [lia|]. destruct (Entry.buf ke.2); csimpl; lia. }
  induction l as [|ke l IH]; [done|]. csimpl. unfold Entry.is_loaded at 1.
  destruct (Entry.buf ke.2); csimpl; [done|]. apply Nat.eqb_neq, Nat.lt_neq, Nat.lt_succ_r, Hle.
Qed.

Lemma lookup_spec n c r now :
  cache_ok n c -> n < 2 ^ 34 -> 0 <= now < 2 ^ 62 ->
  BlockCache.wal_offset c <= EntryRange.wal_offset r -> 0 < EntryRange.len r ->
  let from := EntryRange.wal_offset r - BlockCache.wal_offset c in
  let to := from + EntryRange.len r in
  to < 2 ^ 32 ->
  exists res c', BlockCache.try_get_entries c r now = Ret (res, c') /\
    cache_ok (n + 1) c' /\ touched c c' /\
    match res with
    | Err missed =>
        (exists x, in_ranges missed x) /\
        (forall x, in_ranges missed (BlockCache.wal_offset c + x) ->
           from <= x < to /\ ~ covered (BlockCache.entries c) x) /\
        (forall x, from <= x < to ->
           covered (BlockCache.entries c) x \/ in_ranges missed (BlockCache.wal_offset c + x) \/
           unwritten c x) /\
        Forall (fun r => 0 < EntryRange.len r) missed /\
        in_order (EntryRange.wal_offset r) missed /\
        (forall d, (d | from) -> (d | to) -> entries_on d (BlockCache.entries c) ->
           ranges_on d (BlockCache.wal_offset c) missed)
    | Ok found =>
        let l := List.filter (overlaps from to) (BlockCache.entries c) in
        (exists z, tiled from l z /\ (to <= z \/ z mod BlockCache.alignment c <> 0)) /\
        found = if forallb (fun ke => Entry.is_loaded ke.2) l
                then Some (omap (fun ke => Entry.buf ke.2) l) else None
    end.
Proof.
  intros Hc Hn Hnow Hge Hlen from to Hto. assert (Hto' : from + EntryRange.len r < 2 ^ 32) by done.
  assert (Hc1 : cache_ok (n + 1) c) by (eapply cache_ok_mono; [|done]; lia).
  assert (Hrefl : touched c c) by (split_and!; done).
  pose proof (co_base _ _ Hc) as [Hb0 Hb1]. pose proof (co_align _ _ Hc) as Hal.
  unfold BlockCache.try_get_entries. rewrite (proj2 (Z.ltb_ge _ _)) by lia. fold from.
  rewrite (as_uint_id 32 from) by (unfold is_uint; lia).
  rewrite (uint_add_Ret 32) by lia. simpl. rewrite (search_spec n) by (done || lia). simpl. fold to.
  set (l := List.filter (overlaps from to) (BlockCache.entries c)).
  assert (Hl : forall k e, (k, e) ∈ l <-> (k, e) ∈ BlockCache.entries c /\ k < to /\ from < k + Entry.len e).
  { intros k e. unfold l. rewrite filter_elem. unfold overlaps. simpl. rewrite andb_true_iff, !Z.ltb_lt. done. }
  assert (Hcl : forall x, from <= x < to -> covered (BlockCache.entries c) x -> covered l x).
  { intros x Hx ([k e] & Hin & Hk)%Exists_exists. apply Exists_exists. exists (k, e). split; [|done].
    apply Hl. simpl in Hk. split_and!; (done || lia). }
  assert (Hlc : forall x, covered l x -> covered (BlockCache.entries c) x).
  { intros x ([k e] & [Hin _]%Hl & Hk)%Exists_exists. apply Exists_exists. by exists (k, e). }
  destruct l as [|ke0 l0] eqn:El.
  { exists (Err [r]), c. split_and!; try done.
    - exists (EntryRange.wal_offset r). left. unfold in_range. lia.
    - intros x [Hx|?%Exists_nil]%Exists_cons; [|done]. unfold in_range in Hx. split; [lia|].
      intros Hcv%Hcl; [by apply Exists_nil in Hcv|lia].
    - intros x Hx. right; left. left. unfold in_range. lia.
    - by repeat constructor.
    - by repeat constructor.
    - intros d Hdf Hdt _. repeat constructor; [done|].
      replace (EntryRange.len r) with (to - from) by (unfold to; lia). by apply Z.divide_sub_r. }
  rewrite <- El in *. assert (l <> []) as Hne by (by rewrite El). clear El ke0 l0.
  assert (Hok : Forall (entry_ok n (BlockCache.wal_offset c)) l).
  { apply Forall_forall. intros [k e] [Hin _]%Hl. apply (proj1 (Forall_forall _ _) (co_entries _ _ Hc) _ Hin). }
  assert (Hd : StronglySorted disjoint l) by apply filter_sorted, (co_disjoint _ _ Hc).
  destruct (missed_ranges_spec n c l from to) as (missed & -> & Hpos & Hin & Hcov & Hnil & Hord & Hon);
    [done..| |lia|done|].
  { apply Forall_forall. intros [k e] [_ ?]%Hl. done. }
  simpl. destruct missed as [|r0 missed].
  - destruct (touch_loop_spec n c l now) as (c' & -> & Hc' & Ht); [done|lia|done|done| | |].
    { apply Forall_forall. intros [k e] [? _]%Hl. apply BTreeMap.get_elem; [|done].
      eapply disjoint_sorted; apply Hc. }
    { apply sorted_NoDup. by eapply disjoint_sorted. }
    simpl. eexists _, c'. split; [done|]. split; [done|]. split; [done|]. cbv zeta. fold l.
    split; [by apply Hnil|]. by rewrite omap_loaded.
  - eexists _, c. split; [done|]. split; [done|]. split; [done|].
    split; [|split; [|split; [|split; [done|split]]]].
    + exists (EntryRange.wal_offset r0). left. apply Forall_cons in Hpos as [? _]. unfold in_range. lia.
    + intros x [Hx Hncv]%Hin. split; [done|]. intros Hcv%Hcl; done.
    + intros x Hx. destruct (Hcov x Hx) as [?|[?|Hun]]; [by left; apply Hlc|by right; left|].
      right; right. apply Exists_exists in Hun as ([k e] & [Hke _]%Hl & Hend).
      apply Exists_exists. by exists (k, e).
    + by replace (EntryRange.wal_offset r) with (BlockCache.wal_offset c + from) by (unfold from; lia).
    + intros d Hdf Hdt Hde. apply Hon; [done..|]. apply Forall_forall. intros [k e] [Hke _]%Hl.
      by apply (proj1 (Forall_forall _ _) Hde).
Qed.

(** A new entry in a gap. *)
Definition separate (ke : Z * Entry.t) (m : emap) : Prop :=
  Forall (fun ke' => disjoint ke ke' \/ disjoint ke' ke) m.

Lemma disjoint_insert m k e :
  0 < Entry.len e -> Forall (fun ke => 0 < Entry.len ke.2) m ->
  StronglySorted disjoint m -> separate (k, e) m -> StronglySorted disjoint (BTreeMap.insert m k e).
Proof.
  intros He Hpos Hs Hsep. induction Hs as [|[k0 e0] m Hs IH Hd]; simpl; [by repeat constructor|].
  apply Forall_cons in Hpos as [Hp0 Hpos], Hsep as [Hsep0 Hsep]. unfold disjoint in Hsep0. simpl in *.
  case_bool.
  - constructor; [by constructor|]. constructor; [unfold disjoint; simpl; lia|].
    eapply Forall_impl; [exact Hd|]. intros ke. unfold disjoint. simpl. lia.
  - rewrite (proj2 (Z.eqb_neq _ _)) by lia. constructor; [by apply IH|].
    apply Forall_forall. intros [k1 e1] [[= -> ->]|Hin]%BTreeMap.insert_elem; [unfold disjoint; simpl; lia|].
    by apply (proj1 (Forall_forall _ _) Hd).
Qed.

Lemma separate_uncovered k e m :
  0 < Entry.len e -> Forall (fun ke => 0 < Entry.len ke.2) m ->
  (forall x, k <= x < k + Entry.len e -> ~ covered m x) -> separate (k, e) m.
Proof.
  intros He Hpos Hun. apply Forall_forall. intros [k' e'] Hin. unfold disjoint. simpl.
  pose proof (proj1 (Forall_forall _ _) Hpos _ Hin) as Hp. simpl in Hp.
  destruct (decide (k + Entry.len e <= k' \/ k' + Entry.len e' <= k)) as [?|Hno]; [done|]. exfalso.
  apply (Hun (k `max` k')); [lia|]. apply Exists_exists. exists (k', e'). simpl. split; [done|lia].
Qed.

Lemma uncovered_get m k e :
  BTreeMap.sorted m -> Forall (fun ke => 0 < Entry.len ke.2) m -> ~ covered m k -> BTreeMap.get m k <> Some e.
Proof.
  intros Hs Hpos Hun Hg. apply BTreeMap.get_elem in Hg; [|done]. apply Hun, Exists_exists.
  exists (k, e). pose proof (proj1 (Forall_forall _ _) Hpos _ Hg) as Hp. simpl in *. split; [done|lia].
Qed.

Lemma covered_insert m k e x :
  BTreeMap.get m k = None -> BTreeMap.sorted m ->
  covered (BTreeMap.insert m k e) x <-> k <= x < k + Entry.len e \/ covered m x.
Proof.
  intros Hg Hs. unfold covered. rewrite !Exists_exists. split.
  - intros ([k' e'] & Hin & Hx). apply BTreeMap.elem_of_insert in Hin as [[-> ->]|[? Hin]]; [by left|right|done].
    by exists (k', e').
  - intros [Hx|([k' e'] & Hin & Hx)].
    + exists (k, e). split; [|done]. apply BTreeMap.elem_of_insert; [done|]. by left.
    + exists (k', e'). split; [|done]. apply BTreeMap.elem_of_insert; [done|]. right. split; [|done].
      intros ->. apply BTreeMap.get_elem in Hin; [congruence|done].
Qed.

Lemma entries_pos n base m : Forall (entry_ok n base) m -> Forall (fun ke => 0 < Entry.len ke.2) m.
Proof. intros Hok. eapply Forall_impl; [exact Hok|]. by intros [k e] (_ & ? & _). Qed.

(** A block where nothing is cached. *)
Definition gap_block (c : BlockCache.t S) (b : abuf) (k : Z) : Prop :=
  AlignedBuf.wal_offset b = BlockCache.wal_offset c + k /\ 0 <= k /\
  0 < AlignedBuf.limit b /\ k + AlignedBuf.limit b < 2 ^ 32 /\
  forall x, k <= x < k + AlignedBuf.limit b -> ~ covered (BlockCache.entries c) x.

Lemma new_entry_ok n c b now k :
  gap_block c b k -> 0 <= n -> 0 <= now < 2 ^ 62 ->
  entry_ok n (BlockCache.wal_offset c) (k, Entry.new b now) /\
  Entry.len (Entry.new b now) = AlignedBuf.limit b.
Proof.
  intros (Hw & Hk & Hl & Hlt & Hun) Hn Hnow.
  assert (Hlen : Entry.len (Entry.new b now) = AlignedBuf.limit b).
  { unfold Entry.len. simpl. apply as_uint_id. unfold is_uint. lia. }
  split; [|done]. unfold entry_ok. rewrite Hlen. unfold is_uint, Entry.wal_offset. simpl. split_and!; (done || lia).
Qed.

Lemma gap_insert n c b now k :
  cache_ok n c -> 0 <= n -> 0 <= now < 2 ^ 62 -> gap_block c b k ->
  cache_ok n (BlockCache.set_entries c (BTreeMap.insert (BlockCache.entries c) k (Entry.new b now))) /\
  BTreeMap.get (BlockCache.entries c) k = None.
Proof.
  intros [Hb Hal Hen Hd] Hn Hnow Hgap. destruct (new_entry_ok n c b now k) as [He Hlen]; [done..|].
  destruct Hgap as (Hw & Hk & Hl & Hlt & Hun).
  pose proof (disjoint_sorted _ _ _ Hen Hd) as Hs. pose proof (entries_pos _ _ _ Hen) as Hpos. split.
  - split; try done.
    + apply Forall_forall. intros [k' e'] [[= -> ->]|Hin]%BTreeMap.insert_elem; [done|].
      by apply (proj1 (Forall_forall _ _) Hen).
    + apply disjoint_insert; [by rewrite Hlen|done|done|]. apply separate_uncovered; [by rewrite Hlen|done|].
      by rewrite Hlen.
  - destruct (BTreeMap.get (BlockCache.entries c) k) as [e|] eqn:Hg; [|done].
    exfalso. revert Hg. apply uncovered_get; [done..|]. apply Hun. lia.
Qed.

Lemma add_entry_gap n c b now k :
  cache_ok n c -> 0 <= n <= 2 ^ 34 -> 0 <= now < 2 ^ 62 -> gap_block c b k ->
  BlockCache.cache_size c + as_uint 32 (AlignedBuf.capacity b) < 2 ^ 32 ->
  exists c', BlockCache.add_entry c b now = Ret c' /\ cache_ok n c' /\
    BlockCache.entries c' = BTreeMap.insert (BlockCache.entries c) k (Entry.new b now) /\
    BlockCache.wal_offset c' = BlockCache.wal_offset c /\
    BlockCache.alignment c' = BlockCache.alignment c.
Proof.
  intros Hc Hn Hnow Hgap Hsz. destruct (gap_insert n c b now k) as [Hc' Hget]; [done|lia|done|done|].
  destruct (new_entry_ok n c b now k) as [He _]; [done|lia|done|].
  destruct Hgap as (Hw & Hk & Hl & Hlt & Hun).
  unfold BlockCache.add_entry. rewrite Hw. run_arith.
  replace (_ + k - _) with k by lia. rewrite as_uint_id by (unfold is_uint; lia). rewrite Hget. simpl.
  unfold Entry.capacity at 1. simpl. run_arith.
  unfold BlockCache.score_insert. destruct (score_Ret _ _ _ _ He) as [sc ->]; [lia|]. simpl.
  eexists. split; [done|]. split; [|done]. by destruct Hc'.
Qed.

(** A lookup tells exactly what must be read.  For a cache of disjoint entries and a
    query within its segment: if the answer is a list of missed ranges, no missed byte is
    cached or outside the query, and every byte of the query is cached, missed, or beyond
    the partial block at the end of the log.  If the answer is a list of buffers, they are
    those of the entries that overlap the query, and each starts where the one before ends,
    from the start of the query to its end or to the end of a partial block; and it is
    [None] when one of these entries is still loading.  The entries stay what they are. *)
Theorem try_get_entries_spec n c r now :
  cache_ok n c -> n < 2 ^ 34 -> 0 <= now < 2 ^ 62 ->
  BlockCache.wal_offset c <= EntryRange.wal_offset r -> 0 < EntryRange.len r ->
  let from := EntryRange.wal_offset r - BlockCache.wal_offset c in
  let to := from + EntryRange.len r in
  to < 2 ^ 32 ->
  exists res c', BlockCache.try_get_entries c r now = Ret (res, c') /\
    cache_ok (n + 1) c' /\ touched c c' /\
    match res with
    | Err missed =>
        (exists x, in_ranges missed x) /\
        (forall x, in_ranges missed (BlockCache.wal_offset c + x) ->
           from <= x < to /\ ~ covered (BlockCache.entries c) x) /\
        (forall x, from <= x < to ->
           covered (BlockCache.entries c) x \/ in_ranges missed (BlockCache.wal_offset c + x) \/
           unwritten c x)
    | Ok found =>
        let l := List.filter (overlaps from to) (BlockCache.entries c) in
        (exists z, tiled from l z /\ (to <= z \/ z mod BlockCache.alignment c <> 0)) /\
        found = if forallb (fun ke => Entry.is_loaded ke.2) l
                then Some (omap (fun ke => Entry.buf ke.2) l) else None
    end.
Proof.
  intros Hc Hn Hnow Hge Hlen from to Hto.
  destruct (lookup_spec n c r now) as (res & c' & Heq & Hc' & Ht & Hres); [done..|].
  exists res, c'. split; [done|]. split; [done|]. split; [done|]. destruct res; [done|].
  destruct Hres as (H1 & H2 & H3 & _). by split_and!.
Qed.
End lookup.

(** ** Accounting *)

Section accounting.
Context {S : SkipListApi}.

Definition weight (e : Entry.t) : Z := if Entry.is_loaded e then Entry.capacity e else 0.
Fixpoint loaded_size (m : @BTreeMap.t Entry.t) : Z :=
  match m with [] => 0 | (_, e) :: m => weight e + loaded_size m end.
Definition weight_at (m : @BTreeMap.t Entry.t) (k : Z) : Z :=
  match BTreeMap.get m k with Some e => weight e | None => 0 end.

Lemma weight_eq e e' :
  Entry.buf e' = Entry.buf e -> Entry.entry_range e' = Entry.entry_range e -> weight e' = weight e.
Proof. intros Hb Hr. unfold weight, Entry.is_loaded, Entry.capacity. by rewrite Hb, Hr. Qed.

Lemma get_below (m : @BTreeMap.t Entry.t) k k0 :
  Forall (fun b => k0 < b.1) m -> k <= k0 -> BTreeMap.get m k = None.
Proof.
  intros Hlt Hk. induction Hlt as [|[k1 e1] m Hk1 _ IH]; [done|]. simpl in *.
  by rewrite (proj2 (Z.eqb_neq _ _)) by lia.
Qed.

Lemma loaded_size_insert m k e :
  BTreeMap.sorted m -> loaded_size (BTreeMap.insert m k e) = loaded_size m - weight_at m k + weight e.
Proof.
  unfold weight_at. induction 1 as [|[k0 e0] m Hs IH Hlt]; simpl; [lia|].
  destruct (Z.eqb_spec k k0) as [->|Hne]; [rewrite Z.ltb_irrefl; simpl; lia|].
  case_bool; simpl; [|rewrite IH; lia]. rewrite (get_below m k k0) by (done || lia). lia.
Qed.

Lemma loaded_size_remove m k :
  BTreeMap.sorted m -> loaded_size (BTreeMap.remove m k) = loaded_size m - weight_at m k.
Proof.
  unfold weight_at. induction 1 as [|[k0 e0] m Hs IH Hlt]; simpl; [lia|]. case_bool. simpl.
  rewrite IH. lia.
Qed.

Definition size_ok (c : BlockCache.t S) : Prop :=
  BTreeMap.sorted (BlockCache.entries c) /\
  BlockCache.cache_size c = loaded_size (BlockCache.entries c).

(** The operations of the cache.  [remove] is meant for caches in which the entries that the
    predicate selects are loaded. *)
Inductive cache_step (c : BlockCache.t S) : BlockCache.t S -> Prop :=
| step_add b now c' : BlockCache.add_entry c b now = Ret c' -> cache_step c c'
| step_load r now c' : BlockCache.add_loading_entry c r now = Ret c' -> cache_step c c'
| step_reference r n c' : BlockCache.strong_reference_entries c r n = Ret c' -> cache_step c c'
| step_get r now res c' : BlockCache.try_get_entries c r now = Ret (res, c') -> cache_step c c'
| step_remove_by o e c' : BlockCache.remove_by c o = Ret (e, c') -> cache_step c c'
| step_remove_by_score e c' : BlockCache.remove_by_score c = Ret (e, c') -> cache_step c c'
| step_remove pred c' :
    Forall (fun ke => pred ke.2 = true -> Entry.is_loaded ke.2 = true) (BlockCache.entries c) ->
    BlockCache.remove c pred = Ret c' -> cache_step c c'.

Lemma score_remove_inv c e c' :
  BlockCache.score_remove c e = Ret c' -> exists l, c' = BlockCache.set_scores c l.
Proof. unfold BlockCache.score_remove. intros H. inv_ret. eauto. Qed.
Lemma score_insert_inv c e c' :
  BlockCache.score_insert c e = Ret c' -> exists l, c' = BlockCache.set_scores c l.
Proof. unfold BlockCache.score_insert. intros H. inv_ret. eauto. Qed.
Lemma unaccount_inv c e c' :
  BlockCache.unaccount c e = Ret c' -> c' = BlockCache.set_size c (BlockCache.cache_size c - weight e).
Proof.
  unfold BlockCache.unaccount, weight. intros H. case_match; inv_ret; [done|].
  rewrite Z.sub_0_r. by destruct c'.
Qed.

Ltac cache_inv :=
  inv_ret;
  repeat (match goal with
  | H : BlockCache.score_remove _ _ = Ret _ |- _ => apply score_remove_inv in H as [? ->]
  | H : BlockCache.score_insert _ _ = Ret _ |- _ => apply score_insert_inv in H as [? ->]
  | H : BlockCache.unaccount _ _ = Ret _ |- _ => apply unaccount_inv in H as ->
  end; inv_ret).

(** An entry inserted in place of what was at its key, with the sizes accounted for. *)
Lemma size_ok_insert c k e l n w a :
  size_ok c -> n = BlockCache.cache_size c - weight_at (BlockCache.entries c) k + weight e ->
  size_ok (BlockCache.mk w (BTreeMap.insert (BlockCache.entries c) k e) l n a).
Proof.
  intros [Hs Hn] ->. split; simpl; [by apply BTreeMap.sorted_insert|].
  rewrite loaded_size_insert by done. lia.
Qed.
Lemma size_ok_remove c k l n w a :
  size_ok c -> n = BlockCache.cache_size c - weight_at (BlockCache.entries c) k ->
  size_ok (BlockCache.mk w (BTreeMap.remove (BlockCache.entries c) k) l n a).
Proof.
  intros [Hs Hn] ->. split; simpl; [by apply BTreeMap.sorted_remove|].
  rewrite loaded_size_remove by done. lia.
Qed.

Lemma add_entry_size c b now c' : size_ok c -> BlockCache.add_entry c b now = Ret c' -> size_ok c'.
Proof.
  intros Hc H. unfold BlockCache.add_entry in H. inv_ret. set (k := as_uint 32 _) in *.
  destruct (BTreeMap.get (BlockCache.entries c) k) as [pre|] eqn:Hg; cache_inv; simpl;
    (apply size_ok_insert; [done|]); unfold weight_at, weight; rewrite Hg; simpl; lia.
Qed.

Lemma add_loading_entry_size c r now c' :
  size_ok c -> BlockCache.add_loading_entry c r now = Ret c' -> size_ok c'.
Proof.
  intros Hc H. unfold BlockCache.add_loading_entry in H. inv_ret. set (k := as_uint 32 _) in *.
  destruct (BTreeMap.get (BlockCache.entries c) k) as [pre|] eqn:Hg; cache_inv; simpl;
    (apply size_ok_insert; [done|]); unfold weight_at, weight; rewrite Hg; simpl; lia.
Qed.

Lemma remove_by_size c o e c' : size_ok c -> BlockCache.remove_by c o = Ret (e, c') -> size_ok c'.
Proof.
  intros Hc H. unfold BlockCache.remove_by in H. case_bool; inv_ret; [done|].
  set (k := as_uint 32 _) in *.
  destruct (BTreeMap.get (BlockCache.entries c) k) as [pre|] eqn:Hg; cache_inv; simpl; [|done].
  apply size_ok_remove; [done|]. unfold weight_at. by rewrite Hg.
Qed.

(** The elements of a search result are entries of the map, with different keys. *)
Definition part_of (m l : @BTreeMap.t Entry.t) : Prop :=
  Forall (fun ke => BTreeMap.get m ke.1 = Some ke.2) l /\ NoDup l.*1.

Lemma filter_covers_sublist r l l' : BlockCache.filter_covers r l = Ret l' -> l' `sublist_of` l.
Proof.
  revert l'. induction l as [|[k e] l IH]; intros l' H; simpl in H; inv_ret; [done|].
  case_match; inv_ret; [apply sublist_skip|apply sublist_cons]; by apply IH.
Qed.

Lemma filter_sublist {A} (f : A -> bool) l : List.filter f l `sublist_of` l.
Proof.
  induction l as [|x l IH]; simpl; [done|]. case_match; [by apply sublist_skip|by apply sublist_cons].
Qed.

Lemma search_part c r from to l :
  BTreeMap.sorted (BlockCache.entries c) -> BlockCache.search c r from to = Ret l ->
  part_of (BlockCache.entries c) l.
Proof.
  intros Hs H. unfold BlockCache.search, BlockCache.range in H. inv_ret. case_bool; inv_ret.
  match goal with H : BlockCache.filter_covers _ _ = _ |- _ => apply filter_covers_sublist in H as Hsub end.
  assert (Hsub' : l `sublist_of` BlockCache.entries c).
  { etrans; [exact Hsub|]. apply filter_sublist. }
  split.
  - apply Forall_forall. intros [k e] Hin. apply BTreeMap.get_elem; [done|].
    by eapply elem_of_sublist.
  - eapply sublist_NoDup; [by apply sorted_NoDup|]. by apply fmap_sublist.
Qed.

Lemma part_of_insert m k e e' l :
  part_of m ((k, e) :: l) -> BTreeMap.get m k = Some e /\ part_of (BTreeMap.insert m k e') l.
Proof.
  intros [[Hk Hget]%Forall_cons [Hnin Hdup]%NoDup_cons]. simpl in Hk. split; [done|]. split; [|done].
  rewrite Forall_forall in Hget |- *. intros [k0 e0] Hin. simpl. rewrite BTreeMap.get_insert, decide_False.
  - exact (Hget _ Hin).
  - intros ->. apply Hnin, list_elem_of_fmap. by exists (k, e0).
Qed.

Lemma reference_loop_size c l n c' :
  size_ok c -> part_of (BlockCache.entries c) l -> BlockCache.reference_loop c l n = Ret c' -> size_ok c'.
Proof.
  revert c. induction l as [|[k e] l IH]; intros c Hc Hp H; simpl in H; inv_ret; [done|].
  unfold BlockCache.add_rc in *. inv_ret.
  match goal with H : BlockCache.reference_loop _ _ _ = _ |- _ => apply IH in H as Hc' end; [done| |].
  - apply size_ok_insert; [done|]. apply (part_of_insert _ _ _ e) in Hp as [Hg _]. unfold weight_at.
    rewrite Hg. match goal with |- _ = _ + weight ?e' => rewrite (weight_eq e e') by done end. lia.
  - by eapply part_of_insert.
Qed.

Lemma touch_loop_size c l now bufs c' :
  size_ok c -> part_of (BlockCache.entries c) l -> BlockCache.touch_loop c l now = Ret (bufs, c') -> size_ok c'.
Proof.
  revert c bufs. induction l as [|[k e] l IH]; intros c bufs Hc Hp H; simpl in H; cache_inv; [done|].
  unfold Entry.touch in *. cache_inv.
  match goal with x : (list abuf * _)%type |- _ => destruct x as [bufs' c''] end. inv_ret.
  match goal with H : BlockCache.touch_loop _ _ _ = _ |- _ => apply IH in H as Hc' end; [done| |].
  - simpl. apply (size_ok_insert c); [done|]. apply (part_of_insert _ _ _ e) in Hp as [Hg _]. unfold weight_at.
    rewrite Hg. match goal with |- _ = _ + weight ?e' => rewrite (weight_eq e e') by done end. simpl. lia.
  - by eapply part_of_insert.
Qed.

Lemma remove_loop_size c pred l c' :
  size_ok c -> part_of (BlockCache.entries c) l ->
  Forall (fun ke => pred ke.2 = true -> Entry.is_loaded ke.2 = true) l ->
  BlockCache.remove_loop c pred l = Ret c' -> size_ok c'.
Proof.
  revert c. induction l as [|[k e] l IH]; intros c Hc Hp Hl H; simpl in H; [by inv_ret|].
  apply Forall_cons in Hl as [He Hl]. simpl in He.
  pose proof Hp as [[Hk Hget]%Forall_cons [Hnin Hdup]%NoDup_cons]. simpl in Hk.
  case_match; [|by eapply IH; [| |exact Hl|exact H]; [done|split]].
  cache_inv. match goal with H : BlockCache.remove_loop _ _ _ = _ |- _ => apply IH in H as Hc' end; [done| | |done].
  - apply size_ok_remove; [done|]. unfold weight_at. rewrite Hk. unfold weight. by rewrite He.
  - split; [|done]. simpl. rewrite Forall_forall in Hget |- *. intros [k0 e0] Hin. simpl.
    rewrite BTreeMap.get_remove by apply Hc. rewrite decide_False; [exact (Hget _ Hin)|].
    intros ->. apply Hnin, list_elem_of_fmap. by exists (k, e0).
Qed.

Lemma cache_step_size c c' : size_ok c -> cache_step c c' -> size_ok c'.
Proof.
  intros Hc [b now c1 H|r now c1 H|r n c1 H|r now res c1 H|o e c1 H|e c1 H|pred c1 Hl H].
  - by eapply add_entry_size.
  - by eapply add_loading_entry_size.
  - unfold BlockCache.strong_reference_entries in H. case_bool; inv_ret; [done|].
    eapply reference_loop_size; [done| |done]. eapply search_part; [apply Hc|done].
  - unfold BlockCache.try_get_entries in H. case_bool; inv_ret; [done|].
    match goal with H : BlockCache.search _ _ _ _ = Ret ?l |- _ => destruct l end; inv_ret; [done|].
    case_match; inv_ret; [|done].
    match goal with x : (list abuf * _)%type |- _ => destruct x as [bufs c2] end. inv_ret.
    match goal with H : BlockCache.search _ _ _ _ = Ret ?l |- _ =>
      by eapply (touch_loop_size c l); [|eapply search_part; [apply Hc|exact H]|] end.
  - by eapply remove_by_size.
  - unfold BlockCache.remove_by_score in H. case_match; [|by inv_ret]. case_match; [by inv_ret|].
    by eapply remove_by_size.
  - eapply remove_loop_size; [done| |done|done]. split; [|by apply sorted_NoDup, Hc].
    apply Forall_forall. intros [k e] Hin. by apply BTreeMap.get_elem; [apply Hc|].
Qed.

(** The cache knows its size.  From the empty cache, through any sequence of operations,
    [cache_size] (on which eviction is based) is the sum of the capacities of the entries
    that are loaded; an entry that is replaced, evicted or removed is taken off once. *)
Theorem cache_size_invariant alignment offset c :
  rtc cache_step (BlockCache.new alignment offset) c ->
  BlockCache.cache_size c = loaded_size (BlockCache.entries c).
Proof.
  intros Hrtc. cut (size_ok c); [by intros [_ ?]|].
  assert (Hc : size_ok (BlockCache.new alignment offset)) by (split; [apply BTreeMap.sorted_nil|done]).
  revert Hc. induction Hrtc; eauto using cache_step_size.
Qed.
End accounting.

(** ** Witnesses *)

(** The skip list as a list in the order of the comparison. *)
Definition score_lt (a b : Z * Z) : bool := (a.1 <? b.1) || ((a.1 =? b.1) && (a.2 <? b.2)).
Fixpoint sorted_insert (x : Z * Z) (l : list (Z * Z)) : list (Z * Z) :=
  match l with [] => [x] | y :: l => if score_lt x y then x :: y :: l else y :: sorted_insert x l end.
#[export] Instance list_skiplist : SkipListApi := {
  skiplist := list (Z * Z);
  sl_empty := [];
  sl_insert := sorted_insert;
  sl_remove x l := List.filter (fun y => negb (y.2 =? x.2)) l;
  sl_front := head;
}.

Module CacheExample.
Definition block (o : Z) : abuf := AlignedBuf.mk o (replicate 8 Byte.x61) 8 8.
Definition c : BlockCache.t list_skiplist :=
  BlockCache.mk 64 [(0, Entry.new (block 64) 5); (16, Entry.new (block 80) 6)]
    [(5, 64); (6, 80)] 16 4.

Lemma c_ok : cache_ok 0 c.
Proof.
  split; [done|done| |].
  - repeat constructor; simpl; try done; by vm_compute.
  - repeat constructor. by vm_compute.
Qed.

Lemma c_reachable : rtc cache_step (BlockCache.new 4 64) c.
Proof.
  eapply rtc_l; [eapply (step_add _ (block 64) 5); by vm_compute|].
  eapply rtc_l; [eapply (step_add _ (block 80) 6); by vm_compute|]. apply rtc_refl.
Qed.
End CacheExample.

Lemma merge_ranges_witness :
  exists merged, EntryRange.merge [EntryRange.mk 8 4; EntryRange.mk 0 4; EntryRange.mk 4 6] = Ret merged /\
    StronglySorted apart merged.
Proof.
  destruct (merge_ranges 0 12 [EntryRange.mk 8 4; EntryRange.mk 0 4; EntryRange.mk 4 6])
    as (merged & H1 & _ & H2); [done|done|done|by repeat constructor|].
  exists merged. exact (conj H1 H2).
Defined.

(** The gap between the two blocks is missed. *)
Lemma try_get_entries_spec_witness :
  exists res c', BlockCache.try_get_entries CacheExample.c (EntryRange.mk 64 24) 7 = Ret (res, c') /\
    cache_ok 1 c' /\ res = Err [EntryRange.mk 72 8].
Proof.
  destruct (try_get_entries_spec 0 CacheExample.c (EntryRange.mk 64 24) 7 CacheExample.c_ok)
    as (res & c' & H1 & H2 & _); [done..|].
  exists res, c'. split; [exact H1|]. split; [exact H2|]. vm_compute in H1. by injection H1 as <- _.
Defined.

Lemma cache_size_invariant_witness :
  BlockCache.cache_size CacheExample.c = loaded_size (BlockCache.entries CacheExample.c).
Proof. exact (cache_size_invariant 4 64 CacheExample.c CacheExample.c_reachable). Defined.
