(* ===== verification/Segment.v ===== *)
(** * Log segments

    [components/store/src/io/segment.rs]: a segment file of the write-ahead log, the layout of
    its records and footer, reading through the block cache and truncation after recovery.

    The file behind a segment's descriptor is the list of its bytes.  The alignment of the
    configuration is the one its block cache was created with.  [time_range] is never set and
    left out. *)

From S2P Require Import Prelude Bytes StoreTypes Index Collections AlignedBuf BlockCache.

Definition FOOTER_LENGTH : Z := 24.

(** ** File names *)

Definition digit (d : Z) : Ascii.ascii := Ascii.ascii_of_N (Z.to_N (48 + d)).

Fixpoint digits (n : nat) (z : Z) : list Ascii.ascii :=
  match n with O => [] | S n => digits n (z / 10) ++ [digit (z mod 10)] end.

(** [format!("{:0>20}", offset)]: a [u64] has at most 20 decimal digits. *)
Definition format (offset : Z) : list Ascii.ascii := digits 20 offset.

(** [str::parse::<u64>]: an optional plus sign and at least one digit, without overflow. *)
Definition digit_value (a : Ascii.ascii) : option Z :=
  let d := Z.of_N (Ascii.N_of_ascii a) - 48 in
  if (0 <=? d) && (d <=? 9) then Some d else None.

Fixpoint parse_digits (acc : Z) (s : list Ascii.ascii) : option Z :=
  match s with
  | [] => Some acc
  | a :: s =>
      d ← digit_value a;
      let acc := acc * 10 + d in
      if acc <? 2 ^ 64 then parse_digits acc s else None
  end.

Definition parse_u64 (s : list Ascii.ascii) : option Z :=
  match s with
  | [] => None
  | a :: s' =>
      if Ascii.eqb a (Ascii.ascii_of_N 43) (* '+' *) then
        match s' with [] => None | _ => parse_digits 0 s' end
      else parse_digits 0 s
  end.

(** The argument is the file name of the path. *)
Definition parse_offset (file_name : list Ascii.ascii) : option Z := parse_u64 file_name.

Module Status.
Inductive t :=
| OpenAt | Fallocate64 | Fsync | ReadWrite | Read | Close | UnlinkAt | Recycled
| RenameAt (path : list Ascii.ascii).
#[global] Instance eq_dec : EqDecision t.
Proof. solve_decision. Defined.
Definition eqb (a b : t) : bool := bool_decide (a = b).
End Status.

(** ** Segments *)

Module LogSegment.
Section segment.
Context {S : SkipListApi} {B : BytesApi} {C : Crc32Api}.

Record t := mk {
  wal_offset : Z;              (* u64 *)
  size : Z;                    (* u64 *)
  written : Z;                 (* u64 *)
  block_cache : BlockCache.t S;
  status : Status.t;
  path : list Ascii.ascii;
  sd : option Z;               (* the file descriptor *)
}.

(** [CString::new] refuses a path with a zero byte. *)
Definition new (alignment offset size : Z) (path : list Ascii.ascii) : result t StoreError.t :=
  if existsb (Ascii.eqb Ascii.zero) path then Err StoreError.InvalidPath
  else Ok (mk offset size 0 (BlockCache.new alignment offset) Status.OpenAt path None).

Definition alignment (s : t) : Z := BlockCache.alignment (block_cache s).
Definition set_cache (s : t) (c : BlockCache.t S) : t :=
  mk (wal_offset s) (size s) (written s) c (status s) (path s) (sd s).
Definition set_state (s : t) (w : Z) (st : Status.t) : t :=
  mk (wal_offset s) (size s) w (block_cache s) st (path s) (sd s).
Definition set_status (s : t) (st : Status.t) : t := set_state s (written s) st.
Definition set_sd (s : t) (d : option Z) : t :=
  mk (wal_offset s) (size s) (written s) (block_cache s) (status s) (path s) d.

(** [file] is what opening the file gives: the descriptor and the length, or an error;
    [fallocate] is the error number of the allocation, if it fails. *)
Definition open (s : t) (file : result (Z * Z) StoreError.t) (fallocate : option Z)
    : result unit StoreError.t * t :=
  match sd s with
  | Some _ => (Ok (), s)
  | None =>
      match file with
      | Err e => (Err e, s)
      | Ok (fd, file_len) =>
          if size s =? file_len then (Ok (), set_sd (set_status s Status.Read) (Some fd))
          else if 0 =? file_len then
            match fallocate with
            | Some errno => (Err (StoreError.System errno), s)
            | None => (Ok (), set_sd (set_status s Status.ReadWrite) (Some fd))
            end
          else (Err StoreError.DataCorrupted, s)
      end
  end.

Definition writable (s : t) : bool :=
  (written s <? size s) && Status.eqb (status s) Status.ReadWrite.

Definition can_hold (s : t) (payload_length : Z) : outcome bool :=
  if negb (Status.eqb (status s) Status.Read) then
    n ← u64_add (written s) RecordType.RECORD_PREFIX_LENGTH;
    n ← u64_add n payload_length;
    n ← u64_add n FOOTER_LENGTH;
    Ret (n <=? size s)
  else Ret false.

Definition remaining (s : t) : outcome Z :=
  if negb (Status.eqb (status s) Status.ReadWrite) then Ret 0 else uint_sub (size s) (written s).

Definition checksum_record (payload : list (list byte)) (file_offset : Z) : Z :=
  crc32 (put_uint 4 (crc32_vectored payload) ++ put_uint 8 file_offset).

(** The three writes of a record: checksum, length and type, payload. *)
Definition write_record (w : AlignedBufWriter.t) (crc length_type : Z) (payload : list byte)
    : outcome (result unit StoreError.t * AlignedBufWriter.t) :=
  '(r, w) ← AlignedBufWriter.write_u32 w crc;
  match r with
  | Err e => Ret (Err e, w)
  | Ok _ =>
      '(r, w) ← AlignedBufWriter.write_u32 w length_type;
      match r with
      | Err e => Ret (Err e, w)
      | Ok _ => AlignedBufWriter.write w payload
      end
  end.

Definition append_footer (s : t) (w : AlignedBufWriter.t)
    : outcome (result Z StoreError.t * t * AlignedBufWriter.t) :=
  n ← uint_sub (size s) (written s);
  n ← uint_sub n RecordType.RECORD_PREFIX_LENGTH;
  n ← uint_sub n 8;
  padding_length ← uint_sub n 8;
  len ← u32_add (as_uint 32 padding_length) 8;
  len ← u32_add len 8;
  let length_type := RecordType.with_length RecordType.Zero len in
  let buf := replicate (Z.to_nat padding_length) Byte.x00 ++ put_uint 8 0 ++ put_uint 8 0 in
  let crc := crc32 buf in
  let crc := crc32 (put_uint 4 crc ++ put_uint 8 (wal_offset s)) in
  '(r, w) ← write_record w crc length_type buf;
  match r with
  | Err e => Ret (Err e, s, w)
  | Ok _ =>
      let s := set_state s (size s) Status.Read in
      cursor ← u64_add (wal_offset s) (written s);
      Ret (Ok cursor, s, w)
  end.

Definition append_record (s : t) (w : AlignedBufWriter.t) (payload : list byte)
    : outcome (result Z StoreError.t * t * AlignedBufWriter.t) :=
  let crc := checksum_record [payload] (wal_offset s) in
  let length_type := RecordType.with_length RecordType.Full (as_uint 32 (Bytes.remaining payload)) in
  '(r, w) ← write_record w crc length_type payload;
  match r with
  | Err e => Ret (Err e, s, w)
  | Ok _ =>
      written ← u64_add (written s) (8 + Bytes.remaining payload);
      let s := set_state s written (status s) in
      cursor ← u64_add (wal_offset s) written;
      Ret (Ok cursor, s, w)
  end.

(** The part of a buffer that falls into [read_at, read_at + read_len). *)
Definition narrow (read_at read_len : Z) (b : abuf) : outcome (list byte) :=
  let start_pos :=
    if AlignedBuf.wal_offset b <? read_at then as_uint 32 (read_at - AlignedBuf.wal_offset b) else 0 in
  end_ ← u64_add (AlignedBuf.wal_offset b) (AlignedBuf.limit b);
  read_end ← u64_add read_at read_len;
  limit ← (if read_end <=? end_ then uint_sub (AlignedBuf.limit b) (end_ - read_end)
           else Ret (AlignedBuf.limit b));
  AlignedBuf.slice b start_pos limit.

Fixpoint narrow_all (read_at read_len : Z) (bufs : list abuf) : outcome (list byte) :=
  match bufs with
  | [] => Ret []
  | b :: bufs =>
      x ← narrow read_at read_len b;
      xs ← narrow_all read_at read_len bufs;
      Ret (x ++ xs)
  end.

(** Read one missed range from the file into the cache. *)
Definition load_entry (s : t) (file : list byte) (e : EntryRange.t) (now : Z)
    : outcome (result unit StoreError.t * t) :=
  res ← alloc_read_buf (EntryRange.wal_offset e) (EntryRange.len e) (alignment s);
  match res with
  | Err _ => Ret (Ok (), s)
  | Ok b =>
      file_pos ← uint_sub (EntryRange.wal_offset e) (wal_offset s);
      let to := file_pos + AlignedBuf.capacity b in
      if to <=? Bytes.remaining file then
        data ← slice file file_pos to;
        b ← AlignedBuf.fill b data;
        c ← BlockCache.add_entry (block_cache s)
              (AlignedBuf.increase_written b (AlignedBuf.capacity b)) now;
        Ret (Ok (), set_cache s c)
      else Ret (Err StoreError.IO, s)
  end.

Fixpoint load_entries (s : t) (file : list byte) (l : list EntryRange.t) (now : Z)
    : outcome (result unit StoreError.t * t) :=
  match l with
  | [] => Ret (Ok (), s)
  | e :: l =>
      '(r, s) ← load_entry s file e now;
      match r with
      | Err err => Ret (Err err, s)
      | Ok _ => load_entries s file l now
      end
  end.

(** The loop of [read_exact_at]: look up, and load what is missed.  [None] when the lookups
    given by [fuel] do not end the loop; the second one finds everything, except where no
    buffer could be allocated, and then the loop goes on. *)
Fixpoint read_loop (fuel : nat) (s : t) (file : list byte) (entry : EntryRange.t)
    (read_at read_len now : Z) : outcome (option (result (list byte) StoreError.t) * t) :=
  match fuel with
  | O => Ret (None, s)
  | Datatypes.S fuel =>
      '(res, c) ← BlockCache.try_get_entries (block_cache s) entry now;
      let s := set_cache s c in
      match res with
      | Ok (Some bufs) =>
          data ← narrow_all read_at read_len bufs;
          Ret (Some (Ok data), s)
      | Ok None => Ret (Some (Err StoreError.CacheError), s)
      | Err missed =>
          match sd s with
          | None => Ret (Some (Err StoreError.NotOpened), s)
          | Some _ =>
              '(r, s) ← load_entries s file missed now;
              match r with
              | Err e => Ret (Some (Err e), s)
              | Ok _ => read_loop fuel s file entry read_at read_len now
              end
          end
      end
  end.

(** Read [len] bytes; [copy_from_slice] panics when the lengths differ.  There is no result
    when two lookups are not enough. *)
Definition read_exact_at (s : t) (file : list byte) (len r_offset now : Z)
    : outcome (result (list byte) StoreError.t * t) :=
  read_at ← u64_add (wal_offset s) r_offset;
  entry ← EntryRange.new read_at (as_uint 32 len) (alignment s);
  '(r, s) ← read_loop 2 s file entry read_at len now;
  match r with
  | None => Panic
  | Some (Err e) => Ret (Err e, s)
  | Some (Ok data) => if Bytes.remaining data =? len then Ret (Ok data, s) else Panic
  end.

(** A copy of the bytes of [b] from [from] to [to] as a buffer of its own. *)
Definition split_buf (b : abuf) (offset from to alignment : Z)
    : outcome (result abuf StoreError.t) :=
  res ← AlignedBuf.new offset (to - from) alignment;
  match res with
  | Err e => Ret (Err e)
  | Ok nb =>
      data ← AlignedBuf.slice b from to;
      nb ← AlignedBuf.fill nb data;
      Ret (Ok (AlignedBuf.increase_written nb (to - from)))
  end.

Definition split_last (s : t) (b : abuf) (last_page_start last_page_len now : Z)
    : outcome (result unit StoreError.t * t) :=
  '(r, s) ←
    (if negb (last_page_len =? 0) then
       copy_start ← uint_sub last_page_start (AlignedBuf.wal_offset b);
       res ← split_buf b last_page_start copy_start (copy_start + last_page_len) (alignment s);
       match res with
       | Err e => Ret (Err e, s)
       | Ok nb => c ← BlockCache.add_entry (block_cache s) nb now; Ret (Ok (), set_cache s c)
       end
     else Ret (Ok (), s));
  match r with
  | Err e => Ret (Err e, s)
  | Ok _ =>
      last_len ← uint_sub last_page_start (AlignedBuf.wal_offset b);
      if negb (last_len =? 0) then
        res ← split_buf b (AlignedBuf.wal_offset b) 0 last_len (alignment s);
        match res with
        | Err e => Ret (Err e, s)
        | Ok nb => c ← BlockCache.add_entry (block_cache s) nb now; Ret (Ok (), set_cache s c)
        end
      else Ret (Ok (), s)
  end.

Definition truncate_to (s : t) (written now : Z) : outcome (result unit StoreError.t * t) :=
  q ← uint_div written (alignment s);
  page ← uint_mul 64 q (alignment s);
  last_page_len ← uint_sub written page;
  last_page_start ← u64_add page (wal_offset s);
  total ← u64_add (wal_offset s) written;
  let from_wal_offset := if 0 <? total then total - 1 else 0 in
  r ← EntryRange.new from_wal_offset 1 (alignment s);
  '(res, c) ← BlockCache.try_get_entries (block_cache s) r now;
  let s := set_cache s c in
  match res with
  | Ok (Some []) => Panic
  | Ok (Some (b :: _)) =>
      end_ ← u64_add (AlignedBuf.wal_offset b) (AlignedBuf.limit b);
      '(r, s) ←
        (if last_page_start <? end_ then split_last s b last_page_start (as_uint 32 last_page_len) now
         else Ret (Ok (), s));
      match r with
      | Err e => Ret (Err e, s)
      | Ok _ =>
          c ← BlockCache.remove (block_cache s) (fun e => total <=? Entry.wal_offset e);
          Ret (Ok (), set_cache s c)
      end
  | Ok None => Ret (Err StoreError.CacheError, s)
  | Err _ => Ret (Err StoreError.CacheError, s)
  end.
End segment.
Arguments t : clear implicits.
End LogSegment.

(** ** Reading through the cache *)

(** The bytes of the file from [a] to [b]. *)
Definition file_at (file : list byte) (a b : Z) : list byte :=
  take (Z.to_nat (b - a)) (drop (Z.to_nat a) file).

Lemma file_at_split file a b c : 0 <= a <= b -> b <= c -> file_at file a c = file_at file a b ++ file_at file b c.
Proof.
  intros. unfold file_at. rewrite <- (take_drop (Z.to_nat (b - a)) (drop (Z.to_nat a) file)) at 1.
  rewrite take_app, take_take, drop_drop, length_take, length_drop.
  replace (Z.to_nat a + Z.to_nat (b - a))%nat with (Z.to_nat b) by lia.
  replace (Z.to_nat (c - a) `min` Z.to_nat (b - a))%nat with (Z.to_nat (b - a)) by lia. f_equal.
  destruct (decide (Z.to_nat b <= length file)%nat); [f_equal; lia|].
  by rewrite (drop_ge file (Z.to_nat b)), !take_nil by lia.
Qed.

Lemma remaining_file_at file a b :
  0 <= a <= b -> b <= remaining file -> remaining (file_at file a b) = b - a.
Proof. unfold remaining, file_at. rewrite length_take, length_drop. lia. Qed.

Lemma file_at_sub file a b c d :
  0 <= a <= c -> c <= d -> d <= b -> b <= remaining file ->
  slice (file_at file a b) (c - a) (d - a) = Ret (file_at file c d).
Proof.
  intros. rewrite slice_Ret by (rewrite remaining_file_at; lia). unfold file_at. f_equal.
  rewrite skipn_firstn_comm, drop_drop, take_take. f_equal; [lia|]. f_equal. lia.
Qed.

Section reading.
Context {S : SkipListApi} {B : BytesApi} {C : Crc32Api}.
Import LogSegment.

(** A cached entry holds whole blocks of the file. *)
Definition mirrors (file : list byte) (al : Z) (ke : Z * Entry.t) : Prop :=
  exists b, Entry.buf ke.2 = Some b /\ AlignedBuf.limit b = AlignedBuf.capacity b /\
    AlignedBuf.buf b = file_at file ke.1 (ke.1 + AlignedBuf.capacity b) /\
    (al | ke.1) /\ (al | AlignedBuf.capacity b) /\ 0 < AlignedBuf.capacity b /\
    ke.1 + AlignedBuf.capacity b <= Bytes.remaining file.

(** A segment with its file: the cache, hit at most [n] times per entry, agrees with it. *)
Record seg_ok (n : Z) (file : list byte) (s : LogSegment.t S) : Prop := {
  so_cache : cache_ok n (block_cache s);
  so_mirrors : Forall (mirrors file (alignment s)) (BlockCache.entries (block_cache s));
  so_account : size_ok (block_cache s);
  so_offset : BlockCache.wal_offset (block_cache s) = wal_offset s;
  so_size : size s = Bytes.remaining file /\ 0 < size s < 2 ^ 32 /\ (alignment s | size s);
  so_align : AlignedBuf.is_power_of_two (alignment s) = true /\ (alignment s | wal_offset s);
  so_bound : wal_offset s < 2 ^ 62;
  so_sd : sd s <> None;
}.

Lemma mirrors_len file al n base k e :
  mirrors file al (k, e) -> entry_ok n base (k, e) -> Bytes.remaining file < 2 ^ 32 ->
  exists b, Entry.buf e = Some b /\ Entry.len e = AlignedBuf.capacity b /\ Entry.capacity e = AlignedBuf.capacity b.
Proof.
  intros (b & Hb & Hl & _ & _ & _ & Hp & Hle) (Hk & _) Hlt. simpl in *. exists b.
  unfold Entry.len, Entry.capacity. rewrite Hb. simpl. rewrite Hl.
  by rewrite as_uint_id by (unfold is_uint; lia).
Qed.

(** The loaded entries do not overlap, so they are not larger than the file. *)
Lemma loaded_size_bound file al n base m lo :
  Forall (mirrors file al) m -> Forall (entry_ok n base) m -> StronglySorted disjoint m ->
  Bytes.remaining file < 2 ^ 32 -> lo <= Bytes.remaining file -> Forall (fun ke => lo <= ke.1) m ->
  loaded_size m <= Bytes.remaining file - lo.
Proof.
  intros Hm Hok Hd Hf. revert lo. induction Hd as [|[k e] m Hd IH Hke]; intros lo Hlo Hall; simpl; [lia|].
  apply Forall_cons in Hm as [Hm1 Hm], Hok as [Hok1 Hok], Hall as [Hk _]. simpl in Hk.
  destruct (mirrors_len _ _ _ _ _ _ Hm1 Hok1 Hf) as (b & Hb & Hlen & Hcap).
  destruct Hm1 as (b' & Hb' & _ & _ & _ & _ & Hp & Hle). simpl in *. assert (b' = b) as -> by congruence.
  specialize (IH Hm Hok (k + AlignedBuf.capacity b) Hle). unfold weight, Entry.is_loaded. rewrite Hb, Hcap.
  cut (loaded_size m <= Bytes.remaining file - (k + AlignedBuf.capacity b)); [lia|]. apply IH.
  eapply Forall_impl; [exact Hke|]. intros ke. unfold disjoint. simpl. lia.
Qed.

Lemma load_entry_spec n file s r now :
  seg_ok n file s -> 0 <= n <= 2 ^ 34 -> 0 <= now < 2 ^ 62 ->
  let k := EntryRange.wal_offset r - wal_offset s in
  0 <= k -> 0 < EntryRange.len r -> k + EntryRange.len r <= size s ->
  (alignment s | k) -> (alignment s | EntryRange.len r) ->
  (forall x, k <= x < k + EntryRange.len r -> ~ covered (BlockCache.entries (block_cache s)) x) ->
  exists c', load_entry s file r now = Ret (Ok (), set_cache s c') /\ seg_ok n file (set_cache s c') /\
    BlockCache.alignment c' = alignment s /\
    forall x, covered (BlockCache.entries c') x <->
      k <= x < k + EntryRange.len r \/ covered (BlockCache.entries (block_cache s)) x.
Proof.
  intros Hs Hn Hnow k Hk Hl Hle Hdk Hdl Hun.
  destruct Hs as [Hc Hm Hacc Hoff (Hsz & Hsz' & Hdsz) (Hp & Hdo) Hbd Hsd].
  pose proof (co_base _ _ Hc) as Hbase. rewrite Hoff in Hbase. pose proof (co_align _ _ Hc) as Hal.
  fold (alignment s) in Hal. destruct (alloc_read_buf_spec (EntryRange.wal_offset r) (EntryRange.len r) (alignment s))
    as (b & Hb & Hok & Hw & Hcap & Hlim); [done|lia| |done|done|lia|lia|].
  { replace (EntryRange.wal_offset r) with (wal_offset s + k) by lia. by apply Z.divide_add_r. }
  set (fb := AlignedBuf.mk (EntryRange.wal_offset r)
    (file_at file k (k + EntryRange.len r)) (EntryRange.len r) (EntryRange.len r)).
  assert (Hgap : gap_block (block_cache s) fb k) by (split_and!; simpl; rewrite ?Hoff; (done || lia)).
  destruct (gap_insert n (block_cache s) fb now k) as [Hci Hget]; [done|lia|done|done|].
  assert (Hmi : Forall (mirrors file (alignment s))
    (BTreeMap.insert (BlockCache.entries (block_cache s)) k (Entry.new fb now))).
  { apply Forall_forall. intros [k' e'] [[= -> ->]|Hin]%BTreeMap.insert_elem.
    - exists fb. simpl. split_and!; (done || lia).
    - by apply (proj1 (Forall_forall _ _) Hm). }
  assert (Hsum : BlockCache.cache_size (block_cache s) + as_uint 32 (AlignedBuf.capacity fb) < 2 ^ 32).
  { destruct Hacc as [Hsorted ->].
    pose proof (loaded_size_bound file (alignment s) n (wal_offset s) _ 0 Hmi) as Hbound.
    rewrite loaded_size_insert in Hbound by done. unfold weight_at in Hbound. rewrite Hget in Hbound.
    unfold weight, Entry.capacity in Hbound. simpl in Hbound.
    enough (loaded_size (BlockCache.entries (block_cache s)) - 0 + as_uint 32 (EntryRange.len r)
      <= Bytes.remaining file - 0) by (simpl; lia).
    destruct Hci as [_ _ Hen Hd]. simpl in *. rewrite Hoff in Hen. apply Hbound; [done|done|lia|lia|].
    eapply Forall_impl; [exact Hen|]. by intros [? ?] (? & _). }
  destruct (add_entry_gap n (block_cache s) fb now k) as (c' & Hadd & Hc' & Hent & Hw' & Hal'); [done..|].
  exists c'. split; [|split].
  - unfold load_entry. rewrite Hb. simpl. rewrite uint_sub_Ret by lia. simpl. fold k. rewrite Hcap.
    rewrite (proj2 (Z.leb_le _ _)) by lia. rewrite slice_Ret by lia. simpl.
    change (take _ _) with (file_at file k (k + EntryRange.len r)).
    pose proof (remaining_file_at file k (k + EntryRange.len r)) as Hrem.
    unfold AlignedBuf.fill. destruct Hok as (Hbl & _ & _).
    rewrite (proj2 (Z.leb_le _ _)) by lia. simpl. rewrite overwrite_all by (unfold Bytes.remaining in *; lia).
    unfold AlignedBuf.increase_written, AlignedBuf.set_limit. simpl.
    rewrite Hw, Hcap, Hlim, Z.add_0_l, as_uint_id by (unfold is_uint; lia). fold fb. by rewrite Hadd.
  - split; simpl; unfold alignment in *; simpl; rewrite ?Hal'; try done.
    + by rewrite Hent.
    + by eapply add_entry_size.
    + congruence.
  - split; [done|]. intros x. rewrite Hent. rewrite covered_insert; [|done|apply Hacc].
    destruct (new_entry_ok n (block_cache s) fb now k) as [_ ->]; [done|lia|done|]. done.
Qed.

(** Ranges that can be loaded one after the other. *)
Definition loadable (s : LogSegment.t S) (l : list EntryRange.t) : Prop :=
  Forall (fun r => 0 < EntryRange.len r) l /\ (exists lo, in_order lo l) /\
  ranges_on (alignment s) (wal_offset s) l /\
  forall x, in_ranges l (wal_offset s + x) ->
    0 <= x < size s /\ ~ covered (BlockCache.entries (block_cache s)) x.

Lemma load_entries_spec n file s l now :
  seg_ok n file s -> 0 <= n <= 2 ^ 34 -> 0 <= now < 2 ^ 62 -> loadable s l ->
  exists c', load_entries s file l now = Ret (Ok (), set_cache s c') /\ seg_ok n file (set_cache s c') /\
    BlockCache.alignment c' = alignment s /\
    forall x, covered (BlockCache.entries c') x <->
      in_ranges l (wal_offset s + x) \/ covered (BlockCache.entries (block_cache s)) x.
Proof.
  intros Hs Hn Hnow. revert s Hs. induction l as [|r l IH]; intros s Hs (Hpos & [lo [Hord Hlo]] & Hon & Hin).
  { exists (block_cache s). split; [by destruct s|]. split; [by destruct s|]. split; [done|]. intros x.
    unfold in_ranges. rewrite Exists_nil. tauto. }
  apply Forall_cons in Hpos as [Hp Hpos], Hon as [[Hd1 Hd2] Hon], Hlo as [_ Hlo].
  apply StronglySorted_inv in Hord as [Hord Hr]. simpl.
  assert (Hrin : forall x, EntryRange.wal_offset r - wal_offset s <= x <
      EntryRange.wal_offset r - wal_offset s + EntryRange.len r ->
    0 <= x < size s /\ ~ covered (BlockCache.entries (block_cache s)) x).
  { intros x Hx. apply Hin. left. unfold in_range. simpl. lia. }
  destruct (load_entry_spec n file s r now) as (c1 & -> & Hs1 & Hal1 & Hc1); try done.
  { destruct (Hrin (EntryRange.wal_offset r - wal_offset s)); lia. }
  { destruct (Hrin (EntryRange.wal_offset r - wal_offset s + EntryRange.len r - 1)); lia. }
  { intros x Hx. by apply Hrin. }
  simpl. destruct (IH (set_cache s c1)) as (c2 & Hl & Hs2 & Hal2 & Hc2); [done| |].
  - split; [done|]. split; [by exists lo|]. split; [unfold alignment; simpl; by rewrite Hal1|].
    simpl. intros x Hx. split; [apply Hin; by right|]. rewrite Hc1. intros [Hx'|Hcv].
    + apply Exists_exists in Hx as (r' & Hr' & Hx). rewrite Forall_forall in Hr. specialize (Hr _ Hr').
      unfold in_range in Hx. simpl in Hr. lia.
    + revert Hcv. apply Hin. by right.
  - exists c2. split; [done|]. split; [done|]. split; [unfold alignment in Hal2; simpl in Hal2; congruence|].
    intros x. rewrite Hc2. simpl. rewrite Hc1. unfold in_ranges. rewrite Exists_cons. unfold in_range at 2.
    rewrite (assoc (∨)), (comm (∨) (Exists _ _)). apply or_iff_compat_r, or_iff_compat_r. lia.
Qed.

(** The part of a cached block that a read asks for. *)
Lemma narrow_spec n file al base k e b ra re :
  mirrors file al (k, e) -> entry_ok n base (k, e) -> Entry.buf e = Some b ->
  Bytes.remaining file < 2 ^ 32 -> 0 <= base -> base < 2 ^ 62 ->
  0 <= ra < re -> k < re -> ra < k + AlignedBuf.capacity b -> re <= Bytes.remaining file ->
  narrow (base + ra) (re - ra) b =
    Ret (file_at file (k `max` ra) ((k + AlignedBuf.capacity b) `min` re)).
Proof.
  intros (b' & Hb' & Hl & Hbuf & _ & _ & Hp & Hle) (Hk & _ & _ & Hw & _) Hb Hf Hb0 Hb1 Hr Hkr Hrk Hrf.
  simpl in *. assert (b' = b) as -> by congruence. unfold Entry.wal_offset in Hw. rewrite Hb in Hw.
  unfold narrow, AlignedBuf.slice. rewrite Hw, Hl, Hbuf. run_arith.
  set (st := if _ <? _ then _ else _). assert (st = k `max` ra - k) as ->.
  { unfold st. case_bool. rewrite as_uint_id by (unfold is_uint; lia). lia. }
  rewrite <- (file_at_sub file k (k + AlignedBuf.capacity b)) by lia.
  case_bool; run_arith; rewrite bind_Ret; f_equal; lia.
Qed.

Lemma narrow_all_spec n file al base l a z ra re :
  Forall (mirrors file al) l -> Forall (entry_ok n base) l -> StronglySorted disjoint l ->
  Bytes.remaining file < 2 ^ 32 -> 0 <= base -> base < 2 ^ 62 ->
  0 <= ra < re -> re <= Bytes.remaining file ->
  Forall (fun ke => ke.1 < re /\ ra < ke.1 + Entry.len ke.2) l ->
  tiled a l z -> re <= z -> 0 <= a -> (a <= ra \/ Forall (fun ke => a <= ke.1) l) ->
  narrow_all (base + ra) (re - ra) (omap (fun ke => Entry.buf ke.2) l) = Ret (file_at file (a `max` ra) re).
Proof.
  intros Hm Hok Hd Hf Hb0 Hb1 Hr Hrf Hov. revert a.
  induction Hd as [|[k e] l Hd IH Hke]; intros a Ht Hz Ha Hfirst; simpl in Ht.
  { subst z. csimpl. unfold file_at. by replace (Z.to_nat (re - a `max` ra)) with 0%nat by lia. }
  apply Forall_cons in Hm as [Hm1 Hm], Hok as [Hok1 Hok], Hov as [[Hov1 Hov2] Hov]. simpl in Hov1, Hov2.
  destruct (mirrors_len _ _ _ _ _ _ Hm1 Hok1 Hf) as (b & Hb & Hlen & _). rewrite Hlen in *.
  destruct Ht as [Hka Ht]. csimpl. rewrite Hb. csimpl.
  rewrite (narrow_spec n file al base k e b ra re) by (done || lia). csimpl.
  rewrite (IH Hm Hok Hov (k + AlignedBuf.capacity b)); [|done|done|lia|].
  - simpl. f_equal. assert (k `max` ra = a `max` ra) as ->.
    { destruct Hfirst as [?|[? _]%Forall_cons]; simpl in *; lia. }
    destruct (decide (k + AlignedBuf.capacity b <= re)).
    + rewrite Z.min_l, (Z.max_l (k + _)) by lia. symmetry. apply file_at_split; lia.
    + rewrite Z.min_r by lia. unfold file_at at 2.
      replace (Z.to_nat (re - _)) with 0%nat by lia. by rewrite take_0, app_nil_r.
  - right. eapply Forall_impl; [exact Hke|]. intros ke. unfold disjoint. simpl. lia.
Qed.

(** The range of whole blocks around a read within [lo, hi). *)
Lemma entry_range_new o len al lo hi :
  0 < al -> 0 <= lo <= o -> 0 < len -> o + len <= hi -> hi + al < 2 ^ 64 -> hi - lo < 2 ^ 32 ->
  (al | lo) -> (al | hi) ->
  exists f t, EntryRange.new o len al = Ret (EntryRange.mk f (t - f)) /\ (al | f) /\ (al | t) /\
    lo <= f <= o /\ o - al < f /\ o + len <= t <= hi /\ t < o + len + al.
Proof.
  intros Hal Hlo Hl Hhi Hb Hspan [p ->] [q ->].
  pose proof (Z.div_mod o al). pose proof (Z.mod_pos_bound o al).
  pose proof (Z.div_mod (o + len + al - 1) al). pose proof (Z.mod_pos_bound (o + len + al - 1) al).
  set (f := o / al) in *. set (t := (o + len + al - 1) / al) in *.
  assert (p * al <= f * al) by (apply Z.mul_le_mono_nonneg_r; [lia|]; apply Z.div_le_lower_bound; lia).
  assert (t * al <= q * al).
  { apply Z.mul_le_mono_nonneg_r; [lia|]. apply Z.lt_succ_r, Z.div_lt_upper_bound; lia. }
  exists (f * al), (t * al). split; [|split_and!; try lia; try (by eexists)].
  unfold EntryRange.new. rewrite uint_div_Ret by lia. simpl. fold f. run_arith. fold t. run_arith.
  by rewrite as_uint_id by (unfold is_uint; lia).
Qed.

Lemma covered_same (m m' : @BTreeMap.t Entry.t) x : Forall2 same m m' -> covered m x <-> covered m' x.
Proof.
  intros Hm. unfold covered. induction Hm as [|a a' m m' Ha Hm IH]; [done|].
  rewrite !Exists_cons, IH. destruct (same_len _ _ Ha) as [<- _]. by destruct Ha as [<- _].
Qed.

Lemma mirrors_same file al a b : same a b -> mirrors file al a -> mirrors file al b.
Proof. intros (Hk & _ & _ & Hb). unfold mirrors. by rewrite <- Hk, <- Hb. Qed.

Lemma seg_ok_touched n n' file s c' r now res :
  seg_ok n file s -> BlockCache.try_get_entries (block_cache s) r now = Ret (res, c') ->
  cache_ok n' c' -> touched (block_cache s) c' -> seg_ok n' file (set_cache s c').
Proof.
  intros [Hc Hm Hacc Hoff Hsz Hp Hbd Hsd] Hget Hc' (Hw & Hal & _ & Hsame).
  split; simpl; unfold alignment in *; simpl; rewrite ?Hal; try done; [| |congruence].
  - clear -Hm Hsame. induction Hsame as [|a b m m' Hab Hsame IH]; [done|].
    apply Forall_cons in Hm as [Ha Hm]. constructor; [by eapply mirrors_same|by apply IH].
  - eapply cache_step_size; [exact Hacc|]. by eapply step_get.
Qed.

(** In whole blocks there are no partial ends. *)
Lemma mirrors_on n base file al m :
  Forall (mirrors file al) m -> Forall (entry_ok n base) m -> Bytes.remaining file < 2 ^ 32 -> entries_on al m.
Proof.
  intros Hm Hok Hf. unfold entries_on. rewrite Forall_forall in *. intros [k e] Hin.
  destruct (mirrors_len _ _ _ _ _ _ (Hm _ Hin) (Hok _ Hin) Hf) as (b & Hb & Hlen & _).
  destruct (Hm _ Hin) as (b' & Hb' & _ & _ & Hd1 & Hd2 & _). simpl in *.
  assert (b' = b) as -> by congruence. by rewrite Hlen.
Qed.

Lemma tiled_divide d a l z : (d | a) -> entries_on d l -> tiled a l z -> (d | z).
Proof.
  revert a. induction l as [|[k e] l IH]; intros a Ha; simpl; [by intros _ <-|].
  intros [[Hk He] Hl]%Forall_cons [_ Ht]. simpl in *. eapply IH; [|done..]. by apply Z.divide_add_r.
Qed.

Lemma divide_lt_le d a b : 0 < d -> (d | a) -> (d | b) -> a < b -> a + d <= b.
Proof. intros Hd [p ->] [q ->] Hlt. apply Z.mul_lt_mono_pos_r in Hlt; [|done]. nia. Qed.

(** When a lookup in whole blocks succeeds, its buffers hold the bytes of the file. *)
Lemma hit_spec n file s f t ra re z found :
  seg_ok n file s -> (alignment s | f) -> (alignment s | t) ->
  0 <= f <= ra -> ra < re <= t -> t <= size s -> ra - alignment s < f -> t < re + alignment s ->
  let l := List.filter (overlaps f t) (BlockCache.entries (block_cache s)) in
  tiled f l z -> (t <= z \/ z mod alignment s <> 0) ->
  found = (if forallb (fun ke => Entry.is_loaded ke.2) l
           then Some (omap (fun ke => Entry.buf ke.2) l) else None) ->
  t <= z /\ exists bufs, found = Some bufs /\
    narrow_all (wal_offset s + ra) (re - ra) bufs = Ret (file_at file ra re).
Proof.
  intros [Hc Hm Hacc Hoff (Hsz & Hsz' & Hdsz) (Hp & Hdo) Hbd Hsd] Hdf Hdt Hf Hr Ht Hfa Hta l Htl Hz ->.
  pose proof (co_base _ _ Hc) as Hbase. rewrite Hoff in Hbase. pose proof (align_pos _ Hp) as Hal.
  assert (Hl : forall ke, ke ∈ l -> ke ∈ BlockCache.entries (block_cache s) /\ overlaps f t ke = true)
    by (intros ke; apply filter_elem).
  assert (Hml : Forall (mirrors file (alignment s)) l).
  { apply Forall_forall. intros ke [Hin _]%Hl. by apply (proj1 (Forall_forall _ _) Hm). }
  assert (Hokl : Forall (entry_ok n (wal_offset s)) l).
  { apply Forall_forall. intros ke [Hin _]%Hl. rewrite <- Hoff.
    by apply (proj1 (Forall_forall _ _) (co_entries _ _ Hc)). }
  pose proof (mirrors_on _ _ _ _ _ Hml Hokl ltac:(lia)) as Hon.
  assert (t <= z) as Hzt.
  { destruct Hz as [?|Hz]; [done|]. exfalso. apply Hz. apply Z.mod_divide; [lia|].
    by apply (tiled_divide _ f l). }
  split; [done|]. rewrite (proj2 (forallb_forall _ _)).
  - eexists. split; [done|]. rewrite (narrow_all_spec n file (alignment s) _ l f z); try done; try lia.
    + by rewrite Z.max_r by lia.
    + apply filter_sorted, (co_disjoint _ _ Hc).
    + apply Forall_forall. intros [k e] Hin. destruct (Hl _ Hin) as [_ Ho]. unfold overlaps in Ho. simpl in *.
      bool_to_prop. destruct (proj1 (Forall_forall _ _) Hon _ Hin) as [Hdk Hde]. simpl in *.
      pose proof (divide_lt_le _ k t Hal Hdk Hdt).
      pose proof (divide_lt_le _ f (k + Entry.len e) Hal Hdf (Z.divide_add_r _ _ _ Hdk Hde)). lia.
  - intros [k e] Hin%list_elem_of_In. destruct (proj1 (Forall_forall _ _) Hml _ Hin) as (b & Hb & _).
    simpl in *. unfold Entry.is_loaded. by rewrite Hb.
Qed.

Lemma tiled_covered a l z x : tiled a l z -> a <= x < z -> covered l x.
Proof.
  revert a. induction l as [|[k e] l IH]; intros a; simpl; [lia|]. intros [Hk Ht] Hx.
  unfold covered. rewrite Exists_cons. simpl. destruct (decide (x < k + Entry.len e)); [left; lia|].
  right. apply (IH _ Ht). lia.
Qed.

Lemma covered_filter p (l : @BTreeMap.t Entry.t) x : covered (List.filter p l) x -> covered l x.
Proof.
  unfold covered. rewrite !Exists_exists. intros (ke & [Hin _]%filter_elem & Hx). by exists ke.
Qed.

(** A lookup of the whole blocks [f, t) around a read of [ra, re): a hit gives the bytes of the
    file, a miss the ranges to load. *)
Lemma lookup_file n file s f t ra re now :
  seg_ok n file s -> 0 <= n < 2 ^ 34 -> 0 <= now < 2 ^ 62 ->
  (alignment s | f) -> (alignment s | t) -> 0 <= f <= ra -> ra < re <= t -> t <= size s ->
  ra - alignment s < f -> t < re + alignment s ->
  exists res c', BlockCache.try_get_entries (block_cache s) (EntryRange.mk (wal_offset s + f) (t - f)) now =
      Ret (res, c') /\
    seg_ok (n + 1) file (set_cache s c') /\ BlockCache.alignment c' = alignment s /\
    (forall x, covered (BlockCache.entries (block_cache s)) x <-> covered (BlockCache.entries c') x) /\
    match res with
    | Ok found =>
        (exists bufs, found = Some bufs /\
           narrow_all (wal_offset s + ra) (re - ra) bufs = Ret (file_at file ra re)) /\
        forall x, f <= x < t -> covered (BlockCache.entries c') x
    | Err missed =>
        loadable (set_cache s c') missed /\ (exists x, f <= x < t /\ ~ covered (BlockCache.entries c') x) /\
        forall x, f <= x < t -> covered (BlockCache.entries c') x \/ in_ranges missed (wal_offset s + x)
    end.
Proof.
  intros Hs Hn Hnow Hdf Hdt Hf Hr Ht Hfa Hta.
  pose proof Hs as [Hc Hm Hacc Hoff (Hsz & Hsz' & Hdsz) (Hp & Hdo) Hbd Hsd].
  destruct (lookup_spec n (block_cache s) (EntryRange.mk (wal_offset s + f) (t - f)) now)
    as (res & c' & Hget & Hc' & Htc & Hres); simpl; try done; try (rewrite ?Hoff; lia).
  exists res, c'. split; [done|]. split; [by eapply seg_ok_touched|].
  pose proof Htc as (_ & Hal' & _ & Hsame). split; [done|].
  assert (Hcov : forall x, covered (BlockCache.entries (block_cache s)) x <-> covered (BlockCache.entries c') x)
    by (intros x; by apply covered_same).
  split; [done|]. simpl in Hres. rewrite Hoff in Hres.
  replace (wal_offset s + f - wal_offset s) with f in Hres by lia.
  replace (f + (t - f)) with t in Hres by lia. destruct res as [found|missed].
  - destruct Hres as [(z & Htl & Hz) Hfound].
    destruct (hit_spec n file s f t ra re z found) as [Hzt Hhit]; try done.
    split; [done|]. intros x Hx. apply Hcov. eapply covered_filter, (tiled_covered _ _ _ _ Htl). lia.
  - destruct Hres as ([x0 Hx0] & Hin & Hout & Hpos & Hord & Hon).
    assert (Hent : entries_on (alignment s) (BlockCache.entries (block_cache s))).
    { eapply (mirrors_on n (wal_offset s) file); [done| |lia]. rewrite <- Hoff. apply Hc. }
    split; [|split].
    + split; [done|]. split; [by eexists|]. split.
      { unfold alignment; simpl. rewrite Hal'. by apply Hon. }
      simpl. intros x Hx. apply Hin in Hx as [Hx Hnc]. split; [lia|]. by rewrite <- Hcov.
    + exists (x0 - wal_offset s). rewrite <- Hcov. apply Hin.
      by replace (wal_offset s + (x0 - wal_offset s)) with x0 by lia.
    + intros x Hx. rewrite <- Hcov. destruct (Hout x Hx) as [?|[?|Hu]]; [by left|by right|].
      exfalso. apply Exists_exists in Hu as ([k e] & Hke & _ & Hmod).
      pose proof (align_pos _ Hp).
      destruct (proj1 (Forall_forall _ _) Hent _ Hke) as [Hd1 Hd2]. simpl in *.
      apply Hmod. fold (alignment s). apply Z.mod_divide; [lia|]. by apply Z.divide_add_r.
Qed.

Lemma seg_ok_mono n n' file s : n <= n' -> seg_ok n file s -> seg_ok n' file s.
Proof. intros Hn []. split; try done. by eapply cache_ok_mono. Qed.

(** The loop finds the blocks [f, t) at once, or loads them and finds them then. *)
Lemma read_loop_spec n file s f t ra re now :
  seg_ok n file s -> 0 <= n -> n + 2 <= 2 ^ 34 -> 0 <= now < 2 ^ 62 ->
  (alignment s | f) -> (alignment s | t) -> 0 <= f <= ra -> ra < re <= t -> t <= size s ->
  ra - alignment s < f -> t < re + alignment s ->
  exists c', read_loop 2 s file (EntryRange.mk (wal_offset s + f) (t - f)) (wal_offset s + ra) (re - ra) now =
      Ret (Some (Ok (file_at file ra re)), set_cache s c') /\
    seg_ok (n + 2) file (set_cache s c') /\ BlockCache.alignment c' = alignment s /\
    forall x, covered (BlockCache.entries (block_cache s)) x \/ f <= x < t -> covered (BlockCache.entries c') x.
Proof.
  intros Hs Hn Hn2 Hnow Hdf Hdt Hf Hr Ht Hfa Hta.
  destruct (lookup_file n file s f t ra re now) as (res & c1 & Hget & Hs1 & Hal1 & Hcov1 & Hres); try done; try lia.
  destruct res as [found|missed].
  - destruct Hres as [(bufs & -> & Hdata) Hall]. exists c1. cbn -[narrow_all].
    rewrite Hget. cbn -[narrow_all]. rewrite Hdata. split; [done|].
    split; [eapply seg_ok_mono; [|done]; lia|]. split; [done|]. intros x [Hx|Hx]; [by apply Hcov1|by apply Hall].
  - destruct Hres as (Hload & _ & Hall).
    destruct (load_entries_spec (n + 1) file (set_cache s c1) missed now) as (c2 & Hl & Hs2 & Hal2 & Hcov2);
      [done|lia|done|done|].
    assert (Hal : alignment (set_cache s c2) = alignment s).
    { unfold alignment at 1. simpl. rewrite Hal2. exact Hal1. }
    destruct (lookup_file (n + 1) file (set_cache s c2) f t ra re now)
      as (res3 & c3 & Hget3 & Hs3 & Hal3 & Hcov3 & Hres3); rewrite ?Hal; try done; try lia.
    simpl in *. rewrite Hal in Hal3.
    assert (Hall2 : forall x, f <= x < t -> covered (BlockCache.entries c3) x).
    { intros x Hx. apply Hcov3, Hcov2. destruct (Hall x Hx); [by right|by left]. }
    exists c3. cbn -[narrow_all load_entries]. rewrite Hget. cbn -[narrow_all load_entries].
    pose proof (so_sd _ _ _ Hs) as Hsd. destruct (sd s); [|done].
    rewrite Hl. cbn -[narrow_all load_entries]. rewrite Hget3.
    destruct res3 as [found|missed3]; [|destruct Hres3 as (_ & (x & Hx & Hnc) & _); by destruct Hnc; apply Hall2].
    destruct Hres3 as [(bufs & -> & Hdata) _]. cbn -[narrow_all]. rewrite Hdata. split; [done|].
    split; [by replace (n + 2) with (n + 1 + 1) by lia|]. split; [done|].
    intros x [Hx|Hx]; [|by apply Hall2]. apply Hcov3, Hcov2. right. by apply Hcov1.
Qed.

Lemma read_at_spec n file s len off now :
  seg_ok n file s -> 0 <= n -> n + 2 <= 2 ^ 34 -> 0 <= now < 2 ^ 62 ->
  0 <= off -> 0 < len -> off + len <= size s ->
  exists c', read_exact_at s file len off now = Ret (Ok (file_at file off (off + len)), set_cache s c') /\
    seg_ok (n + 2) file (set_cache s c') /\ BlockCache.alignment c' = alignment s /\
    forall x, covered (BlockCache.entries (block_cache s)) x \/ off <= x < off + len ->
      covered (BlockCache.entries c') x.
Proof.
  intros Hs Hn Hn2 Hnow Ho Hl Hle. pose proof Hs as [Hc Hm Hacc Hoff (Hsz & Hsz' & Hdsz) (Hp & Hdo) Hbd Hsd].
  pose proof (co_base _ _ Hc) as Hbase. rewrite Hoff in Hbase. pose proof (align_pos _ Hp) as Hal.
  pose proof (co_align _ _ Hc) as Hal2. fold (alignment s) in Hal2.
  unfold read_exact_at. rewrite uint_add_Ret by lia. rewrite bind_Ret, (as_uint_id 32) by (unfold is_uint; lia).
  destruct (entry_range_new (wal_offset s + off) len (alignment s) (wal_offset s) (wal_offset s + size s))
    as (f & t & -> & Hdf & Hdt & Hf & Hf2 & Ht & Ht2); [lia|lia|lia|lia|lia|lia|done|by apply Z.divide_add_r|].
  destruct (read_loop_spec n file s (f - wal_offset s) (t - wal_offset s) off (off + len) now)
    as (c' & Hloop & Hs' & Hal' & Hcov); try done; try lia; try (by apply Z.divide_sub_r).
  exists c'. replace (wal_offset s + (f - wal_offset s)) with f in Hloop by lia.
  replace (t - wal_offset s - (f - wal_offset s)) with (t - f) in Hloop by lia.
  replace (off + len - off) with len in Hloop by lia. rewrite bind_Ret, Hloop. simpl.
  rewrite remaining_file_at by lia. rewrite (proj2 (Z.eqb_eq _ _)) by lia.
  split; [done|]. split; [done|]. split; [done|]. intros x [?|?]; apply Hcov; [by left|right; lia].
Qed.

(** C20: Reading through the block cache is reading the file.  Whatever whole blocks are
    cached, a read within the segment returns the bytes of the file at that place, after
    loading the blocks that are missed in one round; afterwards the cache still agrees with
    the file, nothing was dropped from it, and the bytes read are cached. *)
Theorem read_exact_at_spec n file s len off now :
  seg_ok n file s -> 0 <= n -> n + 2 <= 2 ^ 34 -> 0 <= now < 2 ^ 62 ->
  0 <= off -> 0 < len -> off + len <= size s ->
  exists c', read_exact_at s file len off now = Ret (Ok (file_at file off (off + len)), set_cache s c') /\
    seg_ok (n + 2) file (set_cache s c') /\ BlockCache.alignment c' = alignment s /\
    forall x, covered (BlockCache.entries (block_cache s)) x \/ off <= x < off + len ->
      covered (BlockCache.entries c') x.
Proof. apply read_at_spec. Qed.
End reading.

(** ** Witnesses *)

Module SegmentExample.
(** A file of 16 bytes in blocks of 4, of which the second is cached. *)
Definition file : list byte := ascii_bytes "abcdefghijklmnop".
Definition cached : abuf := AlignedBuf.mk 36 (ascii_bytes "efgh") 4 4.
Definition s : LogSegment.t list_skiplist :=
  LogSegment.mk 32 16 0
    (BlockCache.mk 32 [(4, Entry.new cached 5)] [(5, 36)] 4 4) Status.Read [] (Some 3).

Lemma s_ok : seg_ok 0 file s.
Proof.
  split; try done.
  - split; [done|done| |by repeat constructor]. repeat constructor; simpl; try done; by vm_compute.
  - repeat constructor. exists cached. split_and!; try done; by exists 1.
  - split; [by repeat constructor|done].
  - split_and!; try done. by exists 4.
  - split; [done|]. by exists 8.
Qed.
End SegmentExample.

Lemma read_exact_at_spec_witness :
  exists c', LogSegment.read_exact_at SegmentExample.s SegmentExample.file 9 2 7 =
    Ret (Ok (ascii_bytes "cdefghijk"), LogSegment.set_cache SegmentExample.s c') /\
    seg_ok 2 SegmentExample.file (LogSegment.set_cache SegmentExample.s c').
Proof.
  destruct (read_exact_at_spec 0 SegmentExample.file SegmentExample.s 9 2 7 SegmentExample.s_ok)
    as (c' & H1 & H2 & _); [done..|].
  exists c'. exact (conj H1 H2).
Defined.
