(* ===== verification/Wal.v ===== *)
(** * The write-ahead log

    [components/store/src/io/wal.rs]: the sequence of segment files, their life cycle through
    the control ring, reclaiming of cached blocks and recovery.

    The control ring is a parameter: entries are pushed into its submission queue, which can
    be full, and submitted, which can fail.  Completions are the arguments of
    [reap_control_tasks].  A segment file is the list of its bytes, given by the offset of the
    segment. *)

From S2P Require Import Prelude Bytes StoreTypes Index Collections AlignedBuf BlockCache Segment Record.

(** What the control ring is asked to do; every entry carries the offset of its segment. *)
Inductive Sqe :=
| SqeRenameAt (old new : list Ascii.ascii)
| SqeOpenAt (path : list Ascii.ascii)
| SqeFallocate (fd size : Z)
| SqeFsync (fd : Z)
| SqeClose (fd : Z)
| SqeUnlinkAt (path : list Ascii.ascii).

Class RingApi := {
  ring : Type;
  ring_push : ring -> list (Sqe * Z) -> option ring; (* None: the queue is full *)
  ring_submit : ring -> option ring;                 (* None: the call failed *)
}.

(** The part of [config::Configuration] that the log uses. *)
Module Config.
Record t := mk {
  segment_size : Z;            (* u64 *)
  total_segment_file_size : Z; (* u64 *)
  alignment : Z;               (* usize *)
  is_recycle : bool;           (* reclaim_policy.is_recycle() *)
  max_cache_size : Z;          (* u64 *)
  cache_high_watermark : Z;    (* usize, in percent *)
  wal_path : list Ascii.ascii;
}.

(** [Path::join] with a relative file name. *)
Definition join (c : t) (name : list Ascii.ascii) : list Ascii.ascii :=
  wal_path c ++ [Ascii.ascii_of_N 47] (* '/' *) ++ name.

End Config.

(** [Percentage::from(percent).apply_to(value)] of the [percentage] crate. *)
Class PercentageApi := { apply_to : Z -> Z -> Z }.

(** The list of segments by lowest score, an [OrderedSkipList] compared by score alone.
    Elements are pairs of a score and the position of the segment. *)
Class ScoreListApi := {
  score_list : Type;
  score_empty : score_list;
  score_push : Z * nat -> score_list -> score_list;
  score_pop_front : score_list -> option ((Z * nat) * score_list);
  score_len : score_list -> nat;
}.

Module DirEntry.
(** [metadata]: whether the entry is a directory, unless it cannot be read. *)
Record t := mk { name : list Ascii.ascii; metadata : option bool }.
End DirEntry.

Module WalCache.
Record t := mk {
  max_cache_size : Z;          (* u64 *)
  current_cache_size : Z;      (* u64 *)
  high_watermark : Z;          (* usize *)
}.
End WalCache.

(** Segments are ordered by their offsets. *)
Definition segment_le `{S : SkipListApi} (a b : LogSegment.t S) : Prop :=
  LogSegment.wal_offset a <= LogSegment.wal_offset b.
#[global] Instance segment_le_dec `{S : SkipListApi} : RelDecision segment_le.
Proof. unfold segment_le. intros a b. apply _. Defined.

(** What a round of the recovery scan finds, with the position after it. *)
Inductive scanned :=
| EndOfLog (pos : Z)
| EndOfFile (pos : Z)
| Found (buf : list byte) (pos : Z).

Module Wal.
Section wal.
Context {S : SkipListApi} {R : RingApi} {P : PercentageApi} {Q : ScoreListApi}
  {B : BytesApi} {C : Crc32Api} {M : MetaApi}.

Record t := mk {
  control_ring : ring;
  config : Config.t;
  inflight_control_tasks : gmap Z Status.t; (* by segment offset *)
  segments : list (LogSegment.t S);
  wal_cache : WalCache.t;
}.

Definition new (control_ring : ring) (config : Config.t) : t :=
  mk control_ring config ∅ []
    (WalCache.mk (Config.max_cache_size config) 0 (Config.cache_high_watermark config)).

Definition set_ring (w : t) (r : ring) : t :=
  mk r (config w) (inflight_control_tasks w) (segments w) (wal_cache w).
Definition set_inflight (w : t) (i : gmap Z Status.t) : t :=
  mk (control_ring w) (config w) i (segments w) (wal_cache w).
Definition set_segments (w : t) (l : list (LogSegment.t S)) : t :=
  mk (control_ring w) (config w) (inflight_control_tasks w) l (wal_cache w).
Definition set_cache (w : t) (c : WalCache.t) : t :=
  mk (control_ring w) (config w) (inflight_control_tasks w) (segments w) c.

(** ** Loading *)

Definition segment_at (w : t) (offset : Z) (path : list Ascii.ascii)
    : result (LogSegment.t S) StoreError.t :=
  LogSegment.new (Config.alignment (config w)) offset (Config.segment_size (config w)) path.

Definition segment_of_entry (w : t) (e : DirEntry.t) : option (LogSegment.t S) :=
  match DirEntry.metadata e with
  | Some false =>
      offset ← parse_offset (DirEntry.name e);
      match segment_at w offset (Config.join (config w) (DirEntry.name e)) with
      | Ok s => Some s
      | Err _ => None
      end
  | _ => None
  end.

(** The segments from [offset] on that still fit into the total size; at most
    [total / segment_size] of them. *)
Fixpoint preallocate (fuel : nat) (w : t) (offset : Z) : outcome (list (LogSegment.t S)) :=
  match fuel with
  | O => Panic
  | Datatypes.S fuel =>
      next ← u64_add offset (Config.segment_size (config w));
      if next <=? Config.total_segment_file_size (config w) then
        rest ← preallocate fuel w next;
        Ret (match segment_at w offset (Config.join (config w) (format offset)) with
             | Ok s => s :: rest
             | Err _ => rest
             end)
      else Ret []
  end.

(** [opens] gives what opening the file of a segment and allocating its space result in. *)
Fixpoint open_all (w : t) (l : list (LogSegment.t S))
    (opens : Z -> result (Z * Z) StoreError.t * option Z) : result unit StoreError.t * t :=
  match l with
  | [] => (Ok (), w)
  | s :: l =>
      let '(file, fallocate) := opens (LogSegment.wal_offset s) in
      match LogSegment.open s file fallocate with
      | (Ok _, s) => open_all (set_segments w (segments w ++ [s])) l opens
      | (Err e, _) => (Err e, w)
      end
  end.

Definition load_from_paths (w : t) (read_dir : result (list DirEntry.t) StoreError.t)
    (opens : Z -> result (Z * Z) StoreError.t * option Z)
    : outcome (result unit StoreError.t * t) :=
  match read_dir with
  | Err e => Ret (Err e, w)
  | Ok entries =>
      let segment_files := merge_sort segment_le (omap (segment_of_entry w) entries) in
      next_wal_offset ←
        match last segment_files with
        | Some s => u64_add (LogSegment.wal_offset s) (LogSegment.size s)
        | None => Ret 0
        end;
      let fuel := Z.to_nat (Config.total_segment_file_size (config w)
                              / Config.segment_size (config w) + 2) in
      more ← preallocate fuel w next_wal_offset;
      Ret (open_all w (segment_files ++ more) opens)
  end.

(** The last segment that holds [offset], with its position. *)
Fixpoint find_last (l : list (LogSegment.t S)) (offset : Z)
    : outcome (option (nat * LogSegment.t S)) :=
  match l with
  | [] => Ret None
  | s :: l =>
      found ← find_last l offset;
      match found with
      | Some (i, s') => Ret (Some (Datatypes.S i, s'))
      | None =>
          if LogSegment.wal_offset s <=? offset then
            end_ ← u64_add (LogSegment.wal_offset s) (LogSegment.size s);
            Ret (if offset <? end_ then Some (0%nat, s) else None)
          else Ret None
      end
  end.

Definition segment_file_of (w : t) (offset : Z) : outcome (option (nat * LogSegment.t S)) :=
  find_last (segments w) offset.

(** ** Recovery *)

(** What a payload found in the log at [record_end] adds to the index. *)
Definition index_entry (s : LogSegment.t S) (file_pos : Z) (buf : list byte)
    : outcome (list record) :=
  res ← Payload.parse_append_entry buf;
  match res with
  | Ok (Some entry, len) =>
      match AppendEntry.offset entry with
      | None => Panic
      | Some offset =>
          end_ ← u64_add (LogSegment.wal_offset s) file_pos;
          start ← uint_sub end_ len;
          start ← uint_sub start 8;
          len ← u32_add (as_uint 32 len) 8;
          Ret [IndexRecord.mk
                 (RecordIndex.mk (AppendEntry.stream_id entry) (AppendEntry.index entry) offset)
                 (RecordHandle.mk start len (HandleExt.BatchSize (AppendEntry.len entry)))]
      end
  | _ => Ret []
  end.

Definition read_word (s : LogSegment.t S) (file : list byte) (file_pos now : Z)
    : outcome (result Z StoreError.t * LogSegment.t S) :=
  attempt (meta_buf, s) := LogSegment.read_exact_at s file 4 file_pos now in
  '(v, _) ← get_uint 4 meta_buf;
  Ret (Ok v, s).

(** One round of the loop of [scan_record] reads the record at [file_pos]. *)
Definition scan_one (s : LogSegment.t S) (file : list byte) (file_pos now : Z)
    : outcome (result scanned StoreError.t * LogSegment.t S) :=
  let stop s pos := pos ← uint_sub pos 8; Ret (Ok (EndOfLog pos), s) in
  attempt (crc, s) := read_word s file file_pos now in
  file_pos ← u64_add file_pos 4;
  attempt (len_type, s) := read_word s file file_pos now in
  file_pos ← u64_add file_pos 4;
  let len := Z.shiftr len_type 8 in
  record_end ← u64_add file_pos len;
  if (LogSegment.size s <? record_end) || (len =? 0) then stop s file_pos
  else
  attempt (buf, s) := LogSegment.read_exact_at s file len file_pos now in
  if negb (LogSegment.checksum_record [buf] (LogSegment.wal_offset s) =? crc) then stop s file_pos
  else
  match RecordType.try_from (as_uint 8 (Z.land len_type 0xFF)) with
  | None => Panic
  | Some RecordType.Zero => Ret (Ok (EndOfFile record_end), s)
  | Some _ => Ret (Ok (Found buf record_end), s)
  end.

(** The loop of [scan_record]: whether the end of the log was found and at which position of
    the file, with the segment and the entries sent to the indexer. *)
Fixpoint scan_loop (fuel : nat) (file : list byte) (now : Z)
    (st : LogSegment.t S * list record) (file_pos : Z)
    : outcome (result (bool * Z) StoreError.t * (LogSegment.t S * list record)) :=
  match fuel with
  | O => Panic
  | Datatypes.S fuel =>
      let '(s, out) := st in
      attempt (step, (s, out)) :=
        ('(r, s) ← scan_one s file file_pos now; Ret (r, (s, out))) in
      match step with
      | EndOfLog pos =>
          Ret (Ok (true, pos), (LogSegment.set_state s pos Status.ReadWrite, out))
      | EndOfFile pos =>
          Ret (Ok (false, pos), (LogSegment.set_state s (LogSegment.size s) Status.Read, out))
      | Found buf pos =>
          entry ← index_entry s pos buf;
          scan_loop fuel file now (s, out ++ entry) pos
      end
  end.

(** Every record takes at least 9 bytes, so the size of the file is enough fuel.  Returns
    whether the end of the log was reached, and the new position. *)
Definition scan_record (s : LogSegment.t S) (file : list byte) (pos now : Z)
    (out : list record)
    : outcome (result (bool * Z) StoreError.t * (LogSegment.t S * list record)) :=
  file_pos ← uint_sub pos (LogSegment.wal_offset s);
  attempt ((last_found, file_pos), (s, out)) :=
    scan_loop (Datatypes.S (length file)) file now (s, out) file_pos in
  pos ← u64_add (LogSegment.wal_offset s) file_pos;
  attempt (_, (s, out)) :=
    ('(r, s) ← LogSegment.truncate_to s (LogSegment.written s) now; Ret (r, (s, out))) in
  Ret (Ok (last_found, pos), (s, out)).

Fixpoint recover_loop (files : Z -> list byte) (offset now : Z) (l : list (LogSegment.t S))
    (pos : Z) (need_scan : bool) (out : list record)
    : outcome (result Z StoreError.t * (list (LogSegment.t S) * list record)) :=
  match l with
  | [] => Ret (Ok pos, ([], out))
  | s :: l =>
      let continue s pos need_scan out :=
        '(r, (l, out)) ← recover_loop files offset now l pos need_scan out;
        Ret (r, (s :: l, out)) in
      end_ ← u64_add (LogSegment.wal_offset s) (LogSegment.size s);
      if end_ <=? offset then
        continue (LogSegment.set_state s (LogSegment.size s) Status.Read) pos need_scan out
      else if negb need_scan then
        continue (LogSegment.set_state s 0 Status.ReadWrite) pos need_scan out
      else
        '(r, (s, out)) ← scan_record s (files (LogSegment.wal_offset s)) pos now out;
        match r with
        | Err e => Ret (Err e, (s :: l, out))
        | Ok (last_found, pos) => continue s pos (need_scan && negb last_found) out
        end
  end.

(** Returns the end of the log and the entries sent to the indexer. *)
Definition recover (w : t) (files : Z -> list byte) (offset now : Z)
    : outcome (result Z StoreError.t * t * list record) :=
  let pos :=
    match segments w with
    | s :: _ => if offset <? LogSegment.wal_offset s then LogSegment.wal_offset s else offset
    | [] => offset
    end in
  '(r, (l, out)) ← recover_loop files offset now (segments w) pos true [];
  Ret (r, set_segments w l, out).

(** ** The life cycle of segment files *)

Definition enqueue_and_submit (w : t) (entries : list (Sqe * Z)) : result unit StoreError.t * t :=
  match ring_push (control_ring w) entries with
  | None => (Err StoreError.IoUring, w)
  | Some r =>
      match ring_submit r with
      | None => (Err StoreError.IoUring, set_ring w r)
      | Some r => (Ok (), set_ring w r)
      end
  end.

Definition enqueue_and_submit_entry (w : t) (entry : Sqe * Z) : result unit StoreError.t * t :=
  enqueue_and_submit w [entry].

Definition enqueue_and_submit_entries (w : t) (entries : list (Sqe * Z))
    : result unit StoreError.t * t :=
  match entries with [] => (Ok (), w) | _ => enqueue_and_submit w entries end.

Definition alloc_segment (w : t) : outcome (result (LogSegment.t S) StoreError.t) :=
  offset ←
    match last (segments w) with
    | None => Ret 0
    | Some last => u64_add (LogSegment.wal_offset last) (Config.segment_size (config w))
    end;
  Ret (segment_at w offset (Config.join (config w) (format offset))).

Definition insert_inflight (w : t) (offset : Z) (st : Status.t) : t :=
  set_inflight w (<[offset := st]> (inflight_control_tasks w)).

(** The segment is pushed only when the entry was submitted; a recycled file is taken from
    the front before that. *)
Definition try_open_segment (w : t) : outcome (result unit StoreError.t * t) :=
  res ← alloc_segment w;
  match res with
  | Err e => Ret (Err e, w)
  | Ok segment =>
      let offset := LogSegment.wal_offset segment in
      let '(segment, w, sqe) :=
        match segments w with
        | recycled :: rest =>
            if Config.is_recycle (config w)
               && Status.eqb (LogSegment.status recycled) Status.Recycled then
              (LogSegment.set_status segment (Status.RenameAt (LogSegment.path recycled)),
               set_segments w rest,
               SqeRenameAt (LogSegment.path recycled) (LogSegment.path segment))
            else (segment, w, SqeOpenAt (LogSegment.path segment))
        | [] => (segment, w, SqeOpenAt (LogSegment.path segment))
        end in
      let w := insert_inflight w offset (LogSegment.status segment) in
      match enqueue_and_submit_entry w (sqe, offset) with
      | (Err e, w) => Ret (Err e, w)
      | (Ok _, w) => Ret (Ok (), set_segments w (segments w ++ [segment]))
      end
  end.

Definition has_status (st : Status.t) (s : LogSegment.t S) : bool :=
  Status.eqb (LogSegment.status s) st.

(** Mark the first [n] read-only segments. *)
Fixpoint close_first (n : nat) (l : list (LogSegment.t S)) : list (LogSegment.t S) :=
  match n, l with
  | Datatypes.S n', s :: l =>
      if has_status Status.Read s then LogSegment.set_status s Status.Close :: close_first n' l
      else s :: close_first n l
  | _, _ => l
  end.

Definition check_expired_segment (w : t) : outcome t :=
  max ← uint_div (Config.total_segment_file_size (config w)) (Config.segment_size (config w));
  let cur := Z.of_nat (length (List.filter (has_status Status.Read) (segments w))) in
  Ret (if max <? cur then set_segments w (close_first (Z.to_nat (cur - max)) (segments w)) else w).

Fixpoint take_while {A} (f : A -> bool) (l : list A) : list A :=
  match l with
  | [] => []
  | a :: l => if f a then a :: take_while f l else []
  end.

Definition close_entry (s : LogSegment.t S) : option (Sqe * Z) :=
  fd ← LogSegment.sd s; Some (SqeClose fd, LogSegment.wal_offset s).

Definition try_close_segment (w : t) : outcome (result unit StoreError.t * t) :=
  w ← check_expired_segment w;
  let to_close :=
    List.filter
      (fun s => negb (bool_decide (is_Some (inflight_control_tasks w !! LogSegment.wal_offset s))))
      (take_while (has_status Status.Close) (segments w)) in
  let w :=
    foldl (fun w s => insert_inflight w (LogSegment.wal_offset s) (LogSegment.status s)) w to_close in
  Ret (enqueue_and_submit_entries w (omap close_entry to_close)).

Definition writable_segment_count (w : t) : nat :=
  length (take_while (fun s => negb (has_status Status.Read s)) (reverse (segments w))).

Definition delete_segments (w : t) (offsets : list Z) : t :=
  match offsets with
  | [] => w
  | _ =>
      set_segments w
        (List.filter
           (fun s => negb (has_status Status.UnlinkAt s
                           && bool_decide (LogSegment.wal_offset s ∈ offsets)))
           (segments w))
  end.

(** The next step of a segment whose file operation completed with [result]: the segment, the
    entry to push with its status, and whether the segment is deleted.  [sd.unwrap()] panics
    when there is no descriptor. *)
Definition next_step (recycled : bool) (s : LogSegment.t S) (offset result : Z)
    : outcome (LogSegment.t S * option (Sqe * Z * Status.t) * bool) :=
  match LogSegment.status s with
  | Status.OpenAt =>
      Ret (LogSegment.set_status (LogSegment.set_sd s (Some result)) Status.Fallocate64,
           Some (SqeFallocate result (LogSegment.size s), offset, Status.Fallocate64), false)
  | Status.Fallocate64 =>
      match LogSegment.sd s with
      | None => Panic
      | Some fd =>
          Ret (LogSegment.set_status s Status.Fsync,
               Some (SqeFsync fd, LogSegment.wal_offset s, Status.Fsync), false)
      end
  | Status.Fsync => Ret (LogSegment.set_status s Status.ReadWrite, None, false)
  | Status.Close =>
      let s := LogSegment.set_sd s None in
      if negb recycled then
        Ret (LogSegment.set_status s Status.UnlinkAt,
             Some (SqeUnlinkAt (LogSegment.path s), offset, Status.UnlinkAt), false)
      else Ret (LogSegment.set_status s Status.Recycled, None, false)
  | Status.UnlinkAt => Ret (s, None, true)
  | Status.RenameAt _ =>
      Ret (LogSegment.set_status s Status.OpenAt,
           Some (SqeOpenAt (LogSegment.path s), offset, Status.OpenAt), false)
  | _ => Ret (s, None, false)
  end.

Definition submit (w : t) : result unit StoreError.t * t :=
  match ring_submit (control_ring w) with
  | None => (Err StoreError.IoUring, w)
  | Some r => (Ok (), set_ring w r)
  end.

Definition on_file_op_completion (w : t) (offset result : Z)
    : outcome (Prelude.result unit StoreError.t * t) :=
  found ← segment_file_of w offset;
  match found with
  | None => Ret (submit w)
  | Some (i, s) =>
      if result =? -1 then Ret (Err (StoreError.System result), w)
      else
      '(s, sqe, deleted) ← next_step (Config.is_recycle (config w)) s offset result;
      let w := set_segments w (<[i := s]> (segments w)) in
      let pushed :=
        match sqe with
        | None => Some w
        | Some (entry, user_data, st) =>
            r ← ring_push (control_ring w) [(entry, user_data)];
            Some (insert_inflight (set_ring w r) offset st)
        end in
      match pushed with
      | None => Ret (Err StoreError.IoUring, w)
      | Some w =>
          match submit w with
          | (Err e, w) => Ret (Err e, w)
          | (Ok _, w) => Ret (Ok (), if deleted : bool then delete_segments w [offset] else w)
          end
      end
  end.

(** The completions by segment offset, in the order in which the map of them is iterated;
    errors are dropped. *)
Fixpoint reap_control_tasks (w : t) (m : list (Z * Z)) : outcome t :=
  match m with
  | [] => Ret w
  | (offset, result) :: m =>
      match inflight_control_tasks w !! offset with
      | None => reap_control_tasks w m
      | Some _ =>
          let w := set_inflight w (delete offset (inflight_control_tasks w)) in
          '(_, w) ← on_file_op_completion w offset result;
          reap_control_tasks w m
      end
  end.

(** ** Reclaiming the cache *)

Fixpoint sum_cache_size (acc : Z) (l : list (LogSegment.t S)) : outcome Z :=
  match l with
  | [] => Ret acc
  | s :: l => acc ← u64_add acc (BlockCache.cache_size (LogSegment.block_cache s)); sum_cache_size acc l
  end.

Definition bytes_to_reclaim (w : t) (cache_size min_free_bytes : Z) : outcome (Z * Z) :=
  let high := apply_to (WalCache.high_watermark (wal_cache w)) (WalCache.max_cache_size (wal_cache w)) in
  let to_reclaim := if high <? cache_size then cache_size - high else 0 in
  current_free_bytes ←
    sint_sub 64 (as_sint 64 (WalCache.max_cache_size (wal_cache w))) (as_sint 64 cache_size);
  free ← sint_add 64 current_free_bytes (as_sint 64 to_reclaim);
  if free <? min_free_bytes then
    n ← sint_sub 64 min_free_bytes current_free_bytes;
    Ret (as_uint 64 n, current_free_bytes)
  else Ret (to_reclaim, current_free_bytes).

(** Insert the segment at position [i] unless it has nothing to give. *)
Definition push_segment (i : nat) (s : LogSegment.t S) (q : score_list) : outcome score_list :=
  score ← BlockCache.min_score (LogSegment.block_cache s);
  Ret (if 0 <? score then score_push (score, i) q else q).

Fixpoint push_segments (i : nat) (l : list (LogSegment.t S)) (q : score_list) : outcome score_list :=
  match l with
  | [] => Ret q
  | s :: l => q ← push_segment i s q; push_segments (Datatypes.S i) l q
  end.

(** Each round removes a block from a cache or drops a segment from the list, so one more
    than the number of both is enough fuel. *)
Fixpoint reclaim_loop (fuel : nat) (l : list (LogSegment.t S)) (q : score_list)
    (reclaimed to_reclaim : Z) : outcome (Z * list (LogSegment.t S)) :=
  match fuel with
  | O => Panic
  | Datatypes.S fuel =>
      if to_reclaim <=? reclaimed then Ret (reclaimed, l)
      else
      match score_pop_front q with
      | None => Ret (reclaimed, l)
      | Some ((_, i), q) =>
          match l !! i with
          | None => Panic
          | Some s =>
              let last_wal_offset :=
                BlockCache.wal_offset_of_last_cache_entry (LogSegment.block_cache s) in
              '(entry, c) ← BlockCache.remove_by_score (LogSegment.block_cache s);
              let s := LogSegment.set_cache s c in
              let l := <[i := s]> l in
              match entry with
              | None => reclaim_loop fuel l q reclaimed to_reclaim
              | Some e =>
                  if has_status Status.ReadWrite s && (Entry.wal_offset e =? last_wal_offset)
                  then reclaim_loop fuel l q reclaimed to_reclaim
                  else
                  reclaimed ← u64_add reclaimed (Entry.capacity e);
                  q ← push_segment i s q;
                  reclaim_loop fuel l q reclaimed to_reclaim
              end
          end
      end
  end.

Definition count_entries (l : list (LogSegment.t S)) : nat :=
  sum_list ((fun s => length (BlockCache.entries (LogSegment.block_cache s))) <$> l).

(** Returns the reclaimed and the free bytes. *)
Definition try_reclaim (w : t) (min_free_bytes : Z) : outcome ((Z * Z) * t) :=
  cache_size ← sum_cache_size 0 (segments w);
  '(to_reclaim, current_free_bytes) ← bytes_to_reclaim w cache_size min_free_bytes;
  if to_reclaim =? 0 then Ret ((0, as_uint 64 current_free_bytes), w)
  else
  q ← push_segments 0 (segments w) score_empty;
  '(reclaimed, l) ←
    reclaim_loop (Datatypes.S (count_entries (segments w) + length (segments w))) (segments w) q 0 to_reclaim;
  current ← uint_sub cache_size reclaimed;
  free ← sint_add 64 current_free_bytes (as_sint 64 reclaimed);
  Ret ((reclaimed, as_uint 64 (0 `max` free)),
       set_cache (set_segments w l)
         (WalCache.mk (WalCache.max_cache_size (wal_cache w)) current
            (WalCache.high_watermark (wal_cache w)))).
End wal.
Arguments t : clear implicits.
End Wal.
