(* ===== verification/Truncate.v ===== *)
(** * Truncating a segment

    [LogSegment::truncate_to], the end of the recovery of a segment: what it leaves in the
    block cache, where the I/O loop takes the last block from to go on writing. *)

From S2P Require Import Prelude Bytes StoreTypes Index Collections AlignedBuf BlockCache Segment.

Section truncation.
Context {S : SkipListApi}.

(** ** Cache operations on a cache with overlaps in between *)

Lemma weight_nonneg e : 0 <= weight e.
Proof.
  unfold weight, Entry.is_loaded, Entry.capacity. destruct (Entry.buf e); [|done].
  apply (as_uint_range 32). lia.
Qed.

Lemma loaded_size_nonneg m : 0 <= loaded_size m.
Proof. induction m as [|[? e] m IH]; simpl; [lia|]. pose proof (weight_nonneg e). lia. Qed.

Lemma weight_at_le m k : 0 <= weight_at m k <= loaded_size m.
Proof.
  unfold weight_at. induction m as [|[k0 e0] m IH]; simpl; [lia|].
  pose proof (weight_nonneg e0). pose proof (loaded_size_nonneg m).
  destruct (k =? k0); [lia|]. destruct (BTreeMap.get m k); lia.
Qed.

(** Adding a buffer at a key that may be in use. *)
Lemma add_entry_at n c b now k :
  Forall (entry_ok n (BlockCache.wal_offset c)) (BlockCache.entries c) -> size_ok c ->
  0 <= BlockCache.wal_offset c -> 0 <= n <= 2 ^ 34 -> 0 <= now < 2 ^ 62 ->
  AlignedBuf.wal_offset b = BlockCache.wal_offset c + k -> 0 <= k ->
  0 < AlignedBuf.limit b -> k + AlignedBuf.limit b < 2 ^ 32 ->
  BlockCache.cache_size c - weight_at (BlockCache.entries c) k + as_uint 32 (AlignedBuf.capacity b) < 2 ^ 32 ->
  exists c' e, BlockCache.add_entry c b now = Ret c' /\
    BlockCache.entries c' = BTreeMap.insert (BlockCache.entries c) k e /\
    Entry.buf e = Some b /\ entry_ok n (BlockCache.wal_offset c) (k, e) /\
    Entry.len e = AlignedBuf.limit b /\
    BlockCache.wal_offset c' = BlockCache.wal_offset c /\
    BlockCache.alignment c' = BlockCache.alignment c /\ size_ok c'.
Proof.
  intros Hok Hsz Hbase Hn Hnow Hw Hk Hl Hlt Hroom.
  set (rc := match BTreeMap.get (BlockCache.entries c) k with Some p => Entry.strong_rc p | None => 0 end).
  set (e := Entry.set_strong_rc (Entry.new b now) rc).
  assert (Hlen : Entry.len e = AlignedBuf.limit b).
  { unfold Entry.len. simpl. apply as_uint_id. unfold is_uint. lia. }
  assert (Hcap : Entry.capacity e = as_uint 32 (AlignedBuf.capacity b)) by done.
  assert (He : entry_ok n (BlockCache.wal_offset c) (k, e)).
  { unfold entry_ok. rewrite Hlen. unfold is_uint, Entry.wal_offset. simpl. split_and!; (done || lia). }
  destruct (score_Ret _ _ _ _ He) as [sc Hsc]; [lia|].
  assert (exists c' l n', BlockCache.add_entry c b now = Ret c' /\
    c' = BlockCache.mk (BlockCache.wal_offset c) (BTreeMap.insert (BlockCache.entries c) k e) l n'
           (BlockCache.alignment c)) as (c' & l & n' & Hadd & Heq).
  { unfold BlockCache.add_entry. rewrite Hw. run_arith.
    replace (_ + k - _) with k by lia. rewrite (as_uint_id 32 k) by (unfold is_uint; lia).
    pose proof (weight_at_le (BlockCache.entries c) k) as Hwt. destruct Hsz as [Hs Hcs].
    unfold weight_at in Hwt, Hroom. destruct (BTreeMap.get _ k) as [pre|] eqn:Hg.
    - assert (Hpre : entry_ok n (BlockCache.wal_offset c) (k, pre)).
      { apply (proj1 (Forall_forall _ _) Hok). by apply BTreeMap.get_elem. }
      destruct (score_Ret _ _ _ _ Hpre) as [scp Hscp]; [lia|].
      unfold BlockCache.score_remove. rewrite Hscp. simpl. unfold BlockCache.unaccount, weight in *.
      change (Entry.set_strong_rc _ (Entry.strong_rc pre)) with e.
      destruct (Entry.is_loaded pre); simpl; run_arith; rewrite Hcap; run_arith;
        unfold BlockCache.score_insert; rewrite Hsc; simpl; eauto.
    - simpl. change (Entry.new b now) with e. rewrite Hcap. run_arith.
      unfold BlockCache.score_insert. rewrite Hsc. simpl. eauto. }
  exists c', e. split; [done|]. pose proof (add_entry_size _ _ _ _ Hsz Hadd). by subst c'.
Qed.

(** Removing loaded entries keeps the others. *)
Lemma remove_loop_at n c pred m1 m2 :
  BlockCache.entries c = m1 ++ m2 ->
  Forall (entry_ok n (BlockCache.wal_offset c)) m2 -> n <= 2 ^ 34 -> size_ok c ->
  Forall (fun ke => Entry.is_loaded ke.2 = true) m2 ->
  exists c', BlockCache.remove_loop c pred m2 = Ret c' /\
    BlockCache.entries c' = m1 ++ List.filter (fun ke => negb (pred ke.2)) m2 /\
    BlockCache.wal_offset c' = BlockCache.wal_offset c /\
    BlockCache.alignment c' = BlockCache.alignment c /\ size_ok c'.
Proof.
  revert c m1. induction m2 as [|[k e] m2 IH]; intros c m1 Hent Hok Hn Hsz Hld; simpl.
  { exists c. rewrite Hent. done. }
  apply Forall_cons in Hok as [Hke Hok], Hld as [Hle Hld]. simpl in Hle.
  destruct (pred e); simpl.
  - destruct (score_Ret _ _ _ _ Hke) as [sc Hsc]; [lia|].
    unfold BlockCache.score_remove. rewrite Hsc. simpl. pose proof Hsz as [Hsort Hcs].
    assert (Hwt : weight_at (BlockCache.entries c) k = Entry.capacity e).
    { unfold weight_at. rewrite (proj2 (BTreeMap.get_elem _ k e Hsort)) by (rewrite Hent; set_solver).
      unfold weight. by rewrite Hle. }
    pose proof (weight_at_le (BlockCache.entries c) k). run_arith.
    match goal with |- context [BlockCache.remove_loop ?c1 _ _] => destruct (IH c1 m1) as (c' & ?) end; simpl; try done.
    + rewrite Hent. apply BTreeMap.remove_mid. by rewrite <- Hent.
    + apply size_ok_remove; [done|]. lia.
    + by exists c'.
  - rewrite cons_middle, app_assoc. apply IH; try done. by rewrite <- app_assoc.
Qed.

(** ** Copies of a part of a cached block *)

Lemma new_any off len al :
  AlignedBuf.is_power_of_two al = true -> 0 < len -> len + al < 2 ^ 62 ->
  exists b, AlignedBuf.new off len al = Ret (Ok b) /\ buf_ok b /\ AlignedBuf.wal_offset b = off /\
    AlignedBuf.limit b = 0 /\ (al | AlignedBuf.capacity b) /\
    len <= AlignedBuf.capacity b < len + al.
Proof.
  intros Hp Hl Hlt. pose proof (align_pos _ Hp). unfold AlignedBuf.new. run_arith.
  pose proof (Z.div_mod (len + al - 1) al). pose proof (Z.mod_pos_bound (len + al - 1) al).
  set (q := (len + al - 1) / al) in *. run_arith. rewrite Hp, (proj2 (Z.leb_le _ _)) by lia. simpl.
  eexists. split; [done|]. unfold buf_ok. simpl. unfold Bytes.remaining. rewrite length_replicate.
  split_and!; try lia; try done. by exists q.
Qed.

(** The bytes [from, to) of a block of the file that starts at [k]. *)
Lemma split_buf_spec file al k b off from to :
  AlignedBuf.is_power_of_two al = true ->
  AlignedBuf.buf b = file_at file k (k + AlignedBuf.capacity b) -> 0 <= k ->
  k + AlignedBuf.capacity b <= Bytes.remaining file -> Bytes.remaining file + al < 2 ^ 62 ->
  0 <= from < to -> to <= AlignedBuf.capacity b ->
  exists nb, LogSegment.split_buf b off from to al = Ret (Ok nb) /\ AlignedBuf.wal_offset nb = off /\
    AlignedBuf.limit nb = to - from /\ AlignedBuf.data nb = file_at file (k + from) (k + to) /\
    (al | AlignedBuf.capacity nb) /\ to - from <= AlignedBuf.capacity nb < to - from + al.
Proof.
  intros Hp Hbuf Hk Hle Hf Hft Hto. unfold LogSegment.split_buf.
  destruct (new_any off (to - from) al) as (nb & -> & (Hrem & _ & _) & Hw & Hlim & Hd & Hcap); [done|lia|lia|].
  simpl. unfold AlignedBuf.slice. rewrite Hbuf.
  pose proof (file_at_sub file k (k + AlignedBuf.capacity b) (k + from) (k + to)) as Hsub.
  replace (k + from - k) with from in Hsub by lia. replace (k + to - k) with to in Hsub by lia.
  rewrite Hsub by lia. simpl.
  pose proof (remaining_file_at file (k + from) (k + to) ltac:(lia) ltac:(lia)) as Hrf.
  unfold AlignedBuf.fill. rewrite (proj2 (Z.leb_le _ _)) by lia. simpl.
  eexists. split; [done|]. simpl. unfold AlignedBuf.data. simpl.
  rewrite Hlim, Z.add_0_l, as_uint_id by (unfold is_uint; lia).
  split_and!; try done; try lia. unfold overwrite. simpl. apply take_app_length'.
  unfold Bytes.remaining in Hrf. lia.
Qed.

(** ** The block that holds the end *)

Lemma singleton {A} (l : list A) a : NoDup l -> a ∈ l -> (forall x, x ∈ l -> x = a) -> l = [a].
Proof.
  intros Hnd Hin Hall. destruct l as [|x l]; [set_solver|]. assert (x = a) as -> by (apply Hall; set_solver).
  destruct l as [|y l]; [done|]. assert (y = a) as -> by (apply Hall; set_solver).
  apply NoDup_cons in Hnd as [Hno _]. set_solver.
Qed.

Lemma sorted_NoDup_all (m : @BTreeMap.t Entry.t) : BTreeMap.sorted m -> NoDup m.
Proof. intros Hs. by eapply NoDup_fmap_1, sorted_NoDup. Qed.

Lemma elem_disjoint (m : @BTreeMap.t Entry.t) a b :
  StronglySorted disjoint m -> a ∈ m -> b ∈ m -> a = b \/ disjoint a b \/ disjoint b a.
Proof.
  intros Hd Ha Hb. induction Hd as [|c m Hd IH Hc]; [set_solver|]. rewrite Forall_forall in Hc.
  apply elem_of_cons in Ha as [->|Ha], Hb as [->|Hb]; auto.
Qed.

Import LogSegment.

Lemma block_of n file s f x :
  seg_ok n file s -> (alignment s | f) -> f <= x < f + alignment s ->
  covered (BlockCache.entries (block_cache s)) x ->
  exists k e b, (k, e) ∈ BlockCache.entries (block_cache s) /\ Entry.buf e = Some b /\
    Entry.len e = AlignedBuf.capacity b /\ k <= f /\ f + alignment s <= k + AlignedBuf.capacity b /\
    List.filter (overlaps f (f + alignment s)) (BlockCache.entries (block_cache s)) = [(k, e)].
Proof.
  intros [Hc Hm Hacc Hoff (Hsz & Hsz' & Hdsz) (Hp & Hdo) Hbd Hsd] Hdf Hx Hcov.
  pose proof (align_pos _ Hp) as Hal.
  assert (Hok : Forall (entry_ok n (wal_offset s)) (BlockCache.entries (block_cache s)))
    by (rewrite <- Hoff; apply Hc).
  pose proof (mirrors_on n (wal_offset s) file _ _ Hm Hok ltac:(lia)) as Hon.
  assert (Hwhole : forall k e, (k, e) ∈ BlockCache.entries (block_cache s) ->
    k < f + alignment s -> f < k + Entry.len e -> k <= f /\ f + alignment s <= k + Entry.len e).
  { intros k e Hin H1 H2. destruct (proj1 (Forall_forall _ _) Hon _ Hin) as [Hd1 Hd2]. simpl in *.
    assert (Hd3 : (alignment s | k + Entry.len e)) by by apply Z.divide_add_r. split.
    - destruct (decide (k <= f)) as [?|Hn]; [done|].
      pose proof (divide_lt_le _ f k Hal Hdf Hd1 ltac:(lia)). lia.
    - pose proof (divide_lt_le _ f (k + Entry.len e) Hal Hdf Hd3 H2). lia. }
  apply Exists_exists in Hcov as ([k e] & Hin & Hk). simpl in Hk.
  destruct (mirrors_len file (alignment s) n (wal_offset s) k e) as (b & Hb & Hlen & _);
    [by apply (proj1 (Forall_forall _ _) Hm)|by apply (proj1 (Forall_forall _ _) Hok)|lia|].
  exists k, e, b. destruct (Hwhole k e Hin) as [Hw1 Hw2]; [lia|lia|].
  split; [done|]. split; [done|]. split; [done|]. split; [done|]. split; [lia|].
  apply singleton.
  - apply sorted_NoDup_all, BTreeMap.sorted_filter, Hacc.
  - apply filter_elem. split; [done|]. unfold overlaps. simpl. apply andb_true_iff. split; apply Z.ltb_lt; lia.
  - intros [k' e'] [Hin' Ho]%filter_elem. unfold overlaps in Ho. simpl in Ho. bool_to_prop.
    destruct (Hwhole k' e' Hin') as [Hv1 Hv2]; [lia|lia|].
    destruct (elem_disjoint _ _ _ (co_disjoint _ _ Hc) Hin' Hin) as [?|[Hd|Hd]]; [done|..];
      unfold disjoint in Hd; simpl in Hd; lia.
Qed.

Lemma lookup_block n file s f x now :
  seg_ok n file s -> 0 <= n < 2 ^ 34 -> 0 <= now < 2 ^ 62 ->
  (alignment s | f) -> 0 <= f -> f + alignment s <= size s -> f <= x < f + alignment s ->
  covered (BlockCache.entries (block_cache s)) x ->
  exists c' k e b, BlockCache.try_get_entries (block_cache s)
      (EntryRange.mk (wal_offset s + f) (alignment s)) now = Ret (Ok (Some [b]), c') /\
    seg_ok (n + 1) file (set_cache s c') /\ BlockCache.alignment c' = alignment s /\
    (k, e) ∈ BlockCache.entries c' /\ Entry.buf e = Some b /\ Entry.len e = AlignedBuf.capacity b /\
    k <= f /\ f + alignment s <= k + AlignedBuf.capacity b /\
    forall y, covered (BlockCache.entries c') y <-> covered (BlockCache.entries (block_cache s)) y.
Proof.
  intros Hs Hn Hnow Hdf Hf Hfs Hx Hcov. pose proof Hs as [Hc Hm Hacc Hoff (Hsz & Hsz' & Hdsz) (Hp & Hdo) Hbd Hsd].
  pose proof (align_pos _ Hp) as Hal.
  destruct (block_of n file s f x) as (k & e & b & Hin & Hb & Hlen & Hk1 & Hk2 & Hfil); [done..|].
  destruct (lookup_spec n (block_cache s) (EntryRange.mk (wal_offset s + f) (alignment s)) now)
    as (res & c' & Hget & Hc' & Htc & Hres); simpl; try done; try (rewrite ?Hoff; lia).
  simpl in Hres. rewrite Hoff in Hres. replace (wal_offset s + f - wal_offset s) with f in Hres by lia.
  destruct res as [found|missed].
  2:{ exfalso. destruct Hres as ([y Hy] & Hun & _). destruct (Hun (y - wal_offset s)) as [Hyr Hnc].
      { by replace (wal_offset s + (y - wal_offset s)) with y by lia. }
      apply Hnc, Exists_exists. exists (k, e). simpl. split; [done|lia]. }
  destruct Hres as [_ Hfound]. rewrite Hfil in Hfound. simpl in Hfound.
  unfold Entry.is_loaded in Hfound. rewrite Hb in Hfound. csimpl in Hfound. rewrite ?Hb in Hfound. simpl in Hfound.
  pose proof Htc as (_ & Hal' & _ & Hsame).
  assert (exists e', (k, e') ∈ BlockCache.entries c' /\ same (k, e) (k, e')) as (e' & Hin' & Hse).
  { apply list_elem_of_lookup in Hin as [i Hi].
    destruct (Forall2_lookup_l _ _ _ _ _ Hsame Hi) as ([k' e'] & Hi' & Hse). exists e'.
    pose proof (proj1 Hse) as Hkk. simpl in Hkk. subst k'. split; [by eapply list_elem_of_lookup_2|done]. }
  exists c', k, e', b. split; [by rewrite Hget, Hfound|]. split; [by eapply seg_ok_touched|].
  destruct (same_len _ _ Hse) as [Hle _]. simpl in Hle. destruct Hse as (_ & _ & _ & Hbe). simpl in Hbe.
  split; [done|]. split; [done|]. split; [congruence|]. split; [congruence|]. split; [done|]. split; [done|].
  intros y. symmetry. by apply covered_same.
Qed.

(** ** Cutting the block *)

(** A cached buffer holds the bytes of the file up to its limit. *)
Definition agrees (file : list byte) (ke : Z * Entry.t) : Prop :=
  exists b, Entry.buf ke.2 = Some b /\
    AlignedBuf.data b = file_at file ke.1 (ke.1 + AlignedBuf.limit b) /\
    Entry.len ke.2 = AlignedBuf.limit b /\ ke.1 + AlignedBuf.limit b <= Bytes.remaining file.

(** A copy of the bytes [x, y) of a cached block as an entry of its own. *)
Lemma add_piece n file c b k x y now :
  Forall (entry_ok n (BlockCache.wal_offset c)) (BlockCache.entries c) -> size_ok c ->
  0 <= BlockCache.wal_offset c -> 0 <= n <= 2 ^ 34 -> 0 <= now < 2 ^ 62 ->
  AlignedBuf.is_power_of_two (BlockCache.alignment c) = true ->
  AlignedBuf.buf b = file_at file k (k + AlignedBuf.capacity b) ->
  k + AlignedBuf.capacity b <= Bytes.remaining file ->
  Bytes.remaining file + BlockCache.alignment c < 2 ^ 32 ->
  0 <= k <= x -> x < y <= k + AlignedBuf.capacity b ->
  BlockCache.cache_size c - weight_at (BlockCache.entries c) x + (y - x + BlockCache.alignment c) <= 2 ^ 32 ->
  exists c' e nb,
    LogSegment.split_buf b (BlockCache.wal_offset c + x) (x - k) (y - k) (BlockCache.alignment c) = Ret (Ok nb) /\
    BlockCache.add_entry c nb now = Ret c' /\
    BlockCache.entries c' = BTreeMap.insert (BlockCache.entries c) x e /\
    Entry.buf e = Some nb /\ entry_ok n (BlockCache.wal_offset c) (x, e) /\ Entry.len e = y - x /\
    agrees file (x, e) /\ AlignedBuf.data nb = file_at file x y /\
    (BlockCache.alignment c | AlignedBuf.capacity nb) /\
    y - x <= AlignedBuf.capacity nb < y - x + BlockCache.alignment c /\
    BlockCache.wal_offset c' = BlockCache.wal_offset c /\
    BlockCache.alignment c' = BlockCache.alignment c /\ size_ok c'.
Proof.
  intros Hok Hsz Hbase Hn Hnow Hp Hbuf Hle Hf Hk Hxy Hroom. pose proof (align_pos _ Hp).
  destruct (split_buf_spec file (BlockCache.alignment c) k b (BlockCache.wal_offset c + x) (x - k) (y - k))
    as (nb & Hnb & Hw & Hlim & Hdata & Hd & Hcap); try done; try lia.
  replace (y - k - (x - k)) with (y - x) in * by lia.
  replace (k + (x - k)) with x in Hdata by lia. replace (k + (y - k)) with y in Hdata by lia.
  assert (Hcap32 : as_uint 32 (AlignedBuf.capacity nb) = AlignedBuf.capacity nb).
  { apply as_uint_id. unfold is_uint. lia. }
  destruct (add_entry_at n c nb now x) as (c' & e & Hadd & Hent & Hb & He & Hlen & Hw' & Hal' & Hs'); try done; try lia.
  exists c', e, nb. split_and!; try done; try lia. exists nb. simpl. rewrite Hlim.
  replace (x + (y - x)) with y by lia. split_and!; (done || lia).
Qed.

(** The buffer of the last, partial block of a log that ends at [p]. *)
Definition last_block (file : list byte) (al p : Z) (ke : Z * Entry.t) : Prop :=
  exists b, ke.1 = p - p mod al /\ Entry.buf ke.2 = Some b /\
    AlignedBuf.data b = file_at file (p - p mod al) p /\ AlignedBuf.capacity b = al /\
    Entry.len ke.2 = p mod al.

(** What is left of a block that starts at [k] when it is cut at [p]. *)
Record pieces_ok (n base al : Z) (file : list byte) (k p : Z) (l : list (Z * Entry.t)) : Prop := {
  pc_entries : Forall (entry_ok n base) l;
  pc_agrees : Forall (agrees file) l;
  pc_disjoint : StronglySorted disjoint l;
  pc_keys : Forall (fun ke => k <= ke.1 < p) l;
  pc_covered : forall x, covered l x <-> k <= x < p;
  pc_last : p mod al <> 0 -> exists ke, ke ∈ l /\ last_block file al p ke;
}.

Lemma page_start al k p : 0 < al -> (al | k) -> k < p -> k <= p - p mod al.
Proof.
  intros Hal Hk Hlt. pose proof (Z.mod_pos_bound p al Hal). pose proof (Z.div_mod p al ltac:(lia)).
  destruct (decide (k <= p - p mod al)) as [?|Hn]; [done|]. exfalso.
  assert (Hd : (al | p - p mod al)) by (exists (p / al); lia).
  pose proof (divide_lt_le al _ k Hal Hd Hk ltac:(lia)). lia.
Qed.

Lemma capacity_one al c r : 0 < r < al -> (al | c) -> r <= c < r + al -> c = al.
Proof. intros Hr [q ->] Hc. assert (q = 1) as -> by nia. lia. Qed.

(** The facts about a cached block that cutting it uses. *)
Lemma block_facts n file s k e b :
  seg_ok n file s -> (k, e) ∈ BlockCache.entries (block_cache s) -> Entry.buf e = Some b ->
  AlignedBuf.wal_offset b = wal_offset s + k /\ AlignedBuf.limit b = AlignedBuf.capacity b /\
  AlignedBuf.buf b = file_at file k (k + AlignedBuf.capacity b) /\ (alignment s | k) /\
  (alignment s | AlignedBuf.capacity b) /\ 0 <= k /\
  k + AlignedBuf.capacity b <= Bytes.remaining file /\ Entry.len e = AlignedBuf.capacity b /\
  weight_at (BlockCache.entries (block_cache s)) k = AlignedBuf.capacity b /\
  BlockCache.cache_size (block_cache s) <= size s.
Proof.
  intros [Hc Hm Hacc Hoff (Hsz & Hsz' & Hdsz) (Hp & Hdo) Hbd Hsd] Hin Hb.
  assert (Hok : Forall (entry_ok n (wal_offset s)) (BlockCache.entries (block_cache s)))
    by (rewrite <- Hoff; apply Hc).
  pose proof (proj1 (Forall_forall _ _) Hm _ Hin) as Hmir.
  pose proof (proj1 (Forall_forall _ _) Hok _ Hin) as Hoke.
  destruct (mirrors_len _ _ _ _ _ _ Hmir Hoke ltac:(lia)) as (b1 & Hb1 & Hlen & Hcap).
  destruct Hmir as (b2 & Hb2 & Hlim & Hbuf & Hd1 & Hd2 & Hpos & Hle). simpl in *.
  simplify_eq. destruct Hoke as (Hk & _ & _ & Hw & _). unfold Entry.wal_offset in Hw. rewrite Hb in Hw.
  split_and!; try done.
  - destruct Hacc as [Hs _]. unfold weight_at. rewrite (proj2 (BTreeMap.get_elem _ k e Hs) Hin).
    unfold weight, Entry.is_loaded. by rewrite Hb.
  - destruct Hacc as [_ ->]. rewrite Hsz.
    pose proof (loaded_size_bound file (alignment s) n (wal_offset s) _ 0 Hm Hok (co_disjoint _ _ Hc)) as Hbound.
    rewrite Z.sub_0_r in Hbound. apply Hbound; [lia|lia|].
    eapply Forall_impl; [exact Hok|]. by intros [? ?] (? & _).
Qed.

(** No other entry starts within the block. *)
Lemma block_key n file s k e b k' e' :
  seg_ok n file s -> (k, e) ∈ BlockCache.entries (block_cache s) -> Entry.buf e = Some b ->
  (k', e') ∈ BlockCache.entries (block_cache s) -> k' <> k ->
  k' + Entry.len e' <= k \/ k + AlignedBuf.capacity b <= k'.
Proof.
  intros Hs Hin Hb Hin' Hne. destruct (block_facts _ _ _ _ _ _ Hs Hin Hb) as (_&_&_&_&_&_&_&Hlen&_).
  destruct (elem_disjoint _ _ _ (co_disjoint _ _ (so_cache _ _ _ Hs)) Hin' Hin) as [?|[Hd|Hd]];
    [congruence|..]; unfold disjoint in Hd; simpl in Hd; lia.
Qed.

Lemma covered_one k e x : covered [(k, e)] x <-> k <= x < k + Entry.len e.
Proof. unfold covered. rewrite Exists_cons, Exists_nil. simpl. tauto. Qed.
Lemma cached_cons ke l x : covered (ke :: l) x <-> ke.1 <= x < ke.1 + Entry.len ke.2 \/ covered l x.
Proof. apply Exists_cons. Qed.

Lemma pieces_one n base al file k p e :
  entry_ok n base (k, e) -> agrees file (k, e) -> Entry.len e = p - k -> k < p ->
  (p mod al <> 0 -> last_block file al p (k, e)) -> pieces_ok n base al file k p [(k, e)].
Proof.
  intros He Hag Hl Hp Hlast. split; rewrite ?Forall_singleton; try done.
  - by repeat constructor.
  - intros x. rewrite covered_one, Hl. lia.
  - intros Hr. exists (k, e). split; [set_solver|auto].
Qed.

Lemma pieces_two n base al file k p e page e2 :
  entry_ok n base (k, e) -> agrees file (k, e) -> Entry.len e = page - k -> k < page ->
  entry_ok n base (page, e2) -> agrees file (page, e2) -> Entry.len e2 = p - page -> page < p ->
  last_block file al p (page, e2) -> pieces_ok n base al file k p [(k, e); (page, e2)].
Proof.
  intros He Hag Hl Hk He2 Hag2 Hl2 Hp Hlast.
  split; rewrite ?Forall_cons, ?Forall_nil; try (split_and!; done).
  - repeat constructor. unfold disjoint. simpl. lia.
  - simpl. split_and!; (done || lia).
  - intros x. rewrite cached_cons, covered_one. simpl. lia.
  - intros _. exists (page, e2). split; [set_solver|done].
Qed.

(** The second cut, once the last page has an entry of its own. *)
Lemma split_rest n file s c2 k e b page e2 now :
  seg_ok n file s -> 0 <= n <= 2 ^ 34 -> 0 <= now < 2 ^ 62 -> size s + 2 * alignment s <= 2 ^ 32 ->
  (k, e) ∈ BlockCache.entries (block_cache s) -> Entry.buf e = Some b ->
  k < page < k + AlignedBuf.capacity b ->
  BlockCache.entries c2 = BTreeMap.insert (BlockCache.entries (block_cache s)) page e2 ->
  entry_ok n (wal_offset s) (page, e2) -> weight e2 = alignment s -> size_ok c2 ->
  BlockCache.wal_offset c2 = wal_offset s -> BlockCache.alignment c2 = alignment s ->
  exists c3 e3 nb, LogSegment.split_buf b (wal_offset s + k) 0 (page - k) (alignment s) = Ret (Ok nb) /\
    BlockCache.add_entry c2 nb now = Ret c3 /\ entry_ok n (wal_offset s) (k, e3) /\ agrees file (k, e3) /\
    Entry.len e3 = page - k /\ size_ok c3 /\ BlockCache.wal_offset c3 = wal_offset s /\
    BlockCache.alignment c3 = alignment s /\
    forall ke, ke ∈ BlockCache.entries c3 <-> ke ∈ [(k, e3); (page, e2)] \/
      (ke ∈ BlockCache.entries (block_cache s) /\ ke.1 <> k).
Proof.
  intros Hs Hn Hnow Hroom Hin Hb Hp Hent He2 Hwt2 Hs2 Hw2 Hal2.
  destruct (block_facts _ _ _ _ _ _ Hs Hin Hb) as (Hw & Hlim & Hbuf & Hdk & Hdc & Hk & Hle & Hlen & Hwt & Hcs).
  pose proof Hs as [Hc Hm Hacc Hoff (Hsz & Hsz' & Hdsz) (Hpw & Hdo) Hbd Hsd].
  pose proof (align_pos _ Hpw) as Hal. pose proof (co_base _ _ Hc) as Hbase.
  destruct (add_piece n file c2 b k k page now) as (c3 & e3 & nb3 & Hsp3 & Hadd3 & Hent3 & Hb3 & He3 & Hl3 &
    Hag3 & Hdat3 & Hd3 & Hcap3 & Hw3 & Hal3 & Hs3); rewrite ?Hal2, ?Hw2; try done; try lia.
  { apply Forall_forall. rewrite Hent. intros [k' e0] [[= -> ->]|Hin']%BTreeMap.insert_elem; [done|].
    rewrite <- Hoff. by apply (proj1 (Forall_forall _ _) (co_entries _ _ Hc)). }
  { destruct Hs2 as [_ ->]. rewrite Hent, loaded_size_insert by apply Hacc.
    unfold weight_at at 2. rewrite BTreeMap.get_insert, decide_False by lia.
    fold (weight_at (BlockCache.entries (block_cache s)) k).
    pose proof (weight_at_le (BlockCache.entries (block_cache s)) page). pose proof (proj2 Hacc). lia. }
  rewrite Hal2, Z.sub_diag, Hw2 in *. exists c3, e3, nb3. split_and!; try done.
  intros [k' e0]. rewrite Hent3, BTreeMap.elem_of_insert by (rewrite Hent; apply BTreeMap.sorted_insert, Hacc).
  rewrite Hent, BTreeMap.elem_of_insert by apply Hacc. simpl. rewrite elem_of_cons, list_elem_of_singleton.
  split; [naive_solver|]. intros [[[= -> ->]|[= -> ->]]|[Hin' Hne]]; [by left|right; naive_solver lia|].
  right. split; [done|]. right. split; [|done]. intros ->.
  destruct (block_key _ _ _ _ _ _ _ _ Hs Hin Hb Hin' Hne) as [H1|H1]; [|lia].
  pose proof (proj1 (Forall_forall _ _) (co_entries _ _ Hc) _ Hin') as (_ & ? & _). lia.
Qed.

Lemma split_last_spec n file s k e b p now :
  seg_ok n file s -> 0 <= n <= 2 ^ 34 -> 0 <= now < 2 ^ 62 -> size s + 2 * alignment s <= 2 ^ 32 ->
  (k, e) ∈ BlockCache.entries (block_cache s) -> Entry.buf e = Some b ->
  k < p <= k + AlignedBuf.capacity b ->
  exists c' l, split_last s b (wal_offset s + (p - p mod alignment s)) (p mod alignment s) now =
      Ret (Ok (), set_cache s c') /\
    pieces_ok n (wal_offset s) (alignment s) file k p l /\ size_ok c' /\
    BlockCache.wal_offset c' = wal_offset s /\ BlockCache.alignment c' = alignment s /\
    forall ke, ke ∈ BlockCache.entries c' <->
      ke ∈ l \/ (ke ∈ BlockCache.entries (block_cache s) /\ ke.1 <> k).
Proof.
  intros Hs Hn Hnow Hroom Hin Hb Hp.
  destruct (block_facts _ _ _ _ _ _ Hs Hin Hb) as (Hw & Hlim & Hbuf & Hdk & Hdc & Hk & Hle & Hlen & Hwt & Hcs).
  pose proof Hs as [Hc Hm Hacc Hoff (Hsz & Hsz' & Hdsz) (Hpw & Hdo) Hbd Hsd].
  pose proof (align_pos _ Hpw) as Hal. pose proof (co_base _ _ Hc) as Hbase.
  pose proof (page_start _ _ _ Hal Hdk (proj1 Hp)) as Hpage. pose proof (Z.mod_pos_bound p _ Hal) as Hr.
  set (r := p mod alignment s) in *. set (page := p - r) in *.
  assert (Halc : BlockCache.alignment (block_cache s) = alignment s) by done.
  unfold split_last. rewrite Hw. rewrite !uint_sub_Ret by lia. rewrite !bind_Ret.
  replace (wal_offset s + page - (wal_offset s + k)) with (page - k) by lia.
  destruct (Z.eqb_spec r 0) as [Hr0|Hr0]; simpl.
  - assert (page = p) as Hpp by lia. rewrite Hpp in *.
    destruct (add_piece n file (block_cache s) b k k p now) as (c' & e' & nb & Hsp & Hadd & Hent & Hb' & He & Hl &
      Hag & _ & _ & _ & Hw' & Hal' & Hs'); rewrite ?Halc; try done; try lia; [apply Hc|].
    rewrite Hoff, Halc, Z.sub_diag in Hsp. rewrite Hoff in He, Hw'.
    rewrite (proj2 (Z.eqb_neq (p - k) 0)) by lia. simpl. rewrite Hsp. simpl. rewrite Hadd. simpl.
    exists c', [(k, e')]. split; [done|]. split; [apply pieces_one; [done|done|done|lia|by intros []]|]. split_and!; try done.
    intros [k' e0]. rewrite Hent, BTreeMap.elem_of_insert by apply Hacc. simpl.
    rewrite list_elem_of_singleton. naive_solver.
  - destruct (add_piece n file (block_cache s) b k page p now) as (c2 & e2 & nb2 & Hsp & Hadd & Hent & Hb2 & He2 & Hl2 &
      Hag2 & Hdat2 & Hd2 & Hcap2 & Hw2 & Hal2 & Hs2); rewrite ?Halc; try done; try lia; [apply Hc| |].
    { pose proof (weight_at_le (BlockCache.entries (block_cache s)) page). lia. }
    rewrite Hoff, Halc in *. replace (p - k) with (page - k + r) in Hsp by lia.
    rewrite Hsp. simpl. rewrite Hadd. simpl.
    pose proof (capacity_one (alignment s) (AlignedBuf.capacity nb2) r ltac:(lia) Hd2 ltac:(lia)) as Hc2.
    assert (Hlast : last_block file (alignment s) p (page, e2)) by (exists nb2; simpl; fold r; split_and!; (done || lia)).
    destruct (Z.eqb_spec (page - k) 0) as [Hpk|Hpk]; simpl.
    + assert (page = k) as Hk' by lia. clearbody page. subst page. exists c2, [(k, e2)].
      split; [done|]. split; [apply pieces_one; (done || lia)|]. split_and!; try done.
      intros [k' e0]. rewrite Hent, BTreeMap.elem_of_insert by apply Hacc. simpl.
      rewrite list_elem_of_singleton. naive_solver.
    + assert (Hwt2 : weight e2 = alignment s).
      { unfold weight, Entry.is_loaded, Entry.capacity. rewrite Hb2, Hc2. apply as_uint_id. unfold is_uint. lia. }
      destruct (split_rest n file s c2 k e b page e2 now) as (c3 & e3 & nb3 & Hsp3 & Hadd3 & He3 & Hag3 & Hl3 & Hrest);
        try done; [lia|].
      unfold alignment at 1. simpl. rewrite Hal2, Hsp3. simpl. rewrite Hadd3. simpl.
      exists c3, [(k, e3); (page, e2)]. split; [done|]. split; [apply pieces_two; (done || lia)|done].
Qed.

(** ** The truncated cache *)

(** A cache with what [s] has cached of the log up to [p], in which the last block, if it is
    partial, has a buffer of its own. *)
Record truncated (n : Z) (file : list byte) (s : LogSegment.t S) (p : Z) (c : BlockCache.t S) : Prop := {
  tr_cache : cache_ok n c;
  tr_account : size_ok c;
  tr_offset : BlockCache.wal_offset c = wal_offset s /\ BlockCache.alignment c = alignment s;
  tr_agrees : Forall (agrees file) (BlockCache.entries c);
  tr_covered : forall x, covered (BlockCache.entries c) x <->
    covered (BlockCache.entries (block_cache s)) x /\ x < p;
  tr_last : p mod alignment s <> 0 -> exists ke,
    BTreeMap.last_key_value (BlockCache.entries c) = Some ke /\ last_block file (alignment s) p ke;
}.

Lemma sorted_disjoint (m : @BTreeMap.t Entry.t) :
  BTreeMap.sorted m -> (forall a b, a ∈ m -> b ∈ m -> a.1 < b.1 -> disjoint a b) ->
  StronglySorted disjoint m.
Proof.
  induction 1 as [|a m Hs IH Ha]; [constructor|]. intros Hd. constructor.
  - apply IH. intros ????. apply Hd; by right.
  - apply Forall_forall. intros b Hb. apply Hd; [by left|by right|].
    by apply (proj1 (Forall_forall _ _) Ha).
Qed.

Lemma mirrors_agrees n base file al ke :
  mirrors file al ke -> entry_ok n base ke -> Bytes.remaining file < 2 ^ 32 -> agrees file ke.
Proof.
  destruct ke as [k e]. intros Hm Hok Hf. destruct (mirrors_len _ _ _ _ _ _ Hm Hok Hf) as (b1 & Hb1 & Hlen & _).
  destruct Hm as (b & Hb & Hl & Hbuf & _ & _ & Hp & Hle). destruct Hok as (Hk & _). simpl in *. simplify_eq.
  exists b. simpl. rewrite Hl. split_and!; try done.
  unfold AlignedBuf.data. rewrite Hl, Hbuf. apply take_ge.
  pose proof (remaining_file_at file k (k + AlignedBuf.capacity b)). unfold Bytes.remaining in *. lia.
Qed.

(** The cache that holds the pieces of the block and what lies before it. *)
Lemma truncated_members n file s c l k e b p :
  seg_ok n file s -> (k, e) ∈ BlockCache.entries (block_cache s) -> Entry.buf e = Some b ->
  k < p <= k + AlignedBuf.capacity b -> pieces_ok n (wal_offset s) (alignment s) file k p l ->
  size_ok c -> BlockCache.wal_offset c = wal_offset s -> BlockCache.alignment c = alignment s ->
  (forall ke, ke ∈ BlockCache.entries c <->
     ke ∈ l \/ (ke ∈ BlockCache.entries (block_cache s) /\ ke.1 + Entry.len ke.2 <= k)) ->
  truncated n file s p c.
Proof.
  intros Hs Hin Hb Hp [Hpe Hpa Hpd Hpk Hpc Hpl] Hsz Hw Hal Hmem.
  destruct (block_facts _ _ _ _ _ _ Hs Hin Hb) as (_ & _ & _ & _ & _ & Hk & _ & Hlen & _).
  pose proof Hs as [Hc Hm _ Hoff (Hfs & Hsz' & _) _ _ _].
  rewrite Forall_forall in Hpe, Hpa, Hpk, Hm. pose proof (co_entries _ _ Hc) as Hok. rewrite Hoff, Forall_forall in Hok.
  split; try done.
  - split; rewrite ?Hw, ?Hal, <- ?Hoff; try apply Hc.
    + apply Forall_forall. rewrite Hoff. intros ke [?|[? _]]%Hmem; auto.
    + apply sorted_disjoint; [apply Hsz|]. intros a a' Ha Ha' Hlt. unfold disjoint.
      apply Hmem in Ha as [Ha|[Ha Hak]], Ha' as [Ha'|[Ha' Ha'k]].
      * destruct (elem_disjoint _ _ _ Hpd Ha Ha') as [->|[?|Hd]]; [lia|done|].
        destruct a as [ka ea], a' as [kb eb]. unfold disjoint in Hd. simpl in *.
        destruct (Hpe _ Ha') as (_ & ? & _). lia.
      * specialize (Hpk _ Ha). destruct a' as [kb eb]. simpl in *. destruct (Hok _ Ha') as (_ & ? & _). lia.
      * specialize (Hpk _ Ha'). lia.
      * destruct (elem_disjoint _ _ _ (co_disjoint _ _ Hc) Ha Ha') as [->|[?|Hd]]; [lia|done|].
        destruct a as [ka ea], a' as [kb eb]. unfold disjoint in Hd. simpl in *.
        destruct (Hok _ Ha') as (_ & ? & _). lia.
  - apply Forall_forall. intros ke [?|[Hke _]]%Hmem; [auto|].
    eapply (mirrors_agrees n (wal_offset s) file); [by apply Hm|by apply Hok|lia].
  - intros x. unfold covered at 1. rewrite Exists_exists. split.
    + intros (ke & [Hke|[Hke Hkk]]%Hmem & Hx).
      * assert (Hx' : covered l x) by (apply Exists_exists; eauto). apply Hpc in Hx'. split; [|lia].
        apply Exists_exists. exists (k, e). simpl. split; [done|lia].
      * split; [|lia]. apply Exists_exists. eauto.
    + intros [([k' e'] & Hke & Hx)%Exists_exists Hxp]. simpl in Hx. destruct (decide (k <= x)) as [Hkx|Hkx].
      * assert (Hx' : covered l x) by (apply Hpc; lia). apply Exists_exists in Hx' as (ke & ? & ?).
        exists ke. split; [apply Hmem; by left|done].
      * exists (k', e'). split; [|done]. apply Hmem. right. split; [done|]. simpl.
        destruct (decide (k' = k)) as [->|Hne]; [lia|]. destruct (block_key _ _ _ _ _ _ _ _ Hs Hin Hb Hke Hne); lia.
  - intros Hr. destruct (Hpl Hr) as ([k2 e2] & Hin2 & Hlast). exists (k2, e2). split; [|done].
    destruct Hlast as (b2 & Hk2 & _ & _ & _ & Hl2). simpl in Hk2, Hl2.
    apply BTreeMap.last_max; [apply Hsz|apply Hmem; by left|]. intros k' e' [Hke|[Hke Hkk]]%Hmem.
    + destruct (elem_disjoint _ _ _ Hpd Hke Hin2) as [[= -> _]|[Hd|Hd]]; [done|..]; unfold disjoint in Hd; simpl in Hd.
      * destruct (Hpe _ Hke) as (_ & ? & _). lia.
      * specialize (Hpk _ Hke). simpl in Hpk. lia.
    + specialize (Hpk _ Hin2). destruct (Hok _ Hke) as (_ & ? & _). simpl in *. lia.
Qed.

Lemma evict_spec n file s c l k e b p :
  seg_ok n file s -> n <= 2 ^ 34 -> (k, e) ∈ BlockCache.entries (block_cache s) -> Entry.buf e = Some b ->
  k < p <= k + AlignedBuf.capacity b -> pieces_ok n (wal_offset s) (alignment s) file k p l ->
  size_ok c -> BlockCache.wal_offset c = wal_offset s -> BlockCache.alignment c = alignment s ->
  (forall ke, ke ∈ BlockCache.entries c <-> ke ∈ l \/ (ke ∈ BlockCache.entries (block_cache s) /\ ke.1 <> k)) ->
  exists c', BlockCache.remove c (fun e => wal_offset s + p <=? Entry.wal_offset e) = Ret c' /\
    truncated n file s p c'.
Proof.
  intros Hs Hn Hin Hb Hp Hpc Hsz Hw Hal Hmem. pose proof Hs as [Hc Hm _ Hoff (Hfs & Hsz' & _) _ _ _].
  pose proof (co_entries _ _ Hc) as Hok. rewrite Hoff, Forall_forall in Hok.
  assert (Hall : forall ke, ke ∈ BlockCache.entries c -> entry_ok n (wal_offset s) ke /\ agrees file ke).
  { intros ke [Hke|[Hke _]]%Hmem.
    - split; [apply (proj1 (Forall_forall _ _) (pc_entries _ _ _ _ _ _ _ Hpc)) |
              apply (proj1 (Forall_forall _ _) (pc_agrees _ _ _ _ _ _ _ Hpc))]; done.
    - split; [by apply Hok|]. eapply (mirrors_agrees n (wal_offset s) file); [|by apply Hok|lia].
      by apply (proj1 (Forall_forall _ _) Hm). }
  destruct (remove_loop_at n c (fun e => wal_offset s + p <=? Entry.wal_offset e) [] (BlockCache.entries c))
    as (c' & Hrm & Hent & Hw' & Hal' & Hs'); try done.
  { apply Forall_forall. rewrite Hw. intros ke Hke. by apply Hall. }
  { apply Forall_forall. intros ke Hke. destruct (Hall _ Hke) as [_ (b' & Hb' & _)]. unfold Entry.is_loaded. by rewrite Hb'. }
  exists c'. split; [done|]. eapply (truncated_members n file s c' l k e b p); try done; try congruence.
  intros [k' e']. rewrite Hent. simpl. rewrite filter_elem, Hmem. simpl.
  destruct (block_facts _ _ _ _ _ _ Hs Hin Hb) as (_ & _ & _ & _ & _ & Hk & _ & Hlen & _).
  rewrite negb_true_iff, Z.leb_gt. split.
  - intros [[Hl|[Hm' Hne]] Hlt]; [by left|right]. split; [done|]. destruct (Hok _ Hm') as (_ & _ & _ & Hwo & _).
    simpl in *. destruct (block_key _ _ _ _ _ _ _ _ Hs Hin Hb Hm' Hne); lia.
  - intros [Hl|[Hm' Hle]].
    + split; [by left|]. pose proof (proj1 (Forall_forall _ _) (pc_keys _ _ _ _ _ _ _ Hpc) _ Hl) as Hkk.
      destruct (proj1 (Forall_forall _ _) (pc_entries _ _ _ _ _ _ _ Hpc) _ Hl) as (_ & _ & _ & Hwo & _). simpl in *. lia.
    + destruct (Hok _ Hm') as (_ & Hpos & _ & Hwo & _). split; [|lia]. right. split; [done|lia].
Qed.

(** The block is split only if it reaches beyond the last full page. *)
Lemma cut_block n file s k e b p now :
  seg_ok n file s -> 0 <= n <= 2 ^ 34 -> 0 <= now < 2 ^ 62 -> size s + 2 * alignment s <= 2 ^ 32 ->
  (k, e) ∈ BlockCache.entries (block_cache s) -> Entry.buf e = Some b ->
  k < p <= k + AlignedBuf.capacity b ->
  let page := wal_offset s + (p - p mod alignment s) in
  exists c', (if page <? wal_offset s + k + AlignedBuf.capacity b
              then split_last s b page (p mod alignment s) now else Ret (Ok (), s)) =
      Ret (Ok (), set_cache s c') /\
    exists c2, BlockCache.remove c' (fun e => wal_offset s + p <=? Entry.wal_offset e) = Ret c2 /\
      truncated n file s p c2.
Proof.
  intros Hs Hn Hnow Hroom Hin Hb Hp page.
  destruct (block_facts _ _ _ _ _ _ Hs Hin Hb) as (_ & _ & _ & Hdk & Hdc & Hk & _ & Hlen & _).
  destruct (Z.ltb_spec page (wal_offset s + k + AlignedBuf.capacity b)) as [_|Hge].
  - destruct (split_last_spec n file s k e b p now) as (c' & l & Hsplit & Hpc & Hsz & Hw & Hal & Hmem); try done.
    exists c'. split; [done|]. apply (evict_spec n file s c' l k e b p); (done || lia).
  - pose proof Hs as [Hc Hm Hacc Hoff (Hfs & Hsz' & Hdsz) (Hpw & Hdo) Hbd Hsd].
    pose proof (Z.mod_pos_bound p _ (align_pos _ Hpw)). unfold page in Hge.
    assert (p = k + AlignedBuf.capacity b) as -> by lia.
    exists (block_cache s). split; [by destruct s|].
    pose proof (proj1 (Forall_forall _ _) Hm _ Hin) as Hmir. pose proof (co_entries _ _ Hc) as Hok.
    rewrite Hoff in Hok. pose proof (proj1 (Forall_forall _ _) Hok _ Hin) as Hoke.
    eapply (evict_spec n file s (block_cache s) [(k, e)] k e b); try done; [lia| |].
    + apply pieces_one; [done| |lia|lia|lia]. by eapply mirrors_agrees; [..|lia].
    + intros [k' e']. rewrite list_elem_of_singleton. simpl. split.
      * intros Hin'. destruct (decide (k' = k)) as [->|]; [left|by right].
        f_equal. apply BTreeMap.get_elem in Hin, Hin'; try apply Hacc. congruence.
      * intros [[= -> ->]|[? _]]; done.
Qed.

Lemma truncated_cache n file s c p c' :
  BlockCache.alignment c = alignment s ->
  (forall x, covered (BlockCache.entries c) x <-> covered (BlockCache.entries (block_cache s)) x) ->
  truncated n file (set_cache s c) p c' -> truncated n file s p c'.
Proof.
  intros Hal Hcov [H1 H2 H3 H4 H5 H6]. unfold alignment in *. simpl in *. rewrite Hal in *.
  split; try done. intros x. by rewrite H5, Hcov.
Qed.

Lemma truncate_spec n file s p now :
  seg_ok n file s -> 0 <= n < 2 ^ 34 -> 0 <= now < 2 ^ 62 -> size s + 2 * alignment s <= 2 ^ 32 ->
  0 < p <= size s -> covered (BlockCache.entries (block_cache s)) (p - 1) ->
  exists c', truncate_to s p now = Ret (Ok (), set_cache s c') /\ truncated (n + 1) file s p c'.
Proof.
  intros Hs Hn Hnow Hroom Hp Hcov.
  pose proof Hs as [Hc Hm Hacc Hoff (Hfs & Hsz' & Hdsz) (Hpw & Hdo) Hbd Hsd].
  pose proof (align_pos _ Hpw) as Hal. pose proof (co_base _ _ Hc) as Hbase. rewrite Hoff in Hbase.
  destruct (entry_range_new (wal_offset s + p - 1) 1 (alignment s) (wal_offset s) (wal_offset s + size s))
    as (f & t & Hr & Hdf & Hdt & Hf1 & Hf2 & Ht1 & Ht2); try lia; [done|by apply Z.divide_add_r|].
  assert (t = f + alignment s) as ->.
  { pose proof (divide_lt_le _ f t Hal Hdf Hdt ltac:(lia)).
    destruct (decide (f + alignment s < t)); [|lia].
    pose proof (divide_lt_le _ (f + alignment s) t Hal (Z.divide_add_r _ _ _ Hdf (Z.divide_refl _)) Hdt ltac:(lia)). lia. }
  replace (f + alignment s - f) with (alignment s) in Hr by lia.
  destruct (lookup_block n file s (f - wal_offset s) (p - 1) now)
    as (c1 & k & e & b & Hget & Hs1 & Hal1 & Hin & Hb & Hlen & Hk1 & Hk2 & Hcov1); try done; try lia.
  { by apply Z.divide_sub_r. }
  replace (wal_offset s + (f - wal_offset s)) with f in Hget by lia.
  destruct (cut_block (n + 1) file (set_cache s c1) k e b p now) as (c2 & Hcut & c3 & Hrm & Htr);
    unfold alignment in *; simpl in *; rewrite ?Hal1 in *; try done; try lia.
  destruct (block_facts _ _ _ _ _ _ Hs1 Hin Hb) as (Hwb & Hlim & _ & _ & _ & Hk0 & Hkle & _). simpl in Hwb.
  exists c3. split; [|by eapply truncated_cache].
  pose proof (Z.div_mod p (BlockCache.alignment (block_cache s)) ltac:(lia)) as Hdm.
  unfold truncate_to, alignment. set (al := BlockCache.alignment (block_cache s)) in *.
  pose proof (Z.mod_pos_bound p al ltac:(lia)).
  rewrite uint_div_Ret by lia. rewrite bind_Ret, uint_mul_Ret by nia. rewrite bind_Ret.
  replace (p / al * al) with (p - p mod al) by lia.
  rewrite uint_sub_Ret by lia. rewrite bind_Ret. replace (p - (p - p mod al)) with (p mod al) by lia.
  rewrite (uint_add_Ret 64 (p - p mod al)), bind_Ret, uint_add_Ret, bind_Ret by lia.
  rewrite (proj2 (Z.ltb_lt 0 (wal_offset s + p))) by lia.
  rewrite Hr, bind_Ret, Hget, bind_Ret.
  rewrite Hwb, Hlim, uint_add_Ret, bind_Ret by lia. rewrite (Z.add_comm (p - _)), (as_uint_id 32) by (unfold is_uint; lia).
  rewrite Hcut, bind_Ret. simpl. by rewrite Hrm.
Qed.

(** An empty log: nothing stays in the cache. *)
Lemma truncate_zero n file s now :
  seg_ok n file s -> 0 <= n < 2 ^ 34 -> 0 <= now < 2 ^ 62 -> wal_offset s = 0 ->
  covered (BlockCache.entries (block_cache s)) 0 ->
  exists c', truncate_to s 0 now = Ret (Ok (), set_cache s c') /\ truncated (n + 1) file s 0 c'.
Proof.
  intros Hs Hn Hnow Hw0 Hcov.
  pose proof Hs as [Hc Hm Hacc Hoff (Hfs & Hsz' & Hdsz) (Hpw & Hdo) Hbd Hsd].
  pose proof (align_pos _ Hpw) as Hal.
  assert (Hle : alignment s <= size s) by (apply Z.divide_pos_le; [lia|done]).
  assert (Hr : EntryRange.new 0 1 (alignment s) = Ret (EntryRange.mk 0 (alignment s))).
  { destruct (entry_range_new 0 1 (alignment s) 0 (size s)) as (f & t & -> & [i ->] & [j ->] & Hf1 & Hf2 & Ht1 & Ht2);
      try lia; [by apply Z.divide_0_r|done|]. assert (i = 0) as -> by nia. assert (j = 1) as -> by nia.
    f_equal. f_equal. lia. }
  destruct (lookup_block n file s 0 0 now) as (c1 & k & e & b & Hget & Hs1 & Hal1 & Hin & Hb & Hlen & Hk1 & Hk2 & Hcov1);
    try done; try lia; [by apply Z.divide_0_r|].
  destruct (block_facts _ _ _ _ _ _ Hs1 Hin Hb) as (Hwb & Hlim & _ & _ & _ & Hk0 & Hkle & _). simpl in Hwb.
  assert (k = 0) as -> by lia. rewrite Hw0 in *. rewrite Z.add_0_l in *.
  pose proof (so_cache _ _ _ Hs1) as Hc1. pose proof (so_mirrors _ _ _ Hs1) as Hm1. simpl in Hc1, Hm1.
  pose proof (co_entries _ _ Hc1) as Hok1. pose proof (so_offset _ _ _ Hs1) as Hoff1. simpl in Hoff1.
  rewrite Hoff1, Hw0, Forall_forall in Hok1. rewrite Forall_forall in Hm1.
  destruct (remove_loop_at (n + 1) c1 (fun e => 0 <=? Entry.wal_offset e) [] (BlockCache.entries c1))
    as (c' & Hrm & Hent & Hw' & Hal' & Hs'); [done|by rewrite Hoff1, Hw0; apply Forall_forall|lia|apply Hs1| |].
  { apply Forall_forall. intros [k' e'] Hin'. destruct (Hm1 _ Hin') as (b' & Hb' & _). unfold Entry.is_loaded.
    simpl in *. by rewrite Hb'. }
  assert (Hnil : BlockCache.entries c' = []).
  { rewrite Hent. simpl. apply elem_of_nil_inv. intros [k' e'] [Hin' Hneg]%filter_elem.
    destruct (Hok1 _ Hin') as (? & _ & _ & Hwo & _). simpl in Hneg. bool_to_prop. lia. }
  exists c'. split.
  - unfold truncate_to. rewrite Hw0, uint_div_Ret, bind_Ret, Z.div_0_l by lia. simpl. rewrite Hr. simpl.
    rewrite Hget. simpl. rewrite Hwb, Hlim, uint_add_Ret by lia. simpl.
    rewrite (proj2 (Z.ltb_lt _ _)) by lia. unfold split_last. simpl. rewrite Hwb. simpl.
    change (BlockCache.remove c1 _) with (BlockCache.remove_loop c1 (fun e => 0 <=? Entry.wal_offset e) (BlockCache.entries c1)).
    by rewrite Hrm.
  - pose proof Hc1 as [Hb1 Ha1 _ _]. split; rewrite ?Hw', ?Hal', ?Hnil; try done.
    + split; rewrite ?Hw', ?Hal', ?Hnil; try done; constructor.
    + intros x. split; [by intros ?%Exists_nil|]. intros [([k' e'] & Hin' & Hx)%Exists_exists Hlt].
      destruct (proj1 (Forall_forall _ _) (co_entries _ _ Hc) _ Hin') as (? & _). simpl in Hx. lia.
Qed.

(** C28: Truncation at the end of recovery keeps exactly the log.  When the block before [p] is
    cached, [truncate_to] succeeds; the cache then covers what it covered before, up to [p],
    with the bytes of the file, its size counter is right, and if [p] lies within a block, the
    last entry is a buffer of one block that holds this block's bytes up to [p], for the
    writer to continue. *)
Theorem truncate_to_spec n file s p now :
  seg_ok n file s -> 0 <= n < 2 ^ 34 -> 0 <= now < 2 ^ 62 -> size s + 2 * alignment s <= 2 ^ 32 ->
  0 < p <= size s -> covered (BlockCache.entries (block_cache s)) (p - 1) ->
  exists c', truncate_to s p now = Ret (Ok (), set_cache s c') /\ truncated (n + 1) file s p c'.
Proof. apply truncate_spec. Qed.
End truncation.

(** ** Witness *)

(** The cached block [4, 8) of the example is cut at 6. *)
Lemma truncate_to_spec_witness :
  exists c', LogSegment.truncate_to SegmentExample.s 6 7 = Ret (Ok (), LogSegment.set_cache SegmentExample.s c') /\
    truncated 1 SegmentExample.file SegmentExample.s 6 c'.
Proof.
  apply (truncate_to_spec 0 SegmentExample.file SegmentExample.s 6 7 SegmentExample.s_ok); [done..|].
  apply Exists_cons_hd. done.
Defined.
