(* ===== verification/Recovery.v ===== *)
(** * Recovery of the log

    What [append_record] and [append_footer] leave in a segment file, and that [Wal::recover]
    finds it again: every record is sent to the indexer with its place in the log, the scan
    stops at the end of the log, and the segments are left in the state in which the I/O loop
    can continue. *)

From S2P Require Import Prelude Bytes StoreTypes Index Collections AlignedBuf BlockCache Segment Truncate Record Wal.

Section layout.
Context {B : BytesApi} {BL : BytesLaws B} {C : Crc32Api} {CL : Crc32Laws C}.

(** A record in the file of the segment at [wo]. *)
Definition record_bytes (wo : Z) (ty : RecordType.t) (payload : list byte) : list byte :=
  put_uint 4 (LogSegment.checksum_record [payload] wo) ++
  put_uint 4 (RecordType.with_length ty (Bytes.remaining payload)) ++ payload.

Lemma remaining_record wo ty x : Bytes.remaining (record_bytes wo ty x) = 8 + Bytes.remaining x.
Proof. unfold record_bytes. rewrite !remaining_app, !remaining_put. lia. Qed.

Lemma checksum_u32 l wo : is_u32 (LogSegment.checksum_record l wo).
Proof. apply crc32_u32. Qed.

Lemma with_length_spec ty len :
  0 <= len < 2 ^ 24 ->
  is_u32 (RecordType.with_length ty len) /\ Z.shiftr (RecordType.with_length ty len) 8 = len /\
  RecordType.try_from (as_uint 8 (Z.land (RecordType.with_length ty len) 0xFF)) = Some ty.
Proof.
  intros Hl. unfold RecordType.with_length.
  assert (Ht : 0 <= RecordType.into ty < 256) by (destruct ty; simpl; lia).
  destruct (split_length_type len _ Hl Ht) as (-> & -> & -> & Hr).
  rewrite as_uint_id by (unfold is_uint; lia). split; [done|]. split; [done|]. by destruct ty.
Qed.

(** The parts of a range of the file. *)
Lemma file_at_app file p q a b :
  0 <= p -> file_at file p q = a ++ b -> q <= Bytes.remaining file -> p <= q ->
  file_at file p (p + Bytes.remaining a) = a /\ file_at file (p + Bytes.remaining a) q = b.
Proof.
  intros Hp Hab Hq Hpq. pose proof (remaining_file_at file p q ltac:(lia) Hq) as Hrem.
  rewrite Hab, remaining_app in Hrem. pose proof (remaining_nonneg a). pose proof (remaining_nonneg b).
  rewrite (file_at_split file p (p + Bytes.remaining a) q) in Hab by lia.
  apply app_inj_1 in Hab; [done|].
  pose proof (remaining_file_at file p (p + Bytes.remaining a) ltac:(lia) ltac:(lia)) as Hra.
  unfold Bytes.remaining in *. lia.
Qed.

Lemma get_file_word file p v : is_u32 v -> file_at file p (p + 4) = put_uint 4 v ->
  get_uint 4 (file_at file p (p + 4)) = Ret (v, []).
Proof. intros Hv ->. rewrite <- (app_nil_r (put_uint 4 v)). by apply get_put. Qed.

(** ** Appending *)

Section appending.
Context {S : SkipListApi}.
Import LogSegment.

Lemma write_record_spec w a z crc length_type payload :
  writer_ok w a z -> payload <> [] -> AlignedBufWriter.cursor w + 8 + Bytes.remaining payload <= z ->
  exists w', LogSegment.write_record w crc length_type payload = Ret (Ok (), w') /\ writer_ok w' a z /\
    contents w' = contents w ++ put_uint 4 crc ++ put_uint 4 length_type ++ payload /\
    AlignedBufWriter.cursor w' = AlignedBufWriter.cursor w + 8 + Bytes.remaining payload.
Proof.
  intros Hw Hne Hroom. pose proof (remaining_nonneg payload).
  assert (Hput : forall v, put_uint 4 v <> []) by (intros v Hv; by pose proof (length_put_uint 4 v) as Hl; rewrite Hv in Hl).
  unfold LogSegment.write_record, AlignedBufWriter.write_u32. rewrite <- (put_uint_be 4 crc).
  destruct (write_spec w a z (put_uint 4 crc)) as (w1 & -> & Hw1 & Hc1 & Hr1 & _); [done|done|rewrite remaining_put; lia|].
  rewrite remaining_put in Hr1. simpl. rewrite <- (put_uint_be 4 length_type).
  destruct (write_spec w1 a z (put_uint 4 length_type)) as (w2 & -> & Hw2 & Hc2 & Hr2 & _); [done|done|rewrite remaining_put; lia|].
  rewrite remaining_put in Hr2. simpl.
  destruct (write_spec w2 a z payload) as (w3 & -> & Hw3 & Hc3 & Hr3 & _); [done|done|lia|].
  exists w3. split; [done|]. split; [done|]. split; [|lia]. by rewrite Hc3, Hc2, Hc1, <- !(assoc_L (++)).
Qed.

(** [append_record] adds the record to the buffers and moves the end of the segment. *)
Lemma append_record_spec (s : LogSegment.t S) w a z payload :
  writer_ok w a z -> payload <> [] -> Bytes.remaining payload < 2 ^ 24 ->
  AlignedBufWriter.cursor w + 8 + Bytes.remaining payload <= z -> 0 <= written s -> 0 <= wal_offset s ->
  wal_offset s + written s + 8 + Bytes.remaining payload < 2 ^ 64 ->
  exists w', append_record s w payload =
      Ret (Ok (wal_offset s + (written s + (8 + Bytes.remaining payload))),
           set_state s (written s + (8 + Bytes.remaining payload)) (status s), w') /\
    writer_ok w' a z /\ contents w' = contents w ++ record_bytes (wal_offset s) RecordType.Full payload /\
    AlignedBufWriter.cursor w' = AlignedBufWriter.cursor w + 8 + Bytes.remaining payload.
Proof.
  intros Hw Hne Hlen Hroom Hwr Hwo Hbd. pose proof (remaining_nonneg payload). unfold append_record.
  rewrite (as_uint_id 32 (Bytes.remaining payload)) by (unfold is_uint; lia).
  destruct (write_record_spec w a z (checksum_record [payload] (wal_offset s))
    (RecordType.with_length RecordType.Full (Bytes.remaining payload)) payload) as (w' & -> & ?); [done..|].
  simpl. run_arith. by exists w'.
Qed.

(** The payload of the footer: zeros and two empty timestamps. *)
Definition footer_payload (n : Z) : list byte :=
  replicate (Z.to_nat n) Byte.x00 ++ put_uint 8 0 ++ put_uint 8 0.

Lemma remaining_footer n : 0 <= n -> Bytes.remaining (footer_payload n) = n + 16.
Proof.
  intros. unfold footer_payload. rewrite !remaining_app, !remaining_put. unfold Bytes.remaining.
  rewrite length_replicate. lia.
Qed.

(** [append_footer] fills the segment up to its size with a record of type [Zero]. *)
Lemma append_footer_spec (s : LogSegment.t S) w a z :
  writer_ok w a z -> 0 <= written s -> written s + FOOTER_LENGTH <= size s ->
  size s - written s - 8 < 2 ^ 24 -> AlignedBufWriter.cursor w + (size s - written s) <= z ->
  0 <= wal_offset s -> wal_offset s + size s < 2 ^ 64 ->
  exists w', append_footer s w =
      Ret (Ok (wal_offset s + size s), set_state s (size s) Status.Read, w') /\ writer_ok w' a z /\
    contents w' = contents w ++
      record_bytes (wal_offset s) RecordType.Zero (footer_payload (size s - written s - FOOTER_LENGTH)) /\
    AlignedBufWriter.cursor w' = AlignedBufWriter.cursor w + (size s - written s).
Proof.
  unfold FOOTER_LENGTH. intros Hw Hwr Hle Hlt Hroom Hwo Hbd.
  unfold append_footer. change RecordType.RECORD_PREFIX_LENGTH with 8. run_arith.
  rewrite (as_uint_id 32) by (unfold is_uint; lia). run_arith.
  set (n := size s - written s - 24). replace (size s - written s - 8 - 8 - 8) with n by lia.
  fold (footer_payload n). pose proof (remaining_footer n ltac:(lia)) as Hrem.
  destruct (write_record_spec w a z
    (crc32 (put_uint 4 (crc32 (footer_payload n)) ++ put_uint 8 (wal_offset s)))
    (RecordType.with_length RecordType.Zero (n + 8 + 8)) (footer_payload n)) as (w' & Hwrec & Hok & Hcon & Hcur).
  { done. } { intros Hnil. rewrite Hnil in Hrem. unfold Bytes.remaining in Hrem. simpl in Hrem. lia. } { lia. }
  rewrite Hwrec. simpl. run_arith. exists w'. split; [done|]. split; [done|]. split; [|lia].
  rewrite Hcon. unfold record_bytes, checksum_record. rewrite crc32_vectored_concat. simpl. rewrite app_nil_r.
  rewrite Hrem. by replace (n + 8 + 8) with (n + 16) by lia.
Qed.
End appending.
End layout.

(** ** Scanning *)

Section scanning.
Context {S : SkipListApi} {B : BytesApi} {BL : BytesLaws B} {C : Crc32Api} {CL : Crc32Laws C} {M : MetaApi}.
Import LogSegment.

(** The word at [p] of the file. *)
Definition word (file : list byte) (p : Z) : Z := be_decode (file_at file p (p + 4)).

(** No record follows at [p]: the length makes no sense or the checksum is wrong. *)
Definition log_end_at (file : list byte) (wo p : Z) : Prop :=
  let len := Z.shiftr (word file (p + 4)) 8 in
  p + 8 <= Bytes.remaining file /\
  (Bytes.remaining file < p + 8 + len \/ len = 0 \/
   checksum_record [file_at file (p + 8) (p + 8 + len)] wo <> word file p).

(** What reading [a, b) does to the cache of the segment. *)
Definition cached (n : Z) (file : list byte) (s : LogSegment.t S) (a b : Z) (c : BlockCache.t S) : Prop :=
  seg_ok n file (set_cache s c) /\ BlockCache.alignment c = alignment s /\
  forall x, covered (BlockCache.entries (block_cache s)) x \/ a <= x < b -> covered (BlockCache.entries c) x.

Lemma cached_trans n1 n2 file s a b d c1 c2 :
  a <= b -> cached n1 file s a b c1 -> cached n2 file (set_cache s c1) b d c2 -> cached n2 file s a d c2.
Proof.
  intros Hab (_ & Hal1 & Hc1) (Hs2 & Hal2 & Hc2). split; [done|]. split; [unfold alignment in *; simpl in *; congruence|].
  intros x Hx. apply Hc2. simpl. destruct Hx as [?|?]; [left; apply Hc1; by left|].
  destruct (decide (x < b)); [left; apply Hc1; right; lia|right; lia].
Qed.

Lemma read_word_spec n file s p now :
  seg_ok n file s -> 0 <= n -> n + 2 <= 2 ^ 34 -> 0 <= now < 2 ^ 62 -> 0 <= p -> p + 4 <= size s ->
  exists c, Wal.read_word s file p now = Ret (Ok (word file p), set_cache s c) /\ cached (n + 2) file s p (p + 4) c.
Proof.
  intros Hs Hn Hn2 Hnow Hp Hle. unfold Wal.read_word.
  destruct (read_at_spec n file s 4 p now) as (c & -> & Hs' & Hal & Hcov); try done; try lia.
  rewrite try_with_Ok. pose proof (remaining_file_at file p (p + 4)) as Hrem.
  destruct (so_size _ _ _ Hs) as [Hsz _].
  rewrite <- (app_nil_r (file_at file p (p + 4))), get_uint_app by (unfold Bytes.remaining in *; lia).
  rewrite bind_Ret. exists c. done.
Qed.

Lemma word_u32 file p : 0 <= p -> p + 4 <= Bytes.remaining file -> is_u32 (word file p).
Proof.
  intros Hp Hle. unfold word. pose proof (remaining_file_at file p (p + 4) ltac:(lia) Hle) as Hrem.
  pose proof (be_decode_range (file_at file p (p + 4))) as Hr.
  replace (length (file_at file p (p + 4))) with 4%nat in Hr by (unfold Bytes.remaining in Hrem; lia). done.
Qed.

Lemma word_put file p v : is_u32 v -> file_at file p (p + 4) = put_uint 4 v -> word file p = v.
Proof.
  intros Hv Hf. unfold word. rewrite Hf. destruct (decode_put 4 v [] Hv) as [Hd _].
  by rewrite app_nil_r, take_ge in Hd by (rewrite length_put_uint; lia).
Qed.

Lemma cached_mono n n' file s a b b' c : n <= n' -> b' <= b -> cached n file s a b c -> cached n' file s a b' c.
Proof.
  intros Hn Hb (Hs & Hal & Hcov). split; [by eapply seg_ok_mono|]. split; [done|].
  intros x [?|?]; apply Hcov; [by left|right; lia].
Qed.

(** The header of a record is read, and then its payload. *)
Lemma scan_header n file s p now :
  seg_ok n file s -> 0 <= n -> n + 6 <= 2 ^ 34 -> 0 <= now < 2 ^ 62 -> 0 <= p -> p + 8 <= size s ->
  let len := Z.shiftr (word file (p + 4)) 8 in
  exists c, cached (n + 4) file s p (p + 8) c /\
    Wal.scan_one s file p now =
      let s := set_cache s c in
      if (size s <? p + 8 + len) || (len =? 0) then Ret (Ok (EndOfLog p), s)
      else
      attempt (buf, s) := read_exact_at s file len (p + 8) now in
      if negb (checksum_record [buf] (wal_offset s) =? word file p) then Ret (Ok (EndOfLog p), s)
      else
      match RecordType.try_from (as_uint 8 (Z.land (word file (p + 4)) 0xFF)) with
      | None => Panic
      | Some RecordType.Zero => Ret (Ok (EndOfFile (p + 8 + len)), s)
      | Some _ => Ret (Ok (Found buf (p + 8 + len)), s)
      end.
Proof.
  intros Hs Hn Hn2 Hnow Hp Hle len. destruct (so_size _ _ _ Hs) as (Hsz & Hsz' & _).
  destruct (read_word_spec n file s p now) as (c1 & H1 & Hc1); try done; try lia.
  destruct (read_word_spec (n + 2) file (set_cache s c1) (p + 4) now) as (c2 & H2 & Hc2); try apply Hc1; simpl; try lia.
  pose proof (word_u32 file (p + 4) ltac:(lia) ltac:(lia)) as [Hw0 Hw1].
  assert (Hlen : 0 <= len < 2 ^ 24).
  { unfold len. rewrite Z.shiftr_div_pow2 by lia. split; [apply Z.div_pos; lia|].
    apply Z.div_lt_upper_bound; lia. }
  exists c2. split.
  { replace (n + 4) with (n + 2 + 2) by lia. replace (p + 8) with (p + 4 + 4) by lia.
    by eapply cached_trans; [|exact Hc1|exact Hc2]; lia. }
  unfold Wal.scan_one. rewrite H1, try_with_Ok. rewrite uint_add_Ret, bind_Ret, H2, try_with_Ok by lia.
  rewrite uint_add_Ret, bind_Ret by lia. replace (p + 4 + 4) with (p + 8) by lia. fold len.
  rewrite uint_add_Ret, bind_Ret by lia. rewrite uint_sub_Ret, !bind_Ret by lia.
  by replace (p + 8 - 8) with p by lia.
Qed.

Lemma scan_one_end n file s p now :
  seg_ok n file s -> 0 <= n -> n + 6 <= 2 ^ 34 -> 0 <= now < 2 ^ 62 -> 0 <= p ->
  log_end_at file (wal_offset s) p ->
  exists c, Wal.scan_one s file p now = Ret (Ok (EndOfLog p), set_cache s c) /\
    cached (n + 6) file s p (p + 8) c.
Proof.
  intros Hs Hn Hn2 Hnow Hp [Hle Hend]. destruct (so_size _ _ _ Hs) as (Hsz & Hsz' & _).
  destruct (scan_header n file s p now) as (c & Hc & ->); try done; try lia.
  set (len := Z.shiftr (word file (p + 4)) 8) in *. simpl.
  assert (Hc6 : cached (n + 6) file s p (p + 8) c) by (eapply cached_mono; [| |exact Hc]; lia).
  destruct ((size s <? p + 8 + len) || (len =? 0)) eqn:E; [by exists c|]. bool_to_prop.
  assert (Hpos : 0 < len).
  { assert (0 <= len); [|lia]. unfold len. apply Z.shiftr_nonneg.
    by apply (word_u32 file (p + 4)); lia. }
  destruct (read_at_spec (n + 4) file (set_cache s c) len (p + 8) now) as (c2 & -> & Hs2 & Hal2 & Hcov2);
    try apply Hc; simpl; try lia.
  rewrite try_with_Ok. simpl. rewrite (proj2 (Z.eqb_neq _ _)) by naive_solver lia. simpl.
  exists c2. split; [done|]. eapply (cached_mono (n + 4 + 2) (n + 6) file s p (p + 8 + len)); [lia|lia|].
  eapply (cached_trans (n + 4) _ file s p (p + 8)); [lia|done|]. by split.
Qed.

Definition found (ty : RecordType.t) (x : list byte) (pos : Z) : scanned :=
  match ty with RecordType.Zero => EndOfFile pos | _ => Found x pos end.

Lemma scan_one_record n file s p now ty x :
  seg_ok n file s -> 0 <= n -> n + 6 <= 2 ^ 34 -> 0 <= now < 2 ^ 62 -> 0 <= p ->
  let q := p + 8 + Bytes.remaining x in
  x <> [] -> Bytes.remaining x < 2 ^ 24 -> q <= size s ->
  file_at file p q = record_bytes (wal_offset s) ty x ->
  exists c, Wal.scan_one s file p now = Ret (Ok (found ty x q), set_cache s c) /\ cached (n + 6) file s p q c.
Proof.
  intros Hs Hn Hn2 Hnow Hp q Hne Hlen Hq Hf. destruct (so_size _ _ _ Hs) as (Hsz & Hsz' & _).
  assert (Hpos : 0 < Bytes.remaining x) by (destruct x; [done|unfold Bytes.remaining; simpl; lia]).
  destruct (file_at_app file p q _ _ Hp Hf ltac:(lia) ltac:(lia)) as [Hcrc Hf1]. rewrite remaining_put in Hcrc, Hf1.
  destruct (file_at_app file (p + 4) q _ _ ltac:(lia) Hf1 ltac:(lia) ltac:(lia)) as [Hlt Hx]. rewrite remaining_put in Hlt, Hx.
  destruct (with_length_spec ty (Bytes.remaining x) ltac:(lia)) as (Hwl & Hsh & Hty).
  apply word_put in Hcrc; [|apply checksum_u32]. apply word_put in Hlt; [|done].
  replace (p + 4 + Z.of_nat 4) with (p + 8) in Hx by lia.
  destruct (scan_header n file s p now) as (c & Hc & ->); try done; try lia.
  rewrite Hlt, Hsh, Hcrc, Hty. fold q. simpl.
  rewrite (proj2 (Z.ltb_ge _ _)), (proj2 (Z.eqb_neq _ _)) by lia. simpl.
  destruct (read_at_spec (n + 4) file (set_cache s c) (Bytes.remaining x) (p + 8) now) as (c2 & -> & Hs2 & Hal2 & Hcov2);
    try apply Hc; simpl; try lia.
  fold q. rewrite Hx, try_with_Ok. simpl. rewrite Z.eqb_refl. simpl.
  exists c2. split; [by destruct ty|]. replace (n + 6) with (n + 4 + 2) by lia.
  eapply (cached_trans (n + 4) _ file s p (p + 8)); [lia|done|]. by split.
Qed.

(** ** The scan of a segment *)

(** The payloads lie one after the other from [p] to [q]. *)
Fixpoint records_at (file : list byte) (wo p : Z) (l : list (list byte)) (q : Z) : Prop :=
  match l with
  | [] => p = q
  | x :: l =>
      let p' := p + 8 + Bytes.remaining x in
      x <> [] /\ Bytes.remaining x < 2 ^ 24 /\ p' <= Bytes.remaining file /\
      file_at file p p' = record_bytes wo RecordType.Full x /\ records_at file wo p' l q
  end.

(** The footer fills the rest of the file. *)
Definition footer_at (file : list byte) (wo p : Z) : Prop :=
  exists x, x <> [] /\ Bytes.remaining x < 2 ^ 24 /\ p + 8 + Bytes.remaining x = Bytes.remaining file /\
    file_at file p (Bytes.remaining file) = record_bytes wo RecordType.Zero x.

(** The index entry of a payload at [p] of the segment at [wo]: the one that the batch in it
    gets, with the place of the whole record. *)
Definition entry_at (wo p : Z) (x : list byte) (r : record) : Prop :=
  exists entry offset, Payload.parse_append_entry x = Ret (Ok (Some entry, Bytes.remaining x)) /\
    AppendEntry.offset entry = Some offset /\
    r = IndexRecord.mk (RecordIndex.mk (AppendEntry.stream_id entry) (AppendEntry.index entry) offset)
          (RecordHandle.mk (wo + p) (Bytes.remaining x + 8) (HandleExt.BatchSize (AppendEntry.len entry))).

Fixpoint entries_at (wo p : Z) (l : list (list byte)) (rs : list record) : Prop :=
  match l, rs with
  | [], [] => True
  | x :: l, r :: rs => entry_at wo p x r /\ entries_at wo (p + 8 + Bytes.remaining x) l rs
  | _, _ => False
  end.

Lemma index_entry_spec (s : LogSegment.t S) p x r :
  entry_at (wal_offset s) p x r -> 0 <= p -> 0 <= wal_offset s -> Bytes.remaining x < 2 ^ 24 ->
  wal_offset s + p + 8 + Bytes.remaining x < 2 ^ 64 ->
  Wal.index_entry s (p + 8 + Bytes.remaining x) x = Ret [r].
Proof.
  intros (entry & o & Hparse & Ho & ->) Hp Hw Hlt Hbd. pose proof (remaining_nonneg x).
  unfold Wal.index_entry. rewrite Hparse. simpl. rewrite Ho. run_arith.
  rewrite (as_uint_id 32) by (unfold is_uint; lia). run_arith. repeat f_equal. lia.
Qed.

Lemma records_at_le file wo p l q : records_at file wo p l q -> p + 9 * Z.of_nat (length l) <= q.
Proof.
  revert p. induction l as [|x l IH]; intros p; simpl; [lia|]. intros (Hne & _ & _ & _ & Hl).
  apply IH in Hl. assert (0 < Bytes.remaining x) by (destruct x; [done|unfold Bytes.remaining; simpl; lia]). lia.
Qed.

(** How the records of a segment end: with the footer, or where the log ends. *)
Definition ends (last : bool) (file : list byte) (wo q : Z) : Prop :=
  if last then log_end_at file wo q else footer_at file wo q.

(** Where the scan leaves the segment. *)
Definition scanned_segment (last : bool) (s : LogSegment.t S) (q : Z) : LogSegment.t S :=
  if last then set_state s q Status.ReadWrite else set_state s (size s) Status.Read.
Definition scan_end (last : bool) (s : LogSegment.t S) (q : Z) : Z := if last then q else size s.

Lemma scan_loop_spec last fuel n file s out p l q rs now :
  seg_ok n file s -> 0 <= n -> n + 6 * (Z.of_nat (length l) + 1) <= 2 ^ 34 -> 0 <= now < 2 ^ 62 -> 0 <= p ->
  records_at file (wal_offset s) p l q -> entries_at (wal_offset s) p l rs ->
  ends last file (wal_offset s) q -> (length l < fuel)%nat ->
  exists c, Wal.scan_loop fuel file now (s, out) p =
      Ret (Ok (last, scan_end last s q), (scanned_segment last (set_cache s c) q, out ++ rs)) /\
    cached (n + 6 * (Z.of_nat (length l) + 1)) file s p (if last then q + 8 else size s) c.
Proof.
  revert fuel n s out p rs. induction l as [|x l IH]; intros fuel n s out p rs Hs Hn Hn2 Hnow Hp Hrec Hent Hend Hfuel;
    destruct fuel as [|fuel]; simpl in Hfuel; try lia; pose proof (so_size _ _ _ Hs) as (Hsz & Hsz' & _).
  - simpl in Hrec. subst q. destruct rs; [|done]. rewrite app_nil_r. cbn [Wal.scan_loop]. destruct last.
    + destruct (scan_one_end n file s p now) as (c & -> & Hc); try done; try (simpl in Hn2; lia).
      exists c. by replace (n + 6 * _) with (n + 6) by (simpl; lia).
    + destruct Hend as (x & Hne & Hlt & Hq & Hf). rewrite <- Hq in Hf.
      destruct (scan_one_record n file s p now RecordType.Zero x) as (c & -> & Hc); try done; try (simpl in Hn2; lia).
      exists c. rewrite bind_Ret, try_with_Ok. simpl. split; [by rewrite Hsz, <- Hq|].
      replace (n + 6 * _) with (n + 6) by (simpl; lia). by rewrite Hsz, <- Hq.
  - destruct rs as [|r rs]; [done|]. destruct Hrec as (Hne & Hlt & Hle & Hf & Hrec), Hent as [He Hent].
    pose proof (so_cache _ _ _ Hs) as Hcache. pose proof (co_base _ _ Hcache) as Hbase.
    rewrite (so_offset _ _ _ Hs) in Hbase. pose proof (remaining_nonneg x).
    destruct (scan_one_record n file s p now RecordType.Full x) as (c1 & H1 & Hc1); try done; try lia.
    cbn [Wal.scan_loop]. rewrite H1, bind_Ret, try_with_Ok. cbn [found].
    rewrite (index_entry_spec (set_cache s c1) p x r), bind_Ret by (done || simpl; lia).
    set (p' := p + 8 + Bytes.remaining x) in *.
    destruct (IH fuel (n + 6) (set_cache s c1) (out ++ [r]) p' rs) as (c & -> & Hc); try done; try (unfold p'; lia);
      [apply Hc1|simpl in Hn2; lia|].
    exists c. split; [by rewrite <- (assoc_L (++))|].
    replace (n + 6 * _) with (n + 6 + 6 * (Z.of_nat (length l) + 1)) by (simpl; lia).
    by eapply cached_trans; [|exact Hc1|exact Hc]; lia.
Qed.

Lemma seg_ok_state n file s w st : seg_ok n file s -> seg_ok n file (set_state s w st).
Proof. by intros []. Qed.

(** A cache from which the I/O loop can go on at [e]: it agrees with the file, holds nothing
    beyond [e], and the last block, if it is partial, has a buffer of its own. *)
Record resumable (n : Z) (file : list byte) (s : LogSegment.t S) (e : Z) (c : BlockCache.t S) : Prop := {
  re_cache : cache_ok n c;
  re_account : size_ok c;
  re_offset : BlockCache.wal_offset c = wal_offset s /\ BlockCache.alignment c = alignment s;
  re_agrees : Forall (agrees file) (BlockCache.entries c);
  re_covered : forall x, covered (BlockCache.entries c) x -> x < e;
  re_last : e mod alignment s <> 0 -> exists ke,
    BTreeMap.last_key_value (BlockCache.entries c) = Some ke /\ last_block file (alignment s) e ke;
}.

Lemma truncated_resumable n file s s' e c :
  wal_offset s' = wal_offset s -> alignment s' = alignment s ->
  truncated n file s e c -> resumable n file s' e c.
Proof. intros Hw Ha [H1 H2 H3 H4 H5 H6]. split; rewrite ?Hw, ?Ha; try done. by intros x [_ ?]%H5. Qed.

(** The bounds under which a segment is scanned: block numbers and hit counts stay within
    their types.  With records of at least 9 bytes, two lookups per read and three reads per
    record, the bound on the hits holds for any segment of less than 4 GiB. *)
Definition scan_bounds (n now : Z) (s : LogSegment.t S) (l : list (list byte)) : Prop :=
  0 <= n /\ n + 6 * (Z.of_nat (length l) + 1) < 2 ^ 34 /\ 0 <= now < 2 ^ 62 /\
  size s + 2 * alignment s <= 2 ^ 32.

Lemma scan_record_spec last n file s out p l q rs now :
  seg_ok n file s -> scan_bounds n now s l -> 0 <= p ->
  records_at file (wal_offset s) p l q -> entries_at (wal_offset s) p l rs ->
  ends last file (wal_offset s) q ->
  (last = true -> p < q \/ (q = 0 /\ wal_offset s = 0)) ->
  exists n' c, Wal.scan_record s file (wal_offset s + p) now out =
      Ret (Ok (last, wal_offset s + scan_end last s q), (scanned_segment last (set_cache s c) q, out ++ rs)) /\
    resumable n' file s (scan_end last s q) c.
Proof.
  intros Hs (Hn & Hn2 & Hnow & Hroom) Hp Hrec Hent Hend Hlast.
  pose proof (so_size _ _ _ Hs) as (Hsz & Hsz' & _). pose proof (co_base _ _ (so_cache _ _ _ Hs)) as Hbase.
  rewrite (so_offset _ _ _ Hs) in Hbase. pose proof (records_at_le _ _ _ _ _ Hrec) as Hpq.
  assert (Hq : q + 8 <= size s).
  { rewrite Hsz. destruct last; [apply Hend|]. destruct Hend as (x & _ & _ & Hx & _). pose proof (remaining_nonneg x). lia. }
  unfold Wal.scan_record. rewrite uint_sub_Ret by lia. rewrite bind_Ret. replace (wal_offset s + p - wal_offset s) with p by lia.
  destruct (scan_loop_spec last (Datatypes.S (length file)) n file s out p l q rs now) as (c1 & -> & Hs1 & Hal1 & Hcov1);
    try done; try lia; [unfold Bytes.remaining in *; lia|].
  rewrite try_with_Ok. set (n1 := n + 6 * (Z.of_nat (length l) + 1)) in *. set (e := scan_end last s q).
  assert (He : 0 <= e <= size s) by (unfold e; destruct last; simpl; lia).
  set (s1 := scanned_segment last (set_cache s c1) q).
  assert (Hs1' : seg_ok n1 file s1) by (unfold s1, scanned_segment; destruct last; by apply seg_ok_state).
  assert (Hwo : wal_offset s1 = wal_offset s /\ alignment s1 = alignment s /\ written s1 = e /\
    block_cache s1 = c1 /\ size s1 = size s) by (unfold s1; destruct last; unfold alignment; simpl; done).
  destruct Hwo as (Hw1 & Ha1 & Hwr1 & Hc1 & Hz1). rewrite Hw1, uint_add_Ret, bind_Ret, Hwr1 by lia.
  assert (exists c, truncate_to s1 e now = Ret (Ok (), set_cache s1 c) /\ truncated (n1 + 1) file s1 e c)
    as (c & -> & Htr).
  { destruct (decide (e = 0)) as [He0|He0].
    - rewrite He0. destruct last; unfold e in He0; simpl in He0; [|lia]. destruct Hlast as [?|[_ Hw0]]; [done|lia|].
      apply truncate_zero; try done; try (split; lia); try congruence. rewrite Hc1. apply Hcov1. right. lia.
    - apply truncate_spec; try done; try (split; lia); try lia. rewrite Hc1. apply Hcov1. right.
      unfold e in *. destruct last; simpl in *; [|lia]. destruct Hlast as [?|[? _]]; [done|lia|lia]. }
  rewrite bind_Ret, try_with_Ok. exists (n1 + 1), c. split; [|by eapply truncated_resumable].
  by unfold s1; destruct last.
Qed.
End scanning.

(** ** Recovery of the log *)

Section recovery.
Context {S : SkipListApi} {R : RingApi} {B : BytesApi} {BL : BytesLaws B} {C : Crc32Api} {CL : Crc32Laws C} {M : MetaApi}.
Import LogSegment.

Definition seg_end (s : LogSegment.t S) : Z := wal_offset s + size s.

(** The log from [pos] on: records up to the footer in each segment but one, then records up
    to the end of the log, and spare segments behind it.  [rs] are the entries of the records
    and [e] is where the log ends.  That segment has a record, or the log is empty. *)
Inductive log (files : Z -> list byte) (now : Z) : Z -> list (LogSegment.t S) -> list record -> Z -> Prop :=
| log_last s spare pos l q rs n :
    seg_ok n (files (wal_offset s)) s -> scan_bounds n now s l -> wal_offset s <= pos ->
    records_at (files (wal_offset s)) (wal_offset s) (pos - wal_offset s) l q ->
    entries_at (wal_offset s) (pos - wal_offset s) l rs ->
    log_end_at (files (wal_offset s)) (wal_offset s) q ->
    pos - wal_offset s < q \/ (q = 0 /\ wal_offset s = 0) ->
    Forall (fun s' => seg_end s <= wal_offset s' /\ 0 < size s') spare ->
    log files now pos (s :: spare) rs (wal_offset s + q)
| log_full s rest pos l q rs rs' n e :
    seg_ok n (files (wal_offset s)) s -> scan_bounds n now s l -> wal_offset s <= pos ->
    records_at (files (wal_offset s)) (wal_offset s) (pos - wal_offset s) l q ->
    entries_at (wal_offset s) (pos - wal_offset s) l rs ->
    footer_at (files (wal_offset s)) (wal_offset s) q ->
    log files now (seg_end s) rest rs' e ->
    log files now pos (s :: rest) (rs ++ rs') e.

(** What recovery makes of a segment of a log that ends at [e]: full segments are read-only,
    the one that holds [e] is writable from there, the others from their start. *)
Definition resumed (files : Z -> list byte) (e : Z) (s s' : LogSegment.t S) : Prop :=
  wal_offset s' = wal_offset s /\ size s' = size s /\ path s' = path s /\ sd s' = sd s /\
  if seg_end s <=? e then status s' = Status.Read /\ written s' = size s
  else
    status s' = Status.ReadWrite /\
    if e <? wal_offset s then written s' = 0
    else written s' = e - wal_offset s /\
         exists n, resumable n (files (wal_offset s)) s (e - wal_offset s) (block_cache s').

Lemma recover_old files offset now old l pos out :
  Forall (fun s => seg_end s <= offset /\ seg_end s < 2 ^ 64) old ->
  Wal.recover_loop files offset now (old ++ l) pos true out =
    '(r, (l, out)) ← Wal.recover_loop files offset now l pos true out;
    Ret (r, (((fun s => set_state s (size s) Status.Read) <$> old) ++ l, out)).
Proof.
  induction 1 as [|s old [He Hb] Hold IH]; simpl.
  - destruct (Wal.recover_loop files offset now l pos true out) as [[r [l' out']]|]; done.
  - unfold seg_end in *. rewrite uint_add_Ret by lia. simpl. rewrite (proj2 (Z.leb_le _ _)) by lia.
    rewrite IH. by destruct (Wal.recover_loop files offset now l pos true out) as [[r [l' out']]|].
Qed.

Lemma recover_spare files offset now l pos out :
  Forall (fun s => offset < seg_end s < 2 ^ 64) l ->
  Wal.recover_loop files offset now l pos false out =
    Ret (Ok pos, ((fun s => set_state s 0 Status.ReadWrite) <$> l, out)).
Proof.
  induction 1 as [|s l He Hl IH]; [done|]. simpl. unfold seg_end in *. rewrite uint_add_Ret by lia. simpl.
  rewrite (proj2 (Z.leb_gt _ _)) by lia. simpl. by rewrite IH.
Qed.

Lemma footer_at_le file wo q : footer_at file wo q -> q + 8 < Bytes.remaining file.
Proof.
  intros (x & Hne & _ & Hq & _). assert (0 < Bytes.remaining x); [|lia].
  destruct x; [done|unfold Bytes.remaining; simpl; lia].
Qed.

(** Where the log starts and ends. *)
Lemma log_bounds files now pos l rs e :
  log files now pos l rs e -> pos <= e /\ exists s rest, l = s :: rest /\ pos < seg_end s.
Proof.
  unfold seg_end. induction 1 as [s spare pos l q rs n Hs _ Hp Hrec _ [Hq _] _ _|
    s rest pos l q rs rs' n e Hs _ Hp Hrec _ Hq _ [IH _]];
    pose proof (records_at_le _ _ _ _ _ Hrec); destruct (so_size _ _ _ Hs) as [Hsz _];
    [|apply footer_at_le in Hq; unfold seg_end in IH]; (split; [lia|]); eexists _, _; (split; [done|lia]).
Qed.

Lemma recover_live files offset now pos l rs e out :
  log files now pos l rs e -> offset <= pos -> Forall (fun s => seg_end s < 2 ^ 64) l ->
  exists l', Wal.recover_loop files offset now l pos true out = Ret (Ok e, (l', out ++ rs)) /\
    Forall2 (resumed files e) l l'.
Proof.
  intros Hlog. revert out. induction Hlog as [s spare pos l q rs n Hs Hb Hp Hrec Hent Hq Hlast Hsp|
    s rest pos l q rs rs' n e Hs Hb Hp Hrec Hent Hq Hlog IH]; intros out Ho [Hse Hbd]%Forall_cons; simpl;
    pose proof (records_at_le _ _ _ _ _ Hrec); destruct (so_size _ _ _ Hs) as (Hsz & Hsz' & _);
    unfold seg_end in *; rewrite uint_add_Ret by lia; simpl.
  - destruct Hq as [Hq8 Hq]. rewrite (proj2 (Z.leb_gt _ _)) by lia.
    destruct (scan_record_spec true n (files (wal_offset s)) s out (pos - wal_offset s) l q rs now)
      as (n' & c & Hscan & Hre); try done; try lia.
    replace (wal_offset s + (pos - wal_offset s)) with pos in Hscan by lia. rewrite Hscan. simpl in *.
    rewrite recover_spare; [|apply Forall_forall; intros s' Hin; unfold seg_end;
      pose proof (proj1 (Forall_forall _ _) Hsp _ Hin) as Hs'; pose proof (proj1 (Forall_forall _ _) Hbd _ Hin) as Hs''; simpl in *; lia].
    simpl. eexists. split; [done|]. constructor.
    + unfold resumed, seg_end. simpl. rewrite (proj2 (Z.leb_gt _ _)), (proj2 (Z.ltb_ge _ _)) by lia.
      replace (wal_offset s + q - wal_offset s) with q by lia. split_and!; try done. by exists n'.
    + apply Forall2_fmap_r, Forall_Forall2_diag. eapply Forall_impl; [exact Hsp|]. intros s' [Hs' Hpos].
      unfold resumed, seg_end. simpl. rewrite (proj2 (Z.leb_gt _ _)), (proj2 (Z.ltb_lt _ _)) by lia. done.
  - pose proof (footer_at_le _ _ _ Hq). rewrite (proj2 (Z.leb_gt _ _)) by lia.
    destruct (scan_record_spec false n (files (wal_offset s)) s out (pos - wal_offset s) l q rs now)
      as (n' & c & Hscan & Hre); try done; try lia.
    replace (wal_offset s + (pos - wal_offset s)) with pos in Hscan by lia. rewrite Hscan. simpl in *.
    destruct (IH (out ++ rs)) as (l' & -> & Hl'); [lia|done|]. simpl.
    eexists. split; [by rewrite <- (assoc_L (++))|]. constructor; [|done].
    pose proof (log_bounds _ _ _ _ _ _ Hlog) as [Hle _].
    unfold resumed, seg_end in *. simpl. rewrite (proj2 (Z.leb_le _ _)) by lia. done.
Qed.

(** C9: Recovery finds the log again.  Let the segments up to the checkpoint [offset] be
    followed by a log as the writer leaves it: records of batches up to a footer, segment
    after segment, and in the last one records up to a place where no record with a valid
    checksum follows, however the bytes there look.  The last segment has a record behind the
    checkpoint, or the log is empty: on a log that ends at the boundary of a segment recovery
    fails ([recover_fails_at_boundary]).  Then recovery reads without error,
    returns the end of the log, and sends to the indexer exactly the entries of the records
    from the checkpoint on, in order, each with its place in the log.  Full segments are
    read-only afterwards, the segment with the end of the log is writable from there on, with
    its last block in the cache, and the segments behind it are empty. *)
Theorem recover_spec (w : Wal.t S R) files offset now old live rs e :
  Wal.segments w = old ++ live ->
  Forall (fun s => seg_end s <= offset) old -> Forall (fun s => seg_end s < 2 ^ 64) (old ++ live) ->
  let pos := match old ++ live with
             | s :: _ => offset `max` wal_offset s
             | [] => offset
             end in
  log files now pos live rs e ->
  exists l, Wal.recover w files offset now = Ret (Ok e, Wal.set_segments w l, rs) /\
    Forall2 (resumed files e) (old ++ live) l.
Proof.
  intros Hw Hold Hbd pos Hlog. unfold Wal.recover. rewrite Hw.
  assert (Hpos : pos = match old ++ live with
    | s :: _ => if offset <? wal_offset s then wal_offset s else offset | [] => offset end).
  { unfold pos. destruct (old ++ live); [done|]. case_bool. }
  rewrite <- Hpos. rewrite recover_old.
  2:{ apply Forall_app in Hbd as [Hbd _]. apply Forall_forall. intros s Hin. rewrite Forall_forall in Hold, Hbd. auto. }
  destruct (recover_live files offset now pos live rs e []) as (l' & -> & Hl'); [done| |by apply Forall_app in Hbd as [_ ?]|].
  { rewrite Hpos. destruct (old ++ live); [done|]. case_bool. }
  simpl. eexists. split; [done|]. apply Forall2_app; [|done].
  apply Forall2_fmap_r, Forall_Forall2_diag. destruct (log_bounds _ _ _ _ _ _ Hlog) as [Hle _].
  eapply Forall_impl; [exact Hold|]. intros s Hs. simpl in Hs. unfold resumed. simpl.
  assert (offset <= pos) by (unfold pos; destruct (old ++ live); lia).
  rewrite (proj2 (Z.leb_le _ _)) by lia. done.
Qed.

Lemma truncate_boundary n file (s : LogSegment.t S) now :
  seg_ok n file s -> 0 < wal_offset s -> exists s', truncate_to s 0 now = Ret (Err StoreError.CacheError, s').
Proof.
  intros [Hc Hm Hacc Hoff (Hfs & Hsz' & Hdsz) (Hpw & Hdo) Hbd Hsd] Hw. pose proof (align_pos _ Hpw) as Hal.
  pose proof (Z.divide_pos_le _ _ Hw Hdo) as Hle. pose proof (Z.divide_pos_le _ _ (proj1 Hsz') Hdsz).
  destruct (entry_range_new (wal_offset s - 1) 1 (alignment s) (wal_offset s - alignment s) (wal_offset s))
    as (f & t & Hr & _ & _ & Hf & _); try lia; [by apply Z.divide_sub_r|done|].
  unfold truncate_to. rewrite uint_div_Ret, bind_Ret, Z.div_0_l by lia. simpl.
  do 2 rewrite uint_add_Ret by lia. simpl. rewrite Z.add_0_r, (proj2 (Z.ltb_lt _ _)) by lia.
  rewrite Hr. simpl. unfold BlockCache.try_get_entries. simpl. rewrite (proj2 (Z.ltb_lt _ _)) by lia. simpl. eauto.
Qed.

Lemma scan_record_boundary n file (s : LogSegment.t S) now out :
  seg_ok n file s -> scan_bounds n now s [] -> 0 < wal_offset s -> log_end_at file (wal_offset s) 0 ->
  exists s', Wal.scan_record s file (wal_offset s) now out = Ret (Err StoreError.CacheError, (s', out)).
Proof.
  intros Hs (Hn & Hn2 & Hnow & Hroom) Hw Hend. unfold Wal.scan_record. rewrite uint_sub_Ret by lia.
  rewrite bind_Ret, Z.sub_diag.
  destruct (scan_loop_spec true (Datatypes.S (length file)) n file s out 0 [] 0 [] now) as (c & -> & Hs1 & _);
    try done; try (simpl in *; lia).
  rewrite try_with_Ok, app_nil_r. simpl. pose proof (so_bound _ _ _ Hs). rewrite uint_add_Ret, bind_Ret by lia.
  destruct (truncate_boundary _ file (set_state (set_cache s c) 0 Status.ReadWrite) now (seg_ok_state _ _ _ _ _ Hs1))
    as (s' & ->); [done|]. by exists s'.
Qed.

(** Recovery fails when the log ends exactly at the end of a segment.  If the last segment
    with records is closed by its footer and the next one has no record yet, [truncate_to]
    looks for the block before the beginning of that segment in its cache, and recovery ends
    with [CacheError] instead of the end of the log. *)
Theorem recover_fails_at_boundary (w : Wal.t S R) files offset now s1 s2 rest l q rs n1 n2 :
  Wal.segments w = s1 :: s2 :: rest -> wal_offset s1 <= offset -> wal_offset s2 = seg_end s1 ->
  seg_ok n1 (files (wal_offset s1)) s1 -> scan_bounds n1 now s1 l ->
  records_at (files (wal_offset s1)) (wal_offset s1) (offset - wal_offset s1) l q ->
  entries_at (wal_offset s1) (offset - wal_offset s1) l rs ->
  footer_at (files (wal_offset s1)) (wal_offset s1) q ->
  seg_ok n2 (files (wal_offset s2)) s2 -> scan_bounds n2 now s2 [] ->
  log_end_at (files (wal_offset s2)) (wal_offset s2) 0 ->
  exists w', Wal.recover w files offset now = Ret (Err StoreError.CacheError, w', rs).
Proof.
  intros Hw Ho Hw2 Hs1 Hb1 Hrec Hent Hq Hs2 Hb2 Hend. unfold Wal.recover. rewrite Hw.
  rewrite (proj2 (Z.ltb_ge _ _)) by lia. simpl. unfold seg_end in *.
  pose proof (records_at_le _ _ _ _ _ Hrec). destruct (so_size _ _ _ Hs1) as (Hsz & Hsz' & _).
  destruct (so_size _ _ _ Hs2) as (Hsz2 & Hsz2' & _). pose proof (footer_at_le _ _ _ Hq).
  pose proof (so_bound _ _ _ Hs1). pose proof (so_bound _ _ _ Hs2).
  pose proof (co_base _ _ (so_cache _ _ _ Hs1)) as Hbase. rewrite (so_offset _ _ _ Hs1) in Hbase.
  rewrite uint_add_Ret by lia. simpl. rewrite (proj2 (Z.leb_gt _ _)) by lia.
  destruct (scan_record_spec false n1 (files (wal_offset s1)) s1 [] (offset - wal_offset s1) l q rs now)
    as (n' & c & Hscan & _); try done; try lia.
  replace (wal_offset s1 + (offset - wal_offset s1)) with offset in Hscan by lia. rewrite Hscan. simpl.
  rewrite uint_add_Ret by lia. simpl. rewrite (proj2 (Z.leb_gt _ _)) by lia.
  destruct (scan_record_boundary n2 (files (wal_offset s2)) s2 now rs) as (s' & Hscan2); try done; [lia|].
  rewrite <- Hw2, Hscan2. simpl. by eexists.
Qed.
End recovery.

(** ** Witnesses *)

(** A ring that accepts everything, as the list of what was submitted. *)
#[export] Instance list_ring : RingApi := {
  ring := list (Sqe * Z);
  ring_push r l := Some (r ++ l);
  ring_submit r := Some r;
}.

Module RecoveryExample.
Definition sz : Z := 1024.
Definition al : Z := 512.
Definition x : list byte := batch_wire (meta_pack (sample_meta 100 2)) (ascii_bytes "payload").
Definition y : list byte := batch_wire (meta_pack (sample_meta 102 3)) (ascii_bytes "payload").

(** The first segment is closed by its footer, the second has one record, or none. *)
Definition file0 : list byte :=
  record_bytes 0 RecordType.Full x ++
  record_bytes 0 RecordType.Zero (footer_payload (sz - (8 + Bytes.remaining x) - FOOTER_LENGTH)).
Definition file1 : list byte :=
  record_bytes sz RecordType.Full y ++ replicate (Z.to_nat (sz - (8 + Bytes.remaining y))) Byte.x00.
Definition empty_file : list byte := replicate (Z.to_nat sz) Byte.x00.
Definition files (o : Z) : list byte := if o =? 0 then file0 else if o =? sz then file1 else empty_file.
Definition files' (o : Z) : list byte := if o =? 0 then file0 else empty_file.

Definition seg (o : Z) : LogSegment.t list_skiplist :=
  LogSegment.mk o sz 0 (BlockCache.new al o) Status.Read [] (Some 3).
Definition w : Wal.t list_skiplist list_ring :=
  Wal.mk ([] : ring) (Config.mk sz (3 * sz) al false 0 80 []) ∅ [seg 0; seg sz; seg (2 * sz)] (WalCache.mk 0 0 80).
Definition rec (o : Z) (b : list byte) (base count : Z) : record :=
  IndexRecord.mk (RecordIndex.mk 7 0 base)
    (RecordHandle.mk o (Bytes.remaining b + 8) (HandleExt.BatchSize count)).

Lemma seg_is_ok o f :
  0 <= o < 2 ^ 32 -> (al | o) -> Bytes.remaining f = sz -> seg_ok 0 f (seg o).
Proof.
  intros Ho Hd Hf. split; simpl; try done.
  - split; simpl; try done; try constructor; lia.
  - split; [constructor|done].
  - split; [done|]. split; [done|]. by exists 2.
  - lia.
Qed.

Lemma x_at : records_at file0 0 0 [x] (8 + Bytes.remaining x).
Proof. split_and!; [done|by vm_compute|by vm_compute|by vm_compute|done]. Qed.
Lemma x_entry : entries_at 0 0 [x] [rec 0 x 100 2].
Proof. split; [|done]. eexists _, 100. split_and!; by vm_compute. Qed.
Lemma x_footer : footer_at file0 0 (8 + Bytes.remaining x).
Proof.
  exists (footer_payload (sz - (8 + Bytes.remaining x) - FOOTER_LENGTH)).
  split; [by vm_compute|]. split; [by vm_compute|]. split; by vm_compute.
Qed.
Lemma y_at : records_at file1 sz 0 [y] (8 + Bytes.remaining y).
Proof. split_and!; [done|by vm_compute|by vm_compute|by vm_compute|done]. Qed.
Lemma y_entry : entries_at sz 0 [y] [rec sz y 102 3].
Proof. split; [|done]. eexists _, 102. split_and!; by vm_compute. Qed.
Lemma y_end : log_end_at file1 sz (8 + Bytes.remaining y).
Proof. split; [by vm_compute|]. right. left. by vm_compute. Qed.

Lemma log_ok : log files 5 0 [seg 0; seg sz; seg (2 * sz)] [rec 0 x 100 2; rec sz y 102 3] (sz + (8 + Bytes.remaining y)).
Proof.
  apply (log_full files 5 (seg 0) _ 0 [x] (8 + Bytes.remaining x) [rec 0 x 100 2] [rec sz y 102 3] 0);
    [by apply seg_is_ok; [done|exists 0|vm_compute]|by vm_compute|done|apply x_at|apply x_entry|apply x_footer|].
  apply (log_last files 5 (seg sz) [seg (2 * sz)] sz [y] (8 + Bytes.remaining y) [rec sz y 102 3] 0);
    [by apply seg_is_ok; [done|exists 2|vm_compute]|by vm_compute|done|apply y_at|apply y_entry|apply y_end|by left|].
  by repeat constructor.
Qed.
End RecoveryExample.

(** Both records are found and the log goes on in the second segment. *)
Lemma recover_spec_witness :
  exists l, Wal.recover RecoveryExample.w RecoveryExample.files 0 5 =
      Ret (Ok (1024 + (8 + Bytes.remaining RecoveryExample.y)), Wal.set_segments RecoveryExample.w l,
           [RecoveryExample.rec 0 RecoveryExample.x 100 2; RecoveryExample.rec 1024 RecoveryExample.y 102 3]) /\
    LogSegment.status <$> l = [Status.Read; Status.ReadWrite; Status.ReadWrite].
Proof.
  destruct (recover_spec RecoveryExample.w RecoveryExample.files 0 5 [] (Wal.segments RecoveryExample.w)
    [RecoveryExample.rec 0 RecoveryExample.x 100 2; RecoveryExample.rec 1024 RecoveryExample.y 102 3]
    (1024 + (8 + Bytes.remaining RecoveryExample.y)) eq_refl (Forall_nil_2 _))
    as (l & H1 & H2); [by repeat constructor|exact RecoveryExample.log_ok|].
  exists l. split; [exact H1|].
  apply Forall2_cons_inv_l in H2 as (s0 & l0 & Hs0 & H2 & ->).
  apply Forall2_cons_inv_l in H2 as (s1 & l1 & Hs1 & H2 & ->).
  apply Forall2_cons_inv_l in H2 as (s2 & l2 & Hs2 & H2 & ->). apply Forall2_nil_inv_l in H2 as ->.
  destruct Hs0 as (_ & _ & _ & _ & Hs0), Hs1 as (_ & _ & _ & _ & Hs1), Hs2 as (_ & _ & _ & _ & Hs2).
  simpl. f_equal; [by apply Hs0|f_equal; [by apply Hs1|f_equal; by apply Hs2]].
Defined.

Lemma recover_fails_at_boundary_witness :
  exists w', Wal.recover RecoveryExample.w RecoveryExample.files' 0 5 =
    Ret (Err StoreError.CacheError, w', [RecoveryExample.rec 0 RecoveryExample.x 100 2]).
Proof.
  apply (recover_fails_at_boundary RecoveryExample.w RecoveryExample.files' 0 5 (RecoveryExample.seg 0)
    (RecoveryExample.seg 1024) [RecoveryExample.seg 2048] [RecoveryExample.x] (8 + Bytes.remaining RecoveryExample.x) _ 0 0);
    [done|done|done|by apply RecoveryExample.seg_is_ok; [done|exists 0|vm_compute]|by vm_compute|apply RecoveryExample.x_at|
     apply RecoveryExample.x_entry|apply RecoveryExample.x_footer|
     by apply RecoveryExample.seg_is_ok; [done|exists 2|vm_compute]|by vm_compute|].
  split; [by vm_compute|]. right. left. by vm_compute.
Defined.
