(* ===== verification/WalSegments.v ===== *)
(** * The order of the segments

    Whatever opens, closes, deletes, recycles, recovers or reclaims segments, the segments of
    the log stay in order and do not overlap, so that an offset of the log lies in at most
    one of them, which [segment_file_of] finds.  And the names of the segment files. *)

From S2P Require Import Prelude Bytes StoreTypes Index Collections AlignedBuf BlockCache Segment Record Wal Recovery.

Section order.
Context {S : SkipListApi} {R : RingApi} {P : PercentageApi} {Q : ScoreListApi}
  {B : BytesApi} {C : Crc32Api} {M : MetaApi}.
Import LogSegment.

(** [s'] is the same segment in another state. *)
Definition same_place (s s' : LogSegment.t S) : Prop :=
  wal_offset s' = wal_offset s /\ size s' = size s.

#[local] Instance same_place_equivalence : Equivalence same_place.
Proof. split; unfold same_place; repeat intros ?; intuition congruence. Qed.

Definition before (a b : LogSegment.t S) : Prop := wal_offset a + size a <= wal_offset b.

(** The segments are in order and of the configured size. *)
Record wal_ok (w : Wal.t S R) : Prop := {
  wo_order : StronglySorted before (Wal.segments w);
  wo_size : Forall (fun s => size s = Config.segment_size (Wal.config w)) (Wal.segments w);
  wo_pos : 0 < Config.segment_size (Wal.config w);
}.

Lemma place_cache s c : same_place s (set_cache s c).
Proof. done. Qed.
Lemma place_state s w st : same_place s (set_state s w st).
Proof. done. Qed.
Lemma place_sd s d : same_place s (set_sd s d).
Proof. done. Qed.

Lemma places_refl (l : list (LogSegment.t S)) : Forall2 same_place l l.
Proof. by apply Forall_Forall2_diag, Forall_forall. Qed.

(** ** Which operations keep a segment in its place *)

Lemma load_entry_place s file e now r s' : load_entry s file e now = Ret (r, s') -> same_place s s'.
Proof.
  unfold load_entry. intros H. inv_ret. case_match; inv_ret; [|done]. case_match; inv_ret; done.
Qed.

Lemma load_entries_place s file l now r s' : load_entries s file l now = Ret (r, s') -> same_place s s'.
Proof.
  revert s. induction l as [|e l IH]; intros s H; simpl in H; inv_ret; [done|].
  destruct x as [r1 s1]. pose proof (load_entry_place _ _ _ _ _ _ H).
  case_match; inv_ret; [|done]. etrans; [done|]. by apply IH.
Qed.

Lemma read_loop_place fuel s file e ra len now r s' :
  read_loop fuel s file e ra len now = Ret (r, s') -> same_place s s'.
Proof.
  revert s. induction fuel as [|fuel IH]; intros s H; simpl in H; [by inv_ret|].
  apply bind_Ret_inv in H as ([[[bufs|]|missed] c] & _ & H); simpl in H; [by inv_ret|by inv_ret|].
  destruct (sd s); [|by inv_ret]. apply bind_Ret_inv in H as ([r1 s1] & Hl & H).
  apply load_entries_place in Hl. destruct r1; inv_ret; [|done]. etrans; [exact Hl|]. by apply IH.
Qed.

Lemma read_place s file len off now r s' : read_exact_at s file len off now = Ret (r, s') -> same_place s s'.
Proof.
  unfold read_exact_at. intros H. apply bind_Ret_inv in H as (ra & _ & H). apply bind_Ret_inv in H as (e & _ & H).
  apply bind_Ret_inv in H as ([r1 s1] & H1 & H). apply read_loop_place in H1. repeat case_match; by inv_ret.
Qed.

(** The result of [attempt] when it returns. *)
Lemma try_with_Ret {A B' E T} (m : outcome (result A E * T)) (k : A -> T -> outcome (result B' E * T)) r t :
  try_with m k = Ret (r, t) ->
  (exists a t1, m = Ret (Ok a, t1) /\ k a t1 = Ret (r, t)) \/ (exists e, m = Ret (Err e, t) /\ r = Err e).
Proof.
  unfold try_with. intros H. apply bind_Ret_inv in H as ([[a|e] t1] & -> & H); [left|right]; inv_ret; eauto.
Qed.

Lemma read_word_place s file pos now r s' : Wal.read_word s file pos now = Ret (r, s') -> same_place s s'.
Proof.
  unfold Wal.read_word. intros [(b & s1 & H1 & H)|(e & H1 & _)]%try_with_Ret; apply read_place in H1; [|done].
  apply bind_Ret_inv in H as ([v rest] & _ & H). by inv_ret.
Qed.

Lemma scan_one_place s file pos now r s' : Wal.scan_one s file pos now = Ret (r, s') -> same_place s s'.
Proof.
  unfold Wal.scan_one.
  intros [(crc & s1 & H1%read_word_place & H)|(e & H1%read_word_place & _)]%try_with_Ret; [|done]. etrans; [exact H1|]. clear H1.
  apply bind_Ret_inv in H as (p1 & _ & H).
  apply try_with_Ret in H as [(lt & s2 & H2%read_word_place & H)|(e & H2%read_word_place & _)]; [|done]. etrans; [exact H2|]. clear H2.
  apply bind_Ret_inv in H as (p2 & _ & H). apply bind_Ret_inv in H as (p3 & _ & H). case_match; [by inv_ret|].
  apply try_with_Ret in H as [(buf & s3 & H3%read_place & H)|(e & H3%read_place & _)]; [|done]. etrans; [exact H3|]. clear H3.
  repeat case_match; by inv_ret.
Qed.

Lemma scan_loop_place fuel file now s out pos r s' out' :
  Wal.scan_loop fuel file now (s, out) pos = Ret (r, (s', out')) -> same_place s s'.
Proof.
  revert s out pos. induction fuel as [|fuel IH]; intros s out pos H; cbn [Wal.scan_loop] in H; [done|].
  apply try_with_Ret in H as [(step & [s1 out1] & H1 & H)|(e & H1 & _)];
    apply bind_Ret_inv in H1 as ([r1 s2] & H1%scan_one_place & H2); inv_ret; [|done].
  etrans; [exact H1|]. destruct step; inv_ret; [by apply place_state..|]. by eapply IH.
Qed.

Lemma truncate_place s p now r s' : truncate_to s p now = Ret (r, s') -> same_place s s'.
Proof.
  unfold truncate_to. intros H. do 6 apply bind_Ret_inv in H as (? & _ & H).
  apply bind_Ret_inv in H as ([[[[|b bufs]|]|] c] & _ & H); try (by inv_ret).
  apply bind_Ret_inv in H as (e & _ & H). apply bind_Ret_inv in H as ([r1 s1] & H1 & H).
  assert (same_place s s1) as Hs1; [|destruct r1; by inv_ret]. clear H.
  destruct (_ <? e); [|by inv_ret]. unfold split_last in H1.
  apply bind_Ret_inv in H1 as ([r2 s2] & H2 & H1). assert (same_place s s2) as Hs2.
  - clear H1. destruct (negb _); [|by inv_ret]. apply bind_Ret_inv in H2 as (? & _ & H2).
    apply bind_Ret_inv in H2 as ([nb|] & _ & H2); by inv_ret.
  - clear H2. etrans; [exact Hs2|]. destruct r2; [|by inv_ret]. apply bind_Ret_inv in H1 as (? & _ & H1).
    destruct (negb _); [|by inv_ret]. apply bind_Ret_inv in H1 as ([nb|] & _ & H1); by inv_ret.
Qed.

Lemma scan_record_place s file pos now out r s' out' :
  Wal.scan_record s file pos now out = Ret (r, (s', out')) -> same_place s s'.
Proof.
  unfold Wal.scan_record. intros H. apply bind_Ret_inv in H as (fp & _ & H).
  apply try_with_Ret in H as [([lf p1] & [s1 out1] & H1%scan_loop_place & H)|(e & H1%scan_loop_place & _)]; [|done].
  etrans; [exact H1|]. clear H1. apply bind_Ret_inv in H as (p2 & _ & H).
  apply try_with_Ret in H as [([] & [s2 out2] & H1 & H)|(e & H1 & _)];
    apply bind_Ret_inv in H1 as ([r3 s3] & H1%truncate_place & H2); by inv_ret.
Qed.

Lemma recover_loop_place files offset now l pos need out r l' out' :
  Wal.recover_loop files offset now l pos need out = Ret (r, (l', out')) -> Forall2 same_place l l'.
Proof.
  revert pos need out r l'. induction l as [|s l IH]; intros pos need out r l' H; simpl in H; [by inv_ret|].
  apply bind_Ret_inv in H as (e & _ & H).
  assert (Hcont : forall s1 pos need out, same_place s s1 ->
    ('(r, (l, out)) ← Wal.recover_loop files offset now l pos need out; Ret (r, (s1 :: l, out))) = Ret (r, (l', out')) ->
    Forall2 same_place (s :: l) l').
  { intros s1 pos1 need1 out1 Hs1 H1. apply bind_Ret_inv in H1 as ([r2 [l2 out2]] & H1 & H2). inv_ret.
    constructor; [done|]. by eapply IH. }
  destruct (e <=? offset); [by eapply Hcont; [|exact H]|]. destruct (negb need); [by eapply Hcont; [|exact H]|].
  apply bind_Ret_inv in H as ([r1 [s1 out1]] & H1%scan_record_place & H).
  destruct r1 as [[lf p1]|e1]; [by eapply Hcont; [|exact H]|]. inv_ret. constructor; [done|apply places_refl].
Qed.

(** ** The invariant *)

Lemma before_places (l l' : list (LogSegment.t S)) :
  Forall2 same_place l l' -> StronglySorted before l -> StronglySorted before l'.
Proof.
  induction 1 as [|a b l l' [Hw Hs] Hl IH]; [done|]. intros [Hsorted Ha]%StronglySorted_inv.
  constructor; [by apply IH|]. clear -Hl Ha Hw Hs. unfold before in *.
  induction Hl as [|x y l l' [Hx _] _ IH]; [done|]. apply Forall_cons in Ha as [Hax Ha]. constructor; [lia|auto].
Qed.

Lemma wal_ok_places w w' :
  wal_ok w -> Wal.config w' = Wal.config w -> Forall2 same_place (Wal.segments w) (Wal.segments w') -> wal_ok w'.
Proof.
  intros [Ho Hs Hp] Hc Hl. split; rewrite ?Hc; [by eapply before_places| |done].
  clear -Hl Hs. induction Hl as [|a b l l' [_ Hab] _ IH]; [done|]. apply Forall_cons in Hs as [Ha Hs].
  constructor; [congruence|auto].
Qed.

Lemma wal_ok_sublist w w' :
  wal_ok w -> Wal.config w' = Wal.config w -> Wal.segments w' `sublist_of` Wal.segments w -> wal_ok w'.
Proof.
  intros [Ho Hs Hp] Hc Hl. split; rewrite ?Hc; [by eapply sorted_sublist| |done].
  apply Forall_forall. intros s Hin. apply (proj1 (Forall_forall _ _) Hs). by eapply elem_of_submseteq, sublist_submseteq.
Qed.

(** A segment that starts at or behind the end of all others can be pushed. *)
Lemma wal_ok_push w w' s :
  wal_ok w -> Wal.config w' = Wal.config w -> Wal.segments w' = Wal.segments w ++ [s] ->
  Forall (fun a => before a s) (Wal.segments w) -> size s = Config.segment_size (Wal.config w) -> wal_ok w'.
Proof.
  intros [Ho Hs Hp] Hc Hl Hb Hsz. split; rewrite ?Hc, ?Hl; [|by apply Forall_app; repeat constructor|done].
  clear -Ho Hb. induction Ho as [|a l Ho IH Ha]; simpl; [by repeat constructor|].
  apply Forall_cons in Hb as [Has Hb]. constructor; [by apply IH|]. by apply Forall_app; repeat constructor.
Qed.

Lemma before_last w z :
  wal_ok w -> last (Wal.segments w) = Some z ->
  Forall (fun a => wal_offset a + size a <= wal_offset z + Config.segment_size (Wal.config w)) (Wal.segments w).
Proof.
  intros [Ho Hs Hp] Hl. revert Hl Hs. induction Ho as [|a l Ho IH Ha]; [done|]. intros Hl [Has Hs]%Forall_cons.
  destruct l as [|b l]; [simplify_eq/=; repeat constructor; lia|].
  change (last (a :: b :: l)) with (last (b :: l)) in Hl. constructor; [|by apply IH].
  pose proof (proj1 (Forall_forall _ _) Ha z (last_Some_elem_of _ _ Hl)) as Hz. unfold before in Hz. lia.
Qed.

Lemma enqueue_segments w l r w' :
  Wal.enqueue_and_submit w l = (r, w') -> Wal.config w' = Wal.config w /\ Wal.segments w' = Wal.segments w.
Proof. unfold Wal.enqueue_and_submit. repeat case_match; intros [= <- <-]; done. Qed.

Lemma segment_at_spec w o p s :
  Wal.segment_at w o p = Ok s -> wal_offset s = o /\ size s = Config.segment_size (Wal.config w).
Proof. unfold Wal.segment_at, new. case_match; [done|]. by intros [= <-]. Qed.

Lemma try_open_ok w r w' : wal_ok w -> Wal.try_open_segment w = Ret (r, w') -> wal_ok w'.
Proof.
  intros Hok H. unfold Wal.try_open_segment in H. apply bind_Ret_inv in H as ([s|e] & Ha & H); [|by inv_ret].
  assert (Hs : Forall (fun a => before a s) (Wal.segments w) /\ size s = Config.segment_size (Wal.config w)).
  { unfold Wal.alloc_segment in Ha. apply bind_Ret_inv in Ha as (o & Ho & Ha). injection Ha as Ha.
    apply segment_at_spec in Ha as [Hw Hsz]. split; [|done]. destruct (last (Wal.segments w)) as [z|] eqn:Hl.
    - inv_ret. eapply Forall_impl; [by apply (before_last w z)|]. intros a. unfold before. simpl. lia.
    - apply last_None in Hl. by rewrite Hl. }
  assert (Hgen : forall w1 s1 sqe, wal_ok w1 -> Wal.config w1 = Wal.config w ->
    Wal.segments w1 `sublist_of` Wal.segments w -> same_place s s1 ->
    match Wal.enqueue_and_submit_entry (Wal.insert_inflight w1 (wal_offset s) (status s1)) (sqe, wal_offset s) with
    | (Err e, w) => Ret (Err e, w)
    | (Ok _, w) => Ret (Ok (), Wal.set_segments w (Wal.segments w ++ [s1]))
    end = Ret (r, w') -> wal_ok w').
  { intros w1 s1 sqe Hok1 Hc1 Hsub [Hw1 Hz1] H1. unfold Wal.enqueue_and_submit_entry in H1.
    destruct (Wal.enqueue_and_submit _ _) as [[[]|e] w2] eqn:He; apply enqueue_segments in He as [Hc2 Hs2]; inv_ret.
    - destruct Hs as [Hb Hz]. apply (wal_ok_push w1 _ s1); simpl; try done; [by rewrite Hs2| |congruence].
      apply Forall_forall. intros a Ha'. unfold before. rewrite Hw1.
      apply (proj1 (Forall_forall _ _) Hb). by eapply elem_of_submseteq, sublist_submseteq.
    - eapply (wal_ok_places w1); [done|done|]. rewrite Hs2. apply places_refl. }
  destruct (Wal.segments w) as [|a l] eqn:Hl; [by eapply (Hgen w); rewrite ?Hl|].
  destruct (_ && _); [|by eapply (Hgen w); rewrite ?Hl].
  eapply (Hgen (Wal.set_segments w l)); [|done|simpl; by apply sublist_cons|apply place_state|exact H].
  eapply wal_ok_sublist; [done|done|]. simpl. rewrite Hl. by apply sublist_cons.
Qed.

Lemma close_first_places n l : Forall2 same_place l (Wal.close_first n l).
Proof.
  revert n. induction l as [|s l IH]; intros [|n]; simpl; [by constructor..|apply places_refl|].
  destruct (Wal.has_status Status.Read s); constructor; try apply IH; done.
Qed.

Lemma insert_inflight_segments w l :
  let f := fun w s => Wal.insert_inflight w (wal_offset s) (status s) in
  Wal.config (foldl f w l) = Wal.config w /\ Wal.segments (foldl f w l) = Wal.segments w.
Proof. simpl. revert w. induction l as [|s l IH]; intros w; simpl; [done|]. destruct (IH (Wal.insert_inflight w (wal_offset s) (status s))) as [-> ->]. done. Qed.

Lemma try_close_ok w r w' : wal_ok w -> Wal.try_close_segment w = Ret (r, w') -> wal_ok w'.
Proof.
  intros Hok H. unfold Wal.try_close_segment in H. apply bind_Ret_inv in H as (w1 & H1 & H).
  assert (Hok1 : wal_ok w1).
  { unfold Wal.check_expired_segment in H1. apply bind_Ret_inv in H1 as (m & _ & H1). injection H1 as <-.
    case_match; [|done]. eapply wal_ok_places; [done|done|]. apply close_first_places. }
  injection H as H. unfold Wal.enqueue_and_submit_entries in H.
  match goal with H : context [foldl ?f w1 ?l] |- _ => destruct (insert_inflight_segments w1 l) as [Hc Hs] end.
  assert (Hfin : Wal.config w' = Wal.config w1 /\ Wal.segments w' = Wal.segments w1).
  { case_match; [simplify_eq; by rewrite Hc, Hs|]. apply enqueue_segments in H as [Hc2 Hs2]. by rewrite Hc2, Hs2. }
  destruct Hfin as [Hc' Hs']. eapply (wal_ok_places w1); [done|done|]. rewrite Hs'. apply places_refl.
Qed.

Lemma next_step_place recycled s offset result s' sqe d :
  Wal.next_step recycled s offset result = Ret (s', sqe, d) -> same_place s s'.
Proof. unfold Wal.next_step. intros H. repeat (case_match; try by inv_ret). Qed.

Lemma find_last_lookup l offset i s : Wal.find_last l offset = Ret (Some (i, s)) -> l !! i = Some s.
Proof.
  revert i. induction l as [|a l IH]; intros i H; simpl in H; [by inv_ret|].
  apply bind_Ret_inv in H as ([[j s']|] & H1 & H); [inv_ret; simpl; by apply IH|].
  destruct (_ <=? _); [|by inv_ret]. apply bind_Ret_inv in H as (e & _ & H). destruct (_ <? e); by inv_ret.
Qed.

Lemma places_insert (l : list (LogSegment.t S)) i s s' :
  l !! i = Some s -> same_place s s' -> Forall2 same_place l (<[i := s']> l).
Proof.
  revert i. induction l as [|a l IH]; intros [|i] H Hs; simplify_eq/=; constructor; eauto using places_refl; done.
Qed.

Lemma delete_segments_sublist w offsets : Wal.segments (Wal.delete_segments w offsets) `sublist_of` Wal.segments w.
Proof. unfold Wal.delete_segments. destruct offsets; [done|]. simpl. apply filter_sublist. Qed.

Lemma submit_segments w r w' :
  Wal.submit w = (r, w') -> Wal.config w' = Wal.config w /\ Wal.segments w' = Wal.segments w.
Proof. unfold Wal.submit. case_match; intros [= <- <-]; done. Qed.

Lemma on_completion_ok w offset result r w' :
  wal_ok w -> Wal.on_file_op_completion w offset result = Ret (r, w') -> wal_ok w'.
Proof.
  intros Hok H. unfold Wal.on_file_op_completion in H. apply bind_Ret_inv in H as ([[i s]|] & Hf & H).
  2:{ injection H as H. apply submit_segments in H as [Hc Hs]. eapply wal_ok_places; [done|done|]. rewrite Hs. apply places_refl. }
  destruct (result =? -1); [by inv_ret|]. apply bind_Ret_inv in H as ([[s' sqe] d] & Hn%next_step_place & H).
  apply find_last_lookup in Hf. assert (Hok1 : wal_ok (Wal.set_segments w (<[i := s']> (Wal.segments w)))).
  { eapply wal_ok_places; [done|done|]. by eapply places_insert. }
  set (w1 := Wal.set_segments w _) in *.
  assert (Hfin : forall w2, Wal.config w2 = Wal.config w1 -> Wal.segments w2 = Wal.segments w1 ->
    match Wal.submit w2 with
    | (Err e, w) => Ret (Err e, w)
    | (Ok _, w) => Ret (Ok (), if d : bool then Wal.delete_segments w [offset] else w)
    end = Ret (r, w') -> wal_ok w').
  { intros w2 Hc2 Hs2 H2. destruct (Wal.submit w2) as [r3 w3] eqn:E. apply submit_segments in E as [Hc3 Hs3].
    rewrite Hc2 in Hc3. rewrite Hs2 in Hs3. assert (Hok3 : wal_ok w3).
    { eapply (wal_ok_places w1); [done|done|]. rewrite Hs3. apply places_refl. }
    destruct r3 as [[]|e]; [|by inv_ret]. injection H2 as _ <-. destruct d; [|done].
    eapply wal_ok_sublist; [exact Hok3|done|exact (delete_segments_sublist w3 [offset])]. }
  destruct sqe as [[[entry ud] st]|]; [|by eapply (Hfin w1)].
  destruct (ring_push _ _) as [rg|] eqn:E; simpl in H; [|injection H as _ <-; exact Hok1].
  by eapply (Hfin (Wal.insert_inflight (Wal.set_ring w1 rg) offset st)).
Qed.

Lemma reap_control_ok w m w' : wal_ok w -> Wal.reap_control_tasks w m = Ret w' -> wal_ok w'.
Proof.
  revert w. induction m as [|[offset result] m IH]; intros w Hok H; simpl in H; [by inv_ret|].
  destruct (_ !! offset); [|by eapply IH]. apply bind_Ret_inv in H as ([r w1] & H1 & H).
  eapply IH, H. eapply on_completion_ok, H1. eapply wal_ok_places; [done|done|]. apply places_refl.
Qed.

Lemma recover_ok w files offset now r w' out :
  wal_ok w -> Wal.recover w files offset now = Ret (r, w', out) -> wal_ok w'.
Proof.
  intros Hok H. unfold Wal.recover in H. apply bind_Ret_inv in H as ([r1 [l out1]] & H1%recover_loop_place & H).
  inv_ret. by eapply wal_ok_places.
Qed.

Lemma reclaim_loop_places fuel l q a b n l' :
  Wal.reclaim_loop fuel l q a b = Ret (n, l') -> Forall2 same_place l l'.
Proof.
  revert l q a. induction fuel as [|fuel IH]; intros l q a H; cbn [Wal.reclaim_loop] in H; [done|].
  destruct (b <=? a); [inv_ret; apply places_refl|].
  destruct (score_pop_front q) as [[[k i] q1]|]; [|inv_ret; apply places_refl].
  destruct (l !! i) as [s|] eqn:Hi; [|done]. apply bind_Ret_inv in H as ([e c] & _ & H).
  assert (Hl : Forall2 same_place l (<[i := set_cache s c]> l)) by (by eapply places_insert).
  etrans; [exact Hl|]. destruct e as [e|]; [|by eapply IH]. destruct (_ && _); [by eapply IH|].
  do 2 apply bind_Ret_inv in H as (? & _ & H). by eapply IH.
Qed.

Lemma reclaim_ok w n r w' : wal_ok w -> Wal.try_reclaim w n = Ret (r, w') -> wal_ok w'.
Proof.
  intros Hok H. unfold Wal.try_reclaim in H. apply bind_Ret_inv in H as (cs & _ & H).
  apply bind_Ret_inv in H as ([tr cf] & _ & H). destruct (tr =? 0); [by inv_ret|].
  apply bind_Ret_inv in H as (q & _ & H). apply bind_Ret_inv in H as ([rc l] & H1%reclaim_loop_places & H).
  do 2 apply bind_Ret_inv in H as (? & _ & H). inv_ret. by eapply wal_ok_places.
Qed.

(** A step of the log; [step_io] is whatever the I/O loop does to segments in their place:
    appends, reads, state changes. *)
Inductive wal_step : Wal.t S R -> Wal.t S R -> Prop :=
| step_recover w files offset now r w' out : Wal.recover w files offset now = Ret (r, w', out) -> wal_step w w'
| step_open w r w' : Wal.try_open_segment w = Ret (r, w') -> wal_step w w'
| step_close w r w' : Wal.try_close_segment w = Ret (r, w') -> wal_step w w'
| step_reap w m w' : Wal.reap_control_tasks w m = Ret w' -> wal_step w w'
| step_reclaim w n r w' : Wal.try_reclaim w n = Ret (r, w') -> wal_step w w'
| step_io w l : Forall2 same_place (Wal.segments w) l -> wal_step w (Wal.set_segments w l).

Lemma wal_step_ok w w' : wal_ok w -> rtc wal_step w w' -> wal_ok w'.
Proof.
  intros Hok H. induction H as [|w w1 w' H _ IH]; [done|]. apply IH. clear IH.
  destruct H; eauto using recover_ok, try_open_ok, try_close_ok, reap_control_ok, reclaim_ok. by eapply wal_ok_places.
Qed.

(** ** Loading a directory *)

#[local] Instance segment_le_trans : Transitive (segment_le (S := S)).
Proof. unfold segment_le. intros a b c. lia. Qed.
#[local] Instance segment_le_total : Total (segment_le (S := S)).
Proof. unfold segment_le. intros a b. lia. Qed.

(** The files of the directory that are taken for segments have the names that segments are
    given, at multiples of the segment size. *)
Definition named (w : Wal.t S R) (e : DirEntry.t) : Prop :=
  forall o, parse_offset (DirEntry.name e) = Some o ->
    DirEntry.name e = format o /\ (Config.segment_size (Wal.config w) | o).

Lemma entry_spec w e s :
  Wal.segment_of_entry w e = Some s ->
  parse_offset (DirEntry.name e) = Some (wal_offset s) /\ size s = Config.segment_size (Wal.config w).
Proof.
  unfold Wal.segment_of_entry. destruct (DirEntry.metadata e) as [[]|]; [done| |done].
  destruct (parse_offset _) as [o|]; [|done]. simpl. destruct (Wal.segment_at _ _ _) as [s'|] eqn:E; [|done].
  intros [= <-]. by apply segment_at_spec in E as [-> ->].
Qed.

Lemma entries_NoDup w l :
  Forall (named w) l -> NoDup (DirEntry.name <$> l) -> NoDup (wal_offset <$> omap (Wal.segment_of_entry w) l).
Proof.
  induction l as [|e l IH]; intros Hn Hd; [constructor|]. apply Forall_cons in Hn as [He Hn].
  apply NoDup_cons in Hd as [Hnin Hd]. specialize (IH Hn Hd). simpl.
  destruct (Wal.segment_of_entry w e) as [s|] eqn:Hs; [|done]. simpl. apply NoDup_cons. split; [|done].
  intros (s' & Heq & (e' & Hin & Hs')%list_elem_of_omap)%list_elem_of_fmap. apply Hnin, list_elem_of_fmap. exists e'. split; [|done].
  apply entry_spec in Hs as [Hs _]. apply entry_spec in Hs' as [Hs' _].
  rewrite (proj1 (He _ Hs)), Heq. symmetry. apply (proj1 (Forall_forall _ _) Hn _ Hin). done.
Qed.

Lemma before_of_le n l :
  0 < n -> StronglySorted segment_le l -> NoDup (wal_offset <$> l) ->
  Forall (fun s => size s = n /\ (n | wal_offset s)) l -> StronglySorted before l.
Proof.
  intros Hn. induction 1 as [|a l Hl IH Ha]; intros Hd Hf; [constructor|].
  apply NoDup_cons in Hd as [Hnin Hd]. apply Forall_cons in Hf as [[Hsz [ka Hka]] Hf].
  constructor; [by apply IH|]. apply Forall_forall. intros b Hb.
  destruct (proj1 (Forall_forall _ _) Hf _ Hb) as [_ [kb Hkb]]. pose proof (proj1 (Forall_forall _ _) Ha _ Hb) as Hle.
  assert (wal_offset a <> wal_offset b) by (intros Heq; apply Hnin; rewrite Heq; by apply list_elem_of_fmap_2).
  unfold segment_le, before in *. assert (ka + 1 <= kb) by nia. nia.
Qed.

Lemma preallocate_spec fuel w offset l :
  0 < Config.segment_size (Wal.config w) -> Wal.preallocate fuel w offset = Ret l ->
  StronglySorted before l /\
  Forall (fun s => offset <= wal_offset s /\ size s = Config.segment_size (Wal.config w)) l.
Proof.
  intros Hn. revert offset l. induction fuel as [|fuel IH]; intros offset l H; simpl in H; [done|].
  apply bind_Ret_inv in H as (next & Hnext & H). apply uint_add_inv in Hnext as [-> _].
  destruct (_ <=? _); [|injection H as <-; by split; constructor].
  apply bind_Ret_inv in H as (rest & [Hs Hf]%IH & H). injection H as <-.
  assert (Hf' : Forall (fun s => offset <= wal_offset s /\ size s = Config.segment_size (Wal.config w)) rest).
  { eapply Forall_impl; [exact Hf|]. intros ?. simpl. lia. }
  destruct (Wal.segment_at _ _ _) as [s|] eqn:E; [|done]. apply segment_at_spec in E as [Ho Hz].
  split; constructor; [done| |lia|done]. eapply Forall_impl; [exact Hf|]. intros ?. unfold before. simpl. lia.
Qed.

Lemma open_all_places w l opens r w' :
  Wal.open_all w l opens = (r, w') ->
  Wal.config w' = Wal.config w /\ exists n, Forall2 same_place (Wal.segments w ++ take n l) (Wal.segments w').
Proof.
  revert w. induction l as [|s l IH]; intros w H; simpl in H.
  { injection H as _ <-. split; [done|]. exists 0%nat. rewrite app_nil_r. apply places_refl. }
  destruct (opens _) as [file fa]. destruct (LogSegment.open s file fa) as [[[]|e] s1] eqn:E.
  - apply IH in H as [Hc [n Hn]]. split; [done|]. exists (Datatypes.S n). simpl in *. rewrite <- app_assoc in Hn.
    etrans; [|exact Hn]. apply Forall2_app; [apply places_refl|]. constructor; [|apply places_refl].
    unfold LogSegment.open in E. repeat case_match; by simplify_eq.
  - injection H as _ <-. split; [done|]. exists 0%nat. rewrite app_nil_r. apply places_refl.
Qed.

Lemma load_ok w entries opens r w' :
  Wal.segments w = [] -> 0 < Config.segment_size (Wal.config w) ->
  Forall (named w) entries -> NoDup (DirEntry.name <$> entries) ->
  Wal.load_from_paths w (Ok entries) opens = Ret (r, w') -> wal_ok w'.
Proof.
  intros Hw Hn Hnm Hd H. unfold Wal.load_from_paths in H.
  set (l := merge_sort segment_le _) in H. apply bind_Ret_inv in H as (next & Hnext & H).
  apply bind_Ret_inv in H as (more & [Hms Hmf]%(preallocate_spec _ _ _ _ Hn) & H). injection H as [Hc [n Hp]]%open_all_places.
  assert (Hperm : l ≡ₚ omap (Wal.segment_of_entry w) entries) by apply merge_sort_Permutation.
  assert (Hf : Forall (fun s => size s = Config.segment_size (Wal.config w) /\
                               (Config.segment_size (Wal.config w) | wal_offset s)) l).
  { apply Forall_forall. intros s Hs. rewrite Hperm in Hs. apply list_elem_of_omap in Hs as (e & He & [Ho Hsz]%entry_spec).
    split; [done|]. by apply (proj1 (Forall_forall _ _) Hnm _ He). }
  assert (Hl : StronglySorted before l).
  { eapply before_of_le; [done| | |done]; [apply (StronglySorted_merge_sort segment_le)|].
    rewrite Hperm. by apply entries_NoDup. }
  rewrite Hw in Hp. apply (wal_ok_places (Wal.set_segments w' (take n (l ++ more)))); [|done|exact Hp].
  apply (wal_ok_sublist (Wal.set_segments w' (l ++ more))); [|done|apply sublist_take]. clear Hp.
  assert (Hall : Forall (fun a => wal_offset a + size a <= next) l).
  { destruct (last l) as [z|] eqn:Hz; [|apply last_None in Hz as ->; constructor].
    apply uint_add_inv in Hnext as [-> _]. rewrite (proj1 (proj1 (Forall_forall _ _) Hf z (last_Some_elem_of _ _ Hz))).
    apply (before_last (Wal.set_segments w l) z); [|done]. split; [done| |done]. eapply Forall_impl; [exact Hf|]. by intros ? []. }
  split; simpl; rewrite ?Hc; [| |done].
  - apply StronglySorted_app_2; [|done..]. intros a b Ha Hb. apply (proj1 (Forall_forall _ _) Hall) in Ha.
    apply (proj1 (Forall_forall _ _) Hmf) in Hb as [Hb _]. unfold before. simpl in *. lia.
  - apply Forall_app. split; eapply Forall_impl; [exact Hf|by intros ? []|exact Hmf|by intros ? []].
Qed.

(** ** Finding the segment of an offset *)

Definition holds_offset (offset : Z) (s : LogSegment.t S) : Prop :=
  wal_offset s <= offset < wal_offset s + size s.

Lemma find_last_some l offset :
  StronglySorted before l -> Forall (fun s => 0 <= wal_offset s /\ 0 < size s /\ wal_offset s + size s < 2 ^ 64) l ->
  (exists i s, Wal.find_last l offset = Ret (Some (i, s)) /\ l !! i = Some s /\ holds_offset offset s /\
     forall j s', l !! j = Some s' -> holds_offset offset s' -> j = i) \/
  (Wal.find_last l offset = Ret None /\ Forall (fun s => ~ holds_offset offset s) l).
Proof.
  induction l as [|a l IH]; intros Hsort Hb; [right; by split; [|constructor]|].
  apply StronglySorted_inv in Hsort as [Hsort Ha]. apply Forall_cons in Hb as [Hb0 Hb].
  destruct (IH Hsort Hb) as [(i & s & Hf & Hi & Hin & Hu)|[Hf Hno]]; cbn [Wal.find_last]; rewrite Hf; simpl.
  - left. exists (Datatypes.S i), s. split_and!; [done..|]. intros [|j] s' Hj Hs'; simpl in Hj; [|f_equal; by eapply Hu].
    simplify_eq. apply (Forall_lookup_1 _ _ _ _ Ha) in Hi. unfold before, holds_offset in *. lia.
  - unfold holds_offset in *. destruct (Z.leb_spec (wal_offset a) offset).
    + rewrite uint_add_Ret by lia. simpl. destruct (Z.ltb_spec offset (wal_offset a + size a)).
      * left. exists 0%nat, a. split_and!; [done|done|lia|lia|]. intros [|j] s' Hj Hs'; [done|]. simpl in Hj.
        by apply (Forall_lookup_1 _ _ _ _ Hno) in Hj.
      * right. split; [done|]. constructor; [lia|done].
    + right. split; [done|]. constructor; [lia|done].
Qed.

(** C22: The segments of the log stay in order and apart.  From a directory whose segment
    files are named the way the log names them, through any sequence of recovery, opening and
    closing of segments, completions of file operations, cache reclaims and appends, every
    segment ends where the next begins or before it, so that [segment_file_of] finds the one
    segment that holds an offset, and nothing when there is none. *)
Theorem segments_stay_ordered w0 entries opens r w1 w :
  Wal.segments w0 = [] -> 0 < Config.segment_size (Wal.config w0) ->
  Forall (named w0) entries -> NoDup (DirEntry.name <$> entries) ->
  Wal.load_from_paths w0 (Ok entries) opens = Ret (r, w1) -> rtc wal_step w1 w ->
  StronglySorted before (Wal.segments w) /\
  (Forall (fun s => 0 <= wal_offset s /\ wal_offset s + size s < 2 ^ 64) (Wal.segments w) ->
   forall offset,
     (exists i s, Wal.segment_file_of w offset = Ret (Some (i, s)) /\
        Wal.segments w !! i = Some s /\ holds_offset offset s /\
        forall j s', Wal.segments w !! j = Some s' -> holds_offset offset s' -> j = i) \/
     (Wal.segment_file_of w offset = Ret None /\
      Forall (fun s => ~ holds_offset offset s) (Wal.segments w))).
Proof.
  intros Hw Hn Hnm Hd Hl Hs. destruct (wal_step_ok w1 w (load_ok _ _ _ _ _ Hw Hn Hnm Hd Hl) Hs) as [Ho Hsz Hp].
  split; [done|]. intros Hb offset. apply find_last_some; [done|]. apply Forall_forall. intros s Hin.
  apply (proj1 (Forall_forall _ _) Hb) in Hin as Hbs. apply (proj1 (Forall_forall _ _) Hsz) in Hin. lia.
Qed.

(** ** The reclaim loop ends *)

Class ScoreListLaws := {
  score_len_empty : score_len score_empty = 0%nat;
  score_len_push : forall x q, score_len (score_push x q) = Datatypes.S (score_len q);
  score_len_pop : forall x q q', score_pop_front q = Some (x, q') -> score_len q = Datatypes.S (score_len q');
}.
Context {QL : ScoreListLaws}.

Lemma remove_by_score_length (c : BlockCache.t S) e c' :
  BlockCache.remove_by_score c = Ret (e, c') ->
  length (BlockCache.entries c) = ((if e is Some _ then 1 else 0) + length (BlockCache.entries c'))%nat.
Proof.
  unfold BlockCache.remove_by_score, BlockCache.remove_by. intros H.
  repeat (case_match; try by inv_ret). apply bind_Ret_inv in H as (c1 & [sl ->]%score_remove_inv & H).
  apply bind_Ret_inv in H as (c2 & ->%unaccount_inv & H). injection H as <- <-. simpl.
  symmetry. by eapply BTreeMap.remove_length.
Qed.

Lemma count_insert (l : list (LogSegment.t S)) i s s' :
  l !! i = Some s ->
  (Wal.count_entries (<[i := s']> l) + length (BlockCache.entries (block_cache s)) =
   Wal.count_entries l + length (BlockCache.entries (block_cache s')))%nat.
Proof.
  unfold Wal.count_entries. revert i. induction l as [|a l IH]; intros [|i] H; simplify_eq/=; [lia|].
  specialize (IH i H). lia.
Qed.

(** Any fuel beyond the number of cached blocks and listed segments gives the same result. *)
Lemma reclaim_fuel f1 f2 l q a b :
  (Wal.count_entries l + score_len q < f1)%nat -> (Wal.count_entries l + score_len q < f2)%nat ->
  Wal.reclaim_loop f1 l q a b = Wal.reclaim_loop f2 l q a b.
Proof.
  revert f2 l q a. induction f1 as [|f1 IH]; intros [|f2] l q a H1 H2; try lia. cbn [Wal.reclaim_loop].
  destruct (b <=? a); [done|]. destruct (score_pop_front q) as [[[k i] q1]|] eqn:Hq; [|done].
  apply score_len_pop in Hq. destruct (l !! i) as [s|] eqn:Hi; [|done].
  destruct (BlockCache.remove_by_score _) as [[e c]|] eqn:Hr; [|done]. simpl.
  apply remove_by_score_length in Hr. pose proof (count_insert l i s (set_cache s c) Hi) as Hc. simpl in Hc.
  destruct e as [e|]; [|apply IH; lia]. destruct (_ && _); [apply IH; lia|].
  destruct (uint_add _ _ _) as [a'|]; [|done]. simpl. unfold Wal.push_segment.
  destruct (BlockCache.min_score _) as [sc|]; [|done]. simpl.
  destruct (0 <? sc); apply IH; rewrite ?score_len_push; lia.
Qed.

Lemma push_segments_len i l q q' :
  Wal.push_segments i l q = Ret q' -> (score_len q' <= score_len q + length l)%nat.
Proof.
  revert i q. induction l as [|s l IH]; intros i q H; simpl in H; [inv_ret; simpl; lia|].
  apply bind_Ret_inv in H as (q1 & H1 & H%IH). unfold Wal.push_segment in H1.
  apply bind_Ret_inv in H1 as (sc & _ & H1). injection H1 as <-. simpl.
  destruct (0 <? sc); rewrite ?score_len_push in H; lia.
Qed.

(** Reclaiming the cache ends.  Each round of the loop of [try_reclaim] removes a cached
    block or drops a segment from the list of candidates: any fuel above the number of blocks
    and segments, which is what [try_reclaim] gives it, leads to the same result. *)
Theorem try_reclaim_terminates w q fuel a b :
  Wal.push_segments 0 (Wal.segments w) score_empty = Ret q ->
  (Wal.count_entries (Wal.segments w) + length (Wal.segments w) < fuel)%nat ->
  Wal.reclaim_loop fuel (Wal.segments w) q a b =
  Wal.reclaim_loop (Datatypes.S (Wal.count_entries (Wal.segments w) + length (Wal.segments w)))
    (Wal.segments w) q a b.
Proof. intros H%push_segments_len Hf. rewrite score_len_empty in H. apply reclaim_fuel; lia. Qed.
End order.

(** ** File names *)

Lemma digit_value_digit d : 0 <= d < 10 -> digit_value (digit d) = Some d.
Proof.
  intros H. assert (Hd : d ∈ [0; 1; 2; 3; 4; 5; 6; 7; 8; 9]) by (rewrite !elem_of_cons; lia).
  rewrite !elem_of_cons in Hd. repeat destruct Hd as [->|Hd]; try reflexivity. by apply elem_of_nil in Hd.
Qed.

Lemma parse_digits_app acc l1 l2 :
  parse_digits acc (l1 ++ l2) = acc' ← parse_digits acc l1; parse_digits acc' l2.
Proof.
  revert acc. induction l1 as [|x l1 IH]; intros acc; [done|]. simpl. destruct (digit_value x); [|done]. simpl.
  by destruct (_ <? _).
Qed.

Lemma parse_digits_digits n acc z :
  0 <= acc -> 0 <= z < 10 ^ Z.of_nat n -> acc * 10 ^ Z.of_nat n + z < 2 ^ 64 ->
  parse_digits acc (digits n z) = Some (acc * 10 ^ Z.of_nat n + z).
Proof.
  revert acc z. induction n as [|n IH]; intros acc z Ha Hz Hb; [simpl in *; f_equal; lia|].
  cbn [digits]. rewrite parse_digits_app. rewrite Nat2Z.inj_succ, Z.pow_succ_r in * by lia.
  pose proof (Z.div_mod z 10 ltac:(lia)) as Hdm. pose proof (Z.mod_pos_bound z 10 ltac:(lia)) as Hmod.
  assert (0 <= z / 10 < 10 ^ Z.of_nat n) by (split; [apply Z.div_pos|apply Z.div_lt_upper_bound]; lia).
  rewrite IH by nia. cbn -[Z.pow Z.ltb]. rewrite digit_value_digit by lia. cbn -[Z.pow Z.ltb].
  rewrite (proj2 (Z.ltb_lt _ _)) by nia. f_equal. nia.
Qed.

(** The name of a segment file gives back its offset: what [format] writes for any [u64],
    [parse_offset] reads, so that every segment file the log creates is found when the
    directory is loaded. *)
Theorem parse_format offset : 0 <= offset < 2 ^ 64 -> parse_offset (format offset) = Some offset.
Proof.
  intros H. unfold parse_offset, format, parse_u64. destruct (digits 20 offset) as [|x l] eqn:E.
  { by apply (f_equal length) in E. }
  assert (Hp : parse_digits 0 (x :: l) = Some offset).
  { rewrite <- E, parse_digits_digits; [f_equal; lia|lia| |]; simpl (Z.of_nat 20); lia. }
  destruct (Ascii.eqb_spec x (Ascii.ascii_of_N 43)) as [->|]; [|exact Hp]. done.
Qed.

Lemma parse_format_witness : parse_offset (format 18446744073709551615) = Some 18446744073709551615.
Proof. apply (parse_format 18446744073709551615). lia. Defined.

(** ** Examples *)

Fixpoint score_insert_sorted (x : Z * nat) (q : list (Z * nat)) : list (Z * nat) :=
  match q with
  | [] => [x]
  | y :: q' => if x.1 <? y.1 then x :: q else y :: score_insert_sorted x q'
  end.

#[export] Instance list_scores : ScoreListApi := {
  score_list := list (Z * nat);
  score_empty := [];
  score_push := score_insert_sorted;
  score_pop_front q := match q with [] => None | x :: q => Some (x, q) end;
  score_len := length;
}.
#[export] Instance list_scores_laws : ScoreListLaws.
Proof.
  split; simpl; [done| |by intros x [|y q] q' H; simplify_eq].
  intros x q. induction q as [|y q IH]; simpl; [done|]. case_match; simpl; congruence.
Qed.
#[export] Instance integer_percentage : PercentageApi := { apply_to p v := p * v / 100 }.

Module WalExample.
Import RecoveryExample.
Definition w0 : Wal.t list_skiplist list_ring :=
  Wal.new (R := list_ring) [] (Config.mk sz (3 * sz) al false 0 80 []).
Definition entries : list DirEntry.t :=
  [DirEntry.mk (format sz) (Some false); DirEntry.mk (format 0) (Some false)].
Definition opens (_ : Z) : result (Z * Z) StoreError.t * option Z := (Ok (3, sz), None).

Lemma named_ok : Forall (named w0) entries.
Proof.
  assert (Hn : forall k, 0 <= k < 2 -> named w0 (DirEntry.mk (format (k * sz)) (Some false))).
  { intros k Hk o Ho. assert (Heq : parse_offset (format (k * sz)) = Some (k * sz)).
    { assert (k = 0 \/ k = 1) as [->| ->] by lia; by vm_compute. }
    cbn [DirEntry.name] in Ho. rewrite Heq in Ho. injection Ho as <-. split; [done|]. by exists k. }
  constructor; [by apply (Hn 1)|]. constructor; [by apply (Hn 0)|constructor].
Qed.
End WalExample.

Lemma segments_stay_ordered_witness :
  exists r w1 r2 w,
    Wal.load_from_paths WalExample.w0 (Ok WalExample.entries) WalExample.opens = Ret (r, w1) /\
    Wal.try_open_segment w1 = Ret (r2, w) /\ length (Wal.segments w) = 4%nat /\
    StronglySorted before (Wal.segments w).
Proof.
  eexists _, _, _, _. split; [by vm_compute|]. split; [by vm_compute|]. split; [done|].
  eapply (segments_stay_ordered WalExample.w0 WalExample.entries WalExample.opens);
    [done|done|apply WalExample.named_ok|by apply (bool_decide_unpack _); vm_compute|by vm_compute|].
  apply rtc_once. eapply step_open. by vm_compute.
Defined.

Lemma try_reclaim_terminates_witness :
  exists q, Wal.push_segments 0 (Wal.segments RecoveryExample.w) score_empty = Ret q /\
  Wal.reclaim_loop 10 (Wal.segments RecoveryExample.w) q 0 4096 =
  Wal.reclaim_loop 4 (Wal.segments RecoveryExample.w) q 0 4096.
Proof.
  eexists. split; [by vm_compute|].
  apply (try_reclaim_terminates RecoveryExample.w); [by vm_compute|]. vm_compute. lia.
Defined.
