(* ===== verification/IoLoop.v ===== *)
(** * The I/O loop

    [components/store/src/io/uring.rs], with its tasks ([task.rs]) and the contexts of the I/O
    in flight ([context.rs]).  The kernel appears through what it answers: the completions
    of the data ring, with the bytes that a read put into its buffer, the completions of the
    control ring, and whether the entries fit into the submission queue.

    A buffer of the log writer is shared by the writer, the writes in flight and the block
    cache.  A context of a write therefore names its buffer by its WAL offset, which no other
    buffer of the writer has; [deref] gives its present value: the one in the writer as long
    as the writer holds it, then the one that it had when it was handed out.  Cached blocks
    that are such buffers ([aliases]) are refreshed after each append. *)

From S2P Require Import Prelude Bytes StoreTypes Index Collections AlignedBuf BlockCache Segment Record Wal WriteWindow.

(** ** [task.rs] *)

Module ReadTask.
Record t := mk {
  stream_id : Z;               (* u64 *)
  range : Z;                   (* u32 *)
  offset : Z;                  (* u64 *)
  wal_offset : Z;              (* u64 *)
  len : Z;                     (* u32 *)
  observer : Z;                (* the channel that gets the result *)
}.
End ReadTask.

Module SingleFetchResult.
Record t := mk {
  stream_id : Z;               (* u64 *)
  range : Z;                   (* u32 *)
  offset : Z;                  (* u64 *)
  wal_offset : Z;              (* i64 *)
  payload : list (list byte);
}.
Definition total_len (r : t) : Z := Bytes.remaining (concat (payload r)).
End SingleFetchResult.

Module WriteTask.
Record t := mk {
  stream_id : Z;               (* u64 *)
  range : Z;                   (* u32 *)
  offset : Z;                  (* u64 *)
  len : Z;                     (* u32 *)
  buffer : list byte;
  written_len : option Z;      (* u32 *)
  observer : Z;
}.
Definition set_written_len (t : t) (n : Z) : WriteTask.t :=
  mk (stream_id t) (range t) (offset t) (len t) (buffer t) (Some n) (observer t).

Definition total_len (t : t) : outcome Z :=
  n ← u32_add (as_uint 32 (remaining (buffer t))) 4;
  n ← u32_add n 3;
  u32_add n 1.
End WriteTask.

Inductive IoTask :=
| TaskRead (task : ReadTask.t)
| TaskWrite (task : WriteTask.t).

(** ** [context.rs] *)

Inductive Opcode := OpRead | OpWrite.

(** The buffer of a read belongs to its context; the one of a write is the writer's. *)
Inductive buf_ref :=
| Own (b : abuf)
| Shared (wal_offset : Z).

Module Context.
Record t := mk {
  opcode : Opcode;
  buf : buf_ref;
  wal_offset : Z;              (* u64 *)
  len : Z;                     (* u32 *)
}.
Definition write_ctx (buf : buf_ref) (wal_offset len : Z) : t := mk OpWrite buf wal_offset len.
Definition read_ctx (buf : buf_ref) (wal_offset len : Z) : t := mk OpRead buf wal_offset len.

(** [b] is the present value of the buffer. *)
Definition is_partial_write (c : t) (b : abuf) : bool :=
  match opcode c with
  | OpRead => false
  | OpWrite => AlignedBuf.partial b || (len c <? as_uint 32 (AlignedBuf.limit b))
  end.
End Context.

(** An entry of the data ring: [len] bytes at [offset] of the file. *)
Module DataSqe.
Record t := mk { opcode : Opcode; fd : Z; offset : Z; len : Z; ctx : Context.t }.
End DataSqe.

(** A completion: the context, the result of the system call, and the bytes that a read has
    put into its buffer. *)
Module Cqe.
Record t := mk { ctx : Context.t; result : Z; bytes : list byte }.
End Cqe.

(** What the loop sends: index entries, and results to the observers of its tasks. *)
Inductive IoEvent :=
| Indexed (r : record)
| Appended (observer : Z) (r : result AppendResult.t AppendError.t)
| Fetched (observer : Z) (r : result SingleFetchResult.t FetchError.t).

(** The part of the configuration that the loop uses. *)
Module Options.
Record t := mk {
  store : Config.t;
  io_size : Z;                 (* usize *)
  queue_depth : Z;             (* u32 *)
  pre_allocate_segment_file_number : nat;
}.
End Options.

(** ** [uring.rs] *)

Module IO.
Section io.
Context {S : SkipListApi} {R : RingApi} {P : PercentageApi} {Q : ScoreListApi}
  {B : BytesApi} {C : Crc32Api} {M : MetaApi}.

Record t := mk {
  options : Options.t;
  wal : Wal.t S R;
  channel_disconnected : bool;
  inflight : Z;                                   (* usize *)
  pending_data_tasks : list IoTask;               (* VecDeque *)
  buf_writer : AlignedBufWriter.t;
  write_window : WriteWindow.t;
  inflight_write_tasks : @BTreeMap.t WriteTask.t; (* by the end of the record *)
  inflight_read_tasks : @BTreeMap.t (list ReadTask.t); (* by the segment *)
  barrier : gset Z;
  blocked : gmap Z (Context.t * DataSqe.t);
  resubmit_sqes : list DataSqe.t;
  sent : list IoEvent;
  handed : gmap Z abuf;         (* the writer's buffers as they were handed out *)
  aliases : gset Z;             (* the cached blocks that are buffers of the writer *)
}.

Definition set_wal (io : t) (w : Wal.t S R) : t :=
  mk (options io) w (channel_disconnected io) (inflight io) (pending_data_tasks io) (buf_writer io)
    (write_window io) (inflight_write_tasks io) (inflight_read_tasks io) (barrier io) (blocked io)
    (resubmit_sqes io) (sent io) (handed io) (aliases io).
Definition set_disconnected (io : t) : t :=
  mk (options io) (wal io) true (inflight io) (pending_data_tasks io) (buf_writer io)
    (write_window io) (inflight_write_tasks io) (inflight_read_tasks io) (barrier io) (blocked io)
    (resubmit_sqes io) (sent io) (handed io) (aliases io).
Definition set_inflight (io : t) (n : Z) : t :=
  mk (options io) (wal io) (channel_disconnected io) n (pending_data_tasks io) (buf_writer io)
    (write_window io) (inflight_write_tasks io) (inflight_read_tasks io) (barrier io) (blocked io)
    (resubmit_sqes io) (sent io) (handed io) (aliases io).
Definition set_pending (io : t) (l : list IoTask) : t :=
  mk (options io) (wal io) (channel_disconnected io) (inflight io) l (buf_writer io)
    (write_window io) (inflight_write_tasks io) (inflight_read_tasks io) (barrier io) (blocked io)
    (resubmit_sqes io) (sent io) (handed io) (aliases io).
Definition set_writer (io : t) (w : AlignedBufWriter.t) : t :=
  mk (options io) (wal io) (channel_disconnected io) (inflight io) (pending_data_tasks io) w
    (write_window io) (inflight_write_tasks io) (inflight_read_tasks io) (barrier io) (blocked io)
    (resubmit_sqes io) (sent io) (handed io) (aliases io).
Definition set_window (io : t) (w : WriteWindow.t) : t :=
  mk (options io) (wal io) (channel_disconnected io) (inflight io) (pending_data_tasks io) (buf_writer io)
    w (inflight_write_tasks io) (inflight_read_tasks io) (barrier io) (blocked io)
    (resubmit_sqes io) (sent io) (handed io) (aliases io).
Definition set_writes (io : t) (m : @BTreeMap.t WriteTask.t) : t :=
  mk (options io) (wal io) (channel_disconnected io) (inflight io) (pending_data_tasks io) (buf_writer io)
    (write_window io) m (inflight_read_tasks io) (barrier io) (blocked io)
    (resubmit_sqes io) (sent io) (handed io) (aliases io).
Definition set_reads (io : t) (m : @BTreeMap.t (list ReadTask.t)) : t :=
  mk (options io) (wal io) (channel_disconnected io) (inflight io) (pending_data_tasks io) (buf_writer io)
    (write_window io) (inflight_write_tasks io) m (barrier io) (blocked io)
    (resubmit_sqes io) (sent io) (handed io) (aliases io).
Definition set_barrier (io : t) (b : gset Z) : t :=
  mk (options io) (wal io) (channel_disconnected io) (inflight io) (pending_data_tasks io) (buf_writer io)
    (write_window io) (inflight_write_tasks io) (inflight_read_tasks io) b (blocked io)
    (resubmit_sqes io) (sent io) (handed io) (aliases io).
Definition set_blocked (io : t) (b : gmap Z (Context.t * DataSqe.t)) : t :=
  mk (options io) (wal io) (channel_disconnected io) (inflight io) (pending_data_tasks io) (buf_writer io)
    (write_window io) (inflight_write_tasks io) (inflight_read_tasks io) (barrier io) b
    (resubmit_sqes io) (sent io) (handed io) (aliases io).
Definition set_resubmit (io : t) (l : list DataSqe.t) : t :=
  mk (options io) (wal io) (channel_disconnected io) (inflight io) (pending_data_tasks io) (buf_writer io)
    (write_window io) (inflight_write_tasks io) (inflight_read_tasks io) (barrier io) (blocked io)
    l (sent io) (handed io) (aliases io).
Definition send (io : t) (e : IoEvent) : t :=
  mk (options io) (wal io) (channel_disconnected io) (inflight io) (pending_data_tasks io) (buf_writer io)
    (write_window io) (inflight_write_tasks io) (inflight_read_tasks io) (barrier io) (blocked io)
    (resubmit_sqes io) (sent io ++ [e]) (handed io) (aliases io).
Definition set_handed (io : t) (m : gmap Z abuf) : t :=
  mk (options io) (wal io) (channel_disconnected io) (inflight io) (pending_data_tasks io) (buf_writer io)
    (write_window io) (inflight_write_tasks io) (inflight_read_tasks io) (barrier io) (blocked io)
    (resubmit_sqes io) (sent io) m (aliases io).
Definition set_aliases (io : t) (s : gset Z) : t :=
  mk (options io) (wal io) (channel_disconnected io) (inflight io) (pending_data_tasks io) (buf_writer io)
    (write_window io) (inflight_write_tasks io) (inflight_read_tasks io) (barrier io) (blocked io)
    (resubmit_sqes io) (sent io) (handed io) s.

Definition alignment (io : t) : Z := Config.alignment (Options.store (options io)).
Definition segment_size (io : t) : Z := Config.segment_size (Options.store (options io)).

Definition new (o : Options.t) (control_ring : ring) : t :=
  mk o (Wal.new control_ring (Options.store o)) false 0 []
    (AlignedBufWriter.new 0 (Config.alignment (Options.store o))) (WriteWindow.new 0) [] [] ∅ ∅ [] [] ∅ ∅.

(** *** Shared buffers *)

Definition writer_bufs (io : t) : list abuf :=
  AlignedBufWriter.full (buf_writer io) ++ option_list (AlignedBufWriter.current (buf_writer io)).

Definition find_buf (offset : Z) (l : list abuf) : option abuf :=
  List.find (fun b => AlignedBuf.wal_offset b =? offset) l.

(** The present value of the buffer of a context. *)
Definition deref (io : t) (r : buf_ref) : outcome abuf :=
  match r with
  | Own b => Ret b
  | Shared o =>
      match find_buf o (writer_bufs io), handed io !! o with
      | Some b, _ => Ret b
      | None, Some b => Ret b
      | None, None => Panic
      end
  end.

Definition update_segment (io : t) (i : nat) (s : LogSegment.t S) : t :=
  set_wal io (Wal.set_segments (wal io) (<[i := s]> (Wal.segments (wal io)))).
Definition update_cache (io : t) (i : nat) (s : LogSegment.t S) (c : BlockCache.t S) : t :=
  update_segment io i (LogSegment.set_cache s c).

(** The cached block of [s] at the offset of [b], if there is one, is [b]. *)
Definition refresh_entry (s : LogSegment.t S) (b : abuf) : LogSegment.t S :=
  let c := LogSegment.block_cache s in
  let k := as_uint 32 (AlignedBuf.wal_offset b - BlockCache.wal_offset c) in
  match BTreeMap.get (BlockCache.entries c) k with
  | Some (Entry.mk hit at_ rc r (Some _)) =>
      LogSegment.set_cache s
        (BlockCache.set_entries c (BTreeMap.insert (BlockCache.entries c) k (Entry.mk hit at_ rc r (Some b))))
  | _ => s
  end.

Fixpoint refresh_loop (io : t) (l : list abuf) : outcome t :=
  match l with
  | [] => Ret io
  | b :: l =>
      if bool_decide (AlignedBuf.wal_offset b ∈ aliases io) then
        found ← Wal.segment_file_of (wal io) (AlignedBuf.wal_offset b);
        match found with
        | Some (i, s) => refresh_loop (update_segment io i (refresh_entry s b)) l
        | None => refresh_loop io l
        end
      else refresh_loop io l
  end.
Definition refresh_cache (io : t) : outcome t := refresh_loop io (writer_bufs io).

(** *** Start-up *)

Definition load (io : t) (read_dir : result (list DirEntry.t) StoreError.t)
    (opens : Z -> result (Z * Z) StoreError.t * option Z) : outcome (result unit StoreError.t * t) :=
  '(r, w) ← Wal.load_from_paths (wal io) read_dir opens;
  Ret (r, set_wal io w).

(** The partly filled block at the end of the log becomes the current buffer of the writer. *)
Definition rebase (io : t) (pos : Z) : outcome t :=
  found ← Wal.segment_file_of (wal io) pos;
  match found with
  | Some (_, s) =>
      match BlockCache.buf_of_last_cache_entry (LogSegment.block_cache s) with
      | Some b =>
          r ← AlignedBuf.remaining b;
          Ret (if 0 <? r then
                 set_aliases (set_writer io (AlignedBufWriter.rebase_buf (buf_writer io) b))
                   ({[AlignedBuf.wal_offset b]} ∪ aliases io)
               else io)
      | None => Ret io
      end
  | None => Ret io
  end.

Definition recover (io : t) (files : Z -> list byte) (offset now : Z)
    : outcome (result unit StoreError.t * t) :=
  '(r, w, out) ← Wal.recover (wal io) files offset now;
  let io := foldl (fun io r => send io (Indexed r)) (set_wal io w) out in
  match r with
  | Err e => Ret (Err e, io)
  | Ok pos =>
      io ← rebase (set_writer io (AlignedBufWriter.reset_cursor (buf_writer io) pos)) pos;
      Ret (Ok (), set_window io (WriteWindow.reset_committed (write_window io) pos))
  end.

(** *** Receiving tasks *)

Definition validate_io_task (task : IoTask) : bool :=
  match task with
  | TaskWrite task => match WriteTask.buffer task with [] => false | _ => true end
  | TaskRead _ => true
  end.

Definition on_bad_request (io : t) (task : IoTask) : outcome t :=
  match task with
  | TaskRead _ => Panic (* todo! *)
  | TaskWrite task => Ret (send io (Appended (WriteTask.observer task) (Err AppendError.Internal)))
  end.

(** The state with the numbers of tasks received and bytes buffered. *)
Definition add_pending_task (io : t) (task : IoTask) (received buffered : Z) : outcome (t * Z * Z) :=
  if negb (validate_io_task task) then
    io ← on_bad_request io task; Ret (io, received, buffered)
  else
    buffered ←
      match task with
      | TaskWrite task => usize_add buffered (remaining (WriteTask.buffer task))
      | TaskRead _ => Ret buffered
      end;
    received ← usize_add received 1;
    Ret (set_pending io (pending_data_tasks io ++ [task]), received, buffered).

Definition busy (io : t) (received : Z) : Z :=
  inflight io + received + Z.of_nat (length (pending_data_tasks io)) + Z.of_nat (size (blocked io))
  + Z.of_nat (size (Wal.inflight_control_tasks (wal io))).

(** [chan] holds the tasks in the channel, [disconnected] tells whether all senders are gone.
    The call waits for a task when there is nothing to do and the channel is empty, which is
    [None].  Returns the state, the rest of the channel, the number of tasks received and
    whether the thread was suspended. *)
Fixpoint receive_loop (io : t) (sq_entries : Z) (chan : list IoTask) (disconnected suspended : bool)
    (received buffered : Z) {struct chan} : outcome (option (t * list IoTask * Z * bool)) :=
  if (Options.io_size (options io) <=? buffered) || (sq_entries <=? inflight io + received)
  then Ret (Some (io, chan, received, suspended))
  else
    let suspended := suspended || (busy io received =? 0) in
    match chan with
    | task :: chan =>
        '(io, received, buffered) ← add_pending_task io task received buffered;
        receive_loop io sq_entries chan disconnected suspended received buffered
    | [] =>
        if disconnected then Ret (Some (set_disconnected io, [], received, suspended))
        else if busy io received =? 0 then Ret None
        else Ret (Some (io, [], received, suspended))
    end.

Definition receive_io_tasks (io : t) (sq_entries : Z) (chan : list IoTask) (disconnected : bool)
    : outcome (option (t * list IoTask * Z * bool)) :=
  receive_loop io sq_entries chan disconnected false 0 0.

(** *** Room for the pending writes *)

Definition task_len (task : IoTask) : outcome Z :=
  match task with TaskWrite task => WriteTask.total_len task | TaskRead _ => Ret 0 end.

Fixpoint requirements (l : list IoTask) : outcome (list Z) :=
  match l with
  | [] => Ret []
  | task :: l =>
      n ← task_len task;
      rest ← requirements l;
      Ret (if 0 <? n then n :: rest else rest)
  end.

Fixpoint sum_usize (acc : Z) (l : list Z) : outcome Z :=
  match l with [] => Ret acc | n :: l => acc ← usize_add acc n; sum_usize acc l end.

(** What the two loops of [reserve_write_buffers] work on. *)
Record reserving := mk_reserving {
  writer : AlignedBufWriter.t;
  requirement : list Z;
  pos : Z;                     (* usize *)
  max_allocated : Z;           (* u64 *)
  to_allocate : Z;             (* usize *)
}.

(** [reserve_to], and the end of the buffers after it. *)
Definition reserve_more (w : AlignedBufWriter.t) (max_allocated extra file_size : Z)
    : outcome (result Z StoreError.t * AlignedBufWriter.t) :=
  to ← u64_add max_allocated extra;
  '(r, w) ← AlignedBufWriter.reserve_to w to file_size;
  match r with
  | Err e => Ret (Err e, w)
  | Ok _ => m ← AlignedBufWriter.max_allocated_wal_offset w; Ret (Ok m, w)
  end.

(** The tasks for which buffers are there; [allocated] is what is left of these.  A round
    takes a task or goes on to the next segment, where a task that fits into a segment is
    taken by the next round. *)
Fixpoint reuse_loop (fuel : nat) (st : reserving) (allocated file_size : Z)
    : outcome (result reserving StoreError.t * AlignedBufWriter.t) :=
  match fuel with
  | O => Panic
  | Datatypes.S fuel =>
      match requirement st with
      | [] => Ret (Ok st, writer st)
      | n :: rest =>
          if negb (0 <? allocated) then Ret (Ok st, writer st)
          else
          to ← usize_add (pos st) n;
          to ← usize_add to FOOTER_LENGTH;
          if file_size <? to then
            left ← uint_sub file_size (pos st);
            if left <=? allocated then
              reuse_loop fuel (mk_reserving (writer st) (n :: rest) 0 (max_allocated st) (to_allocate st))
                (allocated - left) file_size
            else
              '(r, w) ← reserve_more (writer st) (max_allocated st) (left - allocated) file_size;
              match r with
              | Err e => Ret (Err e, w)
              | Ok m => reuse_loop fuel (mk_reserving w (n :: rest) 0 m (to_allocate st)) 0 file_size
              end
          else if n <=? allocated then
            reuse_loop fuel (mk_reserving (writer st) rest (pos st + n) (max_allocated st) (to_allocate st))
              (allocated - n) file_size
          else
            more ← usize_add (to_allocate st) (n - allocated);
            Ret (Ok (mk_reserving (writer st) rest (pos st + n) (max_allocated st) more), writer st)
      end
  end.

(** The remaining tasks. *)
Fixpoint alloc_loop (fuel : nat) (st : reserving) (file_size : Z)
    : outcome (result unit StoreError.t * AlignedBufWriter.t) :=
  match fuel with
  | O => Panic
  | Datatypes.S fuel =>
      match requirement st with
      | [] =>
          if 0 <? to_allocate st then
            to ← u64_add (max_allocated st) (to_allocate st);
            AlignedBufWriter.reserve_to (writer st) to file_size
          else Ret (Ok (), writer st)
      | n :: rest =>
          to ← usize_add (pos st) n;
          to ← usize_add to FOOTER_LENGTH;
          if file_size <? to then
            left ← uint_sub file_size (pos st);
            more ← usize_add (to_allocate st) left;
            '(r, w) ← reserve_more (writer st) (max_allocated st) more file_size;
            match r with
            | Err e => Ret (Err e, w)
            | Ok m => alloc_loop fuel (mk_reserving w (n :: rest) 0 m 0) file_size
            end
          else
            more ← usize_add (to_allocate st) n;
            alloc_loop fuel (mk_reserving (writer st) rest (pos st + n) (max_allocated st) more) file_size
      end
  end.

Definition reserve_write_buffers (io : t) : outcome (result unit StoreError.t * t) :=
  requirement ← requirements (pending_data_tasks io);
  requiring ← sum_usize 0 requirement;
  allocated ← AlignedBufWriter.remaining (buf_writer io);
  if requiring <=? allocated then Ret (Ok (), io)
  else
  let file_size := segment_size io in
  pos ← uint_rem (AlignedBufWriter.cursor (buf_writer io)) file_size;
  m ← AlignedBufWriter.max_allocated_wal_offset (buf_writer io);
  let fuel := (2 * length requirement + 2)%nat in
  '(r, w) ← reuse_loop fuel (mk_reserving (buf_writer io) requirement pos m 0) allocated file_size;
  match r with
  | Err e => Ret (Err e, set_writer io w)
  | Ok st => '(r, w) ← alloc_loop fuel st file_size; Ret (r, set_writer io w)
  end.

(** *** Turning tasks into entries of the ring *)

(** The slices of the buffers that fall into the range of the task. *)
Fixpoint slices (task : ReadTask.t) (bufs : list abuf) : outcome (list (list byte)) :=
  match bufs with
  | [] => Ret []
  | b :: bufs =>
      x ← LogSegment.narrow (ReadTask.wal_offset task) (ReadTask.len task) b;
      xs ← slices task bufs;
      Ret (x :: xs)
  end.

Definition complete_read_task (io : t) (task : ReadTask.t) (bufs : list abuf) : outcome t :=
  payload ← slices task bufs;
  Ret (send io (Fetched (ReadTask.observer task)
    (Ok (SingleFetchResult.mk (ReadTask.stream_id task) (ReadTask.range task) (ReadTask.offset task)
           (as_sint 64 (ReadTask.wal_offset task)) payload)))).

(** What the loop over the pending tasks works on: the cache space that is left, whether
    there is something to write, and the ranges to load and to reference, by segment. *)
Record building := mk_building {
  io : t;
  free_bytes : Z;              (* i64 *)
  need_write : bool;
  missed_entries : gmap Z (list EntryRange.t);
  strong_referenced_entries : gmap Z (list EntryRange.t);
}.
Definition with_io (st : building) (io : t) : building :=
  mk_building io (free_bytes st) (need_write st) (missed_entries st) (strong_referenced_entries st).

Definition push_at {A} (m : gmap Z (list A)) (k : Z) (l : list A) : gmap Z (list A) :=
  <[k := default [] (m !! k) ++ l]> m.

Inductive control (A : Type) := Continue (a : A) | Break (a : A).
#[global] Arguments Continue {A}.
#[global] Arguments Break {A}.

(** The task waits for the blocks of its range. *)
Definition await_read (st : building) (seg : Z) (task : ReadTask.t) (range : EntryRange.t) : building :=
  let io := io st in
  let tasks := default [] (BTreeMap.get (inflight_read_tasks io) seg) in
  mk_building (set_reads io (BTreeMap.insert (inflight_read_tasks io) seg (tasks ++ [task])))
    (free_bytes st) (need_write st) (missed_entries st)
    (push_at (strong_referenced_entries st) seg [range]).

Fixpoint sum_ranges (acc : Z) (l : list EntryRange.t) : outcome Z :=
  match l with [] => Ret acc | r :: l => acc ← u32_add acc (EntryRange.len r); sum_ranges acc l end.

Definition push_front (io : t) (task : IoTask) : t := set_pending io (task :: pending_data_tasks io).

(** A read task, which has been popped. *)
Definition read_step (st : building) (task : ReadTask.t) (now : Z) : outcome (control building) :=
  let i := io st in
  found ← Wal.segment_file_of (wal i) (ReadTask.wal_offset task);
  match found with
  | None =>
      Ret (Continue (with_io st (send i (Fetched (ReadTask.observer task) (Err FetchError.BadRequest)))))
  | Some (n, s) =>
      match LogSegment.sd s with
      | None => Ret (Continue (with_io st (push_front i (TaskRead task))))
      | Some _ =>
          range ← EntryRange.new (ReadTask.wal_offset task) (ReadTask.len task) (alignment i);
          '(res, c) ← BlockCache.try_get_entries (LogSegment.block_cache s) range now;
          let i := update_cache i n s c in
          let seg := LogSegment.wal_offset s in
          match res with
          | Ok (Some bufs) => i ← complete_read_task i task bufs; Ret (Continue (with_io st i))
          | Ok None => Ret (Continue (await_read (with_io st i) seg task range))
          | Err entries =>
              total_len ← sum_ranges 0 entries;
              free ← sint_sub 64 (free_bytes st) total_len;
              if 0 <=? free then
                Ret (Continue (await_read
                  (mk_building i free (need_write st) (push_at (missed_entries st) seg entries)
                     (strong_referenced_entries st)) seg task range))
              else
                Ret (Break (mk_building (push_front i (TaskRead task)) free (need_write st)
                              (missed_entries st) (strong_referenced_entries st)))
          end
      end
  end.

(** A write task, which has been popped; [None] when the rounds given by [fuel] do not end the
    loop.  Each round takes the length of the payload from the free space, so
    [free_bytes / payload + 2] rounds are enough. *)
Fixpoint write_loop (fuel : nat) (st : building) (task : WriteTask.t) : outcome (option (control building)) :=
  match fuel with
  | O => Ret None
  | Datatypes.S fuel =>
      let i := io st in
      let payload_length := remaining (WriteTask.buffer task) in
      free ← sint_sub 64 (free_bytes st) payload_length;
      let st := mk_building i free (need_write st) (missed_entries st) (strong_referenced_entries st) in
      let yield := Ret (Some (Break (with_io st (push_front i (TaskWrite task))))) in
      if free <? 0 then yield
      else
      found ← Wal.segment_file_of (wal i) (AlignedBufWriter.cursor (buf_writer i));
      match found with
      | None => yield
      | Some (n, s) =>
          if negb (LogSegment.writable s) then yield
          else
          match LogSegment.sd s with
          | None => Panic (* unreachable! *)
          | Some _ =>
              hold ← LogSegment.can_hold s payload_length;
              if negb hold then
                '(r, s, w) ← LogSegment.append_footer s (buf_writer i);
                i ← refresh_cache (set_writer (update_segment i n s) w);
                let need := match r with Ok _ => true | Err _ => need_write st end in
                write_loop fuel
                  (mk_building i free need (missed_entries st) (strong_referenced_entries st)) task
              else
                let pre_written := LogSegment.written s in
                '(r, s, w) ← LogSegment.append_record s (buf_writer i) (WriteTask.buffer task);
                i ← refresh_cache (set_writer (update_segment i n s) w);
                match r with
                | Err _ => Ret (Some (Continue (with_io st i))) (* the task is dropped *)
                | Ok cursor =>
                    written ← uint_sub (LogSegment.written s) pre_written;
                    let task := WriteTask.set_written_len task (as_uint 32 written) in
                    Ret (Some (Continue
                      (mk_building (set_writes i (BTreeMap.insert (inflight_write_tasks i) cursor task))
                         free true (missed_entries st) (strong_referenced_entries st))))
                end
          end
      end
  end.

Definition write_step (st : building) (task : WriteTask.t) : outcome (control building) :=
  res ← write_loop (Z.to_nat (free_bytes st / remaining (WriteTask.buffer task)) + 2) st task;
  match res with Some res => Ret res | None => Panic (* never: the rounds are enough *) end.

(** An iteration of the loop over the pending tasks. *)
Definition task_step (st : building) (now : Z) : outcome (control building) :=
  match pending_data_tasks (io st) with
  | [] => Ret (Break st)
  | TaskRead task :: rest => read_step (with_io st (set_pending (io st) rest)) task now
  | TaskWrite task :: rest => write_step (with_io st (set_pending (io st) rest)) task
  end.

(** [None] when the rounds given by [fuel] do not end the loop. *)
Fixpoint task_loop (fuel : nat) (st : building) (now : Z) : outcome (option building) :=
  match fuel with
  | O => Ret None
  | Datatypes.S fuel =>
      res ← task_step st now;
      match res with Continue st => task_loop fuel st now | Break st => Ret (Some st) end
  end.

(** The entries for the blocks of a segment that are missing in the cache. *)
Fixpoint read_sqes (io : t) (seg : Z) (ranges : list EntryRange.t) (now : Z)
    : outcome (t * list DataSqe.t) :=
  match ranges with
  | [] => Ret (io, [])
  | range :: ranges =>
      res ← alloc_read_buf (EntryRange.wal_offset range) (EntryRange.len range) (alignment io);
      match res with
      | Err _ => read_sqes io seg ranges now
      | Ok b =>
          let read_len := as_uint 32 (AlignedBuf.capacity b) in
          found ← Wal.segment_file_of (wal io) seg;
          match found with
          | None => Panic (* todo! *)
          | Some (i, s) =>
              read_from ← uint_sub (AlignedBuf.wal_offset b) (LogSegment.wal_offset s);
              match LogSegment.sd s with
              | None => read_sqes io seg ranges now
              | Some fd =>
                  let ctx := Context.read_ctx (Own b) (AlignedBuf.wal_offset b) read_len in
                  c ← BlockCache.add_loading_entry (LogSegment.block_cache s) range now;
                  '(io, sqes) ← read_sqes (update_cache io i s c) seg ranges now;
                  Ret (io, DataSqe.mk OpRead fd read_from read_len ctx :: sqes)
              end
          end
      end
  end.

Fixpoint build_read_loop (io : t) (l : list (Z * list EntryRange.t)) (now : Z)
    : outcome (t * list DataSqe.t) :=
  match l with
  | [] => Ret (io, [])
  | (seg, ranges) :: l =>
      merged ← EntryRange.merge ranges;
      '(io, sqes) ← read_sqes io seg merged now;
      '(io, sqes') ← build_read_loop io l now;
      Ret (io, sqes ++ sqes')
  end.

(** The order of a hash map is not specified; here it is the one of [map_to_list]. *)
Definition build_read_sqe (io : t) (missed : gmap Z (list EntryRange.t)) (now : Z)
    : outcome (t * list DataSqe.t) := build_read_loop io (map_to_list missed) now.

Fixpoint reference_ranges (c : BlockCache.t S) (l : list EntryRange.t) : outcome (BlockCache.t S) :=
  match l with
  | [] => Ret c
  | r :: l => c ← BlockCache.strong_reference_entries c r 1; reference_ranges c l
  end.

Fixpoint reference_loop (io : t) (l : list (Z * list EntryRange.t)) : outcome t :=
  match l with
  | [] => Ret io
  | (seg, ranges) :: l =>
      found ← Wal.segment_file_of (wal io) seg;
      match found with
      | None => reference_loop io l
      | Some (i, s) =>
          c ← reference_ranges (LogSegment.block_cache s) ranges;
          reference_loop (update_cache io i s c) l
      end
  end.

(** *** Writing the log *)

Definition is_blocked (io : t) (offset : Z) : bool := bool_decide (offset ∈ barrier io).

Definition has_write_sqe_unblocked (io : t) : bool :=
  existsb (fun '(o, _) => negb (is_blocked io o)) (map_to_list (blocked io)).

(** The blocked writes whose barrier is gone; one that is itself partial sets a new one. *)
Fixpoint unblock_loop (io : t) (l : list (Z * (Context.t * DataSqe.t))) : outcome (t * list DataSqe.t) :=
  match l with
  | [] => Ret (io, [])
  | (o, (ctx, sqe)) :: l =>
      if is_blocked io o then unblock_loop io l
      else
      b ← deref io (Context.buf ctx);
      let io := set_blocked io (delete o (blocked io)) in
      let io :=
        if Context.is_partial_write ctx b
        then set_barrier io ({[Context.wal_offset ctx]} ∪ barrier io) else io in
      '(io, sqes) ← unblock_loop io l;
      Ret (io, sqe :: sqes)
  end.

(** A buffer that [take] hands out; [None] when the write is blocked. *)
Definition write_buffer (io : t) (b : abuf) : outcome (t * option DataSqe.t) :=
  let o := AlignedBuf.wal_offset b in
  found ← Wal.segment_file_of (wal io) o;
  match found with
  | None => Ret (io, None)
  | Some (_, s) =>
      match LogSegment.sd s with
      | None => Panic
      | Some fd =>
          file_offset ← uint_sub o (LogSegment.wal_offset s);
          let buf_limit := as_uint 32 (AlignedBuf.limit b) in
          let ctx := Context.write_ctx (Shared o) o buf_limit in
          let sqe := DataSqe.mk OpWrite fd file_offset (as_uint 32 (AlignedBuf.capacity b)) ctx in
          if is_blocked io o then
            match blocked io !! o with
            | Some (prev, _) =>
                if Context.len prev <=? buf_limit
                then Ret (set_blocked io (<[o := (ctx, sqe)]> (blocked io)), None)
                else Panic (* unreachable! *)
            | None => Ret (set_blocked io (<[o := (ctx, sqe)]> (blocked io)), None)
            end
          else
            let io := if AlignedBuf.partial b then set_barrier io ({[o]} ∪ barrier io) else io in
            Ret (io, Some sqe)
      end
  end.

(** Only buffers with data that is not committed are written. *)
Fixpoint write_buffers (io : t) (l : list abuf) : outcome (t * list DataSqe.t) :=
  match l with
  | [] => Ret (io, [])
  | b :: l =>
      end_ ← u64_add (AlignedBuf.wal_offset b) (AlignedBuf.limit b);
      if WriteWindow.committed (write_window io) <? end_ then
        '(io, sqe) ← write_buffer io b;
        '(io, sqes) ← write_buffers io l;
        Ret (io, option_list sqe ++ sqes)
      else write_buffers io l
  end.

Definition hand_out (io : t) (l : list abuf) : t :=
  set_handed io (foldl (fun m b => <[AlignedBuf.wal_offset b := b]> m) (handed io) l).

Definition build_write_sqe (io : t) : outcome (t * list DataSqe.t) :=
  '(io, sqes) ← unblock_loop io (map_to_list (blocked io));
  slots ← uint_sub (Options.queue_depth (options io)) (inflight io);
  let '(items, w) := AlignedBufWriter.take (buf_writer io) (Z.to_nat slots) in
  '(io, sqes') ← write_buffers (hand_out (set_writer io w) items) items;
  Ret (io, sqes ++ sqes').

(** A loop over the tasks that does not end within a round for each of them never does, and
    there is no result. *)
Definition build_sqe (i : t) (now : Z) : outcome (t * list DataSqe.t) :=
  '(r, i) ← reserve_write_buffers i;
  match r with
  | Err _ => Ret (i, [])
  | Ok _ =>
      '((_, free), w) ← Wal.try_reclaim (wal i) 0;
      res ← task_loop (Datatypes.S (length (pending_data_tasks i)))
              (mk_building (set_wal i w) (as_sint 64 free) (AlignedBufWriter.buffering (buf_writer i)) ∅ ∅) now;
      match res with
      | None => Panic
      | Some st =>
          '(i, entries) ← build_read_sqe (io st) (missed_entries st) now;
          i ← reference_loop i (map_to_list (strong_referenced_entries st));
          '(i, writes) ←
            (if has_write_sqe_unblocked i || need_write st then build_write_sqe i else Ret (i, []));
          Ret (set_resubmit i [], entries ++ writes ++ resubmit_sqes i)
      end
  end.

(** [pushed]: whether the entries fit into the submission queue. *)
Definition submit_data_tasks (io : t) (entries : list DataSqe.t) (pushed : bool)
    : outcome (result unit StoreError.t * t) :=
  match entries with
  | [] => Ret (Ok (), io)
  | _ =>
      if pushed then
        n ← usize_add (inflight io) (Z.of_nat (length entries)); Ret (Ok (), set_inflight io n)
      else Ret (Err StoreError.IoUring, io)
  end.

(** *** Completions *)

Definition EINTR : Z := 4.
Definition EAGAIN : Z := 11.

(** [buf] is the present value of the buffer; returns it as it is after the completion. *)
Definition on_complete (w : WriteWindow.t) (ctx : Context.t) (buf : abuf) (res : Z)
    : outcome (result unit StoreError.t * WriteWindow.t * abuf) :=
  if res <? 0 then Ret (Err (StoreError.System (- res)), w, buf)
  else
  match Context.opcode ctx with
  | OpWrite =>
      if negb (res =? AlignedBuf.capacity buf) then Panic (* todo! *)
      else
        '(r, w) ← WriteWindow.commit w (Context.wal_offset ctx) (Context.len ctx);
        Ret (match r with Ok _ => Ok () | Err _ => Err StoreError.WriteWindow end, w, buf)
  | OpRead =>
      if negb (res =? as_sint 32 (Context.len ctx)) then Panic (* todo! *)
      else Ret (Ok (), w, AlignedBuf.increase_written buf res)
  end.

(** What a round of reaping gathers: the blocks for the cache, their bytes, and the segments
    that were read from. *)
Record reaping := mk_reaping {
  reaped : t;
  cache_entries : list (Opcode * abuf);
  cache_bytes : Z;             (* u32 *)
  affected_segments : gset Z;
}.

(** An operation that was interrupted or could not be served is submitted again, unless a
    newer write of the block is waiting. *)
Definition retry (io : t) (ctx : Context.t) (buf : abuf) : outcome t :=
  let o := Context.wal_offset ctx in
  if bool_decide (is_Some (blocked io !! o)) then Ret io
  else
  let io :=
    if AlignedBuf.partial buf
    then set_barrier io ({[AlignedBuf.wal_offset buf]} ∪ barrier io) else io in
  found ← Wal.segment_file_of (wal io) o;
  match found with
  | None => Ret io
  | Some (_, s) =>
      match LogSegment.sd s with
      | None => Ret io
      | Some fd =>
          file_offset ← uint_sub o (LogSegment.wal_offset s);
          let len :=
            match Context.opcode ctx with
            | OpRead => Context.len ctx
            | OpWrite => as_uint 32 (AlignedBuf.capacity buf)
            end in
          Ret (set_resubmit io
            (resubmit_sqes io ++ [DataSqe.mk (Context.opcode ctx) fd file_offset len ctx]))
      end
  end.

Definition is_write (op : Opcode) : bool := match op with OpWrite => true | OpRead => false end.

Definition reap_one (st : reaping) (cqe : Cqe.t) : outcome reaping :=
  let ctx := Cqe.ctx cqe in
  let io := reaped st in
  buf ← deref io (Context.buf ctx);
  let io :=
    if is_write (Context.opcode ctx)
    then set_barrier io (barrier io ∖ {[AlignedBuf.wal_offset buf]}) else io in
  buf ← (if is_write (Context.opcode ctx) then Ret buf else AlignedBuf.fill buf (Cqe.bytes cqe));
  '(r, w, buf) ← on_complete (write_window io) ctx buf (Cqe.result cqe);
  let io := set_window io w in
  match r with
  | Err (StoreError.System errno) =>
      if (errno =? EINTR) || (errno =? EAGAIN) then
        io ← retry io ctx buf;
        Ret (mk_reaping io (cache_entries st) (cache_bytes st) (affected_segments st))
      else Panic
  | Err _ => Panic
  | Ok _ =>
      n ← u32_add (cache_bytes st) (as_uint 32 (AlignedBuf.capacity buf));
      found ← (if is_write (Context.opcode ctx) then Ret None
               else Wal.segment_file_of (wal io) (Context.wal_offset ctx));
      Ret (mk_reaping io (cache_entries st ++ [(Context.opcode ctx, buf)]) n
             (match found with
              | Some (_, s) => {[LogSegment.wal_offset s]} ∪ affected_segments st
              | None => affected_segments st
              end))
  end.

Fixpoint reap_loop (st : reaping) (cqes : list Cqe.t) : outcome reaping :=
  match cqes with [] => Ret st | cqe :: cqes => st ← reap_one st cqe; reap_loop st cqes end.

(** A block that was written is a buffer of the writer, one that was read is not. *)
Fixpoint cache_loop (io : t) (l : list (Opcode * abuf)) (now : Z) : outcome t :=
  match l with
  | [] => Ret io
  | (op, b) :: l =>
      found ← Wal.segment_file_of (wal io) (AlignedBuf.wal_offset b);
      match found with
      | None => cache_loop io l now
      | Some (i, s) =>
          c ← BlockCache.add_entry (LogSegment.block_cache s) b now;
          let o := {[AlignedBuf.wal_offset b]} in
          let io := set_aliases io (if is_write op then o ∪ aliases io else aliases io ∖ o) in
          cache_loop (update_cache io i s c) l now
      end
  end.

(** The tasks that wait for blocks of a segment: those that are complete are answered. *)
Fixpoint finish_reads (io : t) (seg : Z) (tasks : list ReadTask.t) (now : Z)
    : outcome (t * list ReadTask.t) :=
  match tasks with
  | [] => Ret (io, [])
  | task :: tasks =>
      found ← Wal.segment_file_of (wal io) seg;
      '(io, back) ←
        match found with
        | None => Ret (io, [task])
        | Some (i, s) =>
            range ← EntryRange.new (ReadTask.wal_offset task) (ReadTask.len task) (alignment io);
            '(res, c) ← BlockCache.try_get_entries (LogSegment.block_cache s) range now;
            match res with
            | Ok (Some bufs) =>
                c ← BlockCache.strong_reference_entries c range (-1);
                io ← complete_read_task (update_cache io i s c) task bufs;
                Ret (io, [])
            | _ => Ret (update_cache io i s c, [task])
            end
        end;
      '(io, rest) ← finish_reads io seg tasks now;
      Ret (io, back ++ rest)
  end.

Fixpoint complete_read_tasks (io : t) (segs : list Z) (now : Z) : outcome t :=
  match segs with
  | [] => Ret io
  | seg :: segs =>
      match BTreeMap.get (inflight_read_tasks io) seg with
      | None => complete_read_tasks io segs now
      | Some tasks =>
          let io := set_reads io (BTreeMap.remove (inflight_read_tasks io) seg) in
          '(io, back) ← finish_reads io seg tasks now;
          let io :=
            match back with
            | [] => io
            | _ => set_reads io (BTreeMap.insert (inflight_read_tasks io) seg back)
            end in
          complete_read_tasks io segs now
      end
  end.

Definition acknowledge_to_observer (io : t) (wal_offset : Z) (task : WriteTask.t) : t :=
  send io (Appended (WriteTask.observer task)
    (Ok (AppendResult.mk (WriteTask.stream_id task) (WriteTask.range task) (WriteTask.offset task)
           (WriteTask.len task) wal_offset (as_uint 32 (remaining (WriteTask.buffer task)))))).

Definition build_read_index (io : t) (wal_offset written_len : Z) (task : WriteTask.t) : t :=
  send io (Indexed (IndexRecord.mk
    (RecordIndex.mk (WriteTask.stream_id task) (WriteTask.range task) (WriteTask.offset task))
    (RecordHandle.mk wal_offset written_len (HandleExt.BatchSize (WriteTask.len task))))).

(** The loop of [complete_write_tasks], by recursion on the map that it pops from. *)
Fixpoint ack_loop (io : t) (m : @BTreeMap.t WriteTask.t) : outcome t :=
  match m with
  | [] => Ret (set_writes io [])
  | (offset, task) :: rest =>
      if WriteWindow.committed (write_window io) <? offset then Ret (set_writes io m)
      else
      match WriteTask.written_len task with
      | None => ack_loop io rest
      | Some written_len =>
          wal_offset ← uint_sub offset written_len;
          ack_loop (acknowledge_to_observer (build_read_index io wal_offset written_len task)
                      wal_offset task) rest
      end
  end.
Definition complete_write_tasks (io : t) : outcome t := ack_loop io (inflight_write_tasks io).

Definition reap_data_tasks (io : t) (cqes : list Cqe.t) (now : Z) : outcome t :=
  if inflight io =? 0 then Ret io
  else
  let committed := WriteWindow.committed (write_window io) in
  st ← reap_loop (mk_reaping io [] 0 ∅) cqes;
  let io := reaped st in
  n ← uint_sub (inflight io) (Z.of_nat (length cqes));
  '(_, w) ← Wal.try_reclaim (wal io) (cache_bytes st);
  io ← cache_loop (set_wal (set_inflight io n) w) (cache_entries st) now;
  io ← complete_read_tasks io (elements (affected_segments st)) now;
  if committed <? WriteWindow.committed (write_window io) then complete_write_tasks io else Ret io.

(** *** The main loop *)

Definition buffered (io : t) : outcome Z :=
  uint_sub (AlignedBufWriter.cursor (buf_writer io)) (WriteWindow.committed (write_window io)).

Definition should_quit (io : t) : outcome bool :=
  if (inflight io =? 0) && bool_decide (pending_data_tasks io = []) && bool_decide (inflight_read_tasks io = [])
     && bool_decide (size (Wal.inflight_control_tasks (wal io)) = 0%nat)
  then b ← buffered io; Ret ((b =? 0) && channel_disconnected io)
  else Ret false.

(** Segments are opened until enough of them are writable; each adds one. *)
Fixpoint open_loop (fuel : nat) (io : t) : outcome (result unit StoreError.t * t) :=
  match fuel with
  | O => Panic
  | Datatypes.S fuel =>
      if (Options.pre_allocate_segment_file_number (options io) <? Wal.writable_segment_count (wal io))%nat
      then Ret (Ok (), io)
      else
        '(r, w) ← Wal.try_open_segment (wal io);
        match r with
        | Err e => Ret (Err e, set_wal io w)
        | Ok _ => open_loop fuel (set_wal io w)
        end
  end.

(** What the environment does during an iteration of the main loop. *)
Record inputs := mk_inputs {
  sq_entries : Z;
  chan : list IoTask;          (* the tasks in the channel *)
  disconnected : bool;         (* all senders are gone *)
  pushed : bool;               (* the submission queue takes the entries *)
  cqes : list DataSqe.t -> list Cqe.t; (* the completions, which may include new entries *)
  control_cqes : list (Z * Z);
  now : Z;
}.

(** Returns whether the loop ends; [None] when it waits for a task.  Waiting for completions
    changes nothing. *)
Definition iterate (io : t) (env : inputs) : outcome (option (result bool StoreError.t * t)) :=
  '(r, io) ← open_loop (Options.pre_allocate_segment_file_number (options io) + 2) io;
  match r with
  | Err e => Ret (Some (Err e, io))
  | Ok _ =>
  '(r, w) ← Wal.try_close_segment (wal io);
  let io := set_wal io w in
  match r with
  | Err e => Ret (Some (Err e, io))
  | Ok _ =>
  received ← receive_io_tasks io (sq_entries env) (chan env) (disconnected env);
  match received with
  | None => Ret None
  | Some (io, _, _, _) =>
  '(io, entries) ← build_sqe io (now env);
  '(r, io) ← submit_data_tasks io entries (pushed env);
  quit ← match entries with [] => should_quit io | _ => Ret false end;
  match r with
  | Err e => Ret (Some (Err e, io))
  | Ok _ =>
      if quit : bool then Ret (Some (Ok true, io))
      else
        io ← reap_data_tasks io (cqes env entries) (now env);
        w ← Wal.reap_control_tasks (wal io) (control_cqes env);
        Ret (Some (Ok false, set_wal io w))
  end end end end.

(** The start of [run]: [checkpoint] is what the indexer has stored. *)
Definition start (io : t) (read_dir : result (list DirEntry.t) StoreError.t)
    (opens : Z -> result (Z * Z) StoreError.t * option Z) (files : Z -> list byte) (checkpoint now : Z)
    : outcome (result unit StoreError.t * t) :=
  '(r, io) ← load io read_dir opens;
  match r with
  | Err e => Ret (Err e, io)
  | Ok _ => recover io files checkpoint now
  end.
End io.
Arguments t : clear implicits.
Arguments building : clear implicits.
Arguments reaping : clear implicits.
End IO.
