(* ===== verification/IoFrame.v ===== *)
(** * What the I/O loop leaves alone

    Reads, cache look-ups and the reclaiming of cache space change only the caches of the
    segments and the tasks that read: the log writer, the writes in flight and the write
    window stay as they are ([same_writes]). *)

From S2P Require Import Prelude Bytes StoreTypes Index Collections AlignedBuf BlockCache Segment Record Wal WriteWindow Recovery WalSegments IoLoop.

Section frame.
Context {S : SkipListApi} {R : RingApi} {P : PercentageApi} {Q : ScoreListApi}
  {B : BytesApi} {C : Crc32Api} {M : MetaApi}.
Import LogSegment.

(** [s'] is [s] with another cache. *)
Definition same_segment (s s' : LogSegment.t S) : Prop :=
  wal_offset s' = wal_offset s /\ size s' = size s /\ written s' = written s /\
  status s' = status s /\ sd s' = sd s.

#[export] Instance same_segment_equivalence : Equivalence same_segment.
Proof. split; unfold same_segment; repeat intros ?; intuition congruence. Qed.

Definition same_segments (w w' : Wal.t S R) : Prop :=
  Wal.config w' = Wal.config w /\ Forall2 same_segment (Wal.segments w) (Wal.segments w') /\
  Wal.inflight_control_tasks w' = Wal.inflight_control_tasks w.

#[export] Instance same_segments_equivalence : Equivalence same_segments.
Proof.
  split; unfold same_segments.
  - intros w. by split_and!.
  - intros w w' (-> & H & ->). by split_and!.
  - intros w1 w2 w3 (-> & H & ->) (-> & H' & ->). split_and!; [done| |done]. by etrans.
Qed.

(** The events that concern writes. *)
Definition is_write_event (e : IoEvent) : bool :=
  match e with Fetched _ _ => false | _ => true end.
Definition write_events (io : IO.t S R) : list IoEvent := List.filter is_write_event (IO.sent io).

(** The writes among the tasks. *)
Fixpoint write_tasks (l : list IoTask) : list WriteTask.t :=
  match l with
  | [] => []
  | TaskWrite t :: l => t :: write_tasks l
  | TaskRead _ :: l => write_tasks l
  end.

Record same_writes (i i' : IO.t S R) : Prop := {
  sw_options : IO.options i' = IO.options i;
  sw_wal : same_segments (IO.wal i) (IO.wal i');
  sw_writer : IO.buf_writer i' = IO.buf_writer i;
  sw_window : IO.write_window i' = IO.write_window i;
  sw_tasks : IO.inflight_write_tasks i' = IO.inflight_write_tasks i;
  sw_barrier : IO.barrier i' = IO.barrier i;
  sw_blocked : IO.blocked i' = IO.blocked i;
  sw_resubmit : IO.resubmit_sqes i' = IO.resubmit_sqes i;
  sw_handed : IO.handed i' = IO.handed i;
  sw_inflight : IO.inflight i' = IO.inflight i;
  sw_events : write_events i' = write_events i;
  sw_pending : write_tasks (IO.pending_data_tasks i') = write_tasks (IO.pending_data_tasks i);
}.

#[export] Instance same_writes_refl : Reflexive same_writes.
Proof. by split. Qed.
#[export] Instance same_writes_trans : Transitive same_writes.
Proof. intros i1 i2 i3 [] []. split; try congruence. by etrans. Qed.

(** ** Changes of the caches *)

Lemma same_segments_insert w i s s' :
  Wal.segments w !! i = Some s -> same_segment s s' ->
  same_segments w (Wal.set_segments w (<[i := s']> (Wal.segments w))).
Proof.
  intros Hi Hs. split_and!; [done| |done]. simpl. revert i Hi.
  induction (Wal.segments w) as [|a l IH]; intros [|i] Hi; simplify_eq/=; constructor; eauto; done.
Qed.

Lemma update_segment_same io i s s' off :
  Wal.segment_file_of (IO.wal io) off = Ret (Some (i, s)) -> same_segment s s' ->
  same_writes io (IO.update_segment io i s').
Proof.
  intros H%find_last_lookup Hs. split; try done. by eapply same_segments_insert.
Qed.

Lemma update_cache_same io i s c off :
  Wal.segment_file_of (IO.wal io) off = Ret (Some (i, s)) -> same_writes io (IO.update_cache io i s c).
Proof. intros H. by eapply update_segment_same. Qed.

Lemma refresh_entry_same (s : LogSegment.t S) b : same_segment s (IO.refresh_entry s b).
Proof. unfold IO.refresh_entry. by repeat case_match. Qed.

Lemma set_wal_same io w : same_segments (IO.wal io) w -> same_writes io (IO.set_wal io w).
Proof. by split. Qed.
Lemma set_reads_same io m : same_writes io (IO.set_reads io m).
Proof. by split. Qed.
Lemma set_aliases_same io m : same_writes io (IO.set_aliases io m).
Proof. by split. Qed.
Lemma set_pending_same io m :
  write_tasks m = write_tasks (IO.pending_data_tasks io) -> same_writes io (IO.set_pending io m).
Proof. by split. Qed.
Lemma push_read_same io task : same_writes io (IO.push_front io (TaskRead task)).
Proof. by apply set_pending_same. Qed.
Lemma send_fetched_same io o r : same_writes io (IO.send io (Fetched o r)).
Proof. split; try done. unfold write_events. simpl. by rewrite List.filter_app, app_nil_r. Qed.

Lemma refresh_loop_same io l io' : IO.refresh_loop io l = Ret io' -> same_writes io io'.
Proof.
  revert io. induction l as [|b l IH]; intros io H; simpl in H; [by inv_ret|].
  case_bool_decide; [|by apply IH]. apply bind_Ret_inv in H as ([[i s]|] & Hf & H); [|by apply IH].
  etrans; [|by apply IH]. eapply update_segment_same; [done|]. apply refresh_entry_same.
Qed.

Lemma refresh_cache_same io io' : IO.refresh_cache io = Ret io' -> same_writes io io'.
Proof. apply refresh_loop_same. Qed.

(** ** Reads *)

Lemma complete_read_same io task bufs io' :
  IO.complete_read_task io task bufs = Ret io' -> same_writes io io'.
Proof.
  unfold IO.complete_read_task. intros H. apply bind_Ret_inv in H as (l & _ & H). injection H as <-.
  apply send_fetched_same.
Qed.

Definition step_io (c : IO.control (IO.building S R)) : IO.t S R :=
  match c with IO.Continue st | IO.Break st => IO.io st end.

Lemma read_step_same st task now c :
  IO.read_step st task now = Ret c -> same_writes (IO.io st) (step_io c).
Proof.
  unfold IO.read_step. intros H. apply bind_Ret_inv in H as ([[i s]|] & Hf & H); [|inv_ret; apply send_fetched_same].
  destruct (sd s); [|by inv_ret]. apply bind_Ret_inv in H as (range & _ & H).
  apply bind_Ret_inv in H as ([res c1] & _ & H). pose proof (update_cache_same _ i s c1 _ Hf) as Hu.
  destruct res as [[bufs|]|entries].
  - apply bind_Ret_inv in H as (io1 & Hc%complete_read_same & H). injection H as <-. simpl. by etrans.
  - injection H as <-. simpl. etrans; [exact Hu|]. apply set_reads_same.
  - apply bind_Ret_inv in H as (n & _ & H). apply bind_Ret_inv in H as (free & _ & H).
    destruct (0 <=? free); injection H as <-; simpl; (etrans; [exact Hu|]); [apply set_reads_same|apply push_read_same].
Qed.

Lemma read_sqes_same io seg l now io' sqes : IO.read_sqes io seg l now = Ret (io', sqes) -> same_writes io io'.
Proof.
  revert io io' sqes. induction l as [|r l IH]; intros io io' sqes H; simpl in H; [by inv_ret|].
  apply bind_Ret_inv in H as ([b|e] & _ & H); [|by eapply IH]. apply bind_Ret_inv in H as ([[i s]|] & Hf & H); [|done].
  apply bind_Ret_inv in H as (rf & _ & H). destruct (sd s); [|by eapply IH].
  apply bind_Ret_inv in H as (c & _ & H). apply bind_Ret_inv in H as ([io1 sq] & H1%IH & H). inv_ret.
  etrans; [|exact H1]. by eapply update_cache_same.
Qed.

Lemma build_read_same io l now io' sqes : IO.build_read_loop io l now = Ret (io', sqes) -> same_writes io io'.
Proof.
  revert io io' sqes. induction l as [|[seg r] l IH]; intros io io' sqes H; simpl in H; [by inv_ret|].
  apply bind_Ret_inv in H as (m & _ & H). apply bind_Ret_inv in H as ([io1 sq] & H1%read_sqes_same & H).
  apply bind_Ret_inv in H as ([io2 sq2] & H2%IH & H). inv_ret. by etrans.
Qed.

Lemma reference_loop_same io l io' : IO.reference_loop io l = Ret io' -> same_writes io io'.
Proof.
  revert io. induction l as [|[seg r] l IH]; intros io H; simpl in H; [by inv_ret|].
  apply bind_Ret_inv in H as ([[i s]|] & Hf & H); [|by apply IH]. apply bind_Ret_inv in H as (c & _ & H%IH).
  etrans; [|exact H]. by eapply update_cache_same.
Qed.

Lemma cache_loop_same io l now io' : IO.cache_loop io l now = Ret io' -> same_writes io io'.
Proof.
  revert io. induction l as [|[op b] l IH]; intros io H; simpl in H; [by inv_ret|].
  apply bind_Ret_inv in H as ([[i s]|] & Hf & H); [|by apply IH]. apply bind_Ret_inv in H as (c & _ & H%IH).
  etrans; [|exact H]. etrans; [apply set_aliases_same|]. eapply update_cache_same. exact Hf.
Qed.

Lemma finish_reads_same io seg l now io' back : IO.finish_reads io seg l now = Ret (io', back) -> same_writes io io'.
Proof.
  revert io io' back. induction l as [|task l IH]; intros io io' back H; simpl in H; [by inv_ret|].
  apply bind_Ret_inv in H as (found & Hf & H). apply bind_Ret_inv in H as ([io1 b1] & H1 & H).
  apply bind_Ret_inv in H as ([io2 b2] & H2%IH & H). inv_ret. etrans; [|exact H2]. clear H2.
  destruct found as [[i s]|]; [|by inv_ret]. apply bind_Ret_inv in H1 as (r & _ & H1).
  apply bind_Ret_inv in H1 as ([res c] & _ & H1).
  destruct res as [[bufs|]|]; [|injection H1 as <- _; by eapply update_cache_same..].
  apply bind_Ret_inv in H1 as (c1 & _ & H1). apply bind_Ret_inv in H1 as (io3 & Hc%complete_read_same & H1). inv_ret.
  etrans; [|exact Hc]. by eapply update_cache_same.
Qed.

Lemma complete_reads_same io segs now io' : IO.complete_read_tasks io segs now = Ret io' -> same_writes io io'.
Proof.
  revert io. induction segs as [|seg segs IH]; intros io H; simpl in H; [by inv_ret|].
  destruct (BTreeMap.get _ _) as [tasks|]; [|by apply IH].
  apply bind_Ret_inv in H as ([io1 back] & H1%finish_reads_same & H%IH).
  etrans; [apply set_reads_same|]. etrans; [exact H1|]. etrans; [|exact H]. destruct back; [done|apply set_reads_same].
Qed.

(** ** Reclaiming *)

Lemma reclaim_loop_same fuel l q a b n l' :
  Wal.reclaim_loop fuel l q a b = Ret (n, l') -> Forall2 same_segment l l'.
Proof.
  revert l q a. induction fuel as [|fuel IH]; intros l q a H; cbn [Wal.reclaim_loop] in H; [done|].
  destruct (b <=? a); [by inv_ret|]. destruct (score_pop_front q) as [[[k i] q1]|]; [|by inv_ret].
  destruct (l !! i) as [s|] eqn:Hi; [|done]. apply bind_Ret_inv in H as ([e c] & _ & H).
  assert (Hl : Forall2 same_segment l (<[i := set_cache s c]> l)).
  { clear -Hi. revert i Hi. induction l as [|x l IH]; intros [|i] Hi; simplify_eq/=; constructor; eauto; done. }
  etrans; [exact Hl|]. destruct e as [e|]; [|by eapply IH]. destruct (_ && _); [by eapply IH|].
  do 2 apply bind_Ret_inv in H as (? & _ & H). by eapply IH.
Qed.

Lemma try_reclaim_same w n r w' : Wal.try_reclaim w n = Ret (r, w') -> same_segments w w'.
Proof.
  intros H. unfold Wal.try_reclaim in H. apply bind_Ret_inv in H as (cs & _ & H).
  apply bind_Ret_inv in H as ([tr cf] & _ & H). destruct (tr =? 0); [by inv_ret|].
  apply bind_Ret_inv in H as (q & _ & H). apply bind_Ret_inv in H as ([rc l] & H1%reclaim_loop_same & H).
  do 2 apply bind_Ret_inv in H as (? & _ & H). by inv_ret.
Qed.
End frame.
