(* ===== verification/Tail.v ===== *)
(** * The end of the log

    The segment that holds the end of the log is filled exactly up to it, the later ones are
    empty ([tail_ok]).  Appending moves the end on; opening, closing and deleting segments
    and the completions of their file operations keep it. *)

From S2P Require Import Prelude Bytes StoreTypes Index Collections AlignedBuf BlockCache Segment Record Wal WriteWindow Recovery WalSegments IoLoop IoFrame.

Section tail.
Context {S : SkipListApi} {R : RingApi} {P : PercentageApi} {Q : ScoreListApi}
  {B : BytesApi} {C : Crc32Api} {M : MetaApi}.
Import LogSegment.

(** The segment has not been closed by its footer. *)
Definition live (st : Status.t) : bool :=
  match st with Status.Read | Status.Close | Status.UnlinkAt | Status.Recycled => false | _ => true end.

Definition at_tail (c : Z) (s : LogSegment.t S) : Prop :=
  c < wal_offset s + size s ->
  live (status s) = true /\ (wal_offset s <= c -> wal_offset s + written s = c) /\ (c < wal_offset s -> written s = 0).

(** The log ends at [c], in one of the segments or at the end of a segment. *)
Record tail_ok (fs : Z) (w : Wal.t S R) (c : Z) : Prop := {
  to_wal : wal_ok w;
  to_size : Config.segment_size (Wal.config w) = fs;
  to_place : Forall (fun s => 0 <= wal_offset s /\ (fs | wal_offset s)) (Wal.segments w);
  to_tail : Forall (at_tail c) (Wal.segments w);
  to_pos : 0 <= c /\ c mod fs + FOOTER_LENGTH <= fs;
  to_held : c mod fs = 0 \/ exists s, s ∈ Wal.segments w /\ holds_offset c s;
}.

Lemma sorted_lookup (l : list (LogSegment.t S)) i j a b :
  StronglySorted before l -> l !! i = Some a -> l !! j = Some b -> (i < j)%nat -> before a b.
Proof.
  intros Hs. revert i j. induction Hs as [|x l Hs IH Hx]; intros i j Hi Hj Hij; [done|].
  destruct i as [|i], j as [|j]; simplify_eq/=; try lia; [|eapply IH; [done..|lia]].
  apply (proj1 (Forall_forall _ _) Hx). by eapply list_elem_of_lookup_2.
Qed.

(** [s'] is [s], which may have moved on in its life cycle. *)
Definition keeps (s s' : LogSegment.t S) : Prop :=
  same_place s s' /\ written s' = written s /\ (live (status s) = true -> live (status s') = true).

Lemma keeps_refl l : Forall2 keeps l l.
Proof. induction l; constructor; done. Qed.

Lemma tail_keeps fs w w' c :
  tail_ok fs w c -> Wal.config w' = Wal.config w -> Forall2 keeps (Wal.segments w) (Wal.segments w') -> tail_ok fs w' c.
Proof.
  intros [Hw Hz Hp Ht Hc Hh] Hcfg Hl. split; [| |clear -Hp Hl|clear -Ht Hl|done|].
  - eapply wal_ok_places; [done|done|]. eapply Forall2_impl; [exact Hl|]. by intros s s' [? _].
  - by rewrite Hcfg.
  - induction Hl as [|s s' l l' ([Ho _] & _) _ IH]; [constructor|]. apply Forall_cons in Hp as [Hs Hp].
    constructor; [by rewrite Ho|auto].
  - induction Hl as [|s s' l l' ([Ho Hz] & Hw & Hs) _ IH]; [constructor|]. apply Forall_cons in Ht as [Hx Ht].
    constructor; [|auto]. unfold at_tail in *. rewrite Ho, Hz, Hw. intros Hlt. destruct (Hx Hlt) as [? ?]. auto.
  - destruct Hh as [?|(s & Hin & Hs)]; [by left|right]. apply list_elem_of_lookup in Hin as [j Hj].
    destruct (Forall2_lookup_l _ _ _ _ _ Hl Hj) as (s' & Hj' & [Ho Hz'] & _). exists s'.
    split; [by eapply list_elem_of_lookup_2|]. unfold holds_offset in *. by rewrite Ho, Hz'.
Qed.

Lemma tail_same fs w w' c : tail_ok fs w c -> same_segments w w' -> tail_ok fs w' c.
Proof.
  intros Ht (Hcfg & Hl & _). eapply tail_keeps; [done..|]. eapply Forall2_impl; [exact Hl|].
  intros s s' (Ho & Hz & Hw & Hs & _). split_and!; try done. by rewrite Hs.
Qed.

(** The segment at the end of the log moves on. *)
Lemma tail_insert fs w c c' i s s' :
  tail_ok fs w c -> Wal.segments w !! i = Some s -> same_place s s' ->
  wal_offset s <= c -> c <= c' -> c' <= wal_offset s + size s -> at_tail c' s' ->
  c' mod fs + FOOTER_LENGTH <= fs ->
  tail_ok fs (Wal.set_segments w (<[i := s']> (Wal.segments w))) c'.
Proof.
  intros [Hw Hz Hp Ht Hc _] Hi Hs Hle Hcc Hend Hat Hpos.
  assert (Hsz : size s = fs /\ 0 < fs).
  { pose proof (Forall_lookup_1 _ _ _ _ (wo_size _ Hw) Hi) as Hsz. simpl in Hsz. pose proof (wo_pos _ Hw). lia. }
  split; simpl; [|done| | |split; [lia|done]|].
  - eapply wal_ok_places; [done|done|]. by eapply places_insert.
  - apply Forall_insert; [done|]. apply (Forall_lookup_1 _ _ _ _ Hp) in Hi. by rewrite (proj1 Hs).
  - apply Forall_lookup. intros j x Hx. destruct (decide (j = i)) as [->|Hne].
    + rewrite list_lookup_insert_eq in Hx by (by eapply lookup_lt_Some). by simplify_eq.
    + rewrite list_lookup_insert_ne in Hx by done. apply (Forall_lookup_1 _ _ _ _ Ht) in Hx as Hxt.
      pose proof (wo_order _ Hw) as Ho. intros Hlt. destruct (decide (j < i)%nat) as [Hji|Hji].
      * assert (before x s) as Hb by (eapply sorted_lookup; [exact Ho|exact Hx|exact Hi|done]). unfold before in Hb. lia.
      * assert (before s x) as Hb by (eapply sorted_lookup; [exact Ho|exact Hi|exact Hx|lia]). unfold before in Hb.
        destruct Hxt as (Hl & H1 & H2); [lia|]. split; [done|]. split; [intros ?; lia|intros ?; lia].
  - destruct (Z.eq_dec c' (wal_offset s + size s)) as [->|Hne].
    + left. destruct (Forall_lookup_1 _ _ _ _ Hp Hi) as [_ [q Hq]]. replace (wal_offset s + size s) with ((q + 1) * fs) by lia.
      apply Z_mod_mult.
    + right. exists s'. split; [|unfold holds_offset; destruct Hs as [-> ->]; lia].
      apply list_elem_of_lookup_2 with i. apply list_lookup_insert_eq. by eapply lookup_lt_Some.
Qed.

(** Segments that are closed by their footer can go. *)
Lemma tail_sub fs w w' c :
  tail_ok fs w c -> Wal.config w' = Wal.config w -> Wal.segments w' `sublist_of` Wal.segments w ->
  (forall s, s ∈ Wal.segments w -> live (status s) = true -> s ∈ Wal.segments w') -> tail_ok fs w' c.
Proof.
  intros [Hw Hz Hp Ht Hc Hh] Hcfg Hl Hlive.
  assert (Hin : forall s, s ∈ Wal.segments w' -> s ∈ Wal.segments w) by (intros s ?; by eapply elem_of_submseteq, sublist_submseteq).
  rewrite Forall_forall in Hp, Ht. split; [by eapply wal_ok_sublist|by rewrite Hcfg| | |done|].
  - apply Forall_forall. eauto.
  - apply Forall_forall. eauto.
  - destruct Hh as [?|(s & Hs & Hx)]; [by left|right]. exists s. split; [|done]. apply Hlive; [done|].
    destruct (Ht s Hs) as [? _]; [|done]. unfold holds_offset in Hx. lia.
Qed.

(** A new segment behind all others. *)
Lemma tail_push fs w w' c s :
  tail_ok fs w c -> Wal.config w' = Wal.config w -> Wal.segments w' = Wal.segments w ++ [s] ->
  Forall (fun a => before a s) (Wal.segments w) -> size s = fs -> 0 <= wal_offset s -> (fs | wal_offset s) ->
  live (status s) = true -> written s = 0 -> tail_ok fs w' c.
Proof.
  intros [Hw Hz Hp Ht Hc Hh] Hcfg Hl Hb Hsz Hpos [q Hq] Hlive Hwr. pose proof (wo_pos _ Hw) as Hfs. rewrite Hz in Hfs.
  split; [by eapply wal_ok_push; eauto; congruence|by rewrite Hcfg| | |done|]; rewrite Hl.
  - apply Forall_app. split; [done|]. repeat constructor; [done|by exists q].
  - apply Forall_app. split; [done|]. repeat constructor; [done| |done]. intros Hle. rewrite Hwr.
    destruct Hh as [Hm|(a & Ha & Hx)].
    + apply Z.mod_divide in Hm as [q' Hq']; [|lia]. assert (q' = q) by nia. lia.
    + apply (proj1 (Forall_forall _ _) Hb) in Ha. unfold before, holds_offset in *. lia.
  - destruct Hh as [?|(a & Ha & Hx)]; [by left|right]. exists a. split; [set_solver|done].
Qed.

(** The segment of the end. *)
Lemma find_last_holds l off n (s : LogSegment.t S) : Wal.find_last l off = Ret (Some (n, s)) -> holds_offset off s.
Proof.
  revert n. induction l as [|a l IH]; intros n H; simpl in H; [by inv_ret|].
  apply bind_Ret_inv in H as ([[j s']|] & H1 & H); [injection H as <- <-; by eapply IH|].
  destruct (Z.leb_spec (wal_offset a) off); [|by inv_ret]. apply bind_Ret_inv in H as (e & He%uint_add_inv & H).
  destruct (Z.ltb_spec off e); [|by inv_ret]. injection H as <- <-. unfold holds_offset. lia.
Qed.

Lemma found_tail fs w c n s :
  tail_ok fs w c -> Wal.segment_file_of w c = Ret (Some (n, s)) ->
  Wal.segments w !! n = Some s /\ holds_offset c s /\ size s = fs /\ wal_offset s + written s = c /\
  c mod fs = written s /\ 0 <= written s /\ 0 <= wal_offset s /\ (fs | wal_offset s) /\ 0 < fs.
Proof.
  intros [Hw Hz Hp Ht Hc _] Hf. apply find_last_holds in Hf as Hh. apply find_last_lookup in Hf.
  pose proof (Forall_lookup_1 _ _ _ _ (wo_size _ Hw) Hf) as Hsz. simpl in Hsz. rewrite Hz in Hsz.
  pose proof (wo_pos _ Hw). rewrite Hz in *. destruct (Forall_lookup_1 _ _ _ _ Hp Hf) as [Hwo [q Hq]].
  unfold holds_offset in Hh. destruct (Forall_lookup_1 _ _ _ _ Ht Hf) as (_ & H1 & _); [lia|]. specialize (H1 ltac:(lia)).
  assert (c mod fs = written s) by (symmetry; apply Z.mod_unique with (q := q); lia).
  split_and!; (done || lia || by exists q).
Qed.

(** ** The life cycle of segments *)

Lemma alloc_segment_spec fs w c s :
  tail_ok fs w c -> Wal.alloc_segment w = Ret (Ok s) ->
  Forall (fun a => before a s) (Wal.segments w) /\ size s = fs /\ 0 <= wal_offset s /\ (fs | wal_offset s) /\
  live (status s) = true /\ written s = 0.
Proof.
  intros [Hw Hz Hp Ht Hc Hh] H. unfold Wal.alloc_segment in H. apply bind_Ret_inv in H as (o & Ho & H). injection H as H.
  apply segment_at_spec in H as Hs. destruct Hs as [Hwo Hsz]. unfold Wal.segment_at, new in H. case_match; [done|]. injection H as <-.
  simpl in *. split_and!; try done.
  - destruct (last (Wal.segments w)) as [z|] eqn:Hl.
    + apply uint_add_inv in Ho as [-> _]. eapply Forall_impl; [by apply (before_last w z)|]. intros a. unfold before. simpl. lia.
    + apply last_None in Hl. by rewrite Hl.
  - destruct (last (Wal.segments w)) as [z|] eqn:Hl; [|by inv_ret].
    apply uint_add_inv in Ho as [-> _]. apply last_Some_elem_of in Hl. apply (proj1 (Forall_forall _ _) Hp) in Hl.
    pose proof (wo_pos _ Hw). lia.
  - destruct (last (Wal.segments w)) as [z|] eqn:Hl; [|injection Ho as <-; apply Z.divide_0_r].
    apply uint_add_inv in Ho as [-> _]. apply last_Some_elem_of in Hl. apply (proj1 (Forall_forall _ _) Hp) in Hl as [_ ?].
    rewrite Hz. apply Z.divide_add_r; [done|apply Z.divide_refl].
Qed.

Lemma tail_open fs w c r w' : tail_ok fs w c -> Wal.try_open_segment w = Ret (r, w') -> tail_ok fs w' c.
Proof.
  intros Hok H. unfold Wal.try_open_segment in H. apply bind_Ret_inv in H as ([s|e] & Ha & H); [|by inv_ret].
  destruct (alloc_segment_spec _ _ _ _ Hok Ha) as (Hb & Hsz & Hpos & Hdiv & Hlive & Hwr).
  assert (Hgen : forall w1 s1 sqe, tail_ok fs w1 c -> Wal.segments w1 `sublist_of` Wal.segments w -> same_place s s1 ->
    live (status s1) = true -> written s1 = 0 ->
    match Wal.enqueue_and_submit_entry (Wal.insert_inflight w1 (wal_offset s) (status s1)) (sqe, wal_offset s) with
    | (Err e, w) => Ret (Err e, w)
    | (Ok _, w) => Ret (Ok (), Wal.set_segments w (Wal.segments w ++ [s1]))
    end = Ret (r, w') -> tail_ok fs w' c).
  { intros w1 s1 sqe Hok1 Hsub [Hw1 Hz1] Hl1 Hwr1 H1. unfold Wal.enqueue_and_submit_entry in H1.
    destruct (Wal.enqueue_and_submit _ _) as [[[]|e] w2] eqn:He; apply enqueue_segments in He as [Hc2 Hs2]; injection H1 as _ <-.
    - apply (tail_push fs w1 _ c s1); simpl; try done; try congruence; [by rewrite Hs2|].
      apply Forall_forall. intros a Ha'. unfold before. rewrite Hw1.
      apply (proj1 (Forall_forall _ _) Hb). by eapply elem_of_submseteq, sublist_submseteq.
    - eapply (tail_keeps fs w1); [done|done|]. rewrite Hs2. apply keeps_refl. }
  destruct (Wal.segments w) as [|a l] eqn:Hl; [by eapply (Hgen w); rewrite ?Hl|].
  destruct (_ && _) eqn:Hrec; [|by eapply (Hgen w); rewrite ?Hl].
  apply andb_prop in Hrec as [_ Hrec]. assert (Hdead : live (status a) = false) by (by destruct (status a)).
  eapply (Hgen (Wal.set_segments w l) (set_status s (Status.RenameAt (path a)))); [|simpl; by apply sublist_cons|apply place_state|done|done|exact H].
  eapply tail_sub; [done|done|simpl; rewrite Hl; by apply sublist_cons|]. simpl. rewrite Hl.
  intros x [->|]%elem_of_cons ?; [congruence|done].
Qed.

Lemma close_first_keeps n l : Forall2 keeps l (Wal.close_first n l).
Proof.
  revert n. induction l as [|s l IH]; intros [|n]; simpl; [by constructor..|apply keeps_refl|].
  destruct (Wal.has_status Status.Read s) eqn:Hs; constructor; try apply IH; [|done]. split_and!; [done|done|].
  unfold Wal.has_status in Hs. by destruct (status s).
Qed.

Lemma tail_close fs w c r w' : tail_ok fs w c -> Wal.try_close_segment w = Ret (r, w') -> tail_ok fs w' c.
Proof.
  intros Hok H. unfold Wal.try_close_segment in H. apply bind_Ret_inv in H as (w1 & H1 & H).
  assert (Hok1 : tail_ok fs w1 c).
  { unfold Wal.check_expired_segment in H1. apply bind_Ret_inv in H1 as (m & _ & H1). injection H1 as <-.
    case_match; [|done]. eapply tail_keeps; [done|done|]. apply close_first_keeps. }
  injection H as H. unfold Wal.enqueue_and_submit_entries in H.
  match goal with H : context [foldl ?f w1 ?l] |- _ => destruct (insert_inflight_segments w1 l) as [Hc Hs] end.
  assert (Hfin : Wal.config w' = Wal.config w1 /\ Wal.segments w' = Wal.segments w1).
  { case_match; [simplify_eq; by rewrite Hc, Hs|]. apply enqueue_segments in H as [Hc2 Hs2]. by rewrite Hc2, Hs2. }
  destruct Hfin as [Hc' Hs']. eapply (tail_keeps fs w1); [done|done|]. rewrite Hs'. apply keeps_refl.
Qed.

Lemma next_step_keeps recycled s offset result s' sqe d :
  Wal.next_step recycled s offset result = Ret (s', sqe, d) -> keeps s s'.
Proof.
  unfold Wal.next_step. intros H. destruct (status s) eqn:Hs; repeat (case_match; try done); injection H as <- _ _;
    split_and!; simpl; try rewrite Hs; done.
Qed.

Lemma keeps_insert (l : list (LogSegment.t S)) i s s' :
  l !! i = Some s -> keeps s s' -> Forall2 keeps l (<[i := s']> l).
Proof.
  revert i. induction l as [|a l IH]; intros [|i] H Hs; simplify_eq/=; constructor; eauto using keeps_refl; done.
Qed.

Lemma tail_completion fs w c offset result r w' :
  tail_ok fs w c -> Wal.on_file_op_completion w offset result = Ret (r, w') -> tail_ok fs w' c.
Proof.
  intros Hok H. unfold Wal.on_file_op_completion in H. apply bind_Ret_inv in H as ([[i s]|] & Hf & H).
  2:{ injection H as H. apply submit_segments in H as [Hc Hs]. eapply tail_keeps; [done|done|]. rewrite Hs. apply keeps_refl. }
  destruct (result =? -1); [by inv_ret|]. apply bind_Ret_inv in H as ([[s' sqe] d] & Hn%next_step_keeps & H).
  apply find_last_lookup in Hf. assert (Hok1 : tail_ok fs (Wal.set_segments w (<[i := s']> (Wal.segments w))) c).
  { eapply tail_keeps; [done|done|]. by eapply keeps_insert. }
  set (w1 := Wal.set_segments w _) in *.
  assert (Hfin : forall w2, Wal.config w2 = Wal.config w1 -> Wal.segments w2 = Wal.segments w1 ->
    match Wal.submit w2 with
    | (Err e, w) => Ret (Err e, w)
    | (Ok _, w) => Ret (Ok (), if d : bool then Wal.delete_segments w [offset] else w)
    end = Ret (r, w') -> tail_ok fs w' c).
  { intros w2 Hc2 Hs2 H2. destruct (Wal.submit w2) as [r3 w3] eqn:E. apply submit_segments in E as [Hc3 Hs3].
    rewrite Hc2 in Hc3. rewrite Hs2 in Hs3. assert (Hok3 : tail_ok fs w3 c).
    { eapply (tail_keeps fs w1); [done|done|]. rewrite Hs3. apply keeps_refl. }
    destruct r3 as [[]|e]; [|by inv_ret]. injection H2 as _ <-. destruct d; [|done].
    eapply tail_sub; [exact Hok3|done|exact (delete_segments_sublist w3 [offset])|]. simpl. intros x Hx Hlive.
    apply list_elem_of_In, filter_In. split; [by apply list_elem_of_In|]. unfold Wal.has_status. by destruct (status x). }
  destruct sqe as [[[entry ud] st]|]; [|by eapply (Hfin w1)].
  destruct (ring_push _ _) as [rg|] eqn:E; simpl in H; [|injection H as _ <-; exact Hok1].
  by eapply (Hfin (Wal.insert_inflight (Wal.set_ring w1 rg) offset st)).
Qed.

Lemma tail_reap fs w c m w' : tail_ok fs w c -> Wal.reap_control_tasks w m = Ret w' -> tail_ok fs w' c.
Proof.
  revert w. induction m as [|[offset result] m IH]; intros w Hok H; simpl in H; [by inv_ret|].
  destruct (_ !! offset); [|by eapply IH]. apply bind_Ret_inv in H as ([r w1] & H1 & H).
  eapply IH, H. eapply tail_completion, H1. eapply tail_keeps; [done|done|]. apply keeps_refl.
Qed.
End tail.
