(* ===== verification/SharedBufs.v ===== *)
(** * The buffers of the log

    The blocks of the log since it was resumed: those that the writer has handed out for good
    ([rel]), the ones it still holds and the ones it has allocated lie one after the other,
    and hold the log ([log_ok]).  What a write in flight refers to is therefore known from
    the place of its block and the end of the log ([deref_spec]). *)

From S2P Require Import Prelude Bytes StoreTypes Index Collections AlignedBuf BlockCache Segment Record Wal WriteWindow Recovery WalSegments IoLoop IoFrame.

(** ** The log as a function *)

Definition span (L : Z -> byte) (o n : Z) : list byte := L <$> seqZ o n.

Lemma span_app L o m n : 0 <= m -> 0 <= n -> span L o (m + n) = span L o m ++ span L (o + m) n.
Proof. intros. unfold span. by rewrite seqZ_app, fmap_app by lia. Qed.

Lemma remaining_span L o n : 0 <= n -> Bytes.remaining (span L o n) = n.
Proof. intros. unfold span, Bytes.remaining. rewrite length_fmap, length_seqZ. lia. Qed.

Lemma span_take L o n m : 0 <= m <= n -> take (Z.to_nat m) (span L o n) = span L o m.
Proof.
  intros. replace n with (m + (n - m)) by lia. rewrite span_app by lia.
  rewrite take_app_le by (unfold span; rewrite length_fmap, length_seqZ; lia).
  rewrite take_ge; [done|]. unfold span. rewrite length_fmap, length_seqZ. lia.
Qed.

Lemma span_drop L o n m : 0 <= m <= n -> drop (Z.to_nat m) (span L o n) = span L (o + m) (n - m).
Proof.
  intros. replace n with (m + (n - m)) at 1 by lia. rewrite span_app by lia.
  apply drop_app_length'. unfold span. rewrite length_fmap, length_seqZ. lia.
Qed.

Lemma span_ext L L' o n : (forall x, o <= x < o + n -> L x = L' x) -> span L o n = span L' o n.
Proof. intros H. unfold span. apply list_fmap_ext. intros i x Hx. apply H. apply list_elem_of_lookup_2, elem_of_seqZ in Hx. lia. Qed.

Lemma span_lookup L o n i : 0 <= i < n -> span L o n !! Z.to_nat i = Some (L (o + i)).
Proof.
  intros. unfold span. rewrite list_lookup_fmap, lookup_seqZ_lt by lia. simpl. do 2 f_equal. lia.
Qed.

(** The log with [d] written at [c]. *)
Definition extend (L : Z -> byte) (c : Z) (d : list byte) (x : Z) : byte :=
  if (c <=? x) && (x <? c + Bytes.remaining d) then default Byte.x00 (d !! Z.to_nat (x - c)) else L x.

Lemma extend_below L c d x : x < c -> extend L c d x = L x.
Proof. intros. unfold extend. by rewrite (proj2 (Z.leb_gt _ _)) by lia. Qed.

Lemma span_extend_below L c d o n : o + n <= c -> span (extend L c d) o n = span L o n.
Proof. intros. apply span_ext. intros x Hx. apply extend_below. lia. Qed.

Lemma span_extend L c d : span (extend L c d) c (Bytes.remaining d) = d.
Proof.
  apply list_eq. intros i. pose proof (remaining_nonneg d). destruct (decide (i < length d)%nat).
  - unfold span. rewrite list_lookup_fmap, lookup_seqZ_lt by (unfold Bytes.remaining; lia). simpl.
    unfold extend. rewrite (proj2 (Z.leb_le _ _)), (proj2 (Z.ltb_lt _ _)) by (unfold Bytes.remaining; lia). simpl.
    replace (Z.to_nat (c + Z.of_nat i - c)) with i by lia.
    destruct (lookup_lt_is_Some_2 d i) as [x ->]; [lia|done].
  - rewrite !lookup_ge_None_2; [done|lia|]. unfold span. rewrite length_fmap, length_seqZ. unfold Bytes.remaining. lia.
Qed.

(** ** Places of buffers *)

Section bufs.
Import AlignedBuf.

Definition place (b : abuf) : Z * Z := (wal_offset b, capacity b).

Definition all_bufs (w : AlignedBufWriter.t) : list abuf :=
  AlignedBufWriter.full w ++ option_list (AlignedBufWriter.current w) ++ AlignedBufWriter.allocated w.

(** What writing leaves as it is. *)
Definition skeleton (w : AlignedBufWriter.t) : Z * list (Z * Z) :=
  (AlignedBufWriter.alignment w, place <$> all_bufs w).

Lemma write_buf_place b d r b' : write_buf b d = Ret (r, b') -> place b' = place b.
Proof.
  unfold write_buf. intros H. apply bind_Ret_inv in H as (to & _ & H). by destruct (_ <? _); injection H as <- <-.
Qed.

Lemma set_current_skeleton w b b' :
  AlignedBufWriter.current w = Some b -> place b' = place b ->
  skeleton (AlignedBufWriter.set_current w b') = skeleton w.
Proof. intros Hb Hp. unfold skeleton, all_bufs. simpl. rewrite Hb, !fmap_app. simpl. by rewrite Hp. Qed.

Lemma swap_skeleton w r w' : AlignedBufWriter.swap w = (r, w') -> skeleton w' = skeleton w.
Proof.
  unfold AlignedBufWriter.swap, skeleton, all_bufs. destruct (AlignedBufWriter.allocated w) as [|b l] eqn:E; intros [= <- <-]; simpl.
  { by rewrite E. }
  destruct (AlignedBufWriter.current w); simpl; rewrite ?fmap_app; simpl; by rewrite <- ?(assoc_L (++)).
Qed.

Lemma write_loop_skeleton fuel w d p r w' :
  AlignedBufWriter.write_loop fuel w d p = Ret (r, w') -> skeleton w' = skeleton w.
Proof.
  revert w p. induction fuel as [|fuel IH]; intros w p H; simpl in H; [done|].
  destruct (AlignedBufWriter.current w) as [b|] eqn:Hb.
  - do 3 apply bind_Ret_inv in H as (? & _ & H). destruct (_ <=? _).
    + apply bind_Ret_inv in H as (ch & _ & H). apply bind_Ret_inv in H as ([ok b'] & Hw%write_buf_place & H).
      injection H as <- <-. by eapply set_current_skeleton.
    + apply bind_Ret_inv in H as (ch & _ & H). apply bind_Ret_inv in H as ([ok b'] & Hw%write_buf_place & H).
      rewrite <- (set_current_skeleton w b b' Hb Hw).
      destruct (AlignedBufWriter.swap _) as [[[]|e] w1] eqn:Hs; apply swap_skeleton in Hs; rewrite <- Hs;
        [by eapply IH|by injection H as <- <-].
  - destruct (AlignedBufWriter.swap w) as [[[]|e] w1] eqn:Hs; apply swap_skeleton in Hs; rewrite <- Hs;
      [by eapply IH|by injection H as <- <-].
Qed.

Lemma write_skeleton w d r w' :
  AlignedBufWriter.write w d = Ret (r, w') -> skeleton w' = skeleton w.
Proof.
  unfold AlignedBufWriter.write. intros H. apply bind_Ret_inv in H as ([r1 w1] & H1%write_loop_skeleton & H).
  destruct r1; [|by injection H as <- <-]. apply bind_Ret_inv in H as (c & _ & H). by injection H as <- <-.
Qed.

Lemma write_record_skeleton w crc lt d r w' :
  LogSegment.write_record w crc lt d = Ret (r, w') -> skeleton w' = skeleton w.
Proof.
  unfold LogSegment.write_record, AlignedBufWriter.write_u32. intros H.
  apply bind_Ret_inv in H as ([r1 w1] & H1%write_skeleton & H). rewrite <- H1. destruct r1; [|by injection H as <- <-].
  apply bind_Ret_inv in H as ([r2 w2] & H2%write_skeleton & H). rewrite <- H2. destruct r2; [|by injection H as <- <-].
  by eapply write_skeleton.
Qed.

(** ** Chains *)

Lemma chain_elem al a l z b :
  chain al a l z -> b ∈ l -> a <= wal_offset b /\ wal_offset b + capacity b <= z /\ buf_ok b.
Proof.
  revert a. induction l as [|b0 l IH]; intros a Hc Hin; [set_solver|]. destruct Hc as (Hw & Hok & _ & Hc).
  pose proof (chain_le _ _ _ _ Hc). pose proof Hok as (_ & _ & ?).
  apply elem_of_cons in Hin as [->|Hin]; [by split_and!; [lia..|]|]. apply IH in Hc as (? & ? & ?); [|done]. by split_and!; [lia..|].
Qed.

Lemma chain_apart al a l z b1 b2 :
  chain al a l z -> b1 ∈ l -> b2 ∈ l -> wal_offset b1 < wal_offset b2 -> wal_offset b1 + capacity b1 <= wal_offset b2.
Proof.
  revert a. induction l as [|b0 l IH]; intros a Hc H1 H2 Hlt; [set_solver|]. destruct Hc as (Hw & Hok & _ & Hc).
  apply elem_of_cons in H1 as [->|H1]; apply elem_of_cons in H2 as [->|H2]; [lia| | |by eapply IH].
  - apply (chain_elem _ _ _ _ _ Hc) in H2 as (? & _). lia.
  - destruct Hok as (_ & _ & ?). apply (chain_elem _ _ _ _ _ Hc) in H1 as (? & _). lia.
Qed.

Lemma chain_inj al a l z b1 b2 :
  chain al a l z -> b1 ∈ l -> b2 ∈ l -> wal_offset b1 = wal_offset b2 -> b1 = b2.
Proof.
  revert a. induction l as [|b0 l IH]; intros a Hc H1 H2 Heq; [set_solver|]. destruct Hc as (Hw & Hok & _ & Hc).
  destruct Hok as (_ & _ & ?).
  apply elem_of_cons in H1 as [->|H1]; apply elem_of_cons in H2 as [->|H2]; [done| | |by eapply IH].
  - apply (chain_elem _ _ _ _ _ Hc) in H2 as (? & _). lia.
  - apply (chain_elem _ _ _ _ _ Hc) in H1 as (? & _). lia.
Qed.

Lemma chain_end al a l z z' : chain al a l z -> chain al a l z' -> z = z'.
Proof. revert a. induction l as [|b l IH]; intros a; simpl; [by intros -> ->|]. intros (_ & _ & _ & ?) (_ & _ & _ & ?). eauto. Qed.

Lemma chain_start al a a' l z : chain al a l z -> chain al a' l z -> a = a'.
Proof. destruct l; simpl; [by intros -> ->|]. intros (<- & _) (<- & _). done. Qed.

Lemma find_buf_Some o l b : IO.find_buf o l = Some b -> b ∈ l /\ wal_offset b = o.
Proof. unfold IO.find_buf. intros [H1 H2]%find_some. split; [by apply list_elem_of_In|lia]. Qed.
Lemma find_buf_None o l b : IO.find_buf o l = None -> b ∈ l -> wal_offset b <> o.
Proof. unfold IO.find_buf. intros H Hin%list_elem_of_In. apply (find_none _ _ H) in Hin. lia. Qed.
End bufs.

Section log.
Context {S : SkipListApi} {R : RingApi} {P : PercentageApi} {Q : ScoreListApi}
  {B : BytesApi} {C : Crc32Api} {M : MetaApi}.
Import AlignedBuf.

Definition cursor (i : IO.t S R) : Z := AlignedBufWriter.cursor (IO.buf_writer i).

(** The log is [L] up to the cursor; [rel] are the buffers from [a0] to [a] that the writer
    has given away, from there to [z] it has its own. *)
Record log_ok (L : Z -> byte) (i : IO.t S R) (rel : list abuf) (a0 a z : Z) : Prop := {
  lo_writer : writer_ok (IO.buf_writer i) a z;
  lo_rel : chain (AlignedBufWriter.alignment (IO.buf_writer i)) a0 rel a;
  lo_full : Forall (fun b => limit b = capacity b) rel;
  lo_base : 0 <= a0 /\ (AlignedBufWriter.alignment (IO.buf_writer i) | a0);
  lo_contents : concat (data <$> rel) ++ contents (IO.buf_writer i) = span L a0 (cursor i - a0);
  lo_small : Forall (fun b => capacity b < 2 ^ 32) (rel ++ all_bufs (IO.buf_writer i));
  lo_handed : forall o b, IO.handed i !! o = Some b -> IO.find_buf o (IO.writer_bufs i) = None ->
    b ∈ rel /\ wal_offset b = o;
}.

(** The places of all blocks. *)
Definition blocks (rel : list abuf) (i : IO.t S R) : list (Z * Z) :=
  place <$> rel ++ all_bufs (IO.buf_writer i).

Lemma log_chain L i rel a0 a z :
  log_ok L i rel a0 a z ->
  chain (AlignedBufWriter.alignment (IO.buf_writer i)) a0 (rel ++ all_bufs (IO.buf_writer i)) z.
Proof. intros [Hw Hr _ _ _ _ _]. apply chain_app. exists a. split; [done|]. apply Hw. Qed.

Lemma log_bounds' L i rel a0 a z : log_ok L i rel a0 a z -> 0 <= a0 <= a /\ a <= cursor i <= z.
Proof.
  intros [Hw Hr _ [? _] _ _ _]. pose proof (chain_le _ _ _ _ Hr).
  destruct (cursor_bounds _ _ _ _ Hw) as [? ?]. unfold cursor. lia.
Qed.

(** Where the filled buffers end. *)
Lemma filled_chain L i rel a0 a z :
  log_ok L i rel a0 a z -> exists m,
    chain (AlignedBufWriter.alignment (IO.buf_writer i)) a0 (rel ++ IO.writer_bufs i) m /\
    chain (AlignedBufWriter.alignment (IO.buf_writer i)) m (AlignedBufWriter.allocated (IO.buf_writer i)) z /\
    cursor i <= m /\
    Forall (fun b => limit b = capacity b) (removelast (rel ++ IO.writer_bufs i)) /\
    Forall (fun b => limit b = capacity b `min` (cursor i - wal_offset b)) (rel ++ IO.writer_bufs i).
Proof.
  intros Hok. pose proof (log_bounds' _ _ _ _ _ _ Hok) as Hbd. destruct Hok as [[Hch Hf Hal Hc _ _ _] Hr Hfr _ _ _ _].
  unfold IO.writer_bufs, cursor in *. rewrite (assoc_L (++)) in Hch. apply chain_app in Hch as (m & Hch & Hrest).
  exists m. assert (Hrelf : Forall (fun b => limit b = capacity b `min` (AlignedBufWriter.cursor (IO.buf_writer i) - wal_offset b)) rel).
  { apply Forall_forall. intros b Hb. rewrite (proj1 (Forall_forall _ _) Hfr b Hb).
    destruct (chain_elem _ _ _ _ _ Hr Hb) as (_ & ? & _). lia. }
  destruct (AlignedBufWriter.current (IO.buf_writer i)) as [b|]; simpl in *.
  - pose proof Hch as Hch'. apply chain_app in Hch' as (m1 & H1 & Hb & (Hl & ? & ?) & _ & <-). split_and!.
    + apply chain_app. by exists a.
    + done.
    + lia.
    + rewrite (assoc_L (++)), removelast_last. by apply Forall_app.
    + apply Forall_app. split; [done|]. apply Forall_app. split; [|repeat constructor; lia].
      apply Forall_forall. intros b' Hb'. rewrite (proj1 (Forall_forall _ _) Hf b' Hb').
      destruct (chain_elem _ _ _ _ _ H1 Hb') as (_ & ? & _). lia.
  - destruct Hc as [Hnil Hc]. rewrite Hnil in *. simpl in *. rewrite app_nil_r. subst m. split_and!; try done; [lia|].
    rewrite removelast_firstn_len. by apply Forall_take.
Qed.

Lemma deref_spec L i rel a0 a z o k :
  log_ok L i rel a0 a z -> (o, k) ∈ blocks rel i -> o < cursor i ->
  is_Some (IO.handed i !! o) \/ is_Some (IO.find_buf o (IO.writer_bufs i)) ->
  exists b, IO.deref i (Shared o) = Ret b /\ b ∈ rel ++ IO.writer_bufs i /\ place b = (o, k) /\ buf_ok b /\
    limit b = k `min` (cursor i - o) /\ data b = span L o (limit b).
Proof.
  intros Hok Hin Ho Hh. destruct (filled_chain _ _ _ _ _ _ Hok) as (m & Hch & Hrest & Hm & Hfull & Hlim).
  apply list_elem_of_fmap in Hin as (b & [= -> ->] & Hb).
  assert (Hbf : b ∈ rel ++ IO.writer_bufs i).
  { unfold all_bufs in Hb. rewrite (assoc_L (++) (AlignedBufWriter.full _)), (assoc_L (++)), elem_of_app in Hb.
    destruct Hb as [?|Hb]; [done|]. apply (chain_elem _ _ _ _ _ Hrest) in Hb. lia. }
  exists b. assert (Hd : IO.deref i (Shared (wal_offset b)) = Ret b).
  { simpl. destruct (IO.find_buf (wal_offset b) (IO.writer_bufs i)) as [b'|] eqn:Hf.
    - apply find_buf_Some in Hf as [Hf1 Hf2]. f_equal. eapply chain_inj; [exact Hch| |done|done]. set_solver.
    - destruct Hh as [[b' Hh]|[b' Hh]]; [|done]. rewrite Hh. destruct (lo_handed _ _ _ _ _ _ Hok _ _ Hh Hf) as [Hr Hw].
      f_equal. eapply chain_inj; [exact Hch| |done|done]. set_solver. }
  split_and!; [done|done|done|by apply (chain_elem _ _ _ _ _ Hch)|by apply (proj1 (Forall_forall _ _) Hlim)|].
  destruct (chain_data _ _ _ _ _ Hch Hfull Hbf (proj2 (lo_base _ _ _ _ _ _ Hok))) as (_ & _ & Ha & ->).
  assert (Hc : concat (data <$> rel ++ IO.writer_bufs i) = span L a0 (cursor i - a0)).
  { rewrite <- (lo_contents _ _ _ _ _ _ Hok). by rewrite fmap_app, concat_app. }
  assert (Hl : limit b = capacity b `min` (cursor i - wal_offset b)) by (by apply (proj1 (Forall_forall _ _) Hlim)).
  destruct (chain_elem _ _ _ _ _ Hch Hbf) as (_ & _ & _ & ? & ?).
  rewrite Hc, span_drop, span_take by lia. f_equal. lia.
Qed.

(** Two blocks do not overlap. *)
Lemma blocks_apart L i rel a0 a z o1 k1 o2 k2 :
  log_ok L i rel a0 a z -> (o1, k1) ∈ blocks rel i -> (o2, k2) ∈ blocks rel i ->
  o1 = o2 /\ k1 = k2 \/ o1 + k1 <= o2 \/ o2 + k2 <= o1.
Proof.
  intros Hch%log_chain. unfold blocks.
  intros (b1 & [= -> ->] & H1)%list_elem_of_fmap (b2 & [= -> ->] & H2)%list_elem_of_fmap.
  destruct (Z.lt_trichotomy (wal_offset b1) (wal_offset b2)) as [?|[Heq|?]].
  - right. left. by eapply chain_apart.
  - left. by rewrite (chain_inj _ _ _ _ _ _ Hch H1 H2 Heq).
  - right. right. by eapply chain_apart.
Qed.

Lemma blocks_small L i rel a0 a z o k :
  log_ok L i rel a0 a z -> (o, k) ∈ blocks rel i -> a0 <= o /\ 0 < k < 2 ^ 32 /\ o + k <= z.
Proof.
  intros Hok (b & [= -> ->] & Hb)%list_elem_of_fmap.
  destruct (chain_elem _ _ _ _ _ (log_chain _ _ _ _ _ _ Hok) Hb) as (? & ? & _ & _ & ?).
  pose proof (proj1 (Forall_forall _ _) (lo_small _ _ _ _ _ _ Hok) b Hb). simpl in *. lia.
Qed.

Lemma find_buf_app o l1 l2 :
  IO.find_buf o (l1 ++ l2) = match IO.find_buf o l1 with Some b => Some b | None => IO.find_buf o l2 end.
Proof. induction l1 as [|b l1 IH]; [done|]. unfold IO.find_buf in *. simpl. by destruct (_ =? _). Qed.

(** ** Appending *)

Lemma small_places l l' :
  place <$> l' = place <$> l -> Forall (fun b => capacity b < 2 ^ 32) l -> Forall (fun b => capacity b < 2 ^ 32) l'.
Proof.
  intros Heq H. apply (Forall_fmap place (fun p : Z * Z => p.2 < 2 ^ 32)). rewrite Heq. by apply Forall_fmap.
Qed.

Lemma log_append L i rel a0 a z w' d i' :
  log_ok L i rel a0 a z -> d <> [] -> writer_ok w' a z ->
  contents w' = contents (IO.buf_writer i) ++ d ->
  AlignedBufWriter.cursor w' = cursor i + Bytes.remaining d ->
  skeleton w' = skeleton (IO.buf_writer i) ->
  IO.buf_writer i' = w' -> IO.handed i' = IO.handed i ->
  log_ok (extend L (cursor i) d) i' rel a0 a z /\ blocks rel i' = blocks rel i.
Proof.
  intros Hok Hne Hw' Hcon Hcur Hsk Hi' Hh. pose proof (log_bounds' _ _ _ _ _ _ Hok) as Hbd.
  assert (0 < Bytes.remaining d) by (destruct d; [done|unfold Bytes.remaining; simpl; lia]). unfold skeleton in Hsk. injection Hsk as Hal Hpl.
  assert (Hbl : blocks rel i' = blocks rel i) by (unfold blocks; rewrite !fmap_app, Hi'; by rewrite Hpl).
  split; [|done]. assert (Hwb : forall b, b ∈ IO.writer_bufs i -> wal_offset b <= cursor i).
  { intros b Hb. destruct (filled_chain _ _ _ _ _ _ Hok) as (m & Hch & _ & _ & _ & Hl).
    assert (Hb' : b ∈ rel ++ IO.writer_bufs i) by set_solver.
    destruct (chain_elem _ _ _ _ _ Hch Hb') as (_ & _ & _ & ? & _).
    apply (proj1 (Forall_forall _ _) Hl) in Hb'. lia. }
  destruct Hok as [Hw Hr Hf Hb Hc Hs Hhd]. split; unfold cursor in *; rewrite ?Hi', ?Hal; try done.
  - rewrite Hcon, (assoc_L (++)), Hc, Hcur.
    replace (AlignedBufWriter.cursor (IO.buf_writer i) + Bytes.remaining d - a0)
      with (AlignedBufWriter.cursor (IO.buf_writer i) - a0 + Bytes.remaining d) by lia.
    rewrite span_app by lia. rewrite span_extend_below by lia. f_equal.
    replace (a0 + (AlignedBufWriter.cursor (IO.buf_writer i) - a0)) with (AlignedBufWriter.cursor (IO.buf_writer i)) by lia.
    by rewrite span_extend.
  - eapply small_places; [|exact Hs]. by rewrite !fmap_app, Hpl.
  - rewrite Hh. intros o b Hob Hn. apply (Hhd o b Hob). clear Hhd.
    destruct (IO.find_buf o (IO.writer_bufs i)) as [b1|] eqn:Hf1; [|done]. exfalso.
    apply find_buf_Some in Hf1 as [Hf1 <-]. apply Hwb in Hf1 as Hle.
    assert (Hp : place b1 ∈ place <$> all_bufs w').
    { rewrite Hpl. apply list_elem_of_fmap_2. unfold IO.writer_bufs in Hf1. unfold all_bufs. set_solver. }
    apply list_elem_of_fmap in Hp as (b2 & [= Hw2 _] & Hb2). unfold all_bufs in Hb2. rewrite (assoc_L (++)), elem_of_app in Hb2.
    destruct Hb2 as [Hb2|Hb2]; [by apply (find_buf_None _ _ b2 Hn); [unfold IO.writer_bufs; rewrite Hi'|]|].
    destruct Hw' as [Hch' _ _ Hc' _ _ _]. rewrite (assoc_L (++)) in Hch'. apply chain_app in Hch' as (m & Hm1 & Hm2).
    apply (chain_elem _ _ _ _ _ Hm2) in Hb2 as (Hb2 & _).
    assert (AlignedBufWriter.cursor w' <= m); [|lia]. destruct (AlignedBufWriter.current w') as [b3|].
    + apply chain_app in Hm1 as (m1 & _ & Hm1 & (_ & ? & _) & _ & <-). lia.
    + destruct Hc' as [Hnil ->]. rewrite Hnil in Hm1. simpl in Hm1. lia.
Qed.

(** ** Reserving *)

(** [w'] is [w] with more buffers allocated. *)
Definition more_bufs (w w' : AlignedBufWriter.t) : Prop :=
  AlignedBufWriter.full w' = AlignedBufWriter.full w /\
  AlignedBufWriter.current w' = AlignedBufWriter.current w /\
  AlignedBufWriter.cursor w' = AlignedBufWriter.cursor w /\
  AlignedBufWriter.alignment w' = AlignedBufWriter.alignment w /\
  AlignedBufWriter.buffering w' = AlignedBufWriter.buffering w /\
  exists l, AlignedBufWriter.allocated w' = AlignedBufWriter.allocated w ++ l.

#[export] Instance more_bufs_refl : Reflexive more_bufs.
Proof. intros w. split_and!; try done. exists []. by rewrite app_nil_r. Qed.
#[export] Instance more_bufs_trans : Transitive more_bufs.
Proof.
  intros w1 w2 w3 (? & ? & ? & ? & ? & l & Hl) (? & ? & ? & ? & ? & l' & Hl').
  split_and!; try congruence. exists (l ++ l'). by rewrite Hl', Hl, (assoc_L (++)).
Qed.

Lemma allocate_more w o n r w' : AlignedBufWriter.allocate w o n = Ret (r, w') -> more_bufs w w'.
Proof.
  unfold AlignedBufWriter.allocate. intros H. apply bind_Ret_inv in H as ([b|] & _ & H); [|by injection H as <- <-].
  apply bind_Ret_inv in H as (o' & _ & H). injection H as <- <-. split_and!; try done. by exists [b].
Qed.

Lemma reserve_to_more w t fs r w' : AlignedBufWriter.reserve_to w t fs = Ret (r, w') -> more_bufs w w'.
Proof.
  unfold AlignedBufWriter.reserve_to. intros H. apply bind_Ret_inv in H as (m & _ & H).
  destruct (t <=? m); [by injection H as <- <-|]. do 3 apply bind_Ret_inv in H as (? & _ & H).
  destruct (negb _); [done|]. apply bind_Ret_inv in H as (n & _ & H). apply bind_Ret_inv in H as ([r1 w1] & H1 & H).
  assert (Hm : more_bufs w w1).
  { clear H. destruct (_ <=? n); [|by injection H1 as _ <-]. do 2 apply bind_Ret_inv in H1 as (? & _ & H1). by eapply allocate_more. }
  etrans; [exact Hm|]. clear H1. destruct r1 as [o|e]; [|by injection H as _ <-]. apply bind_Ret_inv in H as (q & _ & H).
  destruct (negb _); [|by injection H as _ <-]. apply bind_Ret_inv in H as ([r2 w2] & H2%allocate_more & H).
  destruct r2; by injection H as _ <-.
Qed.

Lemma more_bufs_deref i w' r : more_bufs (IO.buf_writer i) w' -> IO.deref (IO.set_writer i w') r = IO.deref i r.
Proof. intros (Hf & Hc & _). destruct r; [done|]. simpl. unfold IO.writer_bufs. simpl. by rewrite Hf, Hc. Qed.

Lemma more_bufs_blocks rel i w' p :
  more_bufs (IO.buf_writer i) w' -> p ∈ blocks rel i -> p ∈ blocks rel (IO.set_writer i w').
Proof.
  intros (Hf & Hc & _ & _ & _ & l & Hl). unfold blocks, all_bufs. simpl. rewrite Hf, Hc, Hl, !fmap_app. set_solver.
Qed.

Lemma more_bufs_log L i rel a0 a z w' z' fs :
  log_ok L i rel a0 a z -> more_bufs (IO.buf_writer i) w' -> writer_ok w' a z' -> z' <= (z / fs + 1) * fs \/ z' = z ->
  0 < fs < 2 ^ 32 -> log_ok L (IO.set_writer i w') rel a0 a z'.
Proof.
  intros [Hw Hr Hf Hb Hc Hs Hh] (Hf' & Hc' & Hcur & Hal & _ & l & Hl) Hw' Hz' Hfs. split; simpl; rewrite ?Hal; try done.
  - unfold cursor. simpl. rewrite Hcur. unfold contents. rewrite Hf', Hc'. exact Hc.
  - unfold all_bufs in *. rewrite Hf', Hc', Hl. rewrite !(assoc_L (++)). apply Forall_app. split; [by rewrite <- !(assoc_L (++))|].
    destruct Hw as [Hch _ _ _ _ _ _]. destruct Hw' as [Hch' _ _ _ _ _ _]. rewrite Hf', Hc', Hl, Hal in Hch'.
    rewrite !(assoc_L (++)) in Hch'. apply chain_app in Hch' as (m & Hm1 & Hm2). rewrite <- !(assoc_L (++)) in Hm1.
    assert (m = z) as -> by (eapply chain_end; [exact Hm1|exact Hch]).
    apply Forall_forall. intros b Hb'. destruct (chain_elem _ _ _ _ _ Hm2 Hb') as (? & ? & _ & _ & ?).
    destruct Hz' as [Hz'| ->]; [|lia]. pose proof (Z.mod_pos_bound z fs). pose proof (Z.div_mod z fs). nia.
  - intros o b Hob Hn. apply (Hh o b Hob). unfold IO.writer_bufs in *. simpl in Hn. by rewrite Hf', Hc' in Hn.
Qed.

Lemma reserve_log L i rel a0 a z t fs :
  log_ok L i rel a0 a z -> AlignedBufWriter.alignment (IO.buf_writer i) < 2 ^ 61 -> t < 2 ^ 61 ->
  0 < fs < 2 ^ 32 -> (AlignedBufWriter.alignment (IO.buf_writer i) | fs) -> (z < t -> z / fs = (t - 1) / fs) ->
  exists w' z', AlignedBufWriter.reserve_to (IO.buf_writer i) t fs = Ret (Ok (), w') /\
    more_bufs (IO.buf_writer i) w' /\ log_ok L (IO.set_writer i w') rel a0 a z' /\
    z <= z' /\ t <= z' /\ (z < t -> z' < t + AlignedBufWriter.alignment (IO.buf_writer i) /\ z' <= (z / fs + 1) * fs) /\ (t <= z -> z' = z).
Proof.
  intros Hok Hal Ht Hfs Hdiv Hseg. destruct (decide (t <= z)) as [Hle|Hlt].
  - exists (IO.buf_writer i), z. split_and!; try done; try lia.
    + unfold AlignedBufWriter.reserve_to. rewrite (max_allocated_spec _ _ _ (lo_writer _ _ _ _ _ _ Hok)). simpl.
      by rewrite (proj2 (Z.leb_le _ _)).
    + eapply more_bufs_log; [exact Hok|done|apply Hok|by right|exact Hfs].
  - destruct (reserve_spec _ _ _ t fs (lo_writer _ _ _ _ _ _ Hok)) as (w' & z' & Hr & Hw' & _ & _ & _ & H1 & H2 & H3);
      [done|done|lia|done|done|]. apply reserve_to_more in Hr as Hm. destruct H3 as [H3 H4]; [lia|].
    exists w', z'. split_and!; try done; try lia. eapply more_bufs_log; [exact Hok|done|done|by left|exact Hfs].
Qed.

(** ** Handing out *)

Lemma hand_out_inv l (m : gmap Z abuf) o b :
  foldl (fun m b => <[wal_offset b := b]> m) m l !! o = Some b ->
  b ∈ l /\ wal_offset b = o \/ m !! o = Some b /\ Forall (fun b => wal_offset b <> o) l.
Proof.
  revert b. induction l as [|x l IH] using rev_ind; intros b; [by right|]. rewrite foldl_app. simpl.
  destruct (decide (wal_offset x = o)) as [<-|Hne].
  - rewrite lookup_insert_eq. intros [= ->]. left. set_solver.
  - rewrite lookup_insert_ne by done. intros [[??]|[??]]%IH; [left; set_solver|]. right. split; [done|].
    apply Forall_app. by repeat constructor.
Qed.

Lemma hand_out_mono l (m : gmap Z abuf) o :
  is_Some (m !! o) -> is_Some (foldl (fun m b => <[wal_offset b := b]> m) m l !! o).
Proof.
  induction l as [|x l IH] using rev_ind; intros Hm; [done|]. rewrite foldl_app. simpl.
  apply lookup_insert_is_Some'. right. by apply IH.
Qed.

Lemma hand_out_in l (m : gmap Z abuf) b :
  b ∈ l -> is_Some (foldl (fun m b => <[wal_offset b := b]> m) m l !! wal_offset b).
Proof.
  induction l as [|x l IH] using rev_ind; [set_solver|]. intros Hb. rewrite foldl_app. simpl.
  apply lookup_insert_is_Some'. apply elem_of_app in Hb as [Hb|Hb]; [right; by apply IH|left; set_solver].
Qed.

Lemma take_items w slots items w' :
  AlignedBufWriter.take w slots = (items, w') ->
  exists tail bf, items = firstn slots (AlignedBufWriter.full w) ++ tail /\ tail `sublist_of` option_list (AlignedBufWriter.current w) /\
    Forall (fun b => 0 < limit b) tail /\
    w' = AlignedBufWriter.mk (AlignedBufWriter.cursor w) (AlignedBufWriter.alignment w)
           (drop slots (AlignedBufWriter.full w)) (AlignedBufWriter.current w) (AlignedBufWriter.allocated w) bf.
Proof.
  unfold AlignedBufWriter.take. destruct (_ <? _)%nat; intros [= <- <-].
  - eexists _, _. split; [done|]. split_and!; [| |done].
    + destruct (AlignedBufWriter.current w) as [b|]; simpl; [|done]. destruct (has_data b); [done|by apply sublist_nil_l].
    + destruct (AlignedBufWriter.current w) as [b|]; simpl; [|by constructor]. unfold has_data.
      destruct (Z.ltb_spec 0 (limit b)); by repeat constructor.
  - eexists [], _. rewrite app_nil_r. split; [done|]. split; [apply sublist_nil_l|]. split; [by constructor|done].
Qed.

Lemma take_log L i rel a0 a z slots items w' :
  log_ok L i rel a0 a z -> AlignedBufWriter.take (IO.buf_writer i) slots = (items, w') ->
  exists rel' a', log_ok L (IO.hand_out (IO.set_writer i w') items) rel' a0 a' z /\
    blocks rel' (IO.hand_out (IO.set_writer i w') items) = blocks rel i /\
    Forall (fun b => b ∈ IO.writer_bufs i /\ 0 < limit b) items.
Proof.
  intros Hok Ht. pose proof (lo_writer _ _ _ _ _ _ Hok) as Hw. destruct (take_items _ _ _ _ Ht) as (tail & bf & -> & Htail & Hpos & ->).
  exists (rel ++ firstn slots (AlignedBufWriter.full (IO.buf_writer i))).
  destruct (drop_full (IO.buf_writer i) a z slots bf Hw) as (a' & Hw' & Hcon).
  assert (Hch : chain (AlignedBufWriter.alignment (IO.buf_writer i)) a (firstn slots (AlignedBufWriter.full (IO.buf_writer i))) a').
  { pose proof (wa_chain _ _ _ _ Hw) as Hch. pose proof (wa_chain _ _ _ _ Hw') as Hch'. simpl in Hch'.
    rewrite <- (take_drop slots (AlignedBufWriter.full (IO.buf_writer i))), <- (assoc_L (++)) in Hch.
    apply chain_app in Hch as (m & Hm1 & Hm2). by rewrite <- (chain_start _ _ _ _ _ Hm2 Hch'). }
  exists a'. set (w' := AlignedBufWriter.mk _ _ _ _ _ bf) in *.
  assert (Hbl : (rel ++ firstn slots (AlignedBufWriter.full (IO.buf_writer i))) ++ all_bufs w' = rel ++ all_bufs (IO.buf_writer i)).
  { unfold all_bufs. simpl. rewrite <- (assoc_L (++)). f_equal. by rewrite (assoc_L (++)), take_drop. }
  split_and!.
  - destruct Hok as [_ Hr Hf Hb Hc Hs Hh]. split; simpl; try done.
    + apply chain_app. by exists a.
    + apply Forall_app. split; [done|]. apply Forall_take, Hw.
    + unfold cursor in *. simpl. rewrite <- Hc, fmap_app, concat_app, <- (assoc_L (++)). by rewrite Hcon.
    + by rewrite Hbl.
    + intros o b Hob Hn. unfold IO.writer_bufs in Hn. simpl in Hn. rewrite find_buf_app in Hn.
      destruct (IO.find_buf o (drop _ _)) eqn:Hn1; [done|].
      apply hand_out_inv in Hob as [[Hin <-]|[Hob Hnot]].
      * split; [|done]. apply elem_of_app in Hin as [Hin|Hin]; [set_solver|].
        exfalso. eapply (find_buf_None _ _ b Hn); [|done]. by eapply elem_of_submseteq, sublist_submseteq.
      * destruct (Hh o b Hob) as [? ?]; [|split; [set_solver|done]].
        unfold IO.writer_bufs. rewrite find_buf_app, <- (take_drop slots (AlignedBufWriter.full (IO.buf_writer i))), find_buf_app.
        rewrite Hn1, Hn. destruct (IO.find_buf o (take _ _)) as [b1|] eqn:Hf1; [|done].
        apply find_buf_Some in Hf1 as [Hf1 Hf2]. apply Forall_app in Hnot as [Hnot _].
        by apply (proj1 (Forall_forall _ _) Hnot) in Hf1.
  - unfold blocks. f_equal. exact Hbl.
  - apply Forall_app. split; apply Forall_forall; intros b Hin.
    + assert (Hin' : b ∈ AlignedBufWriter.full (IO.buf_writer i)) by (by eapply subseteq_take in Hin).
      split; [unfold IO.writer_bufs; set_solver|]. rewrite (proj1 (Forall_forall _ _) (wa_full _ _ _ _ Hw) b Hin').
      by destruct (chain_elem _ _ _ _ _ Hch Hin) as (_ & _ & _ & _ & ?).
    + split; [|by apply (proj1 (Forall_forall _ _) Hpos)]. unfold IO.writer_bufs. apply elem_of_app. right.
      by eapply elem_of_submseteq, sublist_submseteq.
Qed.
End log.
