(* ===== verification/Appending.v ===== *)
(** * Appending to the log

    A write task for which there is room in the buffers ([need]) is appended by the I/O loop
    as one record, after a footer when its segment cannot hold it. *)

From S2P Require Import Prelude Bytes StoreTypes Index Collections AlignedBuf BlockCache Segment Record Wal WriteWindow Recovery WalSegments IoLoop IoFrame Tail SharedBufs.

Section skeletons.
Context {S : SkipListApi} {B : BytesApi} {C : Crc32Api}.

Lemma append_footer_skeleton (s : LogSegment.t S) w r s' w' :
  LogSegment.append_footer s w = Ret (r, s', w') -> skeleton w' = skeleton w.
Proof.
  unfold LogSegment.append_footer. intros H. do 6 apply bind_Ret_inv in H as (? & _ & H).
  apply bind_Ret_inv in H as ([r1 w1] & H1%write_record_skeleton & H). rewrite <- H1.
  destruct r1; [|by injection H as _ _ <-]. apply bind_Ret_inv in H as (? & _ & H). by injection H as _ _ <-.
Qed.

Lemma append_record_skeleton (s : LogSegment.t S) w d r s' w' :
  LogSegment.append_record s w d = Ret (r, s', w') -> skeleton w' = skeleton w.
Proof.
  unfold LogSegment.append_record. intros H. apply bind_Ret_inv in H as ([r1 w1] & H1%write_record_skeleton & H). rewrite <- H1.
  destruct r1; [|by injection H as _ _ <-]. do 2 apply bind_Ret_inv in H as (? & _ & H). by injection H as _ _ <-.
Qed.
End skeletons.

Section appending.
Context {S : SkipListApi} {R : RingApi} {P : PercentageApi} {Q : ScoreListApi}
  {B : BytesApi} {BL : BytesLaws B} {C : Crc32Api} {CL : Crc32Laws C} {M : MetaApi}.
Import LogSegment.

(** The buffer space that a sequence of records of these lengths takes from position [pos] of
    a segment on, with the footers in between. *)
Fixpoint need (fs pos : Z) (l : list Z) : Z :=
  match l with
  | [] => 0
  | n :: l =>
      if fs <? pos + n + FOOTER_LENGTH then (fs - pos) + (n + need fs n l)
      else n + need fs (pos + n) l
  end.

Definition record_len (task : WriteTask.t) : Z := 8 + Bytes.remaining (WriteTask.buffer task).

Definition task_ok (fs : Z) (task : WriteTask.t) : Prop :=
  WriteTask.buffer task <> [] /\ Bytes.remaining (WriteTask.buffer task) + FOOTER_LENGTH < 2 ^ 24 /\
  record_len task + FOOTER_LENGTH <= fs.

(** The log from [c] to [e] is a sequence of records of tasks that were received, and of
    footers, each in one segment. *)
Inductive framed (rcvd : list WriteTask.t) (fs : Z) (L : Z -> byte) : Z -> Z -> Prop :=
| framed_nil c : framed rcvd fs L c c
| framed_record c t e :
    t ∈ rcvd -> task_ok fs t -> c mod fs + record_len t + FOOTER_LENGTH <= fs ->
    span L c (record_len t) = record_bytes (c - c mod fs) RecordType.Full (WriteTask.buffer t) ->
    framed rcvd fs L (c + record_len t) e -> framed rcvd fs L c e
| framed_footer c e :
    c mod fs + FOOTER_LENGTH <= fs -> fs - c mod fs - 8 < 2 ^ 24 ->
    span L c (fs - c mod fs) =
      record_bytes (c - c mod fs) RecordType.Zero (footer_payload (fs - c mod fs - FOOTER_LENGTH)) ->
    framed rcvd fs L (c + (fs - c mod fs)) e -> framed rcvd fs L c e.

Lemma record_len_pos t : 8 <= record_len t.
Proof. unfold record_len. pose proof (remaining_nonneg (WriteTask.buffer t)). lia. Qed.

Lemma framed_le rcvd fs L c e : framed rcvd fs L c e -> c <= e.
Proof.
  induction 1 as [|c t e _ _ _ _ _ IH|c e ? ? _ _ IH]; [lia|pose proof (record_len_pos t); lia|unfold FOOTER_LENGTH in *; lia].
Qed.

Lemma framed_trans rcvd fs L c d e : framed rcvd fs L c d -> framed rcvd fs L d e -> framed rcvd fs L c e.
Proof. induction 1; [done|intros; by eapply framed_record; eauto|intros; eapply framed_footer; eauto]. Qed.

Lemma framed_ext rcvd fs L L' c e : (forall x, c <= x < e -> L' x = L x) -> framed rcvd fs L c e -> framed rcvd fs L' c e.
Proof.
  intros Hx H. induction H as [c|c t e Hin Ht Hf Hs H IH|c e Hf Hm Hs H IH]; [constructor| |].
  - pose proof (framed_le _ _ _ _ _ H). pose proof (record_len_pos t). eapply framed_record; [done..| |].
    + rewrite <- Hs. apply span_ext. intros y ?. apply Hx. lia.
    + apply IH. intros y ?. apply Hx. lia.
  - pose proof (framed_le _ _ _ _ _ H). pose proof (eq_refl : FOOTER_LENGTH = 24). eapply framed_footer; [done..| |].
    + rewrite <- Hs. apply span_ext. intros y ?. apply Hx. lia.
    + apply IH. intros y ?. apply Hx. lia.
Qed.

Lemma framed_received rcvd rcvd' fs L c e :
  (forall t, t ∈ rcvd -> t ∈ rcvd') -> framed rcvd fs L c e -> framed rcvd' fs L c e.
Proof. intros Hr. induction 1; [constructor|eapply framed_record; eauto|eapply framed_footer; eauto]. Qed.

(** What appending leaves as it is. *)
Record same_io (i i' : IO.t S R) : Prop := {
  si_options : IO.options i' = IO.options i;
  si_window : IO.write_window i' = IO.write_window i;
  si_barrier : IO.barrier i' = IO.barrier i;
  si_blocked : IO.blocked i' = IO.blocked i;
  si_resubmit : IO.resubmit_sqes i' = IO.resubmit_sqes i;
  si_handed : IO.handed i' = IO.handed i;
  si_inflight : IO.inflight i' = IO.inflight i;
  si_events : write_events i' = write_events i;
  si_align : AlignedBufWriter.alignment (IO.buf_writer i') = AlignedBufWriter.alignment (IO.buf_writer i);
}.
#[export] Instance same_io_refl : Reflexive same_io.
Proof. by split. Qed.
#[export] Instance same_io_trans : Transitive same_io.
Proof. intros ??? [] []. split; congruence. Qed.

Lemma same_writes_io i i' : same_writes i i' -> same_io i i'.
Proof. intros []. split; congruence. Qed.

Lemma log_ok_eq L i i' rel a0 a z :
  IO.buf_writer i' = IO.buf_writer i -> IO.handed i' = IO.handed i ->
  log_ok L i rel a0 a z -> log_ok L i' rel a0 a z.
Proof.
  intros Hww Hhd [Hw Hr Hf Hb Hc Hsm Hh]. split; unfold cursor, IO.writer_bufs in *; rewrite ?Hww, ?Hhd; done.
Qed.

Lemma same_writes_log L i i' rel a0 a z : same_writes i i' -> log_ok L i rel a0 a z -> log_ok L i' rel a0 a z.
Proof. intros Hs. apply log_ok_eq; apply Hs. Qed.

Lemma same_writes_blocks i i' rel : same_writes i i' -> blocks rel i' = blocks rel i.
Proof. intros Hs. unfold blocks. by rewrite (sw_writer _ _ Hs). Qed.

Lemma same_writes_cursor i i' : same_writes i i' -> cursor i' = cursor i.
Proof. intros Hs. unfold cursor. by rewrite (sw_writer _ _ Hs). Qed.

(** The log of [i'] extends that of [i]. *)
Record extends (rcvd : list WriteTask.t) (fs : Z) (L L' : Z -> byte) (i i' : IO.t S R) : Prop := {
  ex_same : same_io i i';
  ex_below : forall x, x < cursor i -> L' x = L x;
  ex_framed : framed rcvd fs L' (cursor i) (cursor i');
}.

Lemma ex_le rcvd fs L L' i i' : extends rcvd fs L L' i i' -> cursor i <= cursor i'.
Proof. intros [_ _ H]. by eapply framed_le. Qed.

Lemma refresh_pending (i : IO.t S R) i' : IO.refresh_cache i = Ret i' -> IO.pending_data_tasks i' = IO.pending_data_tasks i.
Proof.
  unfold IO.refresh_cache. generalize (IO.writer_bufs i). intros l. revert i. induction l as [|b l IH]; intros i H; simpl in H; [by inv_ret|].
  case_bool_decide; [|by apply IH]. apply bind_Ret_inv in H as ([[k s]|] & _ & H); by apply IH in H.
Qed.

(** Segment [n] has taken [d], which the writer has appended. *)
Lemma advance_log rcvd L i rel a0 a z fs n s s' w' d i' :
  log_ok L i rel a0 a z -> tail_ok fs (IO.wal i) (cursor i) -> d <> [] ->
  Wal.segment_file_of (IO.wal i) (cursor i) = Ret (Some (n, s)) -> same_place s s' ->
  writer_ok w' a z -> contents w' = contents (IO.buf_writer i) ++ d ->
  AlignedBufWriter.cursor w' = cursor i + Bytes.remaining d -> skeleton w' = skeleton (IO.buf_writer i) ->
  cursor i + Bytes.remaining d <= wal_offset s + size s -> at_tail (cursor i + Bytes.remaining d) s' ->
  (cursor i + Bytes.remaining d) mod fs + FOOTER_LENGTH <= fs ->
  IO.refresh_cache (IO.set_writer (IO.update_segment i n s') w') = Ret i' ->
  let L' := extend L (cursor i) d in
  framed rcvd fs L' (cursor i) (cursor i + Bytes.remaining d) ->
  extends rcvd fs L L' i i' /\ log_ok L' i' rel a0 a z /\ tail_ok fs (IO.wal i') (cursor i') /\
  blocks rel i' = blocks rel i /\ cursor i' = cursor i + Bytes.remaining d /\
  IO.inflight_write_tasks i' = IO.inflight_write_tasks i /\ IO.pending_data_tasks i' = IO.pending_data_tasks i.
Proof.
  intros Hok Htl Hne Hf Hsp Hw' Hcon Hcur Hsk Hend Hat Hpos Hr L' Hfr. apply refresh_pending in Hr as Hpend.
  apply refresh_cache_same in Hr. set (i1 := IO.set_writer _ w') in *.
  destruct (log_append L i rel a0 a z w' d i1) as [Hok1 Hbl]; [done..|]. pose proof (remaining_nonneg d).
  assert (Hc' : cursor i' = cursor i + Bytes.remaining d) by (rewrite (same_writes_cursor _ _ Hr); exact Hcur).
  destruct (found_tail _ _ _ _ _ Htl Hf) as (Hn & [Hh _] & _). split_and!.
  - split; [|intros x Hx; by apply extend_below|by rewrite Hc']. etrans; [|by apply same_writes_io].
    split; try done. simpl. unfold skeleton in Hsk. congruence.
  - by eapply same_writes_log.
  - rewrite Hc'. eapply tail_same; [|apply (sw_wal _ _ Hr)]. eapply tail_insert; [done|done|done|done|lia|done|done|done].
  - by rewrite (same_writes_blocks _ _ rel Hr).
  - done.
  - by rewrite (sw_tasks _ _ Hr).
  - done.
Qed.

Lemma footer_step rcvd L i rel a0 a z fs n s r s' w' i' m :
  log_ok L i rel a0 a z -> tail_ok fs (IO.wal i) (cursor i) ->
  Wal.segment_file_of (IO.wal i) (cursor i) = Ret (Some (n, s)) ->
  fs < cursor i mod fs + m + FOOTER_LENGTH -> m + FOOTER_LENGTH <= fs -> m + FOOTER_LENGTH <= 2 ^ 24 + 8 ->
  cursor i + (fs - cursor i mod fs) <= z ->
  append_footer s (IO.buf_writer i) = Ret (r, s', w') ->
  IO.refresh_cache (IO.set_writer (IO.update_segment i n s') w') = Ret i' ->
  exists L', extends rcvd fs L L' i i' /\ log_ok L' i' rel a0 a z /\ tail_ok fs (IO.wal i') (cursor i') /\
    blocks rel i' = blocks rel i /\ cursor i' = cursor i + (fs - cursor i mod fs) /\ cursor i' mod fs = 0 /\
    IO.inflight_write_tasks i' = IO.inflight_write_tasks i /\ IO.pending_data_tasks i' = IO.pending_data_tasks i.
Proof.
  intros Hok Htl Hf Hfull Hm Hm' Hroom Ha Hr.
  destruct (found_tail _ _ _ _ _ Htl Hf) as (Hn & [Hh1 Hh2] & Hsz & Hwr & Hmod & Hw0 & Hwo & [q Hq] & Hfs).
  pose proof (wa_bound _ _ _ _ (lo_writer _ _ _ _ _ _ Hok)). pose proof (to_pos _ _ _ Htl) as [_ Hpos].
  destruct (append_footer_spec s (IO.buf_writer i) a z) as (w1 & Ha' & Hw1 & Hcon & Hcur);
    [apply Hok|lia|lia|unfold FOOTER_LENGTH in *; lia|unfold cursor in *; lia|lia|lia|].
  rewrite Ha in Ha'. injection Ha' as -> -> ->. set (d := record_bytes _ _ _) in *.
  assert (Hd : Bytes.remaining d = size s - written s).
  { unfold d. rewrite remaining_record, remaining_footer by (unfold FOOTER_LENGTH in *; lia). unfold FOOTER_LENGTH. lia. }
  assert (Hmod0 : (cursor i + Bytes.remaining d) mod fs = 0).
  { rewrite Hd. replace (cursor i + (size s - written s)) with ((q + 1) * fs) by lia. apply Z.mod_mul. lia. }
  apply append_footer_skeleton in Ha as Hsk.
  destruct (advance_log rcvd L i rel a0 a z fs n s (set_state s (size s) Status.Read) w1 d i') as (H1 & H2 & H3 & H4 & H5 & H6 & H7); try done.
  - intros Hnil. rewrite Hnil in Hd. unfold Bytes.remaining in Hd. simpl in Hd. lia.
  - unfold cursor in *. lia.
  - lia.
  - intros Hlt. simpl in Hlt. lia.
  - rewrite Hmod0. unfold FOOTER_LENGTH in *. lia.
  - replace (cursor i + Bytes.remaining d) with (cursor i + (fs - cursor i mod fs)) by lia.
    apply framed_footer; [lia|unfold FOOTER_LENGTH in *; lia| |constructor].
    replace (fs - cursor i mod fs) with (Bytes.remaining d) at 1 by lia. rewrite span_extend. unfold d. f_equal; [lia|]. f_equal. lia.
  - exists (extend L (cursor i) d). split_and!; try done; [lia|by rewrite H5].
Qed.

Lemma record_step rcvd L i rel a0 a z fs n s r s' w' i' task :
  log_ok L i rel a0 a z -> tail_ok fs (IO.wal i) (cursor i) ->
  Wal.segment_file_of (IO.wal i) (cursor i) = Ret (Some (n, s)) -> live (status s) = true ->
  task ∈ rcvd -> task_ok fs task -> cursor i mod fs + record_len task + FOOTER_LENGTH <= fs ->
  cursor i + record_len task <= z ->
  append_record s (IO.buf_writer i) (WriteTask.buffer task) = Ret (r, s', w') ->
  IO.refresh_cache (IO.set_writer (IO.update_segment i n s') w') = Ret i' ->
  exists L', r = Ok (cursor i') /\ written s' - written s = record_len task /\
    extends rcvd fs L L' i i' /\ log_ok L' i' rel a0 a z /\ tail_ok fs (IO.wal i') (cursor i') /\
    blocks rel i' = blocks rel i /\ cursor i' = cursor i + record_len task /\
    cursor i' mod fs = cursor i mod fs + record_len task /\
    span L' (cursor i) (record_len task) = record_bytes (cursor i - cursor i mod fs) RecordType.Full (WriteTask.buffer task) /\
    IO.inflight_write_tasks i' = IO.inflight_write_tasks i /\ IO.pending_data_tasks i' = IO.pending_data_tasks i.
Proof.
  intros Hok Htl Hf Hlive Hin Htask Hfit Hroom Ha Hr. pose proof Htask as (Hne & Hlen & _). unfold record_len in *.
  destruct (found_tail _ _ _ _ _ Htl Hf) as (Hn & [Hh1 Hh2] & Hsz & Hwr & Hmod & Hw0 & Hwo & [q Hq] & Hfs).
  pose proof (wa_bound _ _ _ _ (lo_writer _ _ _ _ _ _ Hok)). pose proof (remaining_nonneg (WriteTask.buffer task)).
  destruct (append_record_spec s (IO.buf_writer i) a z (WriteTask.buffer task)) as (w1 & Ha' & Hw1 & Hcon & Hcur);
    [apply Hok|done|unfold FOOTER_LENGTH in *; lia|unfold cursor in *; lia|lia|lia|lia|].
  rewrite Ha in Ha'. injection Ha' as -> -> ->. set (d := record_bytes _ _ _) in *.
  assert (Hd : Bytes.remaining d = 8 + Bytes.remaining (WriteTask.buffer task)) by apply remaining_record.
  assert (Hmod' : (cursor i + Bytes.remaining d) mod fs = cursor i mod fs + Bytes.remaining d).
  { symmetry. apply Z.mod_unique with (q := q); unfold FOOTER_LENGTH in *; lia. }
  apply append_record_skeleton in Ha as Hsk.
  destruct (advance_log rcvd L i rel a0 a z fs n s (set_state s (written s + (8 + Bytes.remaining (WriteTask.buffer task))) (status s)) w1 d i')
    as (H1 & H2 & H3 & H4 & H5 & H6 & H7); try done.
  - intros Hnil. rewrite Hnil in Hd. unfold Bytes.remaining in Hd. simpl in Hd. unfold Bytes.remaining in *. lia.
  - unfold cursor in *. lia.
  - unfold FOOTER_LENGTH in *. lia.
  - intros Hlt. simpl in *. split; [done|]. split; [intros _; lia|intros ?; lia].
  - rewrite Hmod'. lia.
  - rewrite Hd. apply framed_record with task; [done|done|unfold record_len; lia| |constructor].
    unfold record_len. rewrite <- Hd, span_extend. unfold d. f_equal. lia.
  - exists (extend L (cursor i) d). rewrite <- Hd. split_and!; try done.
    + f_equal. lia.
    + simpl. lia.
    + by rewrite H5.
    + rewrite span_extend. unfold d. f_equal. lia.
Qed.

(** ** The loop of a write task *)

Definition append_ok (L : Z -> byte) (i : IO.t S R) (rel : list abuf) (a0 a z fs : Z) : Prop :=
  log_ok L i rel a0 a z /\ tail_ok fs (IO.wal i) (cursor i).

(** The task has been appended. *)
Record appended (rcvd : list WriteTask.t) (fs : Z) (L L' : Z -> byte) (i i' : IO.t S R) (task : WriteTask.t) : Prop := {
  ap_extends : extends rcvd fs L L' i i';
  ap_pending : IO.pending_data_tasks i' = IO.pending_data_tasks i;
  ap_tasks : IO.inflight_write_tasks i' =
    BTreeMap.insert (IO.inflight_write_tasks i) (cursor i') (WriteTask.set_written_len task (record_len task));
  ap_place : framed rcvd fs L' (cursor i) (cursor i' - record_len task);
  ap_record : let p := cursor i' - record_len task in
    p mod fs + record_len task + FOOTER_LENGTH <= fs /\
    span L' p (record_len task) = record_bytes (p - p mod fs) RecordType.Full (WriteTask.buffer task);
}.

(** The task waits. *)
Record waiting (rcvd : list WriteTask.t) (fs : Z) (L L' : Z -> byte) (i i' : IO.t S R) (task : WriteTask.t) : Prop := {
  wt_extends : extends rcvd fs L L' i i';
  wt_pending : IO.pending_data_tasks i' = TaskWrite task :: IO.pending_data_tasks i;
  wt_tasks : IO.inflight_write_tasks i' = IO.inflight_write_tasks i;
}.

Definition written_step (rcvd : list WriteTask.t) (L : Z -> byte) (rel : list abuf) (a0 a z fs : Z) (i : IO.t S R) (task : WriteTask.t)
    (rest : list Z) (r : IO.control (IO.building S R)) : Prop :=
  let i' := step_io r in
  exists L', append_ok L' i' rel a0 a z fs /\ blocks rel i' = blocks rel i /\
  match r with
  | IO.Continue _ => appended rcvd fs L L' i i' task /\ cursor i' + need fs (cursor i' mod fs) rest <= z
  | IO.Break _ => waiting rcvd fs L L' i i' task /\ cursor i' + need fs (cursor i' mod fs) (record_len task :: rest) <= z
  end.

Lemma need_start fs n l : n + FOOTER_LENGTH <= fs -> need fs 0 (n :: l) = n + need fs n l.
Proof. intros. cbn [need]. by rewrite Z.add_0_l, (proj2 (Z.ltb_ge _ _)) by lia. Qed.

Lemma append_ok_eq L i i' rel a0 a z fs :
  IO.buf_writer i' = IO.buf_writer i -> IO.handed i' = IO.handed i -> IO.wal i' = IO.wal i ->
  append_ok L i rel a0 a z fs -> append_ok L i' rel a0 a z fs.
Proof. intros Hw Hh Hwal [Hok Htl]. split; [by eapply log_ok_eq|]. unfold cursor in *. by rewrite Hwal, Hw. Qed.

Lemma append_ok_same L i i' rel a0 a z fs :
  same_writes i i' -> append_ok L i rel a0 a z fs -> append_ok L i' rel a0 a z fs.
Proof.
  intros Hs [Hok Htl]. split; [by eapply same_writes_log|]. rewrite (same_writes_cursor _ _ Hs).
  eapply tail_same; [done|]. apply Hs.
Qed.

Lemma need_nonneg fs pos l : Forall (fun n => 0 <= n /\ n + FOOTER_LENGTH <= fs) l -> 0 <= pos <= fs -> 0 <= need fs pos l.
Proof.
  intros Hl. revert pos. induction Hl as [|n l [Hn Hfs] _ IH]; intros pos Hp; simpl; [lia|]. unfold FOOTER_LENGTH in *.
  destruct (Z.ltb_spec fs (pos + n + 24)); [specialize (IH n)|specialize (IH (pos + n))]; lia.
Qed.

Lemma extends_trans rcvd fs L1 L2 L3 i1 i2 i3 :
  extends rcvd fs L1 L2 i1 i2 -> extends rcvd fs L2 L3 i2 i3 -> extends rcvd fs L1 L3 i1 i3.
Proof.
  intros [Hs1 Hb1 Hl1] [Hs2 Hb2 Hl2]. apply framed_le in Hl1 as Hle. split; [by etrans| |].
  - intros x Hx. rewrite Hb2, Hb1 by lia. done.
  - eapply framed_trans; [|done]. eapply framed_ext; [|done]. intros x ?. apply Hb2. lia.
Qed.

Lemma extends_refl rcvd fs L i i' : same_io i i' -> cursor i' = cursor i -> extends rcvd fs L L i i'.
Proof. intros Hs Hc. split; [done|done|rewrite Hc; constructor]. Qed.

Lemma writable_status (s : LogSegment.t S) : writable s = true -> status s = Status.ReadWrite.
Proof. unfold writable, Status.eqb. intros [_ H]%andb_true_iff. by apply bool_decide_eq_true in H. Qed.

Lemma can_hold_spec (s : LogSegment.t S) n b :
  status s = Status.ReadWrite -> can_hold s n = Ret b -> b = (written s + (8 + n) + FOOTER_LENGTH <=? size s).
Proof.
  unfold can_hold. intros -> H. simpl in H. change RecordType.RECORD_PREFIX_LENGTH with 8 in H.
  apply bind_Ret_inv in H as (x & [-> _]%uint_add_inv & H). apply bind_Ret_inv in H as (y & [-> _]%uint_add_inv & H).
  apply bind_Ret_inv in H as (w & [-> _]%uint_add_inv & H). injection H as <-. f_equal. lia.
Qed.

Lemma write_loop_ok rcvd fuel st task L rel a0 a z fs rest r :
  append_ok L (IO.io st) rel a0 a z fs -> task ∈ rcvd -> task_ok fs task ->
  Forall (fun n => 0 <= n /\ n + FOOTER_LENGTH <= fs) rest ->
  cursor (IO.io st) + need fs (cursor (IO.io st) mod fs) (record_len task :: rest) <= z ->
  IO.write_loop fuel st task = Ret (Some r) -> written_step rcvd L rel a0 a z fs (IO.io st) task rest r.
Proof.
  revert st L. induction fuel as [|fuel IH]; intros st L [Hok Htl] Hin Htask Hrest Hroom H; simpl in H; [done|].
  apply bind_Ret_inv in H as (free & _ & H). set (i := IO.io st) in *.
  assert (Hyield : forall free need_write, written_step rcvd L rel a0 a z fs i task rest
    (IO.Break (IO.with_io (IO.mk_building i free need_write (IO.missed_entries st) (IO.strong_referenced_entries st))
       (IO.push_front i (TaskWrite task))))).
  { intros f nw. exists L. simpl. split; [by apply (append_ok_eq L i)|]. split; [done|]. split; [|done].
    split; [|done..]. apply extends_refl; [by split|done]. }
  destruct (free <? 0); [injection H as <-; apply Hyield|].
  apply bind_Ret_inv in H as ([[n s]|] & Hf & H); [|injection H as <-; apply Hyield].
  destruct (writable s) eqn:Hwr; simpl in H; [|injection H as <-; apply Hyield]. apply writable_status in Hwr.
  destruct (sd s); [|done]. apply bind_Ret_inv in H as (hold & Hhold%can_hold_spec & H); [|done].
  destruct (found_tail _ _ _ _ _ Htl Hf) as (Hn & [Hh1 Hh2] & Hsz & Hw & Hmod & Hw0 & Hwo & Hdiv & Hfs).
  pose proof (remaining_nonneg (WriteTask.buffer task)). pose proof Htask as (_ & Hlen & Hfit).
  simpl in Hroom. destruct hold; simpl in H.
  - assert (Hcan : cursor i mod fs + record_len task + FOOTER_LENGTH <= fs) by (unfold record_len; bool_to_prop; lia).
    rewrite (proj2 (Z.ltb_ge _ _)) in Hroom by lia.
    assert (0 <= need fs (cursor i mod fs + record_len task) rest).
    { apply need_nonneg; [done|]. unfold record_len, FOOTER_LENGTH in *. lia. }
    apply bind_Ret_inv in H as ([[r1 s1] w1] & Ha & H). apply bind_Ret_inv in H as (i1 & Hr & H).
    destruct (record_step rcvd L i rel a0 a z fs n s r1 s1 w1 i1 task)
      as (L' & -> & Hwl & Hex & Hok' & Htl' & Hbl & Hcur & Hmod' & Hrec & Htasks & Hpend); try done; [by rewrite Hwr|lia|].
    apply bind_Ret_inv in H as (written & Hwd & H). injection H as <-.
    apply uint_sub_inv in Hwd as [-> _]. rewrite Hwl, as_uint_id in * by (unfold is_uint, record_len, FOOTER_LENGTH in *; lia).
    exists L'. simpl. split; [by apply (append_ok_eq L' i1)|]. split; [done|]. change (cursor (IO.set_writes i1 _)) with (cursor i1).
    split; [|rewrite Hmod'; lia]. split; try done.
    + eapply extends_trans; [exact Hex|]. apply extends_refl; [by split|done].
    + simpl. by rewrite Htasks.
    + change (cursor (IO.set_writes i1 _)) with (cursor i1). rewrite Hcur, Z.add_simpl_r. constructor.
    + change (cursor (IO.set_writes i1 _)) with (cursor i1). by rewrite Hcur, Z.add_simpl_r.
  - assert (Hcan : fs < cursor i mod fs + record_len task + FOOTER_LENGTH) by (unfold record_len; bool_to_prop; lia).
    rewrite (proj2 (Z.ltb_lt _ _)) in Hroom by lia.
    assert (0 <= need fs (record_len task) rest).
    { apply need_nonneg; [done|]. unfold record_len, FOOTER_LENGTH in *. lia. }
    apply bind_Ret_inv in H as ([[r1 s1] w1] & Ha & H). apply bind_Ret_inv in H as (i1 & Hr & H).
    destruct (footer_step rcvd L i rel a0 a z fs n s r1 s1 w1 i1 (record_len task))
      as (L' & Hex & Hok' & Htl' & Hbl & Hcur & Hmod' & Htasks & Hpend); try done;
      [unfold record_len, FOOTER_LENGTH in *; lia|unfold record_len in *; lia|].
    apply (IH _ L') in H; [|by split|done|done|done|].
    + destruct H as (L2 & Hap & Hbl2 & H). exists L2. split; [done|]. split; [simpl in *; congruence|].
      destruct r as [st'|st'].
      * destruct H as [[Hex2 Hp2 Ht2 Hpl Hrec2] Hroom2]. split; [|done]. simpl in *.
        split; [by eapply extends_trans| |by rewrite Ht2, Htasks| |done]; [congruence|]. apply framed_le in Hpl as Hle.
        eapply framed_trans; [|exact Hpl]. eapply framed_ext; [|apply Hex]. intros x ?. apply (ex_below _ _ _ _ _ _ Hex2). simpl. lia.
      * destruct H as [[Hex2 Hp2 Ht2] Hroom2]. split; [|done]. simpl in *.
        split; [by eapply extends_trans|by rewrite Hp2, Hpend|by rewrite Ht2, Htasks].
    + cbn [IO.io]. rewrite Hmod', need_start by lia. lia.
Qed.

(** ** The loop over the pending tasks *)

(** Where the record of an appended task is: before [k], behind the records since [c0]. *)
Definition record_at (fs c0 : Z) (rcvd : list WriteTask.t) (L : Z -> byte) (k : Z) (t : WriteTask.t) : Prop :=
  exists t0, let p := k - record_len t0 in
    t = WriteTask.set_written_len t0 (record_len t0) /\ t0 ∈ rcvd /\ task_ok fs t0 /\
    p mod fs + record_len t0 + FOOTER_LENGTH <= fs /\ framed rcvd fs L c0 p /\
    span L p (record_len t0) = record_bytes (p - p mod fs) RecordType.Full (WriteTask.buffer t0).

(** The tasks that have been received are pending, or in the log. *)
Record loop_ok (L : Z -> byte) (i : IO.t S R) (rel : list abuf) (a0 a z fs c0 : Z) (rcvd : list WriteTask.t) : Prop := {
  lp_append : append_ok L i rel a0 a z fs;
  lp_framed : framed rcvd fs L c0 (cursor i);
  lp_room : cursor i + need fs (cursor i mod fs) (record_len <$> write_tasks (IO.pending_data_tasks i)) <= z;
  lp_pending : Forall (fun t => task_ok fs t /\ t ∈ rcvd) (write_tasks (IO.pending_data_tasks i));
  lp_sorted : BTreeMap.sorted (IO.inflight_write_tasks i);
  lp_tasks : forall k t, (k, t) ∈ IO.inflight_write_tasks i -> k <= cursor i /\ record_at fs c0 rcvd L k t;
}.

Lemma record_at_mono fs c0 rcvd L L' c k t :
  (forall x, x < c -> L' x = L x) -> k <= c -> record_at fs c0 rcvd L k t -> record_at fs c0 rcvd L' k t.
Proof.
  intros Hx Hk (t0 & -> & Hin & Hl & Hfit & Hfr & Hs). exists t0. pose proof (remaining_nonneg (WriteTask.buffer t0)).
  split_and!; try done.
  - eapply framed_ext; [|done]. intros x Hx'. apply Hx. unfold record_len in *. lia.
  - rewrite <- Hs. apply span_ext. intros x Hx'. apply Hx. unfold record_len in *. lia.
Qed.

Lemma loop_ok_same L i i' rel a0 a z fs c0 rcvd :
  same_writes i i' -> loop_ok L i rel a0 a z fs c0 rcvd -> loop_ok L i' rel a0 a z fs c0 rcvd.
Proof.
  intros Hs [Ha Hb Hr Hpd Hso Ht]. pose proof (sw_pending _ _ Hs) as Hp. pose proof (same_writes_cursor _ _ Hs) as Hc. pose proof (sw_tasks _ _ Hs) as Htk.
  split; rewrite ?Hp, ?Hc, ?Htk; try done. by eapply append_ok_same.
Qed.

Definition looped (L : Z -> byte) (rel : list abuf) (a0 a z fs c0 : Z) (rcvd : list WriteTask.t) (i i' : IO.t S R) : Prop :=
  exists L', extends rcvd fs L L' i i' /\ loop_ok L' i' rel a0 a z fs c0 rcvd /\ blocks rel i' = blocks rel i.

Lemma task_step_ok L rel a0 a z fs c0 rcvd st now r :
  loop_ok L (IO.io st) rel a0 a z fs c0 rcvd -> IO.task_step st now = Ret r ->
  looped L rel a0 a z fs c0 rcvd (IO.io st) (step_io r).
Proof.
  intros Hlp H. unfold IO.task_step in H. destruct (IO.pending_data_tasks (IO.io st)) as [|[task|task] rest] eqn:Hp.
  - injection H as <-. exists L. simpl. split; [by apply extends_refl|]. by split.
  - apply read_step_same in H as Hs. simpl in Hs.
    assert (Hs' : same_writes (IO.io st) (step_io r)) by (etrans; [apply (set_pending_same _ rest); by rewrite Hp|exact Hs]).
    exists L. split; [apply extends_refl; [by apply same_writes_io|by apply same_writes_cursor]|].
    split; [|by apply same_writes_blocks]. by eapply loop_ok_same; [exact Hs'|].
  - destruct Hlp as [Ha Hb Hr Hpd Hso Ht]. rewrite Hp in Hr, Hpd. simpl in Hr, Hpd. apply Forall_cons in Hpd as [[Htask Hrcvd] Hpd].
    unfold IO.write_step in H. apply bind_Ret_inv in H as ([r'|] & H & Hr'); [injection Hr' as ->|done]. apply (write_loop_ok rcvd _ _ _ L rel a0 a z fs (record_len <$> write_tasks rest)) in H;
      [|by apply (append_ok_eq L (IO.io st))|done|done| |exact Hr].
    2:{ apply Forall_fmap. eapply Forall_impl; [exact Hpd|]. intros t [(_ & _ & ?) _]. simpl. unfold record_len in *.
        pose proof (remaining_nonneg (WriteTask.buffer t)). lia. }
    destruct H as (L' & Hap & Hbl & H). exists L'. destruct r as [st'|st']; simpl in *.
    + destruct H as [[Hex Hpend Htasks Hplace [Hfit Hrec]] Hroom]. change (cursor (IO.set_pending (IO.io st) rest)) with (cursor (IO.io st)) in *.
      assert (Hpos : 0 < record_len task < 2 ^ 32).
      { destruct Htask as (_ & ? & _). unfold record_len, FOOTER_LENGTH in *. pose proof (remaining_nonneg (WriteTask.buffer task)). lia. }
      split; [eapply extends_trans; [|exact Hex]; by apply extends_refl|]. split; [|done].
      assert (Hb' : framed rcvd fs L' c0 (cursor (IO.io st))).
      { eapply framed_ext; [|exact Hb]. intros x [_ ?]. by apply (ex_below _ _ _ _ _ _ Hex). }
      split; [done|eapply framed_trans; [exact Hb'|apply Hex]|by rewrite Hpend|by rewrite Hpend| |].
      * rewrite Htasks. by apply BTreeMap.sorted_insert.
      * intros k t Hin. rewrite Htasks in Hin. apply BTreeMap.elem_of_insert in Hin as [[-> ->]|[_ Hin]]; [| |done].
        -- split; [lia|]. exists task. split_and!; (done || lia || by eapply framed_trans).
        -- apply Ht in Hin as [Hk Hrec']. pose proof (ex_le _ _ _ _ _ _ Hex) as Hle. change (cursor (IO.set_pending (IO.io st) rest)) with (cursor (IO.io st)) in Hle.
           split; [lia|]. eapply (record_at_mono _ _ _ L L' (cursor (IO.io st))); [apply Hex|done|done].
    + destruct H as [[Hex Hpend Htasks] Hroom]. change (cursor (IO.set_pending (IO.io st) rest)) with (cursor (IO.io st)) in *.
      split; [eapply extends_trans; [|exact Hex]; by apply extends_refl|]. split; [|done].
      pose proof (ex_le _ _ _ _ _ _ Hex) as Hle. change (cursor (IO.set_pending (IO.io st) rest)) with (cursor (IO.io st)) in Hle.
      split; [done| |by rewrite Hpend|rewrite Hpend; simpl; by constructor|by rewrite Htasks|].
      { eapply framed_trans; [|apply Hex]. eapply framed_ext; [|exact Hb]. intros x [_ ?]. by apply (ex_below _ _ _ _ _ _ Hex). }
      intros k t Hin. rewrite Htasks in Hin. apply Ht in Hin as [Hk Hrec']. split; [lia|].
      eapply (record_at_mono _ _ _ L L' (cursor (IO.io st))); [apply Hex|done|done].
Qed.

Lemma task_loop_ok L rel a0 a z fs c0 rcvd fuel st now st' :
  loop_ok L (IO.io st) rel a0 a z fs c0 rcvd -> IO.task_loop fuel st now = Ret (Some st') ->
  looped L rel a0 a z fs c0 rcvd (IO.io st) (IO.io st').
Proof.
  revert st L. induction fuel as [|fuel IH]; intros st L Hlp H; simpl in H; [done|].
  apply bind_Ret_inv in H as (r & Hr & H). apply (task_step_ok L rel a0 a z fs c0 rcvd) in Hr as (L' & Hex & Hlp' & Hbl); [|done].
  destruct r as [st1|st1]; simpl in *; [|injection H as <-; by exists L'].
  apply (IH st1 L') in H as (L2 & Hex2 & Hlp2 & Hbl2); [|done]. exists L2.
  split; [by eapply extends_trans|]. split; [done|congruence].
Qed.
End appending.
