(* ===== verification/Reserve.v ===== *)
(** * Room for the pending writes

    [reserve_write_buffers] allocates the buffers that the pending write tasks take, footers
    included, when the buffers at hand are fewer than the tasks without footers. *)

From S2P Require Import Prelude Bytes StoreTypes Index Collections AlignedBuf BlockCache Segment Record Wal WriteWindow Recovery WalSegments IoLoop IoFrame Tail SharedBufs Appending.

Lemma sum_remaining_spec al acc l m z :
  chain al m l z -> Forall (fun b => AlignedBuf.limit b = 0) l -> 0 <= acc -> acc + (z - m) < 2 ^ 64 ->
  AlignedBufWriter.sum_remaining acc l = Ret (acc + (z - m)).
Proof.
  revert acc m. induction l as [|b l IH]; intros acc m Hch Hl Hacc Hb; simpl in *; [subst; f_equal; lia|].
  destruct Hch as (Hw & (_ & ? & ?) & _ & Hch). apply Forall_cons in Hl as [Hl0 Hl]. pose proof (chain_le _ _ _ _ Hch).
  unfold AlignedBuf.remaining. rewrite Hl0. run_arith. rewrite (IH _ (m + AlignedBuf.capacity b)); [f_equal; lia|done|done|lia|lia].
Qed.

Lemma writer_remaining w a z :
  writer_ok w a z -> AlignedBufWriter.remaining w = Ret (z - AlignedBufWriter.cursor w).
Proof.
  intros Hw. pose proof (cursor_bounds _ _ _ _ Hw) as [? ?]. pose proof (wa_bound _ _ _ _ Hw).
  destruct Hw as [Hch Hf Hal Hc _ _ _]. rewrite (assoc_L (++)) in Hch. apply chain_app in Hch as (m & Hl & Hr).
  pose proof (chain_le _ _ _ _ Hr). pose proof (chain_le _ _ _ _ Hl).
  unfold AlignedBufWriter.remaining. rewrite (sum_remaining_spec _ 0 _ m z) by (done || lia).
  destruct (AlignedBufWriter.current w) as [b|].
  - apply chain_app in Hl as (m1 & _ & Hm & (_ & ? & _) & _ & Hm2). simpl in Hm2. unfold AlignedBuf.remaining. run_arith. f_equal. lia.
  - destruct Hc as [Hnil Hc]. rewrite Hnil in Hl. simpl in *. subst m. run_arith. f_equal. lia.
Qed.

Section reserve.
Context {S : SkipListApi} {R : RingApi} {P : PercentageApi} {Q : ScoreListApi}
  {B : BytesApi} {BL : BytesLaws B} {C : Crc32Api} {CL : Crc32Laws C} {M : MetaApi}.

Lemma requirements_spec fs l :
  Forall (task_ok fs) (write_tasks l) -> IO.requirements l = Ret (record_len <$> write_tasks l).
Proof.
  induction l as [|[t|t] l IH]; intros Hl; simpl in *; [done| |].
  - rewrite IH by done. done.
  - apply Forall_cons in Hl as [(_ & Ht & _) Hl]. pose proof (remaining_nonneg (WriteTask.buffer t)).
    unfold WriteTask.total_len. rewrite as_uint_id by (unfold is_uint, FOOTER_LENGTH in *; lia).
    unfold FOOTER_LENGTH in *. run_arith. rewrite IH by done. simpl. rewrite (proj2 (Z.ltb_lt _ _)) by lia.
    do 2 f_equal. unfold record_len. lia.
Qed.

Lemma sum_usize_spec acc l :
  Forall (fun n => 0 <= n) l -> 0 <= acc -> acc + foldr Z.add 0 l < 2 ^ 64 ->
  IO.sum_usize acc l = Ret (acc + foldr Z.add 0 l).
Proof.
  intros Hl. revert acc. induction Hl as [|n l Hn Hl IH]; intros acc Hacc Hb; simpl in *; [f_equal; lia|].
  assert (0 <= foldr Z.add 0 l) by (clear -Hl; induction Hl; simpl; lia).
  run_arith. rewrite IH by lia. f_equal. lia.
Qed.

(** [i] with the writer [w'] has buffers up to [z']. *)
Definition reserved (L : Z -> byte) (i : IO.t S R) (rel : list abuf) (a0 a : Z) (w' : AlignedBufWriter.t) (z' : Z) : Prop :=
  more_bufs (IO.buf_writer i) w' /\ log_ok L (IO.set_writer i w') rel a0 a z'.

Section loops.
Context (L : Z -> byte) (i : IO.t S R) (rel : list abuf) (a0 a fs : Z).
Hypothesis Hal : AlignedBufWriter.alignment (IO.buf_writer i) < 2 ^ 61.
Hypothesis Hfs : 0 < fs < 2 ^ 32.
Hypothesis Hdiv : (AlignedBufWriter.alignment (IO.buf_writer i) | fs).

Lemma reserve_more_spec w z t :
  reserved L i rel a0 a w z -> z < t -> t < 2 ^ 61 -> z / fs = (t - 1) / fs ->
  exists w' z', IO.reserve_more w z (t - z) fs = Ret (Ok z', w') /\
    AlignedBufWriter.reserve_to w t fs = Ret (Ok (), w') /\
    reserved L i rel a0 a w' z' /\ t <= z' <= (z / fs + 1) * fs.
Proof.
  intros [Hm Hok] Hlt Ht Hseg. pose proof Hm as (_ & _ & _ & Halg & _ & _).
  destruct (reserve_log L (IO.set_writer i w) rel a0 a z t fs) as (w' & z' & Hr & Hm' & Hok' & H1 & H2 & H3 & _);
    simpl; rewrite ?Halg; try done. destruct H3 as [_ H3]; [done|]. simpl in *.
  pose proof (log_bounds' _ _ _ _ _ _ Hok). exists w', z'.
  assert (Hres : reserved L i rel a0 a w' z').
  { split; [by etrans|]. by apply (log_ok_eq L (IO.set_writer (IO.set_writer i w) w')). }
  split; [|split; [done|split; [done|lia]]]. unfold IO.reserve_more. run_arith. replace (z + (t - z)) with t by lia.
  rewrite Hr. simpl. by rewrite (max_allocated_spec w' a z') by apply Hok'.
Qed.

(** The end of the segment of [z]. *)
Lemma segment_end z e pos :
  e mod fs = pos -> e - pos <= z -> z < e + (fs - pos) ->
  z / fs = (e + (fs - pos) - 1) / fs /\ (z / fs + 1) * fs = e + (fs - pos).
Proof.
  intros Hpos Hlo Hhi. pose proof (Z.div_mod e fs ltac:(lia)) as He. rewrite Hpos in He.
  assert (z / fs = e / fs) as Hz by (symmetry; apply Z.div_unique with (r := z - (e - pos)); lia).
  split; [|lia]. rewrite Hz. apply Z.div_unique with (r := fs - 1); lia.
Qed.

Lemma mod_next e pos n : e mod fs = pos -> 0 <= n -> pos + n < fs -> (e + n) mod fs = pos + n.
Proof.
  intros Hpos Hn Hlt. pose proof (Z.div_mod e fs ltac:(lia)). pose proof (Z.mod_pos_bound e fs ltac:(lia)).
  symmetry. apply Z.mod_unique with (q := e / fs); lia.
Qed.

Lemma mod_end e pos : e mod fs = pos -> (e + (fs - pos)) mod fs = 0.
Proof.
  intros Hpos. pose proof (Z.div_mod e fs ltac:(lia)).
  symmetry. apply Z.mod_unique with (q := e / fs + 1); lia.
Qed.

Definition reserving_ok (st : IO.reserving) (e z : Z) : Prop :=
  reserved L i rel a0 a (IO.writer st) z /\ IO.max_allocated st = z /\
  IO.pos st = e mod fs /\ IO.pos st + FOOTER_LENGTH <= fs /\ e - IO.pos st <= z /\ 0 <= e /\
  Forall (fun n => 0 < n /\ n + FOOTER_LENGTH <= fs) (IO.requirement st) /\
  e + need fs (IO.pos st) (IO.requirement st) + fs < 2 ^ 61.

Lemma need_pos n l pos :
  Forall (fun n => 0 < n /\ n + FOOTER_LENGTH <= fs) (n :: l) -> 0 <= pos <= fs ->
  0 <= need fs n l /\ (pos + n + FOOTER_LENGTH <= fs -> 0 <= need fs (pos + n) l).
Proof.
  intros [[Hn Hnf] Hl]%Forall_cons Hp. unfold FOOTER_LENGTH in *.
  split; intros; (apply need_nonneg; [eapply Forall_impl; [exact Hl|]; unfold FOOTER_LENGTH; simpl; lia|lia]).
Qed.

Lemma segment_same z e pos : e mod fs = pos -> e - pos <= z < e -> z / fs = (e - 1) / fs.
Proof.
  intros Hpos Hz. pose proof (Z.div_mod e fs ltac:(lia)) as He. pose proof (Z.mod_pos_bound e fs ltac:(lia)).
  rewrite <- (Z.div_unique z fs (e / fs) (z - (e - pos))) by lia. apply Z.div_unique with (r := pos - 1); lia.
Qed.

(** Going on to the next segment: the buffers are extended to the end of this one. *)
Lemma next_segment w z e pos :
  reserved L i rel a0 a w z -> e mod fs = pos -> e - pos <= z < e + (fs - pos) -> e + (fs - pos) < 2 ^ 61 ->
  exists w', IO.reserve_more w z (e + (fs - pos) - z) fs = Ret (Ok (e + (fs - pos)), w') /\
    reserved L i rel a0 a w' (e + (fs - pos)).
Proof.
  intros Hres Hpos Hz Hb. destruct (segment_end z e pos) as [H1 H2]; [done|lia..|].
  destruct (reserve_more_spec w z (e + (fs - pos))) as (w' & z' & Hr & _ & Hres' & Hle); [done|lia|lia|done|].
  exists w'. assert (z' = e + (fs - pos)) as -> by lia. by split.
Qed.

(** The second loop: it starts where the first one ended, [e], and the buffers end at [z]. *)
Lemma alloc_loop_spec fuel st e z :
  reserving_ok st e z -> e = z + IO.to_allocate st -> 0 <= IO.to_allocate st ->
  (2 * length (IO.requirement st) - (if decide (IO.pos st = 0%Z) then 1 else 0) < fuel)%nat ->
  exists w' z', IO.alloc_loop fuel st fs = Ret (Ok (), w') /\ reserved L i rel a0 a w' z' /\
    e + need fs (IO.pos st) (IO.requirement st) <= z'.
Proof.
  revert st e z. induction fuel as [|fuel IH]; intros st e z (Hres & Hmax & Hpos & Hfoot & Hseg & He0 & Hreq & Hbd) He Hta Hfuel; [lia|].
  pose proof (Z.mod_pos_bound e fs ltac:(lia)) as Hmod. cbn [IO.alloc_loop].
  destruct (IO.requirement st) as [|n rest] eqn:Hrq; cbn [need length] in *.
  - destruct (Z.ltb_spec 0 (IO.to_allocate st)) as [Hlt|Hge].
    + rewrite Hmax, uint_add_Ret by lia. simpl. rewrite <- He.
      destruct (reserve_more_spec (IO.writer st) z e) as (w' & z' & _ & Hr & Hres' & Hle);
        [done|lia|lia|by apply (segment_same z e (IO.pos st)); [|lia]|].
      exists w', z'. split; [done|]. split; [done|lia].
    + exists (IO.writer st), z. split; [done|]. split; [done|lia].
  - destruct (need_pos n rest (IO.pos st) Hreq) as [Hn1 Hn2]; [unfold FOOTER_LENGTH in *; lia|].
    apply Forall_cons in Hreq as [[Hn Hnf] Hreq]. unfold FOOTER_LENGTH in *.
    rewrite !uint_add_Ret by lia. simpl. rewrite uint_add_Ret by lia. simpl.
    revert Hbd. destruct (Z.ltb_spec fs (IO.pos st + n + 24)) as [Hov|Hfit]; intros Hbd.
    + rewrite uint_sub_Ret by lia. simpl. rewrite uint_add_Ret by lia. simpl.
      destruct (next_segment (IO.writer st) z e (IO.pos st)) as (w' & Hr & Hres'); [done|done|lia|lia|].
      rewrite Hmax. replace (IO.to_allocate st + (fs - IO.pos st)) with (e + (fs - IO.pos st) - z) by lia. rewrite Hr. simpl.
      destruct (IH (IO.mk_reserving w' (n :: rest) 0 (e + (fs - IO.pos st)) 0) (e + (fs - IO.pos st)) (e + (fs - IO.pos st)))
        as (w2 & z2 & H2 & Hres2 & Hle2); simpl.
      * unfold reserving_ok. cbn [IO.writer IO.max_allocated IO.pos IO.requirement]. rewrite need_start, (mod_end e (IO.pos st)) by (done || unfold FOOTER_LENGTH; lia).
        unfold FOOTER_LENGTH. split_and!; try done; try lia. by constructor.
      * lia.
      * lia.
      * destruct (decide (IO.pos st = 0)); [lia|]. lia.
      * exists w2, z2. split; [done|]. split; [done|]. cbn [IO.pos IO.requirement] in Hle2. rewrite need_start in Hle2 by (unfold FOOTER_LENGTH; lia). lia.
    + specialize (Hn2 ltac:(lia)).
      destruct (IH (IO.mk_reserving (IO.writer st) rest (IO.pos st + n) (IO.max_allocated st) (IO.to_allocate st + n)) (e + n) z)
        as (w2 & z2 & H2 & Hres2 & Hle2); simpl.
      * unfold reserving_ok. simpl. rewrite (mod_next e (IO.pos st)) by (done || lia). unfold FOOTER_LENGTH. split_and!; try done; lia.
      * lia.
      * lia.
      * destruct (decide (IO.pos st = 0)); destruct (decide (IO.pos st + n = 0)); lia.
      * exists w2, z2. split; [done|]. split; [done|]. simpl in Hle2. lia.
Qed.

(** The first loop: [allocated] bytes of the buffers, which end at [z], are left from [e] on. *)
Lemma reuse_loop_spec fuel st allocated e z :
  reserving_ok st e z -> e + allocated = z -> 0 <= allocated -> IO.to_allocate st = 0 ->
  (2 * length (IO.requirement st) - (if decide (IO.pos st = 0%Z) then 1 else 0) < fuel)%nat ->
  exists st' e' z', IO.reuse_loop fuel st allocated fs = Ret (Ok st', IO.writer st') /\ reserving_ok st' e' z' /\
    (e' = z' + IO.to_allocate st' \/ IO.requirement st' = [] /\ IO.to_allocate st' = 0 /\ e' <= z') /\ 0 <= IO.to_allocate st' /\
    e' + need fs (IO.pos st') (IO.requirement st') = e + need fs (IO.pos st) (IO.requirement st) /\
    (length (IO.requirement st') <= length (IO.requirement st))%nat.
Proof.
  revert st allocated e z. induction fuel as [|fuel IH]; intros st allocated e z Hst He Hall Hta Hfuel; [lia|].
  pose proof Hst as (Hres & Hmax & Hpos & Hfoot & Hseg & He0 & Hreq & Hbd).
  pose proof (Z.mod_pos_bound e fs ltac:(lia)) as Hmod. cbn [IO.reuse_loop].
  destruct (IO.requirement st) as [|n rest] eqn:Hrq.
  { exists st, e, z. rewrite Hrq. split_and!; (done || lia || right; split_and!; (done || lia)). }
  destruct (Z.ltb_spec 0 allocated) as [Hpa|Hno]; simpl.
  2:{ exists st, e, z. rewrite Hrq. split_and!; (done || lia). }
  destruct (need_pos n rest (IO.pos st) Hreq) as [Hn1 Hn2]; [unfold FOOTER_LENGTH in *; lia|].
  apply Forall_cons in Hreq as [[Hn Hnf] Hreq]. cbn [need length] in *. unfold FOOTER_LENGTH in *.
  rewrite !uint_add_Ret by lia. simpl. rewrite uint_add_Ret by lia. simpl.
  revert Hbd. destruct (Z.ltb_spec fs (IO.pos st + n + 24)) as [Hov|Hfit]; intros Hbd.
  - rewrite uint_sub_Ret by lia. simpl. set (e2 := e + (fs - IO.pos st)).
    assert (Hst2 : forall w' z', reserved L i rel a0 a w' z' -> e2 <= z' ->
      reserving_ok (IO.mk_reserving w' (n :: rest) 0 z' (IO.to_allocate st)) e2 z').
    { intros w' z' Hw' Hz'. unfold reserving_ok. cbn [IO.writer IO.max_allocated IO.pos IO.requirement].
      unfold e2 in *. rewrite need_start, (mod_end e (IO.pos st)) by (done || unfold FOOTER_LENGTH; lia).
      unfold FOOTER_LENGTH. split_and!; try done; try lia. by constructor. }
    assert (Hnext : forall w' z' al, reserved L i rel a0 a w' z' -> e2 + al = z' -> 0 <= al ->
      exists st' e' z2, IO.reuse_loop fuel (IO.mk_reserving w' (n :: rest) 0 z' (IO.to_allocate st)) al fs = Ret (Ok st', IO.writer st') /\
        reserving_ok st' e' z2 /\
        (e' = z2 + IO.to_allocate st' \/ IO.requirement st' = [] /\ IO.to_allocate st' = 0 /\ e' <= z2) /\ 0 <= IO.to_allocate st' /\
        e' + need fs (IO.pos st') (IO.requirement st') = e + (fs - IO.pos st + (n + need fs n rest)) /\
        (length (IO.requirement st') <= Datatypes.S (length rest))%nat).
    { intros w' z' al Hw' Hz' Hal0.
      destruct (IH (IO.mk_reserving w' (n :: rest) 0 z' (IO.to_allocate st)) al e2 z') as (st' & e' & z2 & H1 & H2 & H3 & H4 & H5 & H6);
        [by apply Hst2; [|lia]|done|done|done|simpl; destruct (decide (IO.pos st = 0)); lia|].
      exists st', e', z2. split_and!; try done. rewrite H5. cbn [IO.pos IO.requirement]. rewrite need_start by (unfold FOOTER_LENGTH; lia).
      unfold e2. lia. }
    destruct (Z.leb_spec (fs - IO.pos st) allocated) as [Hle|Hgt].
    + rewrite Hmax. apply Hnext; [done|unfold e2; lia|lia].
    + destruct (next_segment (IO.writer st) z e (IO.pos st)) as (w' & Hr & Hres'); [done|done|lia|lia|]. fold e2 in Hr, Hres'.
      rewrite Hmax. replace (fs - IO.pos st - allocated) with (e2 - z) by (unfold e2; lia). rewrite Hr. simpl.
      apply Hnext; [done|lia|lia].
  - specialize (Hn2 ltac:(lia)).
    assert (Hst2 : forall more, reserving_ok (IO.mk_reserving (IO.writer st) rest (IO.pos st + n) (IO.max_allocated st) more) (e + n) z).
    { intros more. unfold reserving_ok. simpl. rewrite (mod_next e (IO.pos st)) by (done || lia). unfold FOOTER_LENGTH. split_and!; try done; lia. }
    destruct (Z.leb_spec n allocated) as [Hle|Hgt].
    + destruct (IH (IO.mk_reserving (IO.writer st) rest (IO.pos st + n) (IO.max_allocated st) (IO.to_allocate st)) (allocated - n) (e + n) z)
        as (st' & e' & z2 & H1 & H2 & H3 & H4 & H5 & H6); [apply Hst2|lia|lia|done| |].
      { simpl. destruct (decide (IO.pos st = 0)); destruct (decide (IO.pos st + n = 0)); lia. }
      exists st', e', z2. simpl in *. split_and!; try done; lia.
    + exists (IO.mk_reserving (IO.writer st) rest (IO.pos st + n) (IO.max_allocated st) (IO.to_allocate st + (n - allocated))), (e + n), z. split; [done|]. split; [apply Hst2|]. simpl. split; [left; lia|]. split_and!; lia.
Qed.

End loops.

(** Enough buffers for the tasks that are pending: those at hand, or, when these are fewer
    than the records of the tasks, those that are allocated. *)
Lemma reserve_write_buffers_spec L i rel a0 a z fs :
  append_ok L i rel a0 a z fs -> IO.segment_size i = fs -> Forall (task_ok fs) (write_tasks (IO.pending_data_tasks i)) ->
  AlignedBufWriter.alignment (IO.buf_writer i) < 2 ^ 61 -> 0 < fs < 2 ^ 32 ->
  (AlignedBufWriter.alignment (IO.buf_writer i) | fs) ->
  let l := record_len <$> write_tasks (IO.pending_data_tasks i) in
  cursor i + need fs (cursor i mod fs) l + fs < 2 ^ 61 ->
  (foldr Z.add 0 l <= z - cursor i /\ IO.reserve_write_buffers i = Ret (Ok (), i)) \/
  (z - cursor i < foldr Z.add 0 l /\
   exists w' z', IO.reserve_write_buffers i = Ret (Ok (), IO.set_writer i w') /\ reserved L i rel a0 a w' z' /\
     cursor i + need fs (cursor i mod fs) l <= z').
Proof.
  intros [Hok Htl] Hsz Htasks Hal Hfs Hdiv l Hbd. pose proof (log_bounds' _ _ _ _ _ _ Hok) as [? ?].
  assert (Hl : Forall (fun n => 0 < n /\ n + FOOTER_LENGTH <= fs) l).
  { apply Forall_fmap. eapply Forall_impl; [exact Htasks|]. intros t (_ & _ & Ht). simpl. unfold record_len in *.
    pose proof (remaining_nonneg (WriteTask.buffer t)). lia. }
  assert (Hsum : foldr Z.add 0 l <= need fs (cursor i mod fs) l /\ 0 <= foldr Z.add 0 l).
  { pose proof (to_pos _ _ _ Htl) as [_ Hpos]. pose proof (Z.mod_pos_bound (cursor i) fs ltac:(lia)). clear -Hl Hpos H1 Hfs.
    assert (Hp : 0 <= cursor i mod fs <= fs) by lia. revert Hp. generalize (cursor i mod fs). clear Hpos H1.
    induction Hl as [|n l [Hn Hnf] Hl IH]; intros p Hp; simpl; [lia|]. unfold FOOTER_LENGTH in *.
    destruct (Z.ltb_spec fs (p + n + 24)); [destruct (IH n)|destruct (IH (p + n))]; lia. }
  unfold IO.reserve_write_buffers. rewrite (requirements_spec fs) by done. cbn [mbind]. simpl.
  fold l. rewrite sum_usize_spec by (lia || (eapply Forall_impl; [exact Hl|]; simpl; lia)). simpl.
  rewrite (writer_remaining _ a z) by apply Hok. simpl. fold (cursor i). rewrite Z.add_0_l.
  destruct (Z.leb_spec (foldr Z.add 0 l) (z - cursor i)) as [Hle|Hgt]; [left; done|right; split; [done|]].
  rewrite Hsz, uint_rem_Ret by lia. simpl. rewrite (max_allocated_spec _ a z) by apply Hok. simpl.
  pose proof (to_pos _ _ _ Htl) as [_ Hpos].
  assert (Hst : reserving_ok L i rel a0 a fs (IO.mk_reserving (IO.buf_writer i) l (cursor i mod fs) z 0) (cursor i) z).
  { pose proof (Z.mod_pos_bound (cursor i) fs ltac:(lia)). unfold reserving_ok. simpl. split_and!; try done; try lia.
    split; [done|]. by apply (log_ok_eq L i). }
  destruct (reuse_loop_spec L i rel a0 a fs Hal Hfs Hdiv (2 * length l + 2) _ (z - cursor i) (cursor i) z Hst)
    as (st' & e' & z' & H1 & H2 & H3 & H4 & H5 & H6); [lia|lia|done|simpl; lia|].
  replace (length l + (length l + 0) + 2)%nat with (2 * length l + 2)%nat by lia. rewrite H1. simpl in H5, H6 |- *.
  destruct H3 as [H3|(Hnil & Hz0 & Hle)].
  - destruct (alloc_loop_spec L i rel a0 a fs Hal Hfs Hdiv (2 * length l + 2) st' e' z' H2 H3 H4) as (w' & z2 & H7 & H8 & H9); [lia|].
    exists w', z2. replace (length l + (length l + 0) + 2)%nat with (2 * length l + 2)%nat by lia. rewrite H7. simpl. split; [done|]. split; [done|lia].
  - exists (IO.writer st'), z'. replace (length l + (length l + 0) + 2)%nat with (Datatypes.S (2 * length l + 1)) by lia.
    cbn [IO.alloc_loop]. rewrite Hnil, Hz0. simpl. rewrite Hnil in H5. simpl in H5. split; [done|]. split; [apply H2|lia].
Qed.
End reserve.
