(* ===== verification/Ring.v ===== *)
(** * The ring and the disk

    Requests in the ring take effect on the disk at any time until they complete, in any
    order and also in parts, with the bytes that their buffer held when they were submitted
    and anything beyond these ([write_effect]).  The barriers of the I/O loop keep two such
    writes of a block apart unless both hold all of it ([kern]), so that what is durable
    stays on the disk. *)

From S2P Require Import Prelude Bytes StoreTypes Index Collections AlignedBuf BlockCache Segment Record Wal WriteWindow Recovery WalSegments IoLoop IoFrame Tail SharedBufs Appending Reserve.

(** A request in the ring, with the valid bytes of its buffer at submission, and whether
    all of these are on the disk. *)
Record request := mk_request { sqe : DataSqe.t; captured : list byte; done : bool }.

(** The block that an entry of the ring writes. *)
Definition off (e : DataSqe.t) : Z := Context.wal_offset (DataSqe.ctx e).
Definition writes (e : DataSqe.t) : Prop := DataSqe.opcode e = OpWrite.
Definition snap (q : request) : Z := Bytes.remaining (captured q).

(** A write takes effect on its block, in part or ([done]) as a whole. *)
Definition write_effect (q : request) (disk disk' : Z -> byte) (q' : request) : Prop :=
  writes (sqe q) /\ sqe q' = sqe q /\ captured q' = captured q /\ (done q = true -> done q' = true) /\
  (forall x, x < off (sqe q) \/ off (sqe q) + DataSqe.len (sqe q) <= x -> disk' x = disk x) /\
  (forall i, 0 <= i < snap q ->
     disk' (off (sqe q) + i) = disk (off (sqe q) + i) \/ captured q !! Z.to_nat i = Some (disk' (off (sqe q) + i))) /\
  (done q = false -> done q' = true ->
   forall i, 0 <= i < snap q -> captured q !! Z.to_nat i = Some (disk' (off (sqe q) + i))).

(** ** The ring *)

Section kernel.

(** What a write context says: [len] bytes of the block at [wal_offset] of size [k], which
    are in the log. *)
Definition sqe_ok (Bk : list (Z * Z)) (handed : gmap Z abuf) (c : Z) (e : DataSqe.t) (k : Z) : Prop :=
  writes e /\ Context.opcode (DataSqe.ctx e) = OpWrite /\ Context.buf (DataSqe.ctx e) = Shared (off e) /\
  (off e, k) ∈ Bk /\ DataSqe.len e = k /\ 0 < Context.len (DataSqe.ctx e) <= k /\
  off e + Context.len (DataSqe.ctx e) <= c /\ is_Some (handed !! off e).

Definition read_ok (e : DataSqe.t) : Prop :=
  DataSqe.opcode e = OpRead /\ Context.opcode (DataSqe.ctx e) = OpRead /\ exists b, Context.buf (DataSqe.ctx e) = Own b.

Record kern (L : Z -> byte) (c : Z) (Bk : list (Z * Z)) (handed : gmap Z abuf) (barrier : gset Z)
    (blocked : gmap Z (Context.t * DataSqe.t)) (resubmit : list DataSqe.t) (ring : list request)
    (disk : Z -> byte) (dur : Z -> Prop) : Prop := {
  kn_apart : forall o k o' k', (o, k) ∈ Bk -> (o', k') ∈ Bk -> o = o' /\ k = k' \/ o + k <= o' \/ o' + k' <= o;
  kn_dur : forall x, dur x -> x < c;
  kn_disk : forall x, dur x -> disk x = L x;
  kn_ring : forall q, q ∈ ring -> read_ok (sqe q) \/
    exists k, sqe_ok Bk handed c (sqe q) k /\ captured q = span L (off (sqe q)) (snap q) /\
      Context.len (DataSqe.ctx (sqe q)) <= snap q <= k /\ off (sqe q) + snap q <= c /\
      (forall x, off (sqe q) <= x < off (sqe q) + k -> dur x -> x < off (sqe q) + snap q) /\
      (done q = true -> forall x, off (sqe q) <= x < off (sqe q) + snap q -> disk x = L x) /\
      (snap q < k -> off (sqe q) ∈ barrier);
  kn_alone : forall q r, ring ≡ₚ q :: r -> writes (sqe q) -> snap q < DataSqe.len (sqe q) ->
    forall q', q' ∈ r -> writes (sqe q') -> off (sqe q') <> off (sqe q);
  kn_resubmit : forall e, e ∈ resubmit -> read_ok e \/
    exists k, sqe_ok Bk handed c e k /\
      (c < off e + k -> off e ∈ barrier /\ forall q, q ∈ ring -> writes (sqe q) -> off (sqe q) <> off e);
  kn_resubmit_alone : forall e r, resubmit ≡ₚ e :: r -> writes e -> c < off e + DataSqe.len e ->
    forall e', e' ∈ r -> writes e' -> off e' <> off e;
  kn_ring_resubmit : forall q, q ∈ ring -> writes (sqe q) -> snap q < DataSqe.len (sqe q) ->
    forall e, e ∈ resubmit -> writes e -> off e <> off (sqe q);
  kn_blocked : forall o x e, blocked !! o = Some (x, e) -> x = DataSqe.ctx e /\ off e = o /\ exists k, sqe_ok Bk handed c e k;
}.

Lemma sqe_ok_mono Bk Bk' handed handed' c c' e k :
  (forall p, p ∈ Bk -> p ∈ Bk') -> (forall o, is_Some (handed !! o) -> is_Some (handed' !! o)) -> c <= c' ->
  sqe_ok Bk handed c e k -> sqe_ok Bk' handed' c' e k.
Proof. intros HB Hh Hc (H1 & H2 & H3 & H4 & H5 & H6 & H7 & H8). split_and!; try done; eauto; lia. Qed.

(** The log grows, and buffers are allocated and handed out. *)
Lemma kern_extend L L' c c' Bk Bk' handed handed' barrier blocked resubmit ring disk dur :
  kern L c Bk handed barrier blocked resubmit ring disk dur ->
  (forall x, x < c -> L' x = L x) -> c <= c' -> (forall p, p ∈ Bk -> p ∈ Bk') ->
  (forall o, is_Some (handed !! o) -> is_Some (handed' !! o)) ->
  (forall o k o' k', (o, k) ∈ Bk' -> (o', k') ∈ Bk' -> o = o' /\ k = k' \/ o + k <= o' \/ o' + k' <= o) ->
  kern L' c' Bk' handed' barrier blocked resubmit ring disk dur.
Proof.
  intros [Ha Hd Hdk Hr Hal Hrs Hra Hrr Hb] HL Hc HB Hh Ha'. split; try done.
  - intros x Hx%Hd. lia.
  - intros x Hx. rewrite HL by (by apply Hd). by apply Hdk.
  - intros q [Hq|(k & Hok & Hcap & Hl & Hs & Hx & Hdn & Hbr)]%Hr; [by left|right]. exists k.
    split; [by eapply sqe_ok_mono|]. split_and!; try done; try lia.
    + rewrite Hcap at 1. apply span_ext. intros x ?. symmetry. apply HL. lia.
    + intros Hdone x ?. rewrite HL by lia. by apply Hdn.
  - intros e [He|(k & Hok & Hx)]%Hrs; [by left|right]. exists k. split; [by eapply sqe_ok_mono|]. intros ?. apply Hx. lia.
  - intros e r Hp He Hlt. apply (Hra e r Hp He). lia.
  - intros o x e (Hx & Ho & k & Hok)%Hb. split_and!; try done. exists k. by eapply sqe_ok_mono.
Qed.

(** A submission of [e], with all that is valid of its block. *)
Definition submit_one (L : Z -> byte) (c : Z) (e : DataSqe.t) : request :=
  mk_request e (match DataSqe.opcode e with
                | OpWrite => span L (off e) (DataSqe.len e `min` (c - off e))
                | OpRead => []
                end) false.

Lemma snap_submit L c e : writes e -> 0 <= DataSqe.len e -> off e <= c -> snap (submit_one L c e) = DataSqe.len e `min` (c - off e).
Proof. unfold writes, snap, submit_one. simpl. intros -> ? ?. rewrite remaining_span; lia. Qed.

Lemma perm_cons {A} (q x : A) (l r : list A) :
  x :: l ≡ₚ q :: r -> q = x /\ r ≡ₚ l \/ exists r', l ≡ₚ q :: r' /\ r ≡ₚ x :: r'.
Proof.
  intros Hp. assert (Hq : q ∈ x :: l) by (rewrite Hp; set_solver). apply elem_of_cons in Hq as [->|Hq].
  - left. split; [done|]. by apply (Permutation_cons_inv (a := x)).
  - right. apply elem_of_Permutation in Hq as [r' Hr']. exists r'. split; [done|].
    apply (Permutation_cons_inv (a := q)). rewrite <- Hp, Hr'. apply perm_swap.
Qed.

Lemma perm_snoc {A} (q x : A) (l r : list A) :
  l ++ [x] ≡ₚ q :: r -> q = x /\ r ≡ₚ l \/ exists r', l ≡ₚ q :: r' /\ r ≡ₚ x :: r'.
Proof. rewrite (Permutation_app_comm l [x]). apply perm_cons. Qed.

Lemma insert_perm {A} (l : list A) i q q' : l !! i = Some q -> <[i := q']> l ≡ₚ q' :: delete i l.
Proof.
  revert i. induction l as [|x l IH]; intros [|i] Hi; simplify_eq/=; [done|]. rewrite (IH i Hi). apply perm_swap.
Qed.

(** A write that is not behind a barrier is submitted; when its block is not full it sets
    one. *)
Lemma kern_submit L c Bk handed barrier barrier' blocked resubmit ring disk dur e k :
  kern L c Bk handed barrier blocked resubmit ring disk dur ->
  sqe_ok Bk handed c e k -> off e ∉ barrier -> barrier ⊆ barrier' -> (c < off e + k -> off e ∈ barrier') ->
  kern L c Bk handed barrier' blocked resubmit (ring ++ [submit_one L c e]) disk dur.
Proof.
  intros [Ha Hd Hdk Hr Hal Hrs Hra Hrr Hb] Hok Hnb Hsub Hset.
  pose proof Hok as (Hw & Hop & Hbuf & HB & Hlen & Hl & Hlc & _).
  assert (Hsn : snap (submit_one L c e) = k `min` (c - off e)) by (rewrite snap_submit by (done || lia); by rewrite Hlen).
  (* another write of the block in the ring is complete *)
  assert (Hfull : forall q, q ∈ ring -> writes (sqe q) -> off (sqe q) = off e -> snap q = DataSqe.len (sqe q) /\ off e + k <= c).
  { intros q Hq Hwq Ho. destruct (Hr q Hq) as [[Hrd _]|(k' & Hok' & Hcap & Hl' & Hs & _ & _ & Hbr)]; [unfold writes in *; congruence|].
    pose proof Hok' as (_ & _ & _ & HB' & Hlen' & Hpos' & _). rewrite Ho in *.
    destruct (Ha _ _ _ _ HB HB') as [[_ <-]|Hx]; [|lia]. destruct (decide (snap q < k)) as [Hlt|]; [by apply Hbr in Hlt|]. lia. }
  split; try done.
  - intros q [Hq|Hq]%elem_of_app.
    + destruct (Hr q Hq) as [?|(k' & Hok' & ? & ? & ? & ? & ? & Hbr)]; [by left|right]. exists k'. split_and!; try done; try lia. set_solver.
    + apply list_elem_of_singleton in Hq as ->. right. exists k. rewrite Hsn. simpl. split; [done|]. rewrite Hw, Hlen.
      split_and!; try done; try lia; [intros x Hx Hdx%Hd; lia|intros ?; apply Hset; lia].
  - intros q r Hp Hwq Hlt q' Hq' Hwq' Ho. apply perm_snoc in Hp as [[-> Hp]|(r' & Hp & Hr')].
    + simpl in *. rewrite Hp in Hq'. destruct (Hfull q' Hq' Hwq' Ho). lia.
    + rewrite Hr' in Hq'. apply elem_of_cons in Hq' as [->|Hq']; [|by eapply (Hal q r')].
      assert (q ∈ ring) by (rewrite Hp; set_solver). destruct (Hfull q) as [Hf _]; [done..|]. lia.
  - intros e' [He'|(k' & Hok' & Hx)]%Hrs; [by left|right]. exists k'. split; [done|]. intros Hlt. destruct (Hx Hlt) as [Hbe Hne]. split; [set_solver|].
    intros q [Hq|Hq]%elem_of_app Hwq; [by apply Hne|]. apply list_elem_of_singleton in Hq as ->. simpl. intros Ho. by rewrite Ho in Hnb.
  - intros q [Hq|Hq]%elem_of_app Hwq Hlt e' He' Hwe Ho; [by eapply Hrr|]. apply list_elem_of_singleton in Hq as ->. simpl in *.
    destruct (Hrs e' He') as [[Hrd _]|(k' & Hok' & Hx)]; [unfold writes in *; congruence|].
    pose proof Hok' as (_ & _ & _ & HB' & _ & Hpos' & _). rewrite Ho in *. destruct (Ha _ _ _ _ HB HB') as [[_ <-]|Hy]; [|lia].
    apply Hnb, Hx. lia.
Qed.

Lemma kern_perm L c Bk handed barrier blocked resubmit ring ring' disk dur :
  ring ≡ₚ ring' -> kern L c Bk handed barrier blocked resubmit ring disk dur ->
  kern L c Bk handed barrier blocked resubmit ring' disk dur.
Proof.
  intros Hp [Ha Hd Hdk Hr Hal Hrs Hra Hrr Hb]. split; try done.
  - intros q Hq. apply Hr. by rewrite Hp.
  - intros q r Hq. apply Hal. by rewrite Hp.
  - intros e [He|(k & Hok & Hx)]%Hrs; [by left|right]. exists k. split; [done|]. intros Hlt. destruct (Hx Hlt) as [? Hn].
    split; [done|]. intros q Hq. apply Hn. by rewrite Hp.
  - intros q Hq. apply Hrr. by rewrite Hp.
Qed.

Lemma kern_submit_read L c Bk handed barrier blocked resubmit ring disk dur e :
  kern L c Bk handed barrier blocked resubmit ring disk dur -> read_ok e ->
  kern L c Bk handed barrier blocked resubmit (ring ++ [submit_one L c e]) disk dur.
Proof.
  intros [Ha Hd Hdk Hr Hal Hrs Hra Hrr Hb] He. assert (Hno : ~ writes e) by (destruct He as [He _]; unfold writes; congruence).
  split; try done.
  - intros q [Hq|Hq]%elem_of_app; [by apply Hr|]. apply list_elem_of_singleton in Hq as ->. by left.
  - intros q r Hp Hwq Hlt q' Hq' Hwq' Ho. apply perm_snoc in Hp as [[-> Hp]|(r' & Hp & Hr')]; [done|].
    rewrite Hr' in Hq'. apply elem_of_cons in Hq' as [->|Hq']; [done|by eapply (Hal q r')].
  - intros e' [He'|(k' & Hok' & Hx)]%Hrs; [by left|right]. exists k'. split; [done|]. intros Hlt. destruct (Hx Hlt) as [Hbe Hne]. split; [done|].
    intros q [Hq|Hq]%elem_of_app Hwq; [by apply Hne|]. by apply list_elem_of_singleton in Hq as ->.
  - intros q [Hq|Hq]%elem_of_app Hwq; [by apply Hrr|]. by apply list_elem_of_singleton in Hq as ->.
Qed.

(** An entry that is submitted again. *)
Lemma kern_drain L c Bk handed barrier blocked e resubmit ring disk dur :
  kern L c Bk handed barrier blocked (e :: resubmit) ring disk dur ->
  kern L c Bk handed barrier blocked resubmit (ring ++ [submit_one L c e]) disk dur.
Proof.
  intros Hk. assert (Hk' : kern L c Bk handed barrier blocked resubmit ring disk dur).
  { destruct Hk as [Ha Hd Hdk Hr Hal Hrs Hra Hrr Hb]. split; try done; [by intros; apply Hrs; set_solver| |by intros; eapply Hrr; set_solver].
    intros e1 r Hp Hw Hlt e' He' Hw'. eapply (Hra e1 (e :: r)); [rewrite Hp; apply perm_swap|done|done|set_solver|done]. }
  destruct (kn_resubmit _ _ _ _ _ _ _ _ _ _ Hk e) as [He|(k & Hok & Hx)]; [set_solver|by apply kern_submit_read|].
  pose proof Hok as (Hw & Hop & Hbuf & HB & Hlen & Hl & Hlc & _).
  assert (Hsn : snap (submit_one L c e) = k `min` (c - off e)) by (rewrite snap_submit by (done || lia); by rewrite Hlen).
  destruct Hk' as [Ha Hd Hdk Hr Hal Hrs Hra Hrr Hb]. split; try done.
  - intros q [Hq|Hq]%elem_of_app; [by apply Hr|]. apply list_elem_of_singleton in Hq as ->. right. exists k. rewrite Hsn. simpl.
    split; [done|]. rewrite Hw, Hlen. split_and!; try done; try lia; [intros x ? Hdx%Hd; lia|intros ?; apply Hx; lia].
  - intros q r Hp Hwq Hlt q' Hq' Hwq' Ho. apply perm_snoc in Hp as [[-> Hp]|(r' & Hp & Hr')].
    + simpl in *. rewrite Hp in Hq'. destruct Hx as [_ Hx]; [lia|]. by apply (Hx q').
    + rewrite Hr' in Hq'. apply elem_of_cons in Hq' as [->|Hq']; [|by eapply (Hal q r')].
      assert (Hq : q ∈ ring) by (rewrite Hp; set_solver). eapply (kn_ring_resubmit _ _ _ _ _ _ _ _ _ _ Hk q Hq Hwq Hlt e); [set_solver|done|done].
  - intros e' He'. destruct (Hrs e' He') as [?|(k' & Hok' & Hx')]; [by left|right]. exists k'. split; [done|]. intros Hlt. destruct (Hx' Hlt) as [Hbe Hne]. split; [done|].
    intros q [Hq|Hq]%elem_of_app Hwq; [by apply Hne|]. apply list_elem_of_singleton in Hq as ->. simpl. intros Ho.
    apply elem_of_Permutation in He' as [r' Hr']. pose proof Hok' as (Hw' & _ & _ & _ & Hlen' & _).
    apply (kn_resubmit_alone _ _ _ _ _ _ _ _ _ _ Hk e' (e :: r')) with e; [rewrite Hr'; apply perm_swap|done|lia|set_solver|done|done].
  - intros q [Hq|Hq]%elem_of_app Hwq Hlt; [by apply Hrr|]. apply list_elem_of_singleton in Hq as ->. simpl in *.
    intros e' He' Hwe. eapply (kn_resubmit_alone _ _ _ _ _ _ _ _ _ _ Hk e resubmit); (done || lia).
Qed.

Lemma kern_blocked_insert L c Bk handed barrier blocked resubmit ring disk dur e k :
  kern L c Bk handed barrier blocked resubmit ring disk dur -> sqe_ok Bk handed c e k ->
  kern L c Bk handed barrier (<[off e := (DataSqe.ctx e, e)]> blocked) resubmit ring disk dur.
Proof.
  intros [Ha Hd Hdk Hr Hal Hrs Hra Hrr Hb] Hok. split; try done. intros o x e'.
  destruct (decide (o = off e)) as [->|]; [rewrite lookup_insert_eq|rewrite lookup_insert_ne by done; by apply Hb].
  intros [= <- <-]. split_and!; try done. by exists k.
Qed.

Lemma kern_blocked_sub L c Bk handed barrier blocked blocked' resubmit ring disk dur :
  kern L c Bk handed barrier blocked resubmit ring disk dur -> blocked' ⊆ blocked ->
  kern L c Bk handed barrier blocked' resubmit ring disk dur.
Proof.
  intros [Ha Hd Hdk Hr Hal Hrs Hra Hrr Hb] Hsub. split; try done. intros o x e' Ho. apply Hb. by eapply lookup_weaken.
Qed.

(** A write takes effect. *)
Lemma kern_effect L c Bk handed barrier blocked resubmit ring disk disk' dur i q q' :
  kern L c Bk handed barrier blocked resubmit ring disk dur -> ring !! i = Some q -> write_effect q disk disk' q' ->
  kern L c Bk handed barrier blocked resubmit (<[i := q']> ring) disk' dur.
Proof.
  intros Hk Hi (Hw & Hs & Hcap & Hdn & Hout & Hin & Hdone).
  assert (Hp : ring ≡ₚ q :: delete i ring) by (by apply delete_Permutation).
  assert (Hp' : <[i := q']> ring ≡ₚ q' :: delete i ring) by (by eapply insert_perm).
  apply (kern_perm _ _ _ _ _ _ _ _ _ _ _ Hp) in Hk. apply (kern_perm _ _ _ _ _ _ _ (q' :: delete i ring)); [done|].
  set (r := delete i ring) in *. clearbody r. clear Hi Hp Hp' ring.
  destruct Hk as [Ha Hd Hdk Hr Hal Hrs Hra Hrr Hb].
  destruct (Hr q) as [[Hrd _]|(k & Hok & Hq & Hl & Hsc & Hx & Hqd & Hbr)]; [set_solver|unfold writes in *; congruence|].
  pose proof Hok as (_ & _ & _ & HB & Hlen & Hpos & _). rewrite Hlen in Hout.
  assert (Hsnap : snap q' = snap q) by (unfold snap; by rewrite Hcap).
  assert (Hval : forall y, off (sqe q) <= y < off (sqe q) + snap q -> disk y = L y -> disk' y = L y).
  { intros y Hy Hold. destruct (Hin (y - off (sqe q))) as [He|He]; [lia| |].
    - replace (off (sqe q) + (y - off (sqe q))) with y in He by lia. congruence.
    - rewrite Hq, span_lookup in He by lia. replace (off (sqe q) + (y - off (sqe q))) with y in He by lia. congruence. }
  assert (Hoth : forall q2, q2 ∈ r -> writes (sqe q2) -> off (sqe q2) = off (sqe q) -> snap q = k).
  { intros q2 Hq2 Hw2 Ho. destruct (decide (snap q < k)) as [Hlt|]; [|lia]. exfalso.
    eapply (Hal q r); [done|done|lia|exact Hq2|done|done]. }
  assert (Hkeep : forall y, (y < off (sqe q) \/ off (sqe q) + snap q <= y -> y < off (sqe q) \/ off (sqe q) + k <= y) -> disk y = L y -> disk' y = L y).
  { intros y Hy Hold. destruct (decide (off (sqe q) <= y < off (sqe q) + snap q)); [by apply Hval|]. rewrite Hout; [done|]. apply Hy. lia. }
  split; try done.
  - intros y Hdy. apply Hkeep; [|by apply Hdk]. intros Hy. destruct (decide (off (sqe q) <= y < off (sqe q) + k)) as [Hin'|]; [|lia].
    specialize (Hx y Hin' Hdy). lia.
  - intros q2 [->|Hq2]%elem_of_cons.
    + right. exists k. rewrite Hs, Hcap, Hsnap. split_and!; try done; try lia. intros Hd2 y Hy.
      destruct (done q) eqn:Hdq; [apply Hval; [done|by apply Hqd]|].
      specialize (Hdone eq_refl Hd2 (y - off (sqe q)) ltac:(lia)). rewrite Hq, span_lookup in Hdone by lia.
      replace (off (sqe q) + (y - off (sqe q))) with y in Hdone by lia. congruence.
    + destruct (Hr q2) as [?|(k2 & Hok2 & Hq2' & Hl2 & Hsc2 & Hx2 & Hqd2 & Hbr2)]; [set_solver|by left|right]. exists k2. split_and!; try done; try lia.
      intros Hd2 y Hy. pose proof Hok2 as (Hw2 & _ & _ & HB2 & _ & Hpos2 & _). apply Hkeep; [|by apply Hqd2].
      intros Hy'. destruct (Ha _ _ _ _ HB HB2) as [[Ho ->]|[?|?]]; [|lia|lia]. rewrite (Hoth q2 Hq2 Hw2 (eq_sym Ho)) in Hy'. lia.
  - intros q1 r1 Hp Hw1 Hlt q2 Hq2 Hw2. apply perm_cons in Hp as [[-> Hp]|(r' & Hp & Hr')].
    + rewrite Hs, Hsnap in *. eapply (Hal q r); [done|done|done|by rewrite <- Hp|done].
    + assert (Hp2 : q :: r ≡ₚ q1 :: q :: r') by (rewrite Hp; apply perm_swap). rewrite Hr' in Hq2.
      apply elem_of_cons in Hq2 as [->|Hq2]; [rewrite Hs; eapply (Hal q1 (q :: r')); [done|done|done|set_solver|done]|].
      eapply (Hal q1 (q :: r')); [done|done|done|set_solver|done].
  - intros e He. destruct (Hrs e He) as [?|(k2 & Hok2 & Hx2)]; [by left|right]. exists k2. split; [done|]. intros Hlt. destruct (Hx2 Hlt) as [? Hn]. split; [done|].
    intros q2 [->|Hq2]%elem_of_cons Hw2; [rewrite Hs; apply Hn; [set_solver|done]|apply Hn; [set_solver|done]].
  - intros q2 [->|Hq2]%elem_of_cons Hw2; [|apply Hrr; [set_solver|done]]. rewrite Hs, Hsnap. apply Hrr; [set_solver|done].
Qed.

(** Behind the end of the log the disk does not matter. *)
Lemma kern_beyond L c Bk handed barrier blocked resubmit ring disk disk' dur :
  kern L c Bk handed barrier blocked resubmit ring disk dur -> (forall x, x < c -> disk' x = disk x) ->
  kern L c Bk handed barrier blocked resubmit ring disk' dur.
Proof.
  intros [Ha Hd Hdk Hr Hal Hrs Hra Hrr Hb] Hx. split; try done.
  - intros x Hdx. rewrite Hx by (by apply Hd). by apply Hdk.
  - intros q [Hq|(k & Hok & Hcap & Hl & Hs & Hdu & Hdn & Hbr)]%Hr; [by left|right]. exists k. split_and!; try done; try lia.
    intros Hdone x ?. rewrite Hx by lia. by apply Hdn.
Qed.

(** Any request can leave the ring; a write releases the barrier of its block. *)
Lemma kern_drop L c Bk handed barrier blocked resubmit q r disk dur :
  kern L c Bk handed barrier blocked resubmit (q :: r) disk dur ->
  kern L c Bk handed barrier blocked resubmit r disk dur.
Proof.
  intros [Ha Hd Hdk Hr Hal Hrs Hra Hrr Hb]. split; try done.
  - intros q2 Hq2. apply Hr. set_solver.
  - intros q1 r1 Hp Hw1 Hlt q2 Hq2 Hw2. apply (Hal q1 (q :: r1)); [rewrite Hp; apply perm_swap|done|done|set_solver|done].
  - intros e He. destruct (Hrs e He) as [?|(k2 & Hok2 & Hx2)]; [by left|right]. exists k2. split; [done|]. intros Hlt.
    destruct (Hx2 Hlt) as [? Hn]. split; [done|]. intros q2 Hq2 Hw2. apply Hn; [set_solver|done].
  - intros q2 Hq2 Hw2. apply Hrr; [set_solver|done].
Qed.

(** In the ring there is no other write of a block that is not complete. *)
Lemma kern_other L c Bk handed barrier blocked resubmit q r disk dur q2 :
  kern L c Bk handed barrier blocked resubmit (q :: r) disk dur -> writes (sqe q) -> q2 ∈ r -> writes (sqe q2) ->
  off (sqe q2) = off (sqe q) -> DataSqe.len (sqe q2) <= snap q2 /\ DataSqe.len (sqe q) <= snap q.
Proof.
  intros Hk Hw Hq2 Hw2 Ho. split; (destruct (Z.lt_ge_cases (snap q2) (DataSqe.len (sqe q2))) as [Hlt|]; [exfalso|done || idtac]).
  - apply elem_of_Permutation in Hq2 as [r' Hr'].
    apply (kn_alone _ _ _ _ _ _ _ _ _ _ Hk q2 (q :: r')) with q; [rewrite Hr'; apply perm_swap|done|done|set_solver|done|done].
  - apply elem_of_Permutation in Hq2 as [r' Hr'].
    apply (kn_alone _ _ _ _ _ _ _ _ _ _ Hk q2 (q :: r')) with q; [rewrite Hr'; apply perm_swap|done|done|set_solver|done|done].
  - destruct (Z.lt_ge_cases (snap q) (DataSqe.len (sqe q))) as [Hlt|]; [exfalso|done].
    by apply (kn_alone _ _ _ _ _ _ _ _ _ _ Hk q r) with q2.
Qed.

Lemma kern_remove L c Bk handed barrier blocked resubmit q r disk dur :
  kern L c Bk handed barrier blocked resubmit (q :: r) disk dur -> writes (sqe q) ->
  kern L c Bk handed (barrier ∖ {[off (sqe q)]}) blocked resubmit r disk dur.
Proof.
  intros Hk Hw. pose proof (kern_drop _ _ _ _ _ _ _ _ _ _ _ Hk) as [Ha Hd Hdk Hr Hal Hrs Hra Hrr Hb]. split; try done.
  - intros q2 Hq2. destruct (Hr q2 Hq2) as [?|(k2 & Hok2 & ? & ? & ? & ? & ? & Hbr)]; [by left|right]. exists k2. split_and!; try done; try lia.
    intros Hlt. apply elem_of_difference. split; [by apply Hbr|]. intros Ho%elem_of_singleton.
    pose proof Hok2 as (Hw2 & _ & _ & _ & Hlen2 & _). destruct (kern_other _ _ _ _ _ _ _ _ _ _ _ q2 Hk Hw Hq2 Hw2 Ho). lia.
  - intros e He. destruct (kn_resubmit _ _ _ _ _ _ _ _ _ _ Hk e He) as [?|(k2 & Hok2 & Hx2)]; [by left|right]. exists k2. split; [done|]. intros Hlt.
    destruct (Hx2 Hlt) as [? Hn]. split.
    + apply elem_of_difference. split; [done|]. intros Ho%elem_of_singleton. apply (Hn q); [set_solver|done|done].
    + intros q2 Hq2. apply Hn. set_solver.
Qed.

(** A write completes. *)
Lemma kern_commit L c Bk handed barrier blocked resubmit q r disk dur :
  kern L c Bk handed barrier blocked resubmit (q :: r) disk dur -> writes (sqe q) -> done q = true ->
  let n := Context.len (DataSqe.ctx (sqe q)) in
  kern L c Bk handed (barrier ∖ {[off (sqe q)]}) blocked resubmit r disk
    (fun x => dur x \/ off (sqe q) <= x < off (sqe q) + n).
Proof.
  intros Hk Hw Hdone n. pose proof (kern_remove _ _ _ _ _ _ _ _ _ _ _ Hk Hw) as [Ha Hd Hdk Hr Hal Hrs Hra Hrr Hb].
  destruct (kn_ring _ _ _ _ _ _ _ _ _ _ Hk q) as [[Hrd _]|(k & Hok & Hq & Hl & Hsc & Hx & Hqd & Hbr)];
    [set_solver|unfold writes in *; congruence|]. pose proof Hok as (_ & _ & _ & HB & Hlen & Hpos & Hlc & _). split; try done.
  - intros x [Hx'|Hx']; [by apply Hd|]. unfold n in *. lia.
  - intros x [Hx'|Hx']; [by apply Hdk|]. apply Hqd; [done|]. unfold n in *. lia.
  - intros q2 Hq2. destruct (Hr q2 Hq2) as [?|(k2 & Hok2 & ? & ? & ? & Hx2 & ? & ?)]; [by left|right]. exists k2. split_and!; try done; try lia.
    intros x Hx' [Hdx|Hdx]; [by apply Hx2|]. pose proof Hok2 as (Hw2 & _ & _ & HB2 & Hlen2 & Hpos2 & _). unfold n in *.
    destruct (Ha _ _ _ _ HB HB2) as [[Ho ->]|[?|?]]; [|lia|lia].
    destruct (kern_other _ _ _ _ _ _ _ _ _ _ _ q2 Hk Hw Hq2 Hw2 (eq_sym Ho)). lia.
Qed.

(** A write that failed is to be submitted again. *)
Lemma kern_retry L c Bk handed barrier barrier' blocked resubmit q r disk dur e k :
  kern L c Bk handed barrier blocked resubmit (q :: r) disk dur -> writes (sqe q) ->
  sqe_ok Bk handed c e k -> off e = off (sqe q) ->
  barrier ∖ {[off (sqe q)]} ⊆ barrier' -> (c < off e + k -> off e ∈ barrier') ->
  kern L c Bk handed barrier' blocked (resubmit ++ [e]) r disk dur.
Proof.
  intros Hk Hw Hok Ho Hsub Hset. pose proof (kern_remove _ _ _ _ _ _ _ _ _ _ _ Hk Hw) as [Ha Hd Hdk Hr Hal Hrs Hra Hrr Hb].
  destruct (kn_ring _ _ _ _ _ _ _ _ _ _ Hk q) as [[Hrd _]|(kq & Hokq & Hq & Hl & Hsc & Hx & Hqd & Hbr)];
    [set_solver|unfold writes in *; congruence|]. pose proof Hok as (Hwe & _ & _ & HB & Hlen & Hpos & Hlc & _).
  pose proof Hokq as (_ & _ & _ & HBq & Hlenq & Hposq & _). rewrite <- Ho in HBq.
  destruct (Ha _ _ _ _ HB HBq) as [[_ <-]|?]; [|lia]. split; try done.
  - intros q2 Hq2. destruct (Hr q2 Hq2) as [?|(k2 & Hok2 & ? & ? & ? & ? & ? & Hbr2)]; [by left|right]. exists k2. split_and!; try done; try lia. set_solver.
  - intros e2 [He2|He2]%elem_of_app.
    + destruct (Hrs e2 He2) as [?|(k2 & Hok2 & Hx2)]; [by left|right]. exists k2. split; [done|]. intros Hlt. destruct (Hx2 Hlt) as [? ?]. split; [set_solver|done].
    + apply list_elem_of_singleton in He2 as ->. right. exists k. split; [done|]. intros Hlt. split; [by apply Hset|].
      intros q2 Hq2 Hw2 Ho2. destruct (kern_other _ _ _ _ _ _ _ _ _ _ _ q2 Hk Hw Hq2 Hw2) as [_ ?]; [congruence|]. lia.
  - assert (Hno : forall e2, e2 ∈ resubmit -> writes e2 -> off e2 = off e -> c < off e + k -> False).
    { intros e2 He2 Hw2 Ho2 Hlt. destruct (kn_resubmit _ _ _ _ _ _ _ _ _ _ Hk e2 He2) as [[? _]|(k2 & Hok2 & Hx2)]; [unfold writes in *; congruence|].
      pose proof Hok2 as (_ & _ & _ & HB2 & _ & Hpos2 & _). rewrite Ho2 in *. destruct (Ha _ _ _ _ HB HB2) as [[_ <-]|?]; [|lia].
      destruct (Hx2 Hlt) as [_ Hn]. apply (Hn q); [set_solver|done|done]. }
    intros e1 r1 Hp Hw1 Hlt e2 He2 Hw2 Ho2. apply perm_snoc in Hp as [[-> Hp]|(r' & Hp & Hr')].
    + rewrite Hp in He2. eapply (Hno e2); (done || lia).
    + rewrite Hr' in He2. apply elem_of_cons in He2 as [->|He2]; [|by eapply (Hra e1 r')].
      assert (He1 : e1 ∈ resubmit) by (rewrite Hp; set_solver). apply (Hno e1 He1 Hw1); [done|].
      destruct (Hrs e1 He1) as [[? _]|(k1 & Hok1 & _)]; [unfold writes in *; congruence|].
      pose proof Hok1 as (_ & _ & _ & HB1 & Hlen1 & Hpos1 & _). rewrite <- Ho2 in *. destruct (Ha _ _ _ _ HB HB1) as [[_ <-]|?]; lia.
  - intros q2 Hq2 Hw2 Hlt e2 [He2|He2]%elem_of_app Hwe2; [by apply Hrr|]. apply list_elem_of_singleton in He2 as ->. intros Ho2.
    destruct (kern_other _ _ _ _ _ _ _ _ _ _ _ q2 Hk Hw Hq2 Hw2) as [? _]; [congruence|]. lia.
Qed.

Lemma kern_barrier L c Bk handed barrier barrier' blocked resubmit ring disk dur :
  kern L c Bk handed barrier blocked resubmit ring disk dur -> barrier ⊆ barrier' ->
  kern L c Bk handed barrier' blocked resubmit ring disk dur.
Proof.
  intros [Ha Hd Hdk Hr Hal Hrs Hra Hrr Hb] Hsub. split; try done.
  - intros q [?|(k & Hok & ? & ? & ? & ? & ? & ?)]%Hr; [by left|right]. exists k. split_and!; try done; try lia. set_solver.
  - intros e [?|(k & Hok & Hx)]%Hrs; [by left|right]. exists k. split; [done|]. intros Hlt. destruct (Hx Hlt). split; [set_solver|done].
Qed.

Lemma kern_dur L c Bk handed barrier blocked resubmit ring disk dur dur' :
  (forall x, dur' x <-> dur x) -> kern L c Bk handed barrier blocked resubmit ring disk dur ->
  kern L c Bk handed barrier blocked resubmit ring disk dur'.
Proof.
  intros Hiff [Ha Hd Hdk Hr Hal Hrs Hra Hrr Hb]. split; try done.
  - intros x Hx%Hiff. by apply Hd.
  - intros x Hx%Hiff. by apply Hdk.
  - intros q [?|(k & Hok & ? & ? & ? & Hx & ? & ?)]%Hr; [by left|right]. exists k. split_and!; try done; try lia.
    intros x Hin Hx'%Hiff. by apply Hx.
Qed.

Lemma kern_resubmit_read L c Bk handed barrier blocked resubmit ring disk dur e :
  kern L c Bk handed barrier blocked resubmit ring disk dur -> read_ok e ->
  kern L c Bk handed barrier blocked (resubmit ++ [e]) ring disk dur.
Proof.
  intros [Ha Hd Hdk Hr Hal Hrs Hra Hrr Hb] He. assert (Hno : ~ writes e) by (destruct He as [He _]; unfold writes; congruence).
  split; try done.
  - intros e2 [He2|He2]%elem_of_app; [by apply Hrs|]. apply list_elem_of_singleton in He2 as ->. by left.
  - intros e1 r1 Hp Hw1 Hlt e2 He2 Hw2. apply perm_snoc in Hp as [[-> Hp]|(r' & Hp & Hr')]; [done|].
    rewrite Hr' in He2. apply elem_of_cons in He2 as [->|He2]; [done|by eapply (Hra e1 r')].
  - intros q Hq Hw Hlt e2 [He2|He2]%elem_of_app Hw2; [by apply Hrr|]. by apply list_elem_of_singleton in He2 as ->.
Qed.
End kernel.
