(* ===== verification/System.v ===== *)
(** * Acknowledged appends are durable

    The I/O loop together with the ring and the disk ([Sys]): tasks arrive, entries are built
    and submitted, writes take effect, completions are reaped, segments are opened and
    closed, and their files created, recycled and deleted, in any order ([sys_step]).  The
    invariant [sys_ok] ties the log of the buffers, the write window, the barriers and the
    disk together; it holds in the runs in which there is room for the footers of the
    segments whenever entries are built ([roomy_run]). *)

From S2P Require Import Prelude Bytes StoreTypes Index Collections AlignedBuf BlockCache Segment Record Wal WriteWindow Recovery WalSegments IoLoop IoFrame Tail SharedBufs Appending Reserve Ring.

Module Sys.
Section sys.
Context {S : SkipListApi} {R : RingApi}.

(** [received] are the writes that were sent to the loop. *)
Record t := mk {
  io : IO.t S R;
  requests : list request;
  disk : Z -> byte;
  received : list WriteTask.t;
}.
End sys.
Arguments t : clear implicits.
End Sys.

Section system.
Context {S : SkipListApi} {R : RingApi} {P : PercentageApi} {Q : ScoreListApi}
  {B : BytesApi} {BL : BytesLaws B} {C : Crc32Api} {CL : Crc32Laws C} {M : MetaApi}.

(** What the kernel is given: the buffer as it is now. *)
Definition captured_of (i : IO.t S R) (e : DataSqe.t) : list byte :=
  match DataSqe.opcode e, IO.deref i (Context.buf (DataSqe.ctx e)) with
  | OpWrite, Ret b => AlignedBuf.data b
  | _, _ => []
  end.
Definition submit (i : IO.t S R) (e : DataSqe.t) : request := mk_request e (captured_of i e) false.

(** A write that reports all of its bytes has taken effect. *)
Definition completes (q : request) (c : Cqe.t) : Prop :=
  Cqe.ctx c = DataSqe.ctx (sqe q) /\
  (writes (sqe q) -> Cqe.result c = DataSqe.len (sqe q) -> done q = true).

(** The file of the segment that holds [x] has been created and has not been given up: no
    operation that zeroes, renames or deletes it is on its way. *)
Definition established (w : Wal.t S R) (x : Z) : Prop :=
  exists s, s ∈ Wal.segments w /\ holds_offset x s /\
    match LogSegment.status s with
    | Status.Fsync | Status.ReadWrite | Status.Read | Status.Close => True
    | _ => False
    end.

(** The loop builds entries and submits them. *)
Inductive build_step : Sys.t S R -> Sys.t S R -> Prop :=
| builds i ring disk rcvd now i1 entries i2 :
    IO.build_sqe i now = Ret (i1, entries) -> IO.submit_data_tasks i1 entries true = Ret (Ok (), i2) ->
    build_step (Sys.mk i ring disk rcvd) (Sys.mk i2 (ring ++ (submit i1 <$> entries)) disk rcvd).

(** The steps of the system.  A write that arrives is empty, and then refused, or has less
    than 16 MiB and fits with a footer into a segment; the submission queue takes what is
    built.  [step_files]: the operations on the files of segments, the zeroing of a new file, the
    renaming of a recycled one and the deletion, leave the established segments alone; about
    all other offsets nothing is known then. *)
Inductive sys_step (fs : Z) : Sys.t S R -> Sys.t S R -> Prop :=
| step_receive i ring disk rcvd n chan closed i' rest k suspended :
    Forall (fun t => WriteTask.buffer t = [] \/ task_ok fs t) (write_tasks chan) ->
    IO.receive_io_tasks i n chan closed = Ret (Some (i', rest, k, suspended)) ->
    sys_step fs (Sys.mk i ring disk rcvd) (Sys.mk i' ring disk (rcvd ++ write_tasks chan))
| step_build s s' : build_step s s' -> sys_step fs s s'
| step_kernel i ring disk rcvd j q q' disk' :
    ring !! j = Some q -> write_effect q disk disk' q' ->
    sys_step fs (Sys.mk i ring disk rcvd) (Sys.mk i (<[j := q']> ring) disk' rcvd)
| step_reap i ring disk rcvd reqs rest cqes now i' :
    ring ≡ₚ reqs ++ rest -> Forall2 completes reqs cqes -> IO.reap_data_tasks i cqes now = Ret i' ->
    sys_step fs (Sys.mk i ring disk rcvd) (Sys.mk i' rest disk rcvd)
| step_open i ring disk rcvd r w :
    Wal.try_open_segment (IO.wal i) = Ret (r, w) ->
    sys_step fs (Sys.mk i ring disk rcvd) (Sys.mk (IO.set_wal i w) ring disk rcvd)
| step_close i ring disk rcvd r w :
    Wal.try_close_segment (IO.wal i) = Ret (r, w) ->
    sys_step fs (Sys.mk i ring disk rcvd) (Sys.mk (IO.set_wal i w) ring disk rcvd)
| step_control i ring disk rcvd m w :
    Wal.reap_control_tasks (IO.wal i) m = Ret w ->
    sys_step fs (Sys.mk i ring disk rcvd) (Sys.mk (IO.set_wal i w) ring disk rcvd)
| step_files i ring disk rcvd disk' :
    (forall x, established (IO.wal i) x -> disk' x = disk x) ->
    sys_step fs (Sys.mk i ring disk rcvd) (Sys.mk i ring disk' rcvd).

(** *** Runs with room for the footers *)

(** Either the pending records do not fit into the buffers that are left, or they do so with
    the footers between them; and the log is far from the end of the offsets. *)
Definition room_left (fs : Z) (i : IO.t S R) : Prop :=
  let l := record_len <$> write_tasks (IO.pending_data_tasks i) in
  let n := need fs (cursor i mod fs) l in
  (forall left, AlignedBufWriter.remaining (IO.buf_writer i) = Ret left -> foldr Z.add 0 l <= left -> n <= left) /\
  cursor i + n + fs < 2 ^ 61.

(** The step changes a byte of the log whose segment is not established. *)
Definition discards (s s' : Sys.t S R) (x : Z) : Prop :=
  x < cursor (Sys.io s) /\ ~ established (IO.wal (Sys.io s)) x /\ Sys.disk s' x <> Sys.disk s x.

(** A run of the system in which there is room whenever entries are built.  [lost] are the
    offsets of the log that were discarded on the way. *)
Inductive roomy_run (fs : Z) (s0 : Sys.t S R) : (Z -> Prop) -> Sys.t S R -> Prop :=
| run_start : roomy_run fs s0 (fun _ => False) s0
| run_step lost s s' :
    roomy_run fs s0 lost s -> sys_step fs s s' -> (build_step s s' -> room_left fs (Sys.io s)) ->
    roomy_run fs s0 (fun x => lost x \/ discards s s' x) s'.

Lemma roomy_run_steps fs s0 lost s : roomy_run fs s0 lost s -> rtc (sys_step fs) s0 s.
Proof. induction 1; [done|]. by eapply rtc_r. Qed.

(** ** The invariant *)

(** The record of [t] is at [p] of the log, up to its end all has been written. *)
Definition stored (rcvd : list WriteTask.t) (fs c0 : Z) (L : Z -> byte) (c : Z) (W : list (Z * Z)) (t : WriteTask.t) (p : Z) : Prop :=
  task_ok fs t /\ p mod fs + record_len t + FOOTER_LENGTH <= fs /\
  framed rcvd fs L c0 p /\ span L p (record_len t) = record_bytes (p - p mod fs) RecordType.Full (WriteTask.buffer t) /\
  p + record_len t <= c /\ forall x, c0 <= x < p + record_len t -> written W x.

Definition append_result (t : WriteTask.t) (p : Z) : AppendResult.t :=
  AppendResult.mk (WriteTask.stream_id t) (WriteTask.range t) (WriteTask.offset t) (WriteTask.len t) p
    (as_uint 32 (Bytes.remaining (WriteTask.buffer t))).
Definition index_record (t : WriteTask.t) (p : Z) : record :=
  IndexRecord.mk (RecordIndex.mk (WriteTask.stream_id t) (WriteTask.range t) (WriteTask.offset t))
    (RecordHandle.mk p (record_len t) (HandleExt.BatchSize (WriteTask.len t))).

Definition answered (fs c0 : Z) (rcvd : list WriteTask.t) (L : Z -> byte) (c : Z) (W : list (Z * Z)) (e : IoEvent) : Prop :=
  match e with
  | Appended observer (Ok res) => exists t p, t ∈ rcvd /\ observer = WriteTask.observer t /\
      res = append_result t p /\ stored rcvd fs c0 L c W t p
  | Indexed r => exists t p, t ∈ rcvd /\ r = index_record t p /\ stored rcvd fs c0 L c W t p
  | _ => True
  end.

(** The bytes from [a0] to [c0] were there at the start. *)
Definition durable (a0 c0 : Z) (W : list (Z * Z)) (x : Z) : Prop := a0 <= x < c0 \/ written W x.

Record config_ok (fs : Z) (i : IO.t S R) : Prop := {
  co_size : IO.segment_size i = fs;
  co_fs : 0 < fs < 2 ^ 32;
  co_align : AlignedBufWriter.alignment (IO.buf_writer i) < 2 ^ 61;
  co_divide : (AlignedBufWriter.alignment (IO.buf_writer i) | fs);
}.

Section invariant.
Context (fs a0 c0 : Z) (E0 : list IoEvent).

Record sys_ok (s : Sys.t S R) (L : Z -> byte) (rel : list abuf) (a z : Z) (W : list (Z * Z)) : Prop := {
  iv_append : append_ok L (Sys.io s) rel a0 a z fs;
  iv_config : config_ok fs (Sys.io s);
  iv_framed : framed (Sys.received s) fs L c0 (cursor (Sys.io s));
  iv_pending : Forall (fun t => task_ok fs t /\ t ∈ Sys.received s) (write_tasks (IO.pending_data_tasks (Sys.io s)));
  iv_sorted : BTreeMap.sorted (IO.inflight_write_tasks (Sys.io s));
  iv_tasks : forall k t, (k, t) ∈ IO.inflight_write_tasks (Sys.io s) ->
    k <= cursor (Sys.io s) /\ record_at fs c0 (Sys.received s) L k t;
  iv_window : inv c0 W (IO.write_window (Sys.io s));
  iv_writes : writes_ok W;
  iv_kern : kern L (cursor (Sys.io s)) (blocks rel (Sys.io s)) (IO.handed (Sys.io s)) (IO.barrier (Sys.io s))
    (IO.blocked (Sys.io s)) (IO.resubmit_sqes (Sys.io s)) (Sys.requests s) (Sys.disk s) (durable a0 c0 W);
  iv_events : exists E, write_events (Sys.io s) = E0 ++ E /\
    Forall (answered fs c0 (Sys.received s) L (cursor (Sys.io s)) W) E;
}.

Lemma stored_mono rcvd rcvd' L L' c c' W W' t p :
  (forall t, t ∈ rcvd -> t ∈ rcvd') -> (forall x, x < c -> L' x = L x) -> c <= c' -> (forall x, written W x -> written W' x) ->
  stored rcvd fs c0 L c W t p -> stored rcvd' fs c0 L' c' W' t p.
Proof.
  intros Hr HL Hc HW (Ht & Hfit & Hfr & Hs & Hle & Hw). pose proof (remaining_nonneg (WriteTask.buffer t)). unfold stored, record_len in *.
  split_and!; [done|done| |rewrite <- Hs|lia|eauto].
  - eapply framed_received, framed_ext; [exact Hr| |exact Hfr]. intros x ?. apply HL. lia.
  - apply span_ext. intros x ?. apply HL. lia.
Qed.

Lemma answered_mono rcvd rcvd' L L' c c' W W' E :
  (forall t, t ∈ rcvd -> t ∈ rcvd') -> (forall x, x < c -> L' x = L x) -> c <= c' -> (forall x, written W x -> written W' x) ->
  Forall (answered fs c0 rcvd L c W) E -> Forall (answered fs c0 rcvd' L' c' W') E.
Proof.
  intros Hr HL Hc HW HE. eapply Forall_impl; [exact HE|]. intros [r|o [res|]|]; simpl; [| |done..].
  - intros (t & p & ? & ? & Hs). exists t, p. split_and!; eauto using stored_mono.
  - intros (t & p & ? & ? & ? & Hs). exists t, p. split_and!; eauto using stored_mono.
Qed.

Lemma record_at_received rcvd rcvd' L k t :
  (forall t, t ∈ rcvd -> t ∈ rcvd') -> record_at fs c0 rcvd L k t -> record_at fs c0 rcvd' L k t.
Proof.
  intros Hr (t0 & ? & ? & ? & ? & ? & ?). exists t0. split_and!; try done; [by apply Hr|by eapply framed_received].
Qed.

(** What concerns the log stays the same. *)
Record same_core (i i' : IO.t S R) : Prop := {
  sc_options : IO.options i' = IO.options i;
  sc_writer : IO.buf_writer i' = IO.buf_writer i;
  sc_tasks : IO.inflight_write_tasks i' = IO.inflight_write_tasks i;
  sc_window : IO.write_window i' = IO.write_window i;
  sc_barrier : IO.barrier i' = IO.barrier i;
  sc_blocked : IO.blocked i' = IO.blocked i;
  sc_resubmit : IO.resubmit_sqes i' = IO.resubmit_sqes i;
  sc_handed : IO.handed i' = IO.handed i;
}.

Lemma sys_ok_core i i' ring disk rcvd rcvd' L rel a z W :
  same_core i i' -> tail_ok fs (IO.wal i') (cursor i) -> (forall t, t ∈ rcvd -> t ∈ rcvd') ->
  Forall (fun t => task_ok fs t /\ t ∈ rcvd') (write_tasks (IO.pending_data_tasks i')) ->
  (exists E, write_events i' = write_events i ++ E /\ Forall (answered fs c0 rcvd' L (cursor i) W) E) ->
  sys_ok (Sys.mk i ring disk rcvd) L rel a z W -> sys_ok (Sys.mk i' ring disk rcvd') L rel a z W.
Proof.
  intros [Ho Hw Ht Hwi Hba Hbl Hre Hha] Htl Hr Hp (E & HE & Hans) [[Hlog _] [] Hfr _ Hso Htk Hwin Hwr Hk (E1 & HE1 & Hans1)]. simpl in *.
  assert (Hc : cursor i' = cursor i) by (unfold cursor; by rewrite Hw).
  assert (Hbk : blocks rel i' = blocks rel i) by (unfold blocks; by rewrite Hw).
  split; simpl; rewrite ?Hc, ?Hbk, ?Ht, ?Hwi, ?Hba, ?Hbl, ?Hre, ?Hha; try done.
  - split; [by eapply log_ok_eq|by rewrite Hc].
  - split; rewrite ?Hw; try done. unfold IO.segment_size in *. by rewrite Ho.
  - by eapply framed_received.
  - intros k t [? ?]%Htk. split; [done|]. by eapply record_at_received.
  - exists (E1 ++ E). rewrite HE, HE1, <- (assoc_L (++)). split; [done|]. apply Forall_app. split; [|done].
    eapply (answered_mono rcvd); [done|done|reflexivity|done|done].
Qed.

(** Segments come and go. *)
Lemma sys_ok_wal i w ring disk rcvd L rel a z W :
  tail_ok fs w (cursor i) -> sys_ok (Sys.mk i ring disk rcvd) L rel a z W ->
  sys_ok (Sys.mk (IO.set_wal i w) ring disk rcvd) L rel a z W.
Proof.
  intros Htl Hok. eapply (sys_ok_core i); [by split|done|done|by apply (iv_pending _ _ _ _ _ _ Hok)| |done].
  exists []. rewrite app_nil_r. by split.
Qed.

Lemma sys_ok_same i i' ring disk rcvd L rel a z W :
  same_writes i i' -> sys_ok (Sys.mk i ring disk rcvd) L rel a z W -> sys_ok (Sys.mk i' ring disk rcvd) L rel a z W.
Proof.
  intros Hs Hok. eapply (sys_ok_core i); [by destruct Hs; split| |done| | |done].
  - eapply tail_same; [apply (iv_append _ _ _ _ _ _ Hok)|apply Hs].
  - rewrite (sw_pending _ _ Hs). apply (iv_pending _ _ _ _ _ _ Hok).
  - exists []. rewrite app_nil_r. split; [apply Hs|done].
Qed.

Lemma sys_ok_kernel i ring ring' disk disk' rcvd L rel a z W :
  sys_ok (Sys.mk i ring disk rcvd) L rel a z W ->
  kern L (cursor i) (blocks rel i) (IO.handed i) (IO.barrier i) (IO.blocked i) (IO.resubmit_sqes i) ring' disk' (durable a0 c0 W) ->
  sys_ok (Sys.mk i ring' disk' rcvd) L rel a z W.
Proof. intros [] Hk. by split. Qed.

(** ** Receiving tasks *)

Definition rejected (e : IoEvent) : Prop := exists o err, e = Appended o (Err err).

Record receives (rcvd : list WriteTask.t) (i i' : IO.t S R) : Prop := {
  rc_core : same_core i i';
  rc_wal : IO.wal i' = IO.wal i;
  rc_pending : Forall (fun t => task_ok fs t /\ t ∈ rcvd) (write_tasks (IO.pending_data_tasks i'));
  rc_events : exists E, write_events i' = write_events i ++ E /\ Forall rejected E;
}.

Lemma write_tasks_app l l' : write_tasks (l ++ l') = write_tasks l ++ write_tasks l'.
Proof. induction l as [|[] l IH]; simpl; [done|done|]. by rewrite IH. Qed.

Lemma receives_trans rcvd i1 i2 i3 rcvd' : receives rcvd i1 i2 -> receives rcvd' i2 i3 -> receives rcvd' i1 i3.
Proof.
  intros [[] Hw _ (E & HE & HF)] [[] Hw' Hp (E' & HE' & HF')]. split; [split; congruence|congruence|done|].
  exists (E ++ E'). rewrite HE', HE, (assoc_L (++)). split; [done|]. by apply Forall_app.
Qed.

Lemma add_pending_receives rcvd i task n m i' n' m' :
  Forall (fun t => WriteTask.buffer t = [] \/ task_ok fs t) (write_tasks [task]) ->
  Forall (fun t => task_ok fs t /\ t ∈ rcvd) (write_tasks (IO.pending_data_tasks i)) ->
  IO.add_pending_task i task n m = Ret (i', n', m') -> receives (rcvd ++ write_tasks [task]) i i'.
Proof.
  intros Ht Hp H. unfold IO.add_pending_task in H. assert (Hp' : forall l, Forall (fun t => task_ok fs t /\ t ∈ rcvd ++ l) (write_tasks (IO.pending_data_tasks i))).
  { intros l. eapply Forall_impl; [exact Hp|]. simpl. set_solver. }
  destruct (IO.validate_io_task task) eqn:Hv; simpl in H.
  - apply bind_Ret_inv in H as (x & _ & H). apply bind_Ret_inv in H as (y & _ & H). injection H as <- <- <-.
    split; [by split|done| |exists []; by rewrite app_nil_r]. simpl. rewrite write_tasks_app. apply Forall_app. split; [done|].
    destruct task as [task|task]; [constructor|]. simpl in *. apply Forall_cons in Ht as [[Hnil|Ht] _]; [by rewrite Hnil in Hv|].
    constructor; [split; [done|set_solver]|constructor].
  - destruct task as [task|task]; [done|]. simpl in H. injection H as <- <- <-.
    split; [by split|done|done|]. eexists [_]. unfold write_events. simpl. rewrite List.filter_app. simpl. split; [done|].
    repeat constructor. by eexists _, _.
Qed.

Lemma receive_loop_receives rcvd i n chan closed suspended k m i' rest k' suspended' :
  Forall (fun t => WriteTask.buffer t = [] \/ task_ok fs t) (write_tasks chan) ->
  Forall (fun t => task_ok fs t /\ t ∈ rcvd) (write_tasks (IO.pending_data_tasks i)) ->
  IO.receive_loop i n chan closed suspended k m = Ret (Some (i', rest, k', suspended')) ->
  receives (rcvd ++ write_tasks chan) i i'.
Proof.
  revert rcvd i suspended k m. induction chan as [|task chan IH]; intros rcvd i suspended k m Hch Hp H.
  all: assert (Hp' : forall l, Forall (fun t => task_ok fs t /\ t ∈ rcvd ++ l) (write_tasks (IO.pending_data_tasks i)))
    by (intros l; eapply Forall_impl; [exact Hp|]; simpl; set_solver).
  all: assert (Hsame : forall l i', same_core i i' -> IO.wal i' = IO.wal i -> IO.pending_data_tasks i' = IO.pending_data_tasks i ->
         write_events i' = write_events i -> receives (rcvd ++ l) i i')
    by (intros l i2 ? ? Hpd Hev; split; [done|done|by rewrite Hpd|exists []; by rewrite app_nil_r]).
  - simpl in H. destruct (_ || _); [injection H as <- _ _ _; by apply Hsame|].
    destruct closed; [injection H as <- _ _ _; by apply Hsame|]. destruct (IO.busy i k =? 0); [done|]. injection H as <- _ _ _. by apply Hsame.
  - cbn [IO.receive_loop] in H. destruct (_ || _); [injection H as <- _ _ _; by apply Hsame|].
    apply bind_Ret_inv in H as ([[i1 k1] m1] & H1 & H). change (task :: chan) with ([task] ++ chan) in Hch |- *.
    rewrite write_tasks_app in Hch |- *. apply Forall_app in Hch as [Ht Hch].
    apply (add_pending_receives rcvd) in H1 as Hr1; [|done|done]. rewrite (assoc_L (++)).
    eapply receives_trans; [exact Hr1|]. eapply IH; [done|apply Hr1|exact H].
Qed.

Lemma receive_ok i ring disk rcvd n chan closed i' rest k suspended L rel a z W :
  Forall (fun t => WriteTask.buffer t = [] \/ task_ok fs t) (write_tasks chan) ->
  IO.receive_io_tasks i n chan closed = Ret (Some (i', rest, k, suspended)) ->
  sys_ok (Sys.mk i ring disk rcvd) L rel a z W ->
  sys_ok (Sys.mk i' ring disk (rcvd ++ write_tasks chan)) L rel a z W.
Proof.
  intros Hch H Hok. apply (receive_loop_receives rcvd) in H as [Hc Hw Hp (E & HE & HF)]; [|done|apply Hok].
  eapply (sys_ok_core i i' ring disk rcvd); [exact Hc| |set_solver|done| |exact Hok].
  - rewrite Hw. apply (iv_append _ _ _ _ _ _ Hok).
  - exists E. split; [done|]. eapply Forall_impl; [exact HF|]. by intros ? (o & err & ->).
Qed.
End invariant.
End system.
