(* ===== verification/Submitting.v ===== *)
(** * Building and submitting entries

    A round of [build_sqe] keeps the invariant of the system: room is reserved for the pending
    writes, they are appended, and the buffers that hold new data are submitted, unless a
    write of the block that is not complete is on its way ([build_ok]). *)

From S2P Require Import Prelude Bytes StoreTypes Index Collections AlignedBuf BlockCache Segment Record Wal WriteWindow Recovery WalSegments IoLoop IoFrame Tail SharedBufs Appending Reserve Ring System.

Section submitting.
Context {S : SkipListApi} {R : RingApi} {P : PercentageApi} {Q : ScoreListApi}
  {B : BytesApi} {BL : BytesLaws B} {C : Crc32Api} {CL : Crc32Laws C} {M : MetaApi}.
Context (fs a0 c0 : Z) (E0 : list IoEvent).

(** ** Room and appending *)

Lemma reserve_ok i ring disk rcvd L rel a z W r i' :
  room_left fs i -> sys_ok fs a0 c0 E0 (Sys.mk i ring disk rcvd) L rel a z W ->
  IO.reserve_write_buffers i = Ret (r, i') ->
  r = Ok () /\ exists z', sys_ok fs a0 c0 E0 (Sys.mk i' ring disk rcvd) L rel a z' W /\
    cursor i' + need fs (cursor i' mod fs) (record_len <$> write_tasks (IO.pending_data_tasks i')) <= z'.
Proof.
  intros [Hroom Hbd] Hok H. destruct Hok as [Happ [] Hfr Hpd Hso Htk Hwin Hwr Hk Hev]. simpl in *.
  destruct (reserve_write_buffers_spec L i rel a0 a z fs) as [[Hle He]|(Hlt & w' & z' & He & [Hm Hlog] & Hn)]; try done.
  - eapply Forall_impl; [exact Hpd|]. by intros t [? _].
  - rewrite H in He. injection He as -> ->. split; [done|]. exists z. split; [by split|].
    specialize (Hroom (z - cursor i)). rewrite (writer_remaining _ a z) in Hroom by apply Happ. specialize (Hroom eq_refl Hle). lia.
  - rewrite H in He. injection He as -> ->. split; [done|]. exists z'.
    assert (Hc : cursor (IO.set_writer i w') = cursor i) by apply Hm.
    split; [|by rewrite Hc]. split; simpl; rewrite ?Hc; try done.
    + split; [done|]. rewrite Hc. apply Happ.
    + destruct Hm as (_ & _ & _ & Hal & _). by split; simpl; rewrite ?Hal.
    + eapply kern_extend; [exact Hk|done|lia|by intros p; apply more_bufs_blocks|done|].
      intros o k o' k' H1 H2. eapply blocks_apart; [exact Hlog|done|done].
Qed.

Lemma appending_ok st ring disk rcvd L rel a z W fuel now st' :
  sys_ok fs a0 c0 E0 (Sys.mk (IO.io st) ring disk rcvd) L rel a z W ->
  cursor (IO.io st) + need fs (cursor (IO.io st) mod fs) (record_len <$> write_tasks (IO.pending_data_tasks (IO.io st))) <= z ->
  IO.task_loop fuel st now = Ret (Some st') ->
  exists L', sys_ok fs a0 c0 E0 (Sys.mk (IO.io st') ring disk rcvd) L' rel a z W.
Proof.
  intros [Happ [Hsz Hfs Hal Hdv] Hfr Hpd Hso Htk Hwin Hwr Hk (E & HE & Hans)] Hroom H. simpl in *.
  apply (task_loop_ok L rel a0 a z fs c0 rcvd) in H as (L' & Hex & [Happ' Hfr' _ Hpd' Hso' Htk'] & Hbl); [|by split].
  pose proof (ex_le _ _ _ _ _ _ Hex) as Hle. destruct Hex as [[Ho Hwi Hba Hbk Hre Hha _ Hev Hal'] Hbe _].
  exists L'. split; simpl; rewrite ?Hwi, ?Hba, ?Hbk, ?Hre, ?Hha, ?Hbl; try done.
  - split; rewrite ?Hal'; try done. unfold IO.segment_size in *. by rewrite Ho.
  - eapply kern_extend; [exact Hk|done|done|done|done|]. intros o k o' k' H1 H2. rewrite <- Hbl in H1, H2.
    eapply blocks_apart; [apply Happ'|done|done].
  - exists E. rewrite Hev. split; [done|]. by eapply answered_mono.
Qed.

(** ** Entries of the ring *)

Lemma read_sqes_ok (i : IO.t S R) seg l now i' sqes : IO.read_sqes i seg l now = Ret (i', sqes) -> Forall read_ok sqes.
Proof.
  revert i i' sqes. induction l as [|r l IH]; intros i i' sqes H; simpl in H; [injection H as _ <-; constructor|].
  apply bind_Ret_inv in H as ([b|e] & _ & H); [|by eapply IH]. apply bind_Ret_inv in H as ([[n s]|] & Hf & H); [|done].
  apply bind_Ret_inv in H as (rf & _ & H). destruct (LogSegment.sd s); [|by eapply IH].
  apply bind_Ret_inv in H as (c & _ & H). apply bind_Ret_inv in H as ([i1 sq] & H1%IH & H). injection H as _ <-.
  constructor; [|done]. split_and!; [done|done|]. by eexists.
Qed.

Lemma build_read_ok (i : IO.t S R) l now i' sqes : IO.build_read_loop i l now = Ret (i', sqes) -> Forall read_ok sqes.
Proof.
  revert i i' sqes. induction l as [|[seg r] l IH]; intros i i' sqes H; simpl in H; [injection H as _ <-; constructor|].
  apply bind_Ret_inv in H as (m & _ & H). apply bind_Ret_inv in H as ([i1 sq] & H1%read_sqes_ok & H).
  apply bind_Ret_inv in H as ([i2 sq2] & H2%IH & H). injection H as _ <-. by apply Forall_app.
Qed.

Lemma kern_reads L c Bk handed barrier blocked resubmit ring disk dur l :
  Forall read_ok l -> kern L c Bk handed barrier blocked resubmit ring disk dur ->
  kern L c Bk handed barrier blocked resubmit (ring ++ (submit_one L c <$> l)) disk dur.
Proof.
  intros Hl. revert ring. induction Hl as [|e l He _ IH]; intros ring Hk; simpl; [by rewrite app_nil_r|].
  rewrite cons_middle, (assoc_L (++)). apply IH. by apply kern_submit_read.
Qed.

Lemma kern_drain_all L c Bk handed barrier blocked resubmit ring disk dur :
  kern L c Bk handed barrier blocked resubmit ring disk dur ->
  kern L c Bk handed barrier blocked [] (ring ++ (submit_one L c <$> resubmit)) disk dur.
Proof.
  revert ring. induction resubmit as [|e l IH]; intros ring Hk; simpl; [by rewrite app_nil_r|].
  rewrite cons_middle, (assoc_L (++)). apply IH. by apply kern_drain.
Qed.

(** What the kernel is given is what the log says. *)
Lemma submit_spec L i rel a z barrier blocked resubmit ring disk dur entries :
  log_ok L i rel a0 a z ->
  kern L (cursor i) (blocks rel i) (IO.handed i) barrier blocked resubmit
    (ring ++ (submit_one L (cursor i) <$> entries)) disk dur ->
  submit i <$> entries = submit_one L (cursor i) <$> entries.
Proof.
  intros Hlog Hk. apply list_fmap_ext. intros j e Hj. apply list_elem_of_lookup_2 in Hj. unfold submit, submit_one. f_equal.
  destruct (kn_ring _ _ _ _ _ _ _ _ _ _ Hk (submit_one L (cursor i) e)) as [(Hr & _)|(k & (Hw & _ & Hbuf & HB & Hlen & Hpos & Hc & Hh) & _)].
  - apply elem_of_app. right. by apply list_elem_of_fmap_2.
  - unfold captured_of. simpl in Hr. by rewrite Hr.
  - simpl in *. unfold captured_of. unfold writes in Hw. rewrite Hw, Hbuf.
    destruct (deref_spec L i rel a0 a z (off e) k) as (b & -> & _ & _ & _ & Hl & Hd); [done|done|lia|by left|].
    by rewrite Hd, Hl, Hlen.
Qed.

(** ** Writes and barriers *)

Definition gated (i : IO.t S R) (barrier : gset Z) (blocked : gmap Z (Context.t * DataSqe.t)) : IO.t S R :=
  IO.set_blocked (IO.set_barrier i barrier) blocked.

Definition kern_at (L : Z -> byte) (rel : list abuf) (W : list (Z * Z)) (disk : Z -> byte) (i : IO.t S R) (ring : list request) : Prop :=
  kern L (cursor i) (blocks rel i) (IO.handed i) (IO.barrier i) (IO.blocked i) (IO.resubmit_sqes i) ring disk (durable a0 c0 W).

(** [sqes] are submitted, and others are held back. *)
Definition submits (L : Z -> byte) (rel : list abuf) (W : list (Z * Z)) (disk : Z -> byte) (i : IO.t S R)
    (ring : list request) (i' : IO.t S R) (sqes : list DataSqe.t) : Prop :=
  exists barrier blocked, i' = gated i barrier blocked /\
    kern_at L rel W disk i' (ring ++ (submit_one L (cursor i) <$> sqes)).

Lemma submits_nil L rel W disk i ring : kern_at L rel W disk i ring -> submits L rel W disk i ring i [].
Proof. intros Hk. exists (IO.barrier i), (IO.blocked i). split; [by destruct i|]. by rewrite app_nil_r. Qed.

Lemma submits_trans L rel W disk i ring i1 l1 i2 l2 :
  submits L rel W disk i ring i1 l1 ->
  (kern_at L rel W disk i1 (ring ++ (submit_one L (cursor i) <$> l1)) ->
   submits L rel W disk i1 (ring ++ (submit_one L (cursor i) <$> l1)) i2 l2) ->
  submits L rel W disk i ring i2 (l1 ++ l2).
Proof.
  intros (ba & bl & -> & Hk) H. destruct (H Hk) as (ba' & bl' & -> & Hk'). exists ba', bl'. split; [done|].
  by rewrite fmap_app, (assoc_L (++)).
Qed.

Lemma gated_log L i rel a z ba bl : log_ok L i rel a0 a z -> log_ok L (gated i ba bl) rel a0 a z.
Proof. by apply log_ok_eq. Qed.

(** The block of a write that is allowed is submitted; the barrier is there when the block
    is not full. *)
Lemma submits_one L rel W disk i ring e k ba bl :
  kern_at L rel W disk i ring -> sqe_ok (blocks rel i) (IO.handed i) (cursor i) e k ->
  off e ∉ IO.barrier i -> IO.barrier i ⊆ ba -> (cursor i < off e + k -> off e ∈ ba) -> bl ⊆ IO.blocked i ->
  submits L rel W disk i ring (gated i ba bl) [e].
Proof.
  intros Hk Hok Hnb Hsub Hset Hbl. exists ba, bl. split; [done|]. unfold kern_at. simpl.
  eapply kern_submit; [|exact Hok|exact Hnb|exact Hsub|exact Hset]. by eapply kern_blocked_sub.
Qed.

Lemma unblock_ok L i rel a z l ring disk W i' sqes :
  log_ok L i rel a0 a z -> kern_at L rel W disk i ring ->
  Forall (fun p => p.2.1 = DataSqe.ctx p.2.2 /\ off p.2.2 = p.1 /\
    exists k, sqe_ok (blocks rel i) (IO.handed i) (cursor i) p.2.2 k) l ->
  IO.unblock_loop i l = Ret (i', sqes) -> submits L rel W disk i ring i' sqes.
Proof.
  revert i ring i' sqes. induction l as [|[o [ctx e]] l IH]; intros i ring i' sqes Hlog Hk Hl H; cbn [IO.unblock_loop] in H.
  { injection H as <- <-. by apply submits_nil. }
  apply Forall_cons in Hl as [(Hx & Ho & k & Hok) Hl]. simpl in Hx, Ho, Hok. subst o ctx.
  unfold IO.is_blocked in H. case_bool_decide as Hb; [by eapply IH|]. apply bind_Ret_inv in H as (b & Hb' & H).
  apply bind_Ret_inv in H as ([i1 sq] & H1 & H). injection H as <- <-.
  pose proof Hok as (Hw & Hop & Hbuf & HB & Hlen & Hpos & Hlc & Hh).
  destruct (deref_spec L i rel a0 a z (off e) k) as (b' & Hd & _ & Hpl & _ & Hlim & _); [done|done|lia|by left|].
  rewrite Hbuf, Hd in Hb'. injection Hb' as ->. set (i0 := if Context.is_partial_write (DataSqe.ctx e) b then _ else _) in H1.
  change (e :: sq) with ([e] ++ sq). apply submits_trans with i0.
  - assert (Hi0 : exists ba, i0 = gated i ba (delete (off e) (IO.blocked i)) /\ IO.barrier i ⊆ ba /\ (cursor i < off e + k -> off e ∈ ba)).
    { unfold i0, Context.is_partial_write. rewrite Hop. destruct (_ || _) eqn:Hp.
      - exists ({[off e]} ∪ IO.barrier i). split_and!; [done|set_solver|set_solver].
      - exists (IO.barrier i). split_and!; [done|done|]. intros Hlt. exfalso. apply orb_false_iff in Hp as [Hp _].
        unfold AlignedBuf.partial in Hp. injection Hpl as Ho' Hk'. rewrite Hk', Hlim in Hp. bool_to_prop. lia. }
    destruct Hi0 as (ba & -> & Hsub & Hset). eapply submits_one; try done. apply delete_subseteq.
  - intros Hk'. assert (Hsame : blocks rel i0 = blocks rel i /\ IO.handed i0 = IO.handed i /\ cursor i0 = cursor i /\ log_ok L i0 rel a0 a z).
    { unfold i0. destruct (Context.is_partial_write _ _); (split_and!; [done..|]); by apply (log_ok_eq L i). }
    destruct Hsame as (E1 & E2 & E3 & Hlog0). eapply IH; [exact Hlog0|exact Hk'|by rewrite E1, E2, E3|exact H1].
Qed.

(** A buffer that is handed out. *)
Definition item_ok (rel : list abuf) (i : IO.t S R) (b : abuf) : Prop :=
  place b ∈ blocks rel i /\ 0 < AlignedBuf.limit b /\ AlignedBuf.capacity b < 2 ^ 32 /\
  AlignedBuf.limit b = AlignedBuf.capacity b `min` (cursor i - AlignedBuf.wal_offset b) /\
  is_Some (IO.handed i !! AlignedBuf.wal_offset b).

Lemma write_buffer_ok L i rel b ring disk W i' sqe :
  kern_at L rel W disk i ring -> item_ok rel i b ->
  IO.write_buffer i b = Ret (i', sqe) -> submits L rel W disk i ring i' (option_list sqe).
Proof.
  intros Hk (Hpl & Hpos & Hsm & Hlim & Hh) H. unfold IO.write_buffer in H.
  apply bind_Ret_inv in H as ([[n s]|] & _ & H); [|injection H as <- <-; by apply submits_nil].
  destruct (LogSegment.sd s) as [fd|]; [|done]. apply bind_Ret_inv in H as (fo & _ & H).
  rewrite !as_uint_id in H by (unfold is_uint; lia). set (e := DataSqe.mk _ _ _ _ _) in H.
  assert (Hok : sqe_ok (blocks rel i) (IO.handed i) (cursor i) e (AlignedBuf.capacity b)).
  { unfold sqe_ok, off, e. simpl. split_and!; try done; lia. }
  assert (Hins : submits L rel W disk i ring (IO.set_blocked i (<[off e := (DataSqe.ctx e, e)]> (IO.blocked i))) []).
  { exists (IO.barrier i), (<[off e := (DataSqe.ctx e, e)]> (IO.blocked i)). split; [by destruct i|]. rewrite app_nil_r.
    by eapply kern_blocked_insert. }
  unfold IO.is_blocked in H. case_bool_decide as Hb.
  - destruct (IO.blocked i !! _) as [[prev e']|]; [destruct (_ <=? _); [|done]|]; injection H as <- <-; exact Hins.
  - injection H as <- <-. simpl.
    assert (Hi : exists ba, (if AlignedBuf.partial b then IO.set_barrier i ({[AlignedBuf.wal_offset b]} ∪ IO.barrier i) else i) =
      gated i ba (IO.blocked i) /\ IO.barrier i ⊆ ba /\ (cursor i < off e + AlignedBuf.capacity b -> off e ∈ ba)).
    { destruct (AlignedBuf.partial b) eqn:Hp.
      - exists ({[AlignedBuf.wal_offset b]} ∪ IO.barrier i). split_and!; [done|set_solver|]. unfold off, e. simpl. set_solver.
      - exists (IO.barrier i). split_and!; [by destruct i|done|]. unfold off, e. simpl. unfold AlignedBuf.partial in Hp. bool_to_prop. lia. }
    destruct Hi as (ba & -> & Hsub & Hset). by eapply submits_one.
Qed.

Lemma write_buffers_ok L i rel items ring disk W i' sqes :
  kern_at L rel W disk i ring -> Forall (item_ok rel i) items ->
  IO.write_buffers i items = Ret (i', sqes) -> submits L rel W disk i ring i' sqes.
Proof.
  revert i ring i' sqes. induction items as [|b items IH]; intros i ring i' sqes Hk Hl H; cbn [IO.write_buffers] in H.
  { injection H as <- <-. by apply submits_nil. }
  apply Forall_cons in Hl as [Hb Hl]. apply bind_Ret_inv in H as (e & _ & H). destruct (_ <? e); [|by eapply IH].
  apply bind_Ret_inv in H as ([i1 sqe] & H1 & H). apply bind_Ret_inv in H as ([i2 sq] & H2 & H). injection H as <- <-.
  apply (write_buffer_ok L _ rel _ ring disk W) in H1; [|done|done]. eapply submits_trans; [exact H1|]. intros Hk1.
  eapply IH; [exact Hk1| |exact H2]. destruct H1 as (ba & bl & -> & _). exact Hl.
Qed.

(** Only the buffers and what waits for them change. *)
Record same_queue (i i' : IO.t S R) : Prop := {
  sq_options : IO.options i' = IO.options i;
  sq_wal : IO.wal i' = IO.wal i;
  sq_window : IO.write_window i' = IO.write_window i;
  sq_tasks : IO.inflight_write_tasks i' = IO.inflight_write_tasks i;
  sq_resubmit : IO.resubmit_sqes i' = IO.resubmit_sqes i;
  sq_pending : IO.pending_data_tasks i' = IO.pending_data_tasks i;
  sq_events : write_events i' = write_events i;
  sq_align : AlignedBufWriter.alignment (IO.buf_writer i') = AlignedBufWriter.alignment (IO.buf_writer i);
  sq_cursor : cursor i' = cursor i;
}.

Lemma items_ok L i rel a z items w' rel' :
  log_ok L i rel a0 a z -> let i' := IO.hand_out (IO.set_writer i w') items in
  Forall (fun b => b ∈ IO.writer_bufs i /\ 0 < AlignedBuf.limit b) items ->
  blocks rel' i' = blocks rel i -> cursor i' = cursor i -> Forall (item_ok rel' i') items.
Proof.
  intros Hlog i' Hit Hbl Hc. destruct (filled_chain _ _ _ _ _ _ Hlog) as (m & _ & _ & _ & _ & Hlim).
  apply Forall_forall. intros b Hb. apply (proj1 (Forall_forall _ _) Hit) in Hb as Hb'. destruct Hb' as [Hin Hpos].
  assert (Hall : b ∈ rel ++ all_bufs (IO.buf_writer i)).
  { unfold IO.writer_bufs in Hin. unfold all_bufs. set_solver. }
  unfold item_ok. rewrite Hbl, Hc. split_and!; [|done| | |].
  - unfold blocks. by apply list_elem_of_fmap_2.
  - by apply (proj1 (Forall_forall _ _) (lo_small _ _ _ _ _ _ Hlog)).
  - apply (proj1 (Forall_forall _ _) Hlim). set_solver.
  - simpl. by apply hand_out_in.
Qed.

Lemma build_write_ok L i rel a z ring disk W i' sqes :
  log_ok L i rel a0 a z -> kern_at L rel W disk i ring -> IO.build_write_sqe i = Ret (i', sqes) ->
  exists rel' a', log_ok L i' rel' a0 a' z /\ same_queue i i' /\
    kern_at L rel' W disk i' (ring ++ (submit_one L (cursor i) <$> sqes)).
Proof.
  intros Hlog Hk H. unfold IO.build_write_sqe in H. apply bind_Ret_inv in H as ([i1 sq1] & H1 & H).
  apply (unblock_ok L i rel a z _ ring disk W) in H1; [|done|done|].
  2:{ apply Forall_forall. intros [o [x e]] Hin%elem_of_map_to_list. by apply (kn_blocked _ _ _ _ _ _ _ _ _ _ Hk) in Hin. }
  destruct H1 as (ba & bl & -> & Hk1). apply bind_Ret_inv in H as (slots & _ & H).
  destruct (AlignedBufWriter.take _ _) as [items w'] eqn:Ht. apply bind_Ret_inv in H as ([i2 sq2] & H2 & H). injection H as <- <-.
  set (g := gated i ba bl) in *. assert (Hlog1 : log_ok L g rel a0 a z) by by apply gated_log.
  destruct (take_log L g rel a0 a z _ items w' Hlog1 Ht) as (rel' & a' & Hlog2 & Hbl & Hit).
  destruct (take_items _ _ _ _ Ht) as (tl & bf & _ & _ & _ & Hw').
  set (h := IO.hand_out (IO.set_writer g w') items) in *.
  assert (Hc : cursor h = cursor i) by (unfold cursor; simpl; by rewrite Hw').
  assert (Hk2 : kern_at L rel' W disk h (ring ++ (submit_one L (cursor i) <$> sq1))).
  { unfold kern_at. rewrite Hbl, Hc. eapply kern_extend; [exact Hk1|done|reflexivity|done| |].
    - intros o. simpl. apply hand_out_mono.
    - intros o k o' k'. eapply blocks_apart, Hlog1. }
  apply (write_buffers_ok L _ rel' _ (ring ++ (submit_one L (cursor i) <$> sq1)) disk W) in H2;
    [|exact Hk2|by eapply items_ok].
  destruct H2 as (ba2 & bl2 & -> & Hk3). exists rel', a'. split; [by apply gated_log|]. split.
  - split; try done. simpl. by rewrite Hw'.
  - rewrite fmap_app, (assoc_L (++)). rewrite <- Hc at 2. exact Hk3.
Qed.

Lemma build_ok i ring disk rcvd L rel a z W now i' entries :
  room_left fs i -> sys_ok fs a0 c0 E0 (Sys.mk i ring disk rcvd) L rel a z W ->
  IO.build_sqe i now = Ret (i', entries) ->
  exists L' rel' a' z', sys_ok fs a0 c0 E0 (Sys.mk i' (ring ++ (submit i' <$> entries)) disk rcvd) L' rel' a' z' W.
Proof.
  intros Hroom Hok H. unfold IO.build_sqe in H. apply bind_Ret_inv in H as ([r i1] & H1 & H).
  destruct (reserve_ok _ _ _ _ _ _ _ _ _ _ _ Hroom Hok H1) as (-> & z1 & Hok1 & Hn).
  apply bind_Ret_inv in H as ([[n free] w] & Hre%try_reclaim_same & H). apply bind_Ret_inv in H as ([st|] & Hst & H); [|done].
  apply (appending_ok _ ring disk rcvd L rel a z1 W) in Hst as (L' & Hok2);
    [|cbn [IO.io]; eapply sys_ok_same; [by apply set_wal_same|exact Hok1]|exact Hn].
  apply bind_Ret_inv in H as ([i2 reads] & Hrd & H). unfold IO.build_read_sqe in Hrd. apply build_read_ok in Hrd as Hreads.
  apply bind_Ret_inv in H as (i3 & Href & H). apply bind_Ret_inv in H as ([i4 wr] & Hwr & H). injection H as <- <-.
  apply (sys_ok_same fs a0 c0 E0 _ i2) in Hok2; [|by eapply build_read_same].
  apply (sys_ok_same fs a0 c0 E0 _ i3) in Hok2; [|by eapply reference_loop_same].
  set (ring1 := ring ++ (submit_one L' (cursor i3) <$> reads)).
  assert (Hk3 : kern_at L' rel W disk i3 ring1) by (apply kern_reads; [done|apply Hok2]).
  assert (H4 : exists rel' a', log_ok L' i4 rel' a0 a' z1 /\ same_queue i3 i4 /\
    kern_at L' rel' W disk i4 (ring1 ++ (submit_one L' (cursor i3) <$> wr))).
  { destruct (_ || _).
    - eapply build_write_ok; [apply Hok2|exact Hk3|exact Hwr].
    - injection Hwr as <- <-. exists rel, a. split; [apply Hok2|]. split; [by split|]. by rewrite app_nil_r. }
  destruct H4 as (rel' & a' & Hlog4 & [] & Hk4). exists L', rel', a', z1. apply kern_drain_all in Hk4.
  unfold ring1 in Hk4. rewrite <- !(assoc_L (++)), sq_cursor0 in Hk4. rewrite <- !fmap_app in Hk4.
  destruct Hok2 as [[_ Htl] [] Hfr Hpd Hso Htk Hwin Hwrs _ Hev]. simpl in *.
  split; simpl; unfold cursor in *; simpl; rewrite ?sq_cursor0, ?sq_wal0, ?sq_window0, ?sq_tasks0, ?sq_pending0; try done.
  - split; [by apply (log_ok_eq L' i4)|]. unfold cursor. simpl. by rewrite sq_cursor0, sq_wal0.
  - split; simpl; rewrite ?sq_align0; try done. unfold IO.segment_size in *. simpl. by rewrite sq_options0.
  - rewrite (submit_spec L' (IO.set_resubmit i4 []) rel' a' z1 (IO.barrier i4) (IO.blocked i4) [] ring disk (durable a0 c0 W));
      unfold cursor; simpl; rewrite ?sq_cursor0; [exact Hk4|by apply (log_ok_eq L' i4)|exact Hk4].
  - change (write_events (IO.set_resubmit i4 [])) with (write_events i4). rewrite sq_events0. done.
Qed.
End submitting.
