(* ===== verification/Reaping.v ===== *)
(** * Reaping completions

    The completions of reads and writes keep the invariant of the system: a write that
    reports success is committed to the window, one that failed is submitted again, and the
    tasks whose records are committed are answered ([reap_ok]). *)

From S2P Require Import Prelude Bytes StoreTypes Index Collections AlignedBuf BlockCache Segment Record Wal WriteWindow Recovery WalSegments IoLoop IoFrame Tail SharedBufs Appending Reserve Ring System.

Section reaping.
Context {S : SkipListApi} {R : RingApi} {P : PercentageApi} {Q : ScoreListApi}
  {B : BytesApi} {BL : BytesLaws B} {C : Crc32Api} {CL : Crc32Laws C} {M : MetaApi}.
Context (fs a0 c0 : Z) (E0 : list IoEvent).

Notation sys_ok := (sys_ok fs a0 c0 E0).

(** A completion changes the window, the barriers and what is submitted again. *)
Definition settled (i : IO.t S R) (w : WriteWindow.t) (barrier : gset Z) (resubmit : list DataSqe.t) : IO.t S R :=
  IO.set_resubmit (IO.set_barrier (IO.set_window i w) barrier) resubmit.

Lemma sys_ok_settled i ring disk rcvd L rel a z W w barrier resubmit ring' W' :
  sys_ok (Sys.mk i ring disk rcvd) L rel a z W -> inv c0 W' w -> writes_ok W' -> (forall x, written W x -> written W' x) ->
  kern L (cursor i) (blocks rel i) (IO.handed i) barrier (IO.blocked i) resubmit ring' disk (durable a0 c0 W') ->
  sys_ok (Sys.mk (settled i w barrier resubmit) ring' disk rcvd) L rel a z W'.
Proof.
  intros [Happ [] Hfr Hpd Hso Htk Hwin Hwr Hk (E & HE & Hans)] Hinv Hok HW Hk'. split; try done.
  - by apply (append_ok_eq L i).
  - exists E. split; [done|]. by eapply answered_mono.
Qed.

Lemma retry_spec i ctx buf i' :
  IO.retry i ctx buf = Ret i' ->
  exists ba rs, i' = settled i (IO.write_window i) ba rs /\ IO.barrier i ⊆ ba /\
    (rs = IO.resubmit_sqes i \/
     (AlignedBuf.partial buf = true -> AlignedBuf.wal_offset buf ∈ ba) /\ exists fd file_offset,
       let n := match Context.opcode ctx with OpRead => Context.len ctx | OpWrite => as_uint 32 (AlignedBuf.capacity buf) end in
       rs = IO.resubmit_sqes i ++ [DataSqe.mk (Context.opcode ctx) fd file_offset n ctx]).
Proof.
  intros H. unfold IO.retry in H. case_bool_decide.
  { injection H as <-. exists (IO.barrier i), (IO.resubmit_sqes i). split; [by destruct i|]. split; [done|by left]. }
  set (ba := if AlignedBuf.partial buf then {[AlignedBuf.wal_offset buf]} ∪ IO.barrier i else IO.barrier i).
  assert (Hsub : IO.barrier i ⊆ ba) by (unfold ba; destruct (AlignedBuf.partial buf); set_solver).
  set (i1 := if AlignedBuf.partial buf then _ else i) in H.
  assert (Hi1 : i1 = settled i (IO.write_window i) ba (IO.resubmit_sqes i)).
  { unfold i1, ba. destruct (AlignedBuf.partial buf); by destruct i. }
  clearbody i1. subst i1. exists ba.
  assert (Hleft : exists rs, settled i (IO.write_window i) ba (IO.resubmit_sqes i) = settled i (IO.write_window i) ba rs /\
    IO.barrier i ⊆ ba /\ rs = IO.resubmit_sqes i) by by eexists.
  apply bind_Ret_inv in H as ([[n s]|] & _ & H).
  2:{ injection H as <-. destruct Hleft as (rs & ? & ? & ?). exists rs. split_and!; [done|done|by left]. }
  destruct (LogSegment.sd s) as [fd|].
  2:{ injection H as <-. destruct Hleft as (rs & ? & ? & ?). exists rs. split_and!; [done|done|by left]. }
  apply bind_Ret_inv in H as (fo & _ & H). injection H as <-. eexists. split; [done|]. split; [done|]. right.
  split; [|by exists fd, fo]. unfold ba. intros ->. set_solver.
Qed.

Lemma reap_read_ok st q r disk rcvd L rel a z W cqe st' :
  sys_ok (Sys.mk (IO.reaped st) (q :: r) disk rcvd) L rel a z W -> read_ok (sqe q) -> completes q cqe ->
  IO.reap_one st cqe = Ret st' -> sys_ok (Sys.mk (IO.reaped st') r disk rcvd) L rel a z W.
Proof.
  intros Hok (_ & Hop & b & Hb) [Hctx _] H. unfold IO.reap_one in H. rewrite Hctx, Hb, Hop in H. simpl in H.
  apply bind_Ret_inv in H as (b1 & _ & H). set (i := IO.reaped st) in *.
  assert (Hk : kern L (cursor i) (blocks rel i) (IO.handed i) (IO.barrier i) (IO.blocked i) (IO.resubmit_sqes i) r disk (durable a0 c0 W))
    by (eapply kern_drop; apply Hok).
  assert (Hset : forall ba rs, IO.barrier i ⊆ ba -> (rs = IO.resubmit_sqes i \/ exists e, read_ok e /\ rs = IO.resubmit_sqes i ++ [e]) ->
    sys_ok (Sys.mk (settled i (IO.write_window i) ba rs) r disk rcvd) L rel a z W).
  { intros ba rs Hba Hrs. eapply sys_ok_settled; [exact Hok|apply Hok|apply Hok|done|]. eapply kern_barrier; [|exact Hba].
    destruct Hrs as [->|(e & He & ->)]; [done|by apply kern_resubmit_read]. }
  apply bind_Ret_inv in H as ([[res w] b2] & Hc & H). unfold IO.on_complete in Hc. rewrite Hop in Hc.
  destruct (_ <? 0).
  - injection Hc as <- <- <-. destruct (_ || _); [|done]. apply bind_Ret_inv in H as (i' & Hre & H). injection H as <-. simpl.
    apply retry_spec in Hre as (ba & rs & -> & Hba & Hrs). simpl in Hba, Hrs. apply (Hset ba rs Hba).
    destruct Hrs as [->|(_ & fd & fo & ->)]; [by left|right]. eexists. split; [|done]. rewrite Hop. split_and!; [done|done|]. by exists b.
  - destruct (negb _); [done|]. injection Hc as <- <- <-. apply bind_Ret_inv in H as (n & _ & H).
    apply bind_Ret_inv in H as (found & _ & H). injection H as <-. simpl.
    specialize (Hset (IO.barrier i) (IO.resubmit_sqes i) ltac:(done) ltac:(by left)). by destruct (IO.reaped st).
Qed.

(** The offset and the length of a write that completed. *)
Definition write_of (e : DataSqe.t) : Z * Z := (off e, Context.len (DataSqe.ctx e)).

Lemma durable_cons W e x : durable a0 c0 (write_of e :: W) x <->
  durable a0 c0 W x \/ off e <= x < off e + Context.len (DataSqe.ctx e).
Proof.
  unfold durable, written, write_of. split.
  - intros [?|(o & l & [Ho|Ho]%elem_of_cons & Hx)]; [by left; left|injection Ho as -> ->; by right|left; right; by exists o, l].
  - intros [[?|(o & l & Ho & Hx)]|Hx]; [by left|right; exists o, l; set_solver|right; eexists _, _; split; [by left|done]].
Qed.

Lemma written_cons W p x : written W x -> written (p :: W) x.
Proof. intros (o & l & Ho & Hx). exists o, l. set_solver. Qed.

Lemma reap_write_ok st q r disk rcvd L rel a z W k cqe st' :
  sys_ok (Sys.mk (IO.reaped st) (q :: r) disk rcvd) L rel a z W ->
  sqe_ok (blocks rel (IO.reaped st)) (IO.handed (IO.reaped st)) (cursor (IO.reaped st)) (sqe q) k -> completes q cqe ->
  IO.reap_one st cqe = Ret st' ->
  sys_ok (Sys.mk (IO.reaped st') r disk rcvd) L rel a z W \/
  sys_ok (Sys.mk (IO.reaped st') r disk rcvd) L rel a z (write_of (sqe q) :: W).
Proof.
  intros Hok Hq [Hctx Hdone] H. pose proof Hq as (Hw & Hop & Hbuf & HB & Hlen & Hpos & Hlc & Hh). set (i := IO.reaped st) in *.
  pose proof (iv_append _ _ _ _ _ _ _ _ _ _ Hok) as [Hlog _]. pose proof (iv_kern _ _ _ _ _ _ _ _ _ _ Hok) as Hk. simpl in Hlog, Hk.
  destruct (deref_spec L i rel a0 a z (off (sqe q)) k) as (b & Hd & _ & Hpl & _ & Hlim & _); [done|done|lia|by left|].
  destruct (blocks_small _ _ _ _ _ _ _ _ Hlog HB) as (Ha0 & Hk32 & Hz). injection Hpl as Ho Hcap.
  unfold IO.reap_one in H. fold i in H. rewrite Hctx, Hbuf, Hd, Hop in H. simpl in H.
  apply bind_Ret_inv in H as ([[res w] b2] & Hc & H). unfold IO.on_complete in Hc. rewrite Hop in Hc.
  destruct (Z.ltb_spec (Cqe.result cqe) 0).
  - left. injection Hc as <- <- <-. destruct (_ || _); [|done]. apply bind_Ret_inv in H as (i' & Hre & H). injection H as <-. simpl.
    apply retry_spec in Hre as (ba & rs & -> & Hba & Hrs). simpl in Hba, Hrs.
    apply (sys_ok_settled i (q :: r) disk rcvd L rel a z W (IO.write_window i) ba rs r W); [exact Hok|apply Hok|apply Hok|done|].
    destruct Hrs as [->|(Hpar & fd & fo & ->)].
    + eapply kern_barrier; [by apply kern_remove|]. by rewrite <- Ho.
    + rewrite Hop, Hcap, as_uint_id in * by (unfold is_uint; lia). rewrite Ho in Hba, Hpar.
      eapply (kern_retry _ _ _ _ (IO.barrier i) ba _ _ q r _ _ _ k); [done|done| |done|done|].
      * unfold sqe_ok, off in *. simpl in *. split_and!; try done; lia.
      * intros Hlt. apply Hpar. unfold AlignedBuf.partial. rewrite Hcap, Hlim. unfold off in *. simpl in *. bool_to_prop. lia.
  - right. destruct (negb _) eqn:Hres; [done|]. apply negb_false_iff, Z.eqb_eq in Hres.
    apply bind_Ret_inv in Hc as ([rw w'] & Hcm & Hc). injection Hc as <- -> <-.
    pose proof (wa_bound _ _ _ _ (lo_writer _ _ _ _ _ _ Hlog)).
    assert (Hwo : writes_ok (write_of (sqe q) :: W)).
    { intros o l [Hol|Hol]%elem_of_cons; [|by apply (iv_writes _ _ _ _ _ _ _ _ _ _ Hok)]. injection Hol as -> ->.
      pose proof (log_bounds' _ _ _ _ _ _ Hlog). lia. }
    destruct (commit_spec c0 W (IO.write_window i) (off (sqe q)) (Context.len (DataSqe.ctx (sqe q)))) as [(w1 & Hcm' & Hinv)|(prev & Hcm' & _)];
      [exact Hwo|apply Hok|..].
    + change (Context.wal_offset (DataSqe.ctx (sqe q))) with (off (sqe q)) in Hcm. simpl in Hcm. rewrite Hcm' in Hcm. injection Hcm as <- <-.
      apply bind_Ret_inv in H as (n & _ & H). simpl in H. injection H as <-. simpl.
      apply (sys_ok_settled i (q :: r) disk rcvd L rel a z W w1 (IO.barrier i ∖ {[off (sqe q)]}) (IO.resubmit_sqes i) r (write_of (sqe q) :: W)) in Hok;
        [unfold i in *; rewrite Ho; by destruct (IO.reaped st)|done|done|intros x; apply written_cons|].
      eapply kern_dur; [intros x; apply durable_cons|]. apply kern_commit; [done|done|]. apply Hdone; [done|congruence].
    + change (Context.wal_offset (DataSqe.ctx (sqe q))) with (off (sqe q)) in Hcm. simpl in Hcm. rewrite Hcm' in Hcm. by injection Hcm as <- <-.
Qed.

Lemma reap_loop_ok st reqs rest disk rcvd L rel a z W cqes st' :
  sys_ok (Sys.mk (IO.reaped st) (reqs ++ rest) disk rcvd) L rel a z W -> Forall2 completes reqs cqes ->
  IO.reap_loop st cqes = Ret st' ->
  exists W', sys_ok (Sys.mk (IO.reaped st') rest disk rcvd) L rel a z W'.
Proof.
  intros Hok Hc. revert st W Hok. induction Hc as [|q c reqs cqes Hqc _ IH]; intros st W Hok H; simpl in *.
  { injection H as <-. by exists W. }
  apply bind_Ret_inv in H as (st1 & H1 & H).
  destruct (kn_ring _ _ _ _ _ _ _ _ _ _ (iv_kern _ _ _ _ _ _ _ _ _ _ Hok) q) as [Hr|(k & Hq & _)]; [set_solver| |].
  - eapply IH; [by eapply reap_read_ok|exact H].
  - destruct (reap_write_ok _ _ _ _ _ _ _ _ _ _ _ _ _ Hok Hq Hqc H1) as [Hok'|Hok']; by eapply IH.
Qed.

(** ** Answering *)

Lemma sys_ok_sent i ring disk rcvd L rel a z W m E :
  sys_ok (Sys.mk (IO.set_writes i m) ring disk rcvd) L rel a z W ->
  Forall (fun e => is_write_event e = true /\ answered fs c0 rcvd L (cursor i) W e) E ->
  sys_ok (Sys.mk (IO.set_writes (foldl IO.send i E) m) ring disk rcvd) L rel a z W.
Proof.
  intros Hok HE. revert i Hok HE. induction E as [|e E IH]; intros i Hok HE; simpl; [done|].
  apply Forall_cons in HE as [[He Ha] HE]. apply IH; [|exact HE].
  eapply (sys_ok_core fs a0 c0 E0 (IO.set_writes i m)); [by split|apply Hok|done|apply (iv_pending _ _ _ _ _ _ _ _ _ _ Hok)| |exact Hok].
  exists [e]. unfold write_events. simpl. rewrite List.filter_app. simpl. rewrite He. split; [done|]. by repeat constructor.
Qed.

Lemma sys_ok_tail i ring disk rcvd L rel a z W p m :
  sys_ok (Sys.mk (IO.set_writes i (p :: m)) ring disk rcvd) L rel a z W ->
  sys_ok (Sys.mk (IO.set_writes i m) ring disk rcvd) L rel a z W.
Proof.
  intros [Happ [] Hfr Hpd Hso Htk Hwin Hwr Hk Hev]. simpl in *. split; try done.
  - by apply (append_ok_eq L (IO.set_writes i (p :: m))).
  - destruct p. by apply BTreeMap.sorted_cons in Hso as [_ ?].
  - intros k t Hin. apply (Htk k t). by apply elem_of_cons; right.
Qed.

Lemma ack_loop_ok i m ring disk rcvd L rel a z W i' :
  sys_ok (Sys.mk (IO.set_writes i m) ring disk rcvd) L rel a z W -> IO.ack_loop i m = Ret i' ->
  sys_ok (Sys.mk i' ring disk rcvd) L rel a z W.
Proof.
  revert i. induction m as [|[o t] m IH]; intros i Hok H; cbn [IO.ack_loop] in H; [by injection H as <-|].
  destruct (Z.ltb_spec (WriteWindow.committed (IO.write_window i)) o) as [|Hcm]; [by injection H as <-|].
  destruct (iv_tasks _ _ _ _ _ _ _ _ _ _ Hok o t) as [Hoc (t0 & -> & Hin & Hlt & Hfit & Hfr & Hs)]; [by left|].
  simpl in H. apply bind_Ret_inv in H as (p & Hp & H). apply uint_sub_inv in Hp as [-> _].
  destruct (iv_window _ _ _ _ _ _ _ _ _ _ Hok) as [(_ & _ & Hpre & _) _]. simpl in Hpre, Hoc.
  assert (Hst : stored rcvd fs c0 L (cursor i) W t0 (o - record_len t0)).
  { split_and!; [done..| |].
    - change (cursor (IO.set_writes i _)) with (cursor i) in Hoc. lia.
    - intros x Hx. apply Hpre. lia. }
  eapply IH, H. apply sys_ok_tail in Hok.
  apply (sys_ok_sent i ring disk rcvd L rel a z W m [Indexed (index_record t0 (o - record_len t0));
    Appended (WriteTask.observer t0) (Ok (append_result t0 (o - record_len t0)))]); [done|].
  repeat constructor; eexists _, _; eauto.
Qed.

Lemma reap_ok i ring disk rcvd L rel a z W reqs rest cqes now i' :
  sys_ok (Sys.mk i ring disk rcvd) L rel a z W -> ring ≡ₚ reqs ++ rest -> Forall2 completes reqs cqes ->
  IO.reap_data_tasks i cqes now = Ret i' ->
  exists W', sys_ok (Sys.mk i' rest disk rcvd) L rel a z W'.
Proof.
  intros Hok Hp Hc H. unfold IO.reap_data_tasks in H.
  assert (Hok1 : sys_ok (Sys.mk i (reqs ++ rest) disk rcvd) L rel a z W).
  { eapply sys_ok_kernel; [exact Hok|]. eapply kern_perm; [exact Hp|apply Hok]. }
  destruct (_ =? 0).
  - injection H as <-. exists W. clear Hc Hp Hok. induction reqs as [|q reqs IH]; [done|]. apply IH.
    eapply sys_ok_kernel; [exact Hok1|]. eapply kern_drop. apply Hok1.
  - apply bind_Ret_inv in H as (st & Hst & H).
    apply (reap_loop_ok _ reqs rest disk rcvd L rel a z W) in Hst as (W' & Hok2); [|done|done]. exists W'.
    apply bind_Ret_inv in H as (n & _ & H). apply bind_Ret_inv in H as ([r w] & Hw%try_reclaim_same & H).
    apply bind_Ret_inv in H as (i2 & Hi2%cache_loop_same & H). apply bind_Ret_inv in H as (i3 & Hi3%complete_reads_same & H).
    assert (Hok3 : sys_ok (Sys.mk i3 rest disk rcvd) L rel a z W').
    { eapply sys_ok_same; [exact Hi3|]. eapply sys_ok_same; [exact Hi2|]. eapply sys_ok_same; [by apply set_wal_same|].
      eapply (sys_ok_core fs a0 c0 E0 (IO.reaped st)); [by split|apply Hok2|done|apply (iv_pending _ _ _ _ _ _ _ _ _ _ Hok2)| |exact Hok2].
      exists []. by rewrite app_nil_r. }
    destruct (_ <? _); [|by injection H as <-]. eapply ack_loop_ok; [|exact H]. by destruct i3.
Qed.
End reaping.
