(* ===== verification/Durability.v ===== *)
(** * Acknowledged appends are durable

    From a store that has been started, through any steps of the system with room for the
    footers, the record of every append that was acknowledged, and of every entry that was
    sent to the index, is on the disk, behind records and footers that are there as well,
    until the files of their segments are given up. *)

From S2P Require Import Prelude Bytes StoreTypes Index Collections AlignedBuf BlockCache Segment Record Wal WriteWindow Recovery WalSegments IoLoop IoFrame Tail SharedBufs Appending Reserve Ring System Submitting Reaping.

Section durability.
Context {S : SkipListApi} {R : RingApi} {P : PercentageApi} {Q : ScoreListApi}
  {B : BytesApi} {BL : BytesLaws B} {C : Crc32Api} {CL : Crc32Laws C} {M : MetaApi}.

(** Nothing is on its way, and the buffers hold what the disk has from [a0] on. *)
Record started (fs a0 : Z) (i : IO.t S R) (disk : Z -> byte) : Prop := {
  st_config : config_ok fs i;
  st_tail : tail_ok fs (IO.wal i) (cursor i);
  st_writer : exists z, writer_ok (IO.buf_writer i) a0 z;
  st_small : Forall (fun b => AlignedBuf.capacity b < 2 ^ 32) (all_bufs (IO.buf_writer i));
  st_contents : contents (IO.buf_writer i) = span disk a0 (cursor i - a0);
  st_window : IO.write_window i = WriteWindow.new (cursor i);
  st_idle : IO.pending_data_tasks i = [] /\ IO.inflight_write_tasks i = [] /\ IO.barrier i = ∅ /\
    IO.blocked i = ∅ /\ IO.resubmit_sqes i = [] /\ IO.handed i = ∅;
  st_events : Forall (fun e => match e with Indexed _ => True | _ => False end) (IO.sent i);
}.

Lemma started_ok fs a0 i disk :
  started fs a0 i disk ->
  exists z, sys_ok fs a0 (cursor i) (write_events i) (Sys.mk i [] disk []) disk [] a0 z [].
Proof.
  intros [Hcfg Htl [z Hw] Hsm Hc Hwin (Hp & Ht & Hba & Hbl & Hre & Hha) Hev]. exists z.
  assert (Hlog : log_ok disk i [] a0 a0 z).
  { split; try done; [apply Hw|]. rewrite Hha. intros o b. by rewrite lookup_empty. }
  split; simpl; rewrite ?Hp, ?Ht, ?Hba, ?Hbl, ?Hre, ?Hha, ?Hwin; try done.
  - constructor.
  - apply BTreeMap.sorted_nil.
  - intros k t Hin. by apply elem_of_nil in Hin.
  - apply inv_new.
  - intros o l Hin. by apply elem_of_nil in Hin.
  - pose proof (log_bounds' _ _ _ _ _ _ Hlog). split; try done.
    + intros o k o' k'. by eapply blocks_apart.
    + intros x [?|(o & l & Hin & _)]; [lia|by apply elem_of_nil in Hin].
    + intros q Hq. by apply elem_of_nil in Hq.
    + intros q r Hperm. by apply Permutation_nil_cons in Hperm.
    + intros e He. by apply elem_of_nil in He.
    + intros e r Hperm. by apply Permutation_nil_cons in Hperm.
    + intros q Hq. by apply elem_of_nil in Hq.
  - exists []. by rewrite app_nil_r.
Qed.

(** A new store has been started. *)
Lemma new_started o control_ring disk :
  let cfg := Options.store o in let fs := Config.segment_size cfg in
  FOOTER_LENGTH <= fs < 2 ^ 32 -> AlignedBuf.is_power_of_two (Config.alignment cfg) = true ->
  Config.alignment cfg < 2 ^ 61 -> (Config.alignment cfg | fs) ->
  started fs 0 (IO.new o control_ring) disk.
Proof.
  intros cfg fs Hfs Hal Hlt Hdv. unfold FOOTER_LENGTH in Hfs. split; try done.
  - split; try done. lia.
  - split; simpl; try done; [split; simpl; try done; [apply SSorted_nil|unfold fs, cfg in *; lia]| |].
    + unfold cursor. simpl. rewrite Z.mod_0_l by lia. unfold FOOTER_LENGTH. lia.
    + left. apply Z.mod_0_l. lia.
  - exists 0. split; simpl; try done. split; [done|apply Z.divide_0_r].
Qed.

(** *** The disk and what was written

    The invariant is kept by a disk on which nothing of the log is ever discarded. *)

Definition with_disk (s : Sys.t S R) (ghost : Z -> byte) : Sys.t S R :=
  Sys.mk (Sys.io s) (Sys.requests s) ghost (Sys.received s).

(** The effect of a write on that disk. *)
Definition ghost_effect (q q' : request) (disk disk' ghost : Z -> byte) (x : Z) : byte :=
  if negb (done q) && done q' && ((off (sqe q) <=? x) && (x <? off (sqe q) + snap q)) then disk' x
  else if decide (disk' x = disk x) then ghost x else disk' x.

Lemma ghost_effect_ok q q' disk disk' ghost :
  snap q <= DataSqe.len (sqe q) -> write_effect q disk disk' q' ->
  write_effect q ghost (ghost_effect q q' disk disk' ghost) q' /\
  forall x, disk x = ghost x -> disk' x = ghost_effect q q' disk disk' ghost x.
Proof.
  intros Hle (Hw & Hs & Hc & Hd & Hout & Hin & Hall). unfold ghost_effect. split; [split_and!; try done|].
  - intros x Hx. destruct ((off (sqe q) <=? x) && (x <? off (sqe q) + snap q)) eqn:E; [bool_to_prop; lia|].
    rewrite andb_false_r. by rewrite decide_True by auto.
  - intros i Hi. destruct (done q) eqn:Eq, (done q') eqn:Eq'; simpl.
    all: try (destruct (decide _); [by left|right; destruct (Hin i Hi); done]).
    rewrite (proj2 (Z.leb_le _ _)), (proj2 (Z.ltb_lt _ _)) by lia. simpl. right. by apply Hall.
  - intros Eq Eq' i Hi. rewrite Eq, Eq'. rewrite (proj2 (Z.leb_le _ _)), (proj2 (Z.ltb_lt _ _)) by lia. simpl. by apply Hall.
  - intros x Hx. destruct (_ && _); [done|]. destruct (decide _); congruence.
Qed.

Lemma kernel_ok fs a0 c0 E0 i ring disk rcvd j q q' disk' ghost L rel a z W :
  sys_ok fs a0 c0 E0 (Sys.mk i ring ghost rcvd) L rel a z W -> ring !! j = Some q -> write_effect q disk disk' q' ->
  let ghost' := ghost_effect q q' disk disk' ghost in
  sys_ok fs a0 c0 E0 (Sys.mk i (<[j := q']> ring) ghost' rcvd) L rel a z W /\ forall x, disk x = ghost x -> disk' x = ghost' x.
Proof.
  intros Hok Hj He ghost'. assert (Hle : snap q <= DataSqe.len (sqe q)).
  { destruct (kn_ring _ _ _ _ _ _ _ _ _ _ (iv_kern _ _ _ _ _ _ _ _ _ _ Hok) q) as [[Hrd _]|(k & Hk & _ & Hl & _)].
    - by eapply list_elem_of_lookup_2.
    - destruct He as [Hw _]. unfold writes in Hw. congruence.
    - destruct Hk as (_ & _ & _ & _ & -> & _). lia. }
  destruct (ghost_effect_ok _ _ _ _ ghost Hle He) as [Hg Hag]. split; [|done].
  eapply sys_ok_kernel; [exact Hok|]. eapply kern_effect; [apply Hok|exact Hj|exact Hg].
Qed.

Lemma files_ok fs a0 c0 E0 i ring ghost ghost' rcvd L rel a z W :
  sys_ok fs a0 c0 E0 (Sys.mk i ring ghost rcvd) L rel a z W -> (forall x, x < cursor i -> ghost' x = ghost x) ->
  sys_ok fs a0 c0 E0 (Sys.mk i ring ghost' rcvd) L rel a z W.
Proof. intros Hok Hg. eapply sys_ok_kernel; [exact Hok|]. eapply kern_beyond; [apply Hok|exact Hg]. Qed.

Lemma build_step_ok fs a0 c0 E0 i ring ghost rcvd now i1 entries i2 L rel a z W :
  sys_ok fs a0 c0 E0 (Sys.mk i ring ghost rcvd) L rel a z W -> room_left fs i -> IO.build_sqe i now = Ret (i1, entries) ->
  IO.submit_data_tasks i1 entries true = Ret (Ok (), i2) ->
  exists L' rel' a' z', sys_ok fs a0 c0 E0 (Sys.mk i2 (ring ++ (submit i1 <$> entries)) ghost rcvd) L' rel' a' z' W.
Proof.
  intros Hok Hroom Hb Hsub. destruct (build_ok _ _ _ _ _ _ _ _ _ _ _ _ _ _ _ _ Hroom Hok Hb) as (L' & rel' & a' & z' & Hok').
  exists L', rel', a', z'. eapply (sys_ok_core fs a0 c0 E0 i1); [| |done| | |exact Hok'].
  all: unfold IO.submit_data_tasks in Hsub; destruct entries; [injection Hsub as <-|apply bind_Ret_inv in Hsub as (n & _ & Hsub); injection Hsub as <-].
  all: try (by split); try apply Hok'; try apply (iv_pending _ _ _ _ _ _ _ _ _ _ Hok').
  all: exists []; by rewrite app_nil_r.
Qed.

Lemma step_ok fs a0 c0 E0 s s' ghost L rel a z W :
  sys_ok fs a0 c0 E0 (with_disk s ghost) L rel a z W -> sys_step fs s s' -> (build_step s s' -> room_left fs (Sys.io s)) ->
  exists ghost' L' rel' a' z' W', sys_ok fs a0 c0 E0 (with_disk s' ghost') L' rel' a' z' W' /\
    forall x, Sys.disk s x = ghost x -> ~ discards s s' x -> Sys.disk s' x = ghost' x.
Proof.
  intros Hok Hs Hroom. destruct Hs as [i ring disk rcvd n chan closed i' rest k su Hch Hr|s s' Hb
    |i ring disk rcvd j q q' disk' Hj He|i ring disk rcvd reqs rest cqes now i' Hp Hc Hr|i ring disk rcvd r w Hw|i ring disk rcvd r w Hw
    |i ring disk rcvd m w Hw|i ring disk rcvd disk' Hf]; simpl in *.
  - exists ghost, L, rel, a, z, W. split; [by eapply receive_ok|by intros].
  - specialize (Hroom Hb). destruct Hb. destruct (build_step_ok _ _ _ _ _ _ _ _ _ _ _ _ _ _ _ _ _ Hok Hroom ltac:(done) ltac:(done)) as (L' & rel' & a' & z' & Hok').
    exists ghost, L', rel', a', z', W. split; [done|by intros].
  - destruct (kernel_ok _ _ _ _ _ _ _ _ _ _ _ _ _ _ _ _ _ _ Hok Hj He) as [Hok' Hag]. eexists _, L, rel, a, z, W. split; [exact Hok'|by auto].
  - destruct (reap_ok _ _ _ _ _ _ _ _ _ _ _ _ _ _ _ _ _ _ Hok Hp Hc Hr) as (W' & Hok'). exists ghost, L, rel, a, z, W'. split; [done|by intros].
  - exists ghost, L, rel, a, z, W. split; [|by intros]. apply sys_ok_wal; [|done]. eapply tail_open; [apply Hok|exact Hw].
  - exists ghost, L, rel, a, z, W. split; [|by intros]. apply sys_ok_wal; [|done]. eapply tail_close; [apply Hok|exact Hw].
  - exists ghost, L, rel, a, z, W. split; [|by intros]. apply sys_ok_wal; [|done]. eapply tail_reap; [apply Hok|exact Hw].
  - exists (fun x => if decide (x < cursor i) then ghost x else disk' x), L, rel, a, z, W. split.
    + eapply files_ok; [exact Hok|]. intros x Hx. by rewrite decide_True.
    + intros x Hx Hnd. destruct (decide _) as [Hlt|]; [|done]. rewrite <- Hx. destruct (decide (disk' x = disk x)) as [|Hne]; [done|].
      exfalso. apply Hnd. split_and!; [done| |done]. intros He. by apply Hf in He.
Qed.

Lemma roomy_run_ok fs a0 i disk lost s :
  started fs a0 i disk -> roomy_run fs (Sys.mk i [] disk []) lost s ->
  exists ghost L rel a z W, sys_ok fs a0 (cursor i) (write_events i) (with_disk s ghost) L rel a z W /\
    forall x, ~ lost x -> Sys.disk s x = ghost x.
Proof.
  intros Hst Hs. destruct (started_ok _ _ _ _ Hst) as [z Hok]. induction Hs as [|lost s s' _ IH Hss Hroom].
  - exists disk, disk, [], a0, z, []. by split.
  - destruct IH as (ghost & L & rel & a & z1 & W & Hok1 & Hag).
    destruct (step_ok _ _ _ _ _ _ _ _ _ _ _ _ Hok1 Hss Hroom) as (ghost' & L' & rel' & a' & z' & W' & Hok' & Hag').
    exists ghost', L', rel', a', z', W'. split; [done|]. intros x Hx. apply Hag'; [apply Hag|]; tauto.
Qed.

(** What is stored was written to the disk. *)
Lemma stored_on_disk fs a0 c0 E0 s L rel a z W t p :
  sys_ok fs a0 c0 E0 s L rel a z W -> stored (Sys.received s) fs c0 L (cursor (Sys.io s)) W t p ->
  framed (Sys.received s) fs (Sys.disk s) c0 p /\
  span (Sys.disk s) p (record_len t) = record_bytes (p - p mod fs) RecordType.Full (WriteTask.buffer t).
Proof.
  intros Hok (_ & _ & Hfr & Hs & Hle & Hw). apply framed_le in Hfr as Hcp. pose proof (remaining_nonneg (WriteTask.buffer t)) as Hnn.
  assert (Hx : forall x, c0 <= x < p + record_len t -> Sys.disk s x = L x).
  { intros x Hx. apply (kn_disk _ _ _ _ _ _ _ _ _ _ (iv_kern _ _ _ _ _ _ _ _ _ _ Hok)). right. by apply Hw. }
  unfold record_len in *. split.
  - eapply framed_ext; [|exact Hfr]. intros x ?. apply Hx. lia.
  - rewrite <- Hs. apply span_ext. intros x ?. apply Hx. lia.
Qed.

Lemma write_events_in (i : IO.t S R) e : e ∈ IO.sent i -> is_write_event e = true -> e ∈ write_events i.
Proof. intros Hin He. apply list_elem_of_In, filter_In. split; [by apply list_elem_of_In|done]. Qed.

Lemma events_from (i : IO.t S R) e : e ∈ write_events i -> e ∈ IO.sent i.
Proof. intros Hin. apply list_elem_of_In, filter_In in Hin as [Hin _]. by apply list_elem_of_In. Qed.

(** The record of an acknowledged append is stored. *)
Lemma acknowledged_stored fs a0 i disk lost s observer res :
  started fs a0 i disk -> roomy_run fs (Sys.mk i [] disk []) lost s -> Appended observer (Ok res) ∈ IO.sent (Sys.io s) ->
  let p := AppendResult.wal_offset res in
  exists log t, t ∈ Sys.received s /\ observer = WriteTask.observer t /\ res = append_result t p /\
    task_ok fs t /\ p mod fs + record_len t + FOOTER_LENGTH <= fs /\ p + record_len t <= cursor (Sys.io s) /\
    framed (Sys.received s) fs log (cursor i) p /\
    span log p (record_len t) = record_bytes (p - p mod fs) RecordType.Full (WriteTask.buffer t) /\
    forall x, ~ lost x -> Sys.disk s x = log x.
Proof.
  intros Hst Hs Hin p. destruct (roomy_run_ok _ _ _ _ _ _ Hst Hs) as (log & L & rel & a & z & W & Hok & Hag).
  destruct (iv_events _ _ _ _ _ _ _ _ _ _ Hok) as (E & HE & Hans). apply write_events_in in Hin; [|done].
  simpl in HE. rewrite HE in Hin. apply elem_of_app in Hin as [Hin|Hin].
  { apply events_from in Hin. by apply (proj1 (Forall_forall _ _) (st_events _ _ _ _ Hst)) in Hin. }
  apply (proj1 (Forall_forall _ _) Hans) in Hin. destruct Hin as (t & q & Ht & -> & -> & Hstd).
  destruct (stored_on_disk _ _ _ _ _ _ _ _ _ _ _ _ Hok Hstd) as [Hfr Hsp]. destruct Hstd as (? & ? & _ & _ & ? & _).
  exists log, t. by split_and!.
Qed.

(** C5: Every acknowledged append is durable.  A store is started and goes through any
    sequence of steps: tasks arrive, entries are built and submitted, writes take effect in
    the kernel in any order and in parts, completions are reaped, segments are opened and
    closed and their files created, recycled and deleted.  Assume that whenever entries are
    built there is room for the footers ([room_left]): if the buffers that are left hold the
    pending records, they hold them with the footers between them as well, and the log is
    below [2 ^ 61].  Writes that arrive fit into a segment ([task_ok]).  Whenever an
    append has been answered with success, it is one that was received, with the observer
    and the fields of that task.  There is a log with its record, with checksum and length
    for the segment it lies in, at the offset of the answer, and with records and footers
    all the way from where the run started up to there; and the disk has the bytes of this
    log at all offsets but those [lost] with the files of segments that were given up. *)
Theorem acknowledged_is_durable fs a0 i disk lost s observer res :
  started fs a0 i disk -> roomy_run fs (Sys.mk i [] disk []) lost s ->
  Appended observer (Ok res) ∈ IO.sent (Sys.io s) ->
  exists log t, t ∈ Sys.received s /\ observer = WriteTask.observer t /\
    let p := AppendResult.wal_offset res in
    res = append_result t p /\ framed (Sys.received s) fs log (cursor i) p /\
    span log p (record_len t) = record_bytes (p - p mod fs) RecordType.Full (WriteTask.buffer t) /\
    forall x, ~ lost x -> Sys.disk s x = log x.
Proof.
  intros Hst Hs Hin. destruct (acknowledged_stored _ _ _ _ _ _ _ _ Hst Hs Hin) as (log & t & ? & ? & ? & _ & _ & _ & ? & ? & ?).
  exists log, t. by split_and!.
Qed.

(** C16: What is sent to the index after the start refers to a record on the disk: the entry
    has the stream, range, base offset and batch size of a write that was received, and the
    place and length of its record, which the disk has there unless the file of its segment
    has been given up.  As for the appends, there is room for the footers whenever entries
    are built ([roomy_run]). *)
Theorem indexed_is_durable fs a0 i disk lost s r :
  started fs a0 i disk -> roomy_run fs (Sys.mk i [] disk []) lost s -> Indexed r ∈ IO.sent (Sys.io s) ->
  Indexed r ∈ IO.sent i \/
  exists t p, t ∈ Sys.received s /\ r = index_record t p /\
    ((forall x, p <= x < p + record_len t -> ~ lost x) ->
     span (Sys.disk s) p (record_len t) = record_bytes (p - p mod fs) RecordType.Full (WriteTask.buffer t)).
Proof.
  intros Hst Hs Hin. destruct (roomy_run_ok _ _ _ _ _ _ Hst Hs) as (log & L & rel & a & z & W & Hok & Hag).
  destruct (iv_events _ _ _ _ _ _ _ _ _ _ Hok) as (E & HE & Hans). apply write_events_in in Hin; [|done].
  simpl in HE. rewrite HE in Hin. apply elem_of_app in Hin as [Hin|Hin]; [left; by apply events_from|right].
  apply (proj1 (Forall_forall _ _) Hans) in Hin. destruct Hin as (t & p & Ht & -> & Hstd). exists t, p. split_and!; [done..|].
  intros Hx. destruct (stored_on_disk _ _ _ _ _ _ _ _ _ _ _ _ Hok Hstd) as [_ <-]. apply span_ext. intros x ?. apply Hag, Hx. lia.
Qed.
End durability.

(** A write takes effect as a whole. *)
Definition full_effect (q : request) (disk : Z -> byte) (x : Z) : byte :=
  if (off (sqe q) <=? x) && (x <? off (sqe q) + snap q)
  then default Byte.x00 (captured q !! Z.to_nat (x - off (sqe q))) else disk x.

Lemma full_effect_ok q disk :
  writes (sqe q) -> done q = false -> snap q <= DataSqe.len (sqe q) ->
  write_effect q disk (full_effect q disk) (mk_request (sqe q) (captured q) true).
Proof.
  intros Hw Hd Hle. unfold write_effect, full_effect. simpl.
  assert (Hin : forall i, 0 <= i < snap q -> captured q !! Z.to_nat i =
    Some (if (off (sqe q) <=? off (sqe q) + i) && (off (sqe q) + i <? off (sqe q) + snap q)
          then default Byte.x00 (captured q !! Z.to_nat (off (sqe q) + i - off (sqe q))) else disk (off (sqe q) + i))).
  { intros i Hi. rewrite (proj2 (Z.leb_le _ _)), (proj2 (Z.ltb_lt _ _)) by lia. simpl.
    replace (off (sqe q) + i - off (sqe q)) with i by lia. unfold snap, Bytes.remaining in Hi.
    destruct (lookup_lt_is_Some_2 (captured q) (Z.to_nat i)) as [b ->]; [lia|done]. }
  split_and!; try done; [|by eauto].
  intros x Hx. destruct (_ && _) eqn:E; [|done]. bool_to_prop. lia.
Qed.

Module DurabilityExample.
Definition cfg := Config.mk 1024 4096 512 false 100000 80 [].
Definition opts := Options.mk cfg 100000 32 1.
Definition i0 : IO.t list_skiplist list_ring := IO.new opts ([] : ring).
Definition task : WriteTask.t := WriteTask.mk 7 0 100 2 RecoveryExample.x None 5.
Definition disk0 (_ : Z) : byte := Byte.x00.

(** A segment is opened and becomes writable, the task is received, its block is written
    and the completion is reaped. *)
Definition or {A} (a : A) (x : outcome A) : A := match x with Ret a => a | Panic => a end.
Definition i1 := IO.set_wal i0 (or (Ok (), IO.wal i0) (Wal.try_open_segment (IO.wal i0))).2.
Definition i2 := IO.set_wal i1 (or (IO.wal i1) (Wal.reap_control_tasks (IO.wal i1) [(0, 3); (0, 0); (0, 0)])).
Definition i3 := match IO.receive_io_tasks i2 32 [TaskWrite task] false with Ret (Some (i, _, _, _)) => i | _ => i2 end.
Definition built := or (i3, []) (IO.build_sqe i3 1).
Definition i4 := (or (Ok (), built.1) (IO.submit_data_tasks built.1 built.2 true)).2.
Definition reqs := submit built.1 <$> built.2.
Definition q : request := default (mk_request (DataSqe.mk OpRead 0 0 0 (Context.read_ctx (Shared 0) 0 0)) [] false) (reqs !! 0%nat).
Definition q' : request := mk_request (sqe q) (captured q) true.
Definition i5 := or i4 (IO.reap_data_tasks i4 [Cqe.mk (DataSqe.ctx (sqe q)) (DataSqe.len (sqe q)) []] 2).
Definition final : Sys.t list_skiplist list_ring := Sys.mk i5 [] (full_effect q disk0) [task].

(** The steps, one by one. *)
Definition s0 : Sys.t list_skiplist list_ring := Sys.mk i0 [] disk0 [].
Definition s1 : Sys.t list_skiplist list_ring := Sys.mk i1 [] disk0 [].
Definition s2 : Sys.t list_skiplist list_ring := Sys.mk i2 [] disk0 [].
Definition s3 : Sys.t list_skiplist list_ring := Sys.mk i3 [] disk0 [task].
Definition s4 : Sys.t list_skiplist list_ring := Sys.mk i4 reqs disk0 [task].
Definition s5 : Sys.t list_skiplist list_ring := Sys.mk i4 [q'] (full_effect q disk0) [task].
Definition lost (x : Z) : Prop :=
  (((((False \/ discards s0 s1 x) \/ discards s1 s2 x) \/ discards s2 s3 x) \/ discards s3 s4 x) \/ discards s4 s5 x) \/ discards s5 final x.

(** There is room all the time. *)
Lemma room s : s ∈ [s0; s1; s2; s3; s4; s5] -> room_left 1024 (Sys.io s).
Proof.
  intros Hs. repeat (apply elem_of_cons in Hs as [->|Hs]); [..|by apply elem_of_nil in Hs].
  all: split; [|vm_compute; reflexivity]; intros left Hl; vm_compute in Hl; injection Hl as <-; vm_compute; congruence.
Qed.

Lemma run : roomy_run 1024 s0 lost final.
Proof.
  apply run_step; [apply run_step; [apply run_step; [apply run_step; [apply run_step; [apply run_step; [apply run_start|..]|..]|..]|..]|..]|..].
  all: try (intros _; apply room; set_solver).
  - eapply (step_open _ i0 [] disk0 [] (Ok ())). vm_compute. reflexivity.
  - eapply (step_control _ i1 [] disk0 [] [(0, 3); (0, 0); (0, 0)]). vm_compute. reflexivity.
  - apply (step_receive _ i2 [] disk0 [] 32 [TaskWrite task] false i3 [] 1 true); [|vm_compute; reflexivity].
    constructor; [right|constructor]. split_and!; vm_compute; congruence.
  - apply step_build, (builds i3 [] disk0 [task] 1 built.1 built.2 i4); vm_compute; reflexivity.
  - apply (step_kernel _ i4 reqs disk0 [task] 0 q q' (full_effect q disk0)); [vm_compute; reflexivity|].
    apply full_effect_ok; vm_compute; congruence.
  - apply (step_reap _ i4 [q'] _ [task] [q'] [] [Cqe.mk (DataSqe.ctx (sqe q)) (DataSqe.len (sqe q)) []] 2 i5);
      [done|repeat constructor|vm_compute; reflexivity].
Qed.

(** Nothing is lost: what changes is in a segment that is established. *)
Lemma nothing_lost x : 0 <= x -> ~ lost x.
Proof.
  intros Hx H. assert (Hc : cursor i0 = 0 /\ cursor i1 = 0 /\ cursor i2 = 0 /\ cursor i3 = 0) by (by vm_compute).
  assert (He : forall y, 0 <= y < 1024 -> established (IO.wal i4) y).
  { intros y Hy. eexists. split; [vm_compute; left|]. split; [exact Hy|done]. }
  assert (Hc4 : cursor i4 < 1024) by (by vm_compute).
  destruct H as [[[[[[[]|H]|H]|H]|H]|H]|H]; destruct H as (H1 & H2 & _).
  1-4: change (x < cursor i0) in H1 || change (x < cursor i1) in H1 || change (x < cursor i2) in H1 || change (x < cursor i3) in H1; lia.
  all: change (x < cursor i4) in H1; apply H2, He; lia.
Qed.
End DurabilityExample.

Lemma acknowledged_is_durable_witness :
  roomy_run 1024 DurabilityExample.s0 DurabilityExample.lost DurabilityExample.final /\
  exists log t, t ∈ [DurabilityExample.task] /\ 5 = WriteTask.observer t /\
    let res := AppendResult.mk 7 0 100 2 0 (Bytes.remaining RecoveryExample.x) in
    let p := AppendResult.wal_offset res in
    res = append_result t p /\ framed [DurabilityExample.task] 1024 log (cursor DurabilityExample.i0) p /\
    span log p (record_len t) = record_bytes (p - p mod 1024) RecordType.Full (WriteTask.buffer t) /\
    forall x, ~ DurabilityExample.lost x -> Sys.disk DurabilityExample.final x = log x.
Proof.
  split; [exact DurabilityExample.run|].
  apply (acknowledged_is_durable 1024 0 DurabilityExample.i0 DurabilityExample.disk0 DurabilityExample.lost DurabilityExample.final).
  - apply (new_started DurabilityExample.opts); [unfold FOOTER_LENGTH; simpl; lia|done|simpl; lia|by exists 2].
  - exact DurabilityExample.run.
  - vm_compute. right. left.
Defined.

Lemma indexed_is_durable_witness :
  Indexed (index_record DurabilityExample.task 0) ∈ IO.sent DurabilityExample.i0 \/
  exists t p, t ∈ [DurabilityExample.task] /\ index_record DurabilityExample.task 0 = index_record t p /\
    ((forall x, p <= x < p + record_len t -> ~ DurabilityExample.lost x) ->
     span (Sys.disk DurabilityExample.final) p (record_len t) = record_bytes (p - p mod 1024) RecordType.Full (WriteTask.buffer t)).
Proof.
  apply (indexed_is_durable 1024 0 DurabilityExample.i0 DurabilityExample.disk0 DurabilityExample.lost DurabilityExample.final).
  - apply (new_started DurabilityExample.opts); [unfold FOOTER_LENGTH; simpl; lia|done|simpl; lia|by exists 2].
  - exact DurabilityExample.run.
  - vm_compute. left.
Defined.
