(* ===== verification/Restart.v ===== *)
(** * Acknowledged appends survive a restart

    The disk that a run leaves behind, at any point of it, is read by the recovery of the
    next one: whatever the bytes behind the end of the log are, the index entry of every
    append that was acknowledged is sent to the index again, in the runs with room for the
    footers of the segments.  In another run an acknowledged append is lost. *)

From S2P Require Import Prelude Bytes StoreTypes Index Collections AlignedBuf BlockCache Segment Record Wal WriteWindow Recovery WalSegments IoLoop IoFrame Tail SharedBufs Appending Reserve Ring System Submitting Reaping Durability.

Section restart.
Context {S : SkipListApi} {R : RingApi} {P : PercentageApi} {Q : ScoreListApi}
  {B : BytesApi} {BL : BytesLaws B} {C : Crc32Api} {CL : Crc32Laws C} {M : MetaApi}.
Import LogSegment.

(** ** The entries that are sent only become more *)

Lemma scan_loop_out fuel file now (s : LogSegment.t S) out p r s' out' :
  Wal.scan_loop fuel file now (s, out) p = Ret (r, (s', out')) -> out `prefix_of` out'.
Proof.
  revert s out p. induction fuel as [|fuel IH]; intros s out p H; [done|]. cbn [Wal.scan_loop] in H.
  destruct (Wal.scan_one s file p now) as [[[step|e] s1]|]; simpl in H; [|by injection H as _ _ <-|done].
  destruct step as [?|?|buf pos]; simpl in H; [by injection H as _ _ <-..|].
  apply bind_Ret_inv in H as (entry & _ & H). apply IH in H. etrans; [|exact H]. by apply prefix_app_r.
Qed.

Lemma scan_record_loop (s : LogSegment.t S) file pos now out r s' out' :
  Wal.scan_record s file pos now out = Ret (r, (s', out')) ->
  exists r1 s1, Wal.scan_loop (Datatypes.S (length file)) file now (s, out) (pos - wal_offset s) = Ret (r1, (s1, out')).
Proof.
  unfold Wal.scan_record. intros H. apply bind_Ret_inv in H as (p & [-> _]%uint_sub_inv & H).
  destruct (Wal.scan_loop _ file now (s, out) (pos - wal_offset s)) as [[[[lf fp]|e] [s1 out1]]|]; [|by injection H as _ _ <-; eauto|done].
  rewrite try_with_Ok in H. apply bind_Ret_inv in H as (x & _ & H).
  destruct (truncate_to s1 (written s1) now) as [[[u|e] s2]|]; simpl in H; [by injection H as _ _ <-; eauto..|done].
Qed.

Lemma recover_loop_out files offset now (l : list (LogSegment.t S)) pos need out r l' out' :
  Wal.recover_loop files offset now l pos need out = Ret (r, (l', out')) -> out `prefix_of` out'.
Proof.
  revert pos need out r l'. induction l as [|s l IH]; intros pos need out r l' H; simpl in H; [by injection H as _ _ <-|].
  assert (Hc : forall s pos need out1,
    ('(r, (l, out)) ← Wal.recover_loop files offset now l pos need out1; Ret (r, (s :: l, out))) = Ret (r, (l', out')) ->
    out1 `prefix_of` out').
  { intros s1 pos1 need1 out1 H1. apply bind_Ret_inv in H1 as ([r1 [l1 out2]] & H1 & H2). injection H2 as _ _ <-. by eapply IH. }
  apply bind_Ret_inv in H as (e & _ & H). destruct (e <=? offset); [exact (Hc _ _ _ _ H)|]. destruct need; [|exact (Hc _ _ _ _ H)].
  apply bind_Ret_inv in H as ([r1 [s1 out1]] & H1 & H). apply scan_record_loop in H1 as (r2 & s2 & H1%scan_loop_out).
  etrans; [exact H1|]. destruct r1 as [[lf p]|e1]; [exact (Hc _ _ _ _ H)|by injection H as _ _ <-].
Qed.

(** The records from [p] on are found, whatever follows. *)
Lemma scan_loop_emits fuel n file (s : LogSegment.t S) out p l q rs now r s' out' :
  seg_ok n file s -> 0 <= n -> n + 6 * (Z.of_nat (length l) + 1) <= 2 ^ 34 -> 0 <= now < 2 ^ 62 -> 0 <= p ->
  records_at file (wal_offset s) p l q -> entries_at (wal_offset s) p l rs ->
  Wal.scan_loop fuel file now (s, out) p = Ret (r, (s', out')) -> out ++ rs `prefix_of` out'.
Proof.
  revert fuel n s out p rs. induction l as [|x l IH]; intros fuel n s out p rs Hs Hn Hn2 Hnow Hp Hrec Hent H.
  { destruct rs; [|done]. rewrite app_nil_r. by eapply scan_loop_out. }
  destruct rs as [|e rs]; [done|]. destruct Hrec as (Hne & Hlt & Hle & Hf & Hrec), Hent as [He Hent].
  pose proof (so_cache _ _ _ Hs) as Hcache. pose proof (co_base _ _ Hcache) as Hbase. destruct (so_size _ _ _ Hs) as (Hsz & Hsz' & _).
  rewrite (so_offset _ _ _ Hs) in Hbase. pose proof (remaining_nonneg x).
  destruct fuel as [|fuel]; [done|]. cbn [Wal.scan_loop] in H.
  destruct (scan_one_record n file s p now RecordType.Full x) as (c1 & H1 & Hc1); try done; try (simpl in Hn2; lia).
  rewrite H1, bind_Ret, try_with_Ok in H. cbn [found] in H.
  rewrite (index_entry_spec (set_cache s c1) p x e), bind_Ret in H by (done || simpl; lia).
  apply (IH fuel (n + 6) (set_cache s c1) (out ++ [e]) _ rs) in H; try done; try lia; [|apply Hc1|simpl in Hn2; lia].
  by rewrite <- (assoc_L (++)) in H.
Qed.

(** ** The log on the disk *)

Section disk.
Context (rcvd : list WriteTask.t) (fs : Z) (disk : Z -> byte).
Hypothesis Hfs : 0 < fs < 2 ^ 32.

(** The file of the segment at [o]. *)
Definition file_of (o : Z) : list byte := span disk o fs.

Lemma file_at_span o a b : 0 <= a <= b -> b <= fs -> file_at (file_of o) a b = span disk (o + a) (b - a).
Proof. intros Ha Hb. unfold file_at, file_of. rewrite span_drop by lia. apply span_take. lia. Qed.

(** The batch in the buffer of a task is the one that the task describes. *)
Definition wire_ok (t : WriteTask.t) : Prop :=
  Payload.parse_append_entry (WriteTask.buffer t) =
    Ret (Ok (Some (AppendEntry.mk (WriteTask.stream_id t) (WriteTask.range t) (Some (WriteTask.offset t)) (WriteTask.len t)),
             Bytes.remaining (WriteTask.buffer t))).

Lemma wire_entry t p : wire_ok t -> entry_at (p - p mod fs) (p mod fs) (WriteTask.buffer t) (index_record t p).
Proof.
  intros Hw. eexists _, _. split; [exact Hw|]. split; [done|]. unfold index_record, record_len. simpl.
  replace (p - p mod fs + p mod fs) with p by lia. by rewrite (Z.add_comm 8).
Qed.

Lemma record_at_file p t l q :
  task_ok fs t -> p mod fs + record_len t + FOOTER_LENGTH <= fs ->
  span disk p (record_len t) = record_bytes (p - p mod fs) RecordType.Full (WriteTask.buffer t) ->
  records_at (file_of (p - p mod fs)) (p - p mod fs) (p mod fs + record_len t) l q ->
  records_at (file_of (p - p mod fs)) (p - p mod fs) (p mod fs) (WriteTask.buffer t :: l) q.
Proof.
  intros (Hne & Hlt & _) Hfit Hs Hl. pose proof (Z.mod_pos_bound p fs ltac:(lia)). pose proof (remaining_nonneg (WriteTask.buffer t)).
  unfold record_len, FOOTER_LENGTH in *. simpl. rewrite <- (Z.add_assoc _ 8).
  split_and!; [done|lia|unfold file_of; rewrite remaining_span; lia| |done].
  rewrite file_at_span by lia. rewrite <- Hs. f_equal; lia.
Qed.

(** The frames of the first segment, and the ones behind its footer. *)
Lemma framed_split pos p :
  Forall wire_ok rcvd -> framed rcvd fs disk pos p ->
  let wo := pos - pos mod fs in
  exists l q rs, records_at (file_of wo) wo (pos mod fs) l (q - wo) /\ entries_at wo (pos mod fs) l rs /\ q - wo < fs /\
    (p = q \/ footer_at (file_of wo) wo (q - wo) /\ framed rcvd fs disk (wo + fs) p).
Proof.
  intros Hw H. induction H as [c|c t e Hin Ht Hf Hs H IH|c e Hf Hm Hs H IH]; intros wo; pose proof (Z.mod_pos_bound c fs ltac:(lia)).
  - exists [], c, []. unfold wo. split_and!; [simpl; lia|done|lia|by left].
  - pose proof (record_len_pos t). assert (Hmod : (c + record_len t) mod fs = c mod fs + record_len t).
    { rewrite (Z.div_mod c fs) at 1 by lia. symmetry. apply Z.mod_unique with (q := c / fs); unfold FOOTER_LENGTH in *; lia. }
    rewrite Hmod in IH. replace (c + record_len t - (c mod fs + record_len t)) with wo in IH by (unfold wo; lia).
    destruct IH as (l & q & rs & Hl & Hrs & Hq & Hd). exists (WriteTask.buffer t :: l), q, (index_record t c :: rs).
    split_and!; [by apply record_at_file| |done|done]. split.
    + apply wire_entry. by apply (proj1 (Forall_forall _ _) Hw).
    + unfold record_len in Hrs. by rewrite <- (Z.add_assoc _ 8).
  - exists [], c, []. unfold wo, FOOTER_LENGTH in *. split_and!; [simpl; lia|done|lia|right].
    replace (c - c mod fs + fs) with (c + (fs - c mod fs)) by lia. split; [|done].
    exists (footer_payload (fs - c mod fs - 24)). assert (Hr : Bytes.remaining (footer_payload (fs - c mod fs - 24)) = fs - c mod fs - 8).
    { rewrite remaining_footer by lia. lia. }
    assert (Hlen : Bytes.remaining (file_of (c - c mod fs)) = fs) by (unfold file_of; apply remaining_span; lia).
    rewrite Hr, Hlen. split_and!; [|lia|lia|].
    + intros Hnil. rewrite Hnil in Hr. unfold Bytes.remaining in Hr. simpl in Hr. lia.
    + rewrite file_at_span by lia. rewrite <- Hs. f_equal; lia.
Qed.

(** The segments from [o] on, as they are opened again. *)
Fixpoint consecutive (o : Z) (l : list (LogSegment.t S)) : Prop :=
  match l with
  | [] => True
  | s :: l => wal_offset s = o /\ seg_ok 0 (file_of o) s /\ size s + 2 * alignment s <= 2 ^ 32 /\ consecutive (o + fs) l
  end.

Lemma records_at_app file wo p l q l' q' :
  records_at file wo p l q -> records_at file wo q l' q' -> records_at file wo p (l ++ l') q'.
Proof.
  revert p. induction l as [|x l IH]; intros p Hl Hl'; simpl in *; [by subst|].
  destruct Hl as (? & ? & ? & ? & Hl). split_and!; try done. by apply IH.
Qed.

Lemma entries_at_app file wo p l q rs l' rs' :
  records_at file wo p l q -> entries_at wo p l rs -> entries_at wo q l' rs' -> entries_at wo p (l ++ l') (rs ++ rs').
Proof.
  revert p rs. induction l as [|x l IH]; intros p rs Hl Hrs Hrs'; destruct rs as [|r rs]; try done; simpl in *; [by subst|].
  destruct Hl as (_ & _ & _ & _ & Hl), Hrs as [? Hrs]. split; [done|]. by apply IH.
Qed.

Lemma scan_bounds_ok (s : LogSegment.t S) file p l q now :
  seg_ok 0 file s -> size s + 2 * alignment s <= 2 ^ 32 -> 0 <= now < 2 ^ 62 -> 0 <= p -> q <= size s ->
  records_at file (wal_offset s) p l q -> scan_bounds 0 now s l.
Proof.
  intros Hs Hal Hnow Hp Hq Hl. apply records_at_le in Hl. destruct (so_size _ _ _ Hs) as (_ & ? & _). unfold scan_bounds. lia.
Qed.

Section finding.
Context (t : WriteTask.t) (p now : Z).
Hypothesis Hwire : Forall wire_ok rcvd.
Hypothesis Ht : wire_ok t /\ task_ok fs t /\ p mod fs + record_len t + FOOTER_LENGTH <= fs.
Hypothesis Hspan : span disk p (record_len t) = record_bytes (p - p mod fs) RecordType.Full (WriteTask.buffer t).
Hypothesis Hnow : 0 <= now < 2 ^ 62.

(** A scan from [pos] finds the record in its segment. *)
Lemma scan_record_finds s pos l rs out r s' out' :
  wal_offset s = pos - pos mod fs -> seg_ok 0 (file_of (wal_offset s)) s -> size s + 2 * alignment s <= 2 ^ 32 ->
  records_at (file_of (wal_offset s)) (wal_offset s) (pos mod fs) l (p - wal_offset s) ->
  entries_at (wal_offset s) (pos mod fs) l rs -> p - wal_offset s < fs -> pos <= p ->
  Wal.scan_record s (file_of (wal_offset s)) pos now out = Ret (r, (s', out')) -> index_record t p ∈ out'.
Proof.
  intros Hwo Hs Hal Hl Hrs Hp Hpos H. destruct Ht as (Hw & Htask & Hfit). pose proof (Z.mod_pos_bound pos fs ltac:(lia)).
  assert (Hwp : wal_offset s = p - p mod fs).
  { rewrite Hwo. pose proof (Z.div_mod pos fs ltac:(lia)). assert (p / fs = pos / fs) as Hd.
    { symmetry. apply Z.div_unique with (r := p - (pos - pos mod fs)); lia. }
    pose proof (Z.div_mod p fs ltac:(lia)). rewrite Hd in *. lia. }
  assert (Hone : records_at (file_of (wal_offset s)) (wal_offset s) (p - wal_offset s) [WriteTask.buffer t] (p mod fs + record_len t)).
  { rewrite Hwp. replace (p - (p - p mod fs)) with (p mod fs) by lia. by apply record_at_file. }
  assert (Hall := records_at_app _ _ _ _ _ _ _ Hl Hone). assert (Hents : entries_at (wal_offset s) (pos mod fs) (l ++ [WriteTask.buffer t]) (rs ++ [index_record t p])).
  { eapply entries_at_app; [exact Hl|exact Hrs|]. split; [|done]. rewrite Hwp. replace (p - (p - p mod fs)) with (p mod fs) by lia.
    by apply wire_entry. }
  assert (Hsz : size s = fs) by (destruct (so_size _ _ _ Hs) as [-> _]; unfold file_of; apply remaining_span; lia).
  destruct (scan_bounds_ok s _ (pos mod fs) _ (p mod fs + record_len t) now Hs Hal Hnow ltac:(lia) ltac:(unfold FOOTER_LENGTH in *; lia) Hall) as (_ & Hb & _).
  apply scan_record_loop in H as (r1 & s1 & H). replace (pos - wal_offset s) with (pos mod fs) in H by lia.
  apply (scan_loop_emits _ 0 _ _ _ _ (l ++ [WriteTask.buffer t]) (p mod fs + record_len t) (rs ++ [index_record t p])) in H; [|done || lia..].
  destruct H as [k ->]. rewrite !elem_of_app. left. right. right. set_solver.
Qed.

Lemma recover_finds live pos offset out r l' out' :
  consecutive (pos - pos mod fs) live -> framed rcvd fs disk pos p ->
  p + record_len t <= pos - pos mod fs + Z.of_nat (length live) * fs -> offset <= pos -> 0 <= pos ->
  Wal.recover_loop file_of offset now live pos true out = Ret (r, (l', out')) -> index_record t p ∈ out'.
Proof.
  revert pos offset out r l'. induction live as [|s live IH]; intros pos offset out r l' Hlv Hfr Hle Ho Hpos H;
    pose proof (framed_le _ _ _ _ _ Hfr); pose proof (record_len_pos t); pose proof (Z.mod_pos_bound pos fs ltac:(lia)); [simpl in Hle; lia|].
  destruct Hlv as (Hwo & Hs & Hal & Hlv). rewrite <- Hwo in Hs. cbn [Wal.recover_loop] in H.
  assert (Hsz : size s = fs) by (destruct (so_size _ _ _ Hs) as [-> _]; unfold file_of; apply remaining_span; lia).
  apply bind_Ret_inv in H as (e & [-> Hbd]%uint_add_inv & H). rewrite (proj2 (Z.leb_gt _ _)) in H by lia. simpl in H.
  destruct (framed_split pos p Hwire Hfr) as (l & q & rs & Hl & Hrs & Hq & Hd). rewrite <- Hwo in Hl, Hrs, Hq, Hd.
  destruct (Z.lt_ge_cases (p - wal_offset s) fs) as [Hin|Hout].
  - destruct Hd as [Hpq|[_ Hfr2%framed_le]]; [|lia]. rewrite <- Hpq in Hl. apply bind_Ret_inv in H as ([r1 [s1 out1]] & Hsc & H).
    eapply scan_record_finds in Hsc; [|done..].
    assert (Hpre : out1 `prefix_of` out').
    { destruct r1 as [[lf ps]|e1]; [|by injection H as _ _ <-]. apply bind_Ret_inv in H as ([r2 [l2 out2]] & Hrc%recover_loop_out & H).
      by injection H as _ _ <-. }
    destruct Hpre as [k ->]. set_solver.
  - destruct Hd as [Hpq|[Hft Hfr2]]; [lia|].
    destruct (scan_record_spec false 0 (file_of (wal_offset s)) s out (pos mod fs) l (q - wal_offset s) rs now) as (n' & c & Hscan & _); try done; try lia.
    { apply (scan_bounds_ok s (file_of (wal_offset s)) (pos mod fs) _ (q - wal_offset s)); done || lia. }
    replace (wal_offset s + pos mod fs) with pos in Hscan by lia. rewrite Hscan in H. simpl in H. rewrite Hsz in H.
    apply bind_Ret_inv in H as ([r2 [l2 out2]] & Hrc & H). injection H as _ _ <-.
    assert (Hmod : (wal_offset s + fs) mod fs = 0).
    { rewrite Hwo. rewrite (Z.div_mod pos fs) at 1 by lia. replace (fs * (pos / fs) + pos mod fs - pos mod fs + fs) with ((pos / fs + 1) * fs) by lia. apply Z_mod_mult. }
    eapply (IH (wal_offset s + fs) offset); [|exact Hfr2| |lia|lia|exact Hrc]; rewrite Hmod; [rewrite Z.sub_0_r, Hwo; exact Hlv|].
    simpl in Hle. lia.
Qed.
End finding.
End disk.

(** The segments that are opened again: the ones before [c0], and all from there up to [e],
    with the bytes of the disk. *)
Definition reopened (fs : Z) (disk : Z -> byte) (c0 e : Z) (w : Wal.t S R) : Prop :=
  exists old live, Wal.segments w = old ++ live /\ Forall (fun s => 0 <= size s /\ seg_end s <= c0) old /\
    consecutive fs disk (c0 - c0 mod fs) live /\ e <= c0 - c0 mod fs + Z.of_nat (length live) * fs.

Lemma recover_from fs disk c0 e w now r w' out :
  0 < fs -> reopened fs disk c0 e w -> 0 <= c0 < 2 ^ 64 -> Wal.recover w (file_of fs disk) c0 now = Ret (r, w', out) ->
  exists live r' l', consecutive fs disk (c0 - c0 mod fs) live /\ e <= c0 - c0 mod fs + Z.of_nat (length live) * fs /\
    Wal.recover_loop (file_of fs disk) c0 now live c0 true [] = Ret (r', (l', out)).
Proof.
  intros Hfs (old & live & Hl & Hold & Hlv & He) Hc H. exists live. unfold Wal.recover in H. rewrite Hl in H.
  assert (Hpos : match old ++ live with s :: _ => if c0 <? wal_offset s then wal_offset s else c0 | [] => c0 end = c0).
  { destruct old as [|s old]; simpl.
    - destruct live as [|s live]; [done|]. destruct Hlv as [-> _]. pose proof (Z.mod_pos_bound c0 fs Hfs). by rewrite (proj2 (Z.ltb_ge _ _)) by lia.
    - apply Forall_cons in Hold as [[? Hs] _]. unfold seg_end in Hs. by rewrite (proj2 (Z.ltb_ge _ _)) by lia. }
  rewrite Hpos, recover_old in H.
  2:{ eapply Forall_impl; [exact Hold|]. intros s [_ ?]. simpl. lia. }
  apply bind_Ret_inv in H as ([r1 [l1 out1]] & H1 & H). apply bind_Ret_inv in H1 as ([r2 [l2 out2]] & H2 & H1).
  injection H1 as -> <- ->. injection H as <- _ <-. by eauto.
Qed.

(** C1: Every acknowledged append survives a crash and a restart.  A store is started and goes
    through any steps, with room for the footers whenever entries are built ([roomy_run]),
    and then only its disk is left, as it is at that moment: writes that are on their way may
    have taken effect in part.  No segment that the run has written to has been given up.
    The segments are opened again and the log is recovered from where that run had started.
    If the batches of the tasks are the ones the tasks describe and recovery does not panic,
    then for every append that was acknowledged recovery has sent to the index the entry with
    its stream, range, base offset and batch size, and with the place and the length of its
    record, however the bytes behind the acknowledged part of the log look. *)
Theorem acknowledged_is_recovered fs a0 i disk lost s observer res w now r w' out :
  started fs a0 i disk -> roomy_run fs (Sys.mk i [] disk []) lost s -> (forall x, cursor i <= x -> ~ lost x) ->
  Appended observer (Ok res) ∈ IO.sent (Sys.io s) -> Forall wire_ok (Sys.received s) ->
  reopened fs (Sys.disk s) (cursor i) (cursor (Sys.io s)) w -> 0 <= now < 2 ^ 62 ->
  Wal.recover w (file_of fs (Sys.disk s)) (cursor i) now = Ret (r, w', out) ->
  exists t, t ∈ Sys.received s /\ observer = WriteTask.observer t /\
    index_record t (AppendResult.wal_offset res) ∈ out.
Proof.
  intros Hst Hs Hkept Hin Hwire Hre Hnow H.
  destruct (acknowledged_stored _ _ _ _ _ _ _ _ Hst Hs Hin) as (log & t & Ht & Ho & _ & Htask & Hfit & Hle & Hfr & Hsp & Hag).
  exists t. split; [done|]. split; [done|]. pose proof (framed_le _ _ _ _ _ Hfr) as Hcp.
  assert (Hd : forall x, cursor i <= x -> Sys.disk s x = log x) by (intros x ?; by apply Hag, Hkept).
  eapply framed_ext in Hfr; [|intros x ?; apply Hd; lia]. rewrite <- (span_ext (Sys.disk s) log) in Hsp by (intros x ?; apply Hd; lia).
  pose proof (co_fs _ _ (st_config _ _ _ _ Hst)) as Hfs.
  pose proof (to_pos _ _ _ (st_tail _ _ _ _ Hst)) as [Hc0 _]. destruct (st_writer _ _ _ _ Hst) as [z0 Hw0].
  pose proof (cursor_bounds _ _ _ _ Hw0). pose proof (wa_bound _ _ _ _ Hw0).
  destruct (recover_from fs _ _ _ _ _ _ _ _ ltac:(lia) Hre ltac:(unfold cursor in *; lia) H) as (live & r' & l' & Hlv & He & Hrc).
  apply (recover_finds (Sys.received s) fs (Sys.disk s) Hfs t _ now) with live (cursor i) (cursor i) [] r' l'; try done; [|lia].
  split; [|done]. by apply (proj1 (Forall_forall _ _) Hwire).
Qed.
End restart.

Module RestartExample.
(** The segments of the store after the run of the example, opened again. *)
Definition w : Wal.t list_skiplist list_ring :=
  Wal.mk ([] : ring) DurabilityExample.cfg ∅ [RecoveryExample.seg 0; RecoveryExample.seg 1024] (WalCache.mk 0 0 80).

Lemma w_reopened : reopened 1024 (Sys.disk DurabilityExample.final) (cursor DurabilityExample.i0)
  (cursor (Sys.io DurabilityExample.final)) w.
Proof.
  exists [], (Wal.segments w). split; [done|]. split; [constructor|]. split; [|by vm_compute].
  split; [done|]. split; [apply RecoveryExample.seg_is_ok; [done|by exists 0|unfold file_of; by rewrite remaining_span]|].
  split; [by vm_compute|]. split; [done|].
  split; [apply RecoveryExample.seg_is_ok; [done|by exists 2|unfold file_of; by rewrite remaining_span]|]. split; [by vm_compute|done].
Qed.
End RestartExample.

Lemma acknowledged_is_recovered_witness :
  exists r w' out, Wal.recover RestartExample.w (file_of 1024 (Sys.disk DurabilityExample.final)) 0 5 = Ret (r, w', out) /\
    exists t, t ∈ [DurabilityExample.task] /\ 5 = WriteTask.observer t /\
      index_record t (AppendResult.wal_offset (append_result DurabilityExample.task 0)) ∈ out.
Proof.
  destruct (Wal.recover RestartExample.w (file_of 1024 (Sys.disk DurabilityExample.final)) 0 5) as [[[r w'] out]|] eqn:E.
  2:{ exfalso. revert E. vm_compute. discriminate. }
  exists r, w', out. split; [done|].
  apply (acknowledged_is_recovered 1024 0 DurabilityExample.i0 DurabilityExample.disk0 DurabilityExample.lost DurabilityExample.final 5
    (append_result DurabilityExample.task 0) RestartExample.w 5 r w' out);
    [|exact DurabilityExample.run|exact DurabilityExample.nothing_lost| | |exact RestartExample.w_reopened|lia|exact E].
  - apply (new_started DurabilityExample.opts); [unfold FOOTER_LENGTH; simpl; lia|done|simpl; lia|by exists 2].
  - vm_compute. right. left.
  - repeat constructor. 
Defined.

(** ** An acknowledged append that is lost *)

Module LostExample.
Import DurabilityExample.

(** Batches of one record; the records of the tasks are 910, 310, 310 and 220 bytes long. *)
Definition wire (base n : Z) : list byte := batch_wire (meta_pack (sample_meta base 1)) (replicate (Z.to_nat n) Byte.x01).
Definition write_of (base n observer : Z) : WriteTask.t := WriteTask.mk 7 0 base 1 (wire base n) None observer.
Definition t1 := write_of 100 700 5.
Definition t2 := write_of 101 100 6.
Definition t3 := write_of 102 100 7.
Definition t4 := write_of 103 10 8.

Definition recv (i : IO.t list_skiplist list_ring) (l : list IoTask) :=
  match IO.receive_io_tasks i 32 l false with Ret (Some (i, _, _, _)) => i | _ => i end.
Definition build (i : IO.t list_skiplist list_ring) (now : Z) := or (i, []) (IO.build_sqe i now).
Definition push (b : IO.t list_skiplist list_ring * list DataSqe.t) := (or (Ok (), b.1) (IO.submit_data_tasks b.1 b.2 true)).2.
Definition open (i : IO.t list_skiplist list_ring) := IO.set_wal i (or (Ok (), IO.wal i) (Wal.try_open_segment (IO.wal i))).2.
Definition cqe_of (q : request) : Cqe.t := Cqe.mk (DataSqe.ctx (sqe q)) (DataSqe.len (sqe q)) [].
Definition reap (i : IO.t list_skiplist list_ring) (l : list request) (now : Z) := or i (IO.reap_data_tasks i (cqe_of <$> l) now).
Definition finish (q : request) : request := mk_request (sqe q) (captured q) true.
Definition nth_of (l : list request) (n : nat) : request := default q (l !! n).

(** Two writes arrive before a segment is open, and buffers are reserved for them, up to
    1536. *)
Definition j1 := recv i0 [TaskWrite t1; TaskWrite t2].
Definition b2 := build j1 1.
Definition j2 := push b2.
(** A third write arrives; the records of the three have 1530 bytes. *)
Definition j3 := recv j2 [TaskWrite t3].
Definition j4 := open (open j3).
Definition opened : list (Z * Z) := [(0, 3); (0, 0); (0, 0); (1024, 4); (1024, 0); (1024, 0)].
Definition j5 := IO.set_wal j4 (or (IO.wal j4) (Wal.reap_control_tasks (IO.wal j4) opened)).
Definition b6 := build j5 2.
Definition j6 := push b6.
Definition reqs6 := submit b6.1 <$> b6.2.
Definition disk6 := full_effect (nth_of reqs6 1) (full_effect (nth_of reqs6 0) disk0).
Definition j7 := reap j6 (finish <$> reqs6) 3.
(** The third write is gone; the fourth arrives. *)
Definition j8 := recv j7 [TaskWrite t4].
Definition b9 := build j8 4.
Definition j9 := push b9.
Definition reqs9 := submit b9.1 <$> b9.2.
Definition disk9 := full_effect (nth_of reqs9 0) disk6.
Definition j10 := reap j9 (finish <$> reqs9) 5.
Definition final : Sys.t list_skiplist list_ring := Sys.mk j10 [] disk9 [t1; t2; t3; t4].

Lemma complete_all l : Forall2 completes (finish <$> l) (cqe_of <$> (finish <$> l)).
Proof. induction l as [|a l IH]; simpl; constructor; done. Qed.

Lemma to_build : rtc (sys_step 1024) (Sys.mk i0 [] disk0 []) (Sys.mk j5 [] disk0 [t1; t2; t3]).
Proof.
  eapply rtc_l; [eapply (step_receive _ i0 [] disk0 [] 32 [TaskWrite t1; TaskWrite t2] false j1); [|vm_compute; reflexivity]|].
  { by repeat (constructor; [right; split_and!; vm_compute; congruence|]). }
  eapply rtc_l; [apply step_build, (builds j1 [] disk0 [t1; t2] 1 b2.1 b2.2 j2); vm_compute; reflexivity|].
  eapply rtc_l; [eapply (step_receive _ j2 _ disk0 [t1; t2] 32 [TaskWrite t3] false j3); [|vm_compute; reflexivity]|].
  { by repeat (constructor; [right; split_and!; vm_compute; congruence|]). }
  do 2 (eapply rtc_l; [eapply step_open; vm_compute; reflexivity|]).
  eapply rtc_l; [eapply (step_control _ j4 _ disk0 _ opened); vm_compute; reflexivity|]. apply rtc_refl.
Qed.

Lemma lost_run : rtc (sys_step 1024) (Sys.mk i0 [] disk0 []) final.
Proof.
  etrans; [exact to_build|].
  eapply rtc_l; [apply step_build, (builds j5 [] disk0 [t1; t2; t3] 2 b6.1 b6.2 j6); vm_compute; reflexivity|].
  eapply rtc_l; [apply (step_kernel _ j6 reqs6 disk0 _ 0 (nth_of reqs6 0) (finish (nth_of reqs6 0)) (full_effect (nth_of reqs6 0) disk0)); [vm_compute; reflexivity|]|].
  { apply full_effect_ok; vm_compute; congruence. }
  eapply rtc_l; [apply (step_kernel _ j6 _ (full_effect (nth_of reqs6 0) disk0) _ 1 (nth_of reqs6 1) (finish (nth_of reqs6 1)) disk6); [vm_compute; reflexivity|]|].
  { apply full_effect_ok; vm_compute; congruence. }
  eapply rtc_l; [apply (step_reap _ j6 _ disk6 _ (finish <$> reqs6) [] (cqe_of <$> (finish <$> reqs6)) 3 j7); [|apply complete_all|vm_compute; reflexivity]|].
  { rewrite app_nil_r. by vm_compute. }
  eapply rtc_l; [eapply (step_receive _ j7 [] disk6 [t1; t2; t3] 32 [TaskWrite t4] false j8); [|vm_compute; reflexivity]|].
  { by repeat (constructor; [right; split_and!; vm_compute; congruence|]). }
  eapply rtc_l; [apply step_build, (builds j8 [] disk6 [t1; t2; t3; t4] 4 b9.1 b9.2 j9); vm_compute; reflexivity|].
  eapply rtc_l; [apply (step_kernel _ j9 reqs9 disk6 _ 0 (nth_of reqs9 0) (finish (nth_of reqs9 0)) disk9); [vm_compute; reflexivity|]|].
  { apply full_effect_ok; vm_compute; congruence. }
  apply rtc_once. apply (step_reap _ j9 _ disk9 _ (finish <$> reqs9) [] (cqe_of <$> (finish <$> reqs9)) 5 j10); [|apply complete_all|vm_compute; reflexivity].
  rewrite app_nil_r. by vm_compute.
Qed.
(** What recovery makes of the disk. *)
Definition recovered := or (Ok 0, RestartExample.w, []) (Wal.recover RestartExample.w (file_of 1024 disk9) 0 6).

Lemma recovers : Wal.recover RestartExample.w (file_of 1024 disk9) 0 6 = Ret (Ok 1334, recovered.1.2, recovered.2).
Proof. by vm_compute. Qed.

Lemma final_reopened : reopened 1024 disk9 0 (cursor j10) RestartExample.w.
Proof.
  exists [], (Wal.segments RestartExample.w). split; [done|]. split; [constructor|]. split; [|by vm_compute].
  split; [done|]. split; [apply RecoveryExample.seg_is_ok; [done|by exists 0|unfold file_of; by rewrite remaining_span]|].
  split; [by vm_compute|]. split; [done|].
  split; [apply RecoveryExample.seg_is_ok; [done|by exists 2|unfold file_of; by rewrite remaining_span]|]. split; [by vm_compute|done].
Qed.

Lemma final_acknowledges : Appended 8 (Ok (append_result t4 1334)) ∈ IO.sent j10.
Proof. vm_compute. do 5 right. left. Qed.

Lemma final_wire : Forall wire_ok [t1; t2; t3; t4].
Proof. repeat (constructor; [by vm_compute|]). constructor. Qed.

Lemma recovered_offsets : (fun r => RecordIndex.offset (IndexRecord.index r)) <$> recovered.2 = [100; 101].
Proof. by vm_compute. Qed.

Lemma final_disk : span disk9 1334 (record_len t4) <> record_bytes 1024 RecordType.Full (WriteTask.buffer t4).
Proof. vm_compute. discriminate. Qed.
End LostExample.

(** C35: Without the room for the footers an acknowledged append can be lost.  In a store with
    segments of 1024 bytes two writes wait for the first segment to be opened; their buffers
    reach up to 1536.  A third write arrives, and with it the records have 1530 bytes, so
    that no more is reserved; but the footer of the first segment comes between them, and
    the third record fails after a part of it has been put into the buffers.  A fourth
    write is then acknowledged with the offset 1334, where the disk has the beginning of the
    third record.  When the store is started again recovery ends at 1334, with success, and
    sends no entry of the fourth write to the index. *)
Theorem acknowledged_append_lost :
  exists (s : Sys.t list_skiplist list_ring) t p (w w' : Wal.t list_skiplist list_ring) out,
    rtc (sys_step 1024) (Sys.mk DurabilityExample.i0 [] DurabilityExample.disk0 []) s /\
    Forall wire_ok (Sys.received s) /\ t ∈ Sys.received s /\
    Appended (WriteTask.observer t) (Ok (append_result t p)) ∈ IO.sent (Sys.io s) /\
    span (Sys.disk s) p (record_len t) <> record_bytes (p - p mod 1024) RecordType.Full (WriteTask.buffer t) /\
    reopened 1024 (Sys.disk s) 0 (cursor (Sys.io s)) w /\
    Wal.recover w (file_of 1024 (Sys.disk s)) 0 6 = Ret (Ok p, w', out) /\
    forall r, r ∈ out -> RecordIndex.offset (IndexRecord.index r) <> WriteTask.offset t.
Proof.
  exists LostExample.final, LostExample.t4, 1334, RestartExample.w, LostExample.recovered.1.2, LostExample.recovered.2.
  split; [exact LostExample.lost_run|]. split; [exact LostExample.final_wire|].
  split; [by do 3 apply list_elem_of_further; apply list_elem_of_here|].
  split; [exact LostExample.final_acknowledges|]. split; [exact LostExample.final_disk|]. split; [exact LostExample.final_reopened|].
  split; [exact LostExample.recovers|]. intros r Hr.
  apply (list_elem_of_fmap_2 (fun r => RecordIndex.offset (IndexRecord.index r))) in Hr. rewrite LostExample.recovered_offsets in Hr.
  intros He. rewrite He in Hr. repeat (apply elem_of_cons in Hr as [Hr|Hr]; [discriminate|]). by apply elem_of_nil in Hr.
Qed.
