(* ===== verification/TaskLoop.v ===== *)
(** * The loop over the pending tasks

    The loop of [build_sqe] over the pending tasks ends after as many rounds as there are
    tasks, if the segments of the tasks that read are open; a read from a segment whose file
    has been closed keeps it going forever.  And a write near the end of a segment can get
    lost. *)

From S2P Require Import Prelude Bytes StoreTypes Index Collections AlignedBuf BlockCache Segment Record Wal WriteWindow Recovery WalSegments IoLoop IoFrame Tail SharedBufs Appending Reserve Ring System Submitting Reaping Durability.

Section tasks.
Context {S : SkipListApi} {R : RingApi} {P : PercentageApi} {Q : ScoreListApi}
  {B : BytesApi} {C : Crc32Api} {M : MetaApi}.
Import LogSegment.

(** C37: A read from a segment whose file has been closed is put back to the front of the
    queue and taken again, without any change of the state: the loop never ends, whatever
    the number of rounds ([None] is the loop that has not ended yet). *)
Theorem read_of_closed_segment_spins (st : IO.building S R) task rest now n s :
  IO.pending_data_tasks (IO.io st) = TaskRead task :: rest ->
  Wal.segment_file_of (IO.wal (IO.io st)) (ReadTask.wal_offset task) = Ret (Some (n, s)) -> sd s = None ->
  IO.task_step st now = Ret (IO.Continue st) /\ forall fuel, IO.task_loop fuel st now = Ret None.
Proof.
  intros Hp Hf Hs. assert (Hstep : IO.task_step st now = Ret (IO.Continue st)).
  { unfold IO.task_step, IO.read_step. rewrite Hp. simpl. rewrite Hf. simpl. rewrite Hs.
    destruct st as [i ? ? ? ?]. unfold IO.with_io, IO.push_front. simpl in *. rewrite <- Hp. by destruct i. }
  split; [done|]. intros fuel. induction fuel as [|fuel IH]; [done|]. simpl. by rewrite Hstep.
Qed.

(** ** Termination *)

(** The files of the segments are the same. *)
Definition same_file (s s' : LogSegment.t S) : Prop := same_place s s' /\ sd s' = sd s.

#[local] Instance same_file_equivalence : Equivalence same_file.
Proof. split; unfold same_file, same_place; repeat intros ?; intuition congruence. Qed.

Definition same_files (i i' : IO.t S R) : Prop :=
  Forall2 same_file (Wal.segments (IO.wal i)) (Wal.segments (IO.wal i')).

Lemma same_files_trans i1 i2 i3 : same_files i1 i2 -> same_files i2 i3 -> same_files i1 i3.
Proof. intros H1 H2. unfold same_files in *. by etrans. Qed.

Lemma same_writes_files i i' : same_writes i i' -> same_files i i'.
Proof.
  intros [_ (_ & Hl & _) _ _ _ _ _ _ _ _ _]. eapply Forall2_impl; [exact Hl|]. intros a b (? & ? & _ & _ & ?). by split.
Qed.

Lemma find_last_same l l' offset :
  Forall2 same_file l l' ->
  match Wal.find_last l offset, Wal.find_last l' offset with
  | Ret (Some (n, s)), Ret (Some (n', s')) => n' = n /\ sd s' = sd s
  | Ret None, Ret None => True
  | Panic, Panic => True
  | _, _ => False
  end.
Proof.
  induction 1 as [|s s' l l' [[Ho Hz] Hs] _ IH]; simpl; [done|].
  destruct (Wal.find_last l offset) as [[[n a]|]|], (Wal.find_last l' offset) as [[[n' a']|]|]; simpl; try done.
  - destruct IH as [-> ?]. done.
  - rewrite Ho, Hz. destruct (_ <=? _); [|done]. destruct (u64_add _ _); simpl; [|done]. by destruct (_ <? _).
Qed.

Lemma append_footer_file s w r s' w' : append_footer s w = Ret (r, s', w') -> same_file s s'.
Proof.
  unfold append_footer. intros H. do 6 apply bind_Ret_inv in H as (? & _ & H). apply bind_Ret_inv in H as ([r1 w1] & _ & H).
  destruct r1; [|by injection H as _ <- _]. apply bind_Ret_inv in H as (? & _ & H). by injection H as _ <- _.
Qed.

Lemma append_record_file s w d r s' w' : append_record s w d = Ret (r, s', w') -> same_file s s'.
Proof.
  unfold append_record. intros H. apply bind_Ret_inv in H as ([r1 w1] & _ & H).
  destruct r1; [|by injection H as _ <- _]. do 2 apply bind_Ret_inv in H as (? & _ & H). by injection H as _ <- _.
Qed.

Lemma update_files i off n s s' w i' :
  Wal.segment_file_of (IO.wal i) off = Ret (Some (n, s)) -> same_file s s' ->
  IO.refresh_cache (IO.set_writer (IO.update_segment i n s') w) = Ret i' ->
  same_files i i' /\ IO.pending_data_tasks i' = IO.pending_data_tasks i.
Proof.
  intros Hf%find_last_lookup Hs H. apply refresh_pending in H as Hp. split; [|done].
  apply refresh_cache_same, same_writes_files in H. eapply same_files_trans; [|exact H]. unfold same_files. simpl.
  clear H Hp. revert n Hf. induction (Wal.segments (IO.wal i)) as [|a l IH]; intros [|n] Hf; simplify_eq/=; constructor; eauto; done.
Qed.

Lemma write_loop_pops fuel st task st' :
  IO.write_loop fuel st task = Ret (Some (IO.Continue st')) ->
  same_files (IO.io st) (IO.io st') /\ IO.pending_data_tasks (IO.io st') = IO.pending_data_tasks (IO.io st).
Proof.
  revert st. induction fuel as [|fuel IH]; intros st H; simpl in H; [done|].
  apply bind_Ret_inv in H as (free & _ & H). destruct (free <? 0); [done|].
  apply bind_Ret_inv in H as ([[n s]|] & Hf & H); [|done]. destruct (negb (writable s)); [done|]. destruct (sd s) eqn:Hsd; [|done].
  apply bind_Ret_inv in H as (hold & _ & H). destruct hold; simpl in H.
  - apply bind_Ret_inv in H as ([[r1 s1] w1] & Ha%append_record_file & H). apply bind_Ret_inv in H as (i1 & Hr & H).
    eapply update_files in Hr as [Hfl Hp]; [|exact Hf|done]. destruct r1; [|by injection H as <-].
    apply bind_Ret_inv in H as (wr & _ & H). by injection H as <-.
  - apply bind_Ret_inv in H as ([[r1 s1] w1] & Ha%append_footer_file & H). apply bind_Ret_inv in H as (i1 & Hr & H).
    eapply update_files in Hr as [Hfl Hp]; [|exact Hf|done]. apply IH in H as [Hfl' Hp']. simpl in *.
    split; [by eapply same_files_trans|congruence].
Qed.

Lemma write_step_pops st task st' :
  IO.write_step st task = Ret (IO.Continue st') ->
  same_files (IO.io st) (IO.io st') /\ IO.pending_data_tasks (IO.io st') = IO.pending_data_tasks (IO.io st).
Proof.
  unfold IO.write_step. intros H. apply bind_Ret_inv in H as ([r|] & H & Hr); [|done]. injection Hr as ->. by apply write_loop_pops in H.
Qed.

(** The segments of the pending reads have their files open. *)
Definition reads_open (i : IO.t S R) : Prop :=
  Forall (fun task => match task with
    | TaskRead task => match Wal.segment_file_of (IO.wal i) (ReadTask.wal_offset task) with
                       | Ret (Some (_, s)) => sd s <> None
                       | _ => True
                       end
    | TaskWrite _ => True
    end) (IO.pending_data_tasks i).

Lemma read_step_pops st task now st' n s :
  Wal.segment_file_of (IO.wal (IO.io st)) (ReadTask.wal_offset task) = Ret (Some (n, s)) -> sd s <> None ->
  IO.read_step st task now = Ret (IO.Continue st') -> IO.pending_data_tasks (IO.io st') = IO.pending_data_tasks (IO.io st).
Proof.
  intros Hf Hs H. unfold IO.read_step in H. rewrite Hf in H. simpl in H. destruct (sd s); [|done].
  apply bind_Ret_inv in H as (range & _ & H). apply bind_Ret_inv in H as ([res c1] & _ & H).
  destruct res as [[bufs|]|entries]; [|by injection H as <-|].
  - apply bind_Ret_inv in H as (io1 & Hc & H). injection H as <-. unfold IO.complete_read_task in Hc.
    apply bind_Ret_inv in Hc as (l & _ & Hc). by injection Hc as <-.
  - apply bind_Ret_inv in H as (m & _ & H). apply bind_Ret_inv in H as (free & _ & H). destruct (0 <=? free); [by injection H as <-|done].
Qed.

Lemma read_miss_pops st task now st' :
  Wal.segment_file_of (IO.wal (IO.io st)) (ReadTask.wal_offset task) = Ret None ->
  IO.read_step st task now = Ret (IO.Continue st') -> IO.pending_data_tasks (IO.io st') = IO.pending_data_tasks (IO.io st).
Proof. intros Hf H. unfold IO.read_step in H. rewrite Hf in H. by injection H as <-. Qed.

Lemma reads_open_same i i' rest :
  same_files i i' -> reads_open (IO.set_pending i rest) -> IO.pending_data_tasks i' = rest -> reads_open i'.
Proof.
  intros Hs Ho Hp. unfold reads_open in *. rewrite Hp. simpl in Ho. eapply Forall_impl; [exact Ho|].
  intros [task|task]; [|done]. simpl. unfold Wal.segment_file_of. pose proof (find_last_same _ _ (ReadTask.wal_offset task) Hs) as Hf.
  destruct (Wal.find_last (Wal.segments (IO.wal i)) _) as [[[n s]|]|], (Wal.find_last (Wal.segments (IO.wal i')) _) as [[[n' s']|]|]; try done.
  destruct Hf as [_ ->]. done.
Qed.

Lemma task_step_pops st now st' :
  reads_open (IO.io st) -> IO.task_step st now = Ret (IO.Continue st') ->
  reads_open (IO.io st') /\ (length (IO.pending_data_tasks (IO.io st')) < length (IO.pending_data_tasks (IO.io st)))%nat.
Proof.
  intros Ho H. unfold IO.task_step in H. destruct (IO.pending_data_tasks (IO.io st)) as [|task rest] eqn:Hp; [done|].
  unfold reads_open in Ho. rewrite Hp in Ho. apply Forall_cons in Ho as [Ht Ho].
  assert (Hfin : same_files (IO.io st) (IO.io st') -> IO.pending_data_tasks (IO.io st') = rest ->
    reads_open (IO.io st') /\ (length (IO.pending_data_tasks (IO.io st')) < length (task :: rest))%nat).
  { intros Hs Hr. split; [by apply (reads_open_same (IO.io st) _ rest)|]. rewrite Hr. simpl. lia. }
  destruct task as [task|task].
  - pose proof (read_step_same _ _ _ _ H) as Hs%same_writes_files. apply Hfin; [exact Hs|].
    destruct (Wal.segment_file_of (IO.wal (IO.io st)) (ReadTask.wal_offset task)) as [[[n s]|]|] eqn:Hf.
    + by apply (read_step_pops _ _ _ _ n s) in H.
    + by apply read_miss_pops in H.
    + unfold IO.read_step in H. simpl in H. by rewrite Hf in H.
  - apply write_step_pops in H as [Hs Hr]. by apply Hfin.
Qed.

(** The loop has ended. *)
Definition ended {A} (x : outcome (option A)) : Prop := x <> Ret None.

Lemma task_loop_ends fuel k st now :
  reads_open (IO.io st) -> (length (IO.pending_data_tasks (IO.io st)) < fuel)%nat ->
  ended (IO.task_loop fuel st now) /\ IO.task_loop (fuel + k) st now = IO.task_loop fuel st now.
Proof.
  unfold ended. revert st. induction fuel as [|fuel IH]; intros st Ho Hf; [lia|]. simpl.
  destruct (IO.task_step st now) as [[st'|st']|] eqn:E; simpl; [|done..].
  apply task_step_pops in E as [Ho' Hl]; [|done]. apply IH; [done|lia].
Qed.

Lemma write_loop_ends fuel k (st : IO.building S R) task :
  let n := Bytes.remaining (WriteTask.buffer task) in
  0 < n -> (Z.to_nat (IO.free_bytes st / n) + 2 <= fuel)%nat ->
  ended (IO.write_loop fuel st task) /\ IO.write_loop (fuel + k) st task = IO.write_loop fuel st task.
Proof.
  intros n. unfold ended. revert st. induction fuel as [|fuel IH]; intros st Hn Hf; [lia|]. cbn [IO.write_loop Nat.add]. fold n.
  destruct (sint_sub 64 (IO.free_bytes st) n) as [free|] eqn:Hfree; simpl; [|done]. destruct (Z.ltb_spec free 0); [done|].
  destruct (Wal.segment_file_of _ _) as [[[j s]|]|]; simpl; [|done..]. destruct (negb (writable s)); [done|].
  destruct (sd s); [|done]. destruct (can_hold s n) as [[|]|]; simpl; [| |done].
  { destruct (append_record s _ _) as [[[r1 s1] w1]|]; simpl; [|done]. destruct (IO.refresh_cache _) as [i1|]; simpl; [|done].
    destruct r1; [|done]. by destruct (uint_sub _ _). }
  destruct (append_footer s _) as [[[r1 s1] w1]|]; simpl; [|done]. destruct (IO.refresh_cache _) as [i1|]; simpl; [|done].
  apply sint_sub_inv in Hfree as [-> _]. apply IH; [done|]. simpl. fold n.
  assert (Hd : (IO.free_bytes st - n) / n = IO.free_bytes st / n - 1)
    by (rewrite <- (Z.mul_1_l n) at 1; rewrite <- Z.add_opp_r, <- Z.mul_opp_l, Z.div_add by lia; lia).
  rewrite Hd. assert (1 <= IO.free_bytes st / n) by (apply Z.div_le_lower_bound; lia). lia.
Qed.

(** C33: The loop over the pending tasks terminates.  When the segments of the tasks that read
    have their files open, the loop has ended ([ended]: it has not run out of rounds) after
    as many rounds as there are pending tasks and one more, and more rounds change nothing.
    The loop of a write that is not empty has ended after no more rounds than its payload
    goes into the free space, and two, so that the step of a write is the result of its
    loop. *)
Theorem task_loop_terminates st now :
  reads_open (IO.io st) ->
  (forall k, let n := Datatypes.S (length (IO.pending_data_tasks (IO.io st))) in
     ended (IO.task_loop n st now) /\ IO.task_loop (n + k) st now = IO.task_loop n st now) /\
  forall task k, WriteTask.buffer task <> [] ->
    let n := (Z.to_nat (IO.free_bytes st / Bytes.remaining (WriteTask.buffer task)) + 2)%nat in
    ended (IO.write_loop n st task) /\ IO.write_loop (n + k) st task = IO.write_loop n st task /\
    IO.write_loop n st task = (Some <$> IO.write_step st task).
Proof.
  intros Ho. split; [intros k n; apply task_loop_ends; [done|lia]|]. intros task k Hne n.
  destruct (write_loop_ends n k st task) as [He Hk]; [destruct (WriteTask.buffer task); [done|unfold Bytes.remaining; simpl; lia]|lia|].
  split; [done|]. split; [done|]. unfold IO.write_step. fold n. unfold ended in He.
  by destruct (IO.write_loop n st task) as [[]|].
Qed.
End tasks.

(** ** Examples *)

Module TaskExample.
(** A store with a segment that is open, and one whose file has been closed. *)
Definition seg (o : Z) (fd : option Z) (st : Status.t) : LogSegment.t list_skiplist :=
  LogSegment.mk o 1024 0 (BlockCache.new 512 o) st [] fd.
Definition wal : Wal.t list_skiplist list_ring :=
  Wal.mk ([] : ring) DurabilityExample.cfg ∅ [seg 0 None Status.UnlinkAt; seg 1024 (Some 3) Status.ReadWrite] (WalCache.mk 100000 0 80).
Definition read (o : Z) : ReadTask.t := ReadTask.mk 7 0 0 o 100 9.
Definition building (l : list IoTask) : IO.building list_skiplist list_ring :=
  IO.mk_building (IO.set_pending (IO.set_wal DurabilityExample.i0 wal) l) 4096 false ∅ ∅.

(** The steps of a store that has taken a record of 924 bytes and then receives one of 90. *)
Definition big : WriteTask.t := WriteTask.mk 7 0 0 1 (replicate 916 Byte.x01) None 5.
Definition small : WriteTask.t := WriteTask.mk 7 0 1 1 (replicate 82 Byte.x02) None 6.
Definition i1 := IO.set_wal DurabilityExample.i1 (DurabilityExample.or (Ok (), IO.wal DurabilityExample.i1) (Wal.try_open_segment (IO.wal DurabilityExample.i1))).2.
Definition opened : list (Z * Z) := [(0, 3); (0, 0); (0, 0); (1024, 4); (1024, 0); (1024, 0)].
Definition i2 := IO.set_wal i1 (DurabilityExample.or (IO.wal i1) (Wal.reap_control_tasks (IO.wal i1) opened)).
Definition i3 := match IO.receive_io_tasks i2 32 [TaskWrite big] false with Ret (Some (i, _, _, _)) => i | _ => i2 end.
Definition built := DurabilityExample.or (i3, []) (IO.build_sqe i3 1).
Definition i4 := (DurabilityExample.or (Ok (), built.1) (IO.submit_data_tasks built.1 built.2 true)).2.
Definition i5 := match IO.receive_io_tasks i4 32 [TaskWrite small] false with Ret (Some (i, _, _, _)) => i | _ => i4 end.
Definition i6 := (DurabilityExample.or (i5, []) (IO.build_sqe i5 2)).1.

Lemma task_run : rtc (sys_step 1024) (Sys.mk DurabilityExample.i0 [] DurabilityExample.disk0 [])
  (Sys.mk i5 (submit built.1 <$> built.2) DurabilityExample.disk0 [big; small]).
Proof.
  do 2 (eapply rtc_l; [eapply step_open; vm_compute; reflexivity|]).
  eapply rtc_l; [apply (step_control _ i1 [] DurabilityExample.disk0 [] opened (IO.wal i2)); vm_compute; reflexivity|].
  eapply rtc_l; [apply (step_receive _ _ [] DurabilityExample.disk0 [] 32 [TaskWrite big] false i3 [] 1 true); [|vm_compute; reflexivity]|].
  { constructor; [right|constructor]. split_and!; vm_compute; congruence. }
  eapply rtc_l; [apply step_build, (builds i3 [] DurabilityExample.disk0 [big] 1 built.1 built.2 i4); vm_compute; reflexivity|].
  apply rtc_once. apply (step_receive _ i4 _ DurabilityExample.disk0 [big] 32 [TaskWrite small] false i5 [] 1 false); [|vm_compute; reflexivity].
  constructor; [right|constructor]. split_and!; vm_compute; congruence.
Qed.
End TaskExample.

(** C36: An append can get lost.  A store with segments of 1024 bytes has taken a record of 924
    bytes; then a write of 82 bytes is received, which is valid.  The room that is left is
    enough for its record but not for the footer that comes before it, the next round of the
    loop closes the segment, and the write is gone: it is neither pending nor in flight, and
    it has not been answered. *)
Theorem append_lost_at_segment_end :
  exists (i i' : IO.t list_skiplist list_ring) ring disk (t : WriteTask.t) entries,
    rtc (sys_step 1024) (Sys.mk DurabilityExample.i0 [] DurabilityExample.disk0 []) (Sys.mk i ring disk [TaskExample.big; t]) /\
    task_ok 1024 t /\ IO.pending_data_tasks i = [TaskWrite t] /\ IO.build_sqe i 2 = Ret (i', entries) /\
    IO.pending_data_tasks i' = [] /\ (IO.inflight_write_tasks i').*2 = [WriteTask.set_written_len TaskExample.big 924] /\
    IO.sent i' = [].
Proof.
  exists TaskExample.i5, TaskExample.i6. eexists _, _, TaskExample.small, _. split; [exact TaskExample.task_run|].
  split; [split_and!; vm_compute; congruence|]. split; [vm_compute; reflexivity|]. split; [vm_compute; reflexivity|].
  split; [vm_compute; reflexivity|]. split; vm_compute; reflexivity.
Qed.

Lemma read_of_closed_segment_spins_witness :
  let st := TaskExample.building [TaskRead (TaskExample.read 16)] in
  IO.task_step st 0 = Ret (IO.Continue st) /\ forall fuel, IO.task_loop fuel st 0 = Ret None.
Proof.
  apply (read_of_closed_segment_spins (TaskExample.building [TaskRead (TaskExample.read 16)]) (TaskExample.read 16) [] 0 0%nat
    (TaskExample.seg 0 None Status.UnlinkAt)); [done|by vm_compute|done].
Defined.

Lemma task_loop_terminates_witness :
  let st := TaskExample.building [TaskRead (TaskExample.read 1040); TaskWrite TaskExample.small] in
  (forall k, ended (IO.task_loop 3 st 0) /\ IO.task_loop (3 + k) st 0 = IO.task_loop 3 st 0) /\
  forall task k, WriteTask.buffer task <> [] ->
    let n := (Z.to_nat (IO.free_bytes st / Bytes.remaining (WriteTask.buffer task)) + 2)%nat in
    ended (IO.write_loop n st task) /\ IO.write_loop (n + k) st task = IO.write_loop n st task /\
    IO.write_loop n st task = (Some <$> IO.write_step st task).
Proof.
  apply (task_loop_terminates (TaskExample.building [TaskRead (TaskExample.read 1040); TaskWrite TaskExample.small])).
  repeat constructor. by vm_compute.
Defined.
