(* ===== verification/RecordsBlock.v ===== *)
(** * Blocks of records

    [components/replication/src/stream/records_block.rs]: the records that the stream client
    reads, keeps in its caches and hands out, and the parser that cuts the bytes of a range
    server or of an object into blocks. *)

From S2P Require Import Prelude Bytes Record.

Module BlockRecord.
Record t := mk {
  start_offset : Z;            (* u64 *)
  end_offset_delta : Z;        (* u32 *)
  data : list (list byte);
}.

Definition size (r : t) : Z := as_uint 32 (remaining (concat (data r))).

Definition end_offset (r : t) : outcome Z := u64_add (start_offset r) (end_offset_delta r).

#[global] Instance t_eq_dec : EqDecision t.
Proof. solve_decision. Defined.
End BlockRecord.

Module RecordsBlock.
Record t := mk {
  records : list BlockRecord.t;
  empty_block_offset : option Z;
}.

Definition new (records : list BlockRecord.t) : t := mk records None.
Definition empty_block (offset : Z) : t := mk [] (Some offset).
Definition is_empty (b : t) : bool := bool_decide (records b = []).

Fixpoint retain (l : list BlockRecord.t) (start_offset : Z) (end_offset : option Z)
    : outcome (list BlockRecord.t) :=
  match l with
  | [] => Ret []
  | r :: l =>
      e ← BlockRecord.end_offset r;
      l ← retain l start_offset end_offset;
      Ret (if (start_offset <? e)
              && match end_offset with None => true | Some x => BlockRecord.start_offset r <? x end
           then r :: l else l)
  end.

Definition trim (b : t) (start_offset : Z) (end_offset : option Z) : outcome t :=
  l ← retain (records b) start_offset end_offset; Ret (mk l (empty_block_offset b)).

Fixpoint get_loop (l : list BlockRecord.t) (start_offset end_offset size_hint : Z)
    : outcome (list BlockRecord.t) :=
  match l with
  | [] => Ret []
  | r :: l =>
      e ← BlockRecord.end_offset r;
      if e <=? start_offset then get_loop l start_offset end_offset size_hint
      else if (end_offset <=? BlockRecord.start_offset r) || (size_hint =? 0) then Ret []
      else
        l ← get_loop l start_offset end_offset
              (size_hint - Z.min (BlockRecord.size r) size_hint);
        Ret (r :: l)
  end.

Definition get_records (b : t) (start_offset end_offset size_hint : Z)
    : outcome (list BlockRecord.t) :=
  get_loop (records b) start_offset end_offset size_hint.

(** [Iterator::sum] over [u32]. *)
Fixpoint sum_u32 (acc : Z) (l : list Z) : outcome Z :=
  match l with [] => Ret acc | n :: l => acc ← u32_add acc n; sum_u32 acc l end.

Definition size (b : t) : outcome Z := sum_u32 0 (BlockRecord.size <$> records b).

Definition start_offset (b : t) : Z :=
  match empty_block_offset b with
  | Some offset => offset
  | None => match records b with [] => 0 | r :: _ => BlockRecord.start_offset r end
  end.

Definition end_offset (b : t) : outcome Z :=
  match empty_block_offset b with
  | Some offset => Ret offset
  | None => match last (records b) with None => Ret 0 | Some r => BlockRecord.end_offset r end
  end.

Section parse.
Context {B : BytesApi} {M : MetaApi}.

(** A record at the cursor, which has at least nine bytes: its first offset, the number of
    its offsets, its length and the cursor behind it; [None] when the rest of it is
    missing. *)
Definition parse_one (cursor : list byte)
    : outcome (result (option (Z * Z * Z * list byte)) DecodeError.t) :=
  '(magic_code, cursor) ← get_int 1 cursor;
  if negb (magic_code =? Magic0) then Ret (Err DecodeError.InvalidMagic)
  else
  '(metadata_len, cursor) ← get_int 4 cursor;
  let metadata_len := as_uint 64 metadata_len in
  if remaining cursor <? metadata_len then Ret (Ok None)
  else
  metadata_slice ← slice cursor 0 metadata_len;
  match meta_root metadata_slice with
  | None => Ret (Err DecodeError.Flatbuffer)
  | Some metadata =>
      let start_offset := as_uint 64 (RecordBatchMetaT.base_offset metadata) in
      let end_offset_delta := as_uint 32 (RecordBatchMetaT.last_offset_delta metadata) in
      cursor ← advance (Z.to_nat metadata_len) cursor;
      '(payload_len, cursor) ← get_int 4 cursor;
      let payload_len := as_uint 64 payload_len in
      if remaining cursor <? payload_len then Ret (Ok None)
      else
      cursor ← advance (Z.to_nat payload_len) cursor;
      record_len ← usize_add (5 + metadata_len) 4;
      record_len ← usize_add record_len payload_len;
      Ret (Ok (Some (start_offset, end_offset_delta, record_len, cursor)))
  end.

(** Every iteration but the last two takes a record of at least nine bytes.  A deep copy has
    the same bytes. *)
Fixpoint parse_loop (fuel : nat) (bytes : list byte) (block_size : Z) (cursor : list byte)
    (blocks : list t) (block : list BlockRecord.t) (block_length relative_position : Z)
    (reach_end : bool) : outcome (result (list t) DecodeError.t) :=
  match fuel with
  | O => Panic
  | S fuel =>
      let '(blocks, block, block_length) :=
        if block_size <=? block_length then (blocks ++ [new block], [], 0)
        else (blocks, block, block_length) in
      if (remaining cursor <? 9) || reach_end then
        Ret (Ok (match block with [] => blocks | _ => blocks ++ [new block] end))
      else
      res ← parse_one cursor;
      match res with
      | Err e => Ret (Err e)
      | Ok None =>
          (* the cursor is not read any more *)
          parse_loop fuel bytes block_size cursor blocks block block_length relative_position true
      | Ok (Some (start_offset, end_offset_delta, record_len, cursor)) =>
          to ← usize_add relative_position record_len;
          record_bytes ← slice bytes relative_position to;
          block_length ← u32_add block_length (as_uint 32 record_len);
          parse_loop fuel bytes block_size cursor blocks
            (block ++ [BlockRecord.mk start_offset end_offset_delta [record_bytes]])
            block_length to false
      end
  end.

Definition parse (bytes : list byte) (block_size : Z) : outcome (result (list t) DecodeError.t) :=
  parse_loop (S (S (length bytes))) bytes block_size bytes [] [] 0 0 false.
End parse.
End RecordsBlock.

(** ** The parser *)

Section parser.
Context {B : BytesApi} {BL : BytesLaws B} {M : MetaApi}.

(** A batch on the wire, with its metadata. *)
Record wire := mk_wire { wmeta : list byte; wpayload : list byte; winfo : meta }.
Definition wire_bytes (w : wire) : list byte := batch_wire (wmeta w) (wpayload w).
Definition wire_ok (w : wire) : Prop :=
  meta_root (wmeta w) = Some (winfo w) /\ remaining (wire_bytes w) < 2 ^ 31.
Definition wire_record (w : wire) : BlockRecord.t :=
  BlockRecord.mk (as_uint 64 (RecordBatchMetaT.base_offset (winfo w)))
    (as_uint 32 (RecordBatchMetaT.last_offset_delta (winfo w))) [wire_bytes w].
Definition wires (l : list wire) : list byte := concat (wire_bytes <$> l).

(** What is left of a batch when the bytes end within it, but not within the length of its
    payload. *)
Definition cut_batch (tail : list byte) : Prop :=
  remaining tail < 9 \/
  exists w n, wire_ok w /\ tail = take n (wire_bytes w) /\ (n < length (wire_bytes w))%nat /\
    ((n < 5 + length (wmeta w))%nat \/ (9 + length (wmeta w) <= n)%nat).

(** The records in blocks: a block is closed once it has [block_size] bytes. *)
Fixpoint group (block_size : Z) (block : list BlockRecord.t) (block_length : Z)
    (l : list BlockRecord.t) : list RecordsBlock.t :=
  let '(closed, block, block_length) :=
    if block_size <=? block_length then ([RecordsBlock.new block], [], 0)
    else ([], block, block_length) in
  closed ++
  match l with
  | [] => match block with [] => [] | _ => [RecordsBlock.new block] end
  | r :: l => group block_size (block ++ [r]) (block_length + BlockRecord.size r) l
  end.

Lemma remaining_wire w : remaining (wire_bytes w) = 9 + remaining (wmeta w) + remaining (wpayload w).
Proof. apply remaining_batch. Qed.

Lemma parse_one_wire w rest :
  wire_ok w ->
  RecordsBlock.parse_one (wire_bytes w ++ rest) =
    Ret (Ok (Some (BlockRecord.start_offset (wire_record w), BlockRecord.end_offset_delta (wire_record w),
                   remaining (wire_bytes w), rest))).
Proof.
  intros [Hm Hlen]. rewrite remaining_wire in *. destruct w as [m p mt]. simpl in *.
  pose proof (remaining_nonneg m). pose proof (remaining_nonneg p). pose proof (remaining_nonneg rest).
  unfold RecordsBlock.parse_one, wire_bytes, batch_wire. simpl. rewrite <- !(assoc_L (++)).
  rewrite get_int_put by (done || lia). simpl.
  rewrite get_int_put by (unfold is_sint; simpl; lia). simpl.
  rewrite as_uint_id by (unfold is_uint; lia).
  rewrite !remaining_app, remaining_put, (proj2 (Z.ltb_ge _ _)) by lia.
  rewrite slice_prefix by done. simpl. rewrite Hm, advance_remaining by done. simpl.
  rewrite get_int_put by (unfold is_sint; simpl; lia). simpl.
  rewrite as_uint_id by (unfold is_uint; lia).
  rewrite remaining_app, (proj2 (Z.ltb_ge _ _)) by lia.
  rewrite advance_remaining by done. simpl.
  rewrite uint_add_Ret by lia. simpl. rewrite uint_add_Ret by lia. simpl.
  by replace (5 + remaining m + 4 + remaining p) with (9 + remaining m + remaining p) by lia.
Qed.

(** The bytes end within the metadata or within the payload. *)
Lemma parse_one_cut tail :
  cut_batch tail -> 9 <= remaining tail -> RecordsBlock.parse_one tail = Ret (Ok None).
Proof.
  intros [?|(w & n & [Hm Hlen] & -> & Hn & Hcut)] H9; [lia|].
  rewrite remaining_wire in *. destruct w as [m p mt]. simpl in *.
  pose proof (remaining_nonneg m). pose proof (remaining_nonneg p).
  assert (Z.of_nat n < 9 + remaining m + remaining p) as Hn'.
  { unfold wire_bytes in Hn. cbn in Hn. rewrite <- remaining_batch. unfold remaining. lia. }
  assert (9 <= n)%nat as Hn9.
  { unfold remaining in H9. rewrite length_take in H9. lia. }
  unfold wire_bytes, batch_wire. simpl.
  rewrite (assoc_L (++)). rewrite take_app_ge by (rewrite length_app, !length_put_uint; lia).
  rewrite length_app, !length_put_uint. unfold RecordsBlock.parse_one. rewrite <- (assoc_L (++)).
  rewrite get_int_put by (done || lia). simpl.
  rewrite get_int_put by (unfold is_sint; simpl; lia). simpl.
  rewrite as_uint_id by (unfold is_uint; lia).
  destruct Hcut as [Hcut|Hcut].
  - rewrite (proj2 (Z.ltb_lt _ _)); [done|]. unfold remaining in *. rewrite length_take. lia.
  - rewrite take_app_ge by lia. rewrite take_app_ge by (rewrite length_put_uint; lia).
    rewrite length_put_uint, !remaining_app, remaining_put. rewrite (proj2 (Z.ltb_ge _ _))
      by (pose proof (remaining_nonneg (take (n - 5 - length m - 4) p)); lia).
    rewrite slice_prefix by done. simpl. rewrite Hm, advance_remaining by done. simpl.
    rewrite get_int_put by (unfold is_sint; simpl; lia). simpl.
    rewrite as_uint_id by (unfold is_uint; lia).
    rewrite (proj2 (Z.ltb_lt _ _)); [done|]. unfold remaining in *. rewrite length_take. lia.
Qed.

Lemma wire_record_size w : wire_ok w -> BlockRecord.size (wire_record w) = remaining (wire_bytes w).
Proof.
  intros [_ H]. unfold BlockRecord.size, wire_record. cbn. rewrite app_nil_r, as_uint_id; [done|].
  pose proof (remaining_nonneg (wire_bytes w)). unfold is_uint. lia.
Qed.

(** What an iteration does with the current block before it reads on. *)
Definition close (block_size : Z) (blocks : list RecordsBlock.t) (block : list BlockRecord.t) (n : Z) :=
  if block_size <=? n then (blocks ++ [RecordsBlock.new block], [], 0) else (blocks, block, n).

Lemma close_spec block_size blocks block n blocks' block' n' :
  0 < block_size -> close block_size blocks block n = (blocks', block', n') ->
  n' < block_size /\ (0 <= n -> 0 <= n') /\
  (forall r k, group block_size block n [] = drop (length blocks) blocks' ++ group block_size block' n' [] /\
    blocks' = blocks ++ drop (length blocks) blocks' /\
    group block_size block n (r :: k) =
      drop (length blocks) blocks' ++ group block_size (block' ++ [r]) (n' + BlockRecord.size r) k).
Proof.
  intros Hsz. unfold close. simpl. destruct (Z.leb_spec block_size n); intros [= <- <- <-].
  - rewrite drop_app_length. rewrite (proj2 (Z.leb_gt _ _)) by lia. split_and!; [lia|done|]. by intros.
  - rewrite drop_all, app_nil_r, (proj2 (Z.leb_gt _ _)) by lia. split_and!; [lia|done|]. by intros.
Qed.

Lemma parse_loop_S fuel bytes block_size cursor blocks block n pos e :
  RecordsBlock.parse_loop (S fuel) bytes block_size cursor blocks block n pos e =
  let '(blocks, block, n) := close block_size blocks block n in
  if (remaining cursor <? 9) || e then
    Ret (Ok (match block with [] => blocks | _ => blocks ++ [RecordsBlock.new block] end))
  else
  res ← RecordsBlock.parse_one cursor;
  match res with
  | Err x => Ret (Err x)
  | Ok None => RecordsBlock.parse_loop fuel bytes block_size cursor blocks block n pos true
  | Ok (Some (s, d, len, cursor)) =>
      to ← usize_add pos len;
      record_bytes ← slice bytes pos to;
      n ← u32_add n (as_uint 32 len);
      RecordsBlock.parse_loop fuel bytes block_size cursor blocks
        (block ++ [BlockRecord.mk s d [record_bytes]]) n to false
  end.
Proof. done. Qed.

Lemma group_end block_size blocks block n :
  n < block_size ->
  match block with [] => blocks | _ => blocks ++ [RecordsBlock.new block] end =
  blocks ++ group block_size block n [].
Proof. intros. simpl. rewrite (proj2 (Z.leb_gt _ _)) by lia. destruct block; simpl; by rewrite ?app_nil_r. Qed.

Lemma parse_loop_end fuel bytes block_size cursor blocks block n pos e :
  0 < block_size -> (remaining cursor <? 9) || e = true ->
  RecordsBlock.parse_loop (S fuel) bytes block_size cursor blocks block n pos e =
    Ret (Ok (blocks ++ group block_size block n [])).
Proof.
  intros Hsz He. rewrite parse_loop_S. destruct (close _ _ _ _) as [[blocks' block'] n'] eqn:E.
  destruct (close_spec _ _ _ _ _ _ _ Hsz E) as (? & _ & Hg). rewrite He.
  destruct (Hg (BlockRecord.mk 0 0 []) []) as (-> & Hd & _).
  by rewrite (group_end block_size) with (n := n'), (assoc_L (++)), <- Hd.
Qed.

(** The loop takes the complete batches. *)
Lemma parse_loop_skip bytes block_size pre l tail fuel blocks block n :
  bytes = pre ++ wires l ++ tail -> Forall wire_ok l ->
  remaining bytes < 2 ^ 64 -> 0 < block_size <= 2 ^ 31 -> 0 <= n < 2 ^ 32 ->
  exists blocks' block' n',
    RecordsBlock.parse_loop (length l + fuel) bytes block_size (wires l ++ tail) blocks block n
      (remaining pre) false =
    RecordsBlock.parse_loop fuel bytes block_size tail blocks' block' n' (remaining (pre ++ wires l)) false /\
    blocks' ++ group block_size block' n' [] = blocks ++ group block_size block n (wire_record <$> l).
Proof.
  intros Hb Hl H64 Hsz. assert (0 < block_size) as Hpos by lia. revert pre blocks block n Hb.
  induction Hl as [|w l Hw Hl IH]; intros pre blocks block n Hb Hn.
  { exists blocks, block, n. change (wires []) with (@nil byte). by rewrite app_nil_r. }
  change (wires (w :: l)) with (wire_bytes w ++ wires l) in *. rewrite <- (assoc_L (++)) in Hb.
  simpl length. rewrite <- (assoc_L (++)), Nat.add_succ_l, parse_loop_S.
  destruct (close _ _ _ _) as [[blocks' block'] n'] eqn:E.
  destruct (close_spec _ _ _ _ _ _ _ Hpos E) as (? & ? & Hg).
  destruct (Hg (wire_record w) (wire_record <$> l)) as (_ & Hd & Heq).
  change (wire_record <$> w :: l) with (wire_record w :: (wire_record <$> l)). rewrite Heq.
  pose proof (remaining_wire w). pose proof (remaining_nonneg (wmeta w)).
  pose proof (remaining_nonneg (wpayload w)). pose proof (remaining_nonneg (wires l ++ tail)).
  rewrite remaining_app, (proj2 (Z.ltb_ge _ _)) by lia. simpl. rewrite parse_one_wire by done. simpl.
  pose proof (remaining_nonneg pre). pose proof Hw as [Hm Hlen].
  assert (remaining pre + remaining (wire_bytes w) < 2 ^ 64).
  { rewrite Hb, !remaining_app in H64. rewrite remaining_app in *. lia. }
  rewrite (uint_add_Ret 64 (remaining pre)) by done. simpl.
  assert (slice bytes (remaining pre) (remaining pre + remaining (wire_bytes w)) = Ret (wire_bytes w))
    as -> by (rewrite Hb; by apply slice_mid). simpl.
  rewrite (as_uint_id 32 (remaining _)) by (unfold is_uint; lia). rewrite uint_add_Ret by lia. simpl.
  rewrite <- remaining_app.
  destruct (IH (pre ++ wire_bytes w) blocks' (block' ++ [wire_record w]) (n' + remaining (wire_bytes w)))
    as (blocks'' & block'' & n'' & Heq' & Hgr); [by rewrite Hb, <- !(assoc_L (++))|lia|].
  exists blocks'', block'', n''. split; [by rewrite (assoc_L (++))|].
  etrans; [exact Hgr|]. rewrite Hd at 1. by rewrite wire_record_size, <- (assoc_L (++)) by done.
Qed.

Lemma wires_length l : Forall wire_ok l -> (length l <= length (wires l))%nat.
Proof.
  induction 1 as [|w l _ _ IH]; [done|]. change (wires (w :: l)) with (wire_bytes w ++ wires l).
  pose proof (remaining_wire w). pose proof (remaining_nonneg (wmeta w)).
  pose proof (remaining_nonneg (wpayload w)). rewrite length_app. simpl. unfold remaining in *. lia.
Qed.

Lemma parse_skip block_size l tail :
  Forall wire_ok l -> remaining (wires l ++ tail) < 2 ^ 64 -> 0 < block_size <= 2 ^ 31 ->
  exists fuel blocks block n,
    RecordsBlock.parse (wires l ++ tail) block_size =
    RecordsBlock.parse_loop (S (S fuel)) (wires l ++ tail) block_size tail blocks block n
      (remaining (wires l)) false /\
    blocks ++ group block_size block n [] = group block_size [] 0 (wire_record <$> l).
Proof.
  intros Hl H64 Hsz. pose proof (wires_length l Hl).
  destruct (parse_loop_skip (wires l ++ tail) block_size [] l tail
    (S (S (length (wires l ++ tail) - length l))) [] [] 0) as (blocks & block & n & Heq & Hg);
    [done..|].
  exists (length (wires l ++ tail) - length l)%nat, blocks, block, n. split; [|done].
  rewrite app_nil_l in Heq. rewrite <- Heq. unfold RecordsBlock.parse. f_equal.
  rewrite length_app. lia.
Qed.

Lemma group_concat block_size block n l :
  concat (RecordsBlock.records <$> group block_size block n l) = block ++ l.
Proof.
  revert block n. induction l as [|r l IH]; intros block n; simpl;
    destruct (block_size <=? n); simpl; rewrite ?IH, ?app_nil_r; try done.
  - by destruct block; simpl; rewrite ?app_nil_r.
  - by rewrite <- (assoc_L (++)).
Qed.

Lemma group_nonempty block_size block n l :
  0 < block_size -> (block = [] -> n = 0) ->
  Forall (fun b => RecordsBlock.records b <> [] /\ RecordsBlock.empty_block_offset b = None)
    (group block_size block n l).
Proof.
  intros Hsz. revert block n. induction l as [|r l IH]; intros block n Hb; simpl;
    (destruct (Z.leb_spec block_size n);
     [assert (block <> []) by (intros ->; specialize (Hb eq_refl); lia)|]); simpl.
  - by repeat constructor.
  - destruct block; by repeat constructor.
  - constructor; [done|]. apply IH. done.
  - apply IH. by destruct block.
Qed.

Lemma parse_group block_size l tail :
  Forall wire_ok l -> cut_batch tail -> remaining (wires l ++ tail) < 2 ^ 64 ->
  0 < block_size <= 2 ^ 31 ->
  RecordsBlock.parse (wires l ++ tail) block_size =
    Ret (Ok (group block_size [] 0 (wire_record <$> l))).
Proof.
  intros Hl Htail H64 Hsz.
  destruct (parse_skip block_size l tail) as (fuel & blocks & block & n & -> & <-); [done..|].
  destruct (Z.ltb_spec (remaining tail) 9) as [H9|H9].
  { rewrite parse_loop_end; [done|lia|]. by rewrite (proj2 (Z.ltb_lt _ _)). }
  rewrite parse_loop_S. destruct (close _ _ _ _) as [[blocks' block'] n'] eqn:E.
  assert (0 < block_size) as Hpos by lia.
  destruct (close_spec _ _ _ _ _ _ _ Hpos E) as (? & _ & Hg).
  rewrite (proj2 (Z.ltb_ge _ _)) by lia. simpl orb. cbv iota. rewrite parse_one_cut by done.
  rewrite bind_Ret, parse_loop_end by (lia || by rewrite orb_true_r).
  destruct (Hg (BlockRecord.mk 0 0 []) []) as (Heq & Hd & _).
  by rewrite Heq, (assoc_L (++)), <- Hd.
Qed.

(** C24: The parser gives back the batches that were encoded: bytes that consist of batches,
    and possibly of the beginning of another one that is cut in its metadata or payload, but
    not within the length of its payload, where the parser panics ([parse_cut_panics]),
    are parsed into blocks that hold exactly the complete batches, in order, each with its
    offsets and its bytes, grouped greedily by size into blocks that are not empty. *)
Theorem parse_complete block_size l tail :
  Forall wire_ok l -> cut_batch tail -> remaining (wires l ++ tail) < 2 ^ 64 ->
  0 < block_size <= 2 ^ 31 ->
  RecordsBlock.parse (wires l ++ tail) block_size =
    Ret (Ok (group block_size [] 0 (wire_record <$> l))) /\
  concat (RecordsBlock.records <$> group block_size [] 0 (wire_record <$> l)) = wire_record <$> l /\
  Forall (fun b => RecordsBlock.records b <> []) (group block_size [] 0 (wire_record <$> l)).
Proof.
  intros Hl Htail H64 Hsz. split_and!; [by apply parse_group|apply group_concat|].
  eapply Forall_impl; [apply group_nonempty; [lia|done]|]. by intros ? [].
Qed.

Lemma parse_one_short m mt tl :
  meta_root m = Some mt -> remaining m < 2 ^ 31 -> (length tl < 4)%nat ->
  RecordsBlock.parse_one (put_uint 1 Magic0 ++ put_uint 4 (remaining m) ++ m ++ tl) = Panic.
Proof.
  intros Hm Hlen Htl. pose proof (remaining_nonneg m). pose proof (remaining_nonneg tl).
  unfold RecordsBlock.parse_one. rewrite get_int_put by (done || lia). simpl.
  rewrite get_int_put by (unfold is_sint; simpl; lia). simpl.
  rewrite as_uint_id by (unfold is_uint; lia).
  rewrite remaining_app, (proj2 (Z.ltb_ge _ _)) by lia.
  rewrite slice_prefix by done. simpl. rewrite Hm, advance_remaining by done. simpl.
  unfold get_int. rewrite get_uint_be. by rewrite (proj2 (Nat.ltb_lt _ _)) by lia.
Qed.

(** Bytes that end within the four bytes of the payload length of a batch make the
    parser panic: it checks that the metadata is there, and reads the length behind it. *)
Theorem parse_cut_panics block_size l w n :
  Forall wire_ok l -> wire_ok w -> remaining (wires l ++ take n (wire_bytes w)) < 2 ^ 64 ->
  0 < block_size <= 2 ^ 31 -> (4 <= length (wmeta w))%nat ->
  (5 + length (wmeta w) <= n < 9 + length (wmeta w))%nat ->
  RecordsBlock.parse (wires l ++ take n (wire_bytes w)) block_size = Panic.
Proof.
  intros Hl [Hm Hlen] H64 Hsz H4 Hn.
  destruct (parse_skip block_size l (take n (wire_bytes w))) as (fuel & blocks & block & k & -> & _);
    [done..|].
  rewrite remaining_wire in Hlen. destruct w as [m p mt]. cbn [wmeta wpayload winfo] in *.
  pose proof (remaining_nonneg m). pose proof (remaining_nonneg p).
  unfold wire_bytes, batch_wire. cbn [wmeta wpayload].
  rewrite (assoc_L (++)), take_app_ge by (rewrite length_app, !length_put_uint; lia).
  rewrite length_app, !length_put_uint. rewrite take_app_ge, take_app_le by (rewrite ?length_put_uint; lia).
  set (tl := take _ (put_uint 4 _)).
  assert (length tl < 4)%nat as Htl by (unfold tl; rewrite length_take, length_put_uint; lia).
  rewrite parse_loop_S. destruct (close _ _ _ _) as [[blocks' block'] n'].
  assert (4 <= remaining m) by (unfold remaining; lia). pose proof (remaining_nonneg tl).
  rewrite (proj2 (Z.ltb_ge _ _)) by (rewrite !remaining_app, !remaining_put; lia).
  simpl orb. cbv iota. rewrite <- (assoc_L (++)). rewrite (parse_one_short m mt tl); [done|done|lia|done].
Qed.

(** *** Fuel *)

Lemma get_int_length n l v r : get_int n l = Ret (v, r) -> (length r + n = length l)%nat.
Proof.
  unfold get_int. rewrite get_uint_be. case_match eqn:E; [done|]. apply Nat.ltb_ge in E.
  intros [= _ <-]. rewrite length_drop. lia.
Qed.

Lemma advance_length n l r : advance n l = Ret r -> (length r + n = length l)%nat.
Proof.
  rewrite advance_drop. case_match eqn:E; [done|]. apply Nat.ltb_ge in E.
  intros [= <-]. rewrite length_drop. lia.
Qed.

Lemma parse_one_length cursor s d len rest :
  RecordsBlock.parse_one cursor = Ret (Ok (Some (s, d, len, rest))) -> (length rest + 9 <= length cursor)%nat.
Proof.
  unfold RecordsBlock.parse_one. intros H.
  apply bind_Ret_inv in H as ([magic c1] & ?%get_int_length & H). case_match; [done|].
  apply bind_Ret_inv in H as ([mlen c2] & ?%get_int_length & H). case_match; [done|].
  apply bind_Ret_inv in H as (m & _ & H). case_match; [|done].
  apply bind_Ret_inv in H as (c3 & ?%advance_length & H).
  apply bind_Ret_inv in H as ([plen c4] & ?%get_int_length & H). case_match; [done|].
  apply bind_Ret_inv in H as (c5 & ?%advance_length & H).
  apply bind_Ret_inv in H as (l1 & _ & H). apply bind_Ret_inv in H as (l2 & _ & H).
  injection H as _ _ _ <-. lia.
Qed.

(** The fuel that [parse] starts with is enough for any bytes: more of it changes nothing. *)
Lemma parse_loop_fuel fuel bytes block_size cursor blocks block n pos (e : bool) :
  (length cursor + (if e then 1 else 2) <= fuel)%nat ->
  RecordsBlock.parse_loop (S fuel) bytes block_size cursor blocks block n pos e =
  RecordsBlock.parse_loop fuel bytes block_size cursor blocks block n pos e.
Proof.
  revert cursor blocks block n pos e.
  induction fuel as [|fuel IH]; intros cursor blocks block n pos e Hfuel; [destruct e; lia|].
  rewrite parse_loop_S, (parse_loop_S fuel).
  destruct (close block_size blocks block n) as [[blocks' block'] n'].
  destruct ((remaining cursor <? 9) || e) eqn:E; [done|]. apply orb_false_iff in E as [_ ->].
  destruct (RecordsBlock.parse_one cursor) as [[[[[[s d] len] rest]|]|]|] eqn:Hone; simpl; [|apply IH; lia|done..].
  apply parse_one_length in Hone.
  destruct (usize_add pos len) as [to|]; simpl; [|done].
  destruct (slice bytes pos to) as [rb|]; simpl; [|done].
  destruct (u32_add n' (as_uint 32 len)) as [n''|]; simpl; [|done].
  apply IH. lia.
Qed.

Lemma parse_fuel bytes block_size k :
  RecordsBlock.parse_loop (k + S (S (length bytes))) bytes block_size bytes [] [] 0 0 false =
  RecordsBlock.parse bytes block_size.
Proof.
  induction k as [|k IH]; [done|]. rewrite <- IH. apply parse_loop_fuel. lia.
Qed.
End parser.

(** ** Runs of records *)

(** The records tile the offsets from [a] to [b]. *)
Fixpoint run (a : Z) (l : list BlockRecord.t) (b : Z) : Prop :=
  match l with
  | [] => a = b
  | r :: l =>
      BlockRecord.start_offset r = a /\ 0 < BlockRecord.end_offset_delta r /\
      a + BlockRecord.end_offset_delta r < 2 ^ 64 /\ run (a + BlockRecord.end_offset_delta r) l b
  end.

Definition bytes_of (l : list BlockRecord.t) : Z := foldr (fun r n => BlockRecord.size r + n) 0 l.

Lemma size_nonneg r : 0 <= BlockRecord.size r.
Proof. unfold BlockRecord.size. apply as_uint_range. lia. Qed.

Lemma run_le a l b : run a l b -> a <= b.
Proof. revert a. induction l as [|r l IH]; intros a; simpl; [lia|]. intros (_ & ? & _ & ?%IH). lia. Qed.

Lemma run_app a l k b : run a (l ++ k) b <-> exists c, run a l c /\ run c k b.
Proof.
  revert a. induction l as [|r l IH]; intros a; simpl; [naive_solver|].
  setoid_rewrite IH. naive_solver.
Qed.

Lemma run_nonempty a l b : run a l b -> a < b -> l <> [].
Proof. intros H ? ->. simpl in H. lia. Qed.

Lemma run_last a l r b : run a (l ++ [r]) b -> BlockRecord.end_offset r = Ret b.
Proof.
  intros (c & _ & ? & _ & ? & <-)%run_app. unfold BlockRecord.end_offset. subst.
  by rewrite uint_add_Ret.
Qed.

Lemma run_block_end a l b : run a l b -> l <> [] -> RecordsBlock.end_offset (RecordsBlock.new l) = Ret b.
Proof.
  intros Hr Hl. destruct l as [|r l _] using rev_ind; [done|].
  unfold RecordsBlock.end_offset, RecordsBlock.new. simpl. rewrite last_snoc. by eapply run_last.
Qed.

Lemma run_block_start a l b :
  run a l b -> l <> [] -> RecordsBlock.start_offset (RecordsBlock.new l) = a.
Proof. destruct l; [done|]. by intros (? & _) _. Qed.

(** What [get_records] gives of a run that holds the first offset asked for: a part of the
    run that begins with the record of that offset, and goes on to the end asked for, to the
    size asked for, or to the end of the run. *)
Definition picked (l mid : list BlockRecord.t) (a b s e hint x y : Z) : Prop :=
  exists pre post, l = pre ++ mid ++ post /\ run a pre x /\ run x mid y /\ run y post b /\
    (forall r k, mid = r :: k -> s < x + BlockRecord.end_offset_delta r) /\
    Forall (fun r => BlockRecord.start_offset r < e) mid /\
    (e <= y \/ hint <= bytes_of mid \/ post = []).

Lemma get_loop_rest a l b s e hint :
  run a l b -> (forall r k, l = r :: k -> s < a + BlockRecord.end_offset_delta r) -> 0 <= hint ->
  exists mid y, RecordsBlock.get_loop l s e hint = Ret mid /\ picked l mid a b s e hint a y /\
    (l <> [] -> a < e -> 0 < hint -> mid <> []).
Proof.
  revert a hint. induction l as [|r l IH]; intros a hint Hr Hs Hh.
  { exists [], a. split; [done|]. split; [|naive_solver].
    exists [], []. simpl in *. naive_solver. }
  pose proof Hr as (Hst & Hd & H64 & Hr'). specialize (Hs r l eq_refl).
  simpl. unfold BlockRecord.end_offset.
  rewrite Hst, uint_add_Ret by done. simpl. rewrite (proj2 (Z.leb_gt _ _)) by lia.
  destruct (Z.leb_spec e a) as [He|He]; simpl.
  { exists [], a. split; [done|]. split; [|lia].
    exists [], (r :: l). split_and!; try done. by left. }
  destruct (Z.eqb_spec hint 0) as [->|Hne]; simpl.
  { exists [], a. split; [done|]. split; [|lia].
    exists [], (r :: l). split_and!; try done. right. by left. }
  pose proof (size_nonneg r).
  destruct (IH (a + BlockRecord.end_offset_delta r) (hint - Z.min (BlockRecord.size r) hint))
    as (mid & y & -> & (pre & post & -> & Hpre & Hmid & Hpost & _ & Hf & Hlast) & _);
    [done|intros r' k ->; simpl in Hr'; lia|lia|].
  assert (pre = []) as ->.
  { destruct pre as [|r' pre]; [done|]. simpl in Hpre. destruct Hpre as (_ & ? & _ & ?%run_le). lia. }
  simpl. exists (r :: mid), y. split; [done|]. split; [|done].
  exists [], post. simpl. split_and!; try done.
  - intros ? ? [= <- <-]. lia.
  - constructor; [lia|done].
  - destruct Hlast as [?|[?|?]]; [by left| |by right; right]. right. left. simpl. lia.
Qed.

Lemma get_loop_run a l b s e hint :
  run a l b -> a <= s < b -> s < e -> 0 < hint ->
  exists mid x y, RecordsBlock.get_loop l s e hint = Ret mid /\ picked l mid a b s e hint x y /\
    x <= s < y /\ mid <> [].
Proof.
  revert a. induction l as [|r l IH]; intros a Hr Hs He Hh; [simpl in Hr; lia|].
  pose proof Hr as (Hst & Hd & H64 & Hr').
  destruct (decide (a + BlockRecord.end_offset_delta r <= s)) as [Hle|Hgt].
  - destruct (IH _ Hr') as (mid & x & y & Hg & (pre & post & -> & Hpre & Hrest) & Hx); [lia..|].
    exists mid, x, y. split; [|split; [|done]].
    + simpl. unfold BlockRecord.end_offset. rewrite Hst, uint_add_Ret by done. simpl.
      by rewrite (proj2 (Z.leb_le _ _)).
    + exists (r :: pre), post. by split.
  - destruct (get_loop_rest a (r :: l) b s e hint) as (mid & y & Hg & Hp & Hne);
      [done|intros ? ? [= <- <-]; lia|lia|].
    exists mid, a, y. assert (mid <> []) as Hm by (apply Hne; [done|lia..]).
    split_and!; try done; [lia|]. destruct Hp as (pre & post & _ & _ & Hmid & _ & Hfirst & _).
    destruct mid as [|r' mid]; [done|]. specialize (Hfirst r' mid eq_refl). simpl in Hmid.
    destruct Hmid as (_ & _ & _ & ?%run_le). lia.
Qed.

(** What [trim] keeps of a run. *)
Lemma retain_run a l b s :
  run a l b ->
  exists pre mid x, RecordsBlock.retain l s None = Ret mid /\ l = pre ++ mid /\
    run a pre x /\ run x mid b /\ (pre = [] \/ x <= s) /\
    (forall r k, mid = r :: k -> s < x + BlockRecord.end_offset_delta r).
Proof.
  revert a. induction l as [|r l IH]; intros a Hr; [by exists [], [], a; split_and!; auto|].
  pose proof Hr as (Hst & Hd & H64 & Hr'). destruct (IH _ Hr') as (pre & mid & x & Hret & -> & Hpre & Hmid & Hx & Hf).
  simpl. unfold BlockRecord.end_offset. rewrite Hst, uint_add_Ret, Hret by done. simpl.
  destruct (Z.ltb_spec s (a + BlockRecord.end_offset_delta r)) as [Hs|Hs]; simpl.
  - assert (pre = []) as ->.
    { destruct Hx as [|Hx]; [done|]. apply run_le in Hpre. lia. }
    simpl in Hpre. subst x. exists [], (r :: mid), a. split_and!; try done; [by left|].
    intros ? ? [= <- <-]. lia.
  - exists (r :: pre), mid, x. assert (x <= s).
    { destruct Hx as [->|]; [simpl in Hpre; lia|done]. }
    split_and!; try done. by right.
Qed.

(** ** Witnesses *)

Definition sample_wire (base count : Z) : wire :=
  mk_wire (meta_pack (sample_meta base count)) (ascii_bytes "payload") (sample_meta base count).

Lemma sample_wire_ok base count :
  remaining (wire_bytes (sample_wire base count)) < 2 ^ 31 -> wire_ok (sample_wire base count).
Proof. split; [apply meta_root_pack|done]. Qed.

Lemma parse_complete_witness :
  RecordsBlock.parse (wires [sample_wire 100 2; sample_wire 102 3] ++ ascii_bytes "rest") 1048576 =
    Ret (Ok (group 1048576 [] 0 (wire_record <$> [sample_wire 100 2; sample_wire 102 3]))) /\
  concat (RecordsBlock.records <$> group 1048576 [] 0 (wire_record <$> [sample_wire 100 2; sample_wire 102 3]))
    = wire_record <$> [sample_wire 100 2; sample_wire 102 3] /\
  Forall (fun b => RecordsBlock.records b <> [])
    (group 1048576 [] 0 (wire_record <$> [sample_wire 100 2; sample_wire 102 3])).
Proof.
  apply (parse_complete 1048576 [sample_wire 100 2; sample_wire 102 3] (ascii_bytes "rest")).
  - repeat constructor; by vm_compute.
  - left. by vm_compute.
  - by vm_compute.
  - lia.
Defined.

Lemma parse_cut_panics_witness :
  RecordsBlock.parse (wires [sample_wire 100 2] ++
      take (5 + length (wmeta (sample_wire 102 3))) (wire_bytes (sample_wire 102 3))) 1048576 = Panic.
Proof.
  apply (parse_cut_panics 1048576 [sample_wire 100 2] (sample_wire 102 3)).
  - repeat constructor; by vm_compute.
  - split; by vm_compute.
  - by vm_compute.
  - lia.
  - apply Nat.leb_le. by vm_compute.
  - lia.
Defined.
