(* ===== verification/ReplicaCache.v ===== *)
(** * The caches of the stream client

    [components/replication/src/stream/cache.rs]: the hot cache of records that were
    appended, first in first out, and the cache of blocks that were read, with its
    information for reading ahead.

    The crate [lru] is a parameter ([LruApi]).  A point in time is in nanoseconds, an
    argument of the operations that read the clock. *)

From S2P Require Import Prelude Bytes Record RecordsBlock Collections.

(** ** The hot cache *)

Module HotCache.
Record t := mk {
  max_cache_size : Z;          (* u64 *)
  occupied_size : Z;           (* u64 *)
  map : gmap (Z * Z) BlockRecord.t; (* by CacheKey: stream id and base offset *)
  fifo_deque : list (Z * Z);
}.

Definition new (max_cache_size : Z) : outcome t :=
  if max_cache_size <? 4 * 1024 then Panic else Ret (mk max_cache_size 0 ∅ []).

Fixpoint evict_loop (max occupied : Z) (m : gmap (Z * Z) BlockRecord.t) (fifo : list (Z * Z))
    : outcome (Z * gmap (Z * Z) BlockRecord.t * list (Z * Z)) :=
  if max <=? occupied then
    match fifo with
    | [] => Ret (occupied, m, [])
    | k :: fifo =>
        match m !! k with
        | Some v =>
            occupied ← uint_sub occupied (BlockRecord.size v);
            evict_loop max occupied (delete k m) fifo
        | None => evict_loop max occupied m fifo
        end
    end
  else Ret (occupied, m, fifo).

Definition insert (c : t) (stream_id start_offset end_offset_delta : Z) (data : list (list byte))
    : outcome t :=
  '(occupied, m, fifo) ← evict_loop (max_cache_size c) (occupied_size c) (map c) (fifo_deque c);
  let k := (stream_id, start_offset) in
  let v := BlockRecord.mk start_offset end_offset_delta data in
  occupied ← u64_add occupied (BlockRecord.size v);
  Ret (mk (max_cache_size c) occupied (<[k := v]> m) (fifo ++ [k])).

(** An iteration goes on to the record at a greater offset, of which there are no more than
    the cache has entries, or takes at least a byte of the size hint. *)
Fixpoint get_loop (fuel : nat) (m : gmap (Z * Z) BlockRecord.t) (stream_id start_offset end_offset size_hint : Z)
    : outcome (Z * list BlockRecord.t) :=
  match fuel with
  | O => Panic
  | S fuel =>
      if (end_offset <=? start_offset) || (size_hint =? 0) then Ret (start_offset, [])
      else
        match m !! (stream_id, start_offset) with
        | None => Ret (start_offset, [])
        | Some r =>
            next ← BlockRecord.end_offset r;
            '(stop, l) ← get_loop fuel m stream_id next end_offset
                           (size_hint - Z.min (BlockRecord.size r) size_hint);
            Ret (stop, r :: l)
        end
  end.

Definition get_block (c : t) (stream_id start_offset end_offset size_hint : Z)
    : outcome RecordsBlock.t :=
  '(stop, records) ← get_loop (S (size (map c) + Z.to_nat size_hint)) (map c) stream_id
                       start_offset end_offset size_hint;
  Ret (match records with
       | [] => RecordsBlock.empty_block stop
       | _ => RecordsBlock.new records
       end).
End HotCache.

(** ** The block cache *)

(** [LruCache], unbounded: [push], [pop], [pop_lru] and [len]; the keys are a stream id and
    the first offset of a block, the values the size of the block. *)
Class LruApi := {
  lru : Type;
  lru_unbounded : lru;
  lru_push : Z * Z -> Z -> lru -> lru;
  lru_pop : Z * Z -> lru -> lru;
  lru_pop_lru : lru -> option ((Z * Z) * lru);
  lru_len : lru -> nat;
}.

Definition BLOCK_SIZE : Z := 1024 * 1024.
Definition READAHEAD_SIZE_INCREASE_ELAPSE_MS : Z := 100.
Definition READAHEAD_SIZE_DECREASE_ELAPSE_MS : Z := 300.
Definition MAX_READAHEAD_SIZE : Z := 1024 * 1024 * 128.

Definition block_size_align (size : Z) : Z :=
  let align := BLOCK_SIZE in
  if size + (align - 1) <? 2 ^ 32 then (size + (align - 1)) / align * align
  else (2 ^ 32 - 1) / align * align.

Module Readahead.
Record t := mk {
  start_offset : Z;            (* u64 *)
  end_offset : option Z;       (* u64 *)
  size_hint : Z;               (* u32 *)
  timestamp : Z;               (* in nanoseconds *)
}.
End Readahead.

(** [Instant::elapsed] is zero when the clock seems to go back. *)
Definition elapsed_ms (now timestamp : Z) : Z := Z.max 0 (now - timestamp) / 1000000.

Definition re_gen_readahead (r : Readahead.t) (now : Z) : outcome Readahead.t :=
  let size_hint := block_size_align (Readahead.size_hint r) in
  let elapsed := elapsed_ms now (Readahead.timestamp r) in
  size_hint ←
    (if elapsed <=? READAHEAD_SIZE_INCREASE_ELAPSE_MS then
       n ← uint_mul 32 size_hint 2; Ret (Z.min n MAX_READAHEAD_SIZE)
     else if READAHEAD_SIZE_DECREASE_ELAPSE_MS <=? elapsed then
       Ret (Z.max (size_hint / 2) BLOCK_SIZE)
     else Ret size_hint);
  Ret (Readahead.mk (Readahead.start_offset r) (Readahead.end_offset r) size_hint now).

Module StreamCache.
Record t := mk {
  cache_map : @BTreeMap.t (RecordsBlock.t * option Readahead.t);
  evict_mark : bool;
}.
Definition new : t := mk [] false.

(** The keys of the cached blocks that the block from [s] to [e] covers, and whether one of
    them covers it, along the cursor. *)
Fixpoint kick_loop (cursor : @BTreeMap.t (RecordsBlock.t * option Readahead.t)) (s e : Z)
    : outcome (list Z * bool) :=
  match cursor with
  | [] => Ret ([], false)
  | (k, (b, _)) :: cursor =>
      be ← RecordsBlock.end_offset b;
      if (s <=? k) && (be <=? e) then
        '(l, covered) ← kick_loop cursor s e; Ret (k :: l, covered)
      else if (k <=? s) && (e <=? be) then Ret ([], true)
      else if e <? k then Ret ([], false)
      else kick_loop cursor s e
  end.

Fixpoint remove_all (m : @BTreeMap.t (RecordsBlock.t * option Readahead.t)) (l : list Z) (kicked : Z)
    : outcome (@BTreeMap.t (RecordsBlock.t * option Readahead.t) * Z) :=
  match l with
  | [] => Ret (m, kicked)
  | k :: l =>
      match BTreeMap.get m k with
      | Some (b, _) =>
          n ← RecordsBlock.size b;
          kicked ← u64_add kicked n;
          remove_all (BTreeMap.remove m k) l kicked
      | None => remove_all m l kicked
      end
  end.

Definition kick_out_covered_block (c : t) (block : RecordsBlock.t) : outcome (t * bool * Z) :=
  let s := RecordsBlock.start_offset block in
  e ← RecordsBlock.end_offset block;
  '(l, covered) ← kick_loop (BTreeMap.upper_bound (cache_map c) s) s e;
  '(m, kicked) ← remove_all (cache_map c) l 0;
  Ret (mk m (evict_mark c), covered, kicked).
End StreamCache.

Module ReadCache.
Section read_cache.
Context {L : LruApi}.

(** [BlockCache] of [cache.rs]. *)
Record t := mk {
  cache_map : gmap Z StreamCache.t; (* by stream id *)
  reading_lru : lru;
  completed_lru : lru;
  max_cache_size : Z;          (* u64 *)
  cache_size : Z;              (* u64 *)
}.

Definition new (max_cache_size : Z) : t := mk ∅ lru_unbounded lru_unbounded max_cache_size 0.

Definition set_map (c : t) (m : gmap Z StreamCache.t) : t :=
  mk m (reading_lru c) (completed_lru c) (max_cache_size c) (cache_size c).
Definition set_lrus (c : t) (reading completed : lru) : t :=
  mk (cache_map c) reading completed (max_cache_size c) (cache_size c).
Definition set_size (c : t) (n : Z) : t :=
  mk (cache_map c) (reading_lru c) (completed_lru c) (max_cache_size c) n.

(** Remove the block of a key that was popped. *)
Definition evict_block (c : t) (key : Z * Z) : outcome t :=
  match cache_map c !! key.1 with
  | None => Ret c
  | Some sc =>
      '(c, sc) ←
        (match BTreeMap.get (StreamCache.cache_map sc) key.2 with
         | Some (b, _) =>
             n ← RecordsBlock.size b;
             size ← uint_sub (cache_size c) n;
             Ret (set_size c size,
                  StreamCache.mk (BTreeMap.remove (StreamCache.cache_map sc) key.2) true)
         | None => Ret (c, sc)
         end);
      Ret (set_map c (match StreamCache.cache_map sc with
                      | [] => delete key.1 (cache_map c)
                      | _ => <[key.1 := sc]> (cache_map c)
                      end))
  end.

(** Pops from one of the lists until there is room ([true]) or the list is empty. *)
Fixpoint evict_loop (fuel : nat) (c : t) (l : lru) (reserve_size : Z) : outcome (t * lru * bool) :=
  match fuel with
  | O => Panic
  | S fuel =>
      total ← u64_add (cache_size c) reserve_size;
      if total <=? max_cache_size c then Ret (c, l, true)
      else
        match lru_pop_lru l with
        | Some (key, l) => c ← evict_block c key; evict_loop fuel c l reserve_size
        | None => Ret (c, l, false)
        end
  end.

Definition evict (c : t) (reserve_size : Z) : outcome t :=
  let reserve_size := Z.min reserve_size (max_cache_size c) in
  total ← u64_add (cache_size c) reserve_size;
  if total <=? max_cache_size c then Ret c
  else
    '(c, completed, room) ← evict_loop (S (lru_len (completed_lru c))) c (completed_lru c) reserve_size;
    let c := set_lrus c (reading_lru c) completed in
    if room : bool then Ret c
    else
      '(c, reading, _) ← evict_loop (S (lru_len (reading_lru c))) c (reading_lru c) reserve_size;
      Ret (set_lrus c reading (completed_lru c)).

Fixpoint block_sizes (l : list RecordsBlock.t) : outcome (list Z) :=
  match l with
  | [] => Ret []
  | b :: l => n ← RecordsBlock.size b; l ← block_sizes l; Ret (n :: l)
  end.

Definition total_size (l : list RecordsBlock.t) : outcome Z :=
  sizes ← block_sizes l; RecordsBlock.sum_u32 0 sizes.

Definition gen_readahead (blocks : list RecordsBlock.t) (sc : StreamCache.t) (now : Z)
    : outcome (option Readahead.t * StreamCache.t) :=
  match last blocks with
  | None => Ret (None, sc)
  | Some b =>
      e ← RecordsBlock.end_offset b;
      n ← total_size blocks;
      let '(size, sc) :=
        if StreamCache.evict_mark sc
        then (block_size_align (n / 2), StreamCache.mk (StreamCache.cache_map sc) false)
        else (block_size_align n, sc) in
      Ret (Some (Readahead.mk e None size now), sc)
  end.

(** The blocks that no cached block covers; those that they cover leave the cache. *)
Fixpoint keep_uncovered (sc : StreamCache.t) (size : Z) (blocks : list RecordsBlock.t)
    : outcome (StreamCache.t * Z * list RecordsBlock.t) :=
  match blocks with
  | [] => Ret (sc, size, [])
  | b :: blocks =>
      '(sc, covered, kicked) ← StreamCache.kick_out_covered_block sc b;
      size ← uint_sub size kicked;
      '(sc, size, kept) ← keep_uncovered sc size blocks;
      Ret (sc, size, if covered : bool then kept else b :: kept)
  end.

Fixpoint push_blocks (stream_id : Z) (l : lru) (blocks : list RecordsBlock.t) : outcome lru :=
  match blocks with
  | [] => Ret l
  | b :: blocks =>
      n ← RecordsBlock.size b;
      push_blocks stream_id (lru_push (stream_id, RecordsBlock.start_offset b) n l) blocks
  end.

Fixpoint put_blocks (sc : StreamCache.t) (size : Z) (readahead : option Readahead.t)
    (blocks : list RecordsBlock.t) : outcome (StreamCache.t * Z) :=
  match blocks with
  | [] => Ret (sc, size)
  | b :: blocks =>
      let k := RecordsBlock.start_offset b in
      size ←
        (match BTreeMap.get (StreamCache.cache_map sc) k with
         | Some (old, None) => n ← RecordsBlock.size old; uint_sub size n
         | _ => Ret size
         end);
      put_blocks
        (StreamCache.mk (BTreeMap.insert (StreamCache.cache_map sc) k (b, readahead))
           (StreamCache.evict_mark sc)) size None blocks
  end.

(** [insert] of blocks that are not empty. *)
Definition insert_blocks (c : t) (stream_id : Z) (blocks : list RecordsBlock.t) (now : Z) : outcome t :=
  blocks_size ← total_size blocks;
  c ← evict c blocks_size;
  size ← u64_add (cache_size c) blocks_size;
  let sc := default StreamCache.new (cache_map c !! stream_id) in
  '(readahead, sc) ← gen_readahead blocks sc now;
  '(sc, size, blocks) ← keep_uncovered sc size blocks;
  reading ← push_blocks stream_id (reading_lru c) (reverse blocks);
  '(sc, size) ← put_blocks sc size readahead blocks;
  Ret (mk (<[stream_id := sc]> (cache_map c)) reading (completed_lru c) (max_cache_size c) size).

Definition insert (c : t) (stream_id : Z) (blocks : list RecordsBlock.t) (now : Z) : outcome t :=
  let blocks := List.filter (fun b => negb (RecordsBlock.is_empty b)) blocks in
  if bool_decide (blocks = []) then Ret c else insert_blocks c stream_id blocks now.

(** The variables of the loop of [get_block]. *)
Record getting := mk_getting {
  start_offset : Z;
  size_hint : Z;
  final_records : list BlockRecord.t;
  final_readahead : option Readahead.t;
  readahead_mark_erase : option Z;
  expect_next : option Z;
  reading : lru;
  completed : lru;
}.

Fixpoint get_loop (cursor : @BTreeMap.t (RecordsBlock.t * option Readahead.t)) (stream_id end_offset now : Z)
    (g : getting) : outcome getting :=
  if (size_hint g =? 0) || (end_offset <=? start_offset g) then Ret g
  else
    match cursor with
    | [] => Ret g
    | (k, (b, readahead)) :: cursor =>
        '(fr, erase) ←
          (match final_readahead g, readahead with
           | None, Some r => r ← re_gen_readahead r now; Ret (Some r, Some k)
           | fr, _ => Ret (fr, readahead_mark_erase g)
           end);
        be ← RecordsBlock.end_offset b;
        if (be <=? start_offset g) || (start_offset g <? RecordsBlock.start_offset b) then
          Ret (mk_getting (start_offset g) (size_hint g) (final_records g) fr erase (expect_next g)
                 (reading g) (completed g))
        else
          records ← RecordsBlock.get_records b (start_offset g) end_offset (size_hint g);
          records_size ← RecordsBlock.sum_u32 0 (BlockRecord.size <$> records);
          match last records with
          | None => Panic (* unwrap *)
          | Some r =>
              records_end ← BlockRecord.end_offset r;
              let key := (stream_id, RecordsBlock.start_offset b) in
              block_size ← RecordsBlock.size b;
              let '(reading, completed) :=
                if records_end =? be
                then (lru_pop key (reading g), lru_push key block_size (completed g))
                else (lru_push key block_size (reading g), completed g) in
              get_loop cursor stream_id end_offset now
                (mk_getting records_end (size_hint g - Z.min records_size (size_hint g))
                   (final_records g ++ records) fr erase (Some be) reading completed)
          end
    end.

(** Returns the cache, the block and what to read ahead. *)
Definition get_block (c : t) (stream_id start end_offset hint now : Z)
    : outcome (t * RecordsBlock.t * option Readahead.t) :=
  match cache_map c !! stream_id with
  | None => Ret (c, RecordsBlock.empty_block start, None)
  | Some sc =>
      g ← get_loop (BTreeMap.upper_bound (StreamCache.cache_map sc) start) stream_id end_offset now
            (mk_getting start hint [] None None None (reading_lru c) (completed_lru c));
      let m := StreamCache.cache_map sc in
      let m :=
        match readahead_mark_erase g with
        | Some k => match BTreeMap.get m k with Some (b, _) => BTreeMap.insert m k (b, None) | None => m end
        | None => m
        end in
      let fr :=
        match final_readahead g, expect_next g with
        | None, Some next =>
            match BTreeMap.get m next with
            | None => Some (Readahead.mk next None BLOCK_SIZE now)
            | Some _ => None
            end
        | fr, _ => fr
        end in
      let c := set_lrus (set_map c (<[stream_id := StreamCache.mk m (StreamCache.evict_mark sc)]> (cache_map c)))
                 (reading g) (completed g) in
      Ret (match final_records g with
           | [] => (c, RecordsBlock.empty_block (start_offset g), None)
           | l => (c, RecordsBlock.new l, fr)
           end)
  end.
End read_cache.
Arguments t : clear implicits.
Arguments getting : clear implicits.
End ReadCache.

(** ** The hot cache: proofs *)

Section hot_cache.
Abbreviation hmap := (gmap (Z * Z) BlockRecord.t).

(** The bytes of the records that the cache holds. *)
Definition held (m : hmap) : Z := map_sum BlockRecord.size m.

Lemma held_insert m k r : m !! k = None -> held (<[k := r]> m) = BlockRecord.size r + held m.
Proof. apply map_sum_insert. Qed.

Lemma held_delete m k r : m !! k = Some r -> held m = BlockRecord.size r + held (delete k m).
Proof. apply map_sum_delete. Qed.

Lemma held_insert_le m k r : held (<[k := r]> m) <= BlockRecord.size r + held m.
Proof.
  destruct (m !! k) as [r'|] eqn:E; [|by rewrite held_insert].
  rewrite (held_delete m k r') by done. rewrite <- insert_delete_eq, held_insert by apply lookup_delete_eq.
  pose proof (size_nonneg r'). lia.
Qed.

Lemma held_nonneg m : 0 <= held m.
Proof. apply map_sum_nonneg, size_nonneg. Qed.

(** [occupied_size] is at least what the cache holds; every entry is in the queue, under the
    offset of its record. *)
Record hot_ok (c : HotCache.t) : Prop := {
  ho_size : held (HotCache.map c) <= HotCache.occupied_size c;
  ho_queue k r : HotCache.map c !! k = Some r -> k ∈ HotCache.fifo_deque c;
  ho_start k r : HotCache.map c !! k = Some r -> BlockRecord.start_offset r = k.2;
}.

Lemma hot_evict max occupied m fifo :
  held m <= occupied -> (forall k r, m !! k = Some r -> k ∈ fifo) ->
  exists occupied' m' fifo', HotCache.evict_loop max occupied m fifo = Ret (occupied', m', fifo') /\
    held m' <= occupied' /\ (forall k r, m' !! k = Some r -> k ∈ fifo') /\ m' ⊆ m /\
    occupied - occupied' = held m - held m' /\ fifo' `suffix_of` fifo /\
    (occupied' < max \/ fifo' = [] /\ m' = ∅) /\ (occupied < max -> m' = m).
Proof.
  revert occupied m. induction fifo as [|k fifo IH]; intros occupied m Hsize Hq; simpl;
    (destruct (Z.leb_spec max occupied) as [Hm|Hm];
     [|eexists _, _, _; split; [done|]; split_and!; auto; lia]).
  - eexists _, _, []. split; [done|].
    assert (m = ∅) as ->. { apply map_eq. intros k. destruct (m !! k) eqn:E; [|done]. apply Hq in E. set_solver. }
    split_and!; auto; lia.
  - destruct (m !! k) as [r|] eqn:E.
    + pose proof (held_delete m k r E) as Hd. pose proof (held_nonneg (delete k m)).
      rewrite uint_sub_Ret by lia. simpl.
      destruct (IH (occupied - BlockRecord.size r) (delete k m))
        as (o & m' & f & -> & ? & ? & ? & ? & [x ->] & ? & _); [lia| |].
      { intros k' r' [Hne H']%lookup_delete_Some. specialize (Hq _ _ H'). set_solver. }
      eexists _, _, _. split; [done|]. split_and!; auto; try lia.
      * etrans; [done|]. apply delete_subseteq.
      * by exists (k :: x).
    + destruct (IH occupied m) as (o & m' & f & -> & ? & ? & ? & ? & [x ->] & ? & _); [done| |].
      { intros k' r' H'. specialize (Hq _ _ H'). set_solver. }
      eexists _, _, _. split; [done|]. split_and!; auto; try lia. by exists (k :: x).
Qed.

Lemma hot_insert_ok c s o d data c' :
  hot_ok c -> HotCache.insert c s o d data = Ret c' -> hot_ok c'.
Proof.
  intros [Hs Hq Ht]. unfold HotCache.insert.
  destruct (hot_evict (HotCache.max_cache_size c) _ _ _ Hs Hq)
    as (o' & m & f & -> & Hs' & Hq' & Hsub & _). simpl.
  intros H. apply bind_Ret_inv in H as (n & [-> _]%uint_add_inv & [= <-]).
  split; simpl.
  - pose proof (held_insert_le m (s, o) (BlockRecord.mk o d data)). lia.
  - intros k r [[<- _]|[_ H]]%lookup_insert_Some; [set_solver|]. apply Hq' in H. set_solver.
  - intros k r [[<- <-]|[_ H]]%lookup_insert_Some; [done|]. by apply (Ht k r), (lookup_weaken m).
Qed.

(** The records of the cache have offsets. *)
Definition hot_records (c : HotCache.t) : Prop :=
  forall k r, HotCache.map c !! k = Some r ->
    BlockRecord.start_offset r = k.2 /\ 0 < BlockRecord.end_offset_delta r /\
    k.2 + BlockRecord.end_offset_delta r < 2 ^ 64.

(** The entries of a stream from an offset on. *)
Definition from_offset (m : hmap) (s o : Z) : hmap :=
  filter (fun e : (Z * Z) * BlockRecord.t => e.1.1 = s /\ o <= e.1.2) m.

Lemma from_offset_less (m : hmap) s o o' r :
  m !! (s, o) = Some r -> o < o' -> (size (from_offset m s o') < size (from_offset m s o))%nat.
Proof.
  intros Hm Ho. apply map_subset_size. split.
  - apply map_subseteq_spec. intros k v [? [? ?]]%map_lookup_filter_Some.
    apply map_lookup_filter_Some. simpl in *. split; [done|]. split; [done|lia].
  - intros Hsub. assert (from_offset m s o !! (s, o) = Some r) as H.
    { by apply map_lookup_filter_Some. }
    apply (lookup_weaken _ _ _ _ H) in Hsub. apply map_lookup_filter_Some in Hsub as [_ [_ ?]]. simpl in *. lia.
Qed.

Lemma hot_get_loop c fuel s o e hint :
  hot_records c -> (size (from_offset (HotCache.map c) s o) < fuel)%nat -> 0 <= hint ->
  exists l y, HotCache.get_loop fuel (HotCache.map c) s o e hint = Ret (y, l) /\ run o l y /\
    Forall (fun r => HotCache.map c !! (s, BlockRecord.start_offset r) = Some r /\
                     BlockRecord.start_offset r < e) l /\
    (e <= y \/ hint <= bytes_of l \/ HotCache.map c !! (s, y) = None).
Proof.
  intros Hrec. revert o hint. induction fuel as [|fuel IH]; intros o hint Hfuel Hh; [lia|]. simpl.
  destruct (Z.leb_spec e o); simpl; [exists [], o; split_and!; try done; by left|].
  destruct (Z.eqb_spec hint 0) as [->|]; simpl.
  { exists [], o. split_and!; try done. right. left. simpl. lia. }
  destruct (HotCache.map c !! (s, o)) as [r|] eqn:E; [|exists [], o; split_and!; try done; by right; right].
  destruct (Hrec _ _ E) as (Hst & Hd & H64). simpl in *. unfold BlockRecord.end_offset.
  rewrite Hst, uint_add_Ret by done. simpl. pose proof (size_nonneg r).
  destruct (IH (o + BlockRecord.end_offset_delta r) (hint - Z.min (BlockRecord.size r) hint))
    as (l & y & -> & Hrun & Hall & Hend); [|lia|].
  { pose proof (from_offset_less _ s o (o + BlockRecord.end_offset_delta r) r E). lia. }
  simpl. exists (r :: l), y. split_and!; try done.
  - constructor; [|done]. rewrite Hst. split; [done|lia].
  - destruct Hend as [?|[?|?]]; [by left| |by right; right]. right. left. simpl. lia.
Qed.

Lemma hot_get_block c s o e hint :
  hot_records c -> 0 <= hint ->
  exists b l y, HotCache.get_block c s o e hint = Ret b /\ RecordsBlock.records b = l /\
    run o l y /\ RecordsBlock.end_offset b = Ret y /\
    Forall (fun r => HotCache.map c !! (s, BlockRecord.start_offset r) = Some r /\
                     BlockRecord.start_offset r < e) l /\
    (e <= y \/ hint <= bytes_of l \/ HotCache.map c !! (s, y) = None).
Proof.
  intros Hrec Hh. unfold HotCache.get_block.
  destruct (hot_get_loop c (S (size (HotCache.map c) + Z.to_nat hint)) s o e hint Hrec)
    as (l & y & -> & Hrun & Hall & Hend); [|done|].
  { assert (size (from_offset (HotCache.map c) s o) <= size (HotCache.map c))%nat; [|lia].
    apply map_subseteq_size, map_filter_subseteq. }
  simpl. eexists _, l, y. split; [done|]. destruct l as [|r l]; split_and!; try done.
  by eapply run_block_end.
Qed.

(** What the hot cache gives is what was appended: the records of the stream that start
    at the offset asked for, one after the other without a gap, each of them in the cache
    and below the end asked for; it stops only at the end or the size asked for, or where
    the cache has no record.  An empty answer is placed at the offset asked for. *)
Theorem hot_cache_get c s o e hint :
  hot_records c -> 0 <= hint ->
  exists b l y, HotCache.get_block c s o e hint = Ret b /\ RecordsBlock.records b = l /\
    run o l y /\ RecordsBlock.end_offset b = Ret y /\
    Forall (fun r => HotCache.map c !! (s, BlockRecord.start_offset r) = Some r /\
                     BlockRecord.start_offset r < e) l /\
    (e <= y \/ hint <= bytes_of l \/ HotCache.map c !! (s, y) = None).
Proof. apply hot_get_block. Qed.

(** The bytes that [occupied_size] counts although the cache does not hold them. *)
Definition leak (c : HotCache.t) : Z := HotCache.occupied_size c - held (HotCache.map c).

(** Fewer bytes are lost than the cache has: a record that is replaced was still held. *)
Lemma hot_insert_Ret c s o d data :
  hot_ok c -> leak c < HotCache.max_cache_size c <= 2 ^ 63 ->
  exists c', HotCache.insert c s o d data = Ret c' /\ hot_ok c' /\
    leak c' < HotCache.max_cache_size c' /\ HotCache.max_cache_size c' = HotCache.max_cache_size c.
Proof.
  intros Hok Hleak. pose proof Hok as [Hs Hq Ht]. unfold leak in *.
  destruct (HotCache.insert c s o d data) as [c'|] eqn:E.
  - exists c'. split; [done|]. split; [by eapply hot_insert_ok|]. revert E. unfold HotCache.insert.
    destruct (hot_evict (HotCache.max_cache_size c) _ _ _ Hs Hq)
      as (o' & m & f & -> & Hs' & _ & _ & Hd & _ & Hstop & _). simpl.
    intros H. apply bind_Ret_inv in H as (n & [-> _]%uint_add_inv & [= <-]). simpl. split; [|done].
    set (v := BlockRecord.mk o d data). destruct (m !! (s, o)) as [r|] eqn:Er.
    + destruct Hstop as [?|[_ ->]]; [|done]. rewrite <- insert_delete_eq, held_insert by apply lookup_delete_eq.
      pose proof (held_nonneg (delete (s, o) m)). lia.
    + rewrite held_insert by done. lia.
  - exfalso. revert E. unfold HotCache.insert.
    destruct (hot_evict (HotCache.max_cache_size c) _ _ _ Hs Hq)
      as (o' & m & f & -> & Hs' & _ & _ & Hd & _ & Hstop & _). simpl.
    assert (BlockRecord.size (BlockRecord.mk o d data) < 2 ^ 32).
    { unfold BlockRecord.size. apply as_uint_range. lia. }
    rewrite uint_add_Ret; [done|]. destruct Hstop as [?|[_ ->]]; [lia|].
    change (held ∅) with 0 in *. lia.
Qed.

(** The hot cache loses capacity for good.  Bytes that are counted but not held are
    never taken off [occupied_size] again, and take room from the records: besides the new
    record an insert keeps less than the size of the cache without them.  There are more of
    them each time a record replaces the one under its key, as it does when a batch is
    appended again to a new range: the size of the old record. *)
Theorem hot_cache_leak c s o d data c' :
  hot_ok c -> HotCache.insert c s o d data = Ret c' ->
  leak c <= leak c' /\
  held (delete (s, o) (HotCache.map c')) <= Z.max 0 (HotCache.max_cache_size c - leak c) /\
  (forall r, HotCache.occupied_size c < HotCache.max_cache_size c ->
     HotCache.map c !! (s, o) = Some r -> leak c' = leak c + BlockRecord.size r).
Proof.
  intros [Hs Hq Ht]. unfold HotCache.insert, leak.
  destruct (hot_evict (HotCache.max_cache_size c) _ _ _ Hs Hq)
    as (o' & m & f & -> & Hs' & _ & Hsub & Hd & _ & Hstop & Hsame). simpl.
  intros H. apply bind_Ret_inv in H as (n & [-> _]%uint_add_inv & [= <-]). simpl.
  set (v := BlockRecord.mk o d data). rewrite delete_insert_eq.
  assert (held (delete (s, o) m) <= held m) as Hdel.
  { destruct (m !! (s, o)) as [r|] eqn:E; [|by rewrite delete_id].
    rewrite (held_delete m _ _ E). pose proof (size_nonneg r). lia. }
  pose proof (held_insert_le m (s, o) v). split_and!; [lia| |].
  - destruct Hstop as [?|[_ ->]]; [lia|]. rewrite delete_empty. change (held ∅) with 0. lia.
  - intros r Hlt Hr. rewrite (Hsame Hlt) in *. rewrite (held_delete _ _ _ Hr).
    rewrite <- insert_delete_eq, held_insert by apply lookup_delete_eq.
    rewrite (held_delete _ _ _ Hr) in Hd. lia.
Qed.

Lemma hot_new_ok max c : HotCache.new max = Ret c -> hot_ok c.
Proof. unfold HotCache.new. case_match; [done|]. intros [= <-]. split; simpl; [done|set_solver..]. Qed.
End hot_cache.

(** ** The cache of blocks: reading *)

(** Aligning a size gives the least multiple of the block size that is not smaller, if that
    is a [u32]. *)
Lemma block_size_align_spec n :
  0 <= n <= 2 ^ 32 - BLOCK_SIZE ->
  block_size_align n mod BLOCK_SIZE = 0 /\ n <= block_size_align n < n + BLOCK_SIZE.
Proof.
  intros Hn. unfold block_size_align. unfold BLOCK_SIZE in *.
  rewrite (proj2 (Z.ltb_lt _ _)) by lia. split; [apply Z_mod_mult|].
  pose proof (Z.div_mod (n + (1024 * 1024 - 1)) (1024 * 1024)).
  pose proof (Z.mod_pos_bound (n + (1024 * 1024 - 1)) (1024 * 1024)). lia.
Qed.

Lemma re_gen_readahead_Ret r now :
  0 <= Readahead.size_hint r <= 2 ^ 31 - BLOCK_SIZE -> exists r', re_gen_readahead r now = Ret r'.
Proof.
  intros Hr. unfold re_gen_readahead.
  assert (block_size_align (Readahead.size_hint r) * 2 < 2 ^ 32).
  { assert (block_size_align (Readahead.size_hint r) <= 2 ^ 31 - BLOCK_SIZE); [|unfold BLOCK_SIZE in *; lia].
    unfold block_size_align. unfold BLOCK_SIZE in *. rewrite (proj2 (Z.ltb_lt _ _)) by lia.
    assert ((Readahead.size_hint r + (1024 * 1024 - 1)) / (1024 * 1024) < 2048); [|lia].
    apply Z.div_lt_upper_bound; lia. }
  repeat case_match; [|by eexists..]. rewrite uint_mul_Ret by lia. by eexists.
Qed.

Section reading.
Context {L : LruApi}.
Abbreviation bmap := (@BTreeMap.t (RecordsBlock.t * option Readahead.t)).

(** The places where a record of the stream may begin or end. *)
Context (cut : Z -> Prop).

Definition whole (r : BlockRecord.t) : Prop :=
  cut (BlockRecord.start_offset r) /\
  cut (BlockRecord.start_offset r + BlockRecord.end_offset_delta r) /\
  forall z, cut z -> z <= BlockRecord.start_offset r \/
    BlockRecord.start_offset r + BlockRecord.end_offset_delta r <= z.

(** A block in the cache: a run of records, under the offset of the first one. *)
Definition block_ok (e : Z * (RecordsBlock.t * option Readahead.t)) : Prop :=
  let '(k, (b, readahead)) := e in
  RecordsBlock.empty_block_offset b = None /\ RecordsBlock.records b <> [] /\
  (exists y, run k (RecordsBlock.records b) y) /\ Forall whole (RecordsBlock.records b) /\
  bytes_of (RecordsBlock.records b) < 2 ^ 32 /\
  (forall r, readahead = Some r -> 0 <= Readahead.size_hint r <= 2 ^ 31 - BLOCK_SIZE).

Lemma sum_sizes acc l :
  0 <= acc -> acc + bytes_of l < 2 ^ 32 ->
  RecordsBlock.sum_u32 acc (BlockRecord.size <$> l) = Ret (acc + bytes_of l).
Proof.
  revert acc. induction l as [|r l IH]; intros acc Hacc Hb; simpl in *; [by rewrite Z.add_0_r|].
  pose proof (size_nonneg r).
  assert (0 <= bytes_of l).
  { clear. induction l as [|r l IH]; simpl; [lia|]. pose proof (size_nonneg r). lia. }
  rewrite uint_add_Ret by lia. simpl. rewrite IH by lia. f_equal. lia.
Qed.

Lemma bytes_of_app l k : bytes_of (l ++ k) = bytes_of l + bytes_of k.
Proof. induction l as [|r l IH]; simpl; lia. Qed.

Lemma bytes_of_nonneg l : 0 <= bytes_of l.
Proof. induction l as [|r l IH]; simpl; [lia|]. pose proof (size_nonneg r). lia. Qed.

(** What the loop has collected: nothing yet, or the records from the one that holds the
    first offset asked for up to [s], which is the end of a record. *)
Definition collected (s0 s : Z) (l : list BlockRecord.t) : Prop :=
  (l = [] /\ s = s0) \/
  (exists x r k, l = r :: k /\ run x l s /\ x <= s0 < x + BlockRecord.end_offset_delta r /\ cut s).

Lemma run_first_whole x l y s r k :
  l = r :: k -> run x l y -> Forall whole l -> x <= s < x + BlockRecord.end_offset_delta r ->
  cut s -> x = s.
Proof.
  intros -> (Hst & _ & _ & _) [Hw _]%Forall_cons_1 Hs Hcut. destruct Hw as (_ & _ & Hw).
  destruct (Hw s Hcut); lia.
Qed.

Lemma run_end_cut x l y : run x l y -> l <> [] -> Forall whole l -> cut y.
Proof.
  intros Hr Hl Hw. destruct l as [|r l _] using rev_ind; [done|].
  apply Forall_app in Hw as [_ [(_ & Hw & _) _]%Forall_cons_1].
  apply run_app in Hr as (c & _ & Hst & _ & _ & <-). by rewrite <- Hst.
Qed.

Lemma block_end k b ra :
  block_ok (k, (b, ra)) -> exists y, run k (RecordsBlock.records b) y /\ k < y /\
    RecordsBlock.end_offset b = Ret y /\ RecordsBlock.start_offset b = k.
Proof.
  intros (Hemp & Hne & (y & Hr) & _). exists y. destruct b as [l off]. simpl in *. subst off.
  split_and!; [done| |by eapply run_block_end|by eapply run_block_start].
  destruct l as [|r l]; [done|]. destruct Hr as (_ & ? & _ & ?%run_le). lia.
Qed.

(** The records that an iteration takes from a block that holds the offset [s]. *)
Lemma block_picks k b ra s0 s e hint l y :
  block_ok (k, (b, ra)) -> run k (RecordsBlock.records b) y -> k <= s < y -> s < e -> 0 < hint ->
  collected s0 s l ->
  exists mid r s', RecordsBlock.get_records b s e hint = Ret mid /\ last mid = Some r /\
    BlockRecord.end_offset r = Ret s' /\ RecordsBlock.sum_u32 0 (BlockRecord.size <$> mid) = Ret (bytes_of mid) /\
    RecordsBlock.size b = Ret (bytes_of (RecordsBlock.records b)) /\
    collected s0 s' (l ++ mid) /\ mid <> [] /\
    Forall (fun r => r ∈ RecordsBlock.records b /\ BlockRecord.start_offset r < e) mid.
Proof.
  intros (_ & Hne & _ & Hw & Hsz & _) Hr Hs He Hh Hcol. unfold RecordsBlock.get_records.
  destruct (get_loop_run k _ y s e hint Hr Hs He Hh) as (mid & x & y' & Hg & Hp & Hx & Hm).
  destruct Hp as (pre & post & Heq & Hpre & Hmid & Hpost & Hfirst & Hbelow & _).
  rewrite Heq in Hw. apply Forall_app in Hw as [_ [Hw _]%Forall_app].
  pose proof Hsz as Hsz'. rewrite Heq, !bytes_of_app in Hsz'. pose proof (bytes_of_nonneg pre). pose proof (bytes_of_nonneg post).
  destruct mid as [|r mid _] using rev_ind; [done|].
  exists (mid ++ [r]), r, y'. split_and!; try done.
  - by rewrite last_snoc.
  - by eapply run_last.
  - rewrite sum_sizes; [done|lia..].
  - unfold RecordsBlock.size. by rewrite sum_sizes.
  - right. assert (cut y') by by eapply run_end_cut. destruct (mid ++ [r]) as [|r0 k0] eqn:E; [done|].
    specialize (Hfirst r0 k0 eq_refl).
    destruct Hcol as [[-> ->]|(x0 & r1 & k1 & -> & Hrun & Hx0 & Hcut)].
    + exists x, r0, k0. rewrite app_nil_l. split_and!; try done; lia.
    + exists x0, r1, (k1 ++ r0 :: k0). split_and!; try done; try lia.
      apply run_app. exists s. split; [done|].
      assert (x = s) as <-; [|done]. eapply (run_first_whole x (r0 :: k0) y' s r0 k0); try done; lia.
  - rewrite Forall_forall in Hbelow |- *. intros r' Hr'. split; [|by apply Hbelow].
    rewrite Heq. clear -Hr'. set_solver.
Qed.

Lemma read_loop cursor sid e now g s0 :
  Forall block_ok cursor -> 0 <= ReadCache.size_hint g ->
  collected s0 (ReadCache.start_offset g) (ReadCache.final_records g) ->
  exists g' l, ReadCache.get_loop cursor sid e now g = Ret g' /\
    ReadCache.final_records g' = ReadCache.final_records g ++ l /\
    collected s0 (ReadCache.start_offset g') (ReadCache.final_records g') /\
    Forall (fun r => (exists k b ra, (k, (b, ra)) ∈ cursor /\ r ∈ RecordsBlock.records b) /\
                     BlockRecord.start_offset r < e) l /\
    (forall k b ra rest y, cursor = (k, (b, ra)) :: rest -> RecordsBlock.end_offset b = Ret y ->
       k <= ReadCache.start_offset g < y -> 0 < ReadCache.size_hint g -> ReadCache.start_offset g < e -> l <> []).
Proof.
  intros Hok. revert g. induction Hok as [|[k [b ra]] cursor Hb Hok IH]; intros g Hh Hcol; simpl;
    (destruct (Z.eqb_spec (ReadCache.size_hint g) 0) as [H0|H0];
     [exists g, []; rewrite app_nil_r; split_and!; try done; intros; lia|]);
    (destruct (Z.leb_spec e (ReadCache.start_offset g)) as [He|He];
     [exists g, []; rewrite app_nil_r; split_and!; try done; intros; lia|]); simpl.
  { exists g, []. rewrite app_nil_r. by split_and!. }
  destruct (block_end _ _ _ Hb) as (y & Hr & Hky & Hend & Hstart).
  set (m := match ReadCache.final_readahead g with None => _ | Some _ => _ end).
  assert (exists fr er, m = Ret (fr, er)) as (fr & er & ->).
  { unfold m. destruct (ReadCache.final_readahead g); [by eexists _, _|]. destruct ra as [r|]; [|by eexists _, _].
    destruct Hb as (_ & _ & _ & _ & _ & Hra). destruct (re_gen_readahead_Ret r now (Hra r eq_refl)) as [r' ->].
    by eexists _, _. }
  simpl. rewrite Hend, Hstart. simpl.
  destruct (Z.leb_spec y (ReadCache.start_offset g)); simpl.
  { eexists _, []. rewrite app_nil_r. split; [done|]. split_and!; try done.
    intros ? ? ? ? ? [= <- <- <- <-]. rewrite Hend. intros [= <-]. lia. }
  destruct (Z.ltb_spec (ReadCache.start_offset g) k); simpl.
  { eexists _, []. rewrite app_nil_r. split; [done|]. split_and!; try done.
    intros ? ? ? ? ? [= <- <- <- <-]. rewrite Hend. intros [= <-]. lia. }
  destruct (block_picks k b ra s0 (ReadCache.start_offset g) e (ReadCache.size_hint g)
    (ReadCache.final_records g) y) as (mid & r & s' & -> & Hlast & Hre & Hsum & Hsize & Hcol' & Hne & Hin);
    [done|done|lia|lia|lia|done|].
  simpl. rewrite Hsum. simpl. rewrite Hlast, Hre. simpl. rewrite Hsize. simpl.
  set (lrus := if s' =? y then _ else _). destruct lrus as [reading completed].
  edestruct IH as (g' & l & -> & Hfr & Hc & Hall & _); [| |]; simpl; [|exact Hcol'|].
  { simpl. lia. }
  exists g', (mid ++ l). split_and!; try done.
  - simpl in Hfr. by rewrite Hfr, (assoc_L (++)).
  - apply Forall_app. split.
    + eapply Forall_impl; [exact Hin|]. intros r' [? ?]. split; [|done]. exists k, b, ra. set_solver.
    + eapply Forall_impl; [exact Hall|]. intros r' [(k' & b' & ra' & ? & ?) ?]. split; [|done].
      exists k', b', ra'. set_solver.
  - intros. by destruct mid.
Qed.

Lemma erase_same (m : bmap) k b ra ra' :
  BTreeMap.sorted m -> BTreeMap.get m k = Some (b, ra) ->
  (fun e => (e.1, e.2.1)) <$> BTreeMap.insert m k (b, ra') = (fun e => (e.1, e.2.1)) <$> m.
Proof.
  induction m as [|[k0 v0] m IH]; simpl; [done|]. intros [Hlt Hs]%BTreeMap.sorted_cons.
  destruct (Z.eqb_spec k k0) as [->|Hne].
  - intros [= ->]. by rewrite Z.ltb_irrefl.
  - intros Hg. rewrite (proj2 (Z.ltb_ge _ _)).
    + csimpl. by rewrite IH.
    + apply BTreeMap.get_elem, Hlt in Hg; [lia|done].
Qed.

Lemma read_get_block c sid sc s e hint now :
  ReadCache.cache_map c !! sid = Some sc -> BTreeMap.sorted (StreamCache.cache_map sc) ->
  Forall block_ok (StreamCache.cache_map sc) -> 0 <= hint ->
  exists c' b readahead, ReadCache.get_block c sid s e hint now = Ret (c', b, readahead) /\
    (RecordsBlock.records b = [] /\ RecordsBlock.end_offset b = Ret s \/
     exists x r l y, RecordsBlock.records b = r :: l /\ run x (r :: l) y /\
       x <= s < x + BlockRecord.end_offset_delta r /\ RecordsBlock.end_offset b = Ret y) /\
    Forall (fun r => (exists k blk ra, (k, (blk, ra)) ∈ StreamCache.cache_map sc /\ r ∈ RecordsBlock.records blk) /\
                     BlockRecord.start_offset r < e) (RecordsBlock.records b) /\
    (forall k blk ra y, BTreeMap.last_le (StreamCache.cache_map sc) s = Some (k, (blk, ra)) ->
       RecordsBlock.end_offset blk = Ret y -> s < y -> s < e -> 0 < hint -> RecordsBlock.records b <> []) /\
    (exists sc', ReadCache.cache_map c' !! sid = Some sc' /\ Forall block_ok (StreamCache.cache_map sc') /\
       (fun e => (e.1, e.2.1)) <$> StreamCache.cache_map sc' = (fun e => (e.1, e.2.1)) <$> StreamCache.cache_map sc).
Proof.
  intros Hsc Hsorted Hok Hh. unfold ReadCache.get_block. rewrite Hsc.
  set (m := StreamCache.cache_map sc) in *.
  destruct (read_loop (BTreeMap.upper_bound m s) sid e now
    (ReadCache.mk_getting s hint [] None None None (ReadCache.reading_lru c) (ReadCache.completed_lru c)) s)
    as (g & l & Hg & Hfr & Hcol & Hall & Hprog); [|done|by left|].
  { rewrite Forall_forall in Hok |- *. eauto using BTreeMap.upper_bound_incl. }
  simpl in Hfr. rewrite Hg. simpl. rewrite Hfr in *.
  set (fr := match ReadCache.final_readahead g with None => _ | _ => _ end). clearbody fr.
  set (m' := match ReadCache.readahead_mark_erase g with Some _ => _ | None => m end).
  assert (Forall block_ok m' /\ (fun e => (e.1, e.2.1)) <$> m' = (fun e => (e.1, e.2.1)) <$> m) as [Hok' Hsame].
  { unfold m'. destruct (ReadCache.readahead_mark_erase g) as [k|]; [|done].
    destruct (BTreeMap.get m k) as [[b ra]|] eqn:Hk; [|done]. split; [|by eapply erase_same].
    rewrite Forall_forall in Hok |- *. intros [k' v'] [[= -> ->]|?]%BTreeMap.insert_elem; [|by apply Hok].
    apply BTreeMap.get_elem, Hok in Hk; [|done]. destruct Hk as (? & ? & ? & ? & ? & _).
    by split_and!. }
  assert (forall k blk ra y, BTreeMap.last_le m s = Some (k, (blk, ra)) ->
    RecordsBlock.end_offset blk = Ret y -> s < y -> s < e -> 0 < hint -> l <> []) as Hne.
  { intros k blk ra y Hl Hy ? ? ?. destruct (BTreeMap.upper_bound_head _ _ _ _ Hsorted Hl) as (? & rest & Hub).
    apply (Hprog _ _ _ _ _ Hub Hy); simpl; lia. }
  assert (Forall (fun r => (exists k blk ra, (k, (blk, ra)) ∈ m /\ r ∈ RecordsBlock.records blk) /\
                     BlockRecord.start_offset r < e) l) as Hin.
  { eapply Forall_impl; [exact Hall|]. intros r [(k & b & ra & ?%BTreeMap.upper_bound_incl & ?) ?]. eauto 10. }
  destruct l as [|r l]; eexists _, _, _; (split; [done|]); simpl.
  - split_and!; try done; [|rewrite lookup_insert_eq; eauto].
    left. destruct Hcol as [[_ ->]|(? & ? & ? & ? & _)]; done.
  - split_and!; try done; [|rewrite lookup_insert_eq; eauto].
    right. destruct Hcol as [[? _]|(x & r' & l' & [= <- <-] & Hrun & Hx & _)]; [done|].
    exists x, r, l, (ReadCache.start_offset g). split; [done|]. split; [exact Hrun|]. split; [lia|].
    by eapply run_block_end.
Qed.

(** Reading from the cache of blocks does not panic, and gives the records from the one
    that holds the first offset asked for on, one after the other without a gap, each of
    them from a cached block and below the end asked for; nothing, placed at that offset,
    only if no cached block holds it.  The cached blocks stay as they are. *)
Theorem read_cache_get c sid sc s e hint now :
  ReadCache.cache_map c !! sid = Some sc -> BTreeMap.sorted (StreamCache.cache_map sc) ->
  Forall block_ok (StreamCache.cache_map sc) -> 0 <= hint ->
  exists c' b readahead, ReadCache.get_block c sid s e hint now = Ret (c', b, readahead) /\
    (RecordsBlock.records b = [] /\ RecordsBlock.end_offset b = Ret s \/
     exists x r l y, RecordsBlock.records b = r :: l /\ run x (r :: l) y /\
       x <= s < x + BlockRecord.end_offset_delta r /\ RecordsBlock.end_offset b = Ret y) /\
    Forall (fun r => (exists k blk ra, (k, (blk, ra)) ∈ StreamCache.cache_map sc /\ r ∈ RecordsBlock.records blk) /\
                     BlockRecord.start_offset r < e) (RecordsBlock.records b) /\
    (forall k blk ra y, BTreeMap.last_le (StreamCache.cache_map sc) s = Some (k, (blk, ra)) ->
       RecordsBlock.end_offset blk = Ret y -> s < y -> s < e -> 0 < hint -> RecordsBlock.records b <> []) /\
    (exists sc', ReadCache.cache_map c' !! sid = Some sc' /\ Forall block_ok (StreamCache.cache_map sc') /\
       (fun e => (e.1, e.2.1)) <$> StreamCache.cache_map sc' = (fun e => (e.1, e.2.1)) <$> StreamCache.cache_map sc).
Proof. apply read_get_block. Qed.
End reading.

(** ** The cache of blocks: its size *)

(** [pop_lru] takes an entry out. *)
Class LruLaws (L : LruApi) : Prop := {
  lru_pop_lru_len l k l' : lru_pop_lru l = Some (k, l') -> lru_len l = S (lru_len l');
}.

Section sizes.
Context {L : LruApi} {LL : LruLaws L}.
Abbreviation bmap := (@BTreeMap.t (RecordsBlock.t * option Readahead.t)).

Definition block_bytes (b : RecordsBlock.t) : Z := bytes_of (RecordsBlock.records b).
Definition stream_bytes (m : bmap) : Z := foldr (fun e n => block_bytes e.2.1 + n) 0 m.
Definition blocks_bytes (l : list RecordsBlock.t) : Z := foldr (fun b n => block_bytes b + n) 0 l.
Definition cached (m : gmap Z StreamCache.t) : Z :=
  map_sum (fun sc => stream_bytes (StreamCache.cache_map sc)) m.

(** A block whose size and end are machine integers. *)
Definition sized (b : RecordsBlock.t) : Prop :=
  block_bytes b < 2 ^ 32 /\ exists y, RecordsBlock.end_offset b = Ret y.
Definition stream_sized (m : bmap) : Prop := BTreeMap.sorted m /\ Forall (fun e => sized e.2.1) m.

Lemma block_bytes_nonneg b : 0 <= block_bytes b.
Proof. apply bytes_of_nonneg. Qed.

Lemma block_size_Ret b : sized b -> RecordsBlock.size b = Ret (block_bytes b).
Proof. intros [? _]. unfold RecordsBlock.size. by rewrite sum_sizes. Qed.

Lemma stream_bytes_nonneg m : 0 <= stream_bytes m.
Proof. induction m as [|[k [b ra]] m IH]; simpl; [done|]. pose proof (block_bytes_nonneg b). lia. Qed.

Lemma stream_bytes_remove (m : bmap) k b ra :
  BTreeMap.get m k = Some (b, ra) -> stream_bytes m = block_bytes b + stream_bytes (BTreeMap.remove m k).
Proof.
  induction m as [|[k0 v0] m IH]; simpl; [done|]. destruct (k =? k0); [by intros [= ->]|].
  intros Hg. simpl. rewrite (IH Hg). lia.
Qed.

Lemma sized_remove (m : bmap) k : stream_sized m -> stream_sized (BTreeMap.remove m k).
Proof.
  intros [Hs Hm]. split; [by apply BTreeMap.sorted_remove|]. rewrite Forall_forall in Hm |- *.
  intros [k' v'] ?%BTreeMap.elem_of_remove. by apply Hm.
Qed.

Lemma sized_get (m : bmap) k b ra : stream_sized m -> BTreeMap.get m k = Some (b, ra) -> sized b.
Proof.
  intros [Hs Hm] Hg%BTreeMap.get_elem; [|done]. rewrite Forall_forall in Hm. by apply (Hm (k, (b, ra))).
Qed.

Lemma kick_loop_Ret (m : bmap) s e :
  Forall (fun e => sized e.2.1) m -> exists l covered, StreamCache.kick_loop m s e = Ret (l, covered).
Proof.
  induction 1 as [|[k [b ra]] m [_ [y Hy]] Hm (l & covered & IH)]; simpl in *; [by eexists _, _|].
  rewrite Hy. simpl. repeat case_match; rewrite ?IH; by eexists _, _.
Qed.

Lemma remove_all_Ret (m : bmap) l kicked :
  stream_sized m -> 0 <= kicked -> kicked + stream_bytes m < 2 ^ 64 ->
  exists m' kicked', StreamCache.remove_all m l kicked = Ret (m', kicked') /\ stream_sized m' /\
    kicked <= kicked' /\ stream_bytes m' + kicked' = stream_bytes m + kicked.
Proof.
  revert m kicked. induction l as [|k l IH]; intros m kicked Hm Hk H64; simpl.
  { exists m, kicked. by split_and!. }
  destruct (BTreeMap.get m k) as [[b ra]|] eqn:E; [|by apply IH].
  pose proof (sized_get _ _ _ _ Hm E) as Hb. rewrite block_size_Ret by done. simpl.
  pose proof (stream_bytes_remove _ _ _ _ E) as Hrem. pose proof (block_bytes_nonneg b).
  pose proof (stream_bytes_nonneg (BTreeMap.remove m k)). rewrite uint_add_Ret by lia. simpl.
  destruct (IH (BTreeMap.remove m k) (kicked + block_bytes b)) as (m' & k' & -> & ? & ? & ?);
    [by apply sized_remove|lia..|]. exists m', k'. split_and!; try done; lia.
Qed.

Lemma sized_upper_bound (m : bmap) k :
  stream_sized m -> Forall (fun e => sized e.2.1) (BTreeMap.upper_bound m k).
Proof. intros [_ Hm]. rewrite Forall_forall in Hm |- *. eauto using BTreeMap.upper_bound_incl. Qed.

Lemma kick_out_Ret sc b :
  stream_sized (StreamCache.cache_map sc) -> sized b -> stream_bytes (StreamCache.cache_map sc) < 2 ^ 64 ->
  exists sc' covered kicked, StreamCache.kick_out_covered_block sc b = Ret (sc', covered, kicked) /\
    stream_sized (StreamCache.cache_map sc') /\ 0 <= kicked /\
    stream_bytes (StreamCache.cache_map sc') + kicked = stream_bytes (StreamCache.cache_map sc).
Proof.
  intros Hm [_ [y Hy]] H64. unfold StreamCache.kick_out_covered_block. rewrite Hy. simpl.
  destruct (kick_loop_Ret (BTreeMap.upper_bound (StreamCache.cache_map sc) (RecordsBlock.start_offset b))
    (RecordsBlock.start_offset b) y) as (l & covered & ->); [by apply sized_upper_bound|]. simpl.
  destruct (remove_all_Ret (StreamCache.cache_map sc) l 0) as (m' & k' & -> & ? & ? & ?); [done|lia..|].
  simpl. eexists _, _, _. split; [done|]. simpl. split_and!; try done; lia.
Qed.

Lemma keep_uncovered_Ret sc size blocks rest :
  stream_sized (StreamCache.cache_map sc) -> Forall sized blocks -> 0 <= rest ->
  stream_bytes (StreamCache.cache_map sc) + rest <= size < 2 ^ 64 ->
  exists sc' size' kept, ReadCache.keep_uncovered sc size blocks = Ret (sc', size', kept) /\
    stream_sized (StreamCache.cache_map sc') /\ kept `sublist_of` blocks /\ size' <= size /\
    size - size' = stream_bytes (StreamCache.cache_map sc) - stream_bytes (StreamCache.cache_map sc').
Proof.
  intros Hm Hb Hrest. revert sc size Hm. induction Hb as [|b blocks Hb Hbs IH]; intros sc size Hm Hle; simpl.
  { exists sc, size, []. split_and!; try done. lia. }
  destruct (kick_out_Ret sc b) as (sc1 & covered & kicked & -> & Hm1 & Hk & Heq); [done|done|lia|]. simpl.
  pose proof (stream_bytes_nonneg (StreamCache.cache_map sc1)). rewrite uint_sub_Ret by lia. simpl.
  destruct (IH sc1 (size - kicked)) as (sc2 & size2 & kept & -> & Hm2 & Hsub & ? & ?); [done|lia|]. simpl.
  eexists _, _, _. split; [done|]. split_and!; try done; try lia.
  destruct covered; [by apply sublist_cons|by apply sublist_skip].
Qed.

Lemma stream_bytes_insert (m : bmap) k b ra :
  BTreeMap.sorted m ->
  stream_bytes (BTreeMap.insert m k (b, ra)) =
    block_bytes b + stream_bytes m -
    match BTreeMap.get m k with Some (old, _) => block_bytes old | None => 0 end.
Proof.
  induction m as [|[k0 [b0 ra0]] m IH]; simpl; [lia|]. intros [Hlt Hs]%BTreeMap.sorted_cons.
  destruct (Z.eqb_spec k k0) as [->|Hne]; simpl.
  - rewrite Z.ltb_irrefl. simpl. lia.
  - destruct (Z.ltb_spec k k0); simpl; [|rewrite IH by done; lia].
    destruct (BTreeMap.get m k) as [[old ra1]|] eqn:E; [|lia].
    apply BTreeMap.get_elem, Hlt in E; [lia|done].
Qed.

Lemma put_blocks_Ret sc size ra blocks rest :
  stream_sized (StreamCache.cache_map sc) -> Forall sized blocks -> 0 <= rest ->
  stream_bytes (StreamCache.cache_map sc) + blocks_bytes blocks + rest <= size ->
  exists sc' size', ReadCache.put_blocks sc size ra blocks = Ret (sc', size') /\
    stream_sized (StreamCache.cache_map sc') /\ size' <= size /\
    stream_bytes (StreamCache.cache_map sc') + rest <= size'.
Proof.
  intros Hm Hb Hrest. revert sc size ra Hm.
  induction Hb as [|b blocks Hb Hbs IH]; intros sc size ra Hm Hle; simpl in *.
  { exists sc, size. split_and!; try done. lia. }
  set (k := RecordsBlock.start_offset b).
  pose proof (stream_bytes_insert (StreamCache.cache_map sc) k b ra (proj1 Hm)) as Hins.
  assert (stream_sized (BTreeMap.insert (StreamCache.cache_map sc) k (b, ra))) as Hm'.
  { destruct Hm as [Hs Hm]. split; [by apply BTreeMap.sorted_insert|]. rewrite Forall_forall in Hm |- *.
    intros [k' v'] [[= -> ->]|?]%BTreeMap.insert_elem; [done|by apply Hm]. }
  pose proof (block_bytes_nonneg b).
  assert (0 <= blocks_bytes blocks).
  { clear. induction blocks as [|b l IH]; simpl; [lia|]. pose proof (block_bytes_nonneg b). lia. }
  destruct (BTreeMap.get (StreamCache.cache_map sc) k) as [[old old_ra]|] eqn:E.
  - pose proof (sized_get _ _ _ _ Hm E) as Hold. pose proof (block_bytes_nonneg old).
    pose proof (stream_bytes_remove _ _ _ _ E).
    pose proof (stream_bytes_nonneg (BTreeMap.remove (StreamCache.cache_map sc) k)).
    destruct old_ra as [?|].
    + rewrite bind_Ret. edestruct IH as (sc' & size' & -> & ? & ? & ?); [exact Hm'|simpl; lia|].
      exists sc', size'. by split_and!.
    + rewrite block_size_Ret by done. rewrite bind_Ret, uint_sub_Ret by lia. rewrite bind_Ret.
      edestruct IH as (sc' & size' & -> & ? & ? & ?); [exact Hm'|simpl; lia|].
      exists sc', size'. split_and!; try done; lia.
  - rewrite bind_Ret. edestruct IH as (sc' & size' & -> & ? & ? & ?); [exact Hm'|simpl; lia|].
    exists sc', size'. by split_and!.
Qed.

(** The whole cache: the size that it counts is at least what it holds. *)
Record sizes_ok (c : ReadCache.t L) : Prop := {
  so_sized k sc : ReadCache.cache_map c !! k = Some sc -> stream_sized (StreamCache.cache_map sc);
  so_size : cached (ReadCache.cache_map c) <= ReadCache.cache_size c;
}.

Lemma cached_insert m k sc :
  m !! k = None -> cached (<[k := sc]> m) = stream_bytes (StreamCache.cache_map sc) + cached m.
Proof. apply (map_sum_insert (fun sc => stream_bytes (StreamCache.cache_map sc))). Qed.

Lemma cached_delete m k sc :
  m !! k = Some sc -> cached m = stream_bytes (StreamCache.cache_map sc) + cached (delete k m).
Proof. apply (map_sum_delete (fun sc => stream_bytes (StreamCache.cache_map sc))). Qed.

Lemma cached_update m k sc :
  cached (<[k := sc]> m) = stream_bytes (StreamCache.cache_map sc) + cached (delete k m).
Proof. apply (map_sum_update (fun sc => stream_bytes (StreamCache.cache_map sc))). Qed.

Lemma cached_nonneg m : 0 <= cached m.
Proof. apply map_sum_nonneg. intros sc. apply stream_bytes_nonneg. Qed.

Lemma evict_block_ok c key :
  sizes_ok c -> exists c', ReadCache.evict_block c key = Ret c' /\ sizes_ok c' /\
    ReadCache.cache_size c' <= ReadCache.cache_size c /\
    ReadCache.max_cache_size c' = ReadCache.max_cache_size c.
Proof.
  intros [Hs Hsize]. unfold ReadCache.evict_block.
  destruct (ReadCache.cache_map c !! key.1) as [sc|] eqn:E; [|by exists c].
  pose proof (Hs _ _ E) as Hsc. pose proof (cached_delete _ _ _ E) as Hdel.
  pose proof (cached_nonneg (delete key.1 (ReadCache.cache_map c))).
  assert (forall sc' size, stream_sized (StreamCache.cache_map sc') ->
    stream_bytes (StreamCache.cache_map sc') + cached (delete key.1 (ReadCache.cache_map c)) <= size ->
    sizes_ok (ReadCache.set_map (ReadCache.set_size c size)
      (match StreamCache.cache_map sc' with
       | [] => delete key.1 (ReadCache.cache_map c)
       | _ => <[key.1 := sc']> (ReadCache.cache_map c)
       end))) as Hput.
  { intros sc' size Hsc' Hle. destruct (StreamCache.cache_map sc') eqn:Em; split; simpl in *.
    - intros k x [_ ?]%lookup_delete_Some. eauto.
    - lia.
    - intros k x [[_ <-]|[_ ?]]%lookup_insert_Some; [by rewrite Em|eauto].
    - rewrite cached_update, Em. simpl. lia. }
  destruct (BTreeMap.get (StreamCache.cache_map sc) key.2) as [[b ra]|] eqn:Eb.
  - pose proof (sized_get _ _ _ _ Hsc Eb) as Hb. pose proof (stream_bytes_remove _ _ _ _ Eb).
    pose proof (stream_bytes_nonneg (BTreeMap.remove (StreamCache.cache_map sc) key.2)).
    pose proof (block_bytes_nonneg b).
    rewrite block_size_Ret, bind_Ret, uint_sub_Ret, !bind_Ret by (done || lia).
    eexists. split; [done|]. split_and!; simpl; try done; [|lia].
    apply (Hput (StreamCache.mk (BTreeMap.remove (StreamCache.cache_map sc) key.2) true)); simpl;
      [by apply sized_remove|lia].
  - rewrite bind_Ret. eexists. split; [done|]. split_and!; simpl; try done.
    apply (Hput sc (ReadCache.cache_size c)); [done|lia].
Qed.

Lemma evict_loop_ok fuel c l n :
  sizes_ok c -> (lru_len l < fuel)%nat -> 0 <= n -> ReadCache.cache_size c + n < 2 ^ 64 ->
  exists c' l' room, ReadCache.evict_loop fuel c l n = Ret (c', l', room) /\ sizes_ok c' /\
    ReadCache.cache_size c' <= ReadCache.cache_size c /\
    ReadCache.max_cache_size c' = ReadCache.max_cache_size c.
Proof.
  revert c l. induction fuel as [|fuel IH]; intros c l Hc Hfuel Hn H64; [lia|]. simpl.
  rewrite uint_add_Ret by done. simpl. case_match; [by eexists _, _, _|].
  destruct (lru_pop_lru l) as [[key l']|] eqn:E; [|by eexists _, _, _].
  apply lru_pop_lru_len in E.
  destruct (evict_block_ok c key Hc) as (c' & -> & Hc' & ? & Hmax). simpl.
  destruct (IH c' l') as (c'' & l'' & room & -> & ? & ? & ?); [done|lia..|].
  eexists _, _, _. split; [done|]. split_and!; [done|lia|congruence].
Qed.

Lemma evict_ok c n :
  sizes_ok c -> 0 <= n -> 0 <= ReadCache.max_cache_size c ->
  ReadCache.cache_size c + n < 2 ^ 64 ->
  exists c', ReadCache.evict c n = Ret c' /\ sizes_ok c' /\
    ReadCache.cache_size c' <= ReadCache.cache_size c /\
    ReadCache.max_cache_size c' = ReadCache.max_cache_size c.
Proof.
  intros Hc Hn Hmax H64. unfold ReadCache.evict.
  set (m := Z.min n (ReadCache.max_cache_size c)). assert (0 <= m <= n) as Hm by (unfold m; lia).
  rewrite uint_add_Ret, bind_Ret by lia. case_match; [by exists c|].
  assert (forall c r d, sizes_ok c -> sizes_ok (ReadCache.set_lrus c r d)) as Hl by (by intros ? ? ? []).
  destruct (evict_loop_ok (S (lru_len (ReadCache.completed_lru c))) c (ReadCache.completed_lru c) m)
    as (c1 & l1 & room & -> & Hc1 & ? & ?); [done|lia..|]. rewrite bind_Ret.
  destruct room; [eexists; split; [done|]; by split_and!; [apply Hl|..]|].
  edestruct (evict_loop_ok (S (lru_len (ReadCache.reading_lru (ReadCache.set_lrus c1 (ReadCache.reading_lru c1) l1)))))
    as (c2 & l2 & room & -> & Hc2 & ? & ?); [by apply Hl|lia|exact (proj1 Hm)|simpl; lia|]. rewrite bind_Ret.
  eexists. split; [done|]. simpl in *. split_and!; [by apply Hl|simpl; lia|simpl; congruence].
Qed.

Lemma total_size_Ret l :
  Forall sized l -> blocks_bytes l < 2 ^ 32 -> ReadCache.total_size l = Ret (blocks_bytes l).
Proof.
  intros Hl Hb. unfold ReadCache.total_size.
  assert (ReadCache.block_sizes l = Ret (block_bytes <$> l)) as ->.
  { clear Hb. induction Hl as [|b l Hs _ IH]; [done|]. simpl. by rewrite block_size_Ret, bind_Ret, IH. }
  simpl. assert (forall acc, 0 <= acc -> acc + blocks_bytes l < 2 ^ 32 ->
    RecordsBlock.sum_u32 acc (block_bytes <$> l) = Ret (acc + blocks_bytes l)) as H; [|by apply H].
  clear. induction l as [|b l IH]; intros acc Hacc Hlt; simpl in *; [by rewrite Z.add_0_r|].
  pose proof (block_bytes_nonneg b).
  assert (0 <= blocks_bytes l).
  { clear. induction l as [|b l IH]; simpl; [lia|]. pose proof (block_bytes_nonneg b). lia. }
  rewrite uint_add_Ret by lia. simpl. rewrite IH by lia. f_equal. lia.
Qed.

Lemma gen_readahead_Ret blocks sc now :
  Forall sized blocks -> blocks_bytes blocks < 2 ^ 32 ->
  exists ra sc', ReadCache.gen_readahead blocks sc now = Ret (ra, sc') /\
    StreamCache.cache_map sc' = StreamCache.cache_map sc.
Proof.
  intros Hb Hlt. unfold ReadCache.gen_readahead. destruct (last blocks) as [b|] eqn:E; [|by eexists _, _].
  apply last_Some_elem_of in E. rewrite Forall_forall in Hb. destruct (Hb _ E) as [_ [y ->]]. simpl.
  rewrite total_size_Ret; [|by apply Forall_forall|done]. simpl.
  destruct (StreamCache.evict_mark sc); by eexists _, _.
Qed.

Lemma push_blocks_Ret sid l blocks :
  Forall sized blocks -> exists l', ReadCache.push_blocks sid l blocks = Ret l'.
Proof.
  intros Hb. revert l. induction Hb as [|b blocks Hs _ IH]; intros l; simpl; [by eexists|].
  rewrite block_size_Ret by done. apply IH.
Qed.

Lemma blocks_bytes_sublist l k : l `sublist_of` k -> blocks_bytes l <= blocks_bytes k.
Proof. induction 1; simpl; [lia..|]. pose proof (block_bytes_nonneg x). lia. Qed.

Lemma sized_sublist l k : l `sublist_of` k -> Forall sized k -> Forall sized l.
Proof.
  induction 1; [done| |]; intros [? ?]%Forall_cons_1; [constructor|]; auto.
Qed.

Lemma blocks_bytes_nonneg l : 0 <= blocks_bytes l.
Proof. induction l as [|b l IH]; simpl; [lia|]. pose proof (block_bytes_nonneg b). lia. Qed.

(** What the other streams hold, with the blocks of a stream, is no more than the counter. *)
Lemma stream_share c sid :
  sizes_ok c ->
  let sc := default StreamCache.new (ReadCache.cache_map c !! sid) in
  stream_sized (StreamCache.cache_map sc) /\
  stream_bytes (StreamCache.cache_map sc) + cached (delete sid (ReadCache.cache_map c)) <= ReadCache.cache_size c.
Proof.
  intros [Hs Hsz]. destruct (ReadCache.cache_map c !! sid) as [x|] eqn:E; simpl.
  - split; [by eapply Hs|]. by rewrite <- (cached_delete _ _ _ E).
  - split; [split; [apply BTreeMap.sorted_nil|constructor]|]. by rewrite delete_id.
Qed.

Lemma insert_blocks_ok c sid bs now :
  sizes_ok c -> Forall sized bs -> blocks_bytes bs < 2 ^ 32 ->
  0 <= ReadCache.max_cache_size c -> ReadCache.cache_size c + 2 ^ 32 < 2 ^ 64 ->
  exists c', ReadCache.insert_blocks c sid bs now = Ret c' /\ sizes_ok c' /\
    ReadCache.cache_size c' <= ReadCache.cache_size c + blocks_bytes bs.
Proof.
  intros Hc Hbs Hlt Hmax H64. unfold ReadCache.insert_blocks.
  pose proof (blocks_bytes_nonneg bs). rewrite total_size_Ret, bind_Ret by done.
  destruct (evict_ok c (blocks_bytes bs)) as (c1 & -> & Hc1 & ? & ?); [done|lia..|]. rewrite bind_Ret.
  rewrite uint_add_Ret, bind_Ret by lia. cbv zeta.
  destruct (stream_share c1 sid Hc1) as [Hsc Hle].
  set (sc := default StreamCache.new (ReadCache.cache_map c1 !! sid)) in *.
  destruct (gen_readahead_Ret bs sc now) as (ra & sc1 & -> & Hmap); [done|lia|]. rewrite bind_Ret.
  rewrite <- Hmap in Hsc, Hle. pose proof (cached_nonneg (delete sid (ReadCache.cache_map c1))).
  destruct (keep_uncovered_Ret sc1 (ReadCache.cache_size c1 + blocks_bytes bs) bs
    (cached (delete sid (ReadCache.cache_map c1)))) as (sc2 & size2 & kept & -> & Hsc2 & Hkept & ? & ?);
    [done|done|done|lia|]. rewrite bind_Ret.
  pose proof (blocks_bytes_sublist _ _ Hkept). assert (Forall sized kept) by (eapply sized_sublist; eauto).
  destruct (push_blocks_Ret sid (ReadCache.reading_lru c1) (reverse kept)) as [rl ->];
    [by apply Forall_reverse|]. rewrite bind_Ret.
  destruct (put_blocks_Ret sc2 size2 ra kept (cached (delete sid (ReadCache.cache_map c1))))
    as (sc3 & size3 & -> & Hsc3 & ? & ?); [done|done|done|lia|]. rewrite bind_Ret.
  eexists. split; [done|]. split; [|simpl; lia]. destruct Hc1 as [Hs1 Hsz1]. split; simpl.
  - intros k x [[_ <-]|[_ ?]]%lookup_insert_Some; [done|]. by eapply Hs1.
  - rewrite cached_update. lia.
Qed.

Lemma cache_insert_ok c sid blocks now :
  sizes_ok c -> Forall sized blocks -> blocks_bytes blocks < 2 ^ 32 ->
  0 <= ReadCache.max_cache_size c -> ReadCache.cache_size c + 2 ^ 32 < 2 ^ 64 ->
  exists c', ReadCache.insert c sid blocks now = Ret c' /\ sizes_ok c' /\
    ReadCache.cache_size c' <= ReadCache.cache_size c + blocks_bytes blocks.
Proof.
  intros Hc Hb Hlt Hmax H64. unfold ReadCache.insert. set (bs := List.filter _ blocks).
  assert (bs `sublist_of` blocks) as Hsub.
  { unfold bs. clear. induction blocks as [|b l IH]; simpl; [done|].
    case_match; [by apply sublist_skip|by apply sublist_cons]. }
  pose proof (blocks_bytes_sublist _ _ Hsub). pose proof (blocks_bytes_nonneg blocks).
  case_bool_decide; [exists c; split_and!; try done; lia|].
  destruct (insert_blocks_ok c sid bs now) as (c' & ? & ? & ?); [done| |lia..|].
  - by eapply sized_sublist.
  - exists c'. split_and!; try done. lia.
Qed.

(** The size counter of the cache of blocks never falls below what the cache holds, so
    that inserting never subtracts too much from it: the insert returns, and keeps the
    invariant. *)
Theorem read_cache_size c sid blocks now :
  sizes_ok c -> Forall sized blocks -> blocks_bytes blocks < 2 ^ 32 ->
  0 <= ReadCache.max_cache_size c -> ReadCache.cache_size c + 2 ^ 32 < 2 ^ 64 ->
  exists c', ReadCache.insert c sid blocks now = Ret c' /\ sizes_ok c' /\
    ReadCache.cache_size c' <= ReadCache.cache_size c + blocks_bytes blocks.
Proof. apply cache_insert_ok. Qed.

(** The cache of blocks counts blocks that it does not keep: inserting a block of which
    a cached one covers more changes nothing in the cache but adds its size to the counter,
    from which it is never taken off. *)
Theorem read_cache_leak c sid sc b k cb ra y be now :
  ReadCache.cache_map c !! sid = Some sc -> stream_sized (StreamCache.cache_map sc) -> sized b ->
  RecordsBlock.records b <> [] -> RecordsBlock.end_offset b = Ret y ->
  BTreeMap.last_le (StreamCache.cache_map sc) (RecordsBlock.start_offset b) = Some (k, (cb, ra)) ->
  RecordsBlock.end_offset cb = Ret be -> y <= be ->
  (k < RecordsBlock.start_offset b \/ y < be) ->
  0 <= ReadCache.cache_size c -> ReadCache.cache_size c + block_bytes b <= ReadCache.max_cache_size c < 2 ^ 64 ->
  exists c', ReadCache.insert c sid [b] now = Ret c' /\
    ReadCache.cache_size c' = ReadCache.cache_size c + block_bytes b /\
    cached (ReadCache.cache_map c') = cached (ReadCache.cache_map c) /\
    StreamCache.cache_map <$> (ReadCache.cache_map c' !! sid) = Some (StreamCache.cache_map sc).
Proof.
  intros Hsc Hm Hb Hne Hy Hlast Hbe Hle Hcov Hsz Hmax. unfold ReadCache.insert. simpl.
  unfold RecordsBlock.is_empty. rewrite (bool_decide_false (RecordsBlock.records b = [])) by done. simpl.
  unfold ReadCache.insert_blocks.
  assert (blocks_bytes [b] = block_bytes b) as Hone by (simpl; lia). pose proof (block_bytes_nonneg b).
  assert (Forall sized [b]) as Hbs by (constructor; [done|constructor]).
  rewrite total_size_Ret, bind_Ret, Hone by (done || (rewrite Hone; apply Hb)).
  unfold ReadCache.evict. rewrite uint_add_Ret, bind_Ret, (proj2 (Z.leb_le _ _)), bind_Ret by lia.
  rewrite uint_add_Ret, bind_Ret, Hsc by lia. simpl default.
  destruct (gen_readahead_Ret [b] sc now) as (r & sc1 & -> & Hmap); [done|rewrite Hone; apply Hb|].
  rewrite bind_Ret. simpl ReadCache.keep_uncovered.
  unfold StreamCache.kick_out_covered_block. rewrite Hy, bind_Ret, Hmap.
  destruct (BTreeMap.upper_bound_head _ _ _ _ (proj1 Hm) Hlast) as (Hk & rest & ->). simpl. rewrite Hbe. simpl.
  rewrite (proj2 (andb_false_iff _ _)) by (rewrite !Z.leb_gt; lia).
  rewrite (proj2 (Z.leb_le k _)), (proj2 (Z.leb_le y be)) by lia. simpl.
  rewrite uint_sub_Ret, !bind_Ret by lia. cbv iota zeta. rewrite reverse_nil. simpl.
  eexists. split; [done|]. simpl. split_and!; [lia| |].
  - rewrite cached_update, (cached_delete _ _ _ Hsc). done.
  - by rewrite lookup_insert_eq.
Qed.
End sizes.

(** ** Witnesses *)

Module HotCacheExample.
Definition data (n : nat) : list (list byte) := [replicate n Byte.x41].
Definition cache (m : outcome HotCache.t) : HotCache.t :=
  match m with Ret c => c | Panic => HotCache.mk 0 0 ∅ [] end.
Definition c0 : HotCache.t := cache (HotCache.new 4096).
Definition c1 : HotCache.t := cache (HotCache.insert c0 7 0 2 (data 20)).
Definition c2 : HotCache.t := cache (HotCache.insert c1 7 2 3 (data 20)).
Definition c3 : HotCache.t := cache (HotCache.insert c2 7 2 3 (data 20)).

Lemma c2_ok : hot_ok c2.
Proof.
  apply (hot_insert_ok c1 7 2 3 (data 20)); [|by vm_compute].
  apply (hot_insert_ok c0 7 0 2 (data 20)); [|by vm_compute].
  by apply (hot_new_ok 4096).
Qed.
End HotCacheExample.

Lemma hot_cache_get_witness :
  exists b l y, HotCache.get_block HotCacheExample.c2 7 0 4 1000 = Ret b /\ RecordsBlock.records b = l /\
    run 0 l y /\ RecordsBlock.end_offset b = Ret y /\
    Forall (fun r => HotCache.map HotCacheExample.c2 !! (7, BlockRecord.start_offset r) = Some r /\
                     BlockRecord.start_offset r < 4) l /\
    (4 <= y \/ 1000 <= bytes_of l \/ HotCache.map HotCacheExample.c2 !! (7, y) = None).
Proof.
  apply (hot_cache_get HotCacheExample.c2 7 0 4 1000); [|lia].
  assert (HotCache.map HotCacheExample.c2 =
    <[(7, 2) := BlockRecord.mk 2 3 (HotCacheExample.data 20)]>
     (<[(7, 0) := BlockRecord.mk 0 2 (HotCacheExample.data 20)]> (∅ : gmap (Z * Z) BlockRecord.t))) as Hm
    by by vm_compute.
  intros k r. rewrite Hm.
  intros [[<- <-]|[_ [[<- <-]|[_ ?]]%lookup_insert_Some]]%lookup_insert_Some; [simpl; lia..|done].
Defined.

Lemma hot_cache_leak_witness :
  leak HotCacheExample.c2 <= leak HotCacheExample.c3 /\
  held (delete (7, 2) (HotCache.map HotCacheExample.c3)) <= Z.max 0 (4096 - leak HotCacheExample.c2) /\
  (forall r, HotCache.occupied_size HotCacheExample.c2 < 4096 ->
     HotCache.map HotCacheExample.c2 !! (7, 2) = Some r ->
     leak HotCacheExample.c3 = leak HotCacheExample.c2 + BlockRecord.size r).
Proof.
  apply (hot_cache_leak HotCacheExample.c2 7 2 3 (HotCacheExample.data 20) HotCacheExample.c3
           HotCacheExample.c2_ok). by vm_compute.
Defined.

(** The list of the keys, least recently used first. *)
#[export] Instance list_lru : LruApi := {|
  lru := list ((Z * Z) * Z);
  lru_unbounded := [];
  lru_push k v l := List.filter (fun e => negb (bool_decide (e.1 = k))) l ++ [(k, v)];
  lru_pop k l := List.filter (fun e => negb (bool_decide (e.1 = k))) l;
  lru_pop_lru l := match l with [] => None | (k, _) :: l => Some (k, l) end;
  lru_len l := length l;
|}.
#[export] Instance list_lru_laws : LruLaws list_lru.
Proof. constructor. intros [|[k v] l]; simpl; [done|]. by intros ? ? [= <- <-]. Qed.

Module ReadCacheExample.
Definition r (o : Z) : BlockRecord.t := BlockRecord.mk o 10 [ascii_bytes "record"].
Definition b : RecordsBlock.t := RecordsBlock.new [r 0; r 10; r 20].
Definition part : RecordsBlock.t := RecordsBlock.new [r 10].
Definition cache (m : outcome (ReadCache.t list_lru)) : ReadCache.t list_lru :=
  match m with Ret c => c | Panic => ReadCache.new 0 end.
Definition c0 : ReadCache.t list_lru := ReadCache.new 1000.
Definition c1 : ReadCache.t list_lru := cache (ReadCache.insert c0 7 [b] 0).
Definition sc : StreamCache.t := StreamCache.mk [(0, (b, Some (Readahead.mk 30 None 1048576 0)))] false.
Definition cut (z : Z) : Prop := z mod 10 = 0.

Lemma sized_b : sized b.
Proof. split; [by vm_compute|]. by exists 30. Qed.
Lemma sized_part : sized part.
Proof. split; [by vm_compute|]. by exists 20. Qed.
Lemma sc_sized : stream_sized (StreamCache.cache_map sc).
Proof. split; [repeat constructor|]. constructor; [exact sized_b|constructor]. Qed.
Lemma whole_r o : cut o -> whole cut (r o).
Proof.
  unfold whole, cut. simpl. intros Ho. split_and!; [done|rewrite Z.add_mod, Ho; done|].
  intros z Hz. pose proof (Z.div_mod o 10). pose proof (Z.div_mod z 10). lia.
Qed.
Lemma c1_map : ReadCache.cache_map c1 !! 7 = Some sc.
Proof. by vm_compute. Qed.
End ReadCacheExample.

Lemma read_cache_get_witness :
  exists c' b readahead, ReadCache.get_block ReadCacheExample.c1 7 15 25 1000 0 = Ret (c', b, readahead) /\
    (RecordsBlock.records b = [] /\ RecordsBlock.end_offset b = Ret 15 \/
     exists x r l y, RecordsBlock.records b = r :: l /\ run x (r :: l) y /\
       x <= 15 < x + BlockRecord.end_offset_delta r /\ RecordsBlock.end_offset b = Ret y).
Proof.
  destruct (read_cache_get ReadCacheExample.cut ReadCacheExample.c1 7 ReadCacheExample.sc 15 25 1000 0
    ReadCacheExample.c1_map (proj1 ReadCacheExample.sc_sized)) as (c' & b & ra & Hg & Hb & _); [|lia|].
  - constructor; [|constructor]. split_and!; [done|done| | |by vm_compute|].
    + exists 30. by vm_compute.
    + repeat (constructor; [apply ReadCacheExample.whole_r; by vm_compute|]). constructor.
    + intros r [= <-]. by vm_compute.
  - eauto 10.
Defined.

Lemma read_cache_size_witness :
  exists c', ReadCache.insert ReadCacheExample.c0 7 [ReadCacheExample.b] 0 = Ret c' /\ sizes_ok c' /\
    ReadCache.cache_size c' <= 0 + blocks_bytes [ReadCacheExample.b].
Proof.
  apply (read_cache_size ReadCacheExample.c0 7 [ReadCacheExample.b] 0).
  - split; simpl; [intros ? ?; by rewrite lookup_empty|done].
  - constructor; [exact ReadCacheExample.sized_b|constructor].
  - by vm_compute.
  - by vm_compute.
  - by vm_compute.
Defined.

Lemma read_cache_leak_witness :
  exists c', ReadCache.insert ReadCacheExample.c1 7 [ReadCacheExample.part] 1 = Ret c' /\
    ReadCache.cache_size c' = ReadCache.cache_size ReadCacheExample.c1 + block_bytes ReadCacheExample.part /\
    cached (ReadCache.cache_map c') = cached (ReadCache.cache_map ReadCacheExample.c1) /\
    StreamCache.cache_map <$> (ReadCache.cache_map c' !! 7) = Some (StreamCache.cache_map ReadCacheExample.sc).
Proof.
  apply (read_cache_leak ReadCacheExample.c1 7 ReadCacheExample.sc ReadCacheExample.part 0 ReadCacheExample.b
           (Some (Readahead.mk 30 None 1048576 0)) 20 30 1 ReadCacheExample.c1_map ReadCacheExample.sc_sized
           ReadCacheExample.sized_part); try (by vm_compute).
  by left.
Defined.
