(* ===== verification/Replication.v ===== *)
(** * The replication client: replicas and ranges

    [components/replication/src/stream/replication_replica.rs] and [replication_range.rs]:
    a range appends a batch to all of its replicas, each of which sends it to its range
    server and tries again; the range confirms what enough replicas have confirmed.

    The client is single-threaded, and its tasks interleave where they wait: an operation
    that waits is cut into the parts between its waits.  The task that sends a batch runs
    [Replica.loop_head] to its request and [Replica.respond] with the response; [seal] of a
    range runs [Range.seal_start], then [seal_pd_done] or [seal_replicas_done].  The answers
    of the range servers and of the placement driver are arguments. *)

From S2P Require Import Prelude Bytes Model Record RecordsBlock ReplicaCache.

(** ** [components/model/src/error.rs], and codes of the protocol *)

Module ErrorCode.
Definition ERROR_CODE_UNSPECIFIED : Z := 0.
Definition DECODE : Z := 2.
Definition UNEXPECTED : Z := 3.
Definition OK : Z := 1200.
Definition BAD_REQUEST : Z := 1400.
Definition RANGE_ALREADY_SEALED : Z := 1460.
Definition RANGE_NOT_FOUND : Z := 1462.
Definition OFFSET_OUT_OF_RANGE_BOUNDS : Z := 1463.
Definition OBJECT_NOT_FOUND : Z := 1472.
Definition NO_MATCH_RECORDS_IN_OBJECT : Z := 1473.
Definition OBJECT_OPERATOR_UNINITIALIZED : Z := 1474.
Definition OBJECT_PARSE_ERROR : Z := 1475.
Definition RECORDS_BLOCKS_NOT_CONTINUOUS : Z := 1477.
Definition STREAM_ALREADY_CLOSED : Z := 1478.
Definition REPLICA_NOT_ENOUGH : Z := 1479.
Definition RECORDS_PARSE_ERROR : Z := 1480.
Definition ALL_REPLICAS_FETCH_FAILED : Z := 1481.
Definition RPC_TIMEOUT : Z := 1482.
Definition BAD_ADDRESS : Z := 1483.
Definition CONNECT_REFUSED : Z := 1484.
Definition CONNECT_FAIL : Z := 1485.
Definition CONNECT_TIMEOUT : Z := 1486.
Definition STREAM_NOT_EXIST : Z := 1488.
Definition EXPIRED_STREAM_EPOCH : Z := 1489.
Definition PD_INTERNAL_SERVER_ERROR : Z := 1500.
Definition PD_NOT_LEADER : Z := 1503.
Definition PD_COMPACTED : Z := 1504.
Definition RS_INTERNAL_SERVER_ERROR : Z := 2500.
End ErrorCode.

Module EsError.
Record t := mk { code : Z; message : string }.
Definition new (code : Z) (message : string) : t := mk code message.
Definition unexpected (message : string) : t := mk ErrorCode.UNEXPECTED message.
End EsError.

(** ** [replication_replica.rs] *)

Module Replica.
Record t := mk {
  metadata : RangeMetadata.t;
  confirm_offset : Z;          (* u64 *)
  range_server : RangeServer.t;
  corrupted : bool;
  writable : bool;
}.

Definition new (metadata : RangeMetadata.t) (range_server : RangeServer.t) : t :=
  mk metadata (RangeMetadata.start metadata) range_server false true.

Definition set_confirm (r : t) (offset : Z) : t :=
  mk (metadata r) offset (range_server r) (corrupted r) (writable r).
Definition set_corrupted (r : t) : t :=
  mk (metadata r) (confirm_offset r) (range_server r) true (writable r).
Definition set_readonly (r : t) : t :=
  mk (metadata r) (confirm_offset r) (range_server r) (corrupted r) false.

(** [client] tells whether the client is still there. *)
Definition get_client (client : bool) : result unit EsError.t :=
  if client then Ok () else Err (EsError.new ErrorCode.UNEXPECTED "client was dropped").

(** The spawned task of an append. *)
Record task := mk_task {
  bytes : list (list byte);
  base_offset : Z;             (* u64 *)
  last_offset : Z;             (* u64 *)
  attempts : Z;                (* i32 *)
}.

Definition append (r : t) (client : bool) (bytes : list (list byte)) (base_offset last_offset : Z)
    : t * option task :=
  match get_client client with
  | Err _ => (set_corrupted r, None)
  | Ok _ => (r, Some (mk_task bytes base_offset last_offset 1))
  end.

(** Where the task goes on: it waits for the response to the request that it sent, sleeps
    before it tries again, or has ended, having called [ack] so many times. *)
Inductive next :=
| Requested (tk : task)
| Sleeping (tk : task)
| Finished (acks : nat).

Definition loop_head (r : t) (tk : task) : t * next :=
  if negb (writable r) then (r, Finished 1)
  else if corrupted r then (r, Finished 2)
  else if 3 <? attempts tk then (set_corrupted r, Finished 1)
  else (r, Requested tk).

Definition retry (tk : task) : task :=
  mk_task (bytes tk) (base_offset tk) (last_offset tk) (attempts tk + 1).

(** The response holds the status codes of its entries. *)
Definition respond (r : t) (tk : task) (res : result (list Z) EsError.t) : t * next :=
  match res with
  | Ok [code] =>
      if negb (code =? ErrorCode.OK) then (r, Sleeping (retry tk))
      else (if confirm_offset r <? last_offset tk then set_confirm r (last_offset tk) else r, Finished 1)
  | Ok _ => (r, Sleeping (retry tk))
  | Err _ => (r, Sleeping (retry tk))
  end.

(** The request of [seal]: the metadata with the end offset, if there is one. *)
Definition seal_start (r : t) (client : bool) (end_offset : option Z)
    : t * result RangeMetadata.t EsError.t :=
  let r := set_readonly r in
  match get_client client with
  | Err e => (r, Err e)
  | Ok _ =>
      (r, Ok (match end_offset with
              | Some e => RangeMetadata.set_end (metadata r) e
              | None => metadata r
              end))
  end.

Definition seal_done (r : t) (res : result RangeMetadata.t EsError.t) : t * result Z EsError.t :=
  match res with
  | Ok metadata =>
      match RangeMetadata.end_ metadata with
      | None => (r, Err (EsError.new ErrorCode.UNEXPECTED "expect seal response contain end_offset"))
      | Some e => (set_confirm r e, Ok e)
      end
  | Err e => (r, Err e)
  end.

(** The request of [fetch]: offset, limit and [max_bytes]. *)
Definition fetch_request (r : t) (client : bool) (start_offset end_offset batch_max_bytes : Z)
    : result (RangeMetadata.t * Z * Z * option Z) EsError.t :=
  match get_client client with
  | Err e => Err e
  | Ok _ =>
      Ok (metadata r, start_offset, end_offset,
          if 0 <? batch_max_bytes then Some batch_max_bytes else None)
  end.
End Replica.

(** ** [replication_range.rs] *)

(** [RecordBatch::last_offset_delta] is an [i32] as [usize]. *)
Definition last_offset_delta (rb : RecordBatch.t) : Z :=
  as_uint 64 (RecordBatchMetaT.last_offset_delta (RecordBatch.metadata rb)).

Definition vec_bytes_to_bytes (v : list (list byte)) : list byte := concat v.

Section record_batch.
Context {M : MetaApi}.
(** The order in which a [HashMap] is iterated. *)
Context (iterate : gmap string string -> list (string * string)).

(** [RecordBatch::new_builder] and its setters with [build], which finds all fields. *)
Definition rebase (record_batch : RecordBatch.t) (base_offset stream_id range_index : Z) : RecordBatch.t :=
  let m := RecordBatch.metadata record_batch in
  RecordBatch.mk
    (RecordBatchMetaT.mk (as_sint 64 stream_id) (as_sint 32 range_index) (RecordBatchMetaT.flags m)
       (as_sint 64 base_offset) (as_sint 32 (last_offset_delta record_batch))
       (RecordBatchMetaT.base_timestamp m)
       (match RecordBatchMetaT.properties m with
        | None | Some [] => None
        | Some l => Some (iterate (foldl (fun acc kv => <[kv.1 := kv.2]> acc) ∅ l))
        end))
    (RecordBatch.payload record_batch).

Definition record_batch_to_bytes (record_batch : RecordBatch.t) (base_offset stream_id range_index : Z)
    `{B : BytesApi} : outcome (list (list byte)) :=
  '(bytes, _) ← FlatRecordBatch.encode
                  (FlatRecordBatch.init_from_struct (rebase record_batch base_offset stream_id range_index));
  Ret bytes.
End record_batch.

Module FetchResultSet.
Record t := mk { payload : option (list byte); object_metadata_list : option (list ObjectMetadata.t) }.
End FetchResultSet.

(** [stream/mod.rs] *)
Inductive FetchDataset :=
| Full (blocks : list RecordsBlock.t)
| Partial (blocks : list RecordsBlock.t)
| Mixin (blocks : list RecordsBlock.t) (objects : list ObjectMetadata.t)
| Overflow (blocks : list RecordsBlock.t).

Module Range.
Definition CORRUPTED_FLAG : Z := 1.
Definition SEALING_FLAG : Z := 2.
Definition SEALED_FLAG : Z := 4.

Record t := mk {
  metadata : RangeMetadata.t;
  replicas : list Replica.t;
  confirm_offset : Z;          (* u64, exclusive *)
  next_offset : Z;             (* u64 *)
  open_for_write : bool;
  status : Z;                  (* u32 *)
  sticky_read_index : Z;       (* u64 *)
}.

Definition new (metadata : RangeMetadata.t) (open_for_write : bool) : t :=
  let confirm_offset := default (RangeMetadata.start metadata) (RangeMetadata.end_ metadata) in
  let status := match RangeMetadata.end_ metadata with Some _ => SEALED_FLAG | None => 0 end in
  mk metadata (Replica.new metadata <$> RangeMetadata.replica metadata) confirm_offset confirm_offset
     open_for_write status 0.

Definition set_replicas (r : t) (l : list Replica.t) : t :=
  mk (metadata r) l (confirm_offset r) (next_offset r) (open_for_write r) (status r) (sticky_read_index r).
Definition set_confirm (r : t) (offset : Z) : t :=
  mk (metadata r) (replicas r) offset (next_offset r) (open_for_write r) (status r) (sticky_read_index r).
Definition set_next (r : t) (offset : Z) : t :=
  mk (metadata r) (replicas r) (confirm_offset r) offset (open_for_write r) (status r) (sticky_read_index r).
Definition set_status (r : t) (s : Z) : t :=
  mk (metadata r) (replicas r) (confirm_offset r) (next_offset r) (open_for_write r) s (sticky_read_index r).
Definition set_sticky (r : t) (n : Z) : t :=
  mk (metadata r) (replicas r) (confirm_offset r) (next_offset r) (open_for_write r) (status r) n.

Definition erase_sealing (r : t) : t := set_status r (Z.land (status r) (Z.lnot SEALING_FLAG)).
Definition mark_sealed (r : t) : t := erase_sealing (set_status r (Z.lor (status r) SEALED_FLAG)).
Definition is_sealing (r : t) : bool := negb (Z.land (status r) SEALING_FLAG =? 0).
Definition mark_sealing (r : t) : t := set_status r (Z.lor (status r) SEALING_FLAG).
Definition mark_corrupted (r : t) : t := set_status r (Z.lor (status r) CORRUPTED_FLAG).
Definition is_sealed (r : t) : bool := negb (Z.land (status r) SEALED_FLAG =? 0).
Definition is_writable (r : t) : bool := (status r =? 0) && open_for_write r.
Definition start_offset (r : t) : Z := RangeMetadata.start (metadata r).

(** [sorted().rev().nth(n)] and [sorted().nth(n)]. *)
Definition nth_largest (l : list Z) (n : nat) : option Z := reverse (merge_sort Z.le l) !! n.
Definition nth_smallest (l : list Z) (n : nat) : option Z := merge_sort Z.le l !! n.

Definition calculate_confirm_offset0 (replicas : list Replica.t) (metadata : RangeMetadata.t)
    : outcome (result Z EsError.t) :=
  match replicas with
  | [] => Ret (Err (EsError.new ErrorCode.REPLICA_NOT_ENOUGH "cal confirm offset fail, replicas is empty"))
  | _ =>
      confirm_offset_index ← uint_sub (RangeMetadata.ack_count metadata) 1;
      Ret (match nth_largest
                   (Replica.confirm_offset <$> List.filter (fun r => negb (Replica.corrupted r)) replicas)
                   (Z.to_nat confirm_offset_index) with
           | Some offset => Ok offset
           | None => Err (EsError.new ErrorCode.REPLICA_NOT_ENOUGH
                            "cal confirm offset fail, replicas is not enough")
           end)
  end.

Definition calculate_confirm_offset (r : t) : outcome (result Z EsError.t) :=
  calculate_confirm_offset0 (replicas r) (metadata r).

(** Returns whether the callback of the stream is called. *)
Definition try_ack (r : t) : outcome (t * bool) :=
  if negb (is_writable r) then Ret (r, false)
  else
    res ← calculate_confirm_offset r;
    Ret (match res with
         | Ok new_confirm_offset =>
             if confirm_offset r <? new_confirm_offset then (set_confirm r new_confirm_offset, true)
             else (r, false)
         | Err _ => (mark_corrupted r, true)
         end).

Section append.
Context {B : BytesApi} {M : MetaApi}.
Context (iterate : gmap string string -> list (string * string)).

(** The tasks are those that the replicas spawn. *)
Fixpoint append_replicas (l : list Replica.t) (client : bool) (bytes : list (list byte)) (base last : Z)
    : list Replica.t * list (option Replica.task) :=
  match l with
  | [] => ([], [])
  | r :: l =>
      let '(r, tk) := Replica.append r client bytes base last in
      let '(l, tks) := append_replicas l client bytes base last in
      (r :: l, tk :: tks)
  end.

Definition append (r : t) (cache : HotCache.t) (client : bool) (record_batch : RecordBatch.t) (base_offset : Z)
    : outcome (t * HotCache.t * list (option Replica.task)) :=
  let last_offset_delta := as_uint 32 (last_offset_delta record_batch) in
  if negb (next_offset r =? base_offset) then Panic
  else
  next ← u64_add base_offset last_offset_delta;
  let r := set_next r next in
  let stream_id := RangeMetadata.stream_id (metadata r) in
  bytes ← record_batch_to_bytes iterate record_batch base_offset stream_id
            (as_uint 32 (RangeMetadata.index (metadata r)));
  cache ← HotCache.insert cache stream_id base_offset last_offset_delta [vec_bytes_to_bytes bytes];
  let '(l, tasks) := append_replicas (replicas r) client bytes base_offset next in
  Ret (set_replicas r l, cache, tasks).
End append.

(** *** Sealing *)

Inductive seal_next :=
| SealReturn (res : result Z EsError.t)
| SealWait                          (* for the running seal to complete *)
| SealPd (end_offset : Z)           (* for the placement driver *)
| SealReplicas.                     (* for the replicas *)

Definition seal_start (r : t) : t * seal_next :=
  if is_sealed r then (r, SealReturn (Ok (confirm_offset r)))
  else if is_sealing r then (r, SealWait)
  else
    let r := mark_sealing r in
    if open_for_write r then (r, SealPd (confirm_offset r)) else (r, SealReplicas).

(** [get_client] and the request of [placement_driver_seal]. *)
Definition placement_driver_seal (r : t) (client : bool) (end_offset : Z)
    : result RangeMetadata.t EsError.t :=
  if client then Ok (RangeMetadata.set_end (metadata r) end_offset)
  else Err (EsError.new ErrorCode.UNEXPECTED "range get client fail, client is dropped").

(** The placement driver has answered.  Returns the result, which the waiting calls get as
    well if there is one to broadcast; a range that is open for write then seals its
    replicas with that end offset in a task of its own. *)
Definition seal_pd_done (r : t) (end_offset : Z) (res : result unit EsError.t)
    : t * result Z EsError.t * option Z :=
  match res with
  | Ok _ =>
      let r := mark_sealed r in
      let r := if open_for_write r then r else set_confirm r end_offset in
      (r, Ok end_offset, Some end_offset)
  | Err e => (erase_sealing r, Err e, None)
  end.

(** [replicas_seal]: a task per replica, which sends its request and gets an answer, and the
    end when all tasks have ended. *)
Definition replica_seal_start (r : t) (i : nat) (client : bool) (end_offset : option Z)
    : t * result RangeMetadata.t EsError.t :=
  match replicas r !! i with
  | None => (r, Err (EsError.unexpected "no replica"))
  | Some x =>
      let '(x, req) := Replica.seal_start x client end_offset in
      (set_replicas r (<[i := x]> (replicas r)), req)
  end.

Definition replica_seal_done (r : t) (i : nat) (res : result RangeMetadata.t EsError.t)
    : t * option Z :=
  match replicas r !! i with
  | None => (r, None)
  | Some x =>
      let '(x, res) := Replica.seal_done x res in
      (set_replicas r (<[i := x]> (replicas r)), match res with Ok e => Some e | Err _ => None end)
  end.

Definition replicas_seal0 (end_offsets : list Z) (replica_count ack_count : Z)
    : outcome (result Z EsError.t) :=
  n ← uint_sub replica_count ack_count;
  Ret (match nth_smallest end_offsets (Z.to_nat n) with
       | Some e => Ok e
       | None => Err (EsError.new ErrorCode.REPLICA_NOT_ENOUGH "seal fail, replica is not enough")
       end).

(** All replicas have answered a seal of a range that was created by another stream. *)
Definition seal_replicas_done (r : t) (end_offsets : list Z) : outcome (t * seal_next) :=
  res ← replicas_seal0 end_offsets (RangeMetadata.replica_count (metadata r))
          (RangeMetadata.ack_count (metadata r));
  Ret (match res with
       | Ok e => (r, SealPd e)
       | Err e => (erase_sealing r, SealReturn (Err e))
       end).

(** *** Fetching *)

Section fetch.
Context {B : BytesApi} {M : MetaApi}.

Record fetching := mk_fetching { read_times : Z; last_read_err : option EsError.t }.

Inductive fetch_next :=
| FetchReplica (i : nat) (f : fetching)
| FetchReturn (res : result FetchDataset EsError.t).

(** The head of the loop. *)
Definition fetch_loop (r : t) (f : fetching) : fetch_next :=
  let read_times := read_times f + 1 in
  let replicas_len := Z.of_nat (length (replicas r)) in
  if replicas_len <? read_times then
    FetchReturn (Err (default (EsError.new ErrorCode.ALL_REPLICAS_FETCH_FAILED "all replicas fetch fail")
                        (last_read_err f)))
  else FetchReplica (Z.to_nat (sticky_read_index r mod replicas_len)) (mk_fetching read_times (last_read_err f)).

Definition fetch_respond (r : t) (f : fetching) (end_offset : Z) (res : result FetchResultSet.t EsError.t)
    : outcome (t * fetch_next) :=
  match res with
  | Err e =>
      n ← u64_add (sticky_read_index r) 1;
      let r := set_sticky r n in
      Ret (r, fetch_loop r (mk_fetching (read_times f) (Some e)))
  | Ok rs =>
      let local_records := default [] (FetchResultSet.payload rs) in
      parsed ← (if bool_decide (local_records = []) then Ret (Ok [RecordsBlock.empty_block end_offset])
                else RecordsBlock.parse local_records (1024 * 1024));
      match parsed with
      | Err _ =>
          n ← u64_add (sticky_read_index r) 1;
          Ret (set_sticky r n,
               FetchReturn (Err (EsError.new ErrorCode.RECORDS_PARSE_ERROR "parse records fail")))
      | Ok blocks =>
          Ret (r, FetchReturn (Ok (match FetchResultSet.object_metadata_list rs with
                                   | Some objects => Mixin blocks objects
                                   | None => Full blocks
                                   end)))
      end
  end.
End fetch.
End Range.
