(* ===== verification/RpcMessages.v ===== *)
(** * Messages of the RPC client

    [components/client/src/request.rs] and [response.rs], with the conversions of
    [components/model/src] that they use: the flat-buffer table that a request is packed
    from, and what the client makes of the frame of a response.  A generated table is a
    record with the fields and integer widths of [components/protocol/fbs/rpc.fbs]; reading
    the bytes of a header ([flatbuffers::root] and [unpack]) is an interface. *)

From S2P Require Import Prelude Bytes Codec Model Record RecordsBlock ReplicaCache Replication.

(** ** [protocol/fbs/rpc.fbs] *)

Module OperationCode.
Definition UNKNOWN : Z := 0.
Definition PING : Z := 1.
Definition GOAWAY : Z := 2.
Definition HEARTBEAT : Z := 3.
Definition ALLOCATE_ID : Z := 4.
Definition APPEND : Z := 0x1001.
Definition FETCH : Z := 0x1002.
Definition LIST_RANGE : Z := 0x2001.
Definition SEAL_RANGE : Z := 0x2002.
Definition SYNC_RANGE : Z := 0x2003.
Definition CREATE_RANGE : Z := 0x2004.
Definition CREATE_STREAM : Z := 0x3001.
Definition DELETE_STREAM : Z := 0x3002.
Definition UPDATE_STREAM : Z := 0x3003.
Definition DESCRIBE_STREAM : Z := 0x3004.
Definition TRIM_STREAM : Z := 0x3005.
Definition REPORT_METRICS : Z := 0x4001.
Definition DESCRIBE_PLACEMENT_DRIVER : Z := 0x4002.
Definition REPORT_REPLICA_PROGRESS : Z := 0x4003.
Definition COMMIT_OBJECT : Z := 0x5001.
Definition LIST_RESOURCE : Z := 0x6001.
Definition WATCH_RESOURCE : Z := 0x6002.
End OperationCode.

Inductive SealKind := SealUnspecified | SealRangeServer | SealPlacementDriver.

Record StatusT := mkStatusT { st_code : Z; (* i16 *) st_message : option string; st_detail : option (list byte) }.

Record StreamT := mkStreamT {
  stt_stream_id : Z;           (* i64 *)
  stt_replica : Z;             (* i8 *)
  stt_ack_count : Z;           (* i8 *)
  stt_retention_period_ms : Z; (* i64 *)
  stt_start_offset : Z;        (* i64 *)
  stt_epoch : Z;               (* i64 *)
  stt_deleted : bool;
}.
Definition StreamT_default : StreamT := mkStreamT (-1) (-1) (-1) (-1) (-1) (-1) false.

Definition RangeT_default : RangeT.t := RangeT.mk (-1) (-1) (-1) (-1) (-1) None (-1) (-1) None.

Record ObjT := mkObjT {
  obj_stream_id : Z;           (* i64 *)
  obj_range_index : Z;         (* i32 *)
  obj_epoch : Z;               (* i16 *)
  obj_start_offset : Z;        (* i64 *)
  obj_end_offset_delta : Z;    (* i32 *)
  obj_data_len : Z;            (* i32 *)
  obj_sparse_index : option (list byte);
}.
Definition ObjT_default : ObjT := mkObjT (-1) (-1) (-1) (-1) (-1) (-1) None.

Record ObjectMetadataT := mkObjectMetadataT {
  om_key : string;
  om_start_offset : Z;         (* i64 *)
  om_end_offset_delta : Z;     (* i32 *)
  om_data_len : Z;             (* i32 *)
  om_sparse_index : option (list byte);
}.

Record AppendResultEntryT := mkAppendResultEntryT { are_status : StatusT; are_timestamp_ms : Z (* i64 *) }.

Record PlacementDriverNodeT := mkNodeT { node_name : string; node_advertise_addr : string; node_is_leader : bool }.

(** A resource: the type, and one optional table per type. *)
Record ResourceT := mkResourceT {
  res_type : Z;                (* i8 *)
  res_range_server : option RangeServer.t;
  res_stream : option StreamT;
  res_range : option RangeT.t;
  res_object : option ObjT;
}.
Record ResourceEventT := mkResourceEventT { ev_type : Z; (* i8 *) ev_resource : ResourceT }.

(** ** Conversions of [components/model/src] *)

Module Status.
Record t := mk { code : Z; message : string; details : option (list byte) }.
Definition from (v : StatusT) : t := mk (st_code v) (default "" (st_message v)) (st_detail v).
Definition ok : t := mk ErrorCode.OK "OK" None.
Definition decode : t := mk ErrorCode.DECODE "Decoding frame header failure" None.
Definition pd_internal (message : string) : t := mk ErrorCode.PD_INTERNAL_SERVER_ERROR message None.
End Status.

(** [impl From<&StreamT> for StreamMetadata] *)
Definition stream_from (v : StreamT) : StreamMetadata.t :=
  StreamMetadata.mk (as_uint 64 (stt_stream_id v)) (as_uint 8 (stt_replica v)) (as_uint 8 (stt_ack_count v))
    (as_uint 64 (stt_retention_period_ms v)) (as_uint 64 (stt_start_offset v)) (as_uint 64 (stt_epoch v))
    (stt_deleted v).

(** [impl From<&ObjT> for ObjectMetadata] and back *)
Definition object_from (v : ObjT) : ObjectMetadata.t :=
  ObjectMetadata.mk (as_uint 64 (obj_stream_id v)) (as_uint 32 (obj_range_index v)) (as_uint 16 (obj_epoch v))
    (as_uint 64 (obj_start_offset v)) (as_uint 32 (obj_end_offset_delta v)) (as_uint 32 (obj_data_len v))
    (default [] (obj_sparse_index v)) None.
Definition object_into (m : ObjectMetadata.t) : ObjT :=
  mkObjT (as_sint 64 (ObjectMetadata.stream_id m)) (as_sint 32 (ObjectMetadata.range_index m))
    (as_sint 16 (ObjectMetadata.epoch m)) (as_sint 64 (ObjectMetadata.start_offset m))
    (as_sint 32 (ObjectMetadata.end_offset_delta m)) (as_sint 32 (ObjectMetadata.data_len m))
    (Some (ObjectMetadata.sparse_index m)).

(** [impl From<&ObjectMetadataT> for ObjectMetadata] and back *)
Definition object_metadata_from (v : ObjectMetadataT) : ObjectMetadata.t :=
  ObjectMetadata.mk 0 0 0 (as_uint 64 (om_start_offset v)) (as_uint 32 (om_end_offset_delta v))
    (as_uint 32 (om_data_len v)) (default [] (om_sparse_index v)) (Some (om_key v)).
Definition object_metadata_into (m : ObjectMetadata.t) : ObjectMetadataT :=
  mkObjectMetadataT (default "" (ObjectMetadata.key m)) (as_sint 64 (ObjectMetadata.start_offset m))
    (as_sint 32 (ObjectMetadata.end_offset_delta m)) (as_sint 32 (ObjectMetadata.data_len m))
    (Some (ObjectMetadata.sparse_index m)).

(** [impl From<&ResourceT> for Resource]; the variants of the type are 1 to 4. *)
Definition resource_from (v : ResourceT) : Resource :=
  if res_type v =? 1 then ResRangeServer (default (RangeServer.mk (-1) "" 0) (res_range_server v))
  else if res_type v =? 2 then ResStream (stream_from (default StreamT_default (res_stream v)))
  else if res_type v =? 3 then ResRange (RangeMetadata.from_RangeT (default RangeT_default (res_range v)))
  else if res_type v =? 4 then ResObject (object_from (default ObjT_default (res_object v)))
  else ResNone.

(** [impl From<&ResourceEventT> for ResourceEvent] *)
Definition event_from (v : ResourceEventT) : ResourceEvent :=
  mkEvent (if ev_type v =? 1 then Added else if ev_type v =? 2 then Modified
           else if ev_type v =? 3 then Deleted else EvNone) (resource_from (ev_resource v)).

Module PlacementDriverNode.
Record t := mk { name : string; advertise_addr : string; leader : bool }.
Definition from (v : PlacementDriverNodeT) : t := mk (node_name v) (node_advertise_addr v) (node_is_leader v).
End PlacementDriverNode.

(** The [chrono] crate: [Utc.timestamp_opt] with seconds and nanoseconds, [.latest()]. *)
Class ChronoApi := {
  DateTime : Type;
  timestamp_opt : Z -> Z -> option DateTime;
}.

Module AppendResultEntry.
Section entry.
Context {T : ChronoApi}.
Record t := mk { status : Status.t; timestamp : DateTime }.

(** [expect] panics. *)
Definition from (v : AppendResultEntryT) : outcome t :=
  match timestamp_opt (Z.quot (are_timestamp_ms v) 1000)
          (as_uint 32 (Z.rem (are_timestamp_ms v) 1000 * 1000000)) with
  | Some ts => Ret (mk (Status.from (are_status v)) ts)
  | None => Panic
  end.

Fixpoint from_all (l : list AppendResultEntryT) : outcome (list t) :=
  match l with
  | [] => Ret []
  | v :: l => e ← from v; rest ← from_all l; Ret (e :: rest)
  end.
End entry.
Arguments t {_}.
End AppendResultEntry.

(** ** Reading the header of a response *)

(** The tables of the responses, unpacked; fields that the client does not look at are left
    out. *)
Record RangesT := mkRangesT { ranges_status : StatusT; ranges : list RangeT.t }.
Record IdT := mkIdT { id_status : StatusT; id : Z (* i32 *) }.
Record AppendT := mkAppendT { append_status : StatusT; entries : option (list AppendResultEntryT) }.
Record FetchT := mkFetchT {
  fetch_status : StatusT;
  throttle_time_ms : Z;        (* i32 *)
  object_metadata_list : option (list ObjectMetadataT);
}.
Record RangeResponseT := mkRangeResponseT { range_status : StatusT; range : option RangeT.t }.
Record ClusterT := mkClusterT { cluster_status : StatusT; nodes : list PlacementDriverNodeT }.
Record StreamResponseT := mkStreamResponseT { stream_status : StatusT; stream : option StreamT }.
Record UpdateStreamT := mkUpdateStreamT { update_status : StatusT; updated : StreamT }.
Record ListResourceT := mkListResourceT {
  list_status : StatusT;
  resources : list ResourceT;
  list_version : Z;            (* i64 *)
  continuation : option (list byte);
}.
Record WatchResourceT := mkWatchResourceT { watch_status : StatusT; events : list ResourceEventT; watch_version : Z (* i64 *) }.

(** [flatbuffers::root], by table; [None] when the verifier rejects the bytes. *)
Class ResponseApi := {
  root_system_error : list byte -> option StatusT;
  root_heartbeat : list byte -> option StatusT;
  root_list_range : list byte -> option RangesT;
  root_id_allocation : list byte -> option IdT;
  root_append : list byte -> option AppendT;
  root_fetch : list byte -> option FetchT;
  root_create_range : list byte -> option RangeResponseT;
  root_seal_range : list byte -> option RangeResponseT;
  root_report_metrics : list byte -> option StatusT;
  root_describe_cluster : list byte -> option ClusterT;
  root_create_stream : list byte -> option StreamResponseT;
  root_describe_stream : list byte -> option StreamResponseT;
  root_report_progress : list byte -> option StatusT;
  root_commit_object : list byte -> option StatusT;
  root_list_resource : list byte -> option ListResourceT;
  root_watch_resource : list byte -> option WatchResourceT;
  root_update_stream : list byte -> option UpdateStreamT;
  root_trim_stream : list byte -> option StatusT;
  root_delete_stream : list byte -> option StatusT;
  (** The table in the details of a status. *)
  root_cluster : list byte -> option (list PlacementDriverNodeT);
}.

(** ** [response.rs] *)

Module Response.
Section response.
Context {T : ChronoApi} {A : ResponseApi}.

Inductive Headers :=
| CreateStream (stream : StreamMetadata.t)
| DescribeStream (stream : StreamMetadata.t)
| ListRange (ranges : option (list RangeMetadata.t))
| AllocateId (id : Z)
| DescribePlacementDriver (nodes : option (list PlacementDriverNode.t))
| SealRange (range : option RangeMetadata.t)
| Append (entries : list AppendResultEntry.t)
| Fetch (throttle : option Z) (object_metadata_list : option (list ObjectMetadata.t))
| CreateRange (range : RangeMetadata.t)
| ListResource (resources : list Resource) (version : Z) (continuation : option (list byte))
| WatchResource (events : list ResourceEvent) (version : Z)
| UpdateStream (metadata : StreamMetadata.t).

Record t := mk {
  operation_code : Z;
  status : Status.t;
  headers : option Headers;
  payload : option (list byte);
}.

Definition new (operation_code : Z) : t := mk operation_code Status.decode None None.
Definition ok (r : t) : bool := Status.code (status r) =? ErrorCode.OK.
Definition into_error (r : t) : EsError.t := EsError.new (Status.code (status r)) (Status.message (status r)).

Definition set_status (r : t) (s : Status.t) : t := mk (operation_code r) s (headers r) (payload r).
Definition set_headers (r : t) (h : Headers) : t := mk (operation_code r) (status r) (Some h) (payload r).

(** The table of the header of the frame, when it has one that can be read. *)
Definition on_header {X} (root : list byte -> option X) (frame : Frame.t) (r : t) (f : X -> t) : t :=
  match Frame.header frame with
  | Some buf => match root buf with Some response => f response | None => r end
  | None => r
  end.

Definition on_status (root : list byte -> option StatusT) (r : t) (frame : Frame.t) : t :=
  on_header root frame r (fun st => set_status r (Status.from st)).

Definition on_system_error : t -> Frame.t -> t := on_status root_system_error.
Definition on_heartbeat : t -> Frame.t -> t := on_status root_heartbeat.

Definition on_list_ranges (r : t) (frame : Frame.t) : t :=
  on_header root_list_range frame r (fun response =>
    let r := set_status r (Status.from (ranges_status response)) in
    if ok r then set_headers r (ListRange (Some (map RangeMetadata.from_RangeT (ranges response)))) else r).

Definition on_allocate_id (r : t) (frame : Frame.t) : t :=
  on_header root_id_allocation frame r (fun response =>
    if st_code (id_status response) =? ErrorCode.OK
    then set_headers (set_status r Status.ok) (AllocateId (id response))
    else set_status r (Status.from (id_status response))).

Definition on_append (r : t) (frame : Frame.t) : outcome t :=
  match Frame.header frame with
  | Some buf =>
      match root_append buf with
      | Some response =>
          if st_code (append_status response) =? ErrorCode.OK then
            let r := set_status r Status.ok in
            match entries response with
            | Some items =>
                entries ← AppendResultEntry.from_all items;
                Ret (set_headers r (Append entries))
            | None => Ret r
            end
          else Ret (set_status r (Status.from (append_status response)))
      | None => Ret r
      end
  | None => Ret r
  end.

Definition on_fetch (r : t) (frame : Frame.t) : t :=
  on_header root_fetch frame r (fun response =>
    if st_code (fetch_status response) =? ErrorCode.OK then
      let throttle := if throttle_time_ms response <? 0 then None else Some (as_uint 64 (throttle_time_ms response)) in
      let r := set_headers (set_status r Status.ok)
                 (Fetch throttle (map object_metadata_from <$> object_metadata_list response)) in
      mk (operation_code r) (status r) (headers r) (Frame.get_response_payload frame)
    else set_status r (Status.from (fetch_status response))).

Definition on_create_range (r : t) (frame : Frame.t) : t :=
  on_header root_create_range frame r (fun response =>
    let r := set_status r (Status.from (range_status response)) in
    if ok r then
      match range response with
      | Some range => set_headers r (CreateRange (RangeMetadata.from_RangeT range))
      | None => r
      end
    else r).

Definition on_seal_range (r : t) (frame : Frame.t) : t :=
  on_header root_seal_range frame r (fun response =>
    let r := set_status r (Status.from (range_status response)) in
    if ok r then set_headers r (SealRange (RangeMetadata.from_RangeT <$> range response)) else r).

Definition on_report_metrics : t -> Frame.t -> t := on_status root_report_metrics.

Definition on_describe_placement_driver (r : t) (frame : Frame.t) : t :=
  on_header root_describe_cluster frame r (fun response =>
    let r := set_status r (Status.from (cluster_status response)) in
    if ok r then set_headers r (DescribePlacementDriver (Some (map PlacementDriverNode.from (nodes response)))) else r).

Definition on_create_stream (r : t) (frame : Frame.t) : t :=
  on_header root_create_stream frame r (fun response =>
    let r := set_status r (Status.from (stream_status response)) in
    if ok r then
      match stream response with
      | Some stream => set_headers r (CreateStream (stream_from stream))
      | None => set_status r (Status.pd_internal "Required stream is missing even if status is OK")
      end
    else r).

Definition on_describe_stream (r : t) (frame : Frame.t) : t :=
  on_header root_describe_stream frame r (fun response =>
    let r := set_status r (Status.from (stream_status response)) in
    if ok r then
      match stream response with
      | Some stream => set_headers r (DescribeStream (stream_from stream))
      | None => set_status r (Status.pd_internal "Stream is missing even if status is OK")
      end
    else r).

Definition on_report_replica_progress : t -> Frame.t -> t := on_status root_report_progress.
Definition on_commit_object : t -> Frame.t -> t := on_status root_commit_object.

Definition on_list_resource (r : t) (frame : Frame.t) : t :=
  on_header root_list_resource frame r (fun response =>
    let r := set_status r (Status.from (list_status response)) in
    if ok r then
      set_headers r (ListResource (map resource_from (resources response)) (list_version response) (continuation response))
    else r).

Definition on_watch_resource (r : t) (frame : Frame.t) : t :=
  on_header root_watch_resource frame r (fun response =>
    let r := set_status r (Status.from (watch_status response)) in
    if ok r then set_headers r (WatchResource (map event_from (events response)) (watch_version response)) else r).

Definition on_update_stream (r : t) (frame : Frame.t) : t :=
  on_header root_update_stream frame r (fun response =>
    let r := set_status r (Status.from (update_status response)) in
    if ok r then set_headers r (UpdateStream (stream_from (updated response))) else r).

Definition on_trim_stream : t -> Frame.t -> t := on_status root_trim_stream.
Definition on_delete_stream : t -> Frame.t -> t := on_status root_delete_stream.
End response.
Arguments Headers {_}.
Arguments t {_}.
End Response.

(** ** [request.rs] *)

(** [components/model/src/request/fetch.rs] *)
Module FetchRequest.
Record t := mk {
  max_wait : Z;                (* Duration, in milliseconds *)
  range : RangeMetadata.t;
  offset : Z;                  (* u64 *)
  limit : Z;                   (* u64 *)
  min_bytes : option Z;        (* usize *)
  max_bytes : option Z;        (* usize *)
}.
End FetchRequest.

Record FetchRequestT := mkFetchRequestT {
  fr_max_wait_ms : Z;          (* i32 *)
  fr_range : RangeT.t;
  fr_offset : Z; fr_limit : Z; (* i64 *)
  fr_min_bytes : Z;            (* i32 *)
  fr_max_bytes : Z;            (* i32 *)
}.

(** [impl From<&FetchRequest> for FetchRequestT] *)
Definition fetch_into (v : FetchRequest.t) : FetchRequestT :=
  let md := FetchRequest.range v in
  mkFetchRequestT (as_sint 32 (FetchRequest.max_wait v))
    (RangeT.mk (as_sint 64 (RangeMetadata.stream_id md)) (-1) (RangeMetadata.index md) (as_sint 64 (RangeMetadata.start md))
       (match RangeMetadata.end_ md with Some e => as_sint 64 e | None => -1 end) None (-1) (-1) None)
    (as_sint 64 (FetchRequest.offset v)) (as_sint 64 (FetchRequest.limit v))
    (match FetchRequest.min_bytes v with Some n => as_sint 32 n | None => -1 end)
    (match FetchRequest.max_bytes v with Some n => as_sint 32 n | None => -1 end).

Record RangeServerMetrics := mkMetrics {
  disk_in_rate : Z; disk_out_rate : Z; disk_free_space : Z; disk_unindexed_data_size : Z; memory_used : Z;
  uring_task_rate : Z; uring_inflight_task_cnt : Z; uring_pending_task_cnt : Z; uring_task_avg_latency : Z;
  network_append_rate : Z; network_fetch_rate : Z; network_failed_append_rate : Z; network_failed_fetch_rate : Z;
  network_append_avg_latency : Z; network_fetch_avg_latency : Z; range_missing_replica_cnt : Z; range_active_cnt : Z;
}.

Record RangeProgressT := mkProgressT { rp_stream_id : Z; (* i64 *) rp_range_index : Z; (* i32 *) rp_confirm_offset : Z (* i64 *) }.
(** [impl From<&RangeProgress> for RangeProgressT] *)
Definition progress_into (p : RangeProgress.t) : RangeProgressT :=
  mkProgressT (as_sint 64 (RangeProgress.stream_id p)) (as_sint 32 (RangeProgress.range_index p))
    (as_sint 64 (RangeProgress.confirm_offset p)).

(** The tables of the requests. *)
Inductive RequestT :=
| HeartbeatRequest (client_id : option string) (client_role : Z) (range_server : option RangeServer.t)
| CreateStreamRequest (stream : StreamT)
| DescribeStreamRequest (timeout_ms stream_id : Z)
| ListRangeRequest (timeout_ms server_id stream_id : Z)
| IdAllocationRequest (host : string)
| CreateRangeRequest (timeout_ms : Z) (range : RangeT.t)
| SealRangeRequest (timeout_ms : Z) (kind : SealKind) (range : RangeT.t)
| AppendRequest (timeout_ms : Z)
| FetchRequest_ (request : FetchRequestT)
| ReportMetricsRequest (range_server : option RangeServer.t) (metrics : option RangeServerMetrics)
| ReportRangeProgressRequest (timeout_ms : Z) (range_server : RangeServer.t) (range_progress : list RangeProgressT)
| CommitObjectRequest (timeout_ms : Z) (object : option ObjT)
| ListResourceRequest (timeout_ms : Z) (resource_type : list Z) (limit : Z) (continuation : option (list byte))
| WatchResourceRequest (timeout_ms : Z) (resource_type : list Z) (resource_version : Z)
| UpdateStreamRequest (timeout_ms : Z) (stream : StreamT)
| TrimStreamRequest (timeout_ms stream_id epoch min_offset : Z)
| DeleteStreamRequest (timeout_ms stream_id epoch : Z)
| DescribePlacementDriverClusterRequest (timeout_ms : Z).

Module Request.
Inductive Headers :=
| Heartbeat (client_id : string) (role : Z) (range_server : option RangeServer.t)
| CreateStream (stream : StreamT)
| DescribeStream (stream_id : Z)
| ListRange (server_id stream_id : option Z)
| AllocateId (host : string)
| CreateRange (range : RangeMetadata.t)
| DescribePlacementDriver
| SealRange (kind : SealKind) (range : RangeMetadata.t)
| Append
| Fetch (request : FetchRequest.t)
| ReportMetrics (range_server : RangeServer.t) (metrics : RangeServerMetrics)
| ReportRangeProgress (range_server : RangeServer.t) (range_progress : list RangeProgress.t)
| CommitObject (metadata : ObjectMetadata.t)
| ListResource (resource_type : list Z) (limit : Z) (continuation : option (list byte))
| WatchResource (resource_type : list Z) (version : Z)
| UpdateStream (stream_id : Z) (replica_count ack_count epoch : option Z)
| TrimStream (stream_id epoch min_offset : Z)
| DeleteStream (stream_id epoch : Z).

Record t := mk { timeout : Z; (* Duration, in milliseconds *) headers : Headers; body : option (list (list byte)) }.

(** [impl From<&Request> for Bytes], up to the packing of the table. *)
Definition into_table (req : t) : RequestT :=
  let timeout_ms := as_sint 32 (timeout req) in
  match headers req with
  | Heartbeat client_id role range_server => HeartbeatRequest (Some client_id) role range_server
  | CreateStream stream => CreateStreamRequest stream
  | DescribeStream stream_id => DescribeStreamRequest timeout_ms (as_sint 64 stream_id)
  | ListRange server_id stream_id =>
      ListRangeRequest timeout_ms (match server_id with Some i => as_sint 32 i | None => -1 end)
        (match stream_id with Some i => as_sint 64 i | None => -1 end)
  | AllocateId host => IdAllocationRequest host
  | CreateRange range => CreateRangeRequest timeout_ms (RangeMetadata.to_RangeT range)
  | SealRange kind range =>
      SealRangeRequest timeout_ms kind
        (RangeT.mk (as_sint 64 (RangeMetadata.stream_id range)) (as_sint 64 (RangeMetadata.epoch range))
           (RangeMetadata.index range) (as_sint 64 (RangeMetadata.start range))
           (match RangeMetadata.end_ range with Some offset => as_sint 64 offset | None => -1 end)
           None (-1) (-1) None)
  | Append => AppendRequest timeout_ms
  | Fetch request => FetchRequest_ (fetch_into request)
  | ReportMetrics range_server metrics => ReportMetricsRequest (Some range_server) (Some metrics)
  | ReportRangeProgress range_server progress =>
      ReportRangeProgressRequest timeout_ms range_server (map progress_into progress)
  | CommitObject metadata => CommitObjectRequest timeout_ms (Some (object_into metadata))
  | ListResource resource_type limit continuation => ListResourceRequest timeout_ms resource_type limit continuation
  | WatchResource resource_type version => WatchResourceRequest timeout_ms resource_type version
  | UpdateStream stream_id replica_count ack_count epoch =>
      UpdateStreamRequest timeout_ms
        (mkStreamT (as_sint 64 stream_id) (match replica_count with Some c => as_sint 8 c | None => -1 end)
           (match ack_count with Some c => as_sint 8 c | None => -1 end) (-1) (-1)
           (match epoch with Some c => as_sint 64 c | None => -1 end) false)
  | TrimStream stream_id epoch min_offset =>
      TrimStreamRequest timeout_ms (as_sint 64 stream_id) (as_sint 64 epoch) (as_sint 64 min_offset)
  | DeleteStream stream_id epoch => DeleteStreamRequest timeout_ms (as_sint 64 stream_id) (as_sint 64 epoch)
  | DescribePlacementDriver => DescribePlacementDriverClusterRequest timeout_ms
  end.

(** The operation code that [Session::write] sets. *)
Definition operation_code (req : t) : Z :=
  match headers req with
  | Heartbeat _ _ _ => OperationCode.HEARTBEAT
  | CreateStream _ => OperationCode.CREATE_STREAM
  | DescribeStream _ => OperationCode.DESCRIBE_STREAM
  | ListRange _ _ => OperationCode.LIST_RANGE
  | AllocateId _ => OperationCode.ALLOCATE_ID
  | DescribePlacementDriver => OperationCode.DESCRIBE_PLACEMENT_DRIVER
  | CreateRange _ => OperationCode.CREATE_RANGE
  | SealRange _ _ => OperationCode.SEAL_RANGE
  | Append => OperationCode.APPEND
  | Fetch _ => OperationCode.FETCH
  | ReportMetrics _ _ => OperationCode.REPORT_METRICS
  | ReportRangeProgress _ _ => OperationCode.REPORT_REPLICA_PROGRESS
  | CommitObject _ => OperationCode.COMMIT_OBJECT
  | ListResource _ _ _ => OperationCode.LIST_RESOURCE
  | WatchResource _ _ => OperationCode.WATCH_RESOURCE
  | UpdateStream _ _ _ _ => OperationCode.UPDATE_STREAM
  | TrimStream _ _ _ => OperationCode.TRIM_STREAM
  | DeleteStream _ _ => OperationCode.DELETE_STREAM
  end.
End Request.

(** Packing a table ([pack] and [finished_data]). *)
Class RequestApi := pack_request : RequestT -> list byte.
