(* ===== verification/RpcSession.v ===== *)
(** * Sessions of the RPC client

    [components/client/src/session.rs] and [invocation_context.rs]: requests that are
    written to a connection, and the loop that reads the responses and finds the request of
    each by the stream id of its frame.

    The code is single-threaded and cut where it waits.  A call is known by the stream id of
    its frame; what it is told, through its one-shot channel or by the result of [write], is
    an answer.  The thread-local counter of the stream ids is shared with other sessions. *)

From S2P Require Import Prelude Bytes Codec Transport Connections Model RpcMessages.

Inductive NodeRole := Unknown | Leader | Follower.
#[export] Instance NodeRole_eq_dec : EqDecision NodeRole.
Proof. solve_decision. Defined.

Module Session.
Section session.
Context {B : BytesApi} {C : Crc32Api} {T : ChronoApi} {A : ResponseApi} {P : RequestApi}.

Inductive answer :=
| Answered (response : Response.t)
| WriteFailed
| ChannelClosed.

Record t := mk {
  connection : Conn.t;
  inflight_requests : gmap Z Request.t;
  idle_since : Z;
  role : NodeRole;
  (** The tasks: which read loops run, the calls of [write] and [heartbeat] that wait for the
      result of [write_frame], and the number of calls of [connect] that wait. *)
  read_loops : list bool;
  writing : list Z;
  beating : list Z;
  connecting : nat;
}.

Definition new (now : Z) : t := mk Conn.new ∅ now Unknown [] [] [] 0.

Definition set_connection (s : t) (c : Conn.t) : t :=
  mk c (inflight_requests s) (idle_since s) (role s) (read_loops s) (writing s) (beating s) (connecting s).
Definition set_inflight (s : t) (m : gmap Z Request.t) : t :=
  mk (connection s) m (idle_since s) (role s) (read_loops s) (writing s) (beating s) (connecting s).
Definition set_idle_since (s : t) (now : Z) : t :=
  mk (connection s) (inflight_requests s) now (role s) (read_loops s) (writing s) (beating s) (connecting s).
Definition set_role (s : t) (role : NodeRole) : t :=
  mk (connection s) (inflight_requests s) (idle_since s) role (read_loops s) (writing s) (beating s) (connecting s).
Definition set_read_loops (s : t) (l : list bool) : t :=
  mk (connection s) (inflight_requests s) (idle_since s) (role s) l (writing s) (beating s) (connecting s).
Definition set_writing (s : t) (l : list Z) : t :=
  mk (connection s) (inflight_requests s) (idle_since s) (role s) (read_loops s) l (beating s) (connecting s).
Definition set_beating (s : t) (l : list Z) : t :=
  mk (connection s) (inflight_requests s) (idle_since s) (role s) (read_loops s) (writing s) l (connecting s).
Definition set_connecting (s : t) (n : nat) : t :=
  mk (connection s) (inflight_requests s) (idle_since s) (role s) (read_loops s) (writing s) (beating s) n.

Definition going_away (s : t) : bool := bool_decide (Conn.state (connection s) = GoingAway).
Definition active (s : t) : bool :=
  match Conn.state (connection s) with
  | Active | Connecting | GoingAway => true
  | Closed | Unspecified => false
  end.

(** ** Connecting *)

(** [Some] when [connect] returns at once. *)
Definition connect (s : t) : t * option (result unit ConnectionError) :=
  match Conn.state (connection s) with
  | Active | Connecting | GoingAway => (s, Some (Ok ()))
  | Unspecified | Closed =>
      (set_connecting (set_connection s (Conn.connect_start (connection s))) (S (connecting s)), None)
  end.

(** ** Writing *)

(** The observer of [write_frame] of the request [id] is answered. *)
Definition write_done (s : t) (now : Z) (a : Conn.answer) : t * list (Z * answer) :=
  let '(id, res) := a in
  if decide (id ∈ writing s) then
    let s := set_writing s (List.filter (fun x => negb (x =? id)) (writing s)) in
    match res with
    | Ok _ => (s, [])
    | Err _ =>
        match inflight_requests s !! id with
        | Some _ => (set_inflight s (delete id (inflight_requests s)), [(id, WriteFailed)])
        | None => (s, [])
        end
    end
  else if decide (id ∈ beating s) then
    let s := set_beating s (List.filter (fun x => negb (x =? id)) (beating s)) in
    (match res with Ok _ => set_idle_since s now | Err _ => s end, [])
  else (s, []).

Fixpoint writes_done (s : t) (now : Z) (l : list Conn.answer) : t * list (Z * answer) :=
  match l with
  | [] => (s, [])
  | a :: l =>
      let '(s, out) := write_done s now a in
      let '(s, out') := writes_done s now l in
      (s, out ++ out')
  end.

Definition frame_of (request : Request.t) (id : Z) : Frame.t :=
  Frame.mk (Request.operation_code request) 0 id Frame.FlatBuffer
    (Some (pack_request (Request.into_table request))) (Request.body request).

(** [write] up to its wait.  A request that had the same id is dropped. *)
Definition write (s : t) (STREAM_ID : Z) (now : Z) (request : Request.t)
    : outcome (t * Z * list (Z * answer)) :=
  let s := set_idle_since s now in
  '(frame, next) ← Frame.new OperationCode.UNKNOWN STREAM_ID;
  let id := Frame.stream_id frame in
  let out := match inflight_requests s !! id with Some _ => [(id, ChannelClosed)] | None => [] end in
  let s := set_inflight s (<[id := request]> (inflight_requests s)) in
  let '(c, err) := Conn.write_frame (connection s) (frame_of request id) in
  let s := set_connection s c in
  let s := set_writing s (writing s ++ [id]) in
  match err with
  | None => Ret (s, next, out)
  | Some e => let '(s, out') := write_done s now (id, Err e) in Ret (s, next, out ++ out')
  end.

(** [interval] is the heartbeat interval of the configuration. *)
Definition heartbeat (s : t) (STREAM_ID now interval : Z) (mandatory : bool) (request : Request.t)
    : outcome (t * Z) :=
  if negb mandatory && (now - idle_since s <? interval) then Ret (s, STREAM_ID)
  else
    '(frame, next) ← Frame.new OperationCode.HEARTBEAT STREAM_ID;
    let id := Frame.stream_id frame in
    let '(c, err) := Conn.write_frame (connection s) (frame_of request id) in
    let s := set_connection s c in
    match err with
    | None => Ret (set_beating s (beating s ++ [id]), next)
    | Some _ => Ret (s, next)
    end.

(** ** Reading *)

(** What is made of a response frame: [None] when the call is dropped without an answer. *)
Definition decode (frame : Frame.t) : outcome (option Response.t) :=
  let op := Frame.operation_code frame in
  let response := Response.new op in
  if Frame.system_error frame then Ret (Some (Response.on_system_error response frame))
  else if op =? OperationCode.LIST_RANGE then Ret (Some (Response.on_list_ranges response frame))
  else if op =? OperationCode.UNKNOWN then Ret None
  else if op =? OperationCode.PING then Panic
  else if op =? OperationCode.GOAWAY then Panic
  else if op =? OperationCode.ALLOCATE_ID then Ret (Some (Response.on_allocate_id response frame))
  else if op =? OperationCode.APPEND then r ← Response.on_append response frame; Ret (Some r)
  else if op =? OperationCode.FETCH then Ret (Some (Response.on_fetch response frame))
  else if op =? OperationCode.CREATE_RANGE then Ret (Some (Response.on_create_range response frame))
  else if op =? OperationCode.SEAL_RANGE then Ret (Some (Response.on_seal_range response frame))
  else if op =? OperationCode.SYNC_RANGE then Ret None
  else if op =? OperationCode.CREATE_STREAM then Ret (Some (Response.on_create_stream response frame))
  else if op =? OperationCode.DESCRIBE_STREAM then Ret (Some (Response.on_describe_stream response frame))
  else if op =? OperationCode.DELETE_STREAM then Ret (Some (Response.on_delete_stream response frame))
  else if op =? OperationCode.UPDATE_STREAM then Ret (Some (Response.on_update_stream response frame))
  else if op =? OperationCode.TRIM_STREAM then Ret (Some (Response.on_trim_stream response frame))
  else if op =? OperationCode.REPORT_METRICS then Ret (Some (Response.on_report_metrics response frame))
  else if op =? OperationCode.DESCRIBE_PLACEMENT_DRIVER then
    Ret (Some (Response.on_describe_placement_driver response frame))
  else if op =? OperationCode.REPORT_REPLICA_PROGRESS then Ret (Some (Response.on_report_replica_progress response frame))
  else if op =? OperationCode.COMMIT_OBJECT then Ret (Some (Response.on_commit_object response frame))
  else if op =? OperationCode.LIST_RESOURCE then Ret (Some (Response.on_list_resource response frame))
  else if op =? OperationCode.WATCH_RESOURCE then Ret (Some (Response.on_watch_resource response frame))
  else Panic.

(** [closed] tells which callers have dropped their receiver. *)
Definition handle_response (s : t) (closed : Z -> bool) (frame : Frame.t) : outcome (t * list (Z * answer)) :=
  if Frame.operation_code frame =? OperationCode.HEARTBEAT then Ret (s, [])
  else
    let id := Frame.stream_id frame in
    match inflight_requests s !! id with
    | Some _ =>
        let s := set_inflight s (delete id (inflight_requests s)) in
        r ← decode frame;
        Ret (s, if closed id then []
                else [(id, match r with Some response => Answered response | None => ChannelClosed end)])
    | None => Ret (s, [])
    end.

Definition retain (s : t) (closed : Z -> bool) : t :=
  set_inflight s (filter (fun e => closed e.1 = false) (inflight_requests s)).

(** The read loop [j] leaves its loop. *)
Definition stop_reading (s : t) (j : nat) : t :=
  set_read_loops (set_connection s (Conn.close (connection s))) (<[j := false]> (read_loops s)).

Definition read (s : t) (closed : Z -> bool) (j : nat) (chunks : list (option (list byte)))
    : outcome (t * list (Z * answer) * option Frame.t) :=
  '(c, r) ← Conn.read_frame (connection s) chunks;
  let s := set_connection s c in
  match r with
  | Connection.ReadPending => Ret (s, [], None)
  | Connection.ReadError Frame.Incomplete => Ret (s, [], None)
  | Connection.ReadError _ | Connection.ReadEof => Ret (stop_reading s j, [], None)
  | Connection.ReadFrame frame =>
      '(s, out) ← (if Frame.is_response frame then handle_response s closed frame
                   else if Frame.operation_code frame =? OperationCode.GOAWAY
                   then Ret (set_connection s (Conn.set_state (connection s) GoingAway), [])
                   else Ret (s, []));
      Ret (retain s closed, out, Some frame)
  end.

Definition connect_done (s : t) (now : Z) (a : Conn.tcp_result) : t * list (Z * answer) :=
  let '(c, dropped, res) := Conn.connect_done (connection s) a in
  let s := set_connecting (set_connection s c) (pred (connecting s)) in
  let s := match res with Ok _ => set_read_loops s (read_loops s ++ [true]) | Err _ => s end in
  writes_done s now dropped.
End session.
Arguments answer {_}.
End Session.

(** ** A session and its callers *)

Module SessionSystem.
Section system.
Context {B : BytesApi} {C : Crc32Api} {T : ChronoApi} {A : ResponseApi} {P : RequestApi}.

Record t := mk {
  session : Session.t;
  STREAM_ID : Z;
  (** The callers that have given up, the calls with their stream id, what they were told,
      and the frames that were read. *)
  closed : list Z;
  calls : list (Z * Request.t);
  answers : list (Z * Session.answer);
  received : list Frame.t;
}.

Definition new (now : Z) : t := mk (Session.new now) 1 [] [] [] [].

Definition is_closed (y : t) (id : Z) : bool := bool_decide (id ∈ closed y).

Definition with_session (y : t) (s : Session.t) (out : list (Z * Session.answer)) : t :=
  mk s (STREAM_ID y) (closed y) (calls y) (answers y ++ out) (received y).

Inductive event :=
| Call (now : Z) (request : Request.t)
| Beat (now interval : Z) (mandatory : bool) (request : Request.t)
| OtherFrame
| WriteRound (k : nat) (res : Connection.WriteResult) (now : Z)
| WriteLoopEnds (k : nat)
| Reads (j : nat) (chunks : list (option (list byte)))
| Stop (j : nat)
| Connect
| ConnectDone (a : Conn.tcp_result) (now : Z)
| Cancel (id : Z).

Definition step (y : t) (ev : event) : outcome t :=
  let s := session y in
  match ev with
  | Call now request =>
      '(s, next, out) ← Session.write s (STREAM_ID y) now request;
      Ret (mk s next (closed y) (calls y ++ [(STREAM_ID y, request)]) (answers y ++ out) (received y))
  | Beat now interval mandatory request =>
      '(s, next) ← Session.heartbeat s (STREAM_ID y) now interval mandatory request;
      Ret (mk s next (closed y) (calls y) (answers y) (received y))
  | OtherFrame =>
      '(_, next) ← Frame.new OperationCode.UNKNOWN (STREAM_ID y);
      Ret (mk s next (closed y) (calls y) (answers y) (received y))
  | WriteRound k res now =>
      let '(c, done) := Conn.write_round (Session.connection s) k res in
      let '(s, out) := Session.writes_done (Session.set_connection s c) now done in
      Ret (with_session y s out)
  | WriteLoopEnds k =>
      Ret (with_session y (Session.set_connection s (Conn.write_loop_ends (Session.connection s) k)) [])
  | Reads j chunks =>
      match Session.read_loops s !! j with
      | Some true =>
          '(s, out, frame) ← Session.read s (is_closed y) j chunks;
          Ret (mk s (STREAM_ID y) (closed y) (calls y) (answers y ++ out)
                 (received y ++ match frame with Some f => [f] | None => [] end))
      | _ => Ret y
      end
  | Stop j =>
      match Session.read_loops s !! j with
      | Some true => Ret (with_session y (Session.stop_reading s j) [])
      | _ => Ret y
      end
  | Connect => Ret (with_session y (Session.connect s).1 [])
  | ConnectDone a now =>
      match Session.connecting s with
      | S _ => let '(s, out) := Session.connect_done s now a in Ret (with_session y s out)
      | O => Ret y
      end
  | Cancel id =>
      let s := Session.set_writing s (List.filter (fun x => negb (x =? id)) (Session.writing s)) in
      Ret (mk s (STREAM_ID y) (closed y ++ [id]) (calls y) (answers y) (received y))
  end.

Fixpoint run (y : t) (evs : list event) : outcome t :=
  match evs with
  | [] => Ret y
  | ev :: evs => y ← step y ev; run y evs
  end.
End system.
Arguments t {_}.
End SessionSystem.

Section matched.
Context {B : BytesApi} {C : Crc32Api} {T : ChronoApi} {A : ResponseApi} {P : RequestApi}.
Import SessionSystem.
Abbreviation inflight s := (Session.inflight_requests s).

(** The requests that leave the table are told something, or their callers have given up. *)
Record moves (closed : Z -> bool) (s s' : Session.t) (out : list (Z * Session.answer)) : Prop := {
  mv_keep id q : inflight s' !! id = Some q -> inflight s !! id = Some q /\ id ∉ out.*1;
  mv_once : NoDup out.*1;
  mv_from id : id ∈ out.*1 -> is_Some (inflight s !! id);
  mv_lost id : is_Some (inflight s !! id) -> is_Some (inflight s' !! id) \/ id ∈ out.*1 \/ closed id = true;
}.

Lemma moves_same closed s s' : inflight s' = inflight s -> moves closed s s' [].
Proof.
  intros E. split; rewrite ?E; simpl; auto; [|constructor|by intros id ?%not_elem_of_nil].
  intros id q ->. split; [done|]. apply not_elem_of_nil.
Qed.

Lemma moves_trans closed s1 s2 s3 out1 out2 :
  moves closed s1 s2 out1 -> moves closed s2 s3 out2 -> moves closed s1 s3 (out1 ++ out2).
Proof.
  intros H1 H2. split; rewrite ?fmap_app.
  - intros id q Hq. destruct (mv_keep _ _ _ _ H2 id q Hq) as [Hq2 Hn2].
    destruct (mv_keep _ _ _ _ H1 id q Hq2) as [? Hn1]. split; [done|]. rewrite elem_of_app. tauto.
  - apply NoDup_app. split_and!; [apply H1| |apply H2]. intros id Hi1 Hi2.
    destruct (mv_from _ _ _ _ H2 id Hi2) as [q Hq]. by destruct (mv_keep _ _ _ _ H1 id q Hq).
  - intros id [Hi|Hi]%elem_of_app; [by apply (mv_from _ _ _ _ H1)|].
    destruct (mv_from _ _ _ _ H2 id Hi) as [q Hq]. destruct (mv_keep _ _ _ _ H1 id q Hq) as [-> _]. by exists q.
  - intros id Hid. rewrite elem_of_app. destruct (mv_lost _ _ _ _ H1 id Hid) as [H|[H|H]]; [|tauto..].
    destruct (mv_lost _ _ _ _ H2 id H) as [?|[?|?]]; tauto.
Qed.

(** One request is taken out and told [a]. *)
Lemma moves_delete closed s s' id q a :
  inflight s !! id = Some q -> inflight s' = delete id (inflight s) -> moves closed s s' [(id, a)].
Proof.
  intros Hq E. split; simpl.
  - intros id' q'. rewrite E, lookup_delete_Some. intros [? ?]. split; [done|]. by rewrite list_elem_of_singleton.
  - apply NoDup_singleton.
  - intros id' ->%list_elem_of_singleton. by exists q.
  - intros id' Hid. rewrite E. destruct (decide (id' = id)) as [->|Hne]; [right; left; by left|].
    left. by rewrite lookup_delete_ne.
Qed.

Lemma write_done_moves closed s now a s' out : Session.write_done s now a = (s', out) -> moves closed s s' out.
Proof.
  destruct a as [id res]. unfold Session.write_done. case_decide.
  - destruct res as [[]|e]; [intros [= <- <-]; by apply moves_same|]. simpl.
    destruct (inflight s !! id) as [q|] eqn:E; intros [= <- <-]; [by eapply moves_delete|by apply moves_same].
  - case_decide; [|intros [= <- <-]; by apply moves_same]. destruct res; intros [= <- <-]; by apply moves_same.
Qed.

Lemma writes_done_moves closed s now l s' out : Session.writes_done s now l = (s', out) -> moves closed s s' out.
Proof.
  revert s out. induction l as [|a l IH]; intros s out; simpl; [intros [= <- <-]; by apply moves_same|].
  destruct (Session.write_done s now a) as [s1 out1] eqn:E1. destruct (Session.writes_done s1 now l) as [s2 out2] eqn:E2.
  intros [= <- <-]. eapply moves_trans; [by eapply write_done_moves|by apply IH].
Qed.

Lemma retain_moves closed s : moves closed s (Session.retain s closed) [].
Proof.
  split; simpl; [|constructor|by intros id ?%not_elem_of_nil|].
  - intros id q Hq. apply map_lookup_filter_Some in Hq as [? _]. split; [done|]. apply not_elem_of_nil.
  - intros id [q Hq]. destruct (closed id) eqn:Ec; [auto|]. left. exists q. by apply map_lookup_filter_Some.
Qed.

Lemma handle_response_moves closed s frame s' out :
  Session.handle_response s closed frame = Ret (s', out) -> moves closed s s' out /\
  forall id r, (id, Session.Answered r) ∈ out -> Frame.stream_id frame = id /\ Session.decode frame = Ret (Some r).
Proof.
  unfold Session.handle_response. assert (forall s, moves closed s s [] /\ forall id r,
    (id, Session.Answered r) ∈ [] -> Frame.stream_id frame = id /\ Session.decode frame = Ret (Some r)) as Hnil.
  { intros s1. split; [by apply moves_same|]. by intros id r ?%not_elem_of_nil. }
  destruct (_ =? _); [intros [= <- <-]; apply Hnil|]. set (id := Frame.stream_id frame).
  destruct (inflight s !! id) as [q|] eqn:Eq; [|intros [= <- <-]; apply Hnil].
  intros (r & Hr & [= <- <-])%bind_Ret_inv. destruct (closed id) eqn:Ec.
  - split; [|by intros id' r' ?%not_elem_of_nil]. split; simpl; [|constructor|by intros id' ?%not_elem_of_nil|].
    + intros id' q'. rewrite lookup_delete_Some. intros [? ?]. split; [done|]. apply not_elem_of_nil.
    + intros id' Hid. destruct (decide (id' = id)) as [->|]; [auto|]. left. by rewrite lookup_delete_ne.
  - split; [by eapply moves_delete|]. intros id' r' [= -> Hr']%list_elem_of_singleton. destruct r; by simplify_eq.
Qed.

Lemma read_moves closed s j chunks s' out frame :
  Session.read s closed j chunks = Ret (s', out, frame) -> moves closed s s' out /\
  forall id r, (id, Session.Answered r) ∈ out ->
    exists f, frame = Some f /\ Frame.is_response f = true /\ Frame.stream_id f = id /\ Session.decode f = Ret (Some r).
Proof.
  unfold Session.read. intros ([c r] & _ & H)%bind_Ret_inv.
  assert (forall s1, inflight s1 = inflight s -> moves closed s s1 [] /\ forall id r,
    (id, Session.Answered r) ∈ [] -> exists f, frame = Some f /\ Frame.is_response f = true /\
      Frame.stream_id f = id /\ Session.decode f = Ret (Some r)) as Hnil.
  { intros s1 E. split; [by apply moves_same|]. by intros id r' ?%not_elem_of_nil. }
  destruct r as [f| |e|]; try (injection H as <- <- <-; by apply Hnil).
  - apply bind_Ret_inv in H as ([s1 out1] & H1 & [= <- <- <-]). rewrite <- (app_nil_r out1).
    assert (moves closed s s1 out1 /\ forall id r, (id, Session.Answered r) ∈ out1 -> Frame.is_response f = true /\
      Frame.stream_id f = id /\ Session.decode f = Ret (Some r)) as [Hm Ha].
    { destruct (Frame.is_response f).
      - apply (handle_response_moves closed) in H1 as [Hm Ha]. split; [by destruct Hm; split|].
        intros id r Hin. by destruct (Ha id r Hin).
      - destruct (_ =? _); injection H1 as <- <-; (split; [by apply moves_same|by intros id r ?%not_elem_of_nil]). }
    split; [eapply moves_trans; [exact Hm|apply retain_moves]|]. rewrite app_nil_r.
    intros id r Hin. exists f. destruct (Ha id r Hin) as (? & ? & ?). done.
  - destruct e; injection H as <- <- <-; by apply Hnil.
Qed.

Record inv (y : t) : Prop := {
  iv_id : 1 <= STREAM_ID y;
  iv_calls id : id ∈ (calls y).*1 -> id < STREAM_ID y;
  iv_distinct : NoDup (calls y).*1;
  iv_inflight id q : inflight (session y) !! id = Some q -> (id, q) ∈ calls y /\ id ∉ (answers y).*1;
  iv_answers : NoDup (answers y).*1;
  iv_answered id : id ∈ (answers y).*1 -> id ∈ (calls y).*1;
  iv_kept id : id ∈ (calls y).*1 ->
    id ∈ (answers y).*1 \/ is_Some (inflight (session y) !! id) \/ id ∈ closed y;
  iv_matched id r : (id, Session.Answered r) ∈ answers y ->
    exists f, f ∈ received y /\ Frame.is_response f = true /\ Frame.stream_id f = id /\ Session.decode f = Ret (Some r);
}.

(** A step that only moves requests out of the table. *)
Lemma moves_inv y s out next closed' fs :
  inv y -> moves (is_closed y) (session y) s out -> STREAM_ID y <= next -> closed y ⊆ closed' ->
  (forall id r, (id, Session.Answered r) ∈ out ->
     exists f, f ∈ received y ++ fs /\ Frame.is_response f = true /\ Frame.stream_id f = id /\ Session.decode f = Ret (Some r)) ->
  inv (mk s next closed' (calls y) (answers y ++ out) (received y ++ fs)).
Proof.
  intros [] Hm Hn Hc Ha. split; simpl; rewrite ?fmap_app; try done; [lia| | | | | |].
  - intros id Hid. specialize (iv_calls0 id Hid). lia.
  - intros id q Hq. destruct (mv_keep _ _ _ _ Hm id q Hq) as [Hq' Hno]. destruct (iv_inflight0 id q Hq') as [? ?].
    split; [done|]. rewrite elem_of_app. tauto.
  - apply NoDup_app. split_and!; [done| |apply Hm]. intros id Hid Hout.
    destruct (mv_from _ _ _ _ Hm id Hout) as [q Hq]. by destruct (iv_inflight0 id q Hq).
  - intros id [Hid|Hid]%elem_of_app; [by apply iv_answered0|].
    destruct (mv_from _ _ _ _ Hm id Hid) as [q Hq]. destruct (iv_inflight0 id q Hq) as [Hin _].
    apply list_elem_of_fmap. by exists (id, q).
  - intros id Hid. rewrite elem_of_app. destruct (iv_kept0 id Hid) as [?|[Hi|?]]; [tauto| |right; right; by apply Hc].
    destruct (mv_lost _ _ _ _ Hm id Hi) as [?|[?|Hcl]]; [tauto..|]. apply bool_decide_eq_true in Hcl. right; right. by apply Hc.
  - intros id r [Hin|Hin]%elem_of_app; [|by apply Ha]. destruct (iv_matched0 id r Hin) as (f & ? & ?).
    exists f. split; [|done]. apply elem_of_app. by left.
Qed.

(** The same, when nothing is read. *)
Lemma moves_quiet y s out :
  inv y -> moves (is_closed y) (session y) s out -> (forall id r, (id, Session.Answered r) ∉ out) ->
  inv (with_session y s out).
Proof.
  intros Hy Hm Ha. unfold with_session. rewrite <- (app_nil_r (received y)).
  apply moves_inv; [done|done|lia|done|]. intros id r Hin. by destruct (Ha id r).
Qed.

Lemma write_done_quiet s now a s' out id r :
  Session.write_done s now a = (s', out) -> (id, Session.Answered r) ∉ out.
Proof.
  destruct a as [id' res]. unfold Session.write_done. case_decide.
  - destruct res as [[]|e]; [intros [= _ <-]; apply not_elem_of_nil|]. simpl.
    destruct (inflight s !! id'); intros [= _ <-]; [|apply not_elem_of_nil]. by rewrite list_elem_of_singleton.
  - case_decide; [destruct res|]; intros [= _ <-]; apply not_elem_of_nil.
Qed.

Lemma writes_done_quiet s now l s' out id r :
  Session.writes_done s now l = (s', out) -> (id, Session.Answered r) ∉ out.
Proof.
  revert s out. induction l as [|a l IH]; intros s out; simpl; [intros [= _ <-]; apply not_elem_of_nil|].
  destruct (Session.write_done s now a) as [s1 out1] eqn:E1. destruct (Session.writes_done s1 now l) as [s2 out2] eqn:E2.
  intros [= -> <-]. rewrite elem_of_app. intros [?|?]; [by eapply write_done_quiet|by eapply IH].
Qed.

Lemma call_inv y now request s next out :
  inv y -> Session.write (session y) (STREAM_ID y) now request = Ret (s, next, out) ->
  inv (mk s next (closed y) (calls y ++ [(STREAM_ID y, request)]) (answers y ++ out) (received y)).
Proof.
  intros Hy H. unfold Session.write in H. apply bind_Ret_inv in H as ([frame nxt] & Hf & H).
  unfold Frame.new in Hf. apply bind_Ret_inv in Hf as (n & Hn & [= <- <-]).
  cbn -[Session.write_done Conn.write_frame] in H.
  apply uint_add_inv in Hn as [-> _]. set (id := STREAM_ID y) in *.
  assert (inflight (session y) !! id = None) as Hfresh.
  { destruct (inflight (session y) !! id) as [q|] eqn:E; [|done]. apply (iv_inflight _ Hy) in E as [Hin _].
    assert (id ∈ (calls y).*1) as Hc by (apply list_elem_of_fmap; by exists (id, q)).
    apply (iv_calls _ Hy) in Hc. unfold id in Hc. lia. }
  rewrite Hfresh in H. destruct (Conn.write_frame _ _) as [c err].
  set (s0 := Session.set_writing (Session.set_connection _ c) _) in H.
  set (y0 := mk s0 (id + 1) (closed y) (calls y ++ [(id, request)]) (answers y) (received y)).
  assert (inv y0) as Hy0.
  { destruct Hy. split; simpl; rewrite ?fmap_app; simpl; try done; [lia| | | | |].
    - intros id' [Hin| ->%list_elem_of_singleton]%elem_of_app; [specialize (iv_calls0 id' Hin)|]; lia.
    - apply NoDup_app. split_and!; [done| |apply NoDup_singleton]. intros x Hx ->%list_elem_of_singleton.
      specialize (iv_calls0 id Hx). lia.
    - intros id' q. rewrite lookup_insert_Some. intros [[<- <-]|[Hne Hq]].
      + split; [apply elem_of_app; right; by left|]. intros Hin%iv_answered0%iv_calls0. lia.
      + destruct (iv_inflight0 id' q Hq). split; [apply elem_of_app; by left|done].
    - intros x Hx. apply elem_of_app. left. by apply iv_answered0.
    - intros id' [Hin| ->%list_elem_of_singleton]%elem_of_app.
      + destruct (iv_kept0 id' Hin) as [?|[[q Hq]|?]]; [tauto| |tauto]. right; left.
        rewrite lookup_insert_ne; [by exists q|]. intros <-. congruence.
      + right; left. rewrite lookup_insert_eq. by eexists. }
  destruct err as [e|]; [|injection H as <- <- <-; rewrite app_nil_r; exact Hy0].
  destruct (Session.write_done s0 now (id, Err e)) as [s1 out1] eqn:Ew. injection H as <- <- <-.
  apply (moves_quiet y0 s1 out1 Hy0); [by eapply write_done_moves|]. intros id' r. by eapply write_done_quiet.
Qed.

Lemma step_inv y ev y' : inv y -> step y ev = Ret y' -> inv y'.
Proof.
  intros Hy. assert (forall s next closed', inflight s = inflight (session y) -> STREAM_ID y <= next ->
    closed y ⊆ closed' -> inv (mk s next closed' (calls y) (answers y) (received y))) as Hsame.
  { intros s next closed' E Hn Hc. rewrite <- (app_nil_r (answers y)), <- (app_nil_r (received y)).
    apply moves_inv; [done|by apply moves_same|done|done|]. by intros id r ?%not_elem_of_nil. }
  assert (forall s, inflight s = inflight (session y) -> inv (with_session y s [])) as Hquiet.
  { intros s E. apply moves_quiet; [done|by apply moves_same|]. intros id r. apply not_elem_of_nil. }
  destruct ev as [now q|now iv m q| |k res now|k|j chunks|j| |a now|id]; simpl.
  - intros ([[s next] out] & Hw & [= <-])%bind_Ret_inv. by eapply call_inv.
  - intros ([s next] & Hb & [= <-])%bind_Ret_inv. unfold Session.heartbeat in Hb.
    destruct (negb m && _); [injection Hb as <- <-; apply Hsame; [done|lia|done]|].
    apply bind_Ret_inv in Hb as ([frame nxt] & (n & [-> _]%uint_add_inv & [= <- <-])%bind_Ret_inv & Hb).
    destruct (Conn.write_frame _ _) as [c [e|]]; injection Hb as <- <-; apply Hsame; try done; lia.
  - intros ([frame nxt] & (n & [-> _]%uint_add_inv & [= <- <-])%bind_Ret_inv & [= <-])%bind_Ret_inv.
    apply Hsame; [done|lia|done].
  - destruct (Conn.write_round _ k res) as [c done]. destruct (Session.writes_done _ now done) as [s out] eqn:E.
    intros [= <-]. apply moves_quiet; [done| |by intros id r; eapply writes_done_quiet].
    apply (writes_done_moves (is_closed y)) in E. by destruct E; split.
  - intros [= <-]. by apply Hquiet.
  - destruct (Session.read_loops _ !! j) as [[]|]; [|by intros [= <-]..].
    intros ([[s out] frame] & Hr & [= <-])%bind_Ret_inv. apply read_moves in Hr as [Hm Ha].
    apply moves_inv; [done|done|lia|done|]. intros id r Hin. destruct (Ha id r Hin) as (f & -> & ?).
    exists f. split; [|done]. apply elem_of_app. right. by left.
  - destruct (Session.read_loops _ !! j) as [[]|]; intros [= <-]; try done. by apply Hquiet.
  - intros [= <-]. apply Hquiet. unfold Session.connect. by destruct (Conn.state _).
  - destruct (Session.connecting _); [by intros [= <-]|]. unfold Session.connect_done.
    destruct (Conn.connect_done _ a) as [[c dropped] res]. destruct (Session.writes_done _ now dropped) as [s out] eqn:E.
    intros [= <-]. apply moves_quiet; [done| |by intros id r; eapply writes_done_quiet].
    apply (writes_done_moves (is_closed y)) in E. destruct res; by destruct E; split.
  - intros [= <-]. apply Hsame; [done|lia|]. intros x Hx. apply elem_of_app. by left.
Qed.

Lemma session_inv_new now : inv (new now).
Proof.
  split; simpl; try done; try lia; try apply NoDup_nil_2;
    try (intros ? H; by apply not_elem_of_nil in H); intros ? ? H; by apply not_elem_of_nil in H.
Qed.

Lemma run_inv y evs y' : inv y -> run y evs = Ret y' -> inv y'.
Proof.
  revert y. induction evs as [|ev evs IH]; intros y Hy; simpl; [by intros [= <-]|].
  intros (y1 & H1 & H2)%bind_Ret_inv. eapply IH; [|done]. by eapply step_inv.
Qed.

Lemma NoDup_fst_inj {X} (l : list (Z * X)) k a b : NoDup l.*1 -> (k, a) ∈ l -> (k, b) ∈ l -> a = b.
Proof.
  intros Hnd [i Hi]%list_elem_of_lookup [j Hj]%list_elem_of_lookup.
  assert (i = j) as <- by (eapply (NoDup_lookup _ _ _ k Hnd); by rewrite list_lookup_fmap, ?Hi, ?Hj). congruence.
Qed.

(** C12: A response reaches the call that it is for.  Whatever the interleaving of calls, of
    the loops that write and read, of reconnections and of callers that give up: a call that
    was told a response has sent a request of which the stream id is that of a response frame
    that was read, no other call has that id, and the response is what that frame decodes to.
    No call is told anything twice, and a call that was told nothing is still in the table, or
    its caller has given up. *)
Theorem response_matched now evs y :
  run (new now) evs = Ret y ->
  NoDup (answers y).*1 /\
  (forall id, id ∈ (calls y).*1 -> id ∈ (answers y).*1 \/ is_Some (inflight (session y) !! id) \/ id ∈ closed y) /\
  forall id r, (id, Session.Answered r) ∈ answers y ->
    (exists q, (id, q) ∈ calls y /\ forall q', (id, q') ∈ calls y -> q' = q) /\
    exists f, f ∈ received y /\ Frame.is_response f = true /\ Frame.stream_id f = id /\
      Session.decode f = Ret (Some r).
Proof.
  intros H. apply run_inv in H; [|apply session_inv_new]. destruct H. split_and!; [done|done|].
  intros id r Hin. split; [|by apply iv_matched0].
  assert (id ∈ (calls y).*1) as Hc by (apply iv_answered0, list_elem_of_fmap; by exists (id, Session.Answered r)).
  apply list_elem_of_fmap in Hc as ([id' q] & -> & Hq). exists q. split; [done|]. intros q' Hq'.
  by eapply (NoDup_fst_inj (calls y)).
Qed.

(** ** Requests on a connection that goes away *)

(** The peer has announced that it goes away and has closed the connection: no loop reads. *)
Definition stranded (s : Session.t) : Prop :=
  Conn.state (Session.connection s) = GoingAway /\ Forall (fun b => b = false) (Session.read_loops s) /\
  Session.connecting s = O.

(** A write that fails. *)
Definition fails (ev : event) : bool :=
  match ev with WriteRound _ Connection.Network _ => true | _ => false end.

Definition responses (y : t) : list (Z * Session.answer) :=
  List.filter (fun a => match a.2 with Session.Answered _ => true | _ => false end) (answers y).

Lemma quiet_responses y out :
  (forall id r, (id, Session.Answered r) ∉ out) ->
  List.filter (fun a : Z * Session.answer => match a.2 with Session.Answered _ => true | _ => false end) (answers y ++ out) =
  responses y.
Proof.
  intros Hq. unfold responses. rewrite List.filter_app.
  assert (List.filter (fun a : Z * Session.answer => match a.2 with Session.Answered _ => true | _ => false end) out = [])
    as ->; [|by rewrite app_nil_r].
  induction out as [|[id a] out IH]; [done|]. simpl. destruct a as [r| |].
  - destruct (Hq id r). by left.
  - apply IH. intros id' r Hin. apply (Hq id' r). by right.
  - apply IH. intros id' r Hin. apply (Hq id' r). by right.
Qed.

(** What [stranded] looks at is as it was. *)
Definition same_tasks (s s' : Session.t) : Prop :=
  Conn.state (Session.connection s') = Conn.state (Session.connection s) /\
  Session.read_loops s' = Session.read_loops s /\ Session.connecting s' = Session.connecting s.

Lemma same_stranded s s' : same_tasks s s' -> stranded s -> stranded s'.
Proof. intros (E1 & E2 & E3) (? & ? & ?). unfold stranded. by rewrite E1, E2, E3. Qed.

Lemma writes_done_same s now l s' out : Session.writes_done s now l = (s', out) -> same_tasks s s'.
Proof.
  revert s out. induction l as [|[id res] l IH]; intros s out; cbn [Session.writes_done]; [by intros [= <- _]|].
  destruct (Session.write_done s now (id, res)) as [s1 out1] eqn:E1.
  destruct (Session.writes_done s1 now l) as [s2 out2] eqn:E2. intros [= <- _].
  assert (same_tasks s s1) as (H1 & H2 & H3).
  { unfold Session.write_done in E1. repeat case_decide; repeat case_match; by simplify_eq. }
  destruct (IH _ _ E2) as (H4 & H5 & H6). split_and!; congruence.
Qed.

Lemma write_frame_state c f : Conn.state (Conn.write_frame c f).1 = Conn.state c.
Proof. unfold Conn.write_frame. by repeat case_match. Qed.

Lemma write_round_state c k res :
  res <> Connection.Network -> Conn.state (Conn.write_round c k res).1 = Conn.state c.
Proof. intros Hres. unfold Conn.write_round. by repeat case_match. Qed.

Lemma call_stranded y now q s next out :
  stranded (session y) -> Session.write (session y) (STREAM_ID y) now q = Ret (s, next, out) ->
  stranded s /\ forall id r, (id, Session.Answered r) ∉ out.
Proof.
  intros Hs H. unfold Session.write in H. apply bind_Ret_inv in H as ([frame nxt] & Hf & H).
  cbn -[Session.write_done Conn.write_frame] in H.
  set (old := match inflight _ !! _ with Some _ => [(Frame.stream_id frame, Session.ChannelClosed)] | None => [] end) in H.
  assert (forall id r, (id, Session.Answered r) ∉ old) as Hold.
  { intros id r. unfold old. destruct (inflight _ !! _); [by rewrite list_elem_of_singleton|apply not_elem_of_nil]. }
  destruct (Conn.write_frame _ _) as [c err] eqn:Ec.
  apply (f_equal (fun p => Conn.state p.1)) in Ec. rewrite write_frame_state in Ec. simpl in Ec.
  rewrite (proj1 Hs) in Ec.
  set (s0 := Session.set_writing (Session.set_connection _ c) _) in H.
  assert (stranded s0) as Hs0 by (destruct Hs as (_ & ? & ?); by split).
  destruct err as [e|]; [|by injection H as <- <- <-].
  destruct (Session.write_done s0 now _) as [s1 out1] eqn:Ew. injection H as <- <- <-. split.
  - eapply same_stranded; [|exact Hs0]. apply (writes_done_same s0 now [(Frame.stream_id frame, Err e)] s1 (out1 ++ [])).
    cbn [Session.writes_done]. by rewrite Ew.
  - intros id r [?|?]%elem_of_app; [by eapply Hold|by eapply write_done_quiet].
Qed.

Lemma step_stranded y ev y' :
  stranded (session y) -> fails ev = false -> step y ev = Ret y' ->
  stranded (session y') /\ responses y' = responses y.
Proof.
  intros Hs Hf. pose proof Hs as (Hst & Hrl & Hcn).
  assert (forall s out, stranded s -> (forall id r, (id, Session.Answered r) ∉ out) ->
    stranded (session (with_session y s out)) /\ responses (with_session y s out) = responses y) as Hgo.
  { intros s out ? ?. split; [done|]. by apply quiet_responses. }
  assert (forall (id : Z) r, (id, Session.Answered r) ∉ []) as Hnil by (intros id r; apply not_elem_of_nil).
  destruct ev as [now q|now iv m q| |k res now|k|j chunks|j| |a now|id]; simpl in *.
  - intros ([[s next] out] & Hw & [= <-])%bind_Ret_inv. apply call_stranded in Hw as [? ?]; [|done].
    split; [done|]. by apply quiet_responses.
  - intros ([s next] & Hb & [= <-])%bind_Ret_inv. split; [|done]. simpl. unfold Session.heartbeat in Hb.
    destruct (negb m && _); [by injection Hb as <- <-|]. apply bind_Ret_inv in Hb as ([frame nxt] & _ & Hb).
    destruct (Conn.write_frame _ _) as [c err] eqn:Ec.
    apply (f_equal (fun p => Conn.state p.1)) in Ec. rewrite write_frame_state in Ec. simpl in Ec. rewrite Hst in Ec.
    by destruct err; injection Hb as <- <-.
  - intros ([frame nxt] & _ & [= <-])%bind_Ret_inv. done.
  - destruct (Conn.write_round _ k res) as [c done] eqn:Ec. destruct (Session.writes_done _ now done) as [s out] eqn:E.
    intros [= <-]. apply Hgo; [|by intros id r; eapply writes_done_quiet].
    eapply same_stranded; [by eapply writes_done_same|]. split; [|done]. simpl.
    apply (f_equal (fun p => Conn.state p.1)) in Ec. rewrite write_round_state in Ec by (by intros ->).
    simpl in Ec. congruence.
  - intros [= <-]. apply Hgo; [|done]. split; [|done]. simpl. unfold Conn.write_loop_ends. by repeat case_match.
  - destruct (Session.read_loops _ !! j) as [[]|] eqn:Ej; [|by intros [= <-]..].
    rewrite Forall_lookup in Hrl. by specialize (Hrl _ _ Ej).
  - destruct (Session.read_loops _ !! j) as [[]|] eqn:Ej; [|by intros [= <-]..].
    rewrite Forall_lookup in Hrl. by specialize (Hrl _ _ Ej).
  - unfold Session.connect. rewrite Hst. intros [= <-]. by apply Hgo.
  - rewrite Hcn. by intros [= <-].
  - by intros [= <-].
Qed.

(** C38: A session whose peer has announced that it goes away does not recover.  Once the peer
    has closed the connection, the session counts as active and [connect] returns at once,
    because the state is still that of a connection that goes away, which [close] leaves; but
    no loop reads: until a write fails, no call is told a response, neither one that is in the
    table nor one that comes later. *)
Theorem going_away_strands_requests y evs y' :
  stranded (session y) -> forallb (fun ev => negb (fails ev)) evs = true -> run y evs = Ret y' ->
  Session.active (session y') = true /\ Session.connect (session y') = (session y', Some (Ok ())) /\
  responses y' = responses y.
Proof.
  intros Hs Hf Hr. assert (stranded (session y') /\ responses y' = responses y) as [(Hst & _) ?].
  { revert y Hs Hr. induction evs as [|ev evs IH]; intros y Hs; simpl; [by intros [= <-]|].
    simpl in Hf. apply andb_prop in Hf as [Hf1 Hf2]. apply negb_true_iff in Hf1.
    intros (y1 & H1 & H2)%bind_Ret_inv. apply step_stranded in H1 as [Hs1 He1]; [|done..].
    destruct (IH Hf2 y1 Hs1 H2). split; [done|congruence]. }
  unfold Session.active, Session.connect. by rewrite Hst.
Qed.
End matched.

(** ** Witnesses *)

Module SessionExample.
Import SessionSystem.

#[local] Instance chrono : ChronoApi := {
  DateTime := Z * Z;
  timestamp_opt secs nsecs := Some (secs, nsecs);
}.

(** The header of a response to an append has no entries, the others cannot be read. *)
#[local] Instance tables : ResponseApi := {
  root_system_error _ := None; root_heartbeat _ := None; root_list_range _ := None; root_id_allocation _ := None;
  root_append _ := Some (mkAppendT (mkStatusT 1200 None None) (Some []));
  root_fetch _ := None; root_create_range _ := None; root_seal_range _ := None; root_report_metrics _ := None;
  root_describe_cluster _ := None; root_create_stream _ := None; root_describe_stream _ := None;
  root_report_progress _ := None; root_commit_object _ := None; root_list_resource _ := None;
  root_watch_resource _ := None; root_update_stream _ := None; root_trim_stream _ := None;
  root_delete_stream _ := None; root_cluster _ := None;
}.
#[local] Instance pack : RequestApi := fun _ => ascii_bytes "request".

Definition bytes_of (f : Frame.t) : list byte := match Frame.encode f with Ret (Ok b) => concat b | _ => [] end.

Definition append : Request.t := Request.mk 1000 Request.Append (Some [ascii_bytes "batch"]).
Definition response (id : Z) : Frame.t :=
  Frame.mk OperationCode.APPEND Frame.RESPONSE id Frame.FlatBuffer (Some (ascii_bytes "response")) None.
Definition go_away : Frame.t := Frame.mk OperationCode.GOAWAY 0 9 Frame.FlatBuffer None None.

(** A request is written and answered. *)
Definition answered : list event :=
  [Connect; ConnectDone Conn.Established 0; Call 0 append; WriteRound 0 Connection.Written 0;
   Reads 0 [Some (bytes_of (response 1))]].

(** The peer announces that it goes away and closes the connection. *)
Definition leaving : list event :=
  [Connect; ConnectDone Conn.Established 0; Reads 0 [Some (bytes_of go_away)]; Reads 0 [Some []]].
Definition after_leaving : list event := [Connect; Call 5 append; WriteRound 0 Connection.Written 5; Connect].

(** The peer dies in the middle of a response; the request is sent again on a new connection
    and answered there. *)
Definition reconnect : list event :=
  [Connect; ConnectDone Conn.Established 0; Call 0 append; WriteRound 0 Connection.Written 0;
   Reads 0 [Some (take 10 (bytes_of (response 1)))]; Reads 0 [Some []];
   Connect; ConnectDone Conn.Established 1; Call 1 append; WriteRound 1 Connection.Written 1;
   Reads 1 [Some (bytes_of (response 2))]].

Definition after (evs : list event) : t := match run (new 0) evs with Ret y => y | Panic => new 0 end.

Lemma run_answered : run (new 0) answered = Ret (after answered).
Proof. by vm_compute. Qed.

Lemma leaving_stranded : stranded (session (after leaving)).
Proof. split; [by vm_compute|]. split; [repeat constructor|by vm_compute]. Qed.

Definition left_ : t := match run (after leaving) after_leaving with Ret y => y | Panic => new 0 end.
Lemma run_after_leaving : run (after leaving) after_leaving = Ret left_.
Proof. by vm_compute. Qed.
End SessionExample.
#[local] Existing Instances SessionExample.chrono SessionExample.tables SessionExample.pack.

Lemma response_matched_witness :
  (1, SessionExample.append) ∈ SessionSystem.calls (SessionExample.after SessionExample.answered) /\
  exists r f, (1, Session.Answered r) ∈ SessionSystem.answers (SessionExample.after SessionExample.answered) /\
    f ∈ SessionSystem.received (SessionExample.after SessionExample.answered) /\ Session.decode f = Ret (Some r).
Proof.
  split; [vm_compute; by left|].
  destruct (response_matched 0 SessionExample.answered _ SessionExample.run_answered) as (_ & _ & H).
  eexists. assert (Hin : (1, Session.Answered _) ∈ SessionSystem.answers (SessionExample.after SessionExample.answered))
    by (vm_compute; by left).
  destruct (H _ _ Hin) as (_ & f & Hf & _ & _ & Hd). exists f. split_and!; [exact Hin|exact Hf|exact Hd].
Defined.

Lemma going_away_strands_requests_witness :
  (SessionSystem.calls SessionExample.left_).*1 = [1] /\
  Session.active (SessionSystem.session SessionExample.left_) = true /\
  responses SessionExample.left_ = responses (SessionExample.after SessionExample.leaving).
Proof.
  destruct (going_away_strands_requests (SessionExample.after SessionExample.leaving) SessionExample.after_leaving
    SessionExample.left_ SessionExample.leaving_stranded eq_refl SessionExample.run_after_leaving) as (Ha & _ & Hr).
  split; [by vm_compute|]. split; [exact Ha|exact Hr].
Defined.

(** A connection that was lost in the middle of a frame spoils the next one.  [connect]
    keeps the bytes that were read before, so the response that comes on the new connection is
    not recognised, although it is complete: no call is answered, and the new connection is
    closed. *)
Theorem stale_bytes_spoil_reconnect :
  exists y, SessionSystem.run (SessionSystem.new 0) SessionExample.reconnect = Ret y /\
    (SessionSystem.calls y).*1 = [1; 2] /\ SessionSystem.answers y = [] /\ SessionSystem.received y = [] /\
    Conn.state (Session.connection (SessionSystem.session y)) = Closed.
Proof. eexists. split; [by vm_compute|]. by vm_compute. Qed.
