(* ===== verification/Quorum.v ===== *)
(** * Quorums: what a range confirms survives

    A range confirms an offset when enough of its replicas have confirmed it, and a stream
    that takes over seals enough of them: the two sets share a replica, so the end that the
    new stream finds is at least what the old one has confirmed.

    The range servers appear through their history: the ends of the appends that a server
    has acknowledged and the ends that it has answered to seals, of which [RangeManager.v]
    shows that the latter are at least the former ([ServerHistory]). *)

From S2P Require Import Prelude Bytes Model Record RecordsBlock ReplicaCache Replication.

(** ** Order statistics *)

Lemma filter_length_perm {A} (f : A -> bool) (l k : list A) :
  l ≡ₚ k -> length (List.filter f l) = length (List.filter f k).
Proof.
  induction 1 as [|x l k _ IH|x y l|l k m _ IH1 _ IH2]; simpl; [done| | |congruence].
  - destruct (f x); simpl; congruence.
  - by destruct (f x), (f y).
Qed.

Lemma filter_all {A} (f : A -> bool) (l : list A) :
  (forall x, x ∈ l -> f x = true) -> List.filter f l = l.
Proof.
  induction l as [|x l IH]; intros Hf; simpl; [done|]. rewrite Hf, IH by set_solver. done.
Qed.

Lemma sorted_at (l : list Z) n x :
  StronglySorted Z.le l -> l !! n = Some x ->
  (forall y, y ∈ take (S n) l -> y <= x) /\ (forall y, y ∈ drop n l -> x <= y).
Proof.
  revert n. induction l as [|z l IH]; intros n; [done|]. intros [Hs Hf]%StronglySorted_inv Hn.
  rewrite Forall_forall in Hf. destruct n as [|n]; simpl in Hn.
  - injection Hn as ->. split; intros y; simpl; [rewrite firstn_O; set_solver by lia|].
    intros [->|Hy]%elem_of_cons; [lia|]. by apply Hf.
  - destruct (IH n Hs Hn) as [H1 H2]. split; intros y; [|apply H2].
    rewrite firstn_cons. intros [->|Hy]%elem_of_cons; [|by apply H1].
    apply Hf. by eapply list_elem_of_lookup_2.
Qed.

Lemma filter_length_app {A} (f : A -> bool) (l k : list A) :
  length (List.filter f (l ++ k)) = (length (List.filter f l) + length (List.filter f k))%nat.
Proof. by rewrite List.filter_app, length_app. Qed.

(** More than [n] of the values are at most the [n]-th smallest, or at least the [n]-th
    largest one (counted from 0). *)
Lemma nth_smallest_spec l n x :
  Range.nth_smallest l n = Some x -> (S n <= length (List.filter (fun y => (y <=? x)%Z) l))%nat.
Proof.
  unfold Range.nth_smallest. intros Hn.
  assert (StronglySorted Z.le (merge_sort Z.le l)) as Hs.
  { apply StronglySorted_merge_sort; [intros ? ? ?; lia|intros ? ?; lia]. }
  destruct (sorted_at _ _ _ Hs Hn) as [H1 _].
  rewrite <- (filter_length_perm _ _ _ (merge_sort_Permutation Z.le l)).
  rewrite <- (take_drop (S n) (merge_sort Z.le l)), filter_length_app, filter_all.
  - rewrite length_take. apply lookup_lt_Some in Hn. lia.
  - intros y Hy. apply Z.leb_le. by apply H1.
Qed.

Lemma nth_largest_spec l n x :
  Range.nth_largest l n = Some x -> (S n <= length (List.filter (fun y => (x <=? y)%Z) l))%nat.
Proof.
  unfold Range.nth_largest. intros Hn.
  assert (StronglySorted Z.le (merge_sort Z.le l)) as Hs.
  { apply StronglySorted_merge_sort; [intros ? ? ?; lia|intros ? ?; lia]. }
  set (s := merge_sort Z.le l) in *. pose proof (lookup_lt_Some _ _ _ Hn) as Hlt.
  rewrite length_reverse in Hlt. rewrite reverse_lookup in Hn by done.
  destruct (sorted_at _ _ _ Hs Hn) as [_ H2].
  rewrite <- (filter_length_perm _ _ _ (merge_sort_Permutation Z.le l)). fold s.
  rewrite <- (take_drop (length s - S n) s), filter_length_app, (filter_all _ (drop _ s)).
  - rewrite length_drop. lia.
  - intros y Hy. apply Z.leb_le. by apply H2.
Qed.

(** The positions of the elements with a property. *)
Fixpoint positions {A} (f : A -> bool) (n : nat) (l : list A) : list nat :=
  match l with
  | [] => []
  | x :: l => if f x then n :: positions f (S n) l else positions f (S n) l
  end.

Lemma positions_length {A} (f : A -> bool) n l : length (positions f n l) = length (List.filter f l).
Proof. revert n. induction l as [|x l IH]; intros n; simpl; [done|]. destruct (f x); simpl; by rewrite IH. Qed.

Lemma positions_elem {A} (f : A -> bool) n l i :
  i ∈ positions f n l -> exists x, (n <= i)%nat /\ l !! (i - n)%nat = Some x /\ f x = true.
Proof.
  revert n i. induction l as [|x l IH]; intros n i; simpl; [set_solver|].
  assert (forall i, i ∈ positions f (S n) l ->
    exists y, (n <= i)%nat /\ (x :: l) !! (i - n)%nat = Some y /\ f y = true) as Htl.
  { intros j (y & ? & Hy & ?)%IH. exists y. split; [lia|]. by replace (j - n)%nat with (S (j - S n)) by lia. }
  destruct (f x) eqn:E; [|apply Htl]. intros [->|Hi]%elem_of_cons; [|by apply Htl].
  exists x. by rewrite Nat.sub_diag.
Qed.

Lemma positions_NoDup {A} (f : A -> bool) n l : NoDup (positions f n l).
Proof.
  revert n. induction l as [|x l IH]; intros n; simpl; [constructor|].
  destruct (f x); [|apply IH]. constructor; [|apply IH]. intros (? & ? & _)%positions_elem. lia.
Qed.

(** Two sets of places that have more elements than there are places share one. *)
Lemma quorums_meet (N : nat) (P Q : list nat) :
  NoDup P -> NoDup Q -> (forall i, i ∈ P -> i < N)%nat -> (forall i, i ∈ Q -> i < N)%nat ->
  (N < length P + length Q)%nat -> exists i, i ∈ P /\ i ∈ Q.
Proof.
  intros HP HQ BP BQ Hlen. destruct (decide (Exists (fun i => i ∈ Q) P)) as [Hex|Hno].
  { apply Exists_exists in Hex. destruct Hex as (i & ? & ?). by exists i. }
  exfalso. assert (NoDup (P ++ Q)) as Hnd.
  { apply NoDup_app. split_and!; [done| |done]. intros i Hi HiQ. apply Hno, Exists_exists. by exists i. }
  assert (P ++ Q ⊆+ seq 0 N) as Hsub.
  { apply NoDup_submseteq; [done|]. intros i [Hi|Hi]%elem_of_app; apply elem_of_seq; [apply BP in Hi|apply BQ in Hi]; lia. }
  apply submseteq_length in Hsub. rewrite length_app, length_seq in Hsub. lia.
Qed.

(** ** The history of the range servers of a range

    [acked i x]: the server of replica [i] has acknowledged an append that ends at [x];
    [sealed i e]: it has answered the end [e] to a seal. *)
Class ServerHistory (start : Z) (acked sealed : nat -> Z -> Prop) : Prop := {
  seal_covers i x e : acked i x -> sealed i e -> x <= e;
  seal_from_start i e : sealed i e -> start <= e;
}.

Section quorum.
Context (md : RangeMetadata.t) (acked sealed : nat -> Z -> Prop).
Context {H : ServerHistory (RangeMetadata.start md) acked sealed}.

(** The placement driver gives a range as many servers as its replica count says. *)
Definition metadata_ok : Prop :=
  Z.of_nat (length (RangeMetadata.replica md)) = RangeMetadata.replica_count md /\
  1 <= RangeMetadata.ack_count md <= RangeMetadata.replica_count md.
Abbreviation N := (length (RangeMetadata.replica md)).

(** Enough servers have acknowledged appends up to [c], unless the range starts there. *)
Definition on_quorum (c : Z) : Prop :=
  c <= RangeMetadata.start md \/
  exists Q : list nat, NoDup Q /\ RangeMetadata.ack_count md <= Z.of_nat (length Q) /\
    forall i, i ∈ Q -> (i < N)%nat /\ exists x, c <= x /\ acked i x.

(** The answers to the seals of different replicas. *)
Definition seals_of (done : list nat) (ends : list Z) : Prop :=
  exists answered, answered `sublist_of` done /\ Forall2 sealed answered ends.

Lemma seals_below answered ends e :
  Forall2 sealed answered ends -> NoDup answered ->
  exists P : list nat, NoDup P /\ P ⊆ answered /\
    length P = length (List.filter (fun y => (y <=? e)%Z) ends) /\
    forall i, i ∈ P -> exists y, sealed i y /\ y <= e.
Proof.
  induction 1 as [|i y answered ends Hs Hall IH]; intros Hnd; simpl.
  { exists []. split; [constructor|]. set_solver. }
  apply NoDup_cons in Hnd as [Hni Hnd]. destruct (IH Hnd) as (P & HP & Hsub & Hlen & Hin).
  destruct (Z.leb_spec y e) as [Hle|Hgt]; simpl; [|exists P; set_solver].
  exists (i :: P). split; [constructor; set_solver|]. split; [set_solver|]. split; [simpl; lia|].
  intros k [->|Hk]%elem_of_cons; eauto.
Qed.

(** The sets of replicas that have acknowledged an offset and that were sealed meet. *)
Lemma seal_covers_quorum done ends r r' e c :
  metadata_ok -> NoDup done -> (forall i, i ∈ done -> i < N)%nat -> seals_of done ends ->
  Range.metadata r = md -> Range.seal_replicas_done r ends = Ret (r', Range.SealPd e) ->
  on_quorum c -> c <= e.
Proof.
  intros [Hlen Hack] Hnd Hb (answered & Hsub & Hall) Hmd Hdone Hc.
  assert (NoDup answered) as Hnd' by by eapply sublist_NoDup.
  assert (forall i, i ∈ answered -> i < N)%nat as Hb'.
  { intros i Hi. apply Hb. by eapply elem_of_submseteq, sublist_submseteq. }
  unfold Range.seal_replicas_done, Range.replicas_seal0 in Hdone. rewrite Hmd in Hdone.
  rewrite uint_sub_Ret in Hdone by lia. simpl in Hdone.
  destruct (Range.nth_smallest ends _) as [e'|] eqn:Hn; [|done]. injection Hdone as _ ->.
  apply nth_smallest_spec in Hn.
  destruct (seals_below answered ends e Hall Hnd') as (P & HP & HPsub & HPlen & HPin).
  destruct Hc as [Hc|(Q & HQ & HQlen & HQin)].
  - destruct P as [|i P]; [simpl in *; lia|]. destruct (HPin i) as (y & Hy & ?); [set_solver|].
    apply seal_from_start in Hy. lia.
  - destruct (quorums_meet N P Q) as (i & HiP & HiQ);
      [done|done|eauto|intros i Hi; by apply HQin|lia|].
    destruct (HPin i HiP) as (y & Hy & ?). destruct (HQin i HiQ) as (_ & x & ? & Hx).
    pose proof (seal_covers i x y Hx Hy). lia.
Qed.
End quorum.
