(* ===== verification/ServerHistories.v ===== *)
(** * The range servers of a range

    The range managers of the servers of a range keep what [Quorum.v] asks of the history of
    the servers: the end that a server answers to a seal is at least the end of every append
    that it has acknowledged, as long as it runs.  A server that starts again has forgotten
    what it has acknowledged. *)

From S2P Require Import Prelude Model RangeManager Quorum.
Import Manager.

(** Every server of the range runs its range manager; [server i] is where the manager of
    replica [i] starts, and what it has done since. *)
Section servers.
Context (md : RangeMetadata.t).
Abbreviation stream := (RangeMetadata.stream_id md).
Abbreviation index := (RangeMetadata.index md).
Context (server : nat -> option (Manager.t * list (op * response))).

(** It holds the range from its start on, and has not dropped it. *)
Definition serves (i : nat) : Prop :=
  forall m tr, server i = Some (m, tr) ->
    reachable m /\ (exists m', exec (retains stream index) m tr m') /\
    exists r, get_range m stream index = Some r /\ covers r (RangeMetadata.start md).

Definition server_acked (i : nat) (x : Z) : Prop :=
  exists m tr, server i = Some (m, tr) /\ acks stream index tr x.
Definition server_sealed (i : nat) (e : Z) : Prop :=
  exists m tr, server i = Some (m, tr) /\ seals stream index tr e.

(** The range managers keep the history that failover relies on: the end that a server
    answers to a seal of the range is at least the start of the range and the end of every
    append that the server has acknowledged, whenever that was. *)
Theorem servers_history :
  (forall i, serves i) -> ServerHistory (RangeMetadata.start md) server_acked server_sealed.
Proof.
  intros Hs. split.
  - intros i x e (m & tr & Hi & Hx) (m' & tr' & Hi' & He). rewrite Hi in Hi'. injection Hi' as <- <-.
    destruct (Hs i m tr Hi) as (Hm & (m2 & Hex) & r & Hg & _).
    destruct (exec_ack_inv _ _ _ _ _ _ Hm Hex Hg) as (r' & _ & _ & Hinv). by apply Hinv.
  - intros i e (m & tr & Hi & He). destruct (Hs i m tr Hi) as (Hm & (m2 & Hex) & r & Hg & Hc).
    by eapply exec_seal_from.
Qed.
End servers.

(** ** Restarts *)

(** The range manager of a server that has started again: it has read the metadata of its
    streams and ranges from the placement driver. *)
Definition restarted (evs : list ResourceEvent) : Manager.t := foldl on_resource_event (Manager.mk ∅) evs.

(** No range of the manager has committed anything. *)
Definition uncommitted (m : Manager.t) : Prop :=
  map_Forall (fun _ s => Forall (fun r => Range.committed r = None) (Stream.ranges s)) (streams m).

Lemma set_first_uncommitted index r l :
  Range.committed r = None -> Forall (fun r => Range.committed r = None) l ->
  Forall (fun r => Range.committed r = None) (Stream.set_first index r l).
Proof. intros Hr. induction 1 as [|x l Hx Hl IH]; simpl; [done|]. destruct (_ =? _); by constructor. Qed.

Lemma find_uncommitted index l r :
  Forall (fun r => Range.committed r = None) l -> List.find (fun r => Range.index r =? index) l = Some r ->
  Range.committed r = None.
Proof. rewrite Forall_forall. intros Hl [Hr _]%find_some. by apply Hl, list_elem_of_In. Qed.

Lemma create_uncommitted s md :
  Forall (fun r => Range.committed r = None) (Stream.ranges s) ->
  Forall (fun r => Range.committed r = None) (Stream.ranges (Stream.create_range s md)).
Proof.
  intros Hs. unfold Stream.create_range. destruct (Stream.verify_stream_id s md); [|done].
  destruct (Stream.get_range s _); [done|]. simpl. rewrite merge_sort_Permutation, Forall_app. by repeat constructor.
Qed.

Lemma event_uncommitted m ev : uncommitted m -> uncommitted (on_resource_event m ev).
Proof.
  intros Hm. unfold on_resource_event. destruct (resource ev) as [| |md|md|]; try done.
  - unfold on_stream_event. destruct (event_type ev); try done;
      [| | |by apply map_Forall_delete].
    all: destruct (get_stream m _) as [s|] eqn:Es; apply map_Forall_insert_2; try done; simpl; try done.
    all: pose proof (Hm _ _ Es) as Hs; apply Forall_forall; intros r; rewrite list_elem_of_omap; intros (x & Hx & Ht).
    all: unfold Stream.trim_range in Ht; rewrite Forall_forall in Hs; pose proof (Hs x Hx).
    all: repeat case_match; by simplify_eq.
  - unfold on_range_event. destruct (event_type ev); try done.
    1-3: set (s := default _ _);
      assert (Forall (fun r => Range.committed r = None) (Stream.ranges s)) as Hs
        by (unfold s; destruct (get_stream m _) as [s'|] eqn:Es; [by apply (Hm _ _ Es)|done]).
    1-3: apply map_Forall_insert_2; [|done].
    1-3: destruct (Stream.get_range s _) as [r|] eqn:Er; [|by apply create_uncommitted].
    1-3: simpl; apply set_first_uncommitted; [|done]; simpl; by eapply find_uncommitted.
    destruct (get_stream m _) as [s|] eqn:Es; [|done]. apply map_Forall_insert_2; [|done]. simpl.
    pose proof (Hm _ _ Es) as Hs. rewrite Forall_forall in *.
    intros r [Hr _]%list_elem_of_In%filter_In. by apply Hs, list_elem_of_In.
Qed.

Lemma restarted_uncommitted evs : uncommitted (restarted evs).
Proof.
  unfold restarted. assert (uncommitted (Manager.mk ∅)) as H by done. revert H. generalize (Manager.mk ∅).
  induction evs as [|ev evs IH]; intros m Hm; simpl; [done|]. by apply IH, event_uncommitted.
Qed.

(** What it takes a range to start at. *)
Definition known_start (m : Manager.t) (md : RangeMetadata.t) : Z :=
  match get_range m (RangeMetadata.stream_id md) (RangeMetadata.index md) with
  | Some r => RangeMetadata.start (Range.metadata r)
  | None => RangeMetadata.start md
  end.

Lemma find_create s md r :
  Stream.get_range s (RangeMetadata.index md) = None ->
  Stream.get_range (Stream.create_range s md) (RangeMetadata.index md) = Some r -> r = Range.new md.
Proof.
  intros Hn. unfold Stream.create_range. destruct (Stream.verify_stream_id s md); [|congruence]. rewrite Hn.
  unfold Stream.get_range at 1. simpl. intros [Hin Hi]%find_some.
  rewrite <- list_elem_of_In, merge_sort_Permutation, elem_of_app, list_elem_of_singleton in Hin.
  destruct Hin as [Hin|?]; [|done]. rewrite list_elem_of_In in Hin.
  by pose proof (find_none _ _ Hn _ Hin) as Hf; simpl in Hf; rewrite Hi in Hf.
Qed.

(** A seal is answered by the start of the range. *)
Lemma uncommitted_seal m md md' m' :
  uncommitted m -> seal m md = (Ok md', m') -> RangeMetadata.end_ md' = Some (known_start m md).
Proof.
  intros Hm. unfold seal, known_start, get_range. set (index := RangeMetadata.index md).
  assert (forall s, Stream.get_range s index = None -> forall res s',
      Stream.seal (Stream.create_range s md) md = (res, s') -> forall x, res = Ok x ->
      RangeMetadata.end_ x = Some (RangeMetadata.start md)) as Hnew.
  { intros s Hn res s'. unfold Stream.seal. destruct (Stream.verify_stream_id _ _); [|by intros [= <- _] x].
    destruct (Stream.get_range (Stream.create_range s md) _) as [r|] eqn:Er; [|by intros [= <- _] x].
    apply find_create in Er as ->; [|done]. by intros [= <- _] x [= <-]. }
  destruct (get_stream m (RangeMetadata.stream_id md)) as [s|] eqn:Es; simpl.
  - unfold Stream.has_range. destruct (Stream.get_range s index) as [r|] eqn:Er.
    + assert (existsb (fun r => Range.index r =? index) (Stream.ranges s) = true) as ->
        by (apply existsb_exists; apply find_some in Er; by exists r).
      unfold Stream.seal. destruct (Stream.verify_stream_id s md); [|done]. fold index. rewrite Er. intros [= <- _].
      unfold Range.seal. simpl. by rewrite (find_uncommitted index _ r (Hm _ _ Es) Er).
    + assert (existsb (fun r => Range.index r =? index) (Stream.ranges s) = false) as ->.
      { apply not_true_is_false. intros (x & Hx & Hi)%existsb_exists.
        pose proof (find_none _ _ Er _ Hx) as Hf. simpl in Hf. congruence. }
      destruct (Stream.seal _ md) as [res s'] eqn:Ese. intros [= -> _]. by eapply Hnew.
  - destruct (Stream.seal _ md) as [res s'] eqn:Ese. destruct res as [x|]; [|done]. intros [= <- _].
    by eapply (Hnew (Stream.new (unknown_stream (RangeMetadata.stream_id md)))).
Qed.

(** The end that server [i] answers to a seal of [md] after it has started again; [evs] is
    what it has read since. *)
Definition restart_sealed (md : RangeMetadata.t) (evs : nat -> list ResourceEvent) (i : nat) (e : Z) : Prop :=
  exists md' m', seal (restarted (evs i)) md = (Ok md', m') /\ RangeMetadata.end_ md' = Some e.

Lemma restart_sealed_start md evs i e :
  known_start (restarted (evs i)) md = RangeMetadata.start md -> restart_sealed md evs i e ->
  e = RangeMetadata.start md.
Proof.
  intros Hk (md' & m' & Hs & He). apply uncommitted_seal in Hs; [|apply restarted_uncommitted]. congruence.
Qed.

Lemma servers_history_witness :
  let server i := if (i =? 0)%nat then Some (Example_.m0, Example_.trace Example_.ops) else None in
  ServerHistory 100 (server_acked Example_.md server) (server_sealed Example_.md server) /\
  server_acked Example_.md server 0 102 /\ server_sealed Example_.md server 0 102.
Proof.
  pose proof Example_.ops_trace as Htr. split; [|split].
  - apply (servers_history Example_.md). intros i m tr Hi. destruct (i =? 0)%nat; [|done].
    injection Hi as <- <-. split; [apply Example_.m0_reachable|]. split; [eexists; apply Example_.ops_exec|].
    destruct (get_range Example_.m0 7 0) as [r|] eqn:Hr; [|by vm_compute in Hr].
    exists r. split; [done|]. vm_compute in Hr. injection Hr as <-. by vm_compute.
  - exists Example_.m0, (Example_.trace Example_.ops). split; [done|]. exists 100, 2. rewrite Htr.
    split; [set_solver|done].
  - exists Example_.m0, (Example_.trace Example_.ops). split; [done|].
    exists Example_.md, (RangeMetadata.set_end Example_.md 102). rewrite Htr. split; [set_solver|done].
Defined.
