(* ===== verification/ReplicationStream.v ===== *)
(** * The replication client: streams

    [components/replication/src/stream/replication_stream.rs]: a stream appends to its last
    range; when that range is not writable any more it is sealed, and a new range is
    created from its end on, to which the batches that were not confirmed are appended
    again.

    The ranges are shared by the map of ranges, [last_range] and the tasks, so the stream
    keeps them in a heap and refers to them by their place in it.  The task [append_task] is
    a state machine: [append_pc] tells where it waits.  So are the seals that are running
    ([seal_job]) and the tasks of the replicas. *)

From S2P Require Import Prelude Bytes Model Record RecordsBlock Collections ReplicaCache Replication.

Module StreamAppendRequest.
Record t := mk {
  base_offset : Z;             (* u64 *)
  record_batch : RecordBatch.t;
  append_tx : option Z;        (* the caller, until it has been answered *)
}.
Definition count (q : t) : Z := as_uint 32 (last_offset_delta (record_batch q)).
Definition take_tx (q : t) : t := mk (base_offset q) (record_batch q) None.
End StreamAppendRequest.

Module Stream.
Import StreamAppendRequest (base_offset, record_batch, append_tx).

(** Who waits for a seal. *)
Inductive owner := Opener | Appender | Closer.

Inductive job_state :=
| JobWait                                   (* for another call to complete the seal *)
| JobPd (end_offset : Z)                    (* for the placement driver *)
| JobReplicas (unsent waiting : list nat) (ends : list Z). (* for the tasks of the replicas *)

Record seal_job := mk_job { who : owner; range : nat; state : job_state }.

(** Where [append_task] waits. *)
Inductive append_pc :=
| AtSelect
| InSeal                                    (* in [last_range.seal()] *)
| InCreate (first : bool) (index start : Z) (* in [new_range]; [first] if there is no range yet *)
| InSleep
| Stopped.

Record t := mk {
  id : Z; epoch : Z;           (* u64 *)
  client : bool;               (* whether the client is still there *)
  heap : list Range.t;
  ranges : @BTreeMap.t nat;    (* by start offset *)
  last_range : option nat;
  next_offset : Z;             (* u64 *)
  start_offset : Z;            (* u64 *)
  closed : bool;
  cache : HotCache.t;
  append_requests : list StreamAppendRequest.t; (* the channel *)
  append_tasks : nat;          (* the messages in the channel *)
  shutdown_signal : bool;
  (* the variables of [append_task] *)
  inflight : @BTreeMap.t StreamAppendRequest.t;
  next_append_start_offset : Z; (* u64 *)
  append_error : option EsError.t;
  rewind : option Z;           (* of [get_writable_range] *)
  pc : append_pc;
  (* the other tasks *)
  jobs : list seal_job;
  replica_tasks : list (nat * nat * Replica.next); (* range and replica *)
  sealing_replicas : list (nat * nat * Z * bool); (* the tasks that seal the replicas of a sealed
                                  range: range, replica, end offset, and whether it has sent *)
  answers : list (Z * result Z EsError.t);
}.

Definition new (id epoch : Z) (cache : HotCache.t) : t :=
  mk id epoch true [] [] None 0 0 false cache [] 0 false [] 0 None None AtSelect [] [] [] [].

Definition set_heap (s : t) (x : list Range.t) : t :=
  mk (id s) (epoch s) (client s) x (ranges s) (last_range s) (next_offset s) (start_offset s) (closed s) (cache s)
     (append_requests s) (append_tasks s) (shutdown_signal s) (inflight s) (next_append_start_offset s) (append_error s)
     (rewind s) (pc s) (jobs s) (replica_tasks s) (sealing_replicas s) (answers s).
Definition set_ranges (s : t) (x : @BTreeMap.t nat) (last : option nat) : t :=
  mk (id s) (epoch s) (client s) (heap s) x last (next_offset s) (start_offset s) (closed s) (cache s)
     (append_requests s) (append_tasks s) (shutdown_signal s) (inflight s) (next_append_start_offset s) (append_error s)
     (rewind s) (pc s) (jobs s) (replica_tasks s) (sealing_replicas s) (answers s).
Definition set_offsets (s : t) (next start : Z) : t :=
  mk (id s) (epoch s) (client s) (heap s) (ranges s) (last_range s) next start (closed s) (cache s)
     (append_requests s) (append_tasks s) (shutdown_signal s) (inflight s) (next_append_start_offset s) (append_error s)
     (rewind s) (pc s) (jobs s) (replica_tasks s) (sealing_replicas s) (answers s).
Definition set_closed (s : t) : t :=
  mk (id s) (epoch s) (client s) (heap s) (ranges s) (last_range s) (next_offset s) (start_offset s) true (cache s)
     (append_requests s) (append_tasks s) true (inflight s) (next_append_start_offset s) (append_error s)
     (rewind s) (pc s) (jobs s) (replica_tasks s) (sealing_replicas s) (answers s).
Definition set_cache (s : t) (x : HotCache.t) : t :=
  mk (id s) (epoch s) (client s) (heap s) (ranges s) (last_range s) (next_offset s) (start_offset s) (closed s) x
     (append_requests s) (append_tasks s) (shutdown_signal s) (inflight s) (next_append_start_offset s) (append_error s)
     (rewind s) (pc s) (jobs s) (replica_tasks s) (sealing_replicas s) (answers s).
Definition set_requests (s : t) (x : list StreamAppendRequest.t) : t :=
  mk (id s) (epoch s) (client s) (heap s) (ranges s) (last_range s) (next_offset s) (start_offset s) (closed s) (cache s)
     x (append_tasks s) (shutdown_signal s) (inflight s) (next_append_start_offset s) (append_error s)
     (rewind s) (pc s) (jobs s) (replica_tasks s) (sealing_replicas s) (answers s).
Definition set_ticks (s : t) (x : nat) : t :=
  mk (id s) (epoch s) (client s) (heap s) (ranges s) (last_range s) (next_offset s) (start_offset s) (closed s) (cache s)
     (append_requests s) x (shutdown_signal s) (inflight s) (next_append_start_offset s) (append_error s)
     (rewind s) (pc s) (jobs s) (replica_tasks s) (sealing_replicas s) (answers s).
Definition set_inflight (s : t) (x : @BTreeMap.t StreamAppendRequest.t) : t :=
  mk (id s) (epoch s) (client s) (heap s) (ranges s) (last_range s) (next_offset s) (start_offset s) (closed s) (cache s)
     (append_requests s) (append_tasks s) (shutdown_signal s) x (next_append_start_offset s) (append_error s)
     (rewind s) (pc s) (jobs s) (replica_tasks s) (sealing_replicas s) (answers s).
Definition set_next_append (s : t) (x : Z) : t :=
  mk (id s) (epoch s) (client s) (heap s) (ranges s) (last_range s) (next_offset s) (start_offset s) (closed s) (cache s)
     (append_requests s) (append_tasks s) (shutdown_signal s) (inflight s) x (append_error s)
     (rewind s) (pc s) (jobs s) (replica_tasks s) (sealing_replicas s) (answers s).
Definition set_error (s : t) (e : EsError.t) : t :=
  mk (id s) (epoch s) (client s) (heap s) (ranges s) (last_range s) (next_offset s) (start_offset s) (closed s) (cache s)
     (append_requests s) (append_tasks s) (shutdown_signal s) (inflight s) (next_append_start_offset s) (Some e)
     (rewind s) (pc s) (jobs s) (replica_tasks s) (sealing_replicas s) (answers s).
Definition set_rewind (s : t) (x : option Z) : t :=
  mk (id s) (epoch s) (client s) (heap s) (ranges s) (last_range s) (next_offset s) (start_offset s) (closed s) (cache s)
     (append_requests s) (append_tasks s) (shutdown_signal s) (inflight s) (next_append_start_offset s) (append_error s)
     x (pc s) (jobs s) (replica_tasks s) (sealing_replicas s) (answers s).
Definition set_pc (s : t) (x : append_pc) : t :=
  mk (id s) (epoch s) (client s) (heap s) (ranges s) (last_range s) (next_offset s) (start_offset s) (closed s) (cache s)
     (append_requests s) (append_tasks s) (shutdown_signal s) (inflight s) (next_append_start_offset s) (append_error s)
     (rewind s) x (jobs s) (replica_tasks s) (sealing_replicas s) (answers s).
Definition set_jobs (s : t) (x : list seal_job) : t :=
  mk (id s) (epoch s) (client s) (heap s) (ranges s) (last_range s) (next_offset s) (start_offset s) (closed s) (cache s)
     (append_requests s) (append_tasks s) (shutdown_signal s) (inflight s) (next_append_start_offset s) (append_error s)
     (rewind s) (pc s) x (replica_tasks s) (sealing_replicas s) (answers s).
Definition set_tasks (s : t) (x : list (nat * nat * Replica.next)) : t :=
  mk (id s) (epoch s) (client s) (heap s) (ranges s) (last_range s) (next_offset s) (start_offset s) (closed s) (cache s)
     (append_requests s) (append_tasks s) (shutdown_signal s) (inflight s) (next_append_start_offset s) (append_error s)
     (rewind s) (pc s) (jobs s) x (sealing_replicas s) (answers s).
Definition set_background (s : t) (x : list (nat * nat * Z * bool)) : t :=
  mk (id s) (epoch s) (client s) (heap s) (ranges s) (last_range s) (next_offset s) (start_offset s) (closed s) (cache s)
     (append_requests s) (append_tasks s) (shutdown_signal s) (inflight s) (next_append_start_offset s) (append_error s)
     (rewind s) (pc s) (jobs s) (replica_tasks s) x (answers s).
Definition answer (s : t) (x : list (Z * result Z EsError.t)) : t :=
  mk (id s) (epoch s) (client s) (heap s) (ranges s) (last_range s) (next_offset s) (start_offset s) (closed s) (cache s)
     (append_requests s) (append_tasks s) (shutdown_signal s) (inflight s) (next_append_start_offset s) (append_error s)
     (rewind s) (pc s) (jobs s) (replica_tasks s) (sealing_replicas s) (answers s ++ x).
Definition drop_client (s : t) : t :=
  mk (id s) (epoch s) false (heap s) (ranges s) (last_range s) (next_offset s) (start_offset s) (closed s) (cache s)
     (append_requests s) (append_tasks s) (shutdown_signal s) (inflight s) (next_append_start_offset s) (append_error s)
     (rewind s) (pc s) (jobs s) (replica_tasks s) (sealing_replicas s) (answers s).

Definition closed_error : EsError.t := EsError.new ErrorCode.STREAM_ALREADY_CLOSED "stream is closed".

(** [success] and [fail]: the answer to a caller that has none yet. *)
Definition reply (q : StreamAppendRequest.t) (res : result Z EsError.t) : list (Z * result Z EsError.t) :=
  match append_tx q with Some caller => [(caller, res)] | None => [] end.

(** The caller of [append] gets the base offset of the request. *)
Definition success (s : t) (q : StreamAppendRequest.t) : t := answer s (reply q (Ok (base_offset q))).
Definition fail (s : t) (q : StreamAppendRequest.t) (e : EsError.t) : t := answer s (reply q (Err e)).

Definition fail_all (s : t) (e : EsError.t) : t :=
  let s := answer s (concat ((fun kq : Z * _ => reply kq.2 (Err e)) <$> inflight s)) in
  set_inflight s ((fun kq : Z * _ => (kq.1, StreamAppendRequest.take_tx kq.2)) <$> inflight s).

(** [append_task] ends: the requests in its channel are dropped with it. *)
Definition stop (s : t) : t :=
  let s := fail_all s closed_error in
  let s := answer s (concat ((fun q => reply q (Err closed_error)) <$> append_requests s)) in
  set_pc (set_requests s []) Stopped.

Definition trigger_append_task (s : t) : t := set_ticks s (S (append_tasks s)).
Definition try_ack (s : t) : t := trigger_append_task s.

(** ** Appending *)

Definition append (s : t) (caller : Z) (record_batch : RecordBatch.t) : outcome t :=
  if closed s then Ret (answer s [(caller, Err closed_error)])
  else
  let base_offset := next_offset s in
  next ← u64_add base_offset (last_offset_delta record_batch);
  let s := set_offsets s next (start_offset s) in
  match pc s with
  | Stopped => Ret (answer s [(caller, Err closed_error)]) (* the channel is closed *)
  | _ => Ret (set_requests s (append_requests s ++ [StreamAppendRequest.mk base_offset record_batch (Some caller)]))
  end.

Section append_task.
Context {B : BytesApi} {M : MetaApi}.
Context (iterate : gmap string string -> list (string * string)).

Fixpoint spawned (k i : nat) (l : list (option Replica.task)) : list (nat * nat * Replica.next) :=
  match l with
  | [] => []
  | Some tk :: l => (k, i, Replica.Sleeping tk) :: spawned k (S i) l
  | None :: l => spawned k (S i) l
  end.

(** Appends to a range, from the cursor on. *)
Fixpoint append_loop (s : t) (k : nat) (cursor : @BTreeMap.t StreamAppendRequest.t) : outcome t :=
  match cursor with
  | [] => Ret s
  | (base, q) :: cursor =>
      match heap s !! k with
      | None => Panic
      | Some r =>
          '(r, c, tasks) ← Range.append iterate r (cache s) (client s) (record_batch q) base;
          let s := set_cache (set_heap s (<[k := r]> (heap s))) c in
          let s := set_tasks s (replica_tasks s ++ spawned k 0 tasks) in
          next ← u64_add base (StreamAppendRequest.count q);
          append_loop (set_next_append s next) k cursor
      end
  end.

(** [append_task0] after [get_writable_range], and what [append_task] does with its error. *)
Definition append_task0 (s : t) (k : nat) : outcome t :=
  let s := match rewind s with Some x => set_next_append s x | None => s end in
  let s := set_pc s AtSelect in
  match inflight s with
  | [] => Ret s
  | _ =>
      match heap s !! k with
      | None => Panic
      | Some r =>
          let confirm_offset := Range.confirm_offset r in
          let acked := List.filter (fun kq : Z * _ => kq.1 <? confirm_offset) (inflight s) in
          let s := answer s (concat ((fun kq : Z * _ => reply kq.2 (Ok (base_offset kq.2))) <$> acked)) in
          let s := set_inflight s (drop (length acked) (inflight s)) in
          append_loop s k (BTreeMap.range_from (inflight s) (next_append_start_offset s))
      end
  end.

Definition append_failed (s : t) (e : EsError.t) : t := set_pc (fail_all (set_error s e) e) AtSelect.

(** ** [get_writable_range] *)

Definition create_failed (s : t) (first : bool) (e : EsError.t) : t :=
  if negb first && (EsError.code e =? ErrorCode.EXPIRED_STREAM_EPOCH) then append_failed s e
  else set_pc s InSleep.

Definition new_range_start (s : t) (first : bool) (index start : Z) : t :=
  if client s then set_pc s (InCreate first index start)
  else create_failed s first (EsError.new ErrorCode.UNEXPECTED "new range fail, client is drop").

(** The seal of the last range has returned. *)
Definition after_seal (s : t) (k : nat) (res : result Z EsError.t) : outcome t :=
  match res with
  | Ok end_offset =>
      match heap s !! k with
      | None => Panic
      | Some r =>
          index ← u32_add (as_uint 32 (RangeMetadata.index (Range.metadata r))) 1;
          Ret (new_range_start (set_rewind s (Some end_offset)) false index end_offset)
      end
  | Err e =>
      Ret (if EsError.code e =? ErrorCode.EXPIRED_STREAM_EPOCH then append_failed s e
           else set_pc s InSleep)
  end.

(** The end of [open]. *)
Definition after_open (s : t) (res : result Z EsError.t) : t :=
  match res with
  | Ok confirm_offset =>
      set_offsets s confirm_offset (match ranges s with [] => 0 | (k, _) :: _ => k end)
  | Err _ => s
  end.

(** A seal returns to its caller. *)
Definition seal_returns (s : t) (w : owner) (k : nat) (res : result Z EsError.t) : outcome t :=
  match w with
  | Opener => Ret (after_open s res)
  | Appender => after_seal s k res
  | Closer => Ret s
  end.

(** A call of [seal] on a range. *)
Definition seal (s : t) (w : owner) (k : nat) : outcome t :=
  match heap s !! k with
  | None => Panic
  | Some r =>
      let '(r, next) := Range.seal_start r in
      let s := set_heap s (<[k := r]> (heap s)) in
      match next with
      | Range.SealReturn res => seal_returns s w k res
      | Range.SealWait => Ret (set_jobs s (jobs s ++ [mk_job w k JobWait]))
      | Range.SealPd e =>
          match Range.placement_driver_seal r (client s) e with
          | Ok _ => Ret (set_jobs s (jobs s ++ [mk_job w k (JobPd e)]))
          | Err err =>
              let '(r, res, _) := Range.seal_pd_done r e (Err err) in
              seal_returns (set_heap s (<[k := r]> (heap s))) w k res
          end
      | Range.SealReplicas =>
          Ret (set_jobs s (jobs s ++ [mk_job w k (JobReplicas (seq 0 (length (Range.replicas r))) [] [])]))
      end
  end.

(** The head of the loop of [get_writable_range]. *)
Definition get_writable_range (s : t) : outcome t :=
  match last_range s with
  | Some k =>
      match heap s !! k with
      | None => Panic
      | Some r =>
          if Range.is_writable r then append_task0 s k
          else seal (set_pc s InSeal) Appender k
      end
  | None => Ret (new_range_start s true 0 0)
  end.

(** An iteration of [append_task] after its [select]. *)
Definition append_round (s : t) : outcome t :=
  if closed s then Ret (stop s)
  else get_writable_range (set_rewind s None).

Definition recv_request (s : t) (q : StreamAppendRequest.t) : outcome t :=
  match append_error s with
  | Some e => Ret (fail s q e)
  | None => append_round (set_inflight s (BTreeMap.insert (inflight s) (base_offset q) q))
  end.

(** [R::create] has returned the metadata of the new range. *)
Definition create_done (s : t) (first : bool) (start : Z) (res : result RangeMetadata.t EsError.t) : outcome t :=
  match res with
  | Ok metadata =>
      let k := length (heap s) in
      let s := set_heap s (heap s ++ [Range.new metadata true]) in
      let s := set_ranges s (BTreeMap.insert (ranges s) start k) (Some k) in
      get_writable_range s
  | Err e => Ret (create_failed s first e)
  end.

(** ** The tasks of the replicas *)

(** So many calls of the [ack] callback: [try_ack] of the range, whose callback is
    [try_ack] of the stream. *)
Fixpoint acks (s : t) (k : nat) (n : nat) : outcome t :=
  match n with
  | O => Ret s
  | S n =>
      match heap s !! k with
      | None => Panic
      | Some r =>
          '(r, called) ← Range.try_ack r;
          let s := set_heap s (<[k := r]> (heap s)) in
          acks (if called : bool then try_ack s else s) k n
      end
  end.

(** The task at place [j] of the list goes on with a function of its replica. *)
Definition replica_step (s : t) (j k i : nat) (f : Replica.t -> Replica.t * Replica.next) : outcome t :=
  match heap s !! k with
  | None => Panic
  | Some r =>
      match Range.replicas r !! i with
      | None => Panic
      | Some x =>
          let '(x, next) := f x in
          let s := set_heap s (<[k := Range.set_replicas r (<[i := x]> (Range.replicas r))]> (heap s)) in
          match next with
          | Replica.Finished n => acks (set_tasks s (delete j (replica_tasks s))) k n
          | _ => Ret (set_tasks s (<[j := (k, i, next)]> (replica_tasks s)))
          end
      end
  end.

(** ** The seals *)

(** The placement driver answers the job at place [j]. *)
Definition pd_answers (s : t) (j : nat) (res : result unit EsError.t) : outcome t :=
  match jobs s !! j with
  | Some (mk_job w k (JobPd e)) =>
      match heap s !! k with
      | None => Panic
      | Some r =>
          let '(r', out, sent) := Range.seal_pd_done r e res in
          let s := set_jobs (set_heap s (<[k := r']> (heap s))) (delete j (jobs s)) in
          let s := match sent with
                   | Some e =>
                       if Range.open_for_write r then
                         set_background s (sealing_replicas s ++
                           ((fun i => (k, i, e, false)) <$> seq 0 (length (Range.replicas r))))
                       else s
                   | None => s
                   end in
          seal_returns s w k out
      end
  | _ => Ret s
  end.

(** A task of a job sends its request, or ends because there is no client. *)
Definition replica_sends (s : t) (j i : nat) : outcome t :=
  match jobs s !! j with
  | Some (mk_job w k (JobReplicas unsent waiting ends)) =>
      match heap s !! k with
      | None => Panic
      | Some r =>
          if decide (i ∈ unsent) then
            let '(r, req) := Range.replica_seal_start r i (client s) None in
            let unsent := List.filter (fun x => negb (Nat.eqb x i)) unsent in
            let waiting := match req with Ok _ => i :: waiting | Err _ => waiting end in
            Ret (set_jobs (set_heap s (<[k := r]> (heap s)))
                   (<[j := mk_job w k (JobReplicas unsent waiting ends)]> (jobs s)))
          else Ret s
      end
  | _ => Ret s
  end.

(** A task of a job gets the answer of its range server. *)
Definition replica_answers (s : t) (j i : nat) (res : result RangeMetadata.t EsError.t) : outcome t :=
  match jobs s !! j with
  | Some (mk_job w k (JobReplicas unsent waiting ends)) =>
      match heap s !! k with
      | None => Panic
      | Some r =>
          if decide (i ∈ waiting) then
            let '(r, e) := Range.replica_seal_done r i res in
            let waiting := List.filter (fun x => negb (Nat.eqb x i)) waiting in
            let ends := match e with Some e => ends ++ [e] | None => ends end in
            Ret (set_jobs (set_heap s (<[k := r]> (heap s)))
                   (<[j := mk_job w k (JobReplicas unsent waiting ends)]> (jobs s)))
          else Ret s
      end
  | _ => Ret s
  end.

(** All replicas have answered. *)
Definition replicas_answered (s : t) (j : nat) : outcome t :=
  match jobs s !! j with
  | Some (mk_job w k (JobReplicas [] [] ends)) =>
      match heap s !! k with
      | None => Panic
      | Some r =>
          '(r, next) ← Range.seal_replicas_done r ends;
          let s := set_heap s (<[k := r]> (heap s)) in
          match next with
          | Range.SealPd e =>
              match Range.placement_driver_seal r (client s) e with
              | Ok _ => Ret (set_jobs s (<[j := mk_job w k (JobPd e)]> (jobs s)))
              | Err err =>
                  let '(r, res, _) := Range.seal_pd_done r e (Err err) in
                  seal_returns (set_jobs (set_heap s (<[k := r]> (heap s))) (delete j (jobs s))) w k res
              end
          | Range.SealReturn res => seal_returns (set_jobs s (delete j (jobs s))) w k res
          | _ => Ret s
          end
      end
  | _ => Ret s
  end.

(** A waiting call gets the broadcast result of a seal that has completed. *)
Definition wakes (s : t) (j : nat) (e : Z) : outcome t :=
  match jobs s !! j with
  | Some (mk_job w k JobWait) => seal_returns (set_jobs s (delete j (jobs s))) w k (Ok e)
  | _ => Ret s
  end.

(** The tasks that seal the replicas of a range that the placement driver has sealed. *)
Definition background_sends (s : t) (j : nat) : outcome t :=
  match sealing_replicas s !! j with
  | Some (k, i, e, false) =>
      match heap s !! k with
      | None => Panic
      | Some r =>
          let '(r, req) := Range.replica_seal_start r i (client s) (Some e) in
          let s := set_heap s (<[k := r]> (heap s)) in
          Ret (set_background s (match req with
                                 | Ok _ => <[j := (k, i, e, true)]> (sealing_replicas s)
                                 | Err _ => delete j (sealing_replicas s)
                                 end))
      end
  | _ => Ret s
  end.

Definition background_answers (s : t) (j : nat) (res : result RangeMetadata.t EsError.t) : outcome t :=
  match sealing_replicas s !! j with
  | Some (k, i, e, true) =>
      match heap s !! k with
      | None => Panic
      | Some r =>
          let '(r, _) := Range.replica_seal_done r i res in
          Ret (set_background (set_heap s (<[k := r]> (heap s))) (delete j (sealing_replicas s)))
      end
  | _ => Ret s
  end.

(** ** [open], [close], [trim] and [delete] *)

(** The ranges that the placement driver lists, in the order of their indexes. *)
Fixpoint load_ranges (s : t) (l : list RangeMetadata.t) : t :=
  match l with
  | [] => s
  | m :: l =>
      let k := length (heap s) in
      let s := set_heap s (heap s ++ [Range.new m false]) in
      load_ranges (set_ranges s (BTreeMap.insert (ranges s) (RangeMetadata.start m) k) (last_range s)) l
  end.

Definition index_le (a b : RangeMetadata.t) : Prop := RangeMetadata.index a <= RangeMetadata.index b.
#[global] Instance index_le_dec : RelDecision index_le.
Proof. intros a b. unfold index_le. apply _. Defined.

(** After the stream is fenced and its ranges are listed. *)
Definition open (s : t) (listed : list RangeMetadata.t) : outcome t :=
  let s := load_ranges s (merge_sort index_le listed) in
  match BTreeMap.last_key_value (ranges s) with
  | Some (_, k) => seal (set_ranges s (ranges s) (Some k)) Opener k
  | None => Ret (set_offsets s (next_offset s) 0)
  end.

Definition close (s : t) : outcome t :=
  let s := set_closed s in
  match last_range s with Some k => seal s Closer k | None => Ret s end.

Definition trim (s : t) (new_start_offset : Z) : t :=
  let s := set_offsets s (next_offset s) new_start_offset in
  match BTreeMap.last_key_value (ranges s) with
  | None => s
  | Some (last, _) =>
      set_ranges s
        (List.filter (fun e : Z * nat =>
           (e.1 =? last) ||
           match heap s !! e.2 with
           | Some r => match RangeMetadata.end_ (Range.metadata r) with
                       | Some x => new_start_offset <? x
                       | None => true
                       end
           | None => false
           end) (ranges s)) (last_range s)
  end.

Definition delete_stream (s : t) : t := set_ranges s [] None.
End append_task.

Definition confirm_offset (s : t) : Z :=
  match last_range s with
  | Some k => match heap s !! k with Some r => Range.confirm_offset r | None => 0 end
  | None => 0
  end.

(** ** [fetch] *)

(** Which range to fetch from, the end offset, and whether the answer is the whole. *)
Inductive fetch_plan :=
| FetchNothing
| FetchRange (k : nat) (end_offset : Z) (last : bool)
| FetchFails (e : EsError.t).

Definition out_of_range : EsError.t :=
  EsError.new ErrorCode.OFFSET_OUT_OF_RANGE_BOUNDS "fetch out of range".

Definition fetch_start (s : t) (start_offset end_offset : Z) : fetch_plan :=
  if start_offset =? end_offset then FetchNothing
  else
    match last_range s with
    | None => FetchFails out_of_range
    | Some k =>
        match heap s !! k with
        | None => FetchFails out_of_range
        | Some r =>
            if Range.confirm_offset r <? end_offset then FetchFails out_of_range
            else if Range.start_offset r <=? start_offset then FetchRange k end_offset true
            else
              match BTreeMap.upper_bound (ranges s) start_offset with
              | (_, k) :: _ =>
                  match heap s !! k with
                  | None => FetchFails out_of_range
                  | Some r =>
                      if start_offset <? Range.start_offset r then FetchFails out_of_range
                      else FetchRange k (Z.min end_offset (Range.confirm_offset r)) false
                  end
              | [] => FetchFails out_of_range
              end
        end
    end.

(** The dataset of a range, as that of the stream. *)
Definition fetch_done (last : bool) (res : result FetchDataset EsError.t) : result FetchDataset EsError.t :=
  if last then res
  else
    match res with
    | Ok (Full blocks) => Ok (Partial blocks)
    | Ok (Mixin blocks objects) => Ok (Mixin blocks objects)
    | Ok _ => Err (EsError.new ErrorCode.UNEXPECTED "fetch dataset should not be Partial or Overflow")
    | Err e => Err e
    end.
End Stream.
