(* ===== verification/RangeWriter.v ===== *)
(** * A range that is written

    What the operations of a range that is open for write keep: it confirms only what a
    quorum of its range servers has acknowledged, and nothing once it is being sealed. *)

From S2P Require Import Prelude Bytes Model Record RecordsBlock ReplicaCache Replication Quorum.

(** ** The status bits *)

Lemma land_bit s n : 0 <= n -> negb (Z.land s (2 ^ n) =? 0) = Z.testbit s n.
Proof.
  intros Hn. destruct (Z.testbit s n) eqn:E.
  - apply negb_true_iff, Z.eqb_neq. intros H0. apply (f_equal (fun z => Z.testbit z n)) in H0.
    by rewrite Z.land_spec, E, Z.pow2_bits_true, Z.bits_0 in H0.
  - apply negb_false_iff, Z.eqb_eq. apply Z.bits_inj_0. intros i. rewrite Z.land_spec.
    destruct (decide (i = n)) as [->|Hne]; [by rewrite E|].
    by rewrite (Z.pow2_bits_false n i) by lia; apply andb_false_r.
Qed.

Lemma is_sealed_bit r : Range.is_sealed r = Z.testbit (Range.status r) 2.
Proof. by apply (land_bit _ 2). Qed.
Lemma is_sealing_bit r : Range.is_sealing r = Z.testbit (Range.status r) 1.
Proof. by apply (land_bit _ 1). Qed.

Lemma writable_inv r :
  Range.is_writable r = true ->
  Range.open_for_write r = true /\ Range.is_sealed r = false /\ Range.is_sealing r = false.
Proof.
  unfold Range.is_writable. intros [Hs%Z.eqb_eq Ho]%andb_true_iff.
  by rewrite is_sealed_bit, is_sealing_bit, Hs, !Z.bits_0.
Qed.

Lemma sealed_readonly r : Range.is_sealed r = true -> Range.is_writable r = false.
Proof.
  intros Hs. destruct (Range.is_writable r) eqn:E; [|done]. apply writable_inv in E as (_ & ? & ?). congruence.
Qed.
Lemma sealing_readonly r : Range.is_sealing r = true -> Range.is_writable r = false.
Proof.
  intros Hs. destruct (Range.is_writable r) eqn:E; [|done]. apply writable_inv in E as (_ & ? & ?). congruence.
Qed.

Ltac status_bits :=
  rewrite ?is_sealing_bit, ?is_sealed_bit;
  unfold Range.mark_sealing, Range.mark_corrupted, Range.mark_sealed, Range.erase_sealing, Range.set_status;
  cbn [Range.status]; rewrite ?Z.land_spec, ?Z.lor_spec, ?Z.lnot_spec by lia.

Lemma mark_sealing_status r :
  Range.is_sealing (Range.mark_sealing r) = true /\
  Range.is_sealed (Range.mark_sealing r) = Range.is_sealed r.
Proof.
  status_bits. split; [apply orb_true_r|apply orb_false_r].
Qed.

Lemma erase_sealing_status r : Range.is_sealed (Range.erase_sealing r) = Range.is_sealed r.
Proof.
  status_bits. apply andb_true_r.
Qed.

Lemma mark_sealed_status r : Range.is_sealed (Range.mark_sealed r) = true.
Proof. status_bits. by rewrite orb_true_r. Qed.

Lemma mark_corrupted_status r :
  Range.is_sealed (Range.mark_corrupted r) = Range.is_sealed r /\
  Range.is_sealing (Range.mark_corrupted r) = Range.is_sealing r /\
  Range.is_writable (Range.mark_corrupted r) = false.
Proof.
  status_bits. split_and!; [apply orb_false_r..|]. unfold Range.is_writable. cbn [Range.status].
  rewrite (proj2 (Z.eqb_neq _ _)); [done|]. intros H0.
  apply (f_equal (fun z => Z.testbit z 0)) in H0. rewrite Z.lor_spec, Z.bits_0, orb_true_r in H0. done.
Qed.

(** ** The range *)

Section writer.
Context (acked : nat -> Z -> Prop).

(** A replica has confirmed no more than its server has acknowledged. *)
Definition replica_ok (start next : Z) (i : nat) (x : Replica.t) : Prop :=
  Replica.confirm_offset x <= next /\
  (Replica.confirm_offset x <= start \/
   exists y, Replica.confirm_offset x <= y /\ acked i y).

Record writer_ok (r : Range.t) : Prop := {
  wo_open : Range.open_for_write r = true;
  wo_md : metadata_ok (Range.metadata r);
  wo_replicas : length (Range.replicas r) = length (RangeMetadata.replica (Range.metadata r));
  wo_start : RangeMetadata.start (Range.metadata r) <= Range.confirm_offset r;
  wo_next : Range.confirm_offset r <= Range.next_offset r;
  wo_quorum : on_quorum (Range.metadata r) acked (Range.confirm_offset r);
  wo_confirmed i x : Range.is_sealed r = false -> Range.replicas r !! i = Some x ->
    replica_ok (RangeMetadata.start (Range.metadata r)) (Range.next_offset r) i x;
}.

Lemma new_ok md :
  metadata_ok md -> RangeMetadata.end_ md = None -> writer_ok (Range.new md true).
Proof.
  intros Hmd Hend. unfold Range.new. rewrite Hend. split; simpl; try done; try lia.
  - by rewrite length_fmap.
  - by left.
  - intros i x _. rewrite list_lookup_fmap. intros (sv & _ & ->)%fmap_Some. split; simpl; [lia|]. left. simpl. lia.
Qed.

Lemma filter_fmap_length {A C} (f : A -> bool) (g : A -> C) (h : C -> bool) (l : list A) :
  length (List.filter h (g <$> List.filter f l)) = length (List.filter (fun x => f x && h (g x)) l).
Proof.
  induction l as [|x l IH]; simpl; [done|]. destruct (f x); csimpl; [|done].
  destruct (h (g x)); csimpl; [f_equal|]; exact IH.
Qed.

(** What the range computes from its replicas is on a quorum. *)
Lemma calculate_spec r c :
  writer_ok r -> Range.is_sealed r = false ->
  Range.calculate_confirm_offset r = Ret (Ok c) ->
  on_quorum (Range.metadata r) acked c /\ c <= Range.next_offset r /\
  exists i x, Range.replicas r !! i = Some x /\ Replica.confirm_offset x = c.
Proof.
  intros [_ [Hlen Hack] Hreps _ _ _ Hconf] Hseal.
  unfold Range.calculate_confirm_offset, Range.calculate_confirm_offset0.
  destruct (Range.replicas r) as [|x0 l0] eqn:Er; [done|]. rewrite <- Er in *.
  rewrite uint_sub_Ret by lia. simpl.
  set (vals := Replica.confirm_offset <$> _). destruct (Range.nth_largest vals _) as [c'|] eqn:Hn; [|done].
  intros [= ->].
  assert (exists i x, Range.replicas r !! i = Some x /\ Replica.confirm_offset x = c) as (i & x & Hx & Hc).
  { assert (c ∈ vals) as Hin.
    { unfold Range.nth_largest in Hn. apply list_elem_of_lookup_2 in Hn.
      rewrite elem_of_reverse in Hn. by rewrite merge_sort_Permutation in Hn. }
    unfold vals in Hin. apply list_elem_of_fmap in Hin as (x & -> & Hin).
    rewrite list_elem_of_In, filter_In in Hin. destruct Hin as [Hin _].
    apply list_elem_of_In, list_elem_of_lookup in Hin as [i ?]. by exists i, x. }
  split; [|split; [|by exists i, x]].
  - destruct (decide (c <= RangeMetadata.start (Range.metadata r))) as [?|Hgt]; [by left|]. right.
    apply nth_largest_spec in Hn. unfold vals in Hn. rewrite filter_fmap_length in Hn.
    set (f := fun x => _ && _) in Hn. exists (positions f 0 (Range.replicas r)).
    split; [apply positions_NoDup|]. split; [rewrite positions_length; lia|].
    intros k (y & _ & Hy & Hf)%positions_elem. rewrite Nat.sub_0_r in Hy.
    unfold f in Hf. apply andb_true_iff in Hf as [_ Hf%Z.leb_le].
    split; [rewrite <- Hreps; by eapply lookup_lt_Some|].
    destruct (Hconf k y Hseal Hy) as [_ [?|(z & ? & ?)]]; [lia|]. exists z. split; [lia|done].
  - destruct (Hconf i x Hseal Hx) as [? _]. lia.
Qed.

(** What an operation does to a range as its stream sees it. *)
Record evolves (r r' : Range.t) : Prop := {
  ev_md : Range.metadata r' = Range.metadata r;
  ev_open : Range.open_for_write r' = Range.open_for_write r;
  ev_confirm : Range.confirm_offset r <= Range.confirm_offset r';
  ev_sealed : Range.is_sealed r = true -> Range.is_sealed r' = true;
  ev_frozen : Range.is_writable r = false -> Range.confirm_offset r' = Range.confirm_offset r;
  ev_replicas : length (Range.replicas r') = length (Range.replicas r);
}.

Lemma try_ack_ok r :
  writer_ok r -> exists r' called, Range.try_ack r = Ret (r', called) /\ writer_ok r' /\ evolves r r' /\
    Range.next_offset r' = Range.next_offset r /\ Range.replicas r' = Range.replicas r /\
    Range.is_sealed r' = Range.is_sealed r /\ Range.is_sealing r' = Range.is_sealing r /\
    (Range.is_writable r' = true -> Range.is_writable r = true) /\
    (Range.confirm_offset r' = Range.confirm_offset r \/
     exists i x, Range.replicas r !! i = Some x /\ Replica.confirm_offset x = Range.confirm_offset r').
Proof.
  intros Hok. unfold Range.try_ack. destruct (Range.is_writable r) eqn:Hw; simpl.
  2:{ exists r, false. split_and!; try done; [congruence|by left]. }
  pose proof (writable_inv r Hw) as (_ & Hns & _).
  assert (exists res, Range.calculate_confirm_offset r = Ret res) as [res Hcalc].
  { destruct Hok as [_ [_ Hack] _ _ _ _ _]. unfold Range.calculate_confirm_offset, Range.calculate_confirm_offset0.
    case_match; [by eexists|]. rewrite uint_sub_Ret by lia. by eexists. }
  rewrite Hcalc. simpl. destruct res as [c|e].
  - destruct (calculate_spec r c Hok Hns Hcalc) as (Hq & Hn & Hx).
    destruct (Z.ltb_spec (Range.confirm_offset r) c) as [Hlt|Hge].
    + eexists _, _. split; [done|]. destruct Hok. split_and!; simpl; try done.
      * split; simpl; try done; lia.
      * split; simpl; try done; [lia|congruence].
      * by right.
    + exists r, false. split_and!; try done. by left.
  - destruct (mark_corrupted_status r) as (H1 & H2 & H3).
    eexists _, _. split; [done|]. split_and!; try done; [| |by left].
    + destruct Hok. split; simpl; try done. intros i x. rewrite H1. auto.
    + split; try done. by rewrite H1.
Qed.

(** A replica is updated. *)
Lemma replica_update_ok r i x x' :
  writer_ok r -> Range.replicas r !! i = Some x ->
  (Range.is_sealed r = false ->
   replica_ok (RangeMetadata.start (Range.metadata r)) (Range.next_offset r) i x ->
   replica_ok (RangeMetadata.start (Range.metadata r)) (Range.next_offset r) i x') ->
  writer_ok (Range.set_replicas r (<[i := x']> (Range.replicas r))) /\
  evolves r (Range.set_replicas r (<[i := x']> (Range.replicas r))).
Proof.
  intros [] Hi Hx. split; [|by split; simpl; rewrite ?length_insert].
  split; simpl; try done; [by rewrite length_insert|].
  intros k y Hs [(<- & <- & _)|[_ Hk]]%list_lookup_insert_Some; [|by apply wo_confirmed0].
  apply Hx; [done|]. by apply wo_confirmed0.
Qed.

Lemma loop_head_confirm x tk x' next :
  Replica.loop_head x tk = (x', next) ->
  Replica.confirm_offset x' = Replica.confirm_offset x /\
  (next = Replica.Requested tk \/ exists n, next = Replica.Finished n).
Proof. unfold Replica.loop_head. repeat case_match; intros [= <- <-]; simpl; eauto. Qed.

Lemma respond_confirm x tk res x' next :
  Replica.respond x tk res = (x', next) ->
  (Replica.confirm_offset x' = Replica.confirm_offset x \/
   res = Ok [ErrorCode.OK] /\ Replica.confirm_offset x' = Replica.last_offset tk) /\
  (next = Replica.Sleeping (Replica.retry tk) \/ next = Replica.Finished 1).
Proof.
  unfold Replica.respond. destruct res as [[|code [|]]|e]; intros Heq; try (injection Heq as <- <-; by auto).
  destruct (Z.eqb_spec code ErrorCode.OK) as [->|]; simpl in Heq; injection Heq as <- <-; [|by auto].
  split; [|by auto]. case_match; auto.
Qed.

Lemma replica_ok_same start next i x x' :
  Replica.confirm_offset x' = Replica.confirm_offset x -> replica_ok start next i x -> replica_ok start next i x'.
Proof. unfold replica_ok. by intros ->. Qed.

Lemma replica_ok_acked start next i x last :
  Replica.confirm_offset x = last -> last <= next -> acked i last -> replica_ok start next i x.
Proof. intros <- ? ?. split; [done|]. right. eexists. split; [|done]. lia. Qed.

(** *** Sealing *)

Lemma seal_start_ok r r' next :
  writer_ok r -> Range.seal_start r = (r', next) ->
  writer_ok r' /\ evolves r r' /\ Range.next_offset r' = Range.next_offset r /\
  Range.confirm_offset r' = Range.confirm_offset r /\ Range.replicas r' = Range.replicas r /\
  Range.is_sealed r' = Range.is_sealed r /\
  match next with
  | Range.SealReturn res => res = Ok (Range.confirm_offset r) /\ r' = r /\ Range.is_sealed r = true
  | Range.SealWait => r' = r /\ Range.is_sealing r = true
  | Range.SealPd e => e = Range.confirm_offset r /\ Range.is_sealing r' = true /\
      Range.is_sealing r = false /\ Range.is_sealed r = false
  | Range.SealReplicas => False
  end.
Proof.
  intros Hok. unfold Range.seal_start.
  destruct (Range.is_sealed r) eqn:Hs; [intros [= <- <-]; by split_and!; [|split|..]|].
  destruct (Range.is_sealing r) eqn:Hg; [intros [= <- <-]; by split_and!; [|split|..]|].
  simpl. rewrite (wo_open _ Hok). intros [= <- <-]. destruct (mark_sealing_status r) as [H1 H2].
  rewrite H2. split_and!; try done; [|split; try done; by rewrite H2].
  destruct Hok. split; simpl; try done. intros i x. rewrite H2. auto.
Qed.

Lemma seal_pd_done_ok r e res r' out sent :
  writer_ok r -> Range.seal_pd_done r e res = (r', out, sent) ->
  writer_ok r' /\ evolves r r' /\ Range.next_offset r' = Range.next_offset r /\
  Range.confirm_offset r' = Range.confirm_offset r /\ Range.replicas r' = Range.replicas r /\
  match out with
  | Ok x => x = e /\ Range.is_sealed r' = true /\ sent = Some e
  | Err _ => Range.is_sealed r' = Range.is_sealed r /\ sent = None
  end.
Proof.
  intros Hok. unfold Range.seal_pd_done. destruct res as [[]|err].
  - simpl. rewrite (wo_open _ Hok). intros [= <- <- <-]. pose proof (mark_sealed_status r) as Hs.
    split_and!; try done. destruct Hok. split; simpl; try done. intros i x. by rewrite Hs.
  - intros [= <- <- <-]. pose proof (erase_sealing_status r) as Hs.
    split_and!; try done; [|split; try done; by rewrite Hs].
    destruct Hok. split; simpl; try done. intros i x. rewrite Hs. auto.
Qed.

(** The replicas of a range that is sealed. *)
Lemma replica_seal_ok r i client e r' req :
  writer_ok r -> Range.is_sealed r = true -> Range.replica_seal_start r i client e = (r', req) ->
  writer_ok r' /\ evolves r r' /\ Range.next_offset r' = Range.next_offset r /\
  Range.confirm_offset r' = Range.confirm_offset r /\ Range.is_sealed r' = Range.is_sealed r /\
  Range.is_sealing r' = Range.is_sealing r.
Proof.
  intros Hok Hs. unfold Range.replica_seal_start. destruct (Range.replicas r !! i) as [x|] eqn:Hi.
  - destruct (Replica.seal_start x client e) as [x' q]. intros [= <- <-].
    destruct (replica_update_ok r i x x' Hok Hi) as [? ?]; [congruence|]. by split_and!.
  - intros [= <- <-]. by split_and!; [|split|..].
Qed.

Lemma replica_sealed_ok r i res r' x :
  writer_ok r -> Range.is_sealed r = true -> Range.replica_seal_done r i res = (r', x) ->
  writer_ok r' /\ evolves r r' /\ Range.next_offset r' = Range.next_offset r /\
  Range.confirm_offset r' = Range.confirm_offset r /\ Range.is_sealed r' = Range.is_sealed r /\
  Range.is_sealing r' = Range.is_sealing r.
Proof.
  intros Hok Hs. unfold Range.replica_seal_done. destruct (Range.replicas r !! i) as [y|] eqn:Hi.
  - destruct (Replica.seal_done y res) as [y' q]. intros [= <- <-].
    destruct (replica_update_ok r i y y' Hok Hi) as [? ?]; [congruence|]. by split_and!.
  - intros [= <- <-]. by split_and!; [|split|..].
Qed.

(** *** Appending *)

Section append.
Context {B : BytesApi} {BL : BytesLaws B} {M : MetaApi}.
Context (iterate : gmap string string -> list (string * string)).

(** A batch that can be sent: it has records, and its encoding has a length. *)
Definition batch_ok (rb : RecordBatch.t) : Prop :=
  0 < RecordBatchMetaT.last_offset_delta (RecordBatch.metadata rb) < 2 ^ 31 /\
  forall base stream index,
    9 + remaining (meta_pack (RecordBatch.metadata (rebase iterate rb base stream index))) +
    remaining (RecordBatch.payload rb) < 2 ^ 31.

Definition batch_count (rb : RecordBatch.t) : Z := RecordBatchMetaT.last_offset_delta (RecordBatch.metadata rb).

Definition cache_ok (c : HotCache.t) : Prop :=
  hot_ok c /\ leak c < HotCache.max_cache_size c <= 2 ^ 63.

Lemma batch_delta rb :
  batch_ok rb -> last_offset_delta rb = batch_count rb /\ as_uint 32 (last_offset_delta rb) = batch_count rb.
Proof.
  intros [Hd _]. unfold last_offset_delta. rewrite (as_uint_id 64) by (unfold is_uint; lia).
  split; [done|]. apply as_uint_id. unfold is_uint, batch_count. lia.
Qed.

(** The tasks of an append. *)
Definition task_for (base last : Z) (tk : option Replica.task) : Prop :=
  match tk with
  | Some tk => Replica.base_offset tk = base /\ Replica.last_offset tk = last
  | None => True
  end.

Lemma append_replicas_spec l client bytes base last l' tks :
  Range.append_replicas l client bytes base last = (l', tks) ->
  length l' = length l /\ length tks = length l /\ Forall (task_for base last) tks /\
  forall i x', l' !! i = Some x' -> exists x, l !! i = Some x /\ Replica.confirm_offset x' = Replica.confirm_offset x.
Proof.
  revert l' tks. induction l as [|x l IH]; intros l' tks; simpl.
  { intros [= <- <-]. split_and!; [done|done|constructor|done]. }
  destruct (Replica.append x client bytes base last) as [x' tk] eqn:Ex.
  destruct (Range.append_replicas l client bytes base last) as [l1 tks1] eqn:El. intros [= <- <-].
  destruct (IH l1 tks1 eq_refl) as (H1 & H2 & H3 & H4). simpl. split_and!; [lia|lia| |].
  - constructor; [|done]. revert Ex. unfold Replica.append. destruct (Replica.get_client client); intros [= <- <-]; done.
  - intros [|i] y; simpl; [|apply H4]. intros [= <-]. exists x. split; [done|].
    revert Ex. unfold Replica.append. destruct (Replica.get_client client); intros [= <- <-]; done.
Qed.

Lemma range_append_ok r c client rb :
  writer_ok r -> cache_ok c -> batch_ok rb -> 0 <= Range.next_offset r ->
  Range.next_offset r + batch_count rb < 2 ^ 64 ->
  exists r' c' tks, Range.append iterate r c client rb (Range.next_offset r) = Ret (r', c', tks) /\
    writer_ok r' /\ evolves r r' /\ cache_ok c' /\
    Range.confirm_offset r' = Range.confirm_offset r /\ Range.is_writable r' = Range.is_writable r /\
    Range.is_sealed r' = Range.is_sealed r /\
    Range.next_offset r' = Range.next_offset r + batch_count rb /\
    (length tks = length (Range.replicas r) /\ Forall (task_for (Range.next_offset r) (Range.next_offset r')) tks) /\
    forall i x', Range.replicas r' !! i = Some x' -> exists x, Range.replicas r !! i = Some x /\
      Replica.confirm_offset x' = Replica.confirm_offset x.
Proof.
  intros Hok [Hc Hleak] Hb Hpos Hlt. pose proof (proj1 Hb) as Hd. fold (batch_count rb) in Hd.
  destruct (batch_delta rb Hb) as [_ Hdelta]. unfold Range.append. rewrite Hdelta.
  rewrite Z.eqb_refl. simpl. rewrite uint_add_Ret by lia. rewrite bind_Ret.
  unfold record_batch_to_bytes.
  destruct (encode_batch (rebase iterate rb (Range.next_offset r) (RangeMetadata.stream_id (Range.metadata r))
              (as_uint 32 (RangeMetadata.index (Range.metadata r))))) as (bufs & -> & _); [apply Hb|].
  rewrite !bind_Ret.
  destruct (hot_insert_Ret c (RangeMetadata.stream_id (Range.metadata r)) (Range.next_offset r) (batch_count rb)
              [vec_bytes_to_bytes bufs] Hc Hleak) as (c' & Hins & Hc' & Hleak' & Hmax). simpl. rewrite Hins, bind_Ret.
  destruct (Range.append_replicas _ _ _ _ _) as [l tks] eqn:El.
  apply append_replicas_spec in El as (Hl & Htl & Htk & Hsame).
  eexists _, c', tks. split; [done|]. split_and!; simpl; try done; try lia.
  - destruct Hok. split; simpl; try done; try lia.
    intros i x Hs Hx. destruct (Hsame i x Hx) as (y & Hy & Hxy). destruct (wo_confirmed0 i y Hs Hy) as [? ?].
    unfold replica_ok. rewrite Hxy. split; [lia|done].
  - unfold cache_ok. rewrite Hmax in *. split; [done|lia].
Qed.
End append.
End writer.

(** The servers acknowledge more. *)
Lemma writer_ok_mono (P Q : nat -> Z -> Prop) r :
  (forall i x, P i x -> Q i x) -> writer_ok P r -> writer_ok Q r.
Proof.
  intros Himp []. split; try done.
  - destruct wo_quorum0 as [?|(L & HL & Hlen & Hin)]; [by left|]. right. exists L. split_and!; try done.
    intros i Hi. destruct (Hin i Hi) as (? & x & ? & ?). split; [done|]. exists x. auto.
  - intros i x Hs Hx. destruct (wo_confirmed0 i x Hs Hx) as [? [?|(y & ? & ?)]]; (split; [done|]); [by left|].
    right. exists y. auto.
Qed.
