(* ===== verification/StreamSystem.v ===== *)
(** * A stream that is written: the system and its invariant

    A stream with its tasks, the range servers that acknowledge its appends and the
    placement driver that creates and seals its ranges, as a transition system: [run] is
    what an event does, [enabled] when it can happen.  The stream is one that was opened
    and is not deleted. *)

From S2P Require Import Prelude Bytes Model Record RecordsBlock Collections ReplicaCache Replication.
From S2P Require Import Quorum RangeWriter ReplicationStream.

(** ** The system *)

Module System.
Record t := mk {
  stream : Stream.t;
  submitted : list (Z * Z * RecordBatch.t);  (* the calls of [append]: caller, base offset and batch *)
  history : list (nat * nat * Z);            (* the acknowledged appends: range, replica and end *)
  broadcasts : list (nat * Z);               (* the seals that completed: range and end *)
}.

Inductive event :=
| Append (caller : Z) (rb : RecordBatch.t)
| Request                                    (* [append_task] gets a request, *)
| Tick                                       (* a message of [trigger_append_task], *)
| Shutdown                                   (* or the signal of [close] *)
| Created (res : result RangeMetadata.t EsError.t)
| Woken                                      (* [append_task] has slept *)
| TaskRuns (j : nat)                         (* a task of a replica starts an attempt, *)
| TaskAnswered (j : nat) (res : result (list Z) EsError.t)
| ServerAcks (k i : nat) (last : Z)
| PdAnswers (j : nat) (res : result unit EsError.t)
| Wakes (j : nat) (e : Z)
| BackgroundSends (j : nat)
| BackgroundAnswered (j : nat) (res : result RangeMetadata.t EsError.t)
| Close
| Trim (new_start_offset : Z)
| DropClient.

Definition with_stream (y : t) (s : Stream.t) : t := mk s (submitted y) (history y) (broadcasts y).

Section run.
Context {B : BytesApi} {M : MetaApi}.
Context (iterate : gmap string string -> list (string * string)).

(** The end that the seal at place [j] broadcasts when the placement driver answers so. *)
Definition broadcast (s : Stream.t) (j : nat) (res : result unit EsError.t) : list (nat * Z) :=
  match Stream.jobs s !! j, res with
  | Some (Stream.mk_job _ k (Stream.JobPd e)), Ok _ => [(k, e)]
  | _, _ => []
  end.

Definition step (s : Stream.t) (ev : event) : outcome Stream.t :=
  match ev with
  | Append caller rb => Stream.append s caller rb
  | Request =>
      match Stream.append_requests s with
      | q :: rest => Stream.recv_request iterate (Stream.set_requests s rest) q
      | [] => Ret s
      end
  | Tick => Stream.append_round iterate (Stream.set_ticks s (pred (Stream.append_tasks s)))
  | Shutdown => Ret (Stream.stop s)
  | Created res =>
      match Stream.pc s with
      | Stream.InCreate first _ start => Stream.create_done iterate s first start res
      | _ => Ret s
      end
  | Woken => Stream.get_writable_range iterate s
  | TaskRuns j =>
      match Stream.replica_tasks s !! j with
      | Some (k, i, Replica.Sleeping tk) => Stream.replica_step s j k i (fun x => Replica.loop_head x tk)
      | _ => Ret s
      end
  | TaskAnswered j res =>
      match Stream.replica_tasks s !! j with
      | Some (k, i, Replica.Requested tk) => Stream.replica_step s j k i (fun x => Replica.respond x tk res)
      | _ => Ret s
      end
  | ServerAcks _ _ _ => Ret s
  | PdAnswers j res => Stream.pd_answers s j res
  | Wakes j e => Stream.wakes s j e
  | BackgroundSends j => Stream.background_sends s j
  | BackgroundAnswered j res => Stream.background_answers s j res
  | Close => Stream.close s
  | Trim x => Ret (Stream.trim s x)
  | DropClient => Ret (Stream.drop_client s)
  end.

Definition run (y : t) (ev : event) : outcome t :=
  s ← step (stream y) ev;
  Ret (mk s
    (match ev with
     | Append caller rb => submitted y ++ [(caller, Stream.next_offset (stream y), rb)]
     | _ => submitted y
     end)
    (match ev with ServerAcks k i last => (k, i, last) :: history y | _ => history y end)
    (match ev with PdAnswers j res => broadcast (stream y) j res ++ broadcasts y | _ => broadcasts y end)).

(** When an event can happen, and what the placement driver and the range servers promise. *)
Definition enabled (y : t) (ev : event) : Prop :=
  let s := stream y in
  match ev with
  | Append caller rb => batch_ok iterate rb /\ Stream.next_offset s + batch_count rb < 2 ^ 64
  | Request => Stream.pc s = Stream.AtSelect /\ Stream.append_requests s <> []
  | Tick => Stream.pc s = Stream.AtSelect /\ (0 < Stream.append_tasks s)%nat
  | Shutdown => Stream.pc s = Stream.AtSelect /\ Stream.shutdown_signal s = true
  | Created res =>
      exists first index start, Stream.pc s = Stream.InCreate first index start /\
      match res with
      | Ok md => metadata_ok md /\ RangeMetadata.start md = start /\ RangeMetadata.end_ md = None /\
                 0 <= RangeMetadata.index md < 2 ^ 31
      | Err _ => True
      end
  | Woken => Stream.pc s = Stream.InSleep
  | TaskRuns j => True
  | TaskAnswered j res =>
      forall k i tk, Stream.replica_tasks s !! j = Some (k, i, Replica.Requested tk) ->
        res = Ok [ErrorCode.OK] -> (k, i, Replica.last_offset tk) ∈ history y
  | ServerAcks k i last => True
  | PdAnswers j res => True
  | Wakes j e =>
      exists w k, Stream.jobs s !! j = Some (Stream.mk_job w k Stream.JobWait) /\ (k, e) ∈ broadcasts y
  | BackgroundSends j => True
  | BackgroundAnswered j res => True
  | Close | Trim _ | DropClient => True
  end.
End run.
End System.

(** ** The invariant *)

Section invariant.
Context {B : BytesApi} {BL : BytesLaws B} {M : MetaApi}.
Context (iterate : gmap string string -> list (string * string)).

(** *** Batches that follow each other *)

(** The base offset and the number of records of the requests. *)
Definition span (kq : Z * StreamAppendRequest.t) : Z * Z :=
  (kq.1, batch_count (StreamAppendRequest.record_batch kq.2)).

Fixpoint tiles (lo hi : Z) (l : list (Z * Z)) : Prop :=
  match l with
  | [] => lo = hi
  | (b, n) :: l => b = lo /\ 0 < n /\ tiles (b + n) hi l
  end.

(** An offset that no batch straddles. *)
Definition cut (l : list (Z * Z)) (x : Z) : Prop := forall b n, (b, n) ∈ l -> b < x -> b + n <= x.

Lemma tiles_bounds lo hi l :
  tiles lo hi l -> lo <= hi /\ forall b n, (b, n) ∈ l -> lo <= b /\ 0 < n /\ b + n <= hi.
Proof.
  revert lo. induction l as [|[b0 n0] l IH]; intros lo; simpl; [intros ->; set_solver by lia|].
  intros (-> & Hn & Ht). destruct (IH _ Ht) as [? Hl]. split; [lia|].
  intros b n [[= -> ->]|Hin]%elem_of_cons; [lia|]. destruct (Hl b n Hin). lia.
Qed.

Lemma tiles_app lo hi l1 l2 : tiles lo hi (l1 ++ l2) <-> exists x, tiles lo x l1 /\ tiles x hi l2.
Proof.
  revert lo. induction l1 as [|[b n] l1 IH]; intros lo; simpl.
  - split; [by exists lo|]. intros (x & -> & ?). done.
  - rewrite IH. naive_solver.
Qed.

Lemma tiles_cut lo x hi l1 l2 : tiles lo x l1 -> tiles x hi l2 -> cut (l1 ++ l2) x.
Proof.
  intros [_ H1]%tiles_bounds [_ H2]%tiles_bounds b n [Hin|Hin]%elem_of_app Hlt.
  - apply H1 in Hin. lia.
  - apply H2 in Hin. lia.
Qed.

Lemma cut_hi lo hi l : tiles lo hi l -> cut l hi.
Proof. intros [_ H]%tiles_bounds b n Hin _. apply H in Hin. lia. Qed.

Lemma cut_incl l l' x : l' ⊆ l -> cut l x -> cut l' x.
Proof. intros Hsub Hc b n Hin. apply Hc. by apply Hsub. Qed.

Lemma cut_snoc l x b n : x <= b -> cut l x -> cut (l ++ [(b, n)]) x.
Proof. intros Hx Hc b' n' [Hin|[= -> ->]%list_elem_of_singleton]%elem_of_app ?; [by apply Hc|lia]. Qed.

(** A list of requests splits at an offset that no batch straddles. *)
Lemma tiles_split lo hi x (l : list (Z * StreamAppendRequest.t)) :
  tiles lo hi (span <$> l) -> cut (span <$> l) x -> lo <= x <= hi ->
  exists l1 l2, l = l1 ++ l2 /\ tiles lo x (span <$> l1) /\ tiles x hi (span <$> l2) /\
    List.filter (fun kq => kq.1 <? x) l = l1 /\ BTreeMap.range_from l x = l2.
Proof.
  revert lo. induction l as [|[b q] l IH]; intros lo Ht Hc Hx.
  { simpl in Ht. assert (x = lo) as -> by lia. by exists [], []. }
  rewrite fmap_cons in Ht, Hc. simpl in Ht. destruct Ht as (-> & Hn & Ht).
  destruct (decide (x = lo)) as [->|Hne].
  - exists [], ((lo, q) :: l). split; [done|]. split; [done|]. split; [by simpl; auto|].
    apply tiles_bounds in Ht as [_ Hb].
    assert (forall kq, kq ∈ l -> lo < kq.1) as Hall; clear Hc IH.
    { intros kq Hin%(list_elem_of_fmap_2 span). apply (Hb kq.1) in Hin. lia. }
    unfold BTreeMap.range_from. simpl. rewrite Z.ltb_irrefl, Z.leb_refl. split.
    + induction l as [|kq l IHl]; simpl; [done|].
      rewrite (proj2 (Z.ltb_ge _ _)) by (apply Z.lt_le_incl, Hall; left). apply IHl; set_solver.
    + f_equal. induction l as [|kq l IHl]; simpl; [done|].
      rewrite (proj2 (Z.leb_le _ _)) by (apply Z.lt_le_incl, Hall; left). f_equal. apply IHl; set_solver.
  - assert (lo + batch_count (StreamAppendRequest.record_batch q) <= x) as Hle.
    { apply (Hc lo); [by left|lia]. }
    destruct (IH _ Ht) as (l1 & l2 & -> & H1 & H2 & H3 & H4); [by eapply cut_incl; [|exact Hc]; set_solver|lia|].
    exists ((lo, q) :: l1), l2. split; [done|]. split; [by simpl; auto|]. split; [done|].
    unfold BTreeMap.range_from in *. simpl.
    rewrite (proj2 (Z.ltb_lt _ _)), (proj2 (Z.leb_gt _ _)), H3, H4 by lia. done.
Qed.

(** A request is put behind the others. *)
Lemma tiles_insert lo hi (l : list (Z * StreamAppendRequest.t)) q :
  tiles lo hi (span <$> l) -> BTreeMap.insert l hi q = l ++ [(hi, q)].
Proof.
  revert lo. induction l as [|[b q'] l IH]; intros lo; simpl; [done|]. intros (-> & Hn & Ht).
  pose proof (proj1 (tiles_bounds _ _ _ Ht)).
  rewrite (proj2 (Z.ltb_ge _ _)), (proj2 (Z.eqb_neq _ _)), (IH _ Ht) by lia. done.
Qed.
End invariant.
