(* ===== verification/StreamInvariant.v ===== *)
(** * A stream that is written: the invariant

    What holds of a stream between two events: the batches in flight and in the channel
    follow each other, every range but the last one is sealed, the last one has confirmed
    nothing that is not on a quorum, and the calls that were answered lie in a range that
    has confirmed them. *)

From S2P Require Import Prelude Bytes Model Record RecordsBlock Collections ReplicaCache Replication.
From S2P Require Import Quorum RangeWriter ReplicationStream StreamSystem.

Section invariant.
Context {B : BytesApi} {BL : BytesLaws B} {M : MetaApi}.
Context (iterate : gmap string string -> list (string * string)).

(** ** The parts of the invariant *)

Definition acked_in (h : list (nat * nat * Z)) (k i : nat) (x : Z) : Prop := (k, i, x) ∈ h.
Abbreviation wok h k r := (writer_ok (acked_in h k) r).
Abbreviation heap_t := (list Range.t).

(** A range holds the offsets from [b] on, [n] of them, and has confirmed them. *)
Definition placed (h : list (nat * nat * Z)) (heap : heap_t) (b n : Z) : Prop :=
  exists k r, heap !! k = Some r /\ wok h k r /\
    RangeMetadata.start (Range.metadata r) <= b /\ b + n <= Range.confirm_offset r.

(** The last range, for the batches [l] in flight between [lo] and [hi]. *)
Record last_ok (h : list (nat * nat * Z)) (heap : heap_t) (l : list (Z * Z)) (next_append lo hi : Z)
    (k : nat) (r : Range.t) : Prop := {
  lo_index : 0 <= RangeMetadata.index (Range.metadata r) < 2 ^ 31;
  lo_kind : wok h k r \/ Range.is_sealed r = true;
  lo_confirm : lo <= Range.confirm_offset r <= hi;
  lo_cut : cut l (Range.confirm_offset r);
  lo_placed b n : (b, n) ∈ l -> b < Range.confirm_offset r -> placed h heap b n;
  lo_unsealed : Range.is_sealed r = false ->
    next_append = Range.next_offset r /\ Range.next_offset r <= hi /\ cut l (Range.next_offset r) /\
    forall i x, Range.replicas r !! i = Some x -> cut l (Replica.confirm_offset x);
}.

Definition window (h : list (nat * nat * Z)) (heap : heap_t) (last : option nat) (l : list (Z * Z))
    (next_append next_offset lo hi : Z) : Prop :=
  0 <= lo /\ tiles lo hi l /\ hi <= next_offset < 2 ^ 64 /\
  match last with
  | None => lo = 0 /\ next_append = 0
  | Some k => exists r, heap !! k = Some r /\ last_ok h heap l next_append lo hi k r
  end.

Definition requests_in (l : list StreamAppendRequest.t) : list (Z * StreamAppendRequest.t) :=
  (fun q => (StreamAppendRequest.base_offset q, q)) <$> l.

Definition unsealed_last (heap : heap_t) (last : option nat) : Prop :=
  forall k r, heap !! k = Some r -> Range.open_for_write r = true -> Range.is_sealed r = false -> last = Some k.

Definition task_ok (h : list (nat * nat * Z)) (heap : heap_t) (l : list (Z * Z))
    (t : nat * nat * Replica.next) : Prop :=
  let '(k, i, next) := t in
  exists r, heap !! k = Some r /\ wok h k r /\ (i < length (Range.replicas r))%nat /\
    match next with
    | Replica.Requested tk | Replica.Sleeping tk =>
        Range.is_sealed r = false ->
        Replica.last_offset tk <= Range.next_offset r /\ cut l (Replica.last_offset tk)
    | Replica.Finished _ => False
    end.

Definition job_ok (h : list (nat * nat * Z)) (heap : heap_t) (last : option nat) (pc : Stream.append_pc)
    (j : Stream.seal_job) : Prop :=
  exists r, heap !! Stream.range j = Some r /\ wok h (Stream.range j) r /\
    match Stream.state j with
    | Stream.JobWait => True
    | Stream.JobPd e => Range.is_sealing r = true /\ Range.is_sealed r = false /\ e = Range.confirm_offset r
    | Stream.JobReplicas _ _ _ => False
    end /\
    match Stream.who j with
    | Stream.Opener => False
    | Stream.Appender => pc = Stream.InSeal /\ last = Some (Stream.range j)
    | Stream.Closer => True
    end.

Definition pd_range (j : Stream.seal_job) : option nat :=
  match Stream.state j with Stream.JobPd _ => Some (Stream.range j) | _ => None end.
Definition is_appender (j : Stream.seal_job) : option unit :=
  match Stream.who j with Stream.Appender => Some () | _ => None end.

Definition jobs_ok (h : list (nat * nat * Z)) (heap : heap_t) (last : option nat) (pc : Stream.append_pc)
    (jobs : list Stream.seal_job) : Prop :=
  Forall (job_ok h heap last pc) jobs /\ NoDup (omap pd_range jobs) /\ (length (omap is_appender jobs) <= 1)%nat.

Definition background_ok (h : list (nat * nat * Z)) (heap : heap_t) (t : nat * nat * Z * bool) : Prop :=
  let '(k, i, e, sent) := t in exists r, heap !! k = Some r /\ wok h k r /\ Range.is_sealed r = true.

Definition sealed_at (heap : heap_t) (k : nat) (e : Z) : Prop :=
  exists r, heap !! k = Some r /\ Range.is_sealed r = true /\ Range.confirm_offset r = e.

Definition rewind_ok (heap : heap_t) (last : option nat) (rewind : option Z) : Prop :=
  forall x, rewind = Some x -> exists k, last = Some k /\ sealed_at heap k x.

Definition pc_ok (heap : heap_t) (last : option nat) (pc : Stream.append_pc) (rewind : option Z) : Prop :=
  match pc with
  | Stream.AtSelect | Stream.Stopped => True
  | Stream.InSeal | Stream.InSleep => rewind_ok heap last rewind
  | Stream.InCreate true _ start => last = None /\ start = 0 /\ rewind = None
  | Stream.InCreate false _ start => rewind = Some start /\ rewind_ok heap last rewind
  end.

Definition request_ok (submitted : list (Z * Z * RecordBatch.t)) (kq : Z * StreamAppendRequest.t) : Prop :=
  StreamAppendRequest.base_offset kq.2 = kq.1 /\ batch_ok iterate (StreamAppendRequest.record_batch kq.2) /\
  forall c, StreamAppendRequest.append_tx kq.2 = Some c ->
    (c, kq.1, StreamAppendRequest.record_batch kq.2) ∈ submitted.

(** The last range has confirmed the offsets below [x]. *)
Definition confirmed (h : list (nat * nat * Z)) (heap : heap_t) (last : option nat) (x : Z) : Prop :=
  exists k r, last = Some k /\ heap !! k = Some r /\ wok h k r /\ x <= Range.confirm_offset r.

Definition answer_ok (h : list (nat * nat * Z)) (heap : heap_t) (last : option nat)
    (submitted : list (Z * Z * RecordBatch.t)) (a : Z * result Z EsError.t) : Prop :=
  match a.2 with
  | Ok b => exists rb, (a.1, b, rb) ∈ submitted /\ placed h heap b (batch_count rb) /\
              confirmed h heap last (b + batch_count rb)
  | Err _ => True
  end.

Definition callers (l : list StreamAppendRequest.t) : list Z := omap StreamAppendRequest.append_tx l.

Record stream_ok (h : list (nat * nat * Z)) (submitted : list (Z * Z * RecordBatch.t))
    (broadcasts : list (nat * Z)) (s : Stream.t) : Prop := {
  ok_window : exists lo hi,
    window h (Stream.heap s) (Stream.last_range s) (span <$> Stream.inflight s)
      (Stream.next_append_start_offset s) (Stream.next_offset s) lo hi /\
    (Stream.append_error s = None -> Stream.pc s <> Stream.Stopped ->
     tiles hi (Stream.next_offset s) (span <$> requests_in (Stream.append_requests s)));
  ok_unsealed : unsealed_last (Stream.heap s) (Stream.last_range s);
  ok_tasks : Forall (task_ok h (Stream.heap s) (span <$> Stream.inflight s)) (Stream.replica_tasks s);
  ok_jobs : jobs_ok h (Stream.heap s) (Stream.last_range s) (Stream.pc s) (Stream.jobs s);
  ok_background : Forall (background_ok h (Stream.heap s)) (Stream.sealing_replicas s);
  ok_broadcasts k e : (k, e) ∈ broadcasts -> sealed_at (Stream.heap s) k e;
  ok_pc : pc_ok (Stream.heap s) (Stream.last_range s) (Stream.pc s) (Stream.rewind s);
  ok_cache : cache_ok (Stream.cache s);
  ok_inflight : Forall (request_ok submitted) (Stream.inflight s);
  ok_requests : Forall (request_ok submitted) (requests_in (Stream.append_requests s));
  ok_answers : Forall (answer_ok h (Stream.heap s) (Stream.last_range s) submitted) (Stream.answers s);
  ok_conserve : (Stream.answers s).*1 ++ callers (Stream.inflight s).*2 ++ callers (Stream.append_requests s)
      ≡ₚ submitted.*1.*1;
}.

(** ** Heaps that grow *)

Definition heap_grows (h : list (nat * nat * Z)) (heap : heap_t) (h' : list (nat * nat * Z)) (heap' : heap_t) : Prop :=
  forall k r, heap !! k = Some r -> exists r', heap' !! k = Some r' /\ evolves r r' /\
    Range.next_offset r <= Range.next_offset r' /\ (wok h k r -> wok h' k r').

Section grows.
Context (h h' : list (nat * nat * Z)) (heap heap' : heap_t).
Context (Hgrow : heap_grows h heap h' heap').

Lemma placed_grows b n : placed h heap b n -> placed h' heap' b n.
Proof.
  intros (k & r & Hk & Hw & ? & ?). destruct (Hgrow k r Hk) as (r' & Hk' & He & _ & Hw'). destruct He.
  exists k, r'. rewrite ev_md. split_and!; [done|auto|done|lia].
Qed.

Lemma task_grows l t : task_ok h heap l t -> task_ok h' heap' l t.
Proof.
  destruct t as [[k i] next]. intros (r & Hk & Hw & Hi & Hn).
  destruct (Hgrow k r Hk) as (r' & Hk' & He & ? & Hw'). destruct He. exists r'. rewrite ev_replicas.
  split_and!; [done|auto|done|]. destruct next as [tk|tk|]; [..|done]; intros Hs;
    (destruct (Range.is_sealed r); [by rewrite ev_sealed in Hs|]; destruct (Hn eq_refl); split; [lia|done]).
Qed.

Lemma sealed_grows k e : sealed_at heap k e -> sealed_at heap' k e.
Proof.
  intros (r & Hk & Hs & <-). destruct (Hgrow k r Hk) as (r' & Hk' & He & _). destruct He. exists r'.
  split_and!; [done|auto|]. by apply ev_frozen, sealed_readonly.
Qed.

Lemma background_grows t : background_ok h heap t -> background_ok h' heap' t.
Proof.
  destruct t as [[[k i] e] sent]. intros (r & Hk & Hw & Hs).
  destruct (Hgrow k r Hk) as (r' & Hk' & He & _ & Hw'). destruct He. exists r'. auto.
Qed.

Lemma rewind_grows last rewind : rewind_ok heap last rewind -> rewind_ok heap' last rewind.
Proof. intros Hr x (k & ? & ?)%Hr. exists k. eauto using sealed_grows. Qed.

Lemma pc_grows last pc rewind : pc_ok heap last pc rewind -> pc_ok heap' last pc rewind.
Proof. destruct pc as [| |[] ? ?| |]; simpl; try done; [|intros [-> ?]; split; [done|]|]; by apply rewind_grows. Qed.

Lemma confirmed_grows last x : confirmed h heap last x -> confirmed h' heap' last x.
Proof.
  intros (k & r & ? & Hk & ? & ?). destruct (Hgrow k r Hk) as (r' & ? & He & _ & ?). exists k, r'.
  pose proof (ev_confirm _ _ He). split_and!; [done|done|auto|lia].
Qed.

Lemma answer_grows last sub sub' a :
  sub ⊆ sub' -> answer_ok h heap last sub a -> answer_ok h' heap' last sub' a.
Proof.
  intros Hsub. unfold answer_ok. destruct (a.2) as [b|]; [|done]. intros (rb & ? & ? & ?). exists rb.
  split_and!; [by apply Hsub|by apply placed_grows|by apply confirmed_grows].
Qed.

(** The jobs, when no seal is cut short. *)
Lemma jobs_grows last pc jobs :
  (forall k r r', heap !! k = Some r -> heap' !! k = Some r' -> Range.is_sealing r = true ->
     Range.is_sealed r = false -> Range.is_sealing r' = true /\ Range.is_sealed r' = false) ->
  jobs_ok h heap last pc jobs -> jobs_ok h' heap' last pc jobs.
Proof.
  intros Hkeep (Hall & ? & ?). split; [|done]. eapply Forall_impl; [done|]. intros j (r & Hk & Hw & Hst & Hwho).
  destruct (Hgrow _ r Hk) as (r' & Hk' & He & _ & Hw'). destruct He. exists r'. split_and!; [done|auto| |done].
  destruct (Stream.state j); [done| |done]. destruct Hst as (Hg & Hs & ->).
  destruct (Hkeep _ _ _ Hk Hk' Hg Hs) as [? ?]. split_and!; [done|done|].
  symmetry. by apply ev_frozen, sealing_readonly.
Qed.
End grows.

(** ** An update of a range *)

Lemma grows_refl h heap : heap_grows h heap h heap.
Proof. intros k r Hk. exists r. split_and!; [done|by split|lia|done]. Qed.

Lemma grows_insert h heap k r r' :
  heap !! k = Some r -> evolves r r' -> Range.next_offset r <= Range.next_offset r' ->
  (wok h k r -> wok h k r') -> heap_grows h heap h (<[k := r']> heap).
Proof.
  intros Hk He Hn Hw i x Hi. destruct (decide (i = k)) as [->|Hne].
  - assert (x = r) as -> by congruence. exists r'. split; [|done].
    apply list_lookup_insert_eq. by eapply lookup_lt_Some.
  - exists x. rewrite list_lookup_insert_ne by done. split_and!; [done|by split|lia|done].
Qed.

Lemma insert_inv {A} (l : list A) k x i y :
  <[k := x]> l !! i = Some y -> i = k /\ y = x \/ i <> k /\ l !! i = Some y.
Proof. intros [(-> & -> & _)|[? ?]]%list_lookup_insert_Some; auto. Qed.

Lemma unsealed_update heap last k r r' :
  unsealed_last heap last -> heap !! k = Some r -> Range.open_for_write r' = Range.open_for_write r ->
  (Range.is_sealed r = true -> Range.is_sealed r' = true) -> unsealed_last (<[k := r']> heap) last.
Proof.
  intros Hu Hk Ho Hs i x Hi. apply insert_inv in Hi as [[-> ->]|[_ Hi]]; [|by apply Hu].
  rewrite Ho. intros Hr Hx. apply (Hu k r Hk Hr). destruct (Range.is_sealed r); [|done]. by rewrite Hs in Hx.
Qed.

(** The last range goes on. *)
Lemma last_update h heap l na lo hi k r r' :
  heap !! k = Some r -> last_ok h heap l na lo hi k r -> heap_grows h heap h (<[k := r']> heap) ->
  evolves r r' -> (wok h k r -> wok h k r') -> Range.is_sealed r' = Range.is_sealed r ->
  Range.next_offset r' = Range.next_offset r ->
  (Range.is_sealed r = false -> cut l (Range.confirm_offset r') /\
     (forall i x, Range.replicas r' !! i = Some x -> cut l (Replica.confirm_offset x))) ->
  last_ok h (<[k := r']> heap) l na lo hi k r'.
Proof.
  intros Hk [] Hg He Hw Hs Hn Hcut. pose proof He as [].
  assert (Range.is_sealed r = true -> Range.confirm_offset r' = Range.confirm_offset r) as Hfr.
  { intros Hse. by apply ev_frozen, sealed_readonly. }
  assert (Range.is_sealed r = false -> wok h k r) as Hwok.
  { intros Hse. destruct lo_kind0 as [?|?]; [done|congruence]. }
  destruct (Range.is_sealed r) eqn:Hse.
  - split; rewrite ?ev_md, ?(Hfr eq_refl), ?Hs; try done; [by right|].
    intros b n Hin Hb. eapply placed_grows; [done|]. by apply lo_placed0.
  - destruct (Hcut eq_refl) as [Hc Hx]. destruct (lo_unsealed0 eq_refl) as (-> & Hhi & Hcn & _).
    pose proof (wo_next _ _ (Hw (Hwok eq_refl))). pose proof (wo_start _ _ (Hwok eq_refl)).
    split; rewrite ?ev_md, ?Hs, ?Hn in *; try done; [auto|lia|].
    intros b n Hin Hb. destruct (decide (b < Range.confirm_offset r)) as [?|Hge].
    + eapply placed_grows; [done|]. by apply lo_placed0.
    + exists k, r'. rewrite ev_md. split_and!; [|auto|lia|by apply Hc].
      apply list_lookup_insert_eq. by eapply lookup_lt_Some.
Qed.

(** Another range goes on, or the heap gets a new one. *)
Lemma last_other h h' heap heap' l na lo hi k r :
  last_ok h heap l na lo hi k r -> heap_grows h heap h' heap' -> (wok h k r -> wok h' k r) ->
  last_ok h' heap' l na lo hi k r.
Proof.
  intros [] Hg Hw. split; try done; [naive_solver|]. intros b n Hin Hb. eapply placed_grows; [done|].
  by apply lo_placed0.
Qed.

Lemma ok_update h sub bc s k r r' :
  stream_ok h sub bc s -> Stream.heap s !! k = Some r -> evolves r r' ->
  Range.next_offset r' = Range.next_offset r -> Range.is_sealed r' = Range.is_sealed r ->
  (Range.is_sealing r = true -> Range.is_sealing r' = true) -> (wok h k r -> wok h k r') ->
  (Stream.last_range s = Some k -> Range.is_sealed r = false ->
     cut (span <$> Stream.inflight s) (Range.confirm_offset r') /\
     (forall i x, Range.replicas r' !! i = Some x -> cut (span <$> Stream.inflight s) (Replica.confirm_offset x))) ->
  stream_ok h sub bc (Stream.set_heap s (<[k := r']> (Stream.heap s))).
Proof.
  intros [] Hk He Hn Hs Hsg Hw Hcut.
  assert (heap_grows h (Stream.heap s) h (<[k := r']> (Stream.heap s))) as Hg by (apply (grows_insert _ _ _ r); [done..|lia|done]).
  split; simpl; try done.
  - destruct ok_window0 as (lo & hi & (Hlo & Ht & Hhi & Hl) & Hch). exists lo, hi. split; [|done].
    split_and!; try done; [lia|lia|]. destruct (Stream.last_range s) as [k'|] eqn:El; [|done].
    destruct Hl as (x & Hx & Hl). destruct (decide (k' = k)) as [->|Hne].
    + assert (x = r) as -> by congruence. exists r'. split; [apply list_lookup_insert_eq; by eapply lookup_lt_Some|].
      eapply last_update; eauto.
    + exists x. rewrite list_lookup_insert_ne by done. split; [done|]. by eapply last_other.
  - eapply unsealed_update; eauto using ev_open, ev_sealed.
  - eapply Forall_impl; [done|]. intros t. by apply task_grows.
  - eapply jobs_grows; [done| |done]. intros i x x' Hi Hi' Hxg Hxs.
    apply insert_inv in Hi' as [[-> ->]|[_ Hi']]; [|by simplify_eq]. simplify_eq. split; [auto|congruence].
  - eapply Forall_impl; [done|]. intros t. by apply background_grows.
  - intros i e Hi. eapply sealed_grows; eauto.
  - by eapply pc_grows.
  - eapply Forall_impl; [done|]. intros a. by apply answer_grows.
Qed.
End invariant.
