(* ===== verification/StreamSafety.v ===== *)
(** * A stream that is written: safety

    Every event keeps the invariant, and none panics. *)

From S2P Require Import Prelude Bytes Model Record RecordsBlock Collections ReplicaCache Replication.
From S2P Require Import Quorum RangeWriter ReplicationStream StreamSystem StreamInvariant.

Section safety.
Context {B : BytesApi} {BL : BytesLaws B} {M : MetaApi}.
Context (iterate : gmap string string -> list (string * string)).
Abbreviation wok h k r := (writer_ok (acked_in h k) r).
Abbreviation stream_ok := (stream_ok iterate).

Lemma ok_last h sub bc s k :
  stream_ok h sub bc s -> Stream.last_range s = Some k ->
  exists r lo hi, Stream.heap s !! k = Some r /\
    window h (Stream.heap s) (Some k) (span <$> Stream.inflight s) (Stream.next_append_start_offset s)
      (Stream.next_offset s) lo hi /\
    last_ok h (Stream.heap s) (span <$> Stream.inflight s) (Stream.next_append_start_offset s) lo hi k r.
Proof.
  intros [] Hl. destruct ok_window as (lo & hi & Hw & _). rewrite Hl in Hw. pose proof Hw as (_ & _ & _ & r & Hr & ?).
  by exists r, lo, hi.
Qed.

(** ** The tasks of the replicas *)

Lemma ok_set_tasks h sub bc s ts :
  stream_ok h sub bc s -> Forall (task_ok h (Stream.heap s) (span <$> Stream.inflight s)) ts ->
  stream_ok h sub bc (Stream.set_tasks s ts).
Proof. intros [] ?. by split. Qed.

Lemma ok_set_ticks h sub bc s n : stream_ok h sub bc s -> stream_ok h sub bc (Stream.set_ticks s n).
Proof. intros []. by split. Qed.

Lemma acks_ok h sub bc s k n r :
  stream_ok h sub bc s -> Stream.heap s !! k = Some r -> wok h k r ->
  exists s', Stream.acks s k n = Ret s' /\ stream_ok h sub bc s'.
Proof.
  revert s r. induction n as [|n IH]; intros s r Hok Hk Hw; simpl; [by exists s|].
  rewrite Hk. destruct (try_ack_ok _ r Hw) as (r' & called & -> & Hw' & He & Hn & Hr & Hs & Hg & _ & Hc).
  rewrite bind_Ret.
  assert (stream_ok h sub bc (Stream.set_heap s (<[k := r']> (Stream.heap s)))) as Hok'.
  { eapply ok_update; eauto. intros Hl Hse.
    destruct (ok_last _ _ _ _ _ Hok Hl) as (x & lo & hi & Hx & _ & []). assert (x = r) as -> by congruence.
    destruct (lo_unsealed Hse) as (_ & _ & _ & Hrc). rewrite Hr. split; [|done].
    destruct Hc as [->|(i & x & Hi & <-)]; [done|by eapply Hrc]. }
  apply (IH _ r'); [|destruct called; apply list_lookup_insert_eq; by eapply lookup_lt_Some|done].
  destruct called; [by apply ok_set_ticks|done].
Qed.

Definition task_of (next : Replica.next) (tk : Replica.task) : Prop :=
  match next with
  | Replica.Requested tk' | Replica.Sleeping tk' => Replica.last_offset tk' = Replica.last_offset tk
  | Replica.Finished _ => True
  end.

(** A task goes on: what it confirms is acknowledged. *)
Lemma replica_step_ok h sub bc s j k i next tk f :
  stream_ok h sub bc s -> Stream.replica_tasks s !! j = Some (k, i, next) ->
  next = Replica.Requested tk \/ next = Replica.Sleeping tk ->
  (forall x x' next', f x = (x', next') -> task_of next' tk /\
     (Replica.confirm_offset x' = Replica.confirm_offset x \/
      Replica.confirm_offset x' = Replica.last_offset tk /\ (k, i, Replica.last_offset tk) ∈ h)) ->
  exists s', Stream.replica_step s j k i f = Ret s' /\ stream_ok h sub bc s'.
Proof.
  intros Hok Hj Hnext Hf. pose proof (ok_tasks _ _ _ _ _ Hok) as Htasks. rewrite Forall_lookup in Htasks.
  destruct (Htasks _ _ Hj) as (r & Hk & Hw & Hi & Ht).
  assert (Range.is_sealed r = false -> Replica.last_offset tk <= Range.next_offset r /\
    cut (span <$> Stream.inflight s) (Replica.last_offset tk)) as Htk by by destruct Hnext as [->| ->].
  unfold Stream.replica_step. rewrite Hk. apply lookup_lt_is_Some in Hi as [x Hx]. rewrite Hx.
  destruct (f x) as [x' next'] eqn:Ef. destruct (Hf _ _ _ Ef) as [Htk' Hc].
  destruct (replica_update_ok (acked_in h k) r i x x' Hw Hx) as [Hw' He].
  { intros Hs Hr. destruct Hc as [Hc|[Hc Hin]]; [by eapply replica_ok_same|].
    eapply replica_ok_acked; [done|by apply Htk|done]. }
  set (r' := Range.set_replicas r (<[i := x']> (Range.replicas r))) in *.
  assert (stream_ok h sub bc (Stream.set_heap s (<[k := r']> (Stream.heap s)))) as Hok'.
  { eapply ok_update; eauto; [done..|]. intros Hl Hse.
    destruct (ok_last _ _ _ _ _ Hok Hl) as (y & lo & hi & Hy & _ & []). assert (y = r) as -> by congruence.
    destruct (lo_unsealed Hse) as (_ & _ & _ & Hrc). split; [done|]. simpl. intros n z Hz.
    apply insert_inv in Hz as [[-> ->]|[_ Hz]]; [|by eapply Hrc].
    destruct Hc as [->|[-> _]]; [by eapply Hrc|by apply Htk]. }
  assert (<[k := r']> (Stream.heap s) !! k = Some r') as Hk'.
  { apply list_lookup_insert_eq. by eapply lookup_lt_Some. }
  pose proof (ok_tasks _ _ _ _ _ Hok') as Htasks'. simpl in Htasks'.
  assert (forall tk', Replica.last_offset tk' = Replica.last_offset tk -> forall n,
    n = Replica.Requested tk' \/ n = Replica.Sleeping tk' ->
    stream_ok h sub bc (Stream.set_tasks (Stream.set_heap s (<[k := r']> (Stream.heap s)))
      (<[j := (k, i, n)]> (Stream.replica_tasks s)))) as Hgo.
  { intros tk' Heq n Hn. apply ok_set_tasks; [done|]. simpl. apply Forall_insert; [done|].
    exists r'. split_and!; [done|done| |].
    - simpl. rewrite length_insert. by eapply lookup_lt_Some.
    - destruct Hn as [-> | ->]; rewrite Heq; exact Htk. }
  destruct next' as [tk'|tk'|n]; simpl in Htk'; [eexists; split; [done|]; by eapply Hgo; eauto..|].
  eapply acks_ok; [|done|done]. apply ok_set_tasks; [done|]. simpl. by apply Forall_delete.
Qed.

Lemma task_runs_ok h sub bc s j k i tk :
  stream_ok h sub bc s -> Stream.replica_tasks s !! j = Some (k, i, Replica.Sleeping tk) ->
  exists s', Stream.replica_step s j k i (fun x => Replica.loop_head x tk) = Ret s' /\ stream_ok h sub bc s'.
Proof.
  intros Hok Hj. eapply replica_step_ok; eauto. intros x x' next' [? Hn]%loop_head_confirm.
  split; [|by left]. by destruct Hn as [->|[n ->]].
Qed.

Lemma task_answered_ok h sub bc s j k i tk res :
  stream_ok h sub bc s -> Stream.replica_tasks s !! j = Some (k, i, Replica.Requested tk) ->
  (res = Ok [ErrorCode.OK] -> (k, i, Replica.last_offset tk) ∈ h) ->
  exists s', Stream.replica_step s j k i (fun x => Replica.respond x tk res) = Ret s' /\ stream_ok h sub bc s'.
Proof.
  intros Hok Hj Hack. eapply replica_step_ok; eauto. intros x x' next' [Hc Hn]%respond_confirm.
  split; [by destruct Hn as [->| ->]|]. destruct Hc as [?|[? ?]]; auto.
Qed.

(** ** The requests *)

Lemma request_mono (sub sub' : list (Z * Z * RecordBatch.t)) kq :
  sub ⊆ sub' -> request_ok iterate sub kq -> request_ok iterate sub' kq.
Proof. intros Hsub (? & ? & ?). split_and!; eauto. Qed.

Lemma tiles_snoc lo hi l b n : tiles lo hi l -> b = hi -> 0 < n -> tiles lo (b + n) (l ++ [(b, n)]).
Proof. intros Ht -> Hn. apply tiles_app. exists hi. simpl. auto. Qed.

Lemma tiles_fun lo a b l : tiles lo a l -> tiles lo b l -> a = b.
Proof. revert lo. induction l as [|[x n] l IH]; simpl; [congruence|]. intros lo (_ & _ & ?) (_ & _ & ?). eauto. Qed.

Lemma append_ok h sub bc s caller rb :
  stream_ok h sub bc s -> batch_ok iterate rb -> Stream.next_offset s + batch_count rb < 2 ^ 64 ->
  exists s', Stream.append s caller rb = Ret s' /\
    stream_ok h (sub ++ [(caller, Stream.next_offset s, rb)]) bc s'.
Proof.
  intros [] Hb Hlt. destruct (batch_delta iterate rb Hb) as [Hd _]. pose proof (proj1 Hb) as Hpos.
  fold (batch_count rb) in Hpos. destruct ok_window as (lo & hi & (Hlo & Ht & Hhi & Hl) & Hch).
  pose proof (proj1 (tiles_bounds _ _ _ Ht)).
  set (sub' := sub ++ _). assert (sub ⊆ sub') as Hsub by (unfold sub'; set_solver).
  assert (Forall (request_ok iterate sub') (Stream.inflight s)) as Hinf.
  { eapply Forall_impl; [exact ok_inflight|]. intros kq. by apply request_mono. }
  assert (Forall (request_ok iterate sub') (requests_in (Stream.append_requests s))) as Hreq.
  { eapply Forall_impl; [exact ok_requests|]. intros kq. by apply request_mono. }
  assert (Forall (answer_ok h (Stream.heap s) (Stream.last_range s) sub') (Stream.answers s)) as Hans.
  { eapply Forall_impl; [exact ok_answers|]. intros a. apply answer_grows; [apply grows_refl|done]. }
  assert (Forall (answer_ok h (Stream.heap s) (Stream.last_range s) sub') (Stream.answers s ++ [(caller, Err Stream.closed_error)])) as Hans'.
  { by apply Forall_app_2; [|constructor; [|constructor]]. }
  assert ((Stream.answers s ++ [(caller, Err Stream.closed_error)]).*1 ++ callers (Stream.inflight s).*2 ++
    callers (Stream.append_requests s) ≡ₚ sub'.*1.*1) as Hcons'.
  { unfold sub'. rewrite !fmap_app. rewrite <- ok_conserve. simpl. solve_Permutation. }
  unfold Stream.append. destruct (Stream.closed s).
  { eexists. split; [done|]. split; simpl; try done. by exists lo, hi. }
  rewrite Hd, uint_add_Ret by lia. rewrite bind_Ret. simpl.
  assert (forall s', s' = Stream.set_requests (Stream.set_offsets s (Stream.next_offset s + batch_count rb) (Stream.start_offset s))
      (Stream.append_requests s ++ [StreamAppendRequest.mk (Stream.next_offset s) rb (Some caller)]) ->
      Stream.pc s <> Stream.Stopped -> stream_ok h sub' bc s') as Hsend.
  { intros s' -> Hrun. split; simpl; try done.
    - exists lo, hi. split; [split_and!; try done; lia|]. intros He _. unfold requests_in. rewrite !fmap_app.
      eapply tiles_snoc; [by apply Hch|done|lia].
    - unfold requests_in. rewrite fmap_app. apply Forall_app_2; [done|]. constructor; [|constructor].
      split_and!; [done|done|]. intros c [= <-]. unfold sub'. set_solver.
    - unfold sub', callers. rewrite !fmap_app, omap_app, <- ok_conserve. simpl. unfold callers. solve_Permutation. }
  destruct (Stream.pc s) eqn:Ep; try (eexists; split; [done|]; by apply Hsend).
  eexists. split; [done|]. split; simpl; rewrite ?Ep; try done. exists lo, hi. split; [split_and!; try done; lia|done].
Qed.

(** *** Replies *)

Lemma replies_callers (f : Z * StreamAppendRequest.t -> result Z EsError.t) l :
  (concat ((fun kq => Stream.reply kq.2 (f kq)) <$> l)).*1 = callers l.*2.
Proof.
  induction l as [|[b q] l IH]; csimpl; [done|]. rewrite fmap_app, IH. unfold callers. csimpl.
  unfold Stream.reply. by destruct (StreamAppendRequest.append_tx q).
Qed.

Lemma answers_err h heap last sub l e :
  Forall (answer_ok h heap last sub) (concat ((fun kq : Z * StreamAppendRequest.t => Stream.reply kq.2 (Err e)) <$> l)).
Proof.
  apply Forall_concat, Forall_fmap, Forall_forall. intros [b q] _. simpl. unfold Stream.reply.
  destruct (StreamAppendRequest.append_tx q); constructor; [done|constructor].
Qed.

Lemma span_take_tx (l : list (Z * StreamAppendRequest.t)) :
  span <$> ((fun kq : Z * _ => (kq.1, StreamAppendRequest.take_tx kq.2)) <$> l) = span <$> l.
Proof. rewrite <- list_fmap_compose. by apply list_fmap_ext. Qed.

Lemma callers_take_tx (l : list (Z * StreamAppendRequest.t)) :
  callers ((fun kq : Z * _ => (kq.1, StreamAppendRequest.take_tx kq.2)) <$> l).*2 = [].
Proof. induction l as [|[b q] l IH]; [done|]. exact IH. Qed.

Lemma ok_fail_all h sub bc s e : stream_ok h sub bc s -> stream_ok h sub bc (Stream.fail_all s e).
Proof.
  intros []. split; simpl; rewrite ?span_take_tx; try done.
  - apply Forall_fmap. eapply Forall_impl; [exact ok_inflight|]. intros [b q] (? & ? & _). by split_and!.
  - apply Forall_app_2; [done|apply answers_err].
  - rewrite fmap_app, (replies_callers (fun _ => Err e)), callers_take_tx, <- ok_conserve. solve_Permutation.
Qed.

(** No seal of [append_task] is running. *)
Definition idle (s : Stream.t) : Prop := omap is_appender (Stream.jobs s) = [].

Lemma ok_idle h sub bc s : stream_ok h sub bc s -> Stream.pc s <> Stream.InSeal -> idle s.
Proof.
  intros [] Hpc. unfold idle. destruct ok_jobs as [Hall _].
  induction Hall as [|j l (r & _ & _ & _ & Hwho) _ IH]; csimpl; [done|]. unfold is_appender at 1.
  destruct (Stream.who j); [done|by destruct Hwho|done].
Qed.

Lemma idle_who s j : idle s -> j ∈ Stream.jobs s -> Stream.who j <> Stream.Appender.
Proof.
  intros Hidle Hj Hw. assert (() ∈ omap is_appender (Stream.jobs s)) as Hin.
  { apply list_elem_of_omap. exists j. unfold is_appender. by rewrite Hw. }
  rewrite Hidle in Hin. by apply not_elem_of_nil in Hin.
Qed.

Lemma ok_set_pc h sub bc s p :
  stream_ok h sub bc s -> idle s -> pc_ok (Stream.heap s) (Stream.last_range s) p (Stream.rewind s) ->
  (Stream.pc s = Stream.Stopped -> p = Stream.Stopped) -> stream_ok h sub bc (Stream.set_pc s p).
Proof.
  intros [] Hidle Hpc Hst. split; simpl; try done.
  - destruct ok_window as (lo & hi & ? & Hch). exists lo, hi. split; [done|]. intros ? ?. apply Hch; [done|].
    naive_solver.
  - destruct ok_jobs as (Hall & ? & ?). split; [|done]. rewrite Forall_forall in Hall |- *.
    intros j Hj. destruct (Hall j Hj) as (r & ? & ? & ? & Hwho). pose proof (idle_who _ _ Hidle Hj).
    exists r. split_and!; try done. by destruct (Stream.who j).
Qed.

Lemma ok_append_failed h sub bc s e :
  stream_ok h sub bc s -> idle s -> Stream.pc s <> Stream.Stopped -> stream_ok h sub bc (Stream.append_failed s e).
Proof.
  intros Hok Hidle Hst. unfold Stream.append_failed. apply ok_set_pc; [|done..].
  apply ok_fail_all. destruct Hok. split; try done. destruct ok_window as (lo & hi & ? & _). by exists lo, hi.
Qed.

Lemma ok_stop h sub bc s :
  stream_ok h sub bc s -> idle s -> stream_ok h sub bc (Stream.stop s).
Proof.
  intros Hok Hidle. unfold Stream.stop. apply (ok_fail_all _ _ _ _ Stream.closed_error) in Hok.
  set (s1 := Stream.fail_all s Stream.closed_error) in *.
  apply (ok_set_pc _ _ _ _ Stream.Stopped) in Hok; [|done..]. destruct Hok. split; simpl in *; try done.
  - destruct ok_window as (lo & hi & ? & _). by exists lo, hi.
  - apply Forall_app_2; [done|]. pose proof (answers_err h (Stream.heap s1) (Stream.last_range s1) sub
      (requests_in (Stream.append_requests s1)) Stream.closed_error) as Ha.
    unfold requests_in in Ha. by rewrite <- list_fmap_compose in Ha.
  - rewrite fmap_app, <- ok_conserve.
    pose proof (replies_callers (fun _ => Err Stream.closed_error) (requests_in (Stream.append_requests s1))) as Hr.
    unfold requests_in in Hr. rewrite <- !list_fmap_compose in Hr.
    rewrite list_fmap_id in Hr. unfold compose in Hr. simpl in *. rewrite Hr. unfold callers at 4. simpl. solve_Permutation.
Qed.

(** ** The rounds of [append_task] *)

(** The loop over the requests from the cursor on. *)
Definition sent_by (k : nat) (r : Range.t) (cursor : list (Z * StreamAppendRequest.t))
    (t : nat * nat * Replica.next) : Prop :=
  exists i tk c1 c2, t = (k, i, Replica.Sleeping tk) /\ (i < length (Range.replicas r))%nat /\
    cursor = c1 ++ c2 /\ tiles (Range.next_offset r) (Replica.last_offset tk) (span <$> c1).

Lemma spawned_elem k i0 tks t :
  t ∈ Stream.spawned k i0 tks ->
  exists i tk, t = (k, i, Replica.Sleeping tk) /\ (i < i0 + length tks)%nat /\ Some tk ∈ tks.
Proof.
  revert i0. induction tks as [|[tk|] tks IH]; intros i0; simpl; [set_solver| |].
  - intros [->|Hin]%elem_of_cons; [exists i0, tk; split_and!; [done|lia|by left]|].
    destruct (IH _ Hin) as (i & tk' & -> & ? & ?). exists i, tk'. split_and!; [done|lia|by right].
  - intros Hin. destruct (IH _ Hin) as (i & tk' & -> & ? & ?). exists i, tk'. split_and!; [done|lia|by right].
Qed.

Record sent (h : list (nat * nat * Z)) (k : nat) (hi : Z) (r r' : Range.t) : Prop := {
  se_ok : wok h k r';
  se_evolves : evolves r r';
  se_confirm : Range.confirm_offset r' = Range.confirm_offset r;
  se_writable : Range.is_writable r' = Range.is_writable r;
  se_sealed : Range.is_sealed r' = Range.is_sealed r;
  se_next : Range.next_offset r' = hi;
  se_replicas i x' : Range.replicas r' !! i = Some x' -> exists x, Range.replicas r !! i = Some x /\
    Replica.confirm_offset x' = Replica.confirm_offset x;
}.

Lemma sent_trans h k m hi r1 r2 r3 : sent h k m r1 r2 -> sent h k hi r2 r3 -> sent h k hi r1 r3.
Proof.
  intros [? [] ? ? ? ? Hr1] [? [] ? ? ? ? Hr2]. split; try congruence.
  - split; try congruence.
  - intros i x (y & Hy & ->)%Hr2. by apply Hr1.
Qed.

Lemma append_loop_ok h sub k hi cursor s r :
  Stream.heap s !! k = Some r -> wok h k r -> cache_ok (Stream.cache s) ->
  tiles (Range.next_offset r) hi (span <$> cursor) -> Forall (request_ok iterate sub) cursor ->
  0 <= Range.next_offset r -> hi < 2 ^ 64 ->
  exists r' c' ts x,
    Stream.append_loop iterate s k cursor =
      Ret (Stream.set_next_append (Stream.set_tasks (Stream.set_cache (Stream.set_heap s (<[k := r']> (Stream.heap s))) c')
             (Stream.replica_tasks s ++ ts)) x) /\
    sent h k hi r r' /\ cache_ok c' /\ (x = hi \/ cursor = [] /\ x = Stream.next_append_start_offset s) /\
    Forall (sent_by k r cursor) ts.
Proof.
  revert s r. induction cursor as [|[b q] cursor IH]; intros s r Hk Hw Hc Ht Hq Hpos Hhi.
  { simpl in Ht. exists r, (Stream.cache s), [], (Stream.next_append_start_offset s).
    split; [by destruct s; cbn in *; rewrite list_insert_id, app_nil_r|].
    split_and!; [|done|by right|constructor]. split; try done. intros i y Hy. by exists y. }
  simpl in Ht. destruct Ht as (-> & Hn & Ht). pose proof (proj1 (tiles_bounds _ _ _ Ht)).
  apply Forall_cons in Hq as [(Hbase & Hb & _) Hq]. simpl in Hbase, Hb. cbn [Stream.append_loop]. rewrite Hk.
  set (n := batch_count (StreamAppendRequest.record_batch q)) in *.
  destruct (range_append_ok (acked_in h k) iterate r (Stream.cache s) (Stream.client s)
    (StreamAppendRequest.record_batch q) Hw Hc Hb) as (r1 & c1 & tks & -> & Hw1 & He1 & Hc1 & Hcf1 & Hwr1 & Hs1 & Hn1 & [Hlen Htks] & Hr1);
    [done|fold n; lia|].
  fold n in Hn1. rewrite bind_Ret. unfold StreamAppendRequest.count.
  rewrite (proj2 (batch_delta iterate _ Hb)). fold n. rewrite uint_add_Ret by lia. rewrite bind_Ret.
  set (s1 := Stream.set_next_append _ _).
  destruct (IH s1 r1) as (r' & c' & ts & x & -> & Hsent & Hc' & Hx & Hts); try done; [| |lia|].
  { apply list_lookup_insert_eq. by eapply lookup_lt_Some. }
  { by rewrite Hn1. }
  exists r', c', (Stream.spawned k 0 tks ++ ts), x. simpl. rewrite list_insert_insert_eq, (assoc_L (++)).
  split; [done|]. split; [|split; [done|split; [|apply Forall_app_2]]].
  - eapply sent_trans; [|exact Hsent]. by split.
  - left. destruct Hx as [?|[-> ->]]; [done|]. simpl in *. lia.
  - apply Forall_forall. intros t (i & tk & -> & Hi & Hin)%spawned_elem.
    rewrite Forall_forall in Htks. destruct (Htks _ Hin) as [_ Hlast].
    exists i, tk, [(Range.next_offset r, q)], cursor. split_and!; [done|lia|done|]. simpl. rewrite Hlast, Hn1. done.
  - eapply Forall_impl; [done|]. intros t (i & tk & l1 & l2 & -> & Hi & -> & Hl1).
    exists i, tk, ((Range.next_offset r, q) :: l1), l2. split_and!; [done| |done|].
    + by rewrite (ev_replicas _ _ He1) in Hi.
    + simpl. rewrite Hn1 in Hl1. done.
Qed.

(** The requests that the last range has confirmed are answered. *)
Definition ack_confirmed (s : Stream.t) (confirm : Z) : Stream.t :=
  let acked := List.filter (fun kq : Z * _ => kq.1 <? confirm) (Stream.inflight s) in
  let s := Stream.answer s
    (concat ((fun kq : Z * _ => Stream.reply kq.2 (Ok (StreamAppendRequest.base_offset kq.2))) <$> acked)) in
  Stream.set_inflight s (drop (length acked) (Stream.inflight s)).

Lemma cut_suffix l1 l2 x : cut (span <$> l1 ++ l2) x -> cut (span <$> l2) x.
Proof. apply cut_incl. rewrite fmap_app. set_solver. Qed.

Lemma ok_ack_confirmed h sub bc s k r :
  stream_ok h sub bc s -> Stream.last_range s = Some k -> Stream.heap s !! k = Some r -> Range.is_writable r = true ->
  stream_ok h sub bc (ack_confirmed s (Range.confirm_offset r)).
Proof.
  intros [] Hlast Hk Hwr. destruct ok_window as (lo & hi & (Hlo & Ht & Hhi & Hl) & Hch).
  rewrite Hlast in Hl. destruct Hl as (x & Hx & []). assert (x = r) as -> by congruence.
  destruct (tiles_split lo hi (Range.confirm_offset r) (Stream.inflight s)) as (l1 & l2 & Hl & Ht1 & Ht2 & Hf & _);
    [done..|].
  assert (wok h k r) as Hw by (destruct lo_kind as [?|?%sealed_readonly]; [done|congruence]).
  assert (drop (length l1) (Stream.inflight s) = l2) as Hdrop by by rewrite Hl, drop_app_length.
  unfold ack_confirmed. rewrite Hf. rewrite Hl in Ht, lo_cut, lo_placed, lo_unsealed, ok_tasks, ok_inflight, ok_conserve.
  split; simpl; rewrite ?Hlast, ?Hdrop; try done.
  - exists (Range.confirm_offset r), hi. split; [|done]. split_and!; try done; try lia.
    exists r. split; [done|]. split; try done; [lia|by eapply cut_suffix| |].
    + intros b n Hin. apply lo_placed. rewrite fmap_app. set_solver.
    + intros (-> & ? & ? & Hrc)%lo_unsealed. split_and!; [done|done|by eapply cut_suffix|].
      intros i y Hy. eapply cut_suffix. by eapply Hrc.
  - by rewrite <- Hlast.
  - eapply Forall_impl; [done|]. intros [[k' i] next] (y & Hy & ? & ? & Hn). exists y. split_and!; try done.
    destruct next; [..|done]; intros [? ?]%Hn; (split; [done|]); by eapply cut_suffix.
  - by rewrite <- Hlast.
  - by rewrite <- Hlast.
  - by apply Forall_app in ok_inflight as [_ ?].
  - apply Forall_app_2; [by rewrite <- Hlast|]. apply Forall_concat, Forall_fmap, Forall_forall. intros [b q] Hin. simpl.
    apply Forall_app in ok_inflight as [Hq _]. rewrite Forall_forall in Hq.
    destruct (Hq _ Hin) as (Hbase & _ & Hsub). simpl in *. unfold Stream.reply.
    destruct (StreamAppendRequest.append_tx q) as [c|]; [|constructor]. constructor; [|constructor].
    exists (StreamAppendRequest.record_batch q). rewrite Hbase. split; [by apply Hsub|].
    apply tiles_bounds in Ht1 as [_ Hb]. apply (list_elem_of_fmap_2 span) in Hin.
    pose proof (Hb _ _ Hin) as (? & ? & ?). split; [|exists k, r; split_and!; [done|done|done|]; simpl in *; lia].
    apply lo_placed; [rewrite fmap_app; apply elem_of_app; by left|simpl in *; lia].
  - rewrite fmap_app, (replies_callers (fun kq => Ok (StreamAppendRequest.base_offset kq.2))), <- ok_conserve.
    rewrite fmap_app. unfold callers. rewrite omap_app. solve_Permutation.
Qed.

(** The other ones are sent. *)
Lemma ok_send h sub bc s k r :
  stream_ok h sub bc s -> Stream.last_range s = Some k -> Stream.heap s !! k = Some r -> Range.is_writable r = true ->
  exists s', Stream.append_loop iterate s k
      (BTreeMap.range_from (Stream.inflight s) (Stream.next_append_start_offset s)) = Ret s' /\ stream_ok h sub bc s'.
Proof.
  intros [] Hlast Hk Hwr. destruct ok_window as (lo & hi & (Hlo & Ht & Hhi & Hl) & Hch).
  rewrite Hlast in Hl. destruct Hl as (x & Hx & []). assert (x = r) as -> by congruence.
  destruct (writable_inv r Hwr) as (Hopen & Hns & Hng). destruct (lo_unsealed Hns) as (Hna & Hnhi & Hcn & Hrc).
  assert (wok h k r) as Hw by (destruct lo_kind; [done|congruence]). pose proof (wo_next _ _ Hw).
  destruct (tiles_split lo hi (Range.next_offset r) (Stream.inflight s)) as (l1 & l2 & Hl & Ht1 & Ht2 & _ & Hf);
    [done|done|lia|]. rewrite Hna, Hf.
  destruct (append_loop_ok h sub k hi l2 s r) as (r' & c' & ts & x & -> & Hsent & Hc' & Hx' & Hts); try done; [|lia|lia|].
  { rewrite Hl in ok_inflight. by apply Forall_app in ok_inflight as [_ ?]. }
  destruct Hsent.
  eexists. split; [done|].
  assert (heap_grows h (Stream.heap s) h (<[k := r']> (Stream.heap s))) as Hg by (apply (grows_insert _ _ _ r); [done..|lia|done]).
  assert (<[k := r']> (Stream.heap s) !! k = Some r') as Hk'.
  { apply list_lookup_insert_eq. by eapply lookup_lt_Some. }
  assert (x = hi) as ->.
  { destruct Hx' as [?|[-> ->]]; [done|]. simpl in Ht2. lia. }
  pose proof (cut_hi _ _ _ Ht) as Hcuthi.
  split; simpl; rewrite ?Hlast; try done.
  - exists lo, hi. split; [|done]. split_and!; try done; [lia|lia|]. exists r'. split; [done|].
    split; rewrite ?se_confirm0, ?se_sealed0, ?se_next0, ?(ev_md _ _ se_evolves0); try done; [by left| |].
    + intros b n Hin Hb. eapply placed_grows; [done|]. by apply lo_placed.
    + intros _. split_and!; try done. intros i y (z & Hz & ->)%se_replicas0. by eapply Hrc.
  - rewrite <- Hlast. eapply unsealed_update; eauto using ev_open, ev_sealed.
  - apply Forall_app_2; [eapply Forall_impl; [done|]; intros t; by apply task_grows|].
    eapply Forall_impl; [done|]. intros t (i & tk & c1 & c2 & -> & Hi & -> & Hc1). exists r'.
    rewrite (ev_replicas _ _ se_evolves0), se_next0. split_and!; try done. intros _.
    rewrite fmap_app in Ht2. apply tiles_app in Ht2 as (m & Hm1 & Hm2).
    assert (m = Replica.last_offset tk) as -> by by eapply tiles_fun.
    pose proof (proj1 (tiles_bounds _ _ _ Hm2)). split; [lia|]. rewrite Hl, !fmap_app, (assoc_L (++)).
    eapply tiles_cut; [|done]. apply tiles_app. eauto.
  - rewrite <- Hlast. eapply jobs_grows; [done| |done]. intros i y y' Hi Hi' Hyg Hys.
    apply insert_inv in Hi' as [[-> ->]|[_ Hi']]; [|by simplify_eq]. assert (y = r) as -> by congruence. congruence.
  - eapply Forall_impl; [done|]. intros t. by apply background_grows.
  - intros i e Hi. eapply sealed_grows; eauto.
  - rewrite <- Hlast. by eapply pc_grows.
  - rewrite <- Hlast. eapply Forall_impl; [done|]. intros a. by apply answer_grows.
Qed.

(** [append_task0], after the offset to go on from is set. *)
Definition rewound (s : Stream.t) : Stream.t :=
  match Stream.rewind s with Some x => Stream.set_next_append s x | None => s end.

Lemma append_task0_ok h sub bc s k r :
  stream_ok h sub bc (Stream.set_pc (rewound s) Stream.AtSelect) -> Stream.last_range s = Some k ->
  Stream.heap s !! k = Some r -> Range.is_writable r = true ->
  exists s', Stream.append_task0 iterate s k = Ret s' /\ stream_ok h sub bc s'.
Proof.
  intros Hok Hlast Hk Hw. unfold Stream.append_task0. fold (rewound s).
  set (s1 := Stream.set_pc (rewound s) Stream.AtSelect) in *.
  assert (Stream.last_range s1 = Some k) as Hlast1 by (unfold s1, rewound; by destruct (Stream.rewind s)).
  assert (Stream.heap s1 !! k = Some r) as Hk1 by (unfold s1, rewound; by destruct (Stream.rewind s)).
  pose proof (ok_ack_confirmed _ _ _ _ _ _ Hok Hlast1 Hk1 Hw) as Hack.
  pose proof (ok_send _ _ _ _ _ _ Hack Hlast1 Hk1 Hw) as Hsend. unfold ack_confirmed in Hsend.
  destruct (Stream.inflight s1) eqn:Ei; [by exists s1|]. rewrite Hk1.
  rewrite <- Ei in *. exact Hsend.
Qed.

(** ** Sealing *)

Lemma ok_add_job h sub bc s j :
  stream_ok h sub bc s -> job_ok h (Stream.heap s) (Stream.last_range s) (Stream.pc s) j ->
  (forall k, pd_range j = Some k -> k ∉ omap pd_range (Stream.jobs s)) ->
  (Stream.who j = Stream.Appender -> idle s) -> stream_ok h sub bc (Stream.set_jobs s (Stream.jobs s ++ [j])).
Proof.
  intros [] Hj Hpd Hidle. split; simpl; try done. destruct ok_jobs as (Hall & Hnd & Hlen). split_and!.
  - by apply Forall_app_2; [|constructor].
  - rewrite omap_app. csimpl. destruct (pd_range j) as [k|] eqn:E; [|by rewrite app_nil_r].
    apply NoDup_app. split_and!; [done| |apply NoDup_singleton]. intros i Hi ->%list_elem_of_singleton.
    by apply (Hpd k).
  - rewrite omap_app, length_app. csimpl. unfold is_appender at 2.
    destruct (Stream.who j); simpl; [lia| |lia]. rewrite (Hidle eq_refl). simpl. lia.
Qed.

Lemma ok_set_rewind h sub bc s x :
  stream_ok h sub bc s -> pc_ok (Stream.heap s) (Stream.last_range s) (Stream.pc s) x ->
  stream_ok h sub bc (Stream.set_rewind s x).
Proof. intros [] ?. by split. Qed.

Lemma ok_create_failed h sub bc s first e :
  stream_ok h sub bc s -> idle s -> Stream.pc s <> Stream.Stopped ->
  rewind_ok (Stream.heap s) (Stream.last_range s) (Stream.rewind s) ->
  stream_ok h sub bc (Stream.create_failed s first e).
Proof.
  intros Hok Hidle Hst Hr. unfold Stream.create_failed. case_match; [by apply ok_append_failed|].
  by apply ok_set_pc.
Qed.

Lemma seal_returns_ok h sub bc s w k res :
  stream_ok h sub bc s -> w <> Stream.Opener ->
  (w = Stream.Appender -> Stream.pc s = Stream.InSeal /\ idle s /\ Stream.last_range s = Some k) ->
  (forall e, res = Ok e -> sealed_at (Stream.heap s) k e) ->
  exists s', Stream.seal_returns s w k res = Ret s' /\ stream_ok h sub bc s'.
Proof.
  intros Hok Hw Happ Hres. destruct w; [done| |by exists s]. destruct (Happ eq_refl) as (Hpc & Hidle & Hlast).
  simpl. unfold Stream.after_seal. destruct res as [e|e].
  - destruct (ok_last _ _ _ _ _ Hok Hlast) as (r & lo & hi & Hk & _ & []). rewrite Hk.
    rewrite (as_uint_id 32) by (unfold is_uint; lia). rewrite (uint_add_Ret 32) by lia. rewrite bind_Ret.
    eexists. split; [done|].
    assert (rewind_ok (Stream.heap s) (Stream.last_range s) (Some e)) as Hre.
    { intros x [= <-]. exists k. split; [done|]. by apply Hres. }
    assert (stream_ok h sub bc (Stream.set_rewind s (Some e))) as Hok'.
    { apply ok_set_rewind; [done|]. by rewrite Hpc. }
    unfold Stream.new_range_start. simpl. destruct (Stream.client s).
    + apply ok_set_pc; [done|done|done|]. simpl. by rewrite Hpc.
    + apply ok_create_failed; [done|done|simpl; by rewrite Hpc|done].
  - eexists. split; [done|]. case_match; [apply ok_append_failed; [done|done|by rewrite Hpc]|].
    apply ok_set_pc; [done|done| |by rewrite Hpc]. pose proof (ok_pc _ _ _ _ _ Hok) as Hp. by rewrite Hpc in Hp.
Qed.

(** A step that only changes the status of a range. *)
Record status_step (h : list (nat * nat * Z)) (k : nat) (r r' : Range.t) : Prop := {
  st_ok : wok h k r';
  st_evolves : evolves r r';
  st_next : Range.next_offset r' = Range.next_offset r;
  st_confirm : Range.confirm_offset r' = Range.confirm_offset r;
  st_replicas : Range.replicas r' = Range.replicas r;
}.

Lemma pd_sealing h sub bc s k r :
  stream_ok h sub bc s -> Stream.heap s !! k = Some r -> Range.is_sealing r = false ->
  k ∉ omap pd_range (Stream.jobs s).
Proof.
  intros Hok Hk Hg Hin. apply list_elem_of_omap in Hin as (j & Hj & Hpd).
  destruct (ok_jobs _ _ _ _ _ Hok) as [Hall _]. rewrite Forall_forall in Hall.
  destruct (Hall j Hj) as (x & Hx & _ & Hst & _). unfold pd_range in Hpd.
  destruct (Stream.state j); [done| |done]. injection Hpd as Hpd. destruct Hst as (? & _).
  rewrite Hpd in Hx. assert (x = r) as -> by congruence. congruence.
Qed.

Lemma seal_ok h sub bc s w k :
  stream_ok h sub bc s -> Stream.last_range s = Some k -> w <> Stream.Opener ->
  (w = Stream.Appender -> Stream.pc s = Stream.InSeal /\ idle s) ->
  exists s', Stream.seal s w k = Ret s' /\ stream_ok h sub bc s'.
Proof.
  intros Hok Hlast Hwho Happ. destruct (ok_last _ _ _ _ _ Hok Hlast) as (r & lo & hi & Hk & _ & Hl).
  unfold Stream.seal. rewrite Hk.
  assert (w = Stream.Appender -> Stream.pc s = Stream.InSeal /\ idle s /\ Stream.last_range s = Some k) as Happ'.
  { intros Hw. destruct (Happ Hw). by split_and!. }
  destruct (Range.is_sealed r) eqn:Hs.
  { unfold Range.seal_start. rewrite Hs. rewrite list_insert_id by done.
    replace (Stream.set_heap s (Stream.heap s)) with s by by destruct s.
    apply seal_returns_ok; [done|done|done|]. intros e [= <-]. by exists r. }
  assert (wok h k r) as Hw by (destruct (lo_kind _ _ _ _ _ _ _ _ Hl); [done|congruence]).
  destruct (lo_unsealed _ _ _ _ _ _ _ _ Hl Hs) as (_ & _ & _ & Hrc).
  destruct (Range.seal_start r) as [r' next] eqn:E.
  destruct (seal_start_ok _ r r' next Hw E) as (Hw' & He & Hn & Hc & Hr & Hs' & Hnext).
  assert (forall r2, status_step h k r r2 -> (Range.is_sealing r = true -> Range.is_sealing r2 = true) ->
    Range.is_sealed r2 = Range.is_sealed r ->
    stream_ok h sub bc (Stream.set_heap s (<[k := r2]> (Stream.heap s)))) as Hup.
  { intros r2 [] ? ?. eapply ok_update; eauto. intros _ _. rewrite st_confirm0, st_replicas0. split; [|done].
    apply (lo_cut _ _ _ _ _ _ _ _ Hl). }
  assert (<[k := r']> (Stream.heap s) !! k = Some r') as Hk'.
  { apply list_lookup_insert_eq. by eapply lookup_lt_Some. }
  destruct next as [res| |e|]; [by destruct Hnext as (_ & _ & ?); congruence| | |done].
  - destruct Hnext as [-> Hg]. eexists. split; [done|]. apply ok_add_job; [by apply Hup; [split|..]|..|done|by intros [_ ?]%Happ].
    exists r. split_and!; [done|done|done|]. destruct w; [done| |done]. simpl. by destruct (Happ eq_refl).
  - destruct Hnext as (-> & Hg' & Hg & _). unfold Range.placement_driver_seal. simpl. destruct (Stream.client s).
    + eexists. split; [done|].
      apply (ok_add_job _ _ _ (Stream.set_heap s (<[k := r']> (Stream.heap s)))); [by apply Hup; [split|..]|..|by intros [_ ?]%Happ].
      * exists r'. simpl. split_and!; [done|done|done|congruence|congruence|].
        destruct w; [done| |done]. simpl. by destruct (Happ eq_refl).
      * intros k' [= <-]. exact (pd_sealing _ _ _ s k r Hok Hk Hg).
    + rewrite list_insert_insert_eq.
      destruct (seal_pd_done_ok _ r' (Range.confirm_offset r) (Err (EsError.new ErrorCode.UNEXPECTED
        "range get client fail, client is dropped")) _ _ _ Hw' eq_refl) as (Hw2 & He2 & Hn2 & Hc2 & Hr2 & Hs2 & _).
      apply seal_returns_ok; [|done|done|done]. apply Hup; [|congruence..].
      split; try congruence. destruct He, He2. split; congruence || auto.
Qed.

(** *** The placement driver answers *)

Lemma omap_delete {A C} (f : A -> option C) (l : list A) j x c :
  l !! j = Some x -> f x = Some c -> omap f l ≡ₚ c :: omap f (delete j l).
Proof.
  intros Hj Hf. rewrite <- (take_drop_middle l j x Hj) at 1. rewrite delete_take_drop, !omap_app. csimpl. rewrite Hf.
  solve_Permutation.
Qed.

Lemma omap_delete_none {A C} (f : A -> option C) (l : list A) j x :
  l !! j = Some x -> f x = None -> omap f (delete j l) = omap f l.
Proof.
  intros Hj Hf. rewrite <- (take_drop_middle l j x Hj) at 2. rewrite delete_take_drop, !omap_app. csimpl. by rewrite Hf.
Qed.

Lemma omap_delete_sub {A C} (f : A -> option C) (l : list A) j x :
  l !! j = Some x -> omap f (delete j l) ⊆+ omap f l.
Proof.
  intros Hj. destruct (f x) as [c|] eqn:E.
  - rewrite (omap_delete f l j x c) by done. solve_submseteq.
  - by rewrite (omap_delete_none f l j x).
Qed.

Lemma delete_subset {A} (l : list A) j : delete j l ⊆ l.
Proof. intros x Hx. by eapply elem_of_submseteq, submseteq_delete. Qed.

Lemma ok_pd_done h sub bc s j w k e r r' :
  stream_ok h sub bc s -> Stream.jobs s !! j = Some (Stream.mk_job w k (Stream.JobPd e)) ->
  Stream.heap s !! k = Some r -> status_step h k r r' ->
  stream_ok h sub bc (Stream.set_jobs (Stream.set_heap s (<[k := r']> (Stream.heap s))) (delete j (Stream.jobs s))).
Proof.
  intros [] Hj Hk [Hw He Hn Hc Hr]. destruct ok_jobs as (Hall & Hnd & Hlen).
  pose proof (proj1 (Forall_lookup _ _) Hall _ _ Hj) as (x & Hx & Hwr & (Hg & Hs & _) & _). simpl in Hx, Hwr.
  assert (x = r) as -> by congruence. pose proof (ok_unsealed k r Hk (wo_open _ _ Hwr) Hs) as Hlast.
  assert (heap_grows h (Stream.heap s) h (<[k := r']> (Stream.heap s))) as Hgr by (apply (grows_insert _ _ _ r); [done..|lia|done]).
  pose proof (omap_delete pd_range _ _ _ k Hj eq_refl) as Hpd. rewrite Hpd in Hnd. apply NoDup_cons in Hnd as [Hnk Hnd].
  split; simpl; try done.
  - destruct ok_window as (lo & hi & (Hlo & Ht & Hhi & Hl) & Hch). exists lo, hi. split; [|done].
    rewrite Hlast in *. destruct Hl as (x & Hx' & []). assert (x = r) as -> by congruence.
    split_and!; try done; try lia. exists r'. split; [apply list_lookup_insert_eq; by eapply lookup_lt_Some|].
    split; rewrite ?Hc, ?Hn, ?Hr, ?(ev_md _ _ He); try done; [by left| |auto].
    intros b n Hin Hb. eapply placed_grows; [done|]. by apply lo_placed.
  - eapply unsealed_update; eauto using ev_open, ev_sealed.
  - eapply Forall_impl; [done|]. intros t. by apply task_grows.
  - split_and!; [|done|].
    + rewrite Forall_forall in Hall |- *. intros j' Hj'. destruct (Hall j' (delete_subset _ _ _ Hj')) as (y & Hy & Hyw & Hst & Hwho).
      destruct (decide (Stream.range j' = k)) as [Heq|Hne].
      * exists r'. rewrite Heq. split_and!; [apply list_lookup_insert_eq; by eapply lookup_lt_Some|done| |by rewrite <- Heq].
        destruct (Stream.state j') eqn:Est; [done| |done]. destruct Hnk. apply list_elem_of_omap. exists j'.
        split; [done|]. unfold pd_range. by rewrite Est, Heq.
      * exists y. by rewrite list_lookup_insert_ne by done.
    + etrans; [|exact Hlen]. by eapply submseteq_length, omap_delete_sub.
  - eapply Forall_impl; [done|]. intros t. by apply background_grows.
  - intros i e' Hi. eapply sealed_grows; eauto.
  - by eapply pc_grows.
  - eapply Forall_impl; [done|]. intros a. by apply answer_grows.
Qed.

Lemma appender_deleted h sub bc s j k st :
  stream_ok h sub bc s -> Stream.jobs s !! j = Some (Stream.mk_job Stream.Appender k st) ->
  omap is_appender (delete j (Stream.jobs s)) = [].
Proof.
  intros [] Hj. destruct ok_jobs as (_ & _ & Hlen).
  rewrite (omap_delete is_appender _ _ _ () Hj eq_refl) in Hlen. simpl in Hlen. apply nil_length_inv. lia.
Qed.

Lemma ok_broadcast h sub bc s l :
  stream_ok h sub bc s -> (forall k e, (k, e) ∈ l -> sealed_at (Stream.heap s) k e) -> stream_ok h sub (l ++ bc) s.
Proof. intros [] Hl. split; try done. intros k e [?|?]%elem_of_app; eauto. Qed.

Lemma ok_set_background h sub bc s l :
  stream_ok h sub bc s -> Forall (background_ok h (Stream.heap s)) l -> stream_ok h sub bc (Stream.set_background s l).
Proof. intros [] ?. by split. Qed.

Lemma pd_answers_ok h sub bc s j res :
  stream_ok h sub bc s ->
  exists s', Stream.pd_answers s j res = Ret s' /\ stream_ok h sub (System.broadcast s j res ++ bc) s'.
Proof.
  intros Hok. unfold Stream.pd_answers, System.broadcast.
  destruct (Stream.jobs s !! j) as [[w k [|e|]]|] eqn:Hj; try (by eexists).
  destruct (ok_jobs _ _ _ _ _ Hok) as (Hall & _). 
  pose proof (proj1 (Forall_lookup _ _) Hall _ _ Hj) as (r & Hk & Hw & (Hg & Hs & He) & Hwho). simpl in Hk, Hw, Hwho, He.
  rewrite Hk. destruct (Range.seal_pd_done r e res) as [[r' out] sent] eqn:E.
  destruct (seal_pd_done_ok _ r e res r' out sent Hw E) as (Hw' & Hev & Hn & Hc & Hr & Hout).
  assert (status_step h k r r') as Hst by by split.
  pose proof (ok_pd_done _ _ _ _ _ _ _ _ _ _ Hok Hj Hk Hst) as Hok'.
  set (s1 := Stream.set_jobs _ _) in *.
  assert (Stream.heap s1 !! k = Some r') as Hk1.
  { apply list_lookup_insert_eq. by eapply lookup_lt_Some. }
  assert (w <> Stream.Opener) as Hno by by destruct w.
  assert (w = Stream.Appender -> Stream.pc s1 = Stream.InSeal /\ idle s1 /\ Stream.last_range s1 = Some k) as Happ.
  { intros ->. destruct Hwho as [? ?]. split_and!; try done. by eapply appender_deleted. }
  rewrite (wo_open _ _ Hw). destruct res as [[]|err].
  - unfold Range.seal_pd_done in E. destruct out as [x|err]; [|by destruct (Range.open_for_write _)].
    destruct Hout as (-> & Hsd & ->).
    apply (seal_returns_ok h sub ([(k, e)] ++ bc)); [|done|done|].
    + apply ok_broadcast.
      * apply ok_set_background; [done|]. apply Forall_app_2; [apply (ok_background _ _ _ _ _ Hok')|].
        apply Forall_fmap, Forall_forall. intros i _. exists r'. by split_and!.
      * intros k' e' [= -> ->]%list_elem_of_singleton. exists r'. split_and!; [done|done|congruence].
    + intros e' [= <-]. exists r'. split_and!; [done|done|congruence].
  - unfold Range.seal_pd_done in E. injection E as <- <- <-. by apply seal_returns_ok.
Qed.

Lemma ok_delete_wait h sub bc s j w k :
  stream_ok h sub bc s -> Stream.jobs s !! j = Some (Stream.mk_job w k Stream.JobWait) ->
  stream_ok h sub bc (Stream.set_jobs s (delete j (Stream.jobs s))).
Proof.
  intros [] Hj. destruct ok_jobs as (Hall & Hnd & Hlen). split; try done. split_and!; simpl.
  - by apply Forall_delete.
  - by rewrite (omap_delete_none pd_range _ _ _ Hj eq_refl).
  - etrans; [|exact Hlen]. by eapply submseteq_length, omap_delete_sub.
Qed.

Lemma wakes_ok h sub bc s j w k e :
  stream_ok h sub bc s -> Stream.jobs s !! j = Some (Stream.mk_job w k Stream.JobWait) -> (k, e) ∈ bc ->
  exists s', Stream.wakes s j e = Ret s' /\ stream_ok h sub bc s'.
Proof.
  intros Hok Hj Hin. unfold Stream.wakes. rewrite Hj. pose proof (ok_delete_wait _ _ _ _ _ _ _ Hok Hj) as Hok'.
  destruct (ok_jobs _ _ _ _ _ Hok) as (Hall & _).
  pose proof (proj1 (Forall_lookup _ _) Hall _ _ Hj) as (r & _ & _ & _ & Hwho). simpl in Hwho.
  apply seal_returns_ok; [done|by destruct w| |].
  - intros ->. destruct Hwho as [? ?]. split_and!; try done. by eapply appender_deleted.
  - intros e' [= <-]. by apply (ok_broadcasts _ _ _ _ _ Hok).
Qed.

(** *** The replicas of a sealed range *)

Lemma background_sends_ok h sub bc s j :
  stream_ok h sub bc s -> exists s', Stream.background_sends s j = Ret s' /\ stream_ok h sub bc s'.
Proof.
  intros Hok. unfold Stream.background_sends.
  destruct (Stream.sealing_replicas s !! j) as [[[[k i] e] []]|] eqn:Hj; try (by eexists).
  pose proof (proj1 (Forall_lookup _ _) (ok_background _ _ _ _ _ Hok) _ _ Hj) as (r & Hk & Hw & Hs).
  rewrite Hk. destruct (Range.replica_seal_start r i (Stream.client s) (Some e)) as [r' req] eqn:E.
  destruct (replica_seal_ok _ _ _ _ _ _ _ Hw Hs E) as (Hw' & He & Hn & Hc & Hs' & Hg).
  eexists. split; [done|].
  assert (stream_ok h sub bc (Stream.set_heap s (<[k := r']> (Stream.heap s)))) as Hok'.
  { eapply ok_update; eauto; congruence. }
  pose proof (ok_background _ _ _ _ _ Hok') as Hb. simpl in Hb. apply ok_set_background; [done|]. simpl.
  destruct req; [|by apply Forall_delete]. apply Forall_insert; [done|].
  exact (proj1 (Forall_lookup _ _) Hb _ _ Hj).
Qed.

Lemma background_answers_ok h sub bc s j res :
  stream_ok h sub bc s -> exists s', Stream.background_answers s j res = Ret s' /\ stream_ok h sub bc s'.
Proof.
  intros Hok. unfold Stream.background_answers.
  destruct (Stream.sealing_replicas s !! j) as [[[[k i] e] []]|] eqn:Hj; try (by eexists).
  pose proof (proj1 (Forall_lookup _ _) (ok_background _ _ _ _ _ Hok) _ _ Hj) as (r & Hk & Hw & Hs).
  rewrite Hk. destruct (Range.replica_seal_done r i res) as [r' x] eqn:E.
  destruct (replica_sealed_ok _ _ _ _ _ _ Hw Hs E) as (Hw' & He & Hn & Hc & Hs' & Hg).
  eexists. split; [done|].
  assert (stream_ok h sub bc (Stream.set_heap s (<[k := r']> (Stream.heap s)))) as Hok'.
  { eapply ok_update; eauto; congruence. }
  pose proof (ok_background _ _ _ _ _ Hok') as Hb. apply ok_set_background; [done|]. by apply Forall_delete.
Qed.

(** ** The whole *)

Lemma close_ok h sub bc s :
  stream_ok h sub bc s -> exists s', Stream.close s = Ret s' /\ stream_ok h sub bc s'.
Proof.
  intros Hok. unfold Stream.close. assert (stream_ok h sub bc (Stream.set_closed s)) as Hok'.
  { destruct Hok. by split. }
  simpl. destruct (Stream.last_range s) as [k|] eqn:El; [|by eexists]. by apply seal_ok.
Qed.

Lemma ok_new_range_start h sub bc s :
  stream_ok h sub bc s -> Stream.last_range s = None -> idle s -> Stream.pc s <> Stream.Stopped ->
  rewind_ok (Stream.heap s) (Stream.last_range s) (Stream.rewind s) ->
  stream_ok h sub bc (Stream.new_range_start s true 0 0).
Proof.
  intros Hok Hl Hidle Hst Hr. unfold Stream.new_range_start. destruct (Stream.client s).
  - apply ok_set_pc; [done|done| |done]. simpl. split_and!; [done|done|].
    destruct (Stream.rewind s) as [x|]; [|done]. destruct (Hr x eq_refl) as (k & ? & _). congruence.
  - by apply ok_create_failed.
Qed.

Lemma get_writable_range_ok h sub bc s :
  stream_ok h sub bc s -> Stream.pc s <> Stream.InSeal -> Stream.pc s <> Stream.Stopped ->
  rewind_ok (Stream.heap s) (Stream.last_range s) (Stream.rewind s) ->
  exists s', Stream.get_writable_range iterate s = Ret s' /\ stream_ok h sub bc s'.
Proof.
  intros Hok Hns Hst Hr. pose proof (ok_idle _ _ _ _ Hok Hns) as Hidle. unfold Stream.get_writable_range.
  destruct (Stream.last_range s) as [k|] eqn:El.
  - destruct (ok_last _ _ _ _ _ Hok El) as (r & lo & hi & Hk & _ & _). rewrite Hk.
    destruct (Range.is_writable r) eqn:Hw.
    + eapply append_task0_ok; [|done..]. unfold rewound.
      destruct (Stream.rewind s) as [x|] eqn:Er; [|by apply ok_set_pc].
      destruct (Hr x eq_refl) as (k' & [= <-] & y & Hy & Hs & _). assert (y = r) as -> by congruence.
      apply sealed_readonly in Hs. congruence.
    + apply seal_ok; [|done|done|done]. apply ok_set_pc; [done|done| |done]. simpl. by rewrite El.
  - eexists. split; [done|]. apply ok_new_range_start; try done. by rewrite El.
Qed.

Lemma append_round_ok h sub bc s :
  stream_ok h sub bc s -> Stream.pc s = Stream.AtSelect ->
  exists s', Stream.append_round iterate s = Ret s' /\ stream_ok h sub bc s'.
Proof.
  intros Hok Hpc. unfold Stream.append_round. destruct (Stream.closed s).
  - eexists. split; [done|]. apply ok_stop; [done|]. eapply ok_idle; [done|]. by rewrite Hpc.
  - apply get_writable_range_ok; simpl; rewrite ?Hpc; try done. apply ok_set_rewind; [done|]. by rewrite Hpc.
Qed.

(** A request moves from the channel into the map. *)
Lemma ok_receive h sub bc s q rest :
  stream_ok h sub bc s -> Stream.append_requests s = q :: rest -> Stream.append_error s = None ->
  Stream.pc s <> Stream.Stopped ->
  stream_ok h sub bc (Stream.set_inflight (Stream.set_requests s rest)
    (BTreeMap.insert (Stream.inflight s) (StreamAppendRequest.base_offset q) q)).
Proof.
  intros [] Hq Herr Hst. destruct ok_window as (lo & hi & (Hlo & Ht & Hhi & Hl) & Hch).
  pose proof (Hch Herr Hst) as Htr. rewrite Hq in Htr. simpl in Htr. destruct Htr as (Hbase & Hn & Htr).
  rewrite Hq in ok_requests, ok_conserve. apply Forall_cons in ok_requests as [Hreq ok_requests].
  rewrite Hbase, (tiles_insert _ _ _ q Ht). rewrite Hbase in Htr.
  pose proof (proj1 (tiles_bounds _ _ _ Ht)). pose proof (proj1 (tiles_bounds _ _ _ Htr)).
  set (n := batch_count (StreamAppendRequest.record_batch q)) in *.
  assert (span <$> Stream.inflight s ++ [(hi, q)] = (span <$> Stream.inflight s) ++ [(hi, n)]) as Hspan by by rewrite fmap_app.
  split; simpl; rewrite ?Hspan; try done.
  - exists lo, (hi + n). split; [|done]. split_and!; try done; try lia; [by eapply tiles_snoc|].
    destruct (Stream.last_range s) as [k|]; [|done]. destruct Hl as (r & Hk & []). exists r. split; [done|].
    split; try done; [lia|apply cut_snoc; [lia|done]|..].
    + intros b m [Hin|[= -> ->]%list_elem_of_singleton]%elem_of_app Hb; [by apply lo_placed|lia].
    + intros Hs. destruct (lo_unsealed Hs) as (-> & ? & ? & Hrc). split_and!; [done|lia|apply cut_snoc; [lia|done]|].
      intros i x Hx. apply cut_snoc; [|by eapply Hrc].
      destruct lo_kind as [Hw|?]; [|congruence].
      destruct (wo_confirmed _ _ Hw i x Hs Hx). lia.
  - rewrite Forall_forall in ok_tasks |- *. intros [[k i] next] Hin. destruct (ok_tasks _ Hin) as (r & Hk & Hw & Hi & Hnx).
    exists r. split_and!; try done. destruct next as [tk|tk|]; [..|done]; intros Hs; destruct (Hnx Hs) as [? ?];
      (split; [done|]); apply cut_snoc; try done;
      pose proof (ok_unsealed k r Hk (wo_open _ _ Hw) Hs) as El; rewrite El in Hl;
      destruct Hl as (r0 & Hk0 & []); assert (r0 = r) as -> by congruence; destruct (lo_unsealed Hs); lia.
  - apply Forall_app_2; [done|]. constructor; [|constructor]. by rewrite <- Hbase.
  - rewrite fmap_app. unfold callers in *. rewrite omap_app, <- ok_conserve. simpl.
    destruct (StreamAppendRequest.append_tx q); solve_Permutation.
Qed.

Lemma recv_request_ok h sub bc s q rest :
  stream_ok h sub bc s -> Stream.append_requests s = q :: rest -> Stream.pc s = Stream.AtSelect ->
  exists s', Stream.recv_request iterate (Stream.set_requests s rest) q = Ret s' /\ stream_ok h sub bc s'.
Proof.
  intros Hok Hq Hpc. unfold Stream.recv_request. simpl. destruct (Stream.append_error s) as [e|] eqn:Ee.
  - eexists. split; [done|]. destruct Hok. rewrite Hq in ok_requests, ok_conserve.
    apply Forall_cons in ok_requests as [_ ok_requests]. split; simpl; try done.
    + destruct ok_window as (lo & hi & ? & _). exists lo, hi. split; [done|]. intros He. by rewrite Ee in He.
    + apply Forall_app_2; [done|]. unfold Stream.reply. destruct (StreamAppendRequest.append_tx q); by repeat constructor.
    + rewrite <- ok_conserve, fmap_app. unfold Stream.reply, callers. csimpl.
      destruct (StreamAppendRequest.append_tx q); simpl; solve_Permutation.
  - apply append_round_ok; [|done]. apply ok_receive; try done. by rewrite Hpc.
Qed.

(** ** A new range *)

Lemma grows_snoc h heap r : heap_grows h heap h (heap ++ [r]).
Proof.
  intros k x Hk. exists x. split; [by apply lookup_app_l_Some|]. split_and!; [by split|lia|done].
Qed.

Lemma ok_new_range h sub bc s rs md :
  stream_ok h sub bc s -> idle s -> Stream.pc s <> Stream.Stopped ->
  metadata_ok md -> RangeMetadata.end_ md = None -> 0 <= RangeMetadata.index md < 2 ^ 31 ->
  (forall k r, Stream.last_range s = Some k -> Stream.heap s !! k = Some r ->
     Range.is_sealed r = true /\ Range.confirm_offset r = RangeMetadata.start md) ->
  (Stream.last_range s = None -> RangeMetadata.start md = 0) ->
  stream_ok h sub bc
    (Stream.set_pc (Stream.set_next_append (Stream.set_ranges
       (Stream.set_heap s (Stream.heap s ++ [Range.new md true])) rs (Some (length (Stream.heap s))))
       (RangeMetadata.start md)) Stream.AtSelect).
Proof.
  intros [] Hidle Hst Hmd Hend Hidx Hsome Hnone. set (r := Range.new md true). set (k := length (Stream.heap s)).
  assert ((Stream.heap s ++ [r]) !! k = Some r) as Hk by by apply list_lookup_middle.
  assert (wok h k r) as Hw by by apply new_ok.
  assert (Range.confirm_offset r = RangeMetadata.start md /\ Range.next_offset r = RangeMetadata.start md) as [Hc Hn].
  { unfold r, Range.new. by rewrite Hend. }
  pose proof (grows_snoc h (Stream.heap s) r) as Hg.
  split; simpl; try done.
  - destruct ok_window as (lo & hi & (Hlo & Ht & Hhi & Hl) & Hch). exists lo, hi. split; [|intros; by apply Hch].
    split_and!; try done; [lia..|]. exists r. split; [done|].
    assert (lo <= RangeMetadata.start md <= hi /\ cut (span <$> Stream.inflight s) (RangeMetadata.start md) /\
      forall b n, (b, n) ∈ span <$> Stream.inflight s -> b < RangeMetadata.start md ->
        placed h (Stream.heap s) b n) as (Hb & Hcut & Hp).
    { destruct (Stream.last_range s) as [k0|].
      - destruct Hl as (r0 & Hk0 & []). destruct (Hsome k0 r0 eq_refl Hk0) as [_ <-]. auto.
      - destruct Hl as [-> _]. rewrite (Hnone eq_refl). apply tiles_bounds in Ht as [? Hbd]. split; [lia|].
        split; intros b n Hin Hneg; apply Hbd in Hin; lia. }
    split; rewrite ?Hc, ?Hn; try done; [by left|intros b n Hin Hlt; eapply placed_grows; eauto|].
    intros _. split_and!; try done; [lia|]. intros i x. unfold r, Range.new. simpl. rewrite list_lookup_fmap.
    intros (sv & _ & ->)%fmap_Some. done.
  - intros k' x Hx Ho Hs. apply lookup_app_Some in Hx as [Hx|[Hge Hx]].
    + pose proof (ok_unsealed k' x Hx Ho Hs) as El. destruct (Hsome k' x El Hx). congruence.
    + f_equal. apply list_lookup_singleton_Some in Hx as [? _]. unfold k. lia.
  - eapply Forall_impl; [done|]. intros t. by apply task_grows.
  - destruct ok_jobs as (Hall & Hnd & Hlen). split; [|done]. rewrite Forall_forall in Hall |- *.
    intros j Hj. destruct (Hall j Hj) as (x & Hx & ? & ? & Hwho). pose proof (idle_who _ _ Hidle Hj).
    exists x. split_and!; try done; [by apply lookup_app_l_Some|]. by destruct (Stream.who j).
  - eapply Forall_impl; [done|]. intros t. by apply background_grows.
  - intros i e Hi. eapply sealed_grows; eauto.
  - eapply Forall_impl; [done|]. intros a Ha. apply (answer_grows _ _ _ _ Hg _ _ sub) in Ha; [|done]. revert Ha.
    unfold answer_ok. destruct (a.2) as [b|]; [|done]. intros (rb & ? & ? & k0 & r0 & El & Hk0 & _ & Hle). exists rb.
    split_and!; [done|done|]. exists k, r. split_and!; [done|done|done|]. rewrite Hc.
    destruct (ok_window) as (lo & hi & (_ & _ & _ & Hl) & _). rewrite El in Hl. destruct Hl as (r1 & Hk1 & _).
    destruct (Hsome k0 r1 El Hk1) as [_ <-]. assert (r1 = r0) as -> by (apply (lookup_app_l_Some _ [r]) in Hk1; congruence).
    done.
Qed.

Lemma create_done_ok h sub bc s first index start res :
  stream_ok h sub bc s -> Stream.pc s = Stream.InCreate first index start ->
  (forall md, res = Ok md -> metadata_ok md /\ RangeMetadata.start md = start /\
     RangeMetadata.end_ md = None /\ 0 <= RangeMetadata.index md < 2 ^ 31) ->
  exists s', Stream.create_done iterate s first start res = Ret s' /\ stream_ok h sub bc s'.
Proof.
  intros Hok Hpc Hres. assert (idle s) as Hidle by (eapply ok_idle; [done|by rewrite Hpc]).
  pose proof (ok_pc _ _ _ _ _ Hok) as Hp. rewrite Hpc in Hp. unfold Stream.create_done. destruct res as [md|e].
  - destruct (Hres md eq_refl) as (Hmd & <- & Hend & Hidx). unfold Stream.get_writable_range. simpl.
    assert ((Stream.heap s ++ [Range.new md true]) !! length (Stream.heap s) = Some (Range.new md true)) as Hk
      by by apply list_lookup_middle.
    rewrite Hk. assert (Range.is_writable (Range.new md true) = true) as Hw.
    { unfold Range.is_writable, Range.new. by rewrite Hend. }
    rewrite Hw. eapply append_task0_ok; [|done..].
    set (rs := BTreeMap.insert (Stream.ranges s) (RangeMetadata.start md) (length (Stream.heap s))).
    assert (stream_ok h sub bc (Stream.set_pc (Stream.set_next_append (Stream.set_ranges
       (Stream.set_heap s (Stream.heap s ++ [Range.new md true])) rs (Some (length (Stream.heap s))))
       (RangeMetadata.start md)) Stream.AtSelect)) as Hnew.
    { apply ok_new_range; try done; [by rewrite Hpc|..].
      - intros k r Hl Hr. destruct first; [by destruct Hp; congruence|]. destruct Hp as [Hrw Hp].
        destruct (Hp _ Hrw) as (k' & Hl' & r' & Hr' & ? & ?). assert (r' = r) as -> by congruence. done.
      - intros Hl. destruct first; [by destruct Hp as (_ & ? & _)|]. destruct Hp as [Hrw Hp].
        destruct (Hp _ Hrw) as (k' & ? & _). congruence. }
    unfold rewound. simpl. destruct first.
    + destruct Hp as (Hl & H0 & ->). destruct (ok_window _ _ _ _ _ Hok) as (lo & hi & (_ & _ & _ & Hw0) & _).
      rewrite Hl in Hw0. destruct Hw0 as [_ Hna]. rewrite H0, <- Hna in Hnew. exact Hnew.
    + destruct Hp as [-> _]. exact Hnew.
  - eexists. split; [done|]. apply ok_create_failed; [done|done|by rewrite Hpc|].
    destruct first; [|by destruct Hp]. destruct Hp as (_ & _ & ->). done.
Qed.

(** The servers acknowledge an append. *)
Lemma ok_server_acks h sub bc s t : stream_ok h sub bc s -> stream_ok (t :: h) sub bc s.
Proof.
  intros []. assert (forall k r, wok h k r -> wok (t :: h) k r) as Hmono.
  { intros k r. apply writer_ok_mono. intros i x Hin. by right. }
  assert (heap_grows h (Stream.heap s) (t :: h) (Stream.heap s)) as Hg.
  { intros k r Hk. exists r. split_and!; [done|by split|lia|apply Hmono]. }
  split; try done.
  - destruct ok_window as (lo & hi & (Hlo & Ht & Hhi & Hl) & Hch). exists lo, hi. split; [|done].
    split_and!; try done; [lia..|]. destruct (Stream.last_range s) as [k|]; [|done].
    destruct Hl as (r & Hk & Hl). exists r. split; [done|]. eapply last_other; eauto.
  - eapply Forall_impl; [done|]. intros a. by apply task_grows.
  - eapply jobs_grows; [done| |done]. intros k r r' Hk Hk'. by simplify_eq.
  - eapply Forall_impl; [done|]. intros a. by apply background_grows.
  - eapply Forall_impl; [done|]. intros a. by apply answer_grows.
Qed.

Lemma ok_trim h sub bc s x : stream_ok h sub bc s -> stream_ok h sub bc (Stream.trim s x).
Proof. intros []. unfold Stream.trim. destruct (BTreeMap.last_key_value _) as [[]|]; by split. Qed.
End safety.
