(* ===== verification/StreamRuns.v ===== *)
(** * A stream that is written: its runs

    The runs of a stream from the moment it is open: no event panics, a call that succeeds
    is on a quorum of the servers of a range, and every call is answered once or waits.
    Then the stream that takes over: what the old one has acknowledged, and still
    acknowledges, lies below the offset at which the new one goes on. *)

From S2P Require Import Prelude Bytes Model Record RecordsBlock Collections ReplicaCache Replication.
From S2P Require Import Quorum RangeWriter ReplicationStream StreamSystem StreamInvariant StreamSafety.

Section runs.
Context {B : BytesApi} {BL : BytesLaws B} {M : MetaApi}.
Context (iterate : gmap string string -> list (string * string)).

Definition sys_ok (y : System.t) : Prop :=
  stream_ok iterate (System.history y) (System.submitted y) (System.broadcasts y) (System.stream y).

(** ** Steps *)

Lemma run_ok y ev :
  sys_ok y -> System.enabled iterate y ev ->
  exists y', System.run iterate y ev = Ret y' /\ sys_ok y'.
Proof.
  unfold sys_ok, System.run. destruct y as [s sub h bc]. simpl. intros Hok.
  assert (forall s' x h' bc', System.step iterate s ev = Ret s' -> stream_ok iterate h' x bc' s' ->
    exists y', (s ← System.step iterate s ev; Ret (System.mk s x h' bc')) = Ret y' /\
      stream_ok iterate (System.history y') (System.submitted y') (System.broadcasts y') (System.stream y')) as Hret.
  { intros s' x h' bc' Hs Hs'. rewrite Hs, bind_Ret. by eexists. }
  assert (forall x h' bc', (exists s', System.step iterate s ev = Ret s' /\ stream_ok iterate h' x bc' s') ->
    exists y', (s ← System.step iterate s ev; Ret (System.mk s x h' bc')) = Ret y' /\
      stream_ok iterate (System.history y') (System.submitted y') (System.broadcasts y') (System.stream y')) as Hret'.
  { intros x h' bc' (s' & Hs & Hs'). eauto. }
  destruct ev as [caller rb| | | |res| |j|j res|k i last|j res|j e|j|j res| |x|]; simpl in *; intros Hen.
  - apply Hret'. destruct Hen. by apply append_ok.
  - apply Hret'. destruct Hen as [Hpc Hne]. destruct (Stream.append_requests s) as [|q rest] eqn:Eq; [done|].
    by apply recv_request_ok.
  - apply Hret'. destruct Hen as [Hpc _]. apply append_round_ok; [by apply ok_set_ticks|done].
  - eapply Hret; [done|]. destruct Hen as [Hpc _]. apply ok_stop; [done|]. eapply ok_idle; [done|]. by rewrite Hpc.
  - apply Hret'. destruct Hen as (first & index & start & Hpc & Hres). rewrite Hpc.
    eapply create_done_ok; [done|done|]. by intros md ->.
  - apply Hret'. apply get_writable_range_ok; rewrite ?Hen; try done.
    pose proof (ok_pc _ _ _ _ _ Hok) as Hp. by rewrite Hen in Hp.
  - apply Hret'. destruct (Stream.replica_tasks s !! j) as [[[k i] [tk|tk|n]]|] eqn:Ej; try (by exists s).
    by eapply task_runs_ok.
  - apply Hret'. destruct (Stream.replica_tasks s !! j) as [[[k i] [tk|tk|n]]|] eqn:Ej; try (by exists s).
    eapply task_answered_ok; eauto.
  - eapply Hret; [done|]. by apply ok_server_acks.
  - apply Hret'. by apply pd_answers_ok.
  - apply Hret'. destruct Hen as (w & k & Hj & Hin). by eapply wakes_ok.
  - apply Hret'. by apply background_sends_ok.
  - apply Hret'. by apply background_answers_ok.
  - apply Hret'. by apply close_ok.
  - eapply Hret; [done|]. by apply ok_trim.
  - eapply Hret; [done|]. destruct Hok. by split.
Qed.

(** ** A stream that was opened *)

Record opened (s : Stream.t) : Prop := {
  op_heap : Forall (fun r => Range.open_for_write r = false) (Stream.heap s);
  op_last : match Stream.last_range s with
            | None => Stream.next_offset s = 0
            | Some k => exists r, Stream.heap s !! k = Some r /\ Range.is_sealed r = true /\
                Range.confirm_offset r = Stream.next_offset s /\
                0 <= RangeMetadata.index (Range.metadata r) < 2 ^ 31
            end;
  op_next : 0 <= Stream.next_offset s < 2 ^ 64;
  op_cache : cache_ok (Stream.cache s);
  op_channel : Stream.append_requests s = [] /\ Stream.inflight s = [] /\ Stream.answers s = [];
  op_task : Stream.next_append_start_offset s = 0 /\ Stream.append_error s = None /\
            Stream.rewind s = None /\ Stream.pc s = Stream.AtSelect;
  op_tasks : Stream.jobs s = [] /\ Stream.replica_tasks s = [] /\ Stream.sealing_replicas s = [];
}.

Lemma opened_ok s h : opened s -> sys_ok (System.mk s [] h []).
Proof.
  intros [Hheap Hlast Hnext Hc (Hq & Hi & Ha) (Hna & He & Hr & Hp) (Hj & Ht & Hb)].
  split; simpl; rewrite ?Hq, ?Hi, ?Ha, ?Hna, ?Hr, ?Hp, ?Hj, ?Ht, ?Hb; try done.
  - exists (Stream.next_offset s), (Stream.next_offset s). split; [|done].
    split_and!; try done; try lia. destruct (Stream.last_range s) as [k|]; [|done].
    destruct Hlast as (r & Hk & Hs & Hcf & Hidx). exists r. split; [done|]. rewrite <- Hcf.
    split; try done; [by right|by intros b n ?%not_elem_of_nil|by intros b n ?%not_elem_of_nil|congruence].
  - intros k r Hk Ho. rewrite Forall_lookup in Hheap. rewrite (Hheap k r Hk) in Ho. done.
  - split_and!; [constructor|constructor|simpl; lia].
  - by intros k e ?%not_elem_of_nil.
Qed.

(** The runs, by the events. *)
Inductive reaches : System.t -> list System.event -> System.t -> Prop :=
| reaches_nil y : reaches y [] y
| reaches_cons y ev y1 evs y2 :
    System.enabled iterate y ev -> System.run iterate y ev = Ret y1 -> reaches y1 evs y2 ->
    reaches y (ev :: evs) y2.

Lemma reaches_ok y evs y' : reaches y evs y' -> sys_ok y -> sys_ok y'.
Proof.
  induction 1 as [|y ev y1 evs y2 Hen Hrun _ IH]; [done|]. intros Hok. apply IH.
  destruct (run_ok y ev Hok Hen) as (y1' & Hrun' & ?). congruence.
Qed.

(** What is submitted is as [append] takes it. *)
Lemma reaches_submitted y evs y' :
  reaches y evs y' -> Forall (fun x => batch_ok iterate x.2) (System.submitted y) ->
  Forall (fun x => batch_ok iterate x.2) (System.submitted y').
Proof.
  induction 1 as [|y ev y1 evs y2 Hen Hrun _ IH]; [done|]. intros Hf. apply IH.
  unfold System.run in Hrun. apply bind_Ret_inv in Hrun as (s & _ & [= <-]). simpl.
  destruct ev; try done. apply Forall_app. split; [done|]. destruct Hen. by apply Forall_singleton.
Qed.
End runs.
