(* ===== verification/Failover.v ===== *)
(** * A stream takes over

    [open] of a stream: it lists the ranges and seals the last one, by sealing its replicas
    and then at the placement driver.  The end that it finds, from which the new stream
    goes on, is not below anything that another stream has got acknowledged, if no server
    of the range has started again in between. *)

From S2P Require Import Prelude Bytes Model Record RecordsBlock Collections ReplicaCache Replication.
From S2P Require Import ServerHistories.
From S2P Require Import Quorum RangeWriter ReplicationStream StreamSystem StreamInvariant StreamSafety StreamRuns.

(** ** The seal of the last range, by its replicas *)

Section opening.
Context (sealed : nat -> Z -> Prop).

(** What [open] does: the seal is the only job. *)
Inductive opens (s0 : Stream.t) (listed : list RangeMetadata.t) : Stream.t -> Prop :=
| opens_listed s : Stream.open s0 listed = Ret s -> opens s0 listed s
| opens_sends s i s' : opens s0 listed s -> Stream.replica_sends s 0 i = Ret s' -> opens s0 listed s'
| opens_answers s i res s' :
    opens s0 listed s ->
    (forall md e, res = Ok md -> RangeMetadata.end_ md = Some e -> sealed i e /\ 0 <= e < 2 ^ 64) ->
    Stream.replica_answers s 0 i res = Ret s' -> opens s0 listed s'
| opens_answered s s' : opens s0 listed s -> Stream.replicas_answered s 0 = Ret s' -> opens s0 listed s'
| opens_sealed s res s' : opens s0 listed s -> Stream.pd_answers s 0 res = Ret s' -> opens s0 listed s'.

(** [e] is the end that the answers of enough replicas give. *)
Definition quorum_sealed (md : RangeMetadata.t) (e : Z) : Prop :=
  exists done ends r r', NoDup done /\ (forall i, i ∈ done -> i < length (RangeMetadata.replica md))%nat /\
    seals_of sealed done ends /\ Range.metadata r = md /\
    Range.seal_replicas_done r ends = Ret (r', Range.SealPd e).

Record blank (s : Stream.t) : Prop := {
  bl_heap : Forall (fun r => Range.open_for_write r = false) (Stream.heap s);
  bl_cache : cache_ok (Stream.cache s);
  bl_channel : Stream.append_requests s = [] /\ Stream.inflight s = [] /\ Stream.answers s = [];
  bl_task : Stream.next_append_start_offset s = 0 /\ Stream.append_error s = None /\
            Stream.rewind s = None /\ Stream.pc s = Stream.AtSelect;
  bl_tasks : Stream.replica_tasks s = [] /\ Stream.sealing_replicas s = [];
}.

Definition job_phase (md : RangeMetadata.t) (k : nat) (sealed_end : option Z) (jobs : list Stream.seal_job) : Prop :=
  match sealed_end with
  | Some e => jobs = [] /\ 0 <= e < 2 ^ 64 /\ (RangeMetadata.end_ md = None -> quorum_sealed md e)
  | None =>
      RangeMetadata.end_ md = None /\
      (jobs = [] \/
       (exists e, jobs = [Stream.mk_job Stream.Opener k (Stream.JobPd e)] /\ 0 <= e < 2 ^ 64 /\ quorum_sealed md e) \/
       exists unsent waiting ends done,
         jobs = [Stream.mk_job Stream.Opener k (Stream.JobReplicas unsent waiting ends)] /\
         NoDup (done ++ waiting ++ unsent) /\
         (forall i, i ∈ done ++ waiting ++ unsent -> i < length (RangeMetadata.replica md))%nat /\
         seals_of sealed done ends /\ Forall (fun e => 0 <= e < 2 ^ 64) ends)
  end.

(** The stream, with the last range that it has found. *)
Definition opening (listed : list RangeMetadata.t) (s : Stream.t) : Prop :=
  blank s /\
  match Stream.last_range s with
  | None => Stream.jobs s = [] /\ Stream.next_offset s = 0
  | Some k =>
      exists r md, Stream.heap s !! k = Some r /\ md ∈ listed /\ Range.metadata r = md /\
        length (Range.replicas r) = length (RangeMetadata.replica md) /\
        job_phase md k (if Range.is_sealed r then Some (Stream.next_offset s) else None) (Stream.jobs s) /\
        (Range.is_sealed r = true -> Range.confirm_offset r = Stream.next_offset s)
  end.

(** The metadata that the placement driver lists. *)
Definition listed_ok (listed : list RangeMetadata.t) : Prop :=
  forall md, md ∈ listed -> 0 <= RangeMetadata.index md < 2 ^ 31 /\
    forall e, RangeMetadata.end_ md = Some e -> 0 <= e < 2 ^ 64.

(** *** Its steps *)

Lemma load_ranges_spec s l :
  exists rs, Stream.load_ranges s l =
      Stream.set_ranges (Stream.set_heap s (Stream.heap s ++ ((fun m => Range.new m false) <$> l))) rs
        (Stream.last_range s) /\
    forall x k, (x, k) ∈ rs -> (x, k) ∈ Stream.ranges s \/
      exists m, m ∈ l /\ (Stream.heap s ++ ((fun m => Range.new m false) <$> l)) !! k = Some (Range.new m false).
Proof.
  revert s. induction l as [|m l IH]; intros s; csimpl.
  { exists (Stream.ranges s). rewrite app_nil_r. split; [by destruct s|by left]. }
  set (s1 := Stream.set_ranges _ _ _). destruct (IH s1) as (rs & -> & Hrs). exists rs. simpl.
  rewrite <- (assoc_L (++)). split; [done|]. intros x k Hin. destruct (Hrs x k Hin) as [Hin'|(m' & Hm' & Hk)].
  - simpl in Hin'. apply BTreeMap.insert_elem in Hin' as [[= -> ->]|?]; [|by left]. right. exists m.
    split; [by left|]. by apply list_lookup_middle.
  - right. exists m'. split; [by right|]. simpl in Hk. by rewrite <- (assoc_L (++)) in Hk.
Qed.

Lemma blank_new id epoch cache : cache_ok cache -> blank (Stream.new id epoch cache).
Proof. by split. Qed.

Lemma blank_update s k r r' :
  blank s -> Stream.heap s !! k = Some r -> Range.open_for_write r' = false ->
  blank (Stream.set_heap s (<[k := r']> (Stream.heap s))).
Proof. intros [] Hk Ho. split; try done. by apply Forall_insert. Qed.

Lemma opening_open id epoch cache listed s :
  cache_ok cache -> listed_ok listed -> Stream.open (Stream.new id epoch cache) listed = Ret s -> opening listed s.
Proof.
  intros Hc Hl. unfold Stream.open. set (l := merge_sort Stream.index_le listed).
  destruct (load_ranges_spec (Stream.new id epoch cache) l) as (rs & -> & Hrs). simpl in Hrs. simpl.
  set (heap := (fun m => Range.new m false) <$> l) in *.
  assert (Forall (fun r => Range.open_for_write r = false) heap) as Hheap.
  { apply Forall_fmap, Forall_forall. by intros m _. }
  destruct (BTreeMap.last_key_value rs) as [[x k]|] eqn:Ek; [|intros [= <-]; split; [by split|done]].
  destruct (Hrs x k) as [?%not_elem_of_nil|(m & Hm & Hk)]; [by apply last_Some_elem_of|done|].
  assert (m ∈ listed) as Hml by (unfold l in Hm; by rewrite merge_sort_Permutation in Hm).
  destruct (Hl m Hml) as [Hidx Hend]. unfold Stream.seal. simpl. rewrite Hk. unfold Range.seal_start.
  destruct (RangeMetadata.end_ m) as [e|] eqn:Ee.
  - assert (Range.is_sealed (Range.new m false) = true) as Hs by (unfold Range.is_sealed, Range.new; by rewrite Ee).
    rewrite Hs. simpl. rewrite list_insert_id by done. intros [= <-]. split; [by split|]. simpl.
    exists (Range.new m false), m. rewrite Hs. split_and!; try done; [by simpl; rewrite length_fmap|].
    simpl. rewrite Ee. split; [done|]. split; [by apply Hend|done].
  - assert (Range.is_sealed (Range.new m false) = false /\ Range.is_sealing (Range.new m false) = false) as [Hs Hg]
      by (unfold Range.is_sealed, Range.is_sealing, Range.new; by rewrite Ee).
    rewrite Hs, Hg. simpl. intros [= <-].
    pose proof (lookup_lt_Some _ _ _ Hk) as Hlt.
    split; [by split; simpl; try done; apply Forall_insert|]. simpl. exists (Range.mark_sealing (Range.new m false)), m.
    rewrite (proj2 (mark_sealing_status _)), Hs. split_and!; try done.
    + by apply list_lookup_insert_eq.
    + simpl. by rewrite length_fmap.
    + simpl. split; [done|]. right; right. rewrite length_fmap. exists (seq 0 (length (RangeMetadata.replica m))), [], [], [].
      split_and!; try done; [apply NoDup_seq|intros i ?%elem_of_seq; lia|exists []; split; constructor].
Qed.

Lemma remove_perm (l : list nat) i :
  NoDup l -> i ∈ l -> i :: List.filter (fun x => negb (Nat.eqb x i)) l ≡ₚ l.
Proof.
  induction l as [|x l IH]; simpl; [by intros _ ?%not_elem_of_nil|]. intros [Hx Hnd]%NoDup_cons Hin.
  destruct (Nat.eqb_spec x i) as [->|Hne]; simpl.
  - f_equiv. assert (List.filter (fun x => negb (Nat.eqb x i)) l = l) as ->; [|done].
    apply filter_all. intros y Hy. apply negb_true_iff, Nat.eqb_neq. by intros ->.
  - rewrite Permutation_swap. f_equiv. apply IH; [done|]. set_solver.
Qed.

(** The lists of replicas of the job, when a task goes on. *)
Lemma task_moves (done waiting unsent done' waiting' unsent' : list nat) n :
  NoDup (done ++ waiting ++ unsent) -> (forall i, i ∈ done ++ waiting ++ unsent -> i < n)%nat ->
  done' ++ waiting' ++ unsent' ⊆+ done ++ waiting ++ unsent ->
  NoDup (done' ++ waiting' ++ unsent') /\ (forall i, i ∈ done' ++ waiting' ++ unsent' -> i < n)%nat.
Proof.
  intros Hnd Hb Hsub. split.
  - apply submseteq_Permutation in Hsub as [rest Hp]. rewrite Hp in Hnd. by apply NoDup_app in Hnd as [? _].
  - intros i Hi. apply Hb. by eapply elem_of_submseteq.
Qed.

Lemma seals_snoc_some done ends i e :
  seals_of sealed done ends -> sealed i e -> seals_of sealed (done ++ [i]) (ends ++ [e]).
Proof.
  intros (answered & Hsub & Hall) He. exists (answered ++ [i]). split; [by apply sublist_app|].
  apply Forall2_app; [done|]. by constructor.
Qed.
Lemma seals_snoc_none done ends i : seals_of sealed done ends -> seals_of sealed (done ++ [i]) ends.
Proof. intros (answered & Hsub & Hall). exists answered. split; [by apply sublist_inserts_r|done]. Qed.

Lemma replica_status r l : Range.is_sealed (Range.set_replicas r l) = Range.is_sealed r.
Proof. done. Qed.

(** The job while the replicas are sealed. *)
Record replicas_phase (listed : list RangeMetadata.t) (s : Stream.t) (k : nat) (r : Range.t)
    (unsent waiting : list nat) (ends : list Z) (done : list nat) : Prop := {
  rp_blank : blank s;
  rp_last : Stream.last_range s = Some k;
  rp_jobs : Stream.jobs s = [Stream.mk_job Stream.Opener k (Stream.JobReplicas unsent waiting ends)];
  rp_range : Stream.heap s !! k = Some r;
  rp_listed : Range.metadata r ∈ listed;
  rp_replicas : length (Range.replicas r) = length (RangeMetadata.replica (Range.metadata r));
  rp_unsealed : Range.is_sealed r = false;
  rp_end : RangeMetadata.end_ (Range.metadata r) = None;
  rp_nodup : NoDup (done ++ waiting ++ unsent);
  rp_bound i : i ∈ done ++ waiting ++ unsent -> (i < length (RangeMetadata.replica (Range.metadata r)))%nat;
  rp_seals : seals_of sealed done ends;
  rp_ends : Forall (fun e => 0 <= e < 2 ^ 64) ends;
}.

Lemma opening_replicas listed s w k unsent waiting ends :
  opening listed s -> Stream.jobs s !! 0%nat = Some (Stream.mk_job w k (Stream.JobReplicas unsent waiting ends)) ->
  w = Stream.Opener /\ exists r done, replicas_phase listed s k r unsent waiting ends done.
Proof.
  intros [Hb Hl] Ej. destruct (Stream.last_range s) as [k0|] eqn:El; [|destruct Hl as [Hl _]; by rewrite Hl in Ej].
  destruct Hl as (r & md & Hk & Hin & <- & Hlen & Hph & _). unfold job_phase in Hph.
  destruct (Range.is_sealed r) eqn:Hs; [destruct Hph as [Hj _]; by rewrite Hj in Ej|].
  destruct Hph as [Hend [Hj|[(e & Hj & _)|(un & wa & en & dn & Hj & Hnd & Hbd & Hse & Hen)]]]; rewrite Hj in Ej; try done.
  injection Ej as <- <- <- <- <-. split; [done|]. exists r, dn. by split.
Qed.

Lemma replicas_opening listed s k r unsent waiting ends done :
  replicas_phase listed s k r unsent waiting ends done -> opening listed s.
Proof.
  intros []. split; [done|]. rewrite rp_last0, rp_jobs0. exists r, (Range.metadata r). rewrite rp_unsealed0.
  split_and!; try done. split; [done|]. right; right. by exists unsent, waiting, ends, done.
Qed.

(** A task of the job goes on. *)
Lemma replicas_phase_moves listed s k r unsent waiting ends done l unsent' waiting' ends' done' :
  replicas_phase listed s k r unsent waiting ends done -> length l = length (Range.replicas r) ->
  done' ++ waiting' ++ unsent' ⊆+ done ++ waiting ++ unsent ->
  seals_of sealed done' ends' -> Forall (fun e => 0 <= e < 2 ^ 64) ends' ->
  replicas_phase listed
    (Stream.set_jobs (Stream.set_heap s (<[k := Range.set_replicas r l]> (Stream.heap s)))
       (<[0%nat := Stream.mk_job Stream.Opener k (Stream.JobReplicas unsent' waiting' ends')]> (Stream.jobs s)))
    k (Range.set_replicas r l) unsent' waiting' ends' done'.
Proof.
  intros [] Hl Hsub Hse Hen.
  destruct (task_moves _ _ _ _ _ _ (length (RangeMetadata.replica (Range.metadata r))) rp_nodup0 rp_bound0 Hsub).
  split; simpl; try done.
  - split; try apply rp_blank0. simpl. apply Forall_insert; [apply rp_blank0|].
    apply (proj1 (Forall_lookup _ _) (bl_heap _ rp_blank0) _ _ rp_range0).
  - by rewrite rp_jobs0.
  - apply list_lookup_insert_eq. by eapply lookup_lt_Some.
  - congruence.
Qed.

Lemma opening_sends listed s i s' :
  opening listed s -> Stream.replica_sends s 0 i = Ret s' -> opening listed s'.
Proof.
  intros Ho. unfold Stream.replica_sends.
  destruct (Stream.jobs s !! 0%nat) as [[w k [|e|un wa en]]|] eqn:Ej; try (intros [= <-]; done).
  destruct (opening_replicas _ _ _ _ _ _ _ Ho Ej) as (-> & r & dn & Hph). pose proof Hph as [].
  rewrite rp_range0. case_decide as Hi; [|by intros [= <-]].
  destruct (Range.replica_seal_start r i (Stream.client s) None) as [r' req] eqn:Er. intros [= <-].
  assert (exists l, r' = Range.set_replicas r l /\ length l = length (Range.replicas r)) as (l & -> & Hll).
  { revert Er. unfold Range.replica_seal_start. destruct (Range.replicas r !! i).
    - destruct (Replica.seal_start _ _ _). intros [= <- _]. eexists. split; [done|]. by rewrite length_insert.
    - intros [= <- _]. exists (Range.replicas r). split; [by destruct r|done]. }
  eapply replicas_opening, (replicas_phase_moves _ _ _ _ _ _ _ _ _ _ _ _ dn); try done.
  assert (NoDup un) as Hun by (apply NoDup_app in rp_nodup0 as (_ & _ & Hnd); by apply NoDup_app in Hnd as (_ & _ & ?)).
  apply submseteq_app; [done|].
  etrans; [|apply submseteq_app; [done|apply Permutation_submseteq, (remove_perm un i Hun Hi)]].
  destruct req; simpl; solve_submseteq.
Qed.

Lemma opening_answers listed s i res s' :
  opening listed s ->
  (forall md e, res = Ok md -> RangeMetadata.end_ md = Some e -> sealed i e /\ 0 <= e < 2 ^ 64) ->
  Stream.replica_answers s 0 i res = Ret s' -> opening listed s'.
Proof.
  intros Ho Hres. unfold Stream.replica_answers.
  destruct (Stream.jobs s !! 0%nat) as [[w k [|e|un wa en]]|] eqn:Ej; try (intros [= <-]; done).
  destruct (opening_replicas _ _ _ _ _ _ _ Ho Ej) as (-> & r & dn & Hph). pose proof Hph as [].
  rewrite rp_range0. case_decide as Hi; [|by intros [= <-]].
  destruct (Range.replica_seal_done r i res) as [r' oe] eqn:Er. intros [= <-].
  assert (exists l, r' = Range.set_replicas r l /\ length l = length (Range.replicas r) /\
    forall e, oe = Some e -> sealed i e /\ 0 <= e < 2 ^ 64) as (l & -> & Hll & Hoe).
  { revert Er. unfold Range.replica_seal_done. destruct (Range.replicas r !! i).
    - unfold Replica.seal_done. destruct res as [m|?]; [destruct (RangeMetadata.end_ m) eqn:Em|]; intros [= <- <-];
        (eexists; split; [done|]; split; [by rewrite length_insert|]); intros e' [= <-]; eauto.
    - intros [= <- <-]. exists (Range.replicas r). split; [by destruct r|done]. }
  eapply replicas_opening, (replicas_phase_moves _ _ _ _ _ _ _ _ _ _ _ _ (dn ++ [i])); try done.
  - assert (NoDup wa) as Hwa by (apply NoDup_app in rp_nodup0 as (_ & _ & Hnd); by apply NoDup_app in Hnd as (? & _)).
    rewrite <- (assoc_L (++)). apply submseteq_app; [done|]. rewrite (assoc_L (++)).
    apply submseteq_app; [|done]. by apply Permutation_submseteq, (remove_perm wa i Hwa Hi).
  - destruct oe; [by apply seals_snoc_some, Hoe|by apply seals_snoc_none].
  - destruct oe; [|done]. apply Forall_app_2; [done|]. constructor; [by apply Hoe|constructor].
Qed.

(** *** The end *)

Lemma nth_smallest_elem l n x : Range.nth_smallest l n = Some x -> x ∈ l.
Proof. unfold Range.nth_smallest. intros ?%list_elem_of_lookup_2. by rewrite merge_sort_Permutation in H. Qed.

Lemma seal_replicas_done_elem r ends r' e : Range.seal_replicas_done r ends = Ret (r', Range.SealPd e) -> e ∈ ends.
Proof.
  unfold Range.seal_replicas_done, Range.replicas_seal0. intros (res & Hres & [= H])%bind_Ret_inv.
  apply bind_Ret_inv in Hres as (n & _ & [= <-]).
  destruct (Range.nth_smallest ends (Z.to_nat n)) as [x|] eqn:En; [|done].
  injection H as _ <-. by eapply nth_smallest_elem.
Qed.

Definition failed_seal (s : Stream.t) (k : nat) (r : Range.t) : Stream.t :=
  Stream.set_jobs (Stream.set_heap s (<[k := Range.erase_sealing r]> (Stream.heap s))) [].

Lemma opening_failed listed s k r :
  blank s -> Stream.last_range s = Some k -> Stream.heap s !! k = Some r -> Range.metadata r ∈ listed ->
  length (Range.replicas r) = length (RangeMetadata.replica (Range.metadata r)) -> Range.is_sealed r = false ->
  RangeMetadata.end_ (Range.metadata r) = None -> opening listed (failed_seal s k r).
Proof.
  intros Hb Hl Hk Hin Hlen Hs He. split.
  - split; try apply Hb. simpl. apply Forall_insert; [apply Hb|].
    apply (proj1 (Forall_lookup _ _) (bl_heap _ Hb) _ _ Hk).
  - simpl. rewrite Hl. exists (Range.erase_sealing r), (Range.metadata r). rewrite erase_sealing_status, Hs.
    split_and!; try done; [apply list_lookup_insert_eq; by eapply lookup_lt_Some|]. split; [done|by left].
Qed.

Lemma opening_answered listed s s' :
  opening listed s -> Stream.replicas_answered s 0 = Ret s' -> opening listed s'.
Proof.
  intros Ho. unfold Stream.replicas_answered.
  destruct (Stream.jobs s !! 0%nat) as [[w k [|e|[|] [|] en]]|] eqn:Ej; try (intros [= <-]; done).
  destruct (opening_replicas _ _ _ _ _ _ _ Ho Ej) as (-> & r & dn & Hph). pose proof Hph as [].
  rewrite !app_nil_r in *. rewrite rp_range0. intros H. apply bind_Ret_inv in H as ([r1 next] & Hdone & H).
  pose proof Hdone as Hd. unfold Range.seal_replicas_done in Hd. apply bind_Ret_inv in Hd as (res & Hres & [= Hr]).
  destruct res as [e|err]; injection Hr as <- <-; simpl in H.
  - assert (0 <= e < 2 ^ 64) as Hrange.
    { rewrite Forall_forall in rp_ends0. by eapply rp_ends0, seal_replicas_done_elem. }
    rewrite list_insert_id in H by done. unfold Range.placement_driver_seal in H. destruct (Stream.client s).
    + injection H as <-. split; [by split; try apply rp_blank0|]. simpl. rewrite rp_last0, rp_jobs0.
      exists r, (Range.metadata r). rewrite rp_unsealed0. split_and!; try done. split; [done|]. right; left.
      exists e. split_and!; try done; try lia. exists dn, en, r, r. split_and!; try done.
    + simpl in H. injection H as <-. rewrite rp_jobs0.
      change (opening listed (failed_seal s k r)). by apply opening_failed.
  - injection H as <-. rewrite rp_jobs0. change (opening listed (failed_seal s k r)). by apply opening_failed.
Qed.

Lemma opening_pd listed s res s' :
  opening listed s -> Stream.pd_answers s 0 res = Ret s' -> opening listed s'.
Proof.
  intros Ho. pose proof Ho as [Hb Hl]. unfold Stream.pd_answers.
  destruct (Stream.jobs s !! 0%nat) as [[w k [|e|]]|] eqn:Ej; try (intros [= <-]; done).
  destruct (Stream.last_range s) as [k0|] eqn:El; [|destruct Hl as [Hl _]; by rewrite Hl in Ej].
  destruct Hl as (r & md & Hk & Hin & <- & Hlen & Hph & _). unfold job_phase in Hph.
  destruct (Range.is_sealed r) eqn:Hs; [destruct Hph as [Hj _]; by rewrite Hj in Ej|].
  destruct Hph as [Hend [Hj|[(e' & Hj & He & Hq)|(un & wa & en & dn & Hj & _)]]]; rewrite Hj in Ej; try done.
  injection Ej as <- <- <-. rewrite Hk, Hj.
  assert (Range.open_for_write r = false) as Hopen by exact (proj1 (Forall_lookup _ _) (bl_heap _ Hb) _ _ Hk).
  destruct res as [[]|err]; simpl; rewrite ?Hopen.
  - intros [= <-]. pose proof (mark_sealed_status r) as Hsd. split.
    + split; try apply Hb. simpl. by apply Forall_insert; [apply Hb|].
    + simpl. rewrite El. exists (Range.set_confirm (Range.mark_sealed r) e'), (Range.metadata r).
      change (Range.is_sealed (Range.set_confirm (Range.mark_sealed r) e')) with (Range.is_sealed (Range.mark_sealed r)).
      rewrite Hsd. split_and!; try done. apply list_lookup_insert_eq. by eapply lookup_lt_Some.
  - intros [= <-]. change (opening listed (failed_seal s k0 r)). by apply opening_failed.
Qed.

Lemma opens_opening id epoch cache listed s :
  cache_ok cache -> listed_ok listed -> opens (Stream.new id epoch cache) listed s -> opening listed s.
Proof.
  intros Hc Hl. induction 1; eauto using opening_open, opening_sends, opening_answers, opening_answered, opening_pd.
Qed.

(** The stream is open when its seal has succeeded. *)
Definition is_open (s : Stream.t) : bool :=
  match Stream.last_range s with
  | None => true
  | Some k => match Stream.heap s !! k with Some r => Range.is_sealed r | None => false end
  end.

Lemma opening_opened listed s : listed_ok listed -> opening listed s -> is_open s = true -> opened s.
Proof.
  intros Hl [Hb Hlast]. unfold is_open. destruct (Stream.last_range s) as [k|] eqn:El.
  - destruct Hlast as (r & md & Hk & Hin & <- & _ & Hph & Hcf). rewrite Hk. intros Hs. rewrite Hs in Hph.
    destruct Hph as (Hj & He & _). destruct Hb. split; rewrite ?El, ?Hj; try done.
    exists r. destruct (Hl _ Hin) as [[? ?] _]. split_and!; try done. by apply Hcf.
  - intros _. destruct Hlast as [Hj Hn]. destruct Hb. split; rewrite ?El, ?Hj, ?Hn; try done.
Qed.
End opening.

(** ** The runs of a stream *)

(** The end, when every server has started again. *)
Lemma restarted_end md evs done ends r r' e start :
  (forall i, known_start (restarted (evs i)) md = start) -> start = RangeMetadata.start md ->
  seals_of (restart_sealed md evs) done ends ->
  Range.seal_replicas_done r ends = Ret (r', Range.SealPd e) -> e = start.
Proof.
  intros Hst -> (answered & _ & Hf) He%seal_replicas_done_elem.
  apply list_elem_of_lookup in He as [j Hj]. destruct (Forall2_lookup_r _ _ _ _ _ Hf Hj) as (i & _ & Hi).
  by eapply restart_sealed_start.
Qed.

Section theorems.
Context {B : BytesApi} {BL : BytesLaws B} {M : MetaApi}.
Context (iterate : gmap string string -> list (string * string)).

(** A run of a stream that [open] has returned; [h] is what its servers have acknowledged
    before. *)
Definition runs (sealed : nat -> Z -> Prop) (listed : list RangeMetadata.t) (h : list (nat * nat * Z))
    (y : System.t) : Prop :=
  exists id epoch cache s evs, cache_ok cache /\ listed_ok listed /\
    opens sealed (Stream.new id epoch cache) listed s /\ is_open s = true /\
    reaches iterate (System.mk s [] h []) evs y.

Lemma runs_ok sealed listed h y : runs sealed listed h y -> sys_ok iterate y.
Proof.
  intros (id & epoch & cache & s & evs & Hc & Hl & Ho & Hopen & Hr). eapply reaches_ok; [done|].
  eapply opened_ok, opening_opened; [done| |done]. by eapply opens_opening.
Qed.

Lemma runs_submitted sealed listed h y :
  runs sealed listed h y -> Forall (fun x => batch_ok iterate x.2) (System.submitted y).
Proof.
  intros (id & epoch & cache & s & evs & _ & _ & _ & _ & Hr). by eapply reaches_submitted.
Qed.

Lemma on_quorum_le md acked c c' : c' <= c -> on_quorum md acked c -> on_quorum md acked c'.
Proof.
  intros Hle [?|(Q & HQ & Hlen & Hin)]; [left; lia|]. right. exists Q. split_and!; try done.
  intros i Hi. destruct (Hin i Hi) as (? & x & ? & ?). split; [done|]. exists x. split; [lia|done].
Qed.

(** C8: A stream that is open and is not deleted never panics.  Its callers append, trim, close
    and drop it, its tasks run in any order, and range servers and seals are answered in any
    way; every step returns.  [System.enabled] has the conditions: the batches have records,
    an encoding below 2 GiB and offsets below [2 ^ 64], a task wakes only when it can, a
    server that answers an append with success has acknowledged it, and when the placement
    driver creates a range, it has the start that was asked for, no end, and a number of
    servers and an ack count that fit.  In particular the batches that are appended to a
    range, also those that are appended again after its predecessor was sealed, start where
    the range ends, which [append] of the range asserts. *)
Theorem stream_never_panics sealed listed h y ev :
  runs sealed listed h y -> System.enabled iterate y ev -> exists y', System.run iterate y ev = Ret y'.
Proof.
  intros Hr%runs_ok Hen. destruct (run_ok iterate y ev Hr Hen) as (y' & ? & _). by exists y'.
Qed.

(** C4: An append that succeeds is confirmed by a quorum: its batch lies in one range of the
    stream, that range has confirmed all of it, and as many servers of the range as its
    metadata asks for have each acknowledged an append of the range that ends at or beyond
    its end.  This need not be the append itself: a replica is confirmed up to the end of any
    append that its server acknowledges. *)
Theorem append_on_quorum sealed listed h y caller b :
  runs sealed listed h y -> (caller, Ok b) ∈ Stream.answers (System.stream y) ->
  exists rb k r, (caller, b, rb) ∈ System.submitted y /\ Stream.heap (System.stream y) !! k = Some r /\
    Range.start_offset r <= b /\ b + batch_count rb <= Range.confirm_offset r /\
    on_quorum (Range.metadata r) (acked_in (System.history y) k) (b + batch_count rb).
Proof.
  intros Hr%runs_ok Hin. pose proof (ok_answers _ _ _ _ _ Hr) as Ha. rewrite Forall_forall in Ha.
  destruct (Ha _ Hin) as (rb & Hsub & (k & r & Hk & Hw & Hst & Hc) & _). exists rb, k, r.
  split_and!; try done. by eapply on_quorum_le, wo_quorum.
Qed.

(** C25: No call of [append] is lost or answered twice: the callers that have an answer and
    those whose request waits in the channel or is in flight are together the callers of
    [append]. *)
Theorem append_answered_once sealed listed h y :
  runs sealed listed h y ->
  let s := System.stream y in
  (Stream.answers s).*1 ++ callers (Stream.inflight s).*2 ++ callers (Stream.append_requests s) ≡ₚ
    (System.submitted y).*1.*1.
Proof. intros Hr%runs_ok. apply (ok_conserve _ _ _ _ _ Hr). Qed.

(** C2: Failover is safe as long as the range servers keep their history.  A stream takes
    over: it seals the range that is the last one of a stream that may still be running, and
    that is open there; the two streams have the same metadata of it.  No server answers to
    the seal an end below an append of the range that it has acknowledged, or below the start
    of the range ([ServerHistory]; so it is while the servers neither restart nor drop the
    range, [servers_history], and not otherwise, [failover_after_restart]).  Then whatever
    the old stream has answered to its callers with success, before or after, ends at or
    below the offset at which the new stream goes on: of the servers that have acknowledged
    up to there and those that have answered the seal, one is the same. *)
Theorem failover_covers sealed listed h y k r caller b sealed' id epoch cache listed' s' k' r' :
  runs sealed listed h y -> Stream.last_range (System.stream y) = Some k ->
  Stream.heap (System.stream y) !! k = Some r -> RangeMetadata.end_ (Range.metadata r) = None ->
  (caller, Ok b) ∈ Stream.answers (System.stream y) ->
  cache_ok cache -> listed_ok listed' -> opens sealed' (Stream.new id epoch cache) listed' s' ->
  Stream.last_range s' = Some k' -> Stream.heap s' !! k' = Some r' -> Range.is_sealed r' = true ->
  Range.metadata r' = Range.metadata r ->
  ServerHistory (Range.start_offset r) (acked_in (System.history y) k) sealed' ->
  exists rb, (caller, b, rb) ∈ System.submitted y /\ b + batch_count rb <= Stream.next_offset s'.
Proof.
  intros Hr%runs_ok Hlast Hk Hend Hin Hc Hl Ho Hlast' Hk' Hs' Hmd Hsrv.
  pose proof (ok_answers _ _ _ _ _ Hr) as Ha. rewrite Forall_forall in Ha.
  destruct (Ha _ Hin) as (rb & Hsub & _ & (k0 & r0 & El & Hk0 & Hw & Hle)). exists rb. split; [done|].
  assert (k0 = k) as -> by congruence. assert (r0 = r) as -> by congruence.
  apply (opens_opening _ _ _ _ _ _ Hc Hl) in Ho as [_ Hop]. rewrite Hlast' in Hop.
  destruct Hop as (x & md & Hx & _ & Hmx & _ & Hph & _). assert (x = r') as -> by congruence. rewrite Hs' in Hph.
  destruct Hph as (_ & _ & Hq). destruct Hq as (dn & en & q & q' & Hnd & Hb & Hse & Hq & Hdone); [congruence|].
  etrans; [exact Hle|].
  assert (md = Range.metadata r) as Heq by congruence. rewrite Heq in *.
  eapply (seal_covers_quorum (Range.metadata r)); eauto using wo_md, wo_quorum.
Qed.

(** C3: A server that starts again forgets what it has acknowledged.  A stream takes over
    after the servers of its last range have started again: whatever they have stored, they
    answer the start of the range to the seal, so the new stream goes on there, at or below
    every append to the range that the old stream has answered with success. *)
Theorem failover_after_restart sealed listed h y k r evs id epoch cache listed' s' k' r' :
  runs sealed listed h y -> Stream.last_range (System.stream y) = Some k ->
  Stream.heap (System.stream y) !! k = Some r -> RangeMetadata.end_ (Range.metadata r) = None ->
  cache_ok cache -> listed_ok listed' ->
  opens (restart_sealed (Range.metadata r) evs) (Stream.new id epoch cache) listed' s' ->
  (forall i, known_start (restarted (evs i)) (Range.metadata r) = Range.start_offset r) ->
  Stream.last_range s' = Some k' -> Stream.heap s' !! k' = Some r' -> Range.is_sealed r' = true ->
  Range.metadata r' = Range.metadata r ->
  Stream.next_offset s' = Range.start_offset r /\
  forall caller b, (caller, Ok b) ∈ Stream.answers (System.stream y) -> Range.start_offset r <= b ->
    exists rb, (caller, b, rb) ∈ System.submitted y /\ Stream.next_offset s' < b + batch_count rb.
Proof.
  intros Hrun Hlast Hk Hend Hc Hl Ho Hst Hlast' Hk' Hs' Hmd. pose proof (runs_ok _ _ _ _ Hrun) as Hr.
  assert (Stream.next_offset s' = Range.start_offset r) as Heq.
  { apply (opens_opening _ _ _ _ _ _ Hc Hl) in Ho as [_ Hop]. rewrite Hlast' in Hop.
    destruct Hop as (x & md & Hx & _ & Hmx & _ & Hph & _). assert (x = r') as -> by congruence. rewrite Hs' in Hph.
    destruct Hph as (_ & _ & Hq). destruct Hq as (dn & en & q & q' & _ & _ & Hse & _ & Hdone); [congruence|].
    assert (md = Range.metadata r) as -> by congruence. by eapply restarted_end. }
  split; [done|]. intros caller b Hin Hb.
  pose proof (ok_answers _ _ _ _ _ Hr) as Ha. rewrite Forall_forall in Ha.
  destruct (Ha _ Hin) as (rb & Hsub & _). exists rb. split; [done|].
  pose proof (runs_submitted _ _ _ _ Hrun) as Hf. rewrite Forall_forall in Hf. destruct (Hf _ Hsub) as [? _].
  unfold batch_count. simpl in *. lia.
Qed.
End theorems.

(** ** Witnesses *)

Module StreamExample.
(** The metadata of a batch without properties, at fixed widths. *)
Definition fixed_pack (m : meta) : list byte :=
  be_encode 8 (RecordBatchMetaT.stream_id m) ++ be_encode 4 (RecordBatchMetaT.range_index m) ++
  be_encode 2 (RecordBatchMetaT.flags m) ++ be_encode 8 (RecordBatchMetaT.base_offset m) ++
  be_encode 4 (RecordBatchMetaT.last_offset_delta m) ++ be_encode 8 (RecordBatchMetaT.base_timestamp m).
Definition field (w : Z) (l : list byte) (from n : nat) : Z := as_sint w (be_decode (take n (drop from l))).
#[local] Instance fixed_meta_api : MetaApi := {|
  meta_pack := fixed_pack;
  meta_root l :=
    if (length l =? 34)%nat then
      Some (RecordBatchMetaT.mk (field 64 l 0 8) (field 32 l 8 4) (field 16 l 12 2) (field 64 l 14 8)
              (field 32 l 22 4) (field 64 l 26 8) None)
    else None;
|}.

Definition iterate (m : gmap string string) : list (string * string) := map_to_list m.
Definition batch : RecordBatch.t := sample_batch 0 2.

Lemma batch_is_ok : batch_ok iterate batch.
Proof.
  split; [by vm_compute|]. intros base stream index.
  assert (forall m, remaining (fixed_pack m) = 34) as Hlen.
  { intros m. unfold remaining, fixed_pack. by rewrite !length_app, !length_be_encode. }
  change (meta_pack ?m) with (fixed_pack m). rewrite Hlen. by vm_compute.
Qed.

Definition md : RangeMetadata.t :=
  RangeMetadata.mk 7 1 0 0 None
    [RangeServer.mk 1 "a" 0; RangeServer.mk 2 "b" 0; RangeServer.mk 3 "c" 0] 3 2 None.
Definition cache : HotCache.t := HotCache.mk 4096 0 ∅ [].

Lemma cache_is_ok : cache_ok cache.
Proof. split; [by apply (hot_new_ok 4096)|by vm_compute]. Qed.

Definition s0 : Stream.t := Stream.set_offsets (Stream.new 7 1 cache) 0 0.
Definition none (i : nat) (e : Z) : Prop := False.

Lemma opens_s0 : opens none (Stream.new 7 1 cache) [] s0.
Proof. by apply opens_listed. Qed.

Lemma listed_nil : listed_ok [].
Proof. by intros ? ?%not_elem_of_nil. Qed.

(** A batch is appended, two of three servers acknowledge it, and the caller is answered. *)
Definition events : list System.event :=
  [System.Append 1 batch; System.Request; System.Created (Ok md); System.TaskRuns 0; System.TaskRuns 1;
   System.ServerAcks 0 0 2; System.ServerAcks 0 1 2;
   System.TaskAnswered 0 (Ok [ErrorCode.OK]); System.TaskAnswered 0 (Ok [ErrorCode.OK]); System.Tick].

Definition after (y : System.t) (ev : System.event) : System.t :=
  match System.run iterate y ev with Ret y' => y' | Panic => y end.
Definition y1 : System.t := foldl after (System.mk s0 [] [] []) events.

Fixpoint goes (y : System.t) (evs : list System.event) : Prop :=
  match evs with
  | [] => True
  | ev :: evs => System.enabled iterate y ev /\ System.run iterate y ev = Ret (after y ev) /\ goes (after y ev) evs
  end.

Lemma goes_reaches y evs : goes y evs -> reaches iterate y evs (foldl after y evs).
Proof.
  revert y. induction evs as [|ev evs IH]; intros y; simpl; [constructor|]. intros (? & ? & ?).
  econstructor; eauto.
Qed.

Lemma goes_y1 : goes (System.mk s0 [] [] []) events.
Proof.
  split; [split; [apply batch_is_ok|by vm_compute]|]. split; [by vm_compute|].
  split; [split; by vm_compute|]. split; [by vm_compute|].
  split; [exists true, 0, 0; split; [by vm_compute|by repeat split]|]. split; [by vm_compute|].
  do 4 (split; [done|]; split; [by vm_compute|]).
  do 2 (split; [intros k i tk Htk _; vm_compute in Htk; injection Htk as <- <- <-; vm_compute; set_solver|];
        split; [by vm_compute|]).
  split; [split; [by vm_compute|vm_compute; lia]|]. split; [by vm_compute|]. done.
Qed.

Lemma runs_y1 : runs iterate none [] [] y1.
Proof.
  exists 7, 1, cache, s0, events. split_and!; [apply cache_is_ok|apply listed_nil|apply opens_s0|done|].
  apply goes_reaches, goes_y1.
Qed.

(** Another stream takes over: the second server answers the end 2 to its seal, the third
    one the start of the range, and the first one does not answer. *)
Definition sealed (i : nat) (e : Z) : Prop := i = 1%nat /\ e = 2 \/ i = 2%nat /\ e = 0.

Definition seal_of (i : nat) (s : Stream.t) : Stream.t :=
  match Stream.replica_sends s 0 i with Ret s' => s' | Panic => s end.
Definition sealed_of (i : nat) (e : option Z) (s : Stream.t) : Stream.t :=
  match Stream.replica_answers s 0 i
          (match e with Some e => Ok (RangeMetadata.set_end md e) | None => Err (EsError.unexpected "timeout") end) with
  | Ret s' => s'
  | Panic => s
  end.
Definition ret (x : outcome Stream.t) (s : Stream.t) : Stream.t := match x with Ret s' => s' | Panic => s end.
Definition t0 : Stream.t := ret (Stream.open (Stream.new 7 2 cache) [md]) s0.
Definition t1 : Stream.t := seal_of 2 (seal_of 1 (seal_of 0 t0)).
Definition t2 : Stream.t := sealed_of 0 None (sealed_of 2 (Some 0) (sealed_of 1 (Some 2) t1)).
Definition t3 : Stream.t := ret (Stream.replicas_answered t2 0) t2.
Definition t4 : Stream.t := ret (Stream.pd_answers t3 0 (Ok ())) t3.

Lemma opens_t4 : opens sealed (Stream.new 7 2 cache) [md] t4.
Proof.
  apply (opens_sealed _ _ _ t3 (Ok ())); [|by vm_compute]. apply (opens_answered _ _ _ t2); [|by vm_compute].
  apply (opens_answers _ _ _ (sealed_of 2 (Some 0) (sealed_of 1 (Some 2) t1)) 0 (Err (EsError.unexpected "timeout")));
    [|done|by vm_compute].
  apply (opens_answers _ _ _ (sealed_of 1 (Some 2) t1) 2 (Ok (RangeMetadata.set_end md 0)));
    [|intros m e [= <-] [= <-]; split; [by right|lia]|by vm_compute].
  apply (opens_answers _ _ _ t1 1 (Ok (RangeMetadata.set_end md 2)));
    [|intros m e [= <-] [= <-]; split; [by left|lia]|by vm_compute].
  apply (opens_sends _ _ _ (seal_of 1 (seal_of 0 t0)) 2); [|by vm_compute].
  apply (opens_sends _ _ _ (seal_of 0 t0) 1); [|by vm_compute].
  apply (opens_sends _ _ _ t0 0); [|by vm_compute]. by apply opens_listed.
Qed.

Lemma listed_md : listed_ok [md].
Proof. intros m ->%list_elem_of_singleton. split; [by vm_compute|done]. Qed.

Definition range_of (s : Stream.t) (k : nat) : Range.t :=
  match Stream.heap s !! k with Some r => r | None => Range.new md false end.
End StreamExample.
#[local] Existing Instance StreamExample.fixed_meta_api.

Lemma stream_never_panics_witness :
  exists y', System.run StreamExample.iterate StreamExample.y1 (System.Append 2 StreamExample.batch) = Ret y'.
Proof.
  apply (stream_never_panics StreamExample.iterate _ _ _ _ _ StreamExample.runs_y1).
  split; [apply StreamExample.batch_is_ok|by vm_compute].
Defined.

Lemma append_on_quorum_witness :
  exists rb k r, (1, 0, rb) ∈ System.submitted StreamExample.y1 /\
    Stream.heap (System.stream StreamExample.y1) !! k = Some r /\
    Range.start_offset r <= 0 /\ 0 + batch_count rb <= Range.confirm_offset r /\
    on_quorum (Range.metadata r) (acked_in (System.history StreamExample.y1) k) (0 + batch_count rb).
Proof.
  apply (append_on_quorum StreamExample.iterate _ _ _ _ 1 0 StreamExample.runs_y1). vm_compute. set_solver.
Defined.

Lemma append_answered_once_witness :
  let s := System.stream StreamExample.y1 in
  (Stream.answers s).*1 ++ callers (Stream.inflight s).*2 ++ callers (Stream.append_requests s) ≡ₚ
    (System.submitted StreamExample.y1).*1.*1.
Proof. apply (append_answered_once StreamExample.iterate _ _ _ _ StreamExample.runs_y1). Defined.

Lemma failover_covers_witness :
  exists rb, (1, 0, rb) ∈ System.submitted StreamExample.y1 /\
    0 + batch_count rb <= Stream.next_offset StreamExample.t4.
Proof.
  apply (failover_covers StreamExample.iterate StreamExample.none [] [] StreamExample.y1 0
    (StreamExample.range_of (System.stream StreamExample.y1) 0) 1 0 StreamExample.sealed 7 2 StreamExample.cache
    [StreamExample.md] StreamExample.t4 0 (StreamExample.range_of StreamExample.t4 0));
    [apply StreamExample.runs_y1|by vm_compute|by vm_compute|by vm_compute|vm_compute; set_solver
    |apply StreamExample.cache_is_ok|apply StreamExample.listed_md|apply StreamExample.opens_t4
    |by vm_compute|by vm_compute|by vm_compute|by vm_compute|split].
  - assert (System.history StreamExample.y1 = [(0%nat, 1%nat, 2); (0%nat, 0%nat, 2)]) as Hh by by vm_compute.
    intros i x e Hx [[-> ->]|[-> ->]]; unfold acked_in in Hx; rewrite Hh, !elem_of_cons, elem_of_nil in Hx;
      clear Hh; destruct Hx as [Hx|[Hx|[]]]; by simplify_eq.
  - intros i e [[-> ->]|[-> ->]]; by vm_compute.
Defined.

(** All servers of the range start again and read its metadata; another stream takes over. *)
Module RestartExample.
Import StreamExample.
Definition evs (i : nat) : list ResourceEvent := [mkEvent Listed (ResRange md)].
Definition u1 : Stream.t := sealed_of 0 None (sealed_of 2 (Some 0) (sealed_of 1 (Some 0) t1)).
Definition u2 : Stream.t := ret (Stream.replicas_answered u1 0) u1.
Definition u3 : Stream.t := ret (Stream.pd_answers u2 0 (Ok ())) u2.

Lemma restarted_seals i : restart_sealed md evs i 0.
Proof. eexists _, _. split; [by vm_compute|done]. Qed.

Lemma opens_u3 : opens (restart_sealed md evs) (Stream.new 7 2 cache) [md] u3.
Proof.
  pose proof restarted_seals as Hs.
  apply (opens_sealed _ _ _ u2 (Ok ())); [|by vm_compute]. apply (opens_answered _ _ _ u1); [|by vm_compute].
  apply (opens_answers _ _ _ (sealed_of 2 (Some 0) (sealed_of 1 (Some 0) t1)) 0 (Err (EsError.unexpected "timeout")));
    [|done|by vm_compute].
  apply (opens_answers _ _ _ (sealed_of 1 (Some 0) t1) 2 (Ok (RangeMetadata.set_end md 0)));
    [|intros m e [= <-] [= <-]; split; [done|lia]|by vm_compute].
  apply (opens_answers _ _ _ t1 1 (Ok (RangeMetadata.set_end md 0)));
    [|intros m e [= <-] [= <-]; split; [done|lia]|by vm_compute].
  apply (opens_sends _ _ _ (seal_of 1 (seal_of 0 t0)) 2); [|by vm_compute].
  apply (opens_sends _ _ _ (seal_of 0 t0) 1); [|by vm_compute].
  apply (opens_sends _ _ _ t0 0); [|by vm_compute]. by apply opens_listed.
Qed.
End RestartExample.

Lemma failover_after_restart_witness :
  (1, Ok 0) ∈ Stream.answers (System.stream StreamExample.y1) /\ Stream.next_offset RestartExample.u3 = 0 /\
  exists rb, (1, 0, rb) ∈ System.submitted StreamExample.y1 /\
    Stream.next_offset RestartExample.u3 < 0 + batch_count rb.
Proof.
  assert ((1, Ok 0) ∈ Stream.answers (System.stream StreamExample.y1)) as Hin by (vm_compute; set_solver).
  split; [done|].
  destruct (failover_after_restart StreamExample.iterate StreamExample.none [] [] StreamExample.y1 0
    (StreamExample.range_of (System.stream StreamExample.y1) 0) RestartExample.evs 7 2 StreamExample.cache
    [StreamExample.md] RestartExample.u3 0 (StreamExample.range_of RestartExample.u3 0)) as [Hn Ha];
    [apply StreamExample.runs_y1|by vm_compute|by vm_compute|by vm_compute
    |apply StreamExample.cache_is_ok|apply StreamExample.listed_md|apply RestartExample.opens_u3
    |by vm_compute|by vm_compute|by vm_compute|by vm_compute|by vm_compute|].
  split; [exact Hn|]. apply (Ha 1 0 Hin). by vm_compute.
Defined.
