(* ===== verification/CacheStream.v ===== *)
(** * Reading through the caches

    [components/replication/src/stream/cache_stream.rs]: a fetch takes what the hot cache
    and the cache of blocks have, and reads the rest from the stream below, with more that
    goes into the cache of blocks.

    The operations that wait are cut where they wait; the stream below is the offsets that
    it shows and its answers to [fetch]. *)

From S2P Require Import Prelude Bytes Model Record RecordsBlock Collections ReplicaCache Replication.

Module CacheStream.
Section cache_stream.
Context {L : LruApi}.

(** The caches are those of all streams. *)
Record t := mk {
  stream_id : Z;               (* u64 *)
  hot_cache : HotCache.t;
  block_cache : ReadCache.t L;
  inflight_readahead : list Z; (* the offsets that are read ahead *)
}.

Definition set_block_cache (c : t) (b : ReadCache.t L) : t :=
  mk (stream_id c) (hot_cache c) b (inflight_readahead c).
Definition set_inflight (c : t) (l : list Z) : t :=
  mk (stream_id c) (hot_cache c) (block_cache c) l.

(** The loop variables of [fetch0]: the next offset, the bytes that are wanted and the
    blocks so far. *)
Record reading := mk_reading { next_start_offset : Z; next_batch_max_bytes : Z; blocks : list RecordsBlock.t }.

Definition push_block (l : list RecordsBlock.t) (b : RecordsBlock.t) : list RecordsBlock.t :=
  if RecordsBlock.is_empty b then l else l ++ [b].

Definition take_block (g : reading) (b : RecordsBlock.t) : outcome reading :=
  e ← RecordsBlock.end_offset b;
  n ← RecordsBlock.size b;
  Ret (mk_reading e (next_batch_max_bytes g - Z.min n (next_batch_max_bytes g)) (push_block (blocks g) b)).

Definition fulfilled (g : reading) (end_offset : Z) : bool :=
  (end_offset <=? next_start_offset g) || (next_batch_max_bytes g =? 0).

Definition read_from_cache (c : t) (g : reading) (end_offset now : Z)
    : outcome (t * reading * option Readahead.t) :=
  hot_block ← HotCache.get_block (hot_cache c) (stream_id c) (next_start_offset g) end_offset
                (next_batch_max_bytes g);
  g ← take_block g hot_block;
  if fulfilled g end_offset then Ret (c, g, None)
  else
  '(cache, block, readahead) ← ReadCache.get_block (block_cache c) (stream_id c) (next_start_offset g)
                                 end_offset (next_batch_max_bytes g) now;
  g ← take_block g block;
  Ret (set_block_cache c cache, g, readahead).

(** Returns whether a task is spawned. *)
Definition background_readahead (c : t) (readahead : Readahead.t) : t * bool :=
  let start := Readahead.start_offset readahead in
  if decide (start ∈ inflight_readahead c) then (c, false)
  else (set_inflight c (start :: inflight_readahead c), true).

(** The task: the request that it sends, if any, what it does with the answer, and its end,
    at which it wakes the fetches that wait for its offset. *)
Definition background_readahead0 (readahead : Readahead.t) (confirm_offset : Z) : option (Z * Z * Z) :=
  let start_offset := Readahead.start_offset readahead in
  if confirm_offset <=? start_offset then None
  else Some (start_offset, default confirm_offset (Readahead.end_offset readahead), Readahead.size_hint readahead).

Definition readahead_answered (c : t) (res : result FetchDataset EsError.t) (now : Z) : outcome t :=
  match res with
  | Ok (Full l) | Ok (Overflow l) =>
      cache ← ReadCache.insert (block_cache c) (stream_id c) l now;
      Ret (set_block_cache c cache)
  | _ => Ret c
  end.

Definition readahead_done (c : t) (start_offset : Z) : t :=
  set_inflight c (List.filter (fun x => negb (x =? start_offset)) (inflight_readahead c)).

(** Where a fetch goes on: it returns, waits for the task that reads ahead from an offset,
    or for the stream below. *)
Inductive fetch_next :=
| FetchReturn (res : result FetchDataset EsError.t)
| FetchWait (offset : Z)
| FetchStream (g : reading) (readahead_end_offset readahead_batch_max_bytes : Z).

Definition out_of_bound : EsError.t :=
  EsError.new ErrorCode.OFFSET_OUT_OF_RANGE_BOUNDS "out of stream bound".

(** A round of the loop.  Returns the task that is spawned as well. *)
Definition fetch_round (c : t) (waited_cache : bool) (start_offset end_offset batch_max_bytes stream_end_offset now : Z)
    : outcome (t * option Readahead.t * fetch_next) :=
  '(c, g, readahead) ← read_from_cache c (mk_reading start_offset batch_max_bytes []) end_offset now;
  let '(c, spawned) :=
    match readahead with
    | Some r => let '(c, b) := background_readahead c r in (c, if b : bool then Some r else None)
    | None => (c, None)
    end in
  if fulfilled g end_offset then Ret (c, spawned, FetchReturn (Ok (Full (blocks g))))
  else if negb waited_cache && bool_decide (next_start_offset g ∈ inflight_readahead c) then
    Ret (c, spawned, FetchWait (next_start_offset g))
  else
  d ← uint_sub end_offset (next_start_offset g);
  d ← uint_mul 64 d 2;
  e ← u64_add (next_start_offset g) d;
  n ← uint_mul 32 (next_batch_max_bytes g) 2;
  Ret (c, spawned, FetchStream g (Z.min stream_end_offset e) (block_size_align n)).

Definition fetch0 (c : t) (start_offset end_offset batch_max_bytes stream_start_offset stream_end_offset now : Z)
    : outcome (t * option Readahead.t * fetch_next) :=
  if (start_offset <? stream_start_offset) || (stream_end_offset <? end_offset) then
    Ret (c, None, FetchReturn (Err out_of_bound))
  else fetch_round c false start_offset end_offset batch_max_bytes stream_end_offset now.

(** The loop over the blocks of the stream below: the blocks that are taken, and how many of
    the first ones are used up. *)
Fixpoint take_loop (l : list RecordsBlock.t) (start_offset end_offset batch_max_bytes : Z)
    : outcome (list RecordsBlock.t * nat) :=
  match l with
  | [] => Ret ([], 0%nat)
  | b :: l =>
      records ← RecordsBlock.get_records b start_offset end_offset batch_max_bytes;
      match last records with
      | None => Ret ([], 0%nat)
      | Some r =>
          re ← BlockRecord.end_offset r;
          be ← RecordsBlock.end_offset b;
          '(taken, n) ← take_loop l start_offset end_offset batch_max_bytes;
          Ret (RecordsBlock.new records :: taken, if re =? be then S n else n)
      end
  end.

(** [read_from_stream], when the stream below has answered. *)
Definition read_from_stream (c : t) (g : reading) (end_offset now : Z) (res : result FetchDataset EsError.t)
    : outcome (t * result FetchDataset EsError.t) :=
  match res with
  | Err e => Ret (c, Err e)
  | Ok (Full remote_blocks) | Ok (Overflow remote_blocks) =>
      '(taken, n) ← take_loop remote_blocks (next_start_offset g) end_offset (next_batch_max_bytes g);
      match drop n remote_blocks with
      | [] => Ret (c, Ok (Full (blocks g ++ taken)))
      | rest =>
          cache ← ReadCache.insert (block_cache c) (stream_id c) rest now;
          Ret (set_block_cache c cache, Ok (Full (blocks g ++ taken)))
      end
  | Ok _ => Ret (c, Err (EsError.new ErrorCode.UNEXPECTED "fetch dataset is not full"))
  end.
End cache_stream.
Arguments t : clear implicits.
End CacheStream.

(** ** What a fetch gives

    The batches of the stream are a list [log] of records from offset [a] to [z]. *)

Lemma run_unique a l b r r' :
  run a l b -> r ∈ l -> r' ∈ l -> BlockRecord.start_offset r = BlockRecord.start_offset r' -> r = r'.
Proof.
  assert (forall a l b x, run a l b -> x ∈ l -> a <= BlockRecord.start_offset x) as Hle.
  { clear. intros a l. revert a. induction l as [|y l IH]; intros a b x; simpl; [by intros _ ?%not_elem_of_nil|].
    intros (Hs & Hd & _ & Hr) [->|Hin]%elem_of_cons; [lia|]. pose proof (IH _ _ _ Hr Hin). lia. }
  revert a. induction l as [|y l IH]; intros a; simpl; [by intros _ ?%not_elem_of_nil|].
  intros (Hs & Hd & _ & Hr) [->|Hin]%elem_of_cons [->|Hin']%elem_of_cons Heq; [done|..|by eapply IH].
  - pose proof (Hle _ _ _ _ Hr Hin'). lia.
  - pose proof (Hle _ _ _ _ Hr Hin). lia.
Qed.

(** Records of the log that follow each other are a part of it. *)
Lemma run_infix a log z x l y :
  run a log z -> run x l y -> l <> [] -> Forall (fun r => r ∈ log) l ->
  exists pre post, log = pre ++ l ++ post /\ run a pre x /\ run y post z.
Proof.
  intros Hlog. revert x y. induction l as [|r l IH] using rev_ind; [done|]. intros x y Hr _ Hall.
  apply Forall_app in Hall as [Hall [Hin _]%Forall_cons]. apply run_app in Hr as (c & Hl & Hst & Hd & H64 & <-).
  destruct l as [|r0 l0].
  - simpl in Hl. subst c. apply list_elem_of_split in Hin as (pre & post & ->). exists pre, post.
    apply run_app in Hlog as (w & Hpre & Hst' & _ & _ & Hpost). assert (w = x) as -> by congruence. by split_and!.
  - destruct (IH x c Hl) as (pre & post & -> & Hpre & Hpost); [done|done|]. destruct post as [|r' post].
    { simpl in Hpost. subst c. exfalso.
      assert (forall a l b q, run a l b -> q ∈ l -> BlockRecord.start_offset q < b) as Hlt.
      { clear. intros a l. revert a. induction l as [|w l IH]; intros a b q; simpl; [by intros _ ?%not_elem_of_nil|].
        intros (Hs & Hd & _ & Hr) [->|Hq]%elem_of_cons; [apply run_le in Hr; lia|eauto]. }
      specialize (Hlt _ _ _ _ Hlog Hin). lia. }
    assert (r' = r) as ->.
    { apply (run_unique a _ z r' r Hlog); [set_solver|done|]. destruct Hpost as (-> & _). done. }
    exists pre, post. split; [by rewrite <- !(assoc_L (++))|]. split; [done|]. destruct Hpost as (_ & _ & _ & ?). done.
Qed.

Lemma run_fun a l x y : run a l x -> run a l y -> x = y.
Proof.
  revert a. induction l as [|r l IH]; intros a; simpl; [congruence|]. intros (_ & _ & _ & H) (_ & _ & _ & H'). eauto.
Qed.

Lemma block_size_bytes b :
  bytes_of (RecordsBlock.records b) < 2 ^ 32 -> RecordsBlock.size b = Ret (bytes_of (RecordsBlock.records b)).
Proof. intros H. unfold RecordsBlock.size. by rewrite sum_sizes. Qed.

Lemma sorted_same {A B C} (f : A -> C) (g : B -> C) (m : list (Z * A)) (m' : list (Z * B)) :
  (fun e => (e.1, f e.2)) <$> m = (fun e => (e.1, g e.2)) <$> m' ->
  StronglySorted (fun x y => x.1 < y.1) m' -> StronglySorted (fun x y => x.1 < y.1) m.
Proof.
  revert m'. induction m as [|[k v] m IH]; intros [|[k' v'] m']; simpl; try discriminate; [constructor|].
  intros [= -> _ Heq] [Hs Hf]%StronglySorted_inv. constructor; [eauto|].
  rewrite Forall_forall in Hf. apply Forall_forall. intros [q w] Hq. simpl.
  assert ((q, f w) ∈ (fun e => (e.1, f e.2)) <$> m) as Hq' by (apply list_elem_of_fmap; by exists (q, w)).
  unfold fmap in Hq'. rewrite Heq in Hq'. apply list_elem_of_fmap in Hq' as ([q' w'] & [= -> _] & Hq'). by apply (Hf _ Hq').
Qed.

Section log.
Context {L : LruApi} `{!LruLaws L} (a z : Z) (log : list BlockRecord.t).
Hypothesis Hlog : run a log z.
Hypothesis Hbytes : bytes_of log < 2 ^ 32.

(** Where a record of the log begins or ends. *)
Definition edge (x : Z) : Prop := exists pre post, log = pre ++ post /\ run a pre x /\ run x post z.

Lemma log_whole r : r ∈ log -> whole edge r.
Proof.
  intros (pre & post & Heq)%list_elem_of_split. pose proof Hlog as Hr. rewrite Heq in Hr.
  apply run_app in Hr as (x & Hpre & Hst & Hd & H64 & Hpost).
  split_and!.
  - exists pre, (r :: post). rewrite Hst. by split_and!.
  - exists (pre ++ [r]), post. rewrite Heq, <- (assoc_L (++)), Hst. split_and!; [done| |done].
    apply run_app. exists x. by split_and!.
  - intros y (p & q & Hpq & Hp & Hq). rewrite Hst. rewrite Heq in Hpq.
    assert (pre `prefix_of` p \/ p `prefix_of` pre) as [[k ->]|[k ->]].
    { apply (prefix_weak_total _ _ (pre ++ r :: post)); [by eexists|rewrite Hpq; by eexists]. }
    + apply run_app in Hp as (x' & Hx' & Hk). assert (x' = x) as -> by (eapply run_fun; eauto).
      rewrite <- (assoc_L (++)) in Hpq. apply (inj (pre ++.)) in Hpq.
      destruct k as [|r' k]; [simpl in Hk; lia|]. injection Hpq as <- _. simpl in Hk.
      destruct Hk as (_ & _ & _ & ?%run_le). lia.
    + apply run_app in Hpre as (x' & Hx' & Hk). assert (x' = y) as -> by (eapply run_fun; eauto).
      apply run_le in Hk. lia.
Qed.

(** The records [l], which end at [y], are those of the log from offset [s] on: the first one
    holds that offset. *)
Definition slice (s : Z) (l : list BlockRecord.t) (y : Z) : Prop :=
  match l with
  | [] => y = s
  | r :: _ => exists pre post x, log = pre ++ l ++ post /\ run a pre x /\ run x l y /\ run y post z /\
      x <= s < x + BlockRecord.end_offset_delta r
  end.

Lemma slice_intro s x r l y :
  run x (r :: l) y -> Forall (fun q => q ∈ log) (r :: l) -> x <= s < x + BlockRecord.end_offset_delta r ->
  slice s (r :: l) y.
Proof.
  intros Hr Hin Hs. destruct (run_infix a log z x (r :: l) y) as (pre & post & ? & ? & ?); try done.
  by exists pre, post, x.
Qed.

Lemma slice_in s l y : slice s l y -> Forall (fun q => q ∈ log) l.
Proof.
  destruct l as [|r l]; [done|]. intros (pre & post & x & Heq & _). rewrite Heq, Forall_forall. set_solver.
Qed.

Lemma slice_bytes s l y : slice s l y -> bytes_of l < 2 ^ 32.
Proof.
  destruct l as [|r l]; [done|]. intros (pre & post & x & Heq & _).
  rewrite Heq, !bytes_of_app in Hbytes. pose proof (bytes_of_nonneg pre). pose proof (bytes_of_nonneg post). lia.
Qed.

Lemma slice_app s l y k w : slice s l y -> slice y k w -> slice s (l ++ k) w.
Proof.
  destruct l as [|r l]; [by intros ->|]. intros Hl Hk. pose proof (slice_in _ _ _ Hl) as Hinl.
  destruct Hl as (pre & post & x & Heq & Hpre & Hr & Hpost & Hx). destruct k as [|q k].
  { simpl in Hk. subst w. rewrite (right_id_L [] (++)). by exists pre, post, x. }
  pose proof (slice_in _ _ _ Hk) as Hink. destruct Hk as (pre' & post' & x' & Heq' & Hpre' & Hr' & Hpost' & Hx').
  assert (x' = y) as ->.
  { destruct (log_whole q) as (_ & _ & Hedge); [by inversion Hink|].
    assert (BlockRecord.start_offset q = x') as Hq by (by destruct Hr'). rewrite Hq in Hedge.
    destruct (Hedge y); [|lia..]. exists (pre ++ r :: l), post. split; [by rewrite <- (assoc_L (++))|].
    split; [apply run_app; by exists x|done]. }
  change ((r :: l) ++ q :: k) with (r :: (l ++ q :: k)). apply (slice_intro _ x); [|by apply (Forall_app_2 _ (r :: l))|done].
  change (r :: l ++ q :: k) with ((r :: l) ++ q :: k). apply run_app. by exists y.
Qed.

(** The caches hold records of the log. *)
Definition caches_ok (c : CacheStream.t L) : Prop :=
  hot_records (CacheStream.hot_cache c) /\
  (forall o r, HotCache.map (CacheStream.hot_cache c) !! (CacheStream.stream_id c, o) = Some r -> r ∈ log) /\
  forall sc, ReadCache.cache_map (CacheStream.block_cache c) !! CacheStream.stream_id c = Some sc ->
    BTreeMap.sorted (StreamCache.cache_map sc) /\ Forall (block_ok edge) (StreamCache.cache_map sc) /\
    Forall (fun e => Forall (fun r => r ∈ log) (RecordsBlock.records e.2.1)) (StreamCache.cache_map sc).

Lemma hot_slice c s e m :
  caches_ok c -> 0 <= m ->
  exists b y, HotCache.get_block (CacheStream.hot_cache c) (CacheStream.stream_id c) s e m = Ret b /\
    RecordsBlock.end_offset b = Ret y /\ slice s (RecordsBlock.records b) y /\
    Forall (fun r => BlockRecord.start_offset r < e) (RecordsBlock.records b).
Proof.
  intros (Hhot & Hin & _) Hm. destruct (hot_get_block (CacheStream.hot_cache c) (CacheStream.stream_id c) s e m Hhot Hm)
    as (b & l & y & Hb & Hl & Hrun & Hy & Hall & _).
  exists b, y. rewrite Hl. split_and!; [done|done| |by eapply Forall_impl; [exact Hall|]; naive_solver].
  destruct l as [|r l]; [done|]. apply (slice_intro _ s); [done| |destruct Hrun; lia].
  eapply Forall_impl; [exact Hall|]. intros q [? _]. eauto.
Qed.

Lemma block_slice c s e m now :
  caches_ok c -> 0 <= m ->
  exists cache b ra y, ReadCache.get_block (CacheStream.block_cache c) (CacheStream.stream_id c) s e m now = Ret (cache, b, ra) /\
    caches_ok (CacheStream.set_block_cache c cache) /\
    RecordsBlock.end_offset b = Ret y /\ slice s (RecordsBlock.records b) y /\
    Forall (fun r => BlockRecord.start_offset r < e) (RecordsBlock.records b).
Proof.
  intros (Hhot & Hhin & Hc) Hm.
  destruct (ReadCache.cache_map (CacheStream.block_cache c) !! CacheStream.stream_id c) as [sc|] eqn:Hsc.
  2:{ exists (CacheStream.block_cache c), (RecordsBlock.empty_block s), None, s. unfold ReadCache.get_block.
      rewrite Hsc. split_and!; try done.
      split; [done|]. split; [done|]. intros sc H. simpl in H. congruence. }
  destruct (Hc sc eq_refl) as (Hsorted & Hok & Hin).
  destruct (read_get_block edge (CacheStream.block_cache c) (CacheStream.stream_id c) sc s e m now)
    as (cache & b & ra & Hget & Hb & Hall & _ & sc' & Hsc' & Hok' & Hsame); [done..|].
  assert (exists y, RecordsBlock.end_offset b = Ret y /\ slice s (RecordsBlock.records b) y) as (y & Hy & Hs).
  { destruct Hb as [[-> ->]|(x & r & l & y & Hl & Hrun & Hx & ->)]; [by exists s|]. exists y. split; [done|].
    rewrite Hl in *. apply (slice_intro _ x); [done| |done]. eapply Forall_impl; [exact Hall|].
    intros q [(k & blk & r' & Hk & Hq) _]. rewrite Forall_forall in Hin. specialize (Hin _ Hk). simpl in Hin.
    rewrite Forall_forall in Hin. eauto. }
  exists cache, b, ra, y. split_and!; try done; [|by eapply Forall_impl; [exact Hall|]; naive_solver].
  split; [done|]. split; [done|]. intros sc2 Hsc2. simpl in Hsc2. rewrite Hsc' in Hsc2. injection Hsc2 as <-. split_and!; [|done|].
  - apply (sorted_same fst fst _ (StreamCache.cache_map sc)); done.
  - apply Forall_forall. intros [k [blk r']] Hk. simpl.
    assert ((k, blk) ∈ (fun e : Z * (RecordsBlock.t * option Readahead.t) => (e.1, e.2.1)) <$> StreamCache.cache_map sc) as Hk'.
    { rewrite <- Hsame. apply list_elem_of_fmap. by exists (k, (blk, r')). }
    apply list_elem_of_fmap in Hk' as ([k0 [blk0 r0]] & [= -> ->] & Hk').
    rewrite Forall_forall in Hin. by apply (Hin _ Hk').
Qed.

(** Records of the blocks of a fetch. *)
Definition records_of (l : list RecordsBlock.t) : list BlockRecord.t := concat (RecordsBlock.records <$> l).

Lemma records_of_app l k : records_of (l ++ k) = records_of l ++ records_of k.
Proof. unfold records_of. by rewrite fmap_app, concat_app. Qed.

Lemma take_block_spec g b y :
  RecordsBlock.end_offset b = Ret y -> bytes_of (RecordsBlock.records b) < 2 ^ 32 ->
  exists bs, CacheStream.take_block g b =
    Ret (CacheStream.mk_reading y (CacheStream.next_batch_max_bytes g -
           Z.min (bytes_of (RecordsBlock.records b)) (CacheStream.next_batch_max_bytes g)) bs) /\
    records_of bs = records_of (CacheStream.blocks g) ++ RecordsBlock.records b.
Proof.
  intros Hy Hb. unfold CacheStream.take_block. rewrite Hy, block_size_bytes by done. simpl.
  eexists. split; [done|]. unfold CacheStream.push_block, RecordsBlock.is_empty. case_bool_decide as He.
  - by rewrite He, (right_id_L [] (++)).
  - rewrite records_of_app. unfold records_of at 2. simpl. by rewrite (right_id_L [] (++)).
Qed.

Lemma read_from_cache_spec c s e m bs now :
  caches_ok c -> 0 <= m ->
  exists c' g ra l, CacheStream.read_from_cache c (CacheStream.mk_reading s m bs) e now = Ret (c', g, ra) /\
    caches_ok c' /\ CacheStream.inflight_readahead c' = CacheStream.inflight_readahead c /\
    records_of (CacheStream.blocks g) = records_of bs ++ l /\ slice s l (CacheStream.next_start_offset g) /\
    CacheStream.next_batch_max_bytes g = m - Z.min (bytes_of l) m /\
    Forall (fun r => BlockRecord.start_offset r < e) l.
Proof.
  intros Hc Hm. unfold CacheStream.read_from_cache. simpl.
  destruct (hot_slice c s e m Hc Hm) as (b & y & -> & Hy & Hs & Hlt). rewrite bind_Ret.
  destruct (take_block_spec (CacheStream.mk_reading s m bs) b y Hy) as (bs1 & -> & Hbs1); [by eapply slice_bytes|].
  rewrite bind_Ret. simpl in *. pose proof (bytes_of_nonneg (RecordsBlock.records b)).
  case_match; [by eexists _, _, _, _; split; [done|split_and!]|].
  set (m1 := m - Z.min (bytes_of (RecordsBlock.records b)) m) in *.
  destruct (block_slice c y e m1 now Hc) as (cache & b2 & ra & w & -> & Hc' & Hw & Hs2 & Hlt2); [lia|].
  rewrite bind_Ret. destruct (take_block_spec (CacheStream.mk_reading y m1 bs1) b2 w Hw) as (bs2 & -> & Hbs2);
    [by eapply slice_bytes|]. rewrite bind_Ret. simpl in *. pose proof (bytes_of_nonneg (RecordsBlock.records b2)).
  eexists _, _, _, _. split; [done|]. split_and!; [done|done| | | |].
  - simpl. by rewrite Hbs2, Hbs1, <- (assoc_L (++)).
  - simpl. by eapply slice_app.
  - simpl. rewrite bytes_of_app. lia.
  - by apply Forall_app.
Qed.

(** *** The answer of the stream below: blocks that follow each other *)

Fixpoint chain (x : Z) (l : list RecordsBlock.t) (y : Z) : Prop :=
  match l with
  | [] => x = y
  | b :: l => exists w, RecordsBlock.empty_block_offset b = None /\ RecordsBlock.records b <> [] /\
      run x (RecordsBlock.records b) w /\ chain w l y
  end.

(** Every block but the last one is below the size. *)
Fixpoint fits (m : Z) (l : list RecordsBlock.t) : Prop :=
  match l with
  | b :: (_ :: _) as l => bytes_of (RecordsBlock.records b) < m /\ fits m l
  | _ => True
  end.

Lemma chain_run x l y : chain x l y -> run x (records_of l) y.
Proof.
  revert x. induction l as [|b l IH]; intros x; [done|]. intros (w & _ & _ & ? & ?%IH).
  unfold records_of. simpl. apply run_app. by exists w.
Qed.

Lemma block_end_run x b w :
  RecordsBlock.empty_block_offset b = None -> RecordsBlock.records b <> [] ->
  run x (RecordsBlock.records b) w -> RecordsBlock.end_offset b = Ret w.
Proof.
  intros He Hne Hr. rewrite <- (run_block_end x (RecordsBlock.records b) w) by done.
  unfold RecordsBlock.end_offset. by rewrite He.
Qed.

Lemma run_start_ge x l y e : run x l y -> Forall (fun r => BlockRecord.start_offset r < e) l -> e <= x -> l = [].
Proof. destruct l as [|r l]; [done|]. intros (? & _) [? _]%Forall_cons ?. lia. Qed.

Lemma last_end x l r w : run x l w -> last l = Some r -> BlockRecord.end_offset r = Ret w.
Proof.
  intros Hr Hl. destruct l as [|q l _] using rev_ind; [done|]. rewrite last_snoc in Hl. injection Hl as ->.
  by eapply run_last.
Qed.

(** What is taken of the blocks [l], from [x] to [y]: the first records, up to [w]. *)
Definition taken_of (l taken : list RecordsBlock.t) (x y e m w : Z) : Prop :=
  exists post, records_of l = records_of taken ++ post /\ run x (records_of taken) w /\
    Forall (fun r => BlockRecord.start_offset r < e) (records_of taken) /\
    (e <= w \/ m <= bytes_of (records_of taken) \/ w = y).

(** Of a block, all of the rest goes on in the blocks after it, when it is below the size. *)
Lemma taken_cons b l mid post taken x1 v w' y e m w :
  run x1 mid v -> run v post w' -> chain w' l y -> Forall (fun r => BlockRecord.start_offset r < e) mid ->
  (e <= v \/ m <= bytes_of mid \/ post = []) -> fits m (b :: l) -> bytes_of mid <= bytes_of (RecordsBlock.records b) ->
  taken_of l taken w' y e m w ->
  exists u post', mid ++ post ++ records_of l = (mid ++ records_of taken) ++ post' /\
    run x1 (mid ++ records_of taken) u /\ Forall (fun r => BlockRecord.start_offset r < e) (mid ++ records_of taken) /\
    (e <= u \/ m <= bytes_of (mid ++ records_of taken) \/ u = y).
Proof.
  intros Hmid Hpost Hl Hlt Hend Hfit Hle (q & Hq & Hrun & Hlt' & Hend').
  rewrite bytes_of_app. pose proof (bytes_of_nonneg mid).
  assert (post = [] \/ records_of taken = []) as [->|Hnil].
  { destruct Hend as [He|[Hm|?]]; [|destruct l as [|b' l]|by left].
    - right. eapply run_start_ge; [exact Hrun|done|]. apply run_le in Hpost. lia.
    - right. by destruct (records_of taken).
    - destruct Hfit as [? _]. lia. }
  - simpl in Hpost. subst v. exists w, q. split_and!; [by rewrite Hq, <- (assoc_L (++))|apply run_app; by exists w'|by apply Forall_app|lia].
  - rewrite Hnil in *. rewrite (right_id_L [] (++)). exists v, (post ++ records_of l). split_and!; try done.
    simpl. destruct Hend as [?|[?|Hp]]; [by left|right; left; lia|]. rewrite Hp in Hpost. simpl in Hpost, Hrun. subst v w'. simpl in Hend'. lia.
Qed.

Lemma take_loop_cons b l s e m mid w taken n :
  RecordsBlock.get_records b s e m = Ret mid -> mid <> [] ->
  (exists x v, run x mid v) -> RecordsBlock.end_offset b = Ret w ->
  CacheStream.take_loop l s e m = Ret (taken, n) ->
  exists n', CacheStream.take_loop (b :: l) s e m = Ret (RecordsBlock.new mid :: taken, n').
Proof.
  intros Hmid Hne (x & v & Hr) Hw Hl. simpl. rewrite Hmid, bind_Ret.
  destruct (last mid) as [r|] eqn:Hlast; [|by apply last_None in Hlast].
  rewrite (last_end _ _ _ _ Hr Hlast), Hw, Hl. simpl. by eexists.
Qed.

Lemma take_tail x l y s e m :
  chain x l y -> s <= x -> 0 < m -> fits m l ->
  exists taken n w, CacheStream.take_loop l s e m = Ret (taken, n) /\ taken_of l taken x y e m w.
Proof.
  revert x. induction l as [|b l IH]; intros x Hc Hs Hm Hf.
  { exists [], 0%nat, x. split; [done|]. exists []. simpl in Hc. split_and!; try done. by right; right. }
  destruct Hc as (w' & He & Hne & Hr & Hc).
  destruct (get_loop_rest x (RecordsBlock.records b) w' s e m)
    as (mid & v & Hget & (pre & post & Hb & Hpre & Hmid & Hpost & _ & Hlt & Hend) & Hnil); [done| |lia|].
  { intros r k Hk. rewrite Hk in Hr. destruct Hr. lia. }
  assert (pre = []) as ->.
  { destruct pre as [|r pre]; [done|]. simpl in Hpre. destruct Hpre as (_ & ? & _ & ?%run_le). lia. }
  destruct (decide (mid = [])) as [->|Hmne].
  { exists [], 0%nat, x. simpl. unfold RecordsBlock.get_records. rewrite Hget. split; [done|].
    exists (records_of (b :: l)). split_and!; try done. left. destruct (Z.le_gt_cases e x); [done|].
    by destruct Hnil. }
  destruct (IH w') as (taken & n & w & Hl & Htk); [done|apply run_le in Hr; lia|done|by destruct l; [|destruct Hf]|].
  destruct (take_loop_cons b l s e m mid w' taken n) as [n' Hn']; [done|done|eauto|by eapply block_end_run|done|].
  destruct (taken_cons b l mid post taken x v w' y e m w) as (u & q & Hq & Hu & Hlt' & Hend'); try done.
  { rewrite Hb. simpl. rewrite bytes_of_app. pose proof (bytes_of_nonneg post). lia. }
  exists (RecordsBlock.new mid :: taken), n', u. split; [done|]. exists q. split_and!; try done.
  unfold records_of at 1. simpl. rewrite Hb. simpl. by rewrite <- (assoc_L (++)).
Qed.

Lemma take_loop_spec x b l w' y s e m :
  chain x (b :: l) y -> run x (RecordsBlock.records b) w' -> x <= s < w' -> s < e -> 0 < m -> fits m (b :: l) ->
  Forall (fun r => r ∈ log) (records_of (b :: l)) ->
  exists taken n w, CacheStream.take_loop (b :: l) s e m = Ret (taken, n) /\ slice s (records_of taken) w /\
    Forall (fun r => BlockRecord.start_offset r < e) (records_of taken) /\
    (e <= w \/ m <= bytes_of (records_of taken) \/ w = y).
Proof.
  intros (w0 & He & Hne & Hr & Hc) Hr' Hs Hse Hm Hf Hin. assert (w0 = w') as -> by (by eapply run_fun). clear Hr'.
  destruct (get_loop_run x (RecordsBlock.records b) w' s e m)
    as (mid & x1 & v & Hget & (pre & post & Hb & Hpre & Hmid & Hpost & Hfirst & Hlt & Hend) & Hx1 & Hmne); [done..|].
  destruct (take_tail w' l y s e m) as (taken & n & w & Hl & Htk); [done|lia|done|by destruct l; [|destruct Hf]|].
  destruct (take_loop_cons b l s e m mid w' taken n) as [n' Hn']; [done|done|eauto|by eapply block_end_run|done|].
  destruct (taken_cons b l mid post taken x1 v w' y e m w) as (u & q & Hq & Hu & Hlt' & Hend'); try done.
  { rewrite Hb, !bytes_of_app. pose proof (bytes_of_nonneg pre). pose proof (bytes_of_nonneg post). lia. }
  exists (RecordsBlock.new mid :: taken), n', u. split; [done|]. change (records_of (RecordsBlock.new mid :: taken)) with (mid ++ records_of taken).
  split_and!; try done. destruct mid as [|r mid]; [done|]. apply (slice_intro _ x1); [done| |split; [lia|by eapply Hfirst]].
  assert (records_of (b :: l) = pre ++ ((r :: mid) ++ records_of taken) ++ q) as Heq.
  { rewrite <- Hq. unfold records_of at 1. simpl. rewrite Hb. by rewrite <- !(assoc_L (++)). }
  rewrite Heq in Hin. apply Forall_app in Hin as [_ Hin]. apply Forall_app in Hin as [Hin _]. done.
Qed.

Lemma read_from_stream_spec c s bs l0 nxt m1 e now x b l w' y :
  slice s l0 nxt -> records_of bs = l0 -> chain x (b :: l) y -> run x (RecordsBlock.records b) w' ->
  x <= nxt < w' -> nxt < e -> 0 < m1 -> fits m1 (b :: l) -> Forall (fun r => r ∈ log) (records_of (b :: l)) ->
  sizes_ok (CacheStream.block_cache c) -> Forall sized (b :: l) -> blocks_bytes (b :: l) < 2 ^ 32 ->
  0 <= ReadCache.max_cache_size (CacheStream.block_cache c) ->
  ReadCache.cache_size (CacheStream.block_cache c) + 2 ^ 32 < 2 ^ 64 ->
  Forall (fun r => BlockRecord.start_offset r < e) l0 ->
  exists c' bs' w, CacheStream.read_from_stream c (CacheStream.mk_reading nxt m1 bs) e now (Ok (Full (b :: l))) =
      Ret (c', Ok (Full bs')) /\
    slice s (records_of bs') w /\ Forall (fun r => BlockRecord.start_offset r < e) (records_of bs') /\
    (e <= w \/ bytes_of l0 + m1 <= bytes_of (records_of bs') \/ w = y).
Proof.
  intros Hs Hbs Hc Hr Hx He Hm Hf Hin Hsz Hszb Hbb Hmax H64 Hlt.
  destruct (take_loop_spec x b l w' y nxt e m1) as (taken & n & w & Htk & Hsl & Hlt' & Hend); try done.
  assert (slice s (records_of (bs ++ taken)) w) as Hsl'.
  { rewrite records_of_app, Hbs. by eapply slice_app. }
  assert (drop n (b :: l) `sublist_of` b :: l) as Hsub.
  { rewrite <- (take_drop n (b :: l)) at 2. by apply sublist_inserts_l. }
  destruct (cache_insert_ok (CacheStream.block_cache c) (CacheStream.stream_id c) (drop n (b :: l)) now)
    as (cache & Hins & _); [done|by eapply sized_sublist|pose proof (blocks_bytes_sublist _ _ Hsub); lia|done|done|].
  assert (exists c', CacheStream.read_from_stream c (CacheStream.mk_reading nxt m1 bs) e now (Ok (Full (b :: l))) =
      Ret (c', Ok (Full (bs ++ taken)))) as [c' Hc'].
  { unfold CacheStream.read_from_stream. simpl CacheStream.next_batch_max_bytes.
    simpl CacheStream.next_start_offset. rewrite Htk, bind_Ret.
    destruct (drop n (b :: l)) as [|b' l'] eqn:Hd; [by eexists|]. rewrite Hins, bind_Ret. by eexists. }
  exists c', (bs ++ taken), w. rewrite records_of_app, Hbs, bytes_of_app in *. split_and!; try done.
  - by apply Forall_app.
  - lia.
Qed.

(** C29: A fetch through the caches gives exactly the records of the log, which has less than
    4 GiB.  When the hot cache and the cache of blocks hold records of the log, a round of the fetch does not panic.
    Either it returns the records of the log from the one that holds the first offset asked
    for, without a gap, up to the end or the size asked for; or it waits, at most once, for
    the offset that is read ahead; or it asks the stream below.  When the answer is blocks of
    the log that follow each other from the first offset that was not cached, each but the
    last one below the size that is left ([fits]; a larger one can leave a gap, [fetch_gap]), the cached records and those of the answer are one
    part of the log: the records from the first offset on, up to the end or the size asked
    for or to the end of the answer. *)
Theorem fetch_exact c waited s e m stream_end now :
  caches_ok c -> 0 <= s < e -> e < 2 ^ 63 -> 0 < m < 2 ^ 31 ->
  exists c1 spawned next, CacheStream.fetch_round c waited s e m stream_end now = Ret (c1, spawned, next) /\
    caches_ok c1 /\
    match next with
    | CacheStream.FetchReturn res => exists bs y, res = Ok (Full bs) /\ slice s (records_of bs) y /\
        Forall (fun r => BlockRecord.start_offset r < e) (records_of bs) /\ (e <= y \/ m <= bytes_of (records_of bs))
    | CacheStream.FetchWait o => waited = false /\ o ∈ CacheStream.inflight_readahead c1
    | CacheStream.FetchStream g _ _ =>
        forall c2 x b l w y now', chain x (b :: l) y -> run x (RecordsBlock.records b) w ->
          x <= CacheStream.next_start_offset g < w -> fits (CacheStream.next_batch_max_bytes g) (b :: l) ->
          Forall (fun r => r ∈ log) (records_of (b :: l)) ->
          sizes_ok (CacheStream.block_cache c2) -> Forall sized (b :: l) -> blocks_bytes (b :: l) < 2 ^ 32 ->
          0 <= ReadCache.max_cache_size (CacheStream.block_cache c2) ->
          ReadCache.cache_size (CacheStream.block_cache c2) + 2 ^ 32 < 2 ^ 64 ->
          exists c3 bs u, CacheStream.read_from_stream c2 g e now' (Ok (Full (b :: l))) = Ret (c3, Ok (Full bs)) /\
            slice s (records_of bs) u /\ Forall (fun r => BlockRecord.start_offset r < e) (records_of bs) /\
            (e <= u \/ m <= bytes_of (records_of bs) \/ u = y)
    end.
Proof.
  intros Hc Hs He Hm. unfold CacheStream.fetch_round.
  destruct (read_from_cache_spec c s e m [] now) as (c1 & [nxt m1 bs] & ra & l & -> & Hc1 & _ & Hbs & Hsl & Hm1 & Hlt);
    [done|lia|]. simpl in Hbs, Hsl, Hm1. rewrite bind_Ret. pose proof (bytes_of_nonneg l).
  destruct (match ra with Some r => _ | None => _ end) as [c2 spawned] eqn:Hra.
  assert (caches_ok c2) as Hc2.
  { destruct ra as [r|]; [|by injection Hra as <- _]. unfold CacheStream.background_readahead in Hra.
    case_decide; injection Hra as <- _; done. }
  unfold CacheStream.fulfilled. simpl.
  destruct (Z.leb_spec e nxt); simpl; [|destruct (Z.eqb_spec m1 0); simpl].
  1,2: eexists _, _, _; split; [done|]; split; [done|]; exists bs, nxt; rewrite Hbs; split_and!; try done; lia.
  destruct (negb waited && _) eqn:Hw.
  { apply andb_true_iff in Hw as [Hw Hin]. eexists _, _, _. split; [done|]. split; [done|].
    split; [by destruct waited|by apply bool_decide_eq_true in Hin]. }
  assert (0 <= nxt) as Hnxt.
  { destruct l as [|r l]; simpl in Hsl; [lia|]. destruct Hsl as (? & ? & ? & _ & _ & (_ & ? & _ & ?%run_le) & _ & ?). lia. }
  rewrite uint_sub_Ret by lia. simpl. rewrite !uint_mul_Ret by lia. simpl. rewrite uint_add_Ret by lia. simpl.
  eexists _, _, _. split; [done|]. split; [done|]. intros c2' x b l' w y now' Hch Hr Hx Hf Hin Hsz Hszb Hbb Hmax H64.
  destruct (read_from_stream_spec c2' s bs l nxt m1 e now' x b l' w y) as (c3 & bs' & u & ? & ? & ? & ?); try done; [lia|].
  exists c3, bs', u. split_and!; try done. lia.
Qed.
End log.

(** A fetch skips records when the size cuts a block of the answer that is not the last
    one: the next block is cut again from the first offset asked for, and with the whole
    size.  Here the answer is two blocks that follow each other, and of the first one the
    size lets only the records [mid], up to [v], through: the fetch succeeds, and returns
    records from before [v] and from the second block on, but none at [v]. *)
Theorem fetch_gap {L : LruApi} {LL : LruLaws L} (c : CacheStream.t L) b1 b2 x w y s e m mid x1 v now :
  chain x [b1; b2] y -> run x (RecordsBlock.records b1) w ->
  RecordsBlock.get_records b1 s e m = Ret mid -> run x1 mid v -> mid <> [] -> v < w < e -> s <= w -> 0 < m ->
  sizes_ok (CacheStream.block_cache c) -> Forall sized [b1; b2] -> blocks_bytes [b1; b2] < 2 ^ 32 ->
  0 <= ReadCache.max_cache_size (CacheStream.block_cache c) ->
  ReadCache.cache_size (CacheStream.block_cache c) + 2 ^ 32 < 2 ^ 64 ->
  exists c' k r2 l2, CacheStream.read_from_stream c (CacheStream.mk_reading s m []) e now (Ok (Full [b1; b2])) =
      Ret (c', Ok (Full [RecordsBlock.new mid; RecordsBlock.new (r2 :: l2)])) /\
    RecordsBlock.records b2 = (r2 :: l2) ++ k /\ BlockRecord.start_offset r2 = w /\
    (forall a z, ~ run a (mid ++ r2 :: l2) z).
Proof.
  intros (w0 & He1 & Hne1 & Hr1 & w2 & He2 & Hne2 & Hr2 & <-) Hr Hget Hmid Hne Hv Hs Hm Hsz Hszb Hbb Hmax H64.
  assert (w0 = w) as -> by (by eapply run_fun). clear Hr.
  destruct (get_loop_rest w (RecordsBlock.records b2) w2 s e m)
    as (mid2 & v2 & Hget2 & (pre & post & Hb & Hpre & Hmid2 & _) & Hnil); [done| |lia|].
  { intros r k Hk. rewrite Hk in Hr2. destruct Hr2. lia. }
  assert (pre = []) as ->.
  { destruct pre as [|r pre]; [done|]. simpl in Hpre. destruct Hpre as (_ & ? & _ & ?%run_le). lia. }
  destruct mid2 as [|r2 l2]; [by destruct Hnil; [..|lia|lia|]|]. clear Hnil.
  destruct (take_loop_cons b2 [] s e m (r2 :: l2) w2 [] 0) as [n2 Hn2]; [done|done|eauto|by eapply block_end_run|done|].
  destruct (take_loop_cons b1 [b2] s e m mid w [RecordsBlock.new (r2 :: l2)] n2) as [n Hn];
    [done|done|eauto|by eapply block_end_run|done|].
  assert (drop n [b1; b2] `sublist_of` [b1; b2]) as Hsub.
  { rewrite <- (take_drop n [b1; b2]) at 2. by apply sublist_inserts_l. }
  destruct (cache_insert_ok (CacheStream.block_cache c) (CacheStream.stream_id c) (drop n [b1; b2]) now)
    as (cache & Hins & _); [done|by eapply sized_sublist|pose proof (blocks_bytes_sublist _ _ Hsub); lia|done|done|].
  assert (BlockRecord.start_offset r2 = w) as Hw by (by destruct Hmid2).
  assert (forall a z, ~ run a (mid ++ r2 :: l2) z) as Hgap.
  { intros a z (q & Hq & Hq' & _)%run_app. destruct mid as [|r mid]; [done|].
    assert (a = x1) as -> by (destruct Hq, Hmid; congruence). assert (q = v) by (by eapply run_fun). lia. }
  assert (exists c', CacheStream.read_from_stream c (CacheStream.mk_reading s m []) e now (Ok (Full [b1; b2])) =
      Ret (c', Ok (Full [RecordsBlock.new mid; RecordsBlock.new (r2 :: l2)]))) as [c' Hc'].
  { unfold CacheStream.read_from_stream. simpl CacheStream.next_batch_max_bytes.
    simpl CacheStream.next_start_offset. rewrite Hn, bind_Ret.
    destruct (drop n [b1; b2]) as [|b' l'] eqn:Hd; [by eexists|]. rewrite Hins, bind_Ret. by eexists. }
  exists c', post, r2, l2. by split_and!.
Qed.

(** A fetch of two gigabytes or more that the caches do not have panics: the size is
    doubled to read ahead. *)
Theorem fetch_size_overflows {L : LruApi} (c : CacheStream.t L) s e m stream_end now :
  HotCache.map (CacheStream.hot_cache c) !! (CacheStream.stream_id c, s) = None ->
  ReadCache.cache_map (CacheStream.block_cache c) !! CacheStream.stream_id c = None ->
  0 <= s < e -> e < 2 ^ 63 -> 2 ^ 31 <= m < 2 ^ 32 ->
  CacheStream.fetch_round c true s e m stream_end now = Panic.
Proof.
  intros Hhot Hblk Hs He Hm. unfold CacheStream.fetch_round, CacheStream.read_from_cache, HotCache.get_block. simpl.
  unfold HotCache.get_loop. rewrite (proj2 (Z.leb_gt e s)), (proj2 (Z.eqb_neq m 0)), Hhot by lia. simpl.
  unfold CacheStream.take_block, CacheStream.fulfilled. simpl. rewrite Z.min_l, Z.sub_0_r by lia.
  rewrite (proj2 (Z.leb_gt e s)), (proj2 (Z.eqb_neq m 0)) by lia. simpl.
  unfold ReadCache.get_block. rewrite Hblk. simpl. rewrite Z.min_l, Z.sub_0_r by lia.
  rewrite (proj2 (Z.leb_gt e s)), (proj2 (Z.eqb_neq m 0)) by lia. simpl.
  rewrite uint_sub_Ret by lia. simpl. rewrite (uint_mul_Ret 64) by lia. simpl. rewrite uint_add_Ret by lia. simpl.
  unfold uint_mul. by rewrite (proj2 (Z.ltb_ge _ _)) by lia.
Qed.

(** ** Witnesses *)

Module CacheStreamExample.
Import ReadCacheExample.
Definition log : list BlockRecord.t := [r 0; r 10; r 20; r 30].
Definition hot : HotCache.t := HotCache.mk 4096 6 {[ (7, 0) := r 0 ]} [(7, 0)].
Definition c : CacheStream.t list_lru := CacheStream.mk 7 hot c0 [].
Definition b1 : RecordsBlock.t := RecordsBlock.new [r 10; r 20].
Definition b2 : RecordsBlock.t := RecordsBlock.new [r 30].

Lemma run_log : run 0 log 40.
Proof. by vm_compute. Qed.

Lemma caches_c_ok : caches_ok 0 40 log c.
Proof.
  split_and!.
  - intros k q. simpl. by intros [<- <-]%lookup_singleton_Some.
  - intros o q. simpl. intros [_ <-]%lookup_singleton_Some. by left.
  - intros sc. simpl. by rewrite lookup_empty.
Qed.
Lemma c_sizes : sizes_ok (CacheStream.block_cache c).
Proof. split; simpl; [intros ? ?; by rewrite lookup_empty|done]. Qed.
Lemma blocks_sized : Forall sized [b1; b2].
Proof.
  constructor; [split; [by vm_compute|by exists 30]|]. constructor; [split; [by vm_compute|by exists 40]|constructor].
Qed.
Lemma blocks_chain : chain 10 [b1; b2] 40.
Proof. exists 30. split_and!; try by vm_compute. exists 40. split_and!; by vm_compute. Qed.
End CacheStreamExample.

Lemma fetch_exact_witness :
  exists c3 bs u,
    (forall g e' m', CacheStream.fetch_round CacheStreamExample.c false 0 40 1000 40 0 =
       Ret (CacheStreamExample.c, None, CacheStream.FetchStream g e' m') ->
     CacheStream.read_from_stream CacheStreamExample.c g 40 1 (Ok (Full [CacheStreamExample.b1; CacheStreamExample.b2])) =
       Ret (c3, Ok (Full bs))) /\
    slice 0 40 CacheStreamExample.log 0 (records_of bs) u /\
    (40 <= u \/ 1000 <= bytes_of (records_of bs) \/ u = 40).
Proof.
  destruct (fetch_exact 0 40 CacheStreamExample.log CacheStreamExample.run_log (eq_refl : (24 ?= 2 ^ 32) = Lt)
    CacheStreamExample.c false 0 40 1000 40 0 CacheStreamExample.caches_c_ok) as (c1 & sp & next & Hn & _ & H); [lia..|].
  assert (CacheStream.fetch_round CacheStreamExample.c false 0 40 1000 40 0 =
    Ret (CacheStreamExample.c, None,
      CacheStream.FetchStream (CacheStream.mk_reading 10 994 [RecordsBlock.new [ReadCacheExample.r 0]]) 40 1048576)) as Hr
    by by vm_compute.
  rewrite Hr in Hn. injection Hn as <- <- <-. rewrite Hr. clear Hr.
  destruct (H CacheStreamExample.c 10 CacheStreamExample.b1 [CacheStreamExample.b2] 30 40 1 CacheStreamExample.blocks_chain)
    as (c3 & bs & u & Hbs & Hs & _ & Hu).
  - by vm_compute.
  - simpl. lia.
  - by vm_compute.
  - apply Forall_forall. intros q Hq. unfold CacheStreamExample.log. vm_compute in Hq. vm_compute. set_solver.
  - exact CacheStreamExample.c_sizes.
  - exact CacheStreamExample.blocks_sized.
  - by vm_compute.
  - by vm_compute.
  - by vm_compute.
  - exists c3, bs, u. split; [|done]. intros g e' m' [= <- _ _]. exact Hbs.
Defined.

Lemma fetch_gap_witness :
  exists c' k r2 l2,
    CacheStream.read_from_stream CacheStreamExample.c (CacheStream.mk_reading 10 5 []) 40 0
        (Ok (Full [CacheStreamExample.b1; CacheStreamExample.b2])) =
      Ret (c', Ok (Full [RecordsBlock.new [ReadCacheExample.r 10]; RecordsBlock.new (r2 :: l2)])) /\
    RecordsBlock.records CacheStreamExample.b2 = (r2 :: l2) ++ k /\ BlockRecord.start_offset r2 = 30 /\
    (forall a z, ~ run a ([ReadCacheExample.r 10] ++ r2 :: l2) z).
Proof.
  apply (fetch_gap CacheStreamExample.c CacheStreamExample.b1 CacheStreamExample.b2 10 30 40 10 40 5
    [ReadCacheExample.r 10] 10 20 0 CacheStreamExample.blocks_chain); try lia.
  - by vm_compute.
  - by vm_compute.
  - by vm_compute.
  - done.
  - exact CacheStreamExample.c_sizes.
  - exact CacheStreamExample.blocks_sized.
  - by vm_compute.
  - by vm_compute.
  - by vm_compute.
Defined.

Lemma fetch_size_overflows_witness :
  CacheStream.fetch_round CacheStreamExample.c true 10 40 (2 ^ 31) 40 0 = Panic.
Proof. apply fetch_size_overflows; [by vm_compute..|lia|lia|lia]. Defined.
