(* ===== verification/ObjectStream.v ===== *)
(** * Reading from object storage

    [components/replication/src/stream/object_reader.rs] and [object_stream.rs]: what has
    been offloaded is read from the objects that hold it, and put before what the stream
    below still has.

    The operator of the object storage is a function from a key and a range of positions to
    the bytes there.  A fetch waits for the stream below and for the reads of objects; it is
    cut where it waits. *)

From S2P Require Import Prelude Bytes Collections Model Record RecordsBlock ReplicaCache Replication CacheStream.

(** ** [object_stream.rs]: the objects that are known *)

Module ObjectMetadataManager.
Record t := mk {
  metadata_map : @BTreeMap.t ObjectMetadata.t;  (* first offset -> object *)
  offset_to_position : @BTreeMap.t Z;           (* offset -> u32, a position in its object *)
}.

Definition new : t := mk [] [].

(** [entry(k).or_insert(v)] *)
Definition or_insert {V} (m : @BTreeMap.t V) (k : Z) (v : V) : @BTreeMap.t V :=
  match BTreeMap.get m k with Some _ => m | None => BTreeMap.insert m k v end.

Definition add_object_metadata (m : t) (metadata : ObjectMetadata.t) : t :=
  mk (or_insert (metadata_map m) (ObjectMetadata.start_offset metadata) metadata) (offset_to_position m).

Definition add_position_hint (m : t) (start_offset position : Z) : t :=
  mk (metadata_map m) (or_insert (offset_to_position m) start_offset position).

(** The hint for an offset, when it lies in the object. *)
Definition position_hint (m : t) (object : ObjectMetadata.t) (start_offset : Z) : option Z :=
  match BTreeMap.last_le (offset_to_position m) start_offset with
  | Some (offset, position) =>
      if ObjectMetadata.start_offset object <=? offset then Some position else None
  | None => None
  end.

Section find_first.
Context {B : BytesApi}.

Definition find_first (m : t) (start_offset : Z) (end_offset : option Z) (size_hint : Z)
    : outcome (option (ObjectMetadata.t * (Z * Z))) :=
  match BTreeMap.last_le (metadata_map m) start_offset with
  | None => Ret None
  | Some (_, object) =>
      object_end_offset ← u64_add (ObjectMetadata.start_offset object) (ObjectMetadata.end_offset_delta object);
      if object_end_offset <=? start_offset then Ret None
      else
      range ← ObjectMetadata.find_bound object start_offset end_offset size_hint
                (position_hint m object start_offset);
      match range with
      | Some range => Ret (Some (object, range))
      | None => Panic
      end
  end.
End find_first.
End ObjectMetadataManager.

(** ** [object_reader.rs] *)

(** [Operator::range_read]. *)
Class OperatorApi := { range_read : string -> Z -> Z -> option (list byte) }.

Module AsyncObjectReader.
Section reader.
Context {B : BytesApi} {M : MetaApi} {OP : OperatorApi}.

Definition parse_fail : EsError.t := EsError.new ErrorCode.OBJECT_PARSE_ERROR "parse block fail".

(** The loop of the task that [read0] spawns; the value is what it sends.  An iteration
    that goes on has moved the first position, and there is none behind [object_data_len]. *)
Fixpoint read_loop (fuel : nat) (object_key : string) (object_data_len : Z) (all_bytes : list byte)
    (start_pos end_pos : Z) : outcome (result (list RecordsBlock.t) EsError.t) :=
  match fuel with
  | O => Panic
  | S fuel =>
      if end_pos <=? start_pos then
        Ret (Err (EsError.unexpected "read to object end still cannot read a complete RecordBatch"))
      else
      match range_read object_key start_pos end_pos with
      | None => Ret (Err parse_fail)
      | Some read_bytes =>
          let bytes := all_bytes ++ read_bytes in
          rst ← RecordsBlock.parse bytes (1024 * 1024);
          match rst with
          | Ok [] =>
              n ← u64_add end_pos end_pos;
              n ← uint_sub n start_pos;
              read_loop fuel object_key object_data_len bytes end_pos (Z.min n object_data_len)
          | Ok blocks => Ret (Ok blocks)
          | Err _ => Ret (Err parse_fail)
          end
      end
  end.

Definition read0 (object_key : string) (range : Z * Z) (object_data_len : Z)
    : outcome (result (list RecordsBlock.t) EsError.t) :=
  read_loop (S (S (Z.to_nat (object_data_len - range.1)))) object_key object_data_len [] range.1 range.2.

(** [op] tells whether there is an operator. *)
Definition read (op : bool) (object : ObjectMetadata.t) (range : Z * Z)
    : outcome (result (list RecordsBlock.t) EsError.t) :=
  if negb op then Ret (Err (EsError.new ErrorCode.OBJECT_OPERATOR_UNINITIALIZED "Operator is not initialized"))
  else
  match ObjectMetadata.key object with
  | None => Panic
  | Some object_key => read0 object_key range (ObjectMetadata.data_len object)
  end.
End reader.
End AsyncObjectReader.

Module DefaultObjectReader.
Section reader.
Context {B : BytesApi}.

(** The loop that adds the position hints. *)
Fixpoint add_hints (m : ObjectMetadataManager.t) (object_end position : Z) (blocks : list RecordsBlock.t)
    : outcome ObjectMetadataManager.t :=
  match blocks with
  | [] => Ret m
  | block :: blocks =>
      end_offset ← RecordsBlock.end_offset block;
      let position := if end_offset =? object_end then 0 else position in
      let m := ObjectMetadataManager.add_position_hint m end_offset position in
      n ← RecordsBlock.size block;
      position ← u32_add position n;
      add_hints m object_end position blocks
  end.

(** [read_first_object_blocks] up to its wait: the object and what to read of it. *)
Definition read_first_start (m : ObjectMetadataManager.t) (start_offset : Z) (end_offset : option Z) (size_hint : Z)
    : outcome (result (ObjectMetadata.t * (Z * Z)) EsError.t) :=
  found ← ObjectMetadataManager.find_first m start_offset end_offset size_hint;
  match found with
  | None => Ret (Err (EsError.new ErrorCode.OBJECT_NOT_FOUND "Cannot find object for the range."))
  | Some (object, range) =>
      _ ← uint_sub range.2 range.1;
      Ret (Ok (object, range))
  end.

(** The first block is cut, and the last one if it is another one. *)
Definition trim_ends (start_offset : Z) (end_offset : option Z) (blocks : list RecordsBlock.t)
    : outcome (list RecordsBlock.t) :=
  match blocks with
  | [] => Ret []
  | first :: rest =>
      first ← RecordsBlock.trim first start_offset end_offset;
      match last rest with
      | None => Ret [first]
      | Some b =>
          b ← RecordsBlock.trim b start_offset end_offset;
          Ret (first :: removelast rest ++ [b])
      end
  end.

(** [read_first_object_blocks], when the object has been read. *)
Definition read_first_done (m : ObjectMetadataManager.t) (object : ObjectMetadata.t) (range : Z * Z)
    (start_offset : Z) (end_offset : option Z) (res : result (list RecordsBlock.t) EsError.t)
    : outcome (ObjectMetadataManager.t * result (list RecordsBlock.t) EsError.t) :=
  match res with
  | Err e => Ret (m, Err e)
  | Ok [] => Ret (m, Err (EsError.new ErrorCode.NO_MATCH_RECORDS_IN_OBJECT "Object reader return empty block"))
  | Ok blocks =>
      blocks ← trim_ends start_offset end_offset blocks;
      object_end ← u64_add (ObjectMetadata.start_offset object) (ObjectMetadata.end_offset_delta object);
      m ← add_hints m object_end range.1 blocks;
      Ret (m, Ok blocks)
  end.

(** The whole of it, when nothing else changes the hints while it waits. *)
Definition read_first_object_blocks {M : MetaApi} {OP : OperatorApi} (op : bool) (m : ObjectMetadataManager.t)
    (start_offset : Z) (end_offset : option Z) (size_hint : Z)
    : outcome (ObjectMetadataManager.t * result (list RecordsBlock.t) EsError.t) :=
  found ← read_first_start m start_offset end_offset size_hint;
  match found with
  | Err e => Ret (m, Err e)
  | Ok (object, range) =>
      res ← AsyncObjectReader.read op object range;
      read_first_done m object range start_offset end_offset res
  end.
End reader.
End DefaultObjectReader.

(** ** [object_stream.rs]: a fetch *)

Module ObjectStream.

Definition merge_blocks (blocks : list RecordsBlock.t) : outcome RecordsBlock.t :=
  match last blocks with
  | None => Ret (RecordsBlock.empty_block (2 ^ 64 - 1))
  | Some b =>
      end_offset ← RecordsBlock.end_offset b;
      let records := concat (RecordsBlock.records <$> blocks) in
      Ret (match records with
           | [] => RecordsBlock.empty_block end_offset
           | _ => RecordsBlock.new records
           end)
  end.

Fixpoint check_loop (expect_next_offset : option Z) (blocks : list RecordsBlock.t) : outcome (result unit EsError.t) :=
  match blocks with
  | [] => Ret (Ok tt)
  | block :: blocks =>
      if match expect_next_offset with Some next => negb (RecordsBlock.start_offset block =? next) | None => false end
      then Ret (Err (EsError.new ErrorCode.RECORDS_BLOCKS_NOT_CONTINUOUS "Blocks is not continuous"))
      else
      e ← RecordsBlock.end_offset block;
      check_loop (Some e) blocks
  end.

Definition check_records_sequence (blocks : list RecordsBlock.t) : outcome (result unit EsError.t) :=
  check_loop None blocks.

(** The variables of [fetch0]. *)
Record fetching := mk_fetching { start_offset : Z; remaining_size : Z; final_blocks : list RecordsBlock.t }.

(** What a fetch waits for: the stream below, or an object; or its result. *)
Inductive fetch_next :=
| AskStream (f : fetching)
| ReadObject (f : fetching) (records_block : RecordsBlock.t)
| Fetched (res : result FetchDataset EsError.t).

Definition fetch_start (start_offset batch_max_bytes : Z) : fetch_next :=
  AskStream (mk_fetching start_offset batch_max_bytes []).

(** The end of an iteration, when what the objects have to give is there. *)
Definition fetch_tail (f : fetching) (records_block : RecordsBlock.t) (end_offset : Z) : outcome fetch_next :=
  f ← (if RecordsBlock.start_offset records_block <=? start_offset f then
         b ← RecordsBlock.trim records_block (start_offset f) None;
         if RecordsBlock.is_empty b then Ret f
         else
         n ← RecordsBlock.size b;
         e ← RecordsBlock.end_offset b;
         Ret (mk_fetching e (remaining_size f - Z.min n (remaining_size f)) (final_blocks f ++ [b]))
       else Ret f);
  if (end_offset <=? start_offset f) || (remaining_size f =? 0) then
    res ← check_records_sequence (final_blocks f);
    Ret (Fetched (match res with Err e => Err e | Ok _ => Ok (Overflow (final_blocks f)) end))
  else Ret (AskStream f).

(** The head of the inner loop. *)
Definition fetch_inner (f : fetching) (records_block : RecordsBlock.t) (end_offset : Z) : outcome fetch_next :=
  if (RecordsBlock.start_offset records_block <=? start_offset f) || (remaining_size f =? 0) then
    fetch_tail f records_block end_offset
  else Ret (ReadObject f records_block).

(** The stream below has answered. *)
Definition stream_answered (m : ObjectMetadataManager.t) (f : fetching) (end_offset : Z) (res : result FetchDataset EsError.t)
    : outcome (ObjectMetadataManager.t * fetch_next) :=
  match res with
  | Err e => Ret (m, Fetched (Err e))
  | Ok dataset =>
      let '(records_blocks, objects) :=
        match dataset with
        | Full l | Partial l | Overflow l => (l, [])
        | Mixin l objects => (l, objects)
        end in
      let m := foldl ObjectMetadataManager.add_object_metadata m objects in
      records_block ← merge_blocks records_blocks;
      next ← fetch_inner f records_block end_offset;
      Ret (m, next)
  end.

(** Blocks of an object have been read. *)
Definition object_answered (f : fetching) (records_block : RecordsBlock.t) (end_offset : Z)
    (res : result (list RecordsBlock.t) EsError.t) : outcome fetch_next :=
  match res with
  | Err e => Ret (Fetched (Err e))
  | Ok object_blocks =>
      match last object_blocks with
      | None => Ret (Fetched (Err (EsError.new ErrorCode.NO_MATCH_RECORDS_IN_OBJECT "Object blocks is empty")))
      | Some b =>
          object_blocks_end_offset ← RecordsBlock.end_offset b;
          object_blocks_len ← ReadCache.total_size object_blocks;
          fetch_inner (mk_fetching object_blocks_end_offset
                         (remaining_size f - Z.min object_blocks_len (remaining_size f))
                         (final_blocks f ++ object_blocks)) records_block end_offset
      end
  end.

(** [fetch0], with the answers of the stream below and the reads of objects; every one of
    them takes one of the fuel. *)
Fixpoint fetch_run (ask : Z -> Z -> Z -> result FetchDataset EsError.t)
    (read : ObjectMetadataManager.t -> Z -> Z -> outcome (ObjectMetadataManager.t * result (list RecordsBlock.t) EsError.t))
    (fuel : nat) (m : ObjectMetadataManager.t) (end_offset : Z) (next : fetch_next)
    : outcome (ObjectMetadataManager.t * result FetchDataset EsError.t) :=
  match next with
  | Fetched res => Ret (m, res)
  | AskStream f =>
      match fuel with
      | O => Panic
      | S fuel =>
          '(m, next) ← stream_answered m f end_offset (ask (start_offset f) end_offset (remaining_size f));
          fetch_run ask read fuel m end_offset next
      end
  | ReadObject f b =>
      match fuel with
      | O => Panic
      | S fuel =>
          '(m, res) ← read m (start_offset f) (remaining_size f);
          next ← object_answered f b end_offset res;
          fetch_run ask read fuel m end_offset next
      end
  end.
End ObjectStream.

(** ** The reader ends *)

Section reading.
Context {B : BytesApi} {M : MetaApi} {OP : OperatorApi}.

Lemma read_loop_fuel fuel k key data_len bytes s e :
  (Z.to_nat (data_len - s) + 2 <= fuel)%nat ->
  AsyncObjectReader.read_loop (fuel + k) key data_len bytes s e =
    AsyncObjectReader.read_loop fuel key data_len bytes s e.
Proof.
  revert bytes s e. induction fuel as [|fuel IH]; intros bytes s e Hf; [lia|]. simpl.
  destruct (Z.leb_spec e s) as [|He]; [done|]. destruct (range_read key s e) as [b|]; [|done].
  destruct (RecordsBlock.parse _ _) as [[[|b0 l]|err]|]; try done. simpl.
  destruct (u64_add e e) as [n|]; [|done]. simpl. destruct (uint_sub n s) as [n'|]; [|done]. simpl.
  destruct (Z.lt_ge_cases e data_len) as [Hlt|Hge]; [apply IH; lia|].
  destruct fuel as [|fuel]; [lia|]. simpl. by rewrite (proj2 (Z.leb_le _ _)) by lia.
Qed.

(** Reading an object ends, whatever the storage answers: the fuel of [read0] is enough, more
    of it does not change the result. *)
Theorem object_read_terminates key range data_len k :
  AsyncObjectReader.read_loop (S (S (Z.to_nat (data_len - range.1))) + k) key data_len [] range.1 range.2 =
    AsyncObjectReader.read0 key range data_len.
Proof. apply read_loop_fuel. lia. Qed.
End reading.

(** ** What is read *)

Lemma chain_of_run x l y :
  Forall (fun b => RecordsBlock.records b <> [] /\ RecordsBlock.empty_block_offset b = None) l ->
  run x (records_of l) y -> chain x l y.
Proof.
  revert x. induction l as [|b l IH]; intros x Hl Hr; [done|].
  apply Forall_cons in Hl as [[Hne He] Hl]. unfold records_of in Hr. simpl in Hr.
  apply run_app in Hr as (w & Hb & Hr). exists w. split_and!; try done. by apply IH.
Qed.

Lemma check_chain_start x b l y : chain x (b :: l) y -> RecordsBlock.start_offset b = x.
Proof.
  intros (w & He & Hne & Hr & _). unfold RecordsBlock.start_offset. rewrite He.
  destruct (RecordsBlock.records b) as [|r k]; [done|]. by destruct Hr.
Qed.

Lemma check_chain_app x l k y : chain x (l ++ k) y <-> exists w, chain x l w /\ chain w k y.
Proof.
  revert x. induction l as [|b l IH]; intros x; simpl; [naive_solver|]. setoid_rewrite IH. naive_solver.
Qed.

Lemma chain_last x l b y : chain x l y -> last l = Some b -> RecordsBlock.end_offset b = Ret y.
Proof.
  intros Hc Hl. destruct l as [|b' l _] using rev_ind; [done|]. rewrite last_snoc in Hl. injection Hl as ->.
  apply check_chain_app in Hc as (w & _ & w' & He & Hne & Hr & <-). by eapply block_end_run.
Qed.

Lemma chain_nonempty x b l y : chain x (b :: l) y -> x < y.
Proof.
  intros (w & _ & Hne & Hr & Hc%chain_run%run_le). destruct (RecordsBlock.records b) as [|r k]; [done|].
  destruct Hr as (_ & ? & _ & ?%run_le). lia.
Qed.

Lemma records_of_cons b l : records_of (b :: l) = RecordsBlock.records b ++ records_of l.
Proof. done. Qed.

Lemma retain_all x l y s : run x l y -> s <= x -> RecordsBlock.retain l s None = Ret l.
Proof.
  revert x. induction l as [|r l IH]; intros x; [done|]. simpl. intros (Hst & Hd & H64 & Hr) Hs.
  unfold BlockRecord.end_offset. rewrite Hst, uint_add_Ret by done. simpl. rewrite (IH _ Hr) by lia. simpl.
  by rewrite (proj2 (Z.ltb_lt _ _)) by lia.
Qed.

(** A sum of sizes. *)
Lemma total_size_of x l y :
  chain x l y -> bytes_of (records_of l) < 2 ^ 32 -> ReadCache.total_size l = Ret (bytes_of (records_of l)).
Proof.
  intros Hc Hb. assert (ReadCache.block_sizes l = Ret ((fun b => bytes_of (RecordsBlock.records b)) <$> l)) as Hs.
  { revert x Hc. induction l as [|b l IH]; intros x; [done|]. intros (w & _ & _ & _ & Hc). simpl.
    rewrite records_of_cons, bytes_of_app in Hb. pose proof (bytes_of_nonneg (RecordsBlock.records b)).
    pose proof (bytes_of_nonneg (records_of l)). rewrite block_size_bytes by lia. simpl. by erewrite IH by (done || lia). }
  unfold ReadCache.total_size. rewrite Hs. simpl. clear Hs Hc.
  assert (forall acc, 0 <= acc -> acc + bytes_of (records_of l) < 2 ^ 32 ->
    RecordsBlock.sum_u32 acc ((fun b => bytes_of (RecordsBlock.records b)) <$> l) = Ret (acc + bytes_of (records_of l))) as Hsum.
  { clear Hb. induction l as [|b l IH]; intros acc Hacc Hlt; [by simpl; rewrite Z.add_0_r|].
    rewrite records_of_cons, bytes_of_app in *. pose proof (bytes_of_nonneg (RecordsBlock.records b)).
    pose proof (bytes_of_nonneg (records_of l)). simpl. rewrite uint_add_Ret by lia. simpl. rewrite IH by lia. f_equal. lia. }
  by rewrite Hsum by lia.
Qed.

(** *** One object *)

Section object.
Context {B : BytesApi} {BL : BytesLaws B} {M : MetaApi} {OP : OperatorApi}.

(** An object as the offload commits it: its data are the batches [l] of its offsets, its
    sparse index is empty. *)
Record object_of (o : ObjectMetadata.t) (l : list wire) : Prop := {
  object_wires : Forall wire_ok l;
  object_some : l <> [];
  object_run : run (ObjectMetadata.start_offset o) (wire_record <$> l)
    (ObjectMetadata.start_offset o + ObjectMetadata.end_offset_delta o);
  object_end : ObjectMetadata.start_offset o + ObjectMetadata.end_offset_delta o < 2 ^ 64;
  object_len : ObjectMetadata.data_len o = remaining (wires l);
  object_u32 : remaining (wires l) < 2 ^ 32;
  object_index : ObjectMetadata.sparse_index o = [];
  object_stored : exists key, ObjectMetadata.key o = Some key /\
    range_read key 0 (remaining (wires l)) = Some (wires l);
}.

Definition blocks_of (l : list wire) : list RecordsBlock.t := group (1024 * 1024) [] 0 (wire_record <$> l).

Lemma blocks_of_records l : records_of (blocks_of l) = wire_record <$> l.
Proof. apply group_concat. Qed.

Lemma blocks_of_cons l : l <> [] -> exists b k, blocks_of l = b :: k.
Proof.
  intros Hl. pose proof (blocks_of_records l) as Hr. destruct (blocks_of l) as [|b k]; [|by eexists _, _].
  by destruct l.
Qed.

Lemma blocks_of_chain x l y : run x (wire_record <$> l) y -> chain x (blocks_of l) y.
Proof.
  intros Hr. apply chain_of_run; [|by rewrite blocks_of_records].
  by apply group_nonempty; [lia|].
Qed.

Lemma wires_bytes l : Forall wire_ok l -> bytes_of (wire_record <$> l) = remaining (wires l).
Proof.
  induction 1 as [|w l Hw _ IH]; [done|].
  change (bytes_of (wire_record <$> w :: l)) with (BlockRecord.size (wire_record w) + bytes_of (wire_record <$> l)).
  rewrite wire_record_size, IH by done.
  change (wires (w :: l)) with (wire_bytes w ++ wires l). by rewrite remaining_app.
Qed.

Lemma wires_pos l : Forall wire_ok l -> l <> [] -> 0 < remaining (wires l).
Proof.
  intros Hl Hne. destruct l as [|w l]; [done|]. change (wires (w :: l)) with (wire_bytes w ++ wires l).
  rewrite remaining_app, remaining_wire.
  pose proof (remaining_nonneg (wmeta w)). pose proof (remaining_nonneg (wpayload w)).
  pose proof (remaining_nonneg (wires l)). lia.
Qed.

Lemma read_whole o l :
  object_of o l -> AsyncObjectReader.read true o (0, ObjectMetadata.data_len o) = Ret (Ok (blocks_of l)).
Proof.
  intros [Hw Hne _ _ Hlen H32 _ (key & Hkey & Hread)]. unfold AsyncObjectReader.read, AsyncObjectReader.read0.
  rewrite Hkey, Hlen. cbn [negb fst snd]. pose proof (wires_pos l Hw Hne). simpl.
  rewrite (proj2 (Z.leb_gt _ _)), Hread by done. cbn [app].
  pose proof (parse_group (1024 * 1024) l [] Hw) as Hp. rewrite app_nil_r in Hp.
  rewrite Hp by (try (by left); lia). simpl. fold (blocks_of l).
  by destruct (blocks_of_cons l Hne) as (b & k & ->).
Qed.

(** Without a hint, with the hint 0, and at the first offset of the object, all of it is read. *)
Lemma find_whole m k o l s size :
  object_of o l -> BTreeMap.last_le (ObjectMetadataManager.metadata_map m) s = Some (k, o) ->
  ObjectMetadata.start_offset o <= s < ObjectMetadata.start_offset o + ObjectMetadata.end_offset_delta o ->
  ObjectMetadataManager.position_hint m o s ∈ [None; Some 0] \/ s = ObjectMetadata.start_offset o ->
  ObjectMetadataManager.find_first m s None size = Ret (Some (o, (0, ObjectMetadata.data_len o))).
Proof.
  intros [_ _ _ Hend _ _ Hidx _] Hk Hs Hhint. unfold ObjectMetadataManager.find_first. rewrite Hk.
  rewrite uint_add_Ret by done. simpl. rewrite (proj2 (Z.leb_gt _ _)) by lia.
  unfold ObjectMetadata.find_bound. rewrite uint_add_Ret by done. simpl. rewrite (proj2 (Z.leb_gt _ _)) by lia.
  rewrite Hidx. destruct Hhint as [[->|[->|?%not_elem_of_nil]%elem_of_cons]%elem_of_cons| ->]; try done.
  - simpl. by destruct (s =? _).
  - simpl. by destruct (s =? _).
  - by rewrite Z.eqb_refl.
Qed.

(** Adding the hints does not fail, and leaves the objects alone. *)
Definition has_end (b : RecordsBlock.t) : Prop := exists e, RecordsBlock.end_offset b = Ret e.

Lemma chain_has_end x l y : chain x l y -> Forall has_end l.
Proof.
  revert x. induction l as [|b l IH]; intros x; [done|]. intros (w & ? & ? & ? & ?). constructor; [|eauto].
  exists w. by eapply block_end_run.
Qed.

Lemma add_hints_Ret m oe p bs :
  Forall has_end bs -> 0 <= p -> p + bytes_of (records_of bs) < 2 ^ 32 ->
  exists m', DefaultObjectReader.add_hints m oe p bs = Ret m' /\
    ObjectMetadataManager.metadata_map m' = ObjectMetadataManager.metadata_map m.
Proof.
  intros Hb. revert m p. induction Hb as [|b bs [w Hw] _ IH]; intros m p Hp Hlt; [by eexists|].
  rewrite records_of_cons, bytes_of_app in Hlt.
  pose proof (bytes_of_nonneg (RecordsBlock.records b)). pose proof (bytes_of_nonneg (records_of bs)).
  simpl. rewrite Hw. simpl. rewrite block_size_bytes by lia. simpl.
  rewrite uint_add_Ret by (case_match; lia). simpl.
  destruct (IH (ObjectMetadataManager.add_position_hint m w (if w =? oe then 0 else p))
    ((if w =? oe then 0 else p) + bytes_of (RecordsBlock.records b))) as (m' & -> & Hm');
    [case_match; lia..|]. by exists m'.
Qed.

Lemma snoc_removelast {A} (l : list A) (a : A) : last l = Some a -> removelast l ++ [a] = l.
Proof.
  destruct l as [|x l _] using rev_ind; [done|]. rewrite last_snoc. intros [= ->]. by rewrite removelast_last.
Qed.

(** The first block holds the first offset asked for: of it the records from that offset on
    are kept, of the others all. *)
Lemma trim_ends_first x b k y w s :
  chain x (b :: k) y -> run x (RecordsBlock.records b) w -> x <= s < w ->
  exists b' x', DefaultObjectReader.trim_ends s None (b :: k) = Ret (b' :: k) /\ chain x' (b' :: k) y /\
    (exists pre, RecordsBlock.records b = pre ++ RecordsBlock.records b') /\
    (exists r q, RecordsBlock.records b' = r :: q /\ x' <= s < x' + BlockRecord.end_offset_delta r).
Proof.
  intros (w' & He & Hne & Hr & Hc) Hr' Hs. assert (w' = w) as -> by (by eapply run_fun). clear Hr'.
  destruct (retain_run x (RecordsBlock.records b) w s Hr) as (pre & mid & x' & Hret & Heq & Hpre & Hmid & Hx' & Hf).
  destruct mid as [|r q]; [simpl in Hmid; subst x'; destruct Hx' as [->|]; [simpl in Hpre; lia|lia]|].
  exists (RecordsBlock.mk (r :: q) None), x'.
  assert (chain x' (RecordsBlock.mk (r :: q) None :: k) y) as Hc' by (exists w; by split_and!).
  split; [|split; [done|]].
  - assert (RecordsBlock.trim b s None = Ret (RecordsBlock.mk (r :: q) None)) as Ht
      by (unfold RecordsBlock.trim; by rewrite Hret, He).
    unfold DefaultObjectReader.trim_ends. rewrite Ht, bind_Ret.
    destruct (last k) as [b2|] eqn:Hl; [|by apply last_None in Hl as ->].
    assert (RecordsBlock.trim b2 s None = Ret b2) as ->.
    { rewrite <- (snoc_removelast k b2 Hl) in Hc. apply check_chain_app in Hc as (v & Hv & w2 & He2 & _ & Hr2 & _).
      unfold RecordsBlock.trim. apply chain_run, run_le in Hv. rewrite (retain_all _ _ _ _ Hr2) by lia. simpl. by destruct b2. }
    rewrite bind_Ret. by rewrite snoc_removelast.
  - split; [by eexists|]. exists r, q. split; [done|]. split; [|by eapply Hf].
    destruct Hx' as [->|]; [simpl in Hpre; lia|done].
Qed.

Lemma read_object_first m k o l b bs w s size :
  object_of o l -> BTreeMap.last_le (ObjectMetadataManager.metadata_map m) s = Some (k, o) ->
  ObjectMetadataManager.position_hint m o s ∈ [None; Some 0] \/ s = ObjectMetadata.start_offset o ->
  blocks_of l = b :: bs -> run (ObjectMetadata.start_offset o) (RecordsBlock.records b) w ->
  ObjectMetadata.start_offset o <= s < w ->
  exists m' b' x, DefaultObjectReader.read_first_object_blocks true m s None size = Ret (m', Ok (b' :: bs)) /\
    ObjectMetadataManager.metadata_map m' = ObjectMetadataManager.metadata_map m /\
    DefaultObjectReader.add_hints m (ObjectMetadata.start_offset o + ObjectMetadata.end_offset_delta o) 0 (b' :: bs) = Ret m' /\
    chain x (b' :: bs) (ObjectMetadata.start_offset o + ObjectMetadata.end_offset_delta o) /\
    (exists pre, RecordsBlock.records b = pre ++ RecordsBlock.records b') /\
    (exists r q, RecordsBlock.records b' = r :: q /\ x <= s < x + BlockRecord.end_offset_delta r).
Proof.
  intros Ho Hk Hhint Hbs Hr Hs. pose proof (blocks_of_chain _ _ _ (object_run _ _ Ho)) as Hc. rewrite Hbs in Hc.
  assert (w <= ObjectMetadata.start_offset o + ObjectMetadata.end_offset_delta o) as Hw.
  { destruct Hc as (w' & _ & _ & Hr' & Hc%chain_run%run_le). by rewrite (run_fun _ _ _ _ Hr Hr'). }
  unfold DefaultObjectReader.read_first_object_blocks, DefaultObjectReader.read_first_start.
  rewrite (find_whole m k o l) by (done || lia). simpl. rewrite uint_sub_Ret.
  2:{ rewrite (object_len _ _ Ho). pose proof (remaining_nonneg (wires l)). lia. }
  simpl. rewrite (read_whole o l Ho), Hbs. cbn [mbind outcome_bind]. rewrite ?bind_Ret. unfold DefaultObjectReader.read_first_done.
  destruct (trim_ends_first _ b bs _ w s Hc Hr Hs) as (b' & x & -> & Hc' & [pre Hpre] & Hx). rewrite bind_Ret.
  rewrite uint_add_Ret, bind_Ret by apply Ho.
  destruct (add_hints_Ret m (ObjectMetadata.start_offset o + ObjectMetadata.end_offset_delta o) 0 (b' :: bs))
    as (m' & Hm' & Hmm); [by eapply chain_has_end|lia| |].
  { pose proof (object_u32 _ _ Ho) as H32. rewrite <- wires_bytes, <- blocks_of_records, Hbs in H32 by apply Ho.
    rewrite records_of_cons, Hpre, !bytes_of_app in H32. rewrite records_of_cons, bytes_of_app.
    pose proof (bytes_of_nonneg pre). lia. }
  cbn [fst]. rewrite Hm', bind_Ret. exists m', b', x. split_and!; try done. by exists pre.
Qed.

(** The first block ends before the first offset asked for: it is cut to nothing, and takes
    the offset 0. *)
Lemma trim_ends_middle x b k y w s :
  chain x (b :: k) y -> run x (RecordsBlock.records b) w -> 0 <= x -> w <= s < y ->
  exists c rest, DefaultObjectReader.trim_ends s None (b :: k) = Ret (RecordsBlock.mk [] None :: c :: rest) /\
    0 < RecordsBlock.start_offset c /\ Forall has_end (c :: rest) /\
    (exists b2, last (c :: rest) = Some b2 /\ RecordsBlock.end_offset b2 = Ret y) /\
    bytes_of (records_of (c :: rest)) <= bytes_of (records_of k).
Proof.
  intros Hc Hr Hx Hs. pose proof Hc as (w' & He & Hne & Hr' & Hk). assert (w' = w) as -> by (by eapply run_fun). clear Hr'.
  assert (x < w) by (apply (chain_nonempty x b []); by exists w).
  assert (RecordsBlock.trim b s None = Ret (RecordsBlock.mk [] None)) as Ht.
  { unfold RecordsBlock.trim. rewrite He.
    destruct (retain_run x (RecordsBlock.records b) w s Hr) as (pre & mid & x' & -> & _ & _ & Hmid & _ & Hf).
    destruct mid as [|r q]; [done|]. specialize (Hf r q eq_refl). destruct Hmid as (_ & _ & _ & ?%run_le). lia. }
  unfold DefaultObjectReader.trim_ends. rewrite Ht, bind_Ret.
  destruct (last k) as [b2|] eqn:Hl; [|apply last_None in Hl as ->; simpl in Hk; lia].
  pose proof (snoc_removelast k b2 Hl) as Hsn. set (init := removelast k) in *. clearbody init. subst k. clear Hl.
  apply check_chain_app in Hk as (v & Hv & y' & He2 & Hne2 & Hr2 & Hy). simpl in Hy. subst y.
  destruct (retain_run v (RecordsBlock.records b2) y' s Hr2) as (pre & mid & x' & Hret & Heq & Hpre & Hmid & Hx' & _).
  assert (mid <> []) as Hmne.
  { intros ->. simpl in Hmid. subst x'. destruct Hx' as [->|]; [|lia]. simpl in Heq. done. }
  unfold RecordsBlock.trim at 1. rewrite Hret, bind_Ret, He2, bind_Ret.
  assert (RecordsBlock.end_offset (RecordsBlock.mk mid None) = Ret y') as Hend.
  { by eapply (block_end_run x'). }
  assert (exists c rest, init ++ [RecordsBlock.mk mid None] = c :: rest /\ 0 < RecordsBlock.start_offset c) as (c & rest & Hcr & Hpos).
  { pose proof (run_le _ _ _ (chain_run _ _ _ Hv)) as Hvle. destruct init as [|c rest].
    - eexists _, _. split; [done|]. unfold RecordsBlock.start_offset. simpl. destruct mid as [|r q]; [done|].
      destruct Hmid as (-> & _). apply run_le in Hpre. lia.
    - eexists _, _. split; [done|]. rewrite (check_chain_start _ _ _ _ Hv). lia. }
  exists c, rest. rewrite <- Hcr. split; [done|]. split; [done|]. split; [|split].
  - apply Forall_app. split; [by eapply chain_has_end|]. repeat constructor. by exists y'.
  - exists (RecordsBlock.mk mid None). by rewrite last_snoc.
  - rewrite !records_of_app, !bytes_of_app. unfold records_of at 2 4. simpl.
    rewrite !app_nil_r, Heq, bytes_of_app. pose proof (bytes_of_nonneg pre). lia.
Qed.

(** A list of blocks that begins so never passes the check at the end of a fetch. *)
Lemma check_empty_first c rest : 0 < RecordsBlock.start_offset c ->
  exists e, ObjectStream.check_records_sequence (RecordsBlock.mk [] None :: c :: rest) = Ret (Err e) /\
    EsError.code e = ErrorCode.RECORDS_BLOCKS_NOT_CONTINUOUS.
Proof.
  intros Hc. unfold ObjectStream.check_records_sequence. simpl.
  rewrite (proj2 (Z.eqb_neq _ _)) by lia. simpl. by eexists.
Qed.

Definition spoilt (f : ObjectStream.fetching) : Prop :=
  exists c rest, ObjectStream.final_blocks f = RecordsBlock.mk [] None :: c :: rest /\ 0 < RecordsBlock.start_offset c.
Definition spoilt_next (n : ObjectStream.fetch_next) : Prop :=
  match n with
  | ObjectStream.AskStream f | ObjectStream.ReadObject f _ => spoilt f
  | ObjectStream.Fetched res => exists e, res = Err e
  end.

Lemma spoilt_tail f b e n : spoilt f -> ObjectStream.fetch_tail f b e = Ret n -> spoilt_next n.
Proof.
  intros (c & rest & Hf & Hc). unfold ObjectStream.fetch_tail. intros (f' & Hf' & Hn)%bind_Ret_inv.
  assert (spoilt f') as (c' & rest' & Hfin & Hc').
  { destruct (_ <=? _); [|injection Hf' as <-; by exists c, rest].
    apply bind_Ret_inv in Hf' as (b' & _ & Hf'). destruct (RecordsBlock.is_empty b'); [injection Hf' as <-; by exists c, rest|].
    apply bind_Ret_inv in Hf' as (? & _ & Hf'). apply bind_Ret_inv in Hf' as (? & _ & [= <-]).
    exists c, (rest ++ [b']). simpl. by rewrite Hf. }
  destruct (_ || _); [|injection Hn as <-; by exists c', rest'].
  destruct (check_empty_first c' rest' Hc') as (err & Hck & _). rewrite Hfin, Hck in Hn. simpl in Hn.
  injection Hn as <-. by eexists.
Qed.

Lemma spoilt_inner f b e n : spoilt f -> ObjectStream.fetch_inner f b e = Ret n -> spoilt_next n.
Proof.
  intros Hf. unfold ObjectStream.fetch_inner. destruct (_ || _); [by apply spoilt_tail|]. by intros [= <-].
Qed.

Lemma spoilt_run ask read fuel m e n m' ds :
  spoilt_next n -> ObjectStream.fetch_run ask read fuel m e n <> Ret (m', Ok ds).
Proof.
  revert m n. induction fuel as [|fuel IH]; intros m n Hn Hr; destruct n as [f|f b|res]; simpl in Hr; try done.
  1,4: by destruct Hn as [? ->].
  - apply bind_Ret_inv in Hr as ([m1 n1] & Hs & Hr). revert Hr. apply IH. unfold ObjectStream.stream_answered in Hs.
    destruct (ask _ _ _) as [ds'|err]; [|injection Hs as <- <-; by eexists].
    destruct (match ds' with Full l => _ | _ => _ end) as [l objects].
    apply bind_Ret_inv in Hs as (b & _ & Hs). apply bind_Ret_inv in Hs as (n2 & Hn2 & [= <- <-]).
    by eapply spoilt_inner.
  - apply bind_Ret_inv in Hr as ([m1 res] & _ & Hr). apply bind_Ret_inv in Hr as (n1 & Hs & Hr). revert Hr. apply IH.
    unfold ObjectStream.object_answered in Hs. destruct res as [bs|err]; [|injection Hs as <-; by eexists].
    destruct (last bs); [|injection Hs as <-; by eexists].
    apply bind_Ret_inv in Hs as (? & _ & Hs). apply bind_Ret_inv in Hs as (? & _ & Hs).
    eapply spoilt_inner; [|done]. destruct Hn as (c & rest & Hf & Hc). exists c, (rest ++ bs). simpl. by rewrite Hf.
Qed.

(** Of an object, only what lies in the first block of its data can be read from.  When
    the first block, of about one mebibyte, ends at or before the first offset asked for, all
    of the object is read, the first block is cut to nothing and counts as a block at
    offset 0, and the fetch fails its own check, whatever the stream below and the objects
    answer from then on: it never returns data. *)
Theorem object_middle_unreadable m k o l b bs w s size :
  object_of o l -> BTreeMap.last_le (ObjectMetadataManager.metadata_map m) s = Some (k, o) ->
  ObjectMetadataManager.position_hint m o s = None -> 0 <= ObjectMetadata.start_offset o ->
  blocks_of l = b :: bs -> run (ObjectMetadata.start_offset o) (RecordsBlock.records b) w ->
  w <= s < ObjectMetadata.start_offset o + ObjectMetadata.end_offset_delta o ->
  exists m' blocks, DefaultObjectReader.read_first_object_blocks true m s None size = Ret (m', Ok blocks) /\
    forall ask read fuel m0 q e n next ds m1,
      ObjectStream.object_answered (ObjectStream.mk_fetching s n []) q e (Ok blocks) = Ret next ->
      ObjectStream.fetch_run ask read fuel m0 e next <> Ret (m1, Ok ds).
Proof.
  intros Ho Hk Hhint Hpos Hbs Hr Hs. pose proof (blocks_of_chain _ _ _ (object_run _ _ Ho)) as Hc. rewrite Hbs in Hc.
  pose proof (run_le _ _ _ Hr).
  unfold DefaultObjectReader.read_first_object_blocks, DefaultObjectReader.read_first_start.
  rewrite (find_whole m k o l) by (done || lia || (rewrite Hhint; left; apply list_elem_of_here)). simpl. rewrite uint_sub_Ret.
  2:{ rewrite (object_len _ _ Ho). pose proof (remaining_nonneg (wires l)). lia. }
  simpl. rewrite (read_whole o l Ho), Hbs, ?bind_Ret. unfold DefaultObjectReader.read_first_done.
  destruct (trim_ends_middle _ b bs _ w s Hc Hr Hpos Hs) as (c & rest & -> & Hc0 & Hends & _ & Hsize).
  rewrite bind_Ret, uint_add_Ret, bind_Ret by apply Ho.
  destruct (add_hints_Ret m (ObjectMetadata.start_offset o + ObjectMetadata.end_offset_delta o) 0
    (RecordsBlock.mk [] None :: c :: rest)) as (m' & Hm' & _); [constructor; [by exists 0|done]|lia| |].
  { pose proof (object_u32 _ _ Ho) as H32. rewrite <- wires_bytes, <- blocks_of_records, Hbs in H32 by apply Ho.
    rewrite records_of_cons, bytes_of_app in H32. pose proof (bytes_of_nonneg (RecordsBlock.records b)).
    rewrite records_of_cons. simpl app. lia. }
  cbn [fst]. rewrite Hm', bind_Ret. eexists _, _. split; [done|]. intros ask read fuel m0 q e n next ds m1 Hn.
  apply spoilt_run. unfold ObjectStream.object_answered in Hn. destruct (last _); [|injection Hn as <-; by eexists].
  apply bind_Ret_inv in Hn as (? & _ & Hn). apply bind_Ret_inv in Hn as (? & _ & Hn).
  eapply spoilt_inner; [|done]. by exists c, rest.
Qed.
End object.

(** *** A fetch

    What a fetch relies on: [read] gives the blocks of the log from the offset asked for on,
    for every offset that the known objects cover. *)

Class ReadsObjects (log : list BlockRecord.t)
    (read : ObjectMetadataManager.t -> Z -> Z -> outcome (ObjectMetadataManager.t * result (list RecordsBlock.t) EsError.t))
    (inv : ObjectMetadataManager.t -> Prop) (covers : ObjectMetadataManager.t -> Z -> Prop) : Prop := {
  reads_log m s n : inv m -> covers m s -> 0 < n ->
    exists m' b l x y, read m s n = Ret (m', Ok (b :: l)) /\ inv m' /\ (forall o, covers m o -> covers m' o) /\
      chain x (b :: l) y /\ Forall (fun r => r ∈ log) (records_of (b :: l)) /\
      (exists r q, RecordsBlock.records b = r :: q /\ x <= s < x + BlockRecord.end_offset_delta r) /\
      bytes_of (records_of (b :: l)) < 2 ^ 32
}.

Definition dataset_parts (ds : FetchDataset) : list RecordsBlock.t * list ObjectMetadata.t :=
  match ds with Full l | Partial l | Overflow l => (l, []) | Mixin l objects => (l, objects) end.

Section fetch.
Context (a z : Z) (log : list BlockRecord.t) (Hlog : run a log z) (Hbytes : bytes_of log < 2 ^ 32).
Context (read : ObjectMetadataManager.t -> Z -> Z -> outcome (ObjectMetadataManager.t * result (list RecordsBlock.t) EsError.t)).
Context (inv : ObjectMetadataManager.t -> Prop) (covers : ObjectMetadataManager.t -> Z -> Prop).
Context {R : ReadsObjects log read inv covers}.
Context (s0 e n0 : Z).

(** The records of the stream below, from [q] on; none, when [q] is where they would begin. *)
Definition block_from (q : Z) (b : RecordsBlock.t) : Prop :=
  RecordsBlock.start_offset b = q /\ q <= e /\
  (RecordsBlock.records b = [] \/
   exists w, RecordsBlock.empty_block_offset b = None /\ run q (RecordsBlock.records b) w /\
     Forall (fun r => r ∈ log) (RecordsBlock.records b)).

(** What has been collected. *)
Definition collected (f : ObjectStream.fetching) : Prop :=
  slice a z log s0 (records_of (ObjectStream.final_blocks f)) (ObjectStream.start_offset f) /\
  (exists x, chain x (ObjectStream.final_blocks f) (ObjectStream.start_offset f)) /\
  ObjectStream.remaining_size f = n0 - Z.min (bytes_of (records_of (ObjectStream.final_blocks f))) n0.

Definition fetched_exactly (res : result FetchDataset EsError.t) : Prop :=
  exists bs y, res = Ok (Overflow bs) /\ slice a z log s0 (records_of bs) y /\
    (e <= y \/ n0 <= bytes_of (records_of bs)).

Lemma collected_app f x b l y r q :
  collected f -> chain x (b :: l) y -> Forall (fun r => r ∈ log) (records_of (b :: l)) ->
  RecordsBlock.records b = r :: q -> x <= ObjectStream.start_offset f < x + BlockRecord.end_offset_delta r ->
  collected (ObjectStream.mk_fetching y
    (ObjectStream.remaining_size f - Z.min (bytes_of (records_of (b :: l))) (ObjectStream.remaining_size f))
    (ObjectStream.final_blocks f ++ b :: l)).
Proof.
  intros (Hs & (x0 & Hc) & Hrem) Hb Hin Hr Hx.
  assert (slice a z log (ObjectStream.start_offset f) (records_of (b :: l)) y) as Hs'.
  { rewrite records_of_cons, Hr in *. simpl. pose proof (chain_run _ _ _ Hb) as Hrun. rewrite records_of_cons, Hr in Hrun.
    by apply (slice_intro a z log Hlog _ x). }
  split_and!.
  - simpl. rewrite records_of_app. by eapply slice_app.
  - simpl. destruct (ObjectStream.final_blocks f) as [|b0 l0] eqn:Hf; [by exists x|]. exists x0. apply check_chain_app.
    exists (ObjectStream.start_offset f). split; [done|].
    assert (x = ObjectStream.start_offset f) as <-; [|done].
    destruct (log_whole a z log Hlog r) as (_ & _ & Hedge).
    { rewrite records_of_cons, Hr in Hin. by inversion Hin. }
    assert (BlockRecord.start_offset r = x) as Hst.
    { destruct Hb as (? & _ & _ & Hrun & _). rewrite Hr in Hrun. by destruct Hrun. }
    rewrite Hst in Hedge. destruct (Hedge (ObjectStream.start_offset f)); [|lia..].
    pose proof Hs as Hs2. destruct Hc as (w & _ & Hne & _ & _). rewrite records_of_cons in Hs2.
    destruct (RecordsBlock.records b0) as [|r0 q0]; [done|].
    destruct Hs2 as (pre & post & x1 & Heq & Hpre & Hmid & Hpost & _).
    eexists (pre ++ _), post. split; [rewrite <- (assoc_L (++)); exact Heq|]. split; [apply run_app; by exists x1|done].
  - simpl. rewrite records_of_app, bytes_of_app, Hrem. pose proof (bytes_of_nonneg (records_of (b :: l))).
    pose proof (bytes_of_nonneg (records_of (ObjectStream.final_blocks f))). lia.
Qed.

Lemma check_chain x l y : chain x l y -> ObjectStream.check_records_sequence l = Ret (Ok tt).
Proof.
  intros Hc. unfold ObjectStream.check_records_sequence.
  assert (forall o, o = None \/ o = Some x -> ObjectStream.check_loop o l = Ret (Ok tt)) as H; [|by apply H; left].
  revert x Hc. induction l as [|b l IH]; intros x Hc o Ho; [done|]. simpl. rewrite (check_chain_start _ _ _ _ Hc).
  destruct Hc as (w & He & Hne & Hr & Hc). rewrite (block_end_run x b w) by done.
  destruct Ho as [->| ->]; rewrite ?Z.eqb_refl; simpl; apply (IH w); auto.
Qed.

(** Where a fetch waits, and that it has come closer to its end than [s]. *)
Definition pending (m : ObjectMetadataManager.t) (s : Z) (n : ObjectStream.fetch_next) : Prop :=
  match n with
  | ObjectStream.AskStream f => collected f /\ s < ObjectStream.start_offset f < e /\ 0 < ObjectStream.remaining_size f
  | ObjectStream.ReadObject f b => collected f /\ s < ObjectStream.start_offset f /\ 0 < ObjectStream.remaining_size f /\
      exists q, ObjectStream.start_offset f < q /\ block_from q b /\ forall o, ObjectStream.start_offset f <= o < q -> covers m o
  | ObjectStream.Fetched res => fetched_exactly res
  end.

Lemma tail_pending m s f q b :
  collected f -> block_from q b ->
  s < ObjectStream.start_offset f \/
    s = ObjectStream.start_offset f /\ q <= s /\ (exists w, run q (RecordsBlock.records b) w /\ s < w) ->
  q <= ObjectStream.start_offset f \/ ObjectStream.remaining_size f = 0 ->
  exists n, ObjectStream.fetch_tail f b e = Ret n /\ pending m s n.
Proof.
  intros Hf (Hq & Hqe & Hb) Hs Hd. unfold ObjectStream.fetch_tail. rewrite Hq.
  assert (forall f', collected f' -> s < ObjectStream.start_offset f' ->
    exists n, (if (e <=? ObjectStream.start_offset f') || (ObjectStream.remaining_size f' =? 0) then
        res ← ObjectStream.check_records_sequence (ObjectStream.final_blocks f');
        Ret (ObjectStream.Fetched (match res with Err e => Err e | Ok _ => Ok (Overflow (ObjectStream.final_blocks f')) end))
      else Ret (ObjectStream.AskStream f')) = Ret n /\ pending m s n) as Hend.
  { intros f' Hf' Hlt. pose proof Hf' as (Hsl & [x Hc] & Hrem). rewrite (check_chain _ _ _ Hc). simpl.
    pose proof (bytes_of_nonneg (records_of (ObjectStream.final_blocks f'))).
    destruct (Z.leb_spec e (ObjectStream.start_offset f')); simpl; [|destruct (Z.eqb_spec (ObjectStream.remaining_size f') 0); simpl].
    3: eexists; split; [done|]; split_and!; try done; lia.
    all: eexists; split; [done|]; exists (ObjectStream.final_blocks f'), (ObjectStream.start_offset f'); split_and!; try done; lia. }
  destruct (Z.leb_spec q (ObjectStream.start_offset f)) as [Hle|Hgt]; simpl; [|apply Hend; [done|lia]].
  destruct Hb as [Hnil|(w & He & Hr & Hin)].
  - unfold RecordsBlock.trim. rewrite Hnil in *. simpl. apply Hend; [done|]. simpl in Hs. naive_solver lia.
  - unfold RecordsBlock.trim.
    destruct (retain_run q (RecordsBlock.records b) w (ObjectStream.start_offset f) Hr)
      as (pre & mid & x & -> & Heq & Hpre & Hmid & Hx & Hfirst). simpl. destruct mid as [|r k].
    { simpl. apply Hend; [done|]. destruct Hs as [?|(-> & ? & w' & Hw' & ?)]; [done|]. simpl in Hmid. subst x.
      assert (w' = w) as -> by (by eapply run_fun). destruct Hx as [->|]; [simpl in Hpre; lia|lia]. }
    assert (slice a z log (ObjectStream.start_offset f) (r :: k) w) as Hsl.
    { rewrite Heq in Hin. apply Forall_app in Hin as [_ Hin]. apply (slice_intro a z log Hlog _ x); [done|done|].
      split; [|by eapply Hfirst]. destruct Hx as [->|]; [simpl in Hpre; lia|done]. }
    assert (bytes_of (r :: k) < 2 ^ 32) as Hbk by (by eapply slice_bytes).
    unfold RecordsBlock.is_empty. rewrite bool_decide_eq_false_2 by done. rewrite He.
    rewrite (block_size_bytes (RecordsBlock.mk (r :: k) None)) by done. simpl.
    rewrite (block_end_run x (RecordsBlock.mk (r :: k) None) w) by done. simpl.
    assert (records_of [RecordsBlock.mk (r :: k) None] = r :: k) as Hro by (unfold records_of; simpl; by rewrite app_nil_r).
    pose proof (collected_app f x (RecordsBlock.mk (r :: k) None) [] w r k Hf) as Hcol. rewrite Hro in Hcol.
    apply (Hend (ObjectStream.mk_fetching w (ObjectStream.remaining_size f -
      Z.min (bytes_of (r :: k)) (ObjectStream.remaining_size f)) (ObjectStream.final_blocks f ++ [RecordsBlock.mk (r :: k) None]))).
    + apply Hcol; [by exists w; split_and!| |done|].
      * eapply slice_in; eauto.
      * split; [|by eapply Hfirst]. destruct Hx as [->|]; [simpl in Hpre; lia|done].
    + simpl. destruct Hmid as (_ & _ & _ & ?%run_le). specialize (Hfirst r k eq_refl). lia.
Qed.

Lemma inner_pending m s f q b :
  collected f -> block_from q b -> (forall o, ObjectStream.start_offset f <= o < q -> covers m o) ->
  s < ObjectStream.start_offset f \/
    s = ObjectStream.start_offset f /\ (s < q \/ exists w, run q (RecordsBlock.records b) w /\ s < w) ->
  0 < ObjectStream.remaining_size f \/ s < ObjectStream.start_offset f ->
  exists n, ObjectStream.fetch_inner f b e = Ret n /\
    (pending m s n \/ s = ObjectStream.start_offset f /\ n = ObjectStream.ReadObject f b /\ s < q /\ 0 < ObjectStream.remaining_size f).
Proof.
  intros Hf Hb Hcov Hs Hrem. pose proof Hb as (Hq & _ & _). unfold ObjectStream.fetch_inner. rewrite Hq.
  assert (0 <= ObjectStream.remaining_size f) as Hnn by (destruct Hf as (_ & _ & ->); lia).
  destruct (Z.leb_spec q (ObjectStream.start_offset f)) as [Hle|Hgt]; simpl;
    [|destruct (Z.eqb_spec (ObjectStream.remaining_size f) 0) as [H0|H0]; simpl].
  - destruct (tail_pending m s f q b) as (n & Hn & Hp); [done|done| |by left|by exists n; auto].
    destruct Hs as [?|[-> [?|?]]]; [by left|lia|right; split_and!; [done|lia|done]].
  - destruct (tail_pending m s f q b) as (n & Hn & Hp); [done|done|left; lia|by right|by exists n; auto].
  - eexists. split; [done|]. destruct Hs as [?|[-> _]]; [left|right; split_and!; try done; lia].
    split_and!; try done; [lia|]. by exists q.
Qed.

(** What a fetch relies on of the stream below: its answer is blocks of the log, which begin
    at or before the offset asked for, and hold it; or behind it, and the objects that are
    known with the answer cover what is missing. *)
Definition answers_below (ask : Z -> Z -> Z -> result FetchDataset EsError.t) : Prop :=
  forall m s n, inv m -> s0 <= s < e -> 0 < n ->
    exists ds l objects, ask s e n = Ok ds /\ dataset_parts ds = (l, objects) /\
      inv (foldl ObjectMetadataManager.add_object_metadata m objects) /\
      exists b q, ObjectStream.merge_blocks l = Ret b /\ block_from q b /\
        (forall o, s <= o < q -> covers (foldl ObjectMetadataManager.add_object_metadata m objects) o) /\
        (s < q \/ exists w, run q (RecordsBlock.records b) w /\ s < w).

Definition fetch_measure (n : ObjectStream.fetch_next) : Z :=
  match n with
  | ObjectStream.AskStream f => 2 * (e - ObjectStream.start_offset f) + 1
  | ObjectStream.ReadObject f _ => 2 * (e - ObjectStream.start_offset f)
  | ObjectStream.Fetched _ => 0
  end.

Lemma collected_ge f : collected f -> s0 <= ObjectStream.start_offset f.
Proof.
  intros (Hs & _ & _). destruct (records_of (ObjectStream.final_blocks f)) as [|r k]; simpl in Hs; [lia|].
  destruct Hs as (? & ? & ? & _ & _ & (_ & _ & _ & ?%run_le) & _ & ?). lia.
Qed.

Lemma stream_pending ask m f :
  answers_below ask -> inv m -> collected f -> ObjectStream.start_offset f < e -> 0 < ObjectStream.remaining_size f ->
  exists m' n, ObjectStream.stream_answered m f e (ask (ObjectStream.start_offset f) e (ObjectStream.remaining_size f)) = Ret (m', n) /\
    inv m' /\ pending m' (ObjectStream.start_offset f - 1) n /\ fetch_measure n < 2 * (e - ObjectStream.start_offset f) + 1.
Proof.
  intros Hask Hm Hf Hlt Hrem.
  destruct (Hask m (ObjectStream.start_offset f) (ObjectStream.remaining_size f)) as
    (ds & l & objects & -> & Hparts & Hm' & b & q & Hb & Hbq & Hcov & Hprog);
    [done|by split; [apply collected_ge|]|done|].
  exists (foldl ObjectMetadataManager.add_object_metadata m objects).
  unfold ObjectStream.stream_answered. unfold dataset_parts in Hparts. rewrite Hparts, Hb. simpl.
  destruct (inner_pending (foldl ObjectMetadataManager.add_object_metadata m objects) (ObjectStream.start_offset f) f q b)
    as (n & -> & Hn); [done|done|done|by right|by left|]. exists n. split; [done|]. split; [done|].
  pose proof Hbq as (_ & Hqe & _). destruct Hn as [Hn|(_ & -> & Hsq & _)].
  - destruct n as [f'|f' b'|res]; simpl in *.
    + destruct Hn as (? & ? & ?). split; [split_and!; try done; lia|lia].
    + destruct Hn as (? & ? & ? & ?). split; [split_and!; try done; lia|lia].
    + split; [done|lia].
  - simpl. split; [|lia]. split_and!; try done; [lia|]. by exists q.
Qed.

Lemma object_pending m f b q :
  inv m -> collected f -> 0 < ObjectStream.remaining_size f -> ObjectStream.start_offset f < q -> block_from q b ->
  (forall o, ObjectStream.start_offset f <= o < q -> covers m o) ->
  exists m' res n, read m (ObjectStream.start_offset f) (ObjectStream.remaining_size f) = Ret (m', res) /\ inv m' /\
    ObjectStream.object_answered f b e res = Ret n /\ pending m' (ObjectStream.start_offset f) n /\
    fetch_measure n < 2 * (e - ObjectStream.start_offset f).
Proof.
  intros Hm Hf Hrem Hq Hb Hcov. pose proof Hb as (_ & Hqe & _).
  destruct (reads_log m (ObjectStream.start_offset f) (ObjectStream.remaining_size f)) as
    (m' & b1 & l1 & x & y & Hread & Hm' & Hmono & Hch & Hin & (r & k & Hr & Hx) & Hsz); [done|apply Hcov; lia|done|].
  assert (ObjectStream.start_offset f < y) as Hy.
  { pose proof Hch as (w & _ & _ & Hrun & Hc%chain_run%run_le). rewrite Hr in Hrun. destruct Hrun as (_ & _ & _ & ?%run_le). lia. }
  exists m', (Ok (b1 :: l1)).
  unfold ObjectStream.object_answered. destruct (last (b1 :: l1)) as [bl|] eqn:Hl; [|by apply last_None in Hl].
  rewrite (chain_last _ _ _ _ Hch Hl), bind_Ret, (total_size_of _ _ _ Hch Hsz), bind_Ret.
  destruct (inner_pending m' (ObjectStream.start_offset f) (ObjectStream.mk_fetching y
    (ObjectStream.remaining_size f - Z.min (bytes_of (records_of (b1 :: l1))) (ObjectStream.remaining_size f))
    (ObjectStream.final_blocks f ++ b1 :: l1)) q b) as (n & Hn & Hp);
    [by eapply collected_app|done|simpl; intros o Ho; apply Hmono, Hcov; lia|by left|by right|].
  exists n. split_and!; [done|done|done| |].
  - destruct Hp as [?|(Heq & _)]; [done|]. simpl in Heq. lia.
  - destruct Hp as [Hp|(Heq & _)]; [|simpl in Heq; lia]. destruct n; simpl in *; [lia..|lia].
Qed.

Lemma fetch_run_pending ask fuel m s n :
  answers_below ask -> inv m -> pending m s n -> (Z.to_nat (fetch_measure n) <= fuel)%nat ->
  exists m' res, ObjectStream.fetch_run ask read fuel m e n = Ret (m', res) /\ fetched_exactly res.
Proof.
  intros Hask. revert m s n. induction fuel as [|fuel IH]; intros m s n Hm Hp Hfuel; destruct n as [f|f b|res]; simpl in Hp, Hfuel.
  3,6: by exists m, res.
  - lia.
  - destruct Hp as (_ & _ & _ & q & ? & (_ & ? & _) & _). lia.
  - destruct Hp as (Hf & ? & Hrem). simpl.
    destruct (stream_pending ask m f) as (m' & n & -> & Hm' & Hp & Hlt); [done..|lia|done|].
    rewrite bind_Ret. eapply IH; [done|done|lia].
  - destruct Hp as (Hf & ? & Hrem & q & Hq & Hb & Hcov). simpl. pose proof Hb as (_ & ? & _).
    destruct (object_pending m f b q) as (m' & res & n & -> & Hm' & Hn & Hp & Hlt); [done..|].
    rewrite bind_Ret, Hn, bind_Ret. eapply IH; [done|done|lia].
Qed.
End fetch.

(** *** The reader of objects that are one block

    The hints are then those for the end of an object, at position 0. *)

Section one_block.
Context {B : BytesApi} {BL : BytesLaws B} {M : MetaApi} {OP : OperatorApi}.
Context (log : list BlockRecord.t).

(** The objects of the stream. *)
Definition one_block_object (o : ObjectMetadata.t) : Prop :=
  exists l b, object_of o l /\ blocks_of l = [b] /\ Forall (fun r => r ∈ log) (wire_record <$> l).

Context (objects : list ObjectMetadata.t).

Definition known_objects (m : ObjectMetadataManager.t) : Prop :=
  Forall (fun h : Z * Z => h.2 = 0) (ObjectMetadataManager.offset_to_position m) /\
  forall k o, (k, o) ∈ ObjectMetadataManager.metadata_map m -> k = ObjectMetadata.start_offset o /\ o ∈ objects.

Definition in_objects (m : ObjectMetadataManager.t) (s : Z) : Prop :=
  exists k o, BTreeMap.last_le (ObjectMetadataManager.metadata_map m) s = Some (k, o) /\
    s < ObjectMetadata.start_offset o + ObjectMetadata.end_offset_delta o.

Lemma last_le_elem {V} (m : @BTreeMap.t V) s k v : BTreeMap.last_le m s = Some (k, v) -> (k, v) ∈ m /\ k <= s.
Proof.
  unfold BTreeMap.last_le. intros H%last_Some_elem_of. apply list_elem_of_In, filter_In in H as [H1 H2%Z.leb_le].
  split; [by apply list_elem_of_In|done].
Qed.

Lemma known_hint m o s : known_objects m -> ObjectMetadataManager.position_hint m o s ∈ [None; Some 0].
Proof.
  intros [Hh _]. unfold ObjectMetadataManager.position_hint.
  destruct (BTreeMap.last_le _ s) as [[off p]|] eqn:E; [|by left].
  apply last_le_elem in E as [E _]. rewrite Forall_forall in Hh. specialize (Hh _ E). simpl in Hh. subst p.
  case_match; [right; left|left].
Qed.

Lemma reads_one_block :
  Forall one_block_object objects ->
  ReadsObjects log (fun m s n => DefaultObjectReader.read_first_object_blocks true m s None n) known_objects in_objects.
Proof.
  intros Hall. constructor. intros m s n Hm (k & o & Hk & Hs) Hn. pose proof Hm as [Hh Hobj].
  destruct (last_le_elem _ _ _ _ Hk) as [Hin Hle]. destruct (Hobj _ _ Hin) as (-> & Ho).
  rewrite Forall_forall in Hall. destruct (Hall _ Ho) as (l & b & Ho' & Hb & Hlog). clear Ho. rename Ho' into Ho.
  pose proof (blocks_of_chain _ _ _ (object_run _ _ Ho)) as Hc. rewrite Hb in Hc. destruct Hc as (w & He & Hne & Hr & Hw).
  simpl in Hw. subst w.
  destruct (read_object_first m (ObjectMetadata.start_offset o) o l b [] _ s n Ho Hk (or_introl (known_hint m o s Hm)) Hb Hr)
    as (m' & b' & x & Hread & Hmm & Hhints & Hc & (pre & Hpre) & Hx); [lia|].
  assert (records_of [b] = wire_record <$> l) as Hrec by (by rewrite <- Hb, blocks_of_records).
  assert (records_of [b'] = RecordsBlock.records b') as Hrec' by (unfold records_of; simpl; by rewrite app_nil_r).
  unfold records_of in Hrec. simpl in Hrec. rewrite app_nil_r, Hpre in Hrec.
  exists m', b', [], x, (ObjectMetadata.start_offset o + ObjectMetadata.end_offset_delta o).
  rewrite Hrec'. split_and!; try done.
  - split; [|by rewrite Hmm]. simpl in Hhints. destruct Hc as (w & He' & Hne' & Hr' & Hw). simpl in Hw. subst w.
    rewrite (block_end_run _ _ _ He' Hne' Hr'), bind_Ret, Z.eqb_refl in Hhints.
    apply bind_Ret_inv in Hhints as (? & _ & Hhints). apply bind_Ret_inv in Hhints as (? & _ & [= <-]).
    simpl. unfold ObjectMetadataManager.or_insert. case_match; [done|].
    rewrite Forall_forall in Hh |- *. intros [k' p'] [[= -> ->]|?]%BTreeMap.insert_elem; [done|by apply (Hh (k', p'))].
  - intros o' (k' & o2 & Hk' & Hs'). exists k', o2. by rewrite Hmm.
  - rewrite <- Hrec in Hlog. by apply Forall_app in Hlog as [_ ?].
  - pose proof (object_u32 _ _ Ho) as H32. rewrite <- wires_bytes, <- Hrec, bytes_of_app in H32 by apply Ho.
    pose proof (bytes_of_nonneg pre). lia.
Qed.
End one_block.

(** C30: A fetch of offloaded data gives exactly the records of the log, which has less than
    4 GiB.  When the objects that are known are one block of the log each (of several blocks
    only the first can be read, [object_middle_unreadable]), as the default reader finds them
    in the object storage, and the stream below answers with blocks of the log and with the objects for
    what it does not have any more, the fetch ends and succeeds: it returns blocks that
    follow each other, which are the part of the log from the record that holds the first
    offset asked for, up to the end or to the size asked for. *)
Theorem object_fetch_exact {B : BytesApi} {BL : BytesLaws B} {M : MetaApi} {OP : OperatorApi} a z log objects ask m s e n fuel :
  run a log z -> bytes_of log < 2 ^ 32 -> Forall (one_block_object log) objects -> known_objects objects m ->
  answers_below log (known_objects objects) in_objects s e ask ->
  s < e -> 0 < n -> (Z.to_nat (2 * (e - s) + 1) <= fuel)%nat ->
  exists m' bs y,
    ObjectStream.fetch_run ask (fun m s n => DefaultObjectReader.read_first_object_blocks true m s None n)
      fuel m e (ObjectStream.fetch_start s n) = Ret (m', Ok (Overflow bs)) /\
    slice a z log s (records_of bs) y /\ (e <= y \/ n <= bytes_of (records_of bs)).
Proof.
  intros Hlog Hbytes Hobj Hm Hask Hs Hn Hfuel. pose proof (reads_one_block log objects Hobj).
  destruct (fetch_run_pending a z log Hlog Hbytes _ _ _ s e n ask fuel m (s - 1) (ObjectStream.fetch_start s n))
    as (m' & res & Hrun & bs & y & -> & Hsl & Hend); [done|done| |done|by exists m', bs, y].
  split_and!; simpl; try lia. split; [done|]. split; [by exists s|]. simpl. lia.
Qed.

(** ** Witnesses *)

Module ObjectStreamExample.
Definition old : list wire := [sample_wire 0 10; sample_wire 10 10].
Definition new : list wire := [sample_wire 20 10].
Definition log : list BlockRecord.t := wire_record <$> old ++ new.
Definition object : ObjectMetadata.t := ObjectMetadata.mk 7 0 1 0 20 (remaining (wires old)) [] (Some "key").
#[export] Instance storage : OperatorApi := {|
  range_read key from to := if String.eqb key "key" then Some (take (Z.to_nat (to - from)) (drop (Z.to_nat from) (wires old))) else None
|}.
Definition ask (s e n : Z) : result FetchDataset EsError.t :=
  Ok (Mixin [RecordsBlock.new (wire_record <$> new)] [object]).

Lemma object_ok : object_of object old.
Proof.
  constructor.
  - repeat constructor; by vm_compute.
  - done.
  - by vm_compute.
  - done.
  - done.
  - by vm_compute.
  - done.
  - exists "key". split; [done|]. by vm_compute.
Qed.

Lemma log_run : run 0 log 30.
Proof. by vm_compute. Qed.

Lemma objects_one_block : Forall (one_block_object log) [object].
Proof.
  constructor; [|constructor]. exists old, (RecordsBlock.new (wire_record <$> old)).
  split; [exact object_ok|]. split; [by vm_compute|]. apply Forall_forall. intros r Hr. apply list_elem_of_fmap in Hr as (w & -> & Hw).
  apply list_elem_of_fmap_2, elem_of_app. by left.
Qed.

Lemma known_new : known_objects [object] ObjectMetadataManager.new.
Proof. split; [constructor|]. by intros k o ?%not_elem_of_nil. Qed.

(** With the object, every offset below 20 is covered. *)
Lemma known_add m : known_objects [object] m ->
  known_objects [object] (ObjectMetadataManager.add_object_metadata m object) /\
  forall o, 0 <= o < 20 -> in_objects (ObjectMetadataManager.add_object_metadata m object) o.
Proof.
  intros [Hh Hm]. unfold ObjectMetadataManager.add_object_metadata, ObjectMetadataManager.or_insert.
  assert (ObjectMetadataManager.metadata_map m = [] \/ exists rest, ObjectMetadataManager.metadata_map m = (0, object) :: rest) as Hcase.
  { destruct (ObjectMetadataManager.metadata_map m) as [|[k o] rest]; [by left|right].
    destruct (Hm k o) as [-> ->%list_elem_of_singleton]; [apply list_elem_of_here|]. by eexists. }
  destruct Hcase as [->|[rest Hrest]].
  - split; [split; [done|]|].
    + intros k o [= -> ->]%list_elem_of_singleton. split; [done|apply list_elem_of_here].
    + intros o Ho. exists 0, object. split; [|simpl; lia]. unfold BTreeMap.last_le. simpl.
      by rewrite (proj2 (Z.leb_le _ _)) by lia.
  - rewrite Hrest. simpl. split; [split; [done|]; simpl; intros k o Hko; apply Hm; by rewrite Hrest|].
    intros o Ho. unfold in_objects. simpl.
    assert (forall k v, (k, v) ∈ (0, object) :: rest -> k = 0 /\ v = object) as Hall.
    { intros k v Hv. rewrite <- Hrest in Hv. destruct (Hm k v Hv) as [-> ->%list_elem_of_singleton]. done. }
    destruct (BTreeMap.last_le ((0, object) :: rest) o) as [[k v]|] eqn:E.
    + destruct (Hall k v) as [-> ->]; [by apply last_le_elem in E as [? _]|]. exists 0, object. split; [done|simpl; lia].
    + unfold BTreeMap.last_le in E. simpl in E. rewrite (proj2 (Z.leb_le _ _)) in E by lia. by apply last_None in E.
Qed.

Lemma ask_ok : answers_below log (known_objects [object]) in_objects 5 30 ask.
Proof.
  intros m s n Hm Hs Hn. destruct (known_add m Hm) as [Hm' Hcov].
  eexists _, _, _. split; [done|]. split; [done|]. split; [exact Hm'|].
  exists (RecordsBlock.new (wire_record <$> new)), 20. split; [by vm_compute|]. split.
  { split; [by vm_compute|]. split; [lia|]. right. exists 30. split; [done|]. split; [by vm_compute|].
    apply Forall_forall. intros r Hr. apply list_elem_of_fmap in Hr as (w & -> & Hw).
    apply list_elem_of_fmap_2, elem_of_app. by right. }
  split; [intros o Ho; apply Hcov; lia|]. right. exists 30. split; [by vm_compute|lia].
Qed.
End ObjectStreamExample.

#[local] Existing Instance ObjectStreamExample.storage.

Lemma object_fetch_exact_witness :
  exists m' bs y,
    ObjectStream.fetch_run ObjectStreamExample.ask
      (fun m s n => DefaultObjectReader.read_first_object_blocks true m s None n)
      60 ObjectMetadataManager.new 30 (ObjectStream.fetch_start 5 1000) = Ret (m', Ok (Overflow bs)) /\
    slice 0 30 ObjectStreamExample.log 5 (records_of bs) y /\ (30 <= y \/ 1000 <= bytes_of (records_of bs)).
Proof.
  apply (object_fetch_exact 0 30 ObjectStreamExample.log [ObjectStreamExample.object] ObjectStreamExample.ask
    ObjectMetadataManager.new 5 30 1000 60 ObjectStreamExample.log_run).
  - by vm_compute.
  - exact ObjectStreamExample.objects_one_block.
  - exact ObjectStreamExample.known_new.
  - exact ObjectStreamExample.ask_ok.
  - lia.
  - lia.
  - lia.
Defined.

(** An object of two blocks: its first batch has a mebibyte. *)
Module LargeObjectExample.
Definition payload : list byte := replicate (Z.to_nat 1048576) Init.Byte.x00.
Lemma large_payload_length : remaining payload = 1048576.
Proof. unfold payload, remaining. rewrite length_replicate. lia. Qed.
#[local] Opaque payload.

Definition large : wire := mk_wire (meta_pack (sample_meta 0 10)) payload (sample_meta 0 10).
Definition small : wire := sample_wire 10 10.
Definition data : list wire := [large; small].
Definition object : ObjectMetadata.t := ObjectMetadata.mk 7 0 1 0 20 (remaining (wires data)) [] (Some "large").
#[export] Instance large_storage : OperatorApi := {| range_read key from to := Some (wires data) |}.

Lemma large_length : remaining (wire_bytes large) = 9 + remaining (wmeta large) + 1048576.
Proof. rewrite remaining_wire. simpl. by rewrite large_payload_length. Qed.
Lemma large_ok : wire_ok large.
Proof. split; [apply meta_root_pack|]. rewrite large_length. by vm_compute. Qed.
Lemma small_ok : wire_ok small.
Proof. apply sample_wire_ok. by vm_compute. Qed.

Lemma large_data_length : remaining (wires data) < 2 ^ 32.
Proof.
  change (wires data) with (wire_bytes large ++ wires [small]). rewrite remaining_app, large_length. by vm_compute.
Qed.

Lemma large_object_ok : object_of object data.
Proof.
  constructor.
  - constructor; [exact large_ok|]. constructor; [exact small_ok|constructor].
  - done.
  - split_and!; by vm_compute.
  - done.
  - done.
  - exact large_data_length.
  - done.
  - by exists "large".
Qed.

Lemma data_blocks : blocks_of data = [RecordsBlock.new [wire_record large]; RecordsBlock.new [wire_record small]].
Proof.
  unfold blocks_of. simpl. rewrite (wire_record_size large large_ok), large_length.
  rewrite (proj2 (Z.leb_le _ _)); [|by vm_compute]. simpl. done.
Qed.
End LargeObjectExample.

#[local] Existing Instance LargeObjectExample.large_storage.

Lemma object_middle_unreadable_witness :
  exists m' blocks,
    DefaultObjectReader.read_first_object_blocks true
      (ObjectMetadataManager.add_object_metadata ObjectMetadataManager.new LargeObjectExample.object) 12 None 1000 =
      Ret (m', Ok blocks) /\
    forall ask read fuel m0 q e n next ds m1,
      ObjectStream.object_answered (ObjectStream.mk_fetching 12 n []) q e (Ok blocks) = Ret next ->
      ObjectStream.fetch_run ask read fuel m0 e next <> Ret (m1, Ok ds).
Proof.
  apply (object_middle_unreadable _ 0 LargeObjectExample.object LargeObjectExample.data
    (RecordsBlock.new [wire_record LargeObjectExample.large]) [RecordsBlock.new [wire_record LargeObjectExample.small]]
    10 12 1000 LargeObjectExample.large_object_ok).
  - done.
  - done.
  - simpl. lia.
  - exact LargeObjectExample.data_blocks.
  - split_and!; by vm_compute.
  - simpl. lia.
Defined.
