(* ===== verification/Offload.v ===== *)
(** * Offloading a range to object storage

    [components/object-storage/src/range_offload.rs], and the keys of objects of
    [components/model/src/object.rs]: the records of a range are written to objects, large
    payloads to an object of their own, others part by part to an object that is completed
    when it is full or when it is flushed.

    The writing tasks repeat what fails until it succeeds; what is modelled is the bytes of
    the object and the metadata that is committed when they have. *)

From S2P Require Import Prelude Bytes Model Record RecordsBlock.

(** ** [object.rs]: keys *)

Definition hex_digit (d : Z) : Ascii.ascii :=
  Ascii.ascii_of_nat (Z.to_nat (if d <? 10 then 48 + d else 87 + d)).

(** [format!("{:x}")] of an integer of at most 64 bits, in reverse: the digits from the least
    significant one on. *)
Fixpoint hex_rev (fuel : nat) (n : Z) : list Ascii.ascii :=
  match fuel with
  | O => []
  | S fuel => hex_digit (n mod 16) :: if n <? 16 then [] else hex_rev fuel (n / 16)
  end.

Definition to_hex (n : Z) : list Ascii.ascii := reverse (hex_rev 16 n).

Definition underscore : Ascii.ascii := Ascii.ascii_of_nat 95.

Definition gen_object_key (cluster : list Ascii.ascii) (stream_id range_index epoch start_offset : Z)
    : list Ascii.ascii :=
  let prefix_number := as_uint 64 (stream_id * 31) in
  let prefix_number := as_uint 64 (as_uint 64 (prefix_number + range_index) * 31) in
  let prefix_number := as_uint 64 (prefix_number + start_offset) in
  let prefix := reverse (to_hex prefix_number) in
  prefix ++ [underscore] ++ cluster ++ [underscore] ++ to_hex stream_id ++ [underscore] ++
  to_hex range_index ++ [underscore] ++ to_hex epoch ++ [underscore] ++ to_hex start_offset.

(** [ObjectMetadata::gen_object_key] *)
Definition with_object_key (cluster : list Ascii.ascii) (m : ObjectMetadata.t) : ObjectMetadata.t :=
  ObjectMetadata.mk (ObjectMetadata.stream_id m) (ObjectMetadata.range_index m) (ObjectMetadata.epoch m)
    (ObjectMetadata.start_offset m) (ObjectMetadata.end_offset_delta m) (ObjectMetadata.data_len m)
    (ObjectMetadata.sparse_index m)
    (Some (String.string_of_list_ascii
       (gen_object_key cluster (ObjectMetadata.stream_id m) (ObjectMetadata.range_index m)
          (ObjectMetadata.epoch m) (ObjectMetadata.start_offset m)))).

(** ** [range_offload.rs] *)

Definition SPARSE_SIZE : Z := 16 * 1024 * 1024.

Section sparse_index.
Context {B : BytesApi} {M : MetaApi}.

(** The variables of the loop of [gen_sparse_index]. *)
Record indexing := mk_indexing {
  sparse_index_bytes : list byte;
  pass_through_size : Z;       (* u32 *)
  record_position : Z;         (* u32 *)
  last_record_size : Z;        (* u32 *)
}.

Definition index_end_offset (metadata : meta) : outcome Z :=
  u64_add (as_uint 64 (RecordBatchMetaT.base_offset metadata)) (as_uint 64 (RecordBatchMetaT.last_offset_delta metadata)).

(** One record at the cursor. *)
Definition index_record (start_offset sparse_size : Z) (g : indexing) (cursor : list byte)
    : outcome (result (indexing * list byte) DecodeError.t) :=
  if remaining cursor <? 9 then Ret (Err DecodeError.DataLengthMismatch)
  else
  '(magic_code, cursor) ← get_int 1 cursor;
  if negb (magic_code =? Magic0) then Ret (Err DecodeError.InvalidMagic)
  else
  '(metadata_len, cursor) ← get_int 4 cursor;
  let metadata_len := as_uint 64 metadata_len in
  if remaining cursor <? metadata_len then Ret (Err DecodeError.DataLengthMismatch)
  else
  position ← u32_add (record_position g) (last_record_size g);
  let record_sparse_index := sparse_size <=? pass_through_size g in
  metadata_slice ← slice cursor 0 metadata_len;
  entry ←
    (if record_sparse_index then
       match meta_root metadata_slice with
       | None => Ret (Err DecodeError.Flatbuffer)
       | Some metadata =>
           record_end_offset ← index_end_offset metadata;
           delta ← uint_sub record_end_offset start_offset;
           Ret (Ok (put_uint 4 (as_uint 32 delta) ++ put_uint 4 position))
       end
     else Ret (Ok []));
  match entry with
  | Err e => Ret (Err e)
  | Ok entry =>
      cursor ← advance (Z.to_nat metadata_len) cursor;
      '(payload_len, cursor) ← get_int 4 cursor;
      let payload_len := as_uint 64 payload_len in
      if remaining cursor <? payload_len then Ret (Err DecodeError.DataLengthMismatch)
      else
      cursor ← advance (Z.to_nat payload_len) cursor;
      n ← usize_add 9 metadata_len;
      n ← usize_add n payload_len;
      let size := as_uint 32 n in
      pass ← (if record_sparse_index then Ret 0 else u32_add (pass_through_size g) size);
      Ret (Ok (mk_indexing (sparse_index_bytes g ++ entry) pass position size, cursor))
  end.

(** A record has at least nine bytes. *)
Fixpoint index_loop (fuel : nat) (start_offset sparse_size : Z) (g : indexing) (cursor : list byte)
    : outcome (result indexing DecodeError.t) :=
  match fuel, cursor with
  | _, [] => Ret (Ok g)
  | O, _ => Panic
  | S fuel, _ =>
      res ← index_record start_offset sparse_size g cursor;
      match res with
      | Err e => Ret (Err e)
      | Ok (g, cursor) => index_loop fuel start_offset sparse_size g cursor
      end
  end.

(** The index, the end offset of the last record and the size since the last entry. *)
Definition gen_sparse_index (start_offset : Z) (payload : list (list byte)) (init_pass_through_size sparse_size : Z)
    : outcome (result (list byte * Z * Z) DecodeError.t) :=
  let payload := concat payload in
  res ← index_loop (length payload) start_offset sparse_size (mk_indexing [] init_pass_through_size 0 0) payload;
  match res with
  | Err e => Ret (Err e)
  | Ok g =>
      n ← u32_add (record_position g) 1;
      cursor ← advance (Z.to_nat n) payload;
      '(metadata_len, cursor) ← get_int 4 cursor;
      metadata_slice ← slice cursor 0 (as_uint 64 metadata_len);
      match meta_root metadata_slice with
      | None => Ret (Err DecodeError.Flatbuffer)
      | Some metadata =>
          end_offset ← index_end_offset metadata;
          Ret (Ok (sparse_index_bytes g, end_offset, pass_through_size g))
      end
  end.
End sparse_index.

(** An object as its writing task leaves it in the storage, and the metadata that it then
    commits. *)
Record stored := mk_stored {
  stored_key : list Ascii.ascii;
  stored_bytes : list byte;
  stored_metadata : ObjectMetadata.t;
}.

Module MultiPartWriteEvent.
(** Without the channel that a flush waits on. *)
Record t := mk { data : list (list byte); index : list byte; end_offset : Z }.
End MultiPartWriteEvent.

Definition set_extent (m : ObjectMetadata.t) (end_offset data_len : Z) : outcome ObjectMetadata.t :=
  delta ← uint_sub end_offset (ObjectMetadata.start_offset m);
  Ret (ObjectMetadata.mk (ObjectMetadata.stream_id m) (ObjectMetadata.range_index m) (ObjectMetadata.epoch m)
         (ObjectMetadata.start_offset m) (as_uint 32 delta) (as_uint 32 data_len)
         (ObjectMetadata.sparse_index m) (ObjectMetadata.key m)).

Module MultiPartObject.
Section multi_part.
Context {B : BytesApi} {M : MetaApi}.

Record t := mk {
  metadata : ObjectMetadata.t;
  key : list Ascii.ascii;
  object_size : Z;             (* u32 *)
  size : Z;                    (* u32 *)
  last_pass_through_size : Z;  (* u32 *)
  events : list MultiPartWriteEvent.t;   (* what the channel to the writing task has carried *)
}.

Definition new (object_metadata : ObjectMetadata.t) (key : list Ascii.ascii) (object_size : Z) : t :=
  mk object_metadata key object_size 0 0 [].

(** Panics when the records cannot be parsed.  Returns whether the object is full, and the
    end offset of the part. *)
Definition write (o : t) (part : list (list byte)) : outcome (t * (bool * Z)) :=
  sz ← u32_add (size o) (as_uint 32 (remaining (concat part)));
  res ← gen_sparse_index (ObjectMetadata.start_offset (metadata o)) part (last_pass_through_size o) SPARSE_SIZE;
  match res with
  | Err _ => Panic
  | Ok (index, new_end_offset, pass) =>
      Ret (mk (metadata o) (key o) (object_size o) sz pass
             (events o ++ [MultiPartWriteEvent.mk part index new_end_offset]),
           (object_size o <=? sz, new_end_offset))
  end.

Definition close (o : t) : t :=
  mk (metadata o) (key o) (object_size o) (size o) (last_pass_through_size o)
    (events o ++ [MultiPartWriteEvent.mk [] [] 0]).

(** The task that writes the parts.  [written] is what it has written. *)
Record writing := mk_writing { data_len : Z; w_end_offset : Z; sparse_index : list byte; written : list byte }.

(** Ends with the first part that is empty; [None] while there was none. *)
Fixpoint write_loop (o : t) (w : writing) (l : list MultiPartWriteEvent.t) : outcome (option stored) :=
  match l with
  | [] => Ret None
  | ev :: l =>
      let index := sparse_index w ++ MultiPartWriteEvent.index ev in
      let e := if w_end_offset w <? MultiPartWriteEvent.end_offset ev then MultiPartWriteEvent.end_offset ev
               else w_end_offset w in
      let bytes := concat (MultiPartWriteEvent.data ev) in
      len ← usize_add (data_len w) (remaining bytes);
      match bytes with
      | [] =>
          footer ← ObjectMetadata.gen_footer (as_uint 32 len) (as_uint 32 (remaining index));
          m ← set_extent (metadata o) e len;
          Ret (Some (mk_stored (key o)
                 (written w ++ put_uint 1 ObjectMetadata.BLOCK_DELIMITER ++ index ++ footer) m))
      | _ => write_loop o (mk_writing len e index (written w ++ bytes)) l
      end
  end.

Definition run_writer (o : t) : outcome (option stored) :=
  write_loop o (mk_writing 0 (ObjectMetadata.start_offset (metadata o)) [] []) (events o).
End multi_part.
End MultiPartObject.

(** [Object::write0] *)
Definition write_object {B : BytesApi} {M : MetaApi} (key : list Ascii.ascii) (payload : list (list byte))
    (object_metadata : ObjectMetadata.t) (sparse_size : Z) : outcome (Z * stored) :=
  res ← gen_sparse_index (ObjectMetadata.start_offset object_metadata) payload 0 sparse_size;
  match res with
  | Err _ => Panic
  | Ok (sparse_index, end_offset, _) =>
      let payload_length := remaining (concat payload) in
      m ← set_extent object_metadata end_offset payload_length;
      footer ← ObjectMetadata.gen_footer (as_uint 32 payload_length) (as_uint 32 (remaining sparse_index));
      Ret (end_offset, mk_stored key (concat payload ++ put_uint 1 ObjectMetadata.BLOCK_DELIMITER ++ sparse_index ++ footer) m)
  end.

Module RangeOffload.
Section range_offload.
Context {B : BytesApi} {M : MetaApi}.

(** [objects] are the objects that have been handed to their writing tasks for good. *)
Record t := mk {
  stream_id : Z;               (* u64 *)
  range_index : Z;             (* u32 *)
  epoch : Z;                   (* u16 *)
  cluster : list Ascii.ascii;
  object_size : Z;             (* u32 *)
  multi_part_object : option MultiPartObject.t;
  objects : list stored;
}.

Definition new (stream_id range_index epoch : Z) (cluster : list Ascii.ascii) (object_size : Z) : t :=
  mk stream_id range_index epoch cluster object_size None [].

Definition set_multi_part (r : t) (o : option MultiPartObject.t) (l : list stored) : t :=
  mk (stream_id r) (range_index r) (epoch r) (cluster r) (object_size r) o l.

(** The object is closed, and its task runs to its end. *)
Definition complete (r : t) (o : MultiPartObject.t) : outcome t :=
  res ← MultiPartObject.run_writer (MultiPartObject.close o);
  Ret (set_multi_part r None (objects r ++ from_option (fun x => [x]) [] res)).

Definition write (r : t) (start_offset : Z) (payload : list (list byte)) : outcome (t * Z) :=
  let payload_length := as_uint 32 (remaining (concat payload)) in
  let key := gen_object_key (cluster r) (stream_id r) (range_index r) (epoch r) start_offset in
  match multi_part_object r with
  | Some o =>
      '(o, (object_full, end_offset)) ← MultiPartObject.write o payload;
      if object_full : bool then r ← complete r o; Ret (r, end_offset)
      else Ret (set_multi_part r (Some o) (objects r), end_offset)
  | None =>
      let object_metadata := ObjectMetadata.new (stream_id r) (range_index r) (epoch r) start_offset in
      if object_size r <=? payload_length then
        '(end_offset, o) ← write_object key payload object_metadata SPARSE_SIZE;
        Ret (set_multi_part r None (objects r ++ [o]), end_offset)
      else
        '(o, (_, end_offset)) ← MultiPartObject.write (MultiPartObject.new object_metadata key (object_size r)) payload;
        Ret (set_multi_part r (Some o) (objects r), end_offset)
  end.

(** [trigger_flush], and [flush] but for its wait. *)
Definition flush (r : t) : outcome t :=
  match multi_part_object r with Some o => complete r o | None => Ret r end.
End range_offload.
End RangeOffload.

(** ** The sparse index *)

Section indexing.
Context {B : BytesApi} {BL : BytesLaws B} {M : MetaApi}.

(** A batch whose number of offsets is not negative. *)
Definition counted (w : wire) : Prop :=
  wire_ok w /\ 0 <= RecordBatchMetaT.last_offset_delta (winfo w) < 2 ^ 32.

Definition wire_end (w : wire) : Z :=
  BlockRecord.start_offset (wire_record w) + BlockRecord.end_offset_delta (wire_record w).

Lemma index_end_wire w :
  counted w -> wire_end w < 2 ^ 64 -> index_end_offset (winfo w) = Ret (wire_end w).
Proof.
  intros [_ Hd] He. unfold index_end_offset, wire_end, wire_record in *. cbn in *.
  rewrite (as_uint_id 32) in * by (unfold is_uint; lia). rewrite (as_uint_id 64 (RecordBatchMetaT.last_offset_delta _)) by (unfold is_uint; lia).
  by rewrite uint_add_Ret.
Qed.

(** The entries of the index for the batches [l], the first of which is at [pos], when
    [pass] bytes have passed since the last entry: the end of a batch, relative to the
    object, and its position. *)
Fixpoint index_of (s sparse pos pass : Z) (l : list wire) : list (Z * Z) :=
  match l with
  | [] => []
  | w :: l =>
      let n := remaining (wire_bytes w) in
      if sparse <=? pass then (wire_end w - s, pos) :: index_of s sparse (pos + n) 0 l
      else index_of s sparse (pos + n) (pass + n) l
  end.

Fixpoint pass_of (sparse pass : Z) (l : list wire) : Z :=
  match l with
  | [] => pass
  | w :: l => pass_of sparse (if sparse <=? pass then 0 else pass + remaining (wire_bytes w)) l
  end.

Definition index_bytes (l : list (Z * Z)) : list byte :=
  concat ((fun e => put_uint 4 (as_uint 32 e.1) ++ put_uint 4 e.2) <$> l).

Lemma index_bytes_cons e l : index_bytes (e :: l) = (put_uint 4 (as_uint 32 e.1) ++ put_uint 4 e.2) ++ index_bytes l.
Proof. done. Qed.

Lemma index_record_wire s sparse g w rest :
  counted w -> s <= wire_end w < 2 ^ 64 ->
  record_position g + last_record_size g < 2 ^ 32 -> pass_through_size g + remaining (wire_bytes w) < 2 ^ 32 ->
  index_record s sparse g (wire_bytes w ++ rest) =
    Ret (Ok (mk_indexing
      (sparse_index_bytes g ++ if sparse <=? pass_through_size g
        then index_bytes [(wire_end w - s, record_position g + last_record_size g)] else [])
      (if sparse <=? pass_through_size g then 0 else pass_through_size g + remaining (wire_bytes w))
      (record_position g + last_record_size g) (remaining (wire_bytes w)), rest)).
Proof.
  intros Hc He Hpos Hpass. pose proof (index_end_wire w Hc (proj2 He)) as Hend. destruct Hc as [[Hm Hlen] _].
  rewrite remaining_wire in *. destruct w as [m p mt]. simpl in Hm, Hlen, Hpass, Hend |- *.
  pose proof (remaining_nonneg m). pose proof (remaining_nonneg p). pose proof (remaining_nonneg rest).
  unfold index_record, wire_bytes. simpl wmeta. simpl wpayload.
  rewrite remaining_app, remaining_batch, (proj2 (Z.ltb_ge _ _)) by lia. unfold batch_wire.
  rewrite <- !(assoc_L (++)). rewrite get_int_put by (done || lia). simpl.
  rewrite get_int_put by (unfold is_sint; simpl; lia). simpl.
  rewrite as_uint_id by (unfold is_uint; lia).
  rewrite !remaining_app, remaining_put, (proj2 (Z.ltb_ge _ _)) by lia.
  rewrite (uint_add_Ret 32 (record_position g)) by lia. simpl. rewrite slice_prefix by done. simpl. rewrite Hm.
  rewrite advance_remaining by done. simpl.
  rewrite get_int_put by (unfold is_sint; simpl; lia). simpl.
  rewrite (as_uint_id 64 (remaining p)) by (unfold is_uint; lia).
  rewrite remaining_app, (proj2 (Z.ltb_ge _ _)) by lia.
  rewrite advance_remaining by done. simpl. repeat (rewrite uint_add_Ret by lia; simpl).
  rewrite (as_uint_id 32) by (unfold is_uint; lia).
  destruct (sparse <=? pass_through_size g); simpl.
  - rewrite Hend. simpl. rewrite uint_sub_Ret by lia. simpl. unfold index_bytes. simpl. by rewrite app_nil_r.
  - by rewrite uint_add_Ret by lia.
Qed.

Lemma index_loop_S fuel s sparse g cursor :
  cursor <> [] ->
  index_loop (S fuel) s sparse g cursor =
    (res ← index_record s sparse g cursor;
     match res with Err e => Ret (Err e) | Ok (g, cursor) => index_loop fuel s sparse g cursor end).
Proof. by destruct cursor. Qed.

Lemma wires_cons w l : wires (w :: l) = wire_bytes w ++ wires l.
Proof. done. Qed.

Lemma wires_app l k : wires (l ++ k) = wires l ++ wires k.
Proof. unfold wires. by rewrite fmap_app, concat_app. Qed.

Lemma wire_nonempty w rest : wire_bytes w ++ rest <> [].
Proof.
  intros H. assert (remaining (wire_bytes w ++ rest) = 0) as H0 by by rewrite H.
  rewrite remaining_app, remaining_wire in H0. pose proof (remaining_nonneg (wmeta w)).
  pose proof (remaining_nonneg (wpayload w)). pose proof (remaining_nonneg rest). lia.
Qed.

Lemma index_loop_wires s sparse l fuel g :
  Forall counted l -> Forall (fun w => s <= wire_end w < 2 ^ 64) l -> (length l <= fuel)%nat ->
  record_position g + last_record_size g + remaining (wires l) < 2 ^ 32 ->
  0 <= pass_through_size g -> pass_through_size g + remaining (wires l) < 2 ^ 32 ->
  exists g', index_loop fuel s sparse g (wires l) = Ret (Ok g') /\
    sparse_index_bytes g' = sparse_index_bytes g ++
      index_bytes (index_of s sparse (record_position g + last_record_size g) (pass_through_size g) l) /\
    pass_through_size g' = pass_of sparse (pass_through_size g) l /\
    (l = [] -> g' = g) /\
    (forall pre w, l = pre ++ [w] -> record_position g' = record_position g + last_record_size g + remaining (wires pre)).
Proof.
  intros Hc He. revert fuel g. induction Hc as [|w l Hw _ IH]; intros fuel g Hf Hpos Hp0 Hpass.
  { exists g. split; [by destruct fuel|]. split; [by rewrite app_nil_r|]. split_and!; [done|done|]. by intros []. }
  apply Forall_cons in He as [Hwe He]. destruct fuel as [|fuel]; [simpl in Hf; lia|].
  rewrite wires_cons, remaining_app in *. pose proof (remaining_nonneg (wires l)). pose proof (remaining_nonneg (wire_bytes w)).
  rewrite index_loop_S by apply wire_nonempty. rewrite index_record_wire, bind_Ret by (done || lia).
  set (g1 := mk_indexing _ _ _ _).
  destruct (IH He fuel g1) as (g' & -> & Hb & Hp & Hnil & Hl); [simpl in Hf; lia|simpl; lia|simpl; by case_match; lia..|].
  exists g'. split; [done|]. split; [|split; [done|split; [done|]]].
  - rewrite Hb. unfold g1. simpl. rewrite <- (assoc_L (++)). f_equal. destruct (sparse <=? _); [|done].
    rewrite (index_bytes_cons _ (index_of _ _ _ _ l)). unfold index_bytes at 1. simpl. by rewrite app_nil_r.
  - intros [|w' pre] w2 Heq; injection Heq as -> Heq.
    + subst l. rewrite (Hnil eq_refl). change (remaining (wires [])) with 0. unfold g1. simpl. lia.
    + rewrite (Hl pre w2 Heq). unfold g1. simpl. rewrite wires_cons, remaining_app. lia.
Qed.

(** What [gen_sparse_index] gives for batches that make up the payload. *)
Lemma gen_sparse_index_wires s payload l w pass sparse :
  concat payload = wires (l ++ [w]) -> Forall counted (l ++ [w]) ->
  Forall (fun w => s <= wire_end w < 2 ^ 64) (l ++ [w]) ->
  0 <= pass -> pass + remaining (wires (l ++ [w])) < 2 ^ 32 ->
  gen_sparse_index s payload pass sparse =
    Ret (Ok (index_bytes (index_of s sparse 0 pass (l ++ [w])), wire_end w, pass_of sparse pass (l ++ [w]))).
Proof.
  intros Hp Hc He H0 H32. unfold gen_sparse_index. rewrite Hp.
  assert (Forall wire_ok (l ++ [w])) as Hok by (eapply Forall_impl; [exact Hc|]; by intros ? []).
  destruct (index_loop_wires s sparse (l ++ [w]) (length (wires (l ++ [w]))) (mk_indexing [] pass 0 0))
    as (g & -> & Hb & Hpass & _ & Hl); [done|done|by apply wires_length|simpl; lia|done|done|].
  rewrite bind_Ret. specialize (Hl l w eq_refl). simpl in Hb, Hpass, Hl. rewrite Hl.
  rewrite wires_app, remaining_app in H32. change (wires [w]) with (wire_bytes w ++ []) in *. rewrite app_nil_r in H32.
  rewrite wires_app. change (wires [w]) with (wire_bytes w ++ []). rewrite app_nil_r.
  pose proof (remaining_nonneg (wires l)) as Hl0. rewrite remaining_wire in H32.
  pose proof (remaining_nonneg (wmeta w)). pose proof (remaining_nonneg (wpayload w)).
  rewrite uint_add_Ret by lia. rewrite bind_Ret.
  apply Forall_app in Hc as [_ [Hcw _]%Forall_cons]. apply Forall_app in He as [_ [Hew _]%Forall_cons].
  pose proof (index_end_wire w Hcw (proj2 Hew)) as Hend. destruct Hcw as [[Hm Hlen] _]. rewrite remaining_wire in Hlen.
  destruct w as [m p mt]. simpl in Hm, Hlen, Hend |- *. unfold wire_bytes, batch_wire. simpl wmeta. simpl wpayload.
  replace (wires l ++ put_uint 1 Magic0 ++ put_uint 4 (remaining m) ++ m ++ put_uint 4 (remaining p) ++ p)
    with ((wires l ++ put_uint 1 Magic0) ++ put_uint 4 (remaining m) ++ m ++ put_uint 4 (remaining p) ++ p)
    by by rewrite <- (assoc_L (++)).
  rewrite advance_remaining by (rewrite remaining_app, remaining_put; lia). rewrite bind_Ret.
  rewrite get_int_put by (unfold is_sint; simpl in *; lia). rewrite bind_Ret.
  rewrite as_uint_id by (unfold is_uint; simpl in *; lia). rewrite slice_prefix by done. rewrite bind_Ret, Hm, Hend, bind_Ret.
  by rewrite Hb, Hpass.
Qed.
End indexing.

(** ** The objects of a range *)

Section offload.
Context {B : BytesApi} {BL : BytesLaws B} {M : MetaApi}.
Context (sid ri ep : Z) (cluster : list Ascii.ascii) (osize : Z).
Hypothesis Hosize : 0 < osize <= 2 ^ 31.

(** An object that holds the batches [g], from [x] to [y], and its metadata. *)
Record stored_of (x : Z) (g : list wire) (y : Z) (st : stored) : Prop := {
  stored_wires : Forall counted g;
  stored_some : g <> [];
  stored_run : run x (wire_record <$> g) y;
  stored_u32 : remaining (wires g) < 2 ^ 32;
  stored_at : stored_key st = gen_object_key cluster sid ri ep x;
  stored_data : exists rest, stored_bytes st = wires g ++ rest;
  stored_meta : stored_metadata st = ObjectMetadata.mk sid ri ep x (y - x) (remaining (wires g)) [] None;
}.

Fixpoint tiled (x : Z) (l : list stored) (groups : list (list wire)) (y : Z) : Prop :=
  match l, groups with
  | [], [] => x = y
  | st :: l, g :: groups => exists w, stored_of x g w st /\ tiled w l groups y
  | _, _ => False
  end.

Lemma tiled_snoc x l groups w g y st :
  tiled x l groups w -> stored_of w g y st -> tiled x (l ++ [st]) (groups ++ [g]) y.
Proof.
  revert x groups. induction l as [|st' l IH]; intros x [|g' groups]; simpl; try done.
  - intros -> ?. by exists y.
  - intros (v & ? & ?) ?. exists v. eauto.
Qed.

Lemma run_wire_ends x l y :
  run x (wire_record <$> l) y -> Forall (fun w => x <= wire_end w < 2 ^ 64) l /\
  forall pre w, l = pre ++ [w] -> wire_end w = y.
Proof.
  revert x. induction l as [|w l IH]; intros x; [intros _; split; [constructor|by intros []]|].
  rewrite fmap_cons. intros (Hst & Hd & H64 & Hr). destruct (IH _ Hr) as [Hf Hl]. split.
  - constructor; [unfold wire_end; rewrite Hst; lia|]. eapply Forall_impl; [exact Hf|]. intros v Hv. cbv beta in Hv |- *. lia.
  - intros [|w' pre] w2 Heq; injection Heq as -> Heq; [|by eapply Hl].
    subst l. unfold wire_end. rewrite Hst. exact Hr.
Qed.

Lemma gen_index x s payload l y pass :
  x <= s -> run s (wire_record <$> l) y -> l <> [] -> concat payload = wires l -> Forall counted l ->
  0 <= pass -> pass + remaining (wires l) < 2 ^ 32 ->
  exists pass', gen_sparse_index x payload pass SPARSE_SIZE =
      Ret (Ok (index_bytes (index_of x SPARSE_SIZE 0 pass l), y, pass')) /\
    0 <= pass' <= pass + remaining (wires l).
Proof.
  intros Hx Hr Hne Hp Hc H0 H32. destruct (run_wire_ends _ _ _ Hr) as [Hends Hlast].
  exists (pass_of SPARSE_SIZE pass l). split.
  - destruct l as [|w l _] using rev_ind; [done|]. rewrite (gen_sparse_index_wires x payload l w) ; try done.
    + by rewrite (Hlast l w eq_refl).
    + eapply Forall_impl; [exact Hends|]. simpl. intros ? ?. lia.
  - clear -H0. revert pass H0. induction l as [|w l IH]; intros pass H0; [simpl; change (remaining (wires [])) with 0; lia|].
    rewrite wires_cons, remaining_app. cbn [pass_of]. pose proof (remaining_nonneg (wire_bytes w)). pose proof (remaining_nonneg (wires l)). case_match.
    + specialize (IH 0). lia.
    + specialize (IH (pass + remaining (wire_bytes w))). lia.
Qed.

(** *** The writing task *)

Definition event_bytes (l : list MultiPartWriteEvent.t) : list byte :=
  concat ((fun ev => concat (MultiPartWriteEvent.data ev)) <$> l).
Definition events_end (x : Z) (l : list MultiPartWriteEvent.t) : Z :=
  foldl (fun e ev => Z.max e (MultiPartWriteEvent.end_offset ev)) x l.

Lemma write_loop_events o l w :
  Forall (fun ev => concat (MultiPartWriteEvent.data ev) <> []) l ->
  0 <= MultiPartObject.data_len w -> 0 <= MultiPartObject.w_end_offset w ->
  MultiPartObject.data_len w + remaining (event_bytes l) < 2 ^ 32 - 1 ->
  ObjectMetadata.start_offset (MultiPartObject.metadata o) <= MultiPartObject.w_end_offset w ->
  exists rest m, MultiPartObject.write_loop o w (l ++ [MultiPartWriteEvent.mk [] [] 0]) =
      Ret (Some (mk_stored (MultiPartObject.key o) (MultiPartObject.written w ++ event_bytes l ++ rest) m)) /\
    set_extent (MultiPartObject.metadata o) (events_end (MultiPartObject.w_end_offset w) l)
      (MultiPartObject.data_len w + remaining (event_bytes l)) = Ret m.
Proof.
  intros Hl. revert w. induction Hl as [|ev l Hev _ IH]; intros w H0 He0 H32 Hst.
  - change (remaining (event_bytes [])) with 0 in *. simpl. change (remaining []) with 0.
    rewrite uint_add_Ret by lia. simpl.
    rewrite (proj2 (Z.ltb_ge _ _)) by lia. unfold ObjectMetadata.gen_footer.
    rewrite (as_uint_id 32 (MultiPartObject.data_len w + 0)) by (unfold is_uint; lia).
    rewrite uint_add_Ret by lia. simpl. unfold set_extent. rewrite uint_sub_Ret by lia. simpl. eexists _, _. by split.
  - assert (event_bytes (ev :: l) = concat (MultiPartWriteEvent.data ev) ++ event_bytes l) as Heb by done.
    rewrite Heb, remaining_app in *. pose proof (remaining_nonneg (concat (MultiPartWriteEvent.data ev))).
    pose proof (remaining_nonneg (event_bytes l)). simpl. rewrite uint_add_Ret by lia. rewrite bind_Ret.
    destruct (IH (MultiPartObject.mk_writing (MultiPartObject.data_len w + remaining (concat (MultiPartWriteEvent.data ev)))
      (if MultiPartObject.w_end_offset w <? MultiPartWriteEvent.end_offset ev then MultiPartWriteEvent.end_offset ev
       else MultiPartObject.w_end_offset w) (MultiPartObject.sparse_index w ++ MultiPartWriteEvent.index ev)
      (MultiPartObject.written w ++ concat (MultiPartWriteEvent.data ev)))) as (rest & m & Hw & Hm);
      [simpl; lia|simpl; case_match; lia|simpl; lia|simpl; destruct (Z.ltb_spec (MultiPartObject.w_end_offset w) (MultiPartWriteEvent.end_offset ev)); lia|].
    exists rest, m. split.
    + destruct (concat (MultiPartWriteEvent.data ev)) eqn:Hd; [done|]. rewrite Hw. simpl. by rewrite <- !(assoc_L (++)).
    + rewrite <- Hm. simpl. f_equal; [|lia]. f_equal.
      destruct (Z.ltb_spec (MultiPartObject.w_end_offset w) (MultiPartWriteEvent.end_offset ev)); lia.
Qed.

(** A multi-part object that holds the batches [g], from [x] to [y]. *)
Record multi_part_of (x : Z) (g : list wire) (y : Z) (o : MultiPartObject.t) : Prop := {
  part_wires : Forall counted g;
  part_some : g <> [];
  part_run : run x (wire_record <$> g) y;
  part_metadata : MultiPartObject.metadata o = ObjectMetadata.new sid ri ep x;
  part_key : MultiPartObject.key o = gen_object_key cluster sid ri ep x;
  part_object_size : MultiPartObject.object_size o = osize;
  part_size : MultiPartObject.size o = remaining (wires g);
  part_bound : remaining (wires g) < 2 ^ 32 - 1;
  part_pass : 0 <= MultiPartObject.last_pass_through_size o <= remaining (wires g);
  part_events : Forall (fun ev => concat (MultiPartWriteEvent.data ev) <> []) (MultiPartObject.events o);
  part_data : event_bytes (MultiPartObject.events o) = wires g;
  part_end : events_end x (MultiPartObject.events o) = y;
}.

Lemma multi_part_completes x g y o r :
  0 <= x -> y - x < 2 ^ 32 -> multi_part_of x g y o ->
  exists st, RangeOffload.complete r o = Ret (RangeOffload.set_multi_part r None (RangeOffload.objects r ++ [st])) /\
    stored_of x g y st.
Proof.
  intros Hx Hy H. pose proof (part_run _ _ _ _ H) as Hr. pose proof (run_le _ _ _ Hr).
  unfold RangeOffload.complete, MultiPartObject.run_writer. simpl.
  destruct (write_loop_events (MultiPartObject.close o) (MultiPartObject.events o)
    (MultiPartObject.mk_writing 0 (ObjectMetadata.start_offset (MultiPartObject.metadata o)) [] []))
    as (rest & m & -> & Hm).
  - apply H.
  - done.
  - rewrite (part_metadata _ _ _ _ H). done.
  - simpl. rewrite (part_data _ _ _ _ H). apply H.
  - simpl. lia.
  - rewrite bind_Ret. simpl. eexists. split; [done|].
    assert (m = ObjectMetadata.mk sid ri ep x (y - x) (remaining (wires g)) [] None) as ->.
    { simpl in Hm. rewrite (part_metadata _ _ _ _ H), (part_data _ _ _ _ H) in Hm. unfold set_extent in Hm. simpl in Hm.
      rewrite (part_end _ _ _ _ H), uint_sub_Ret in Hm by lia. simpl in Hm.
      pose proof (part_bound _ _ _ _ H). pose proof (remaining_nonneg (wires g)).
      rewrite !as_uint_id in Hm by (unfold is_uint; lia). by injection Hm as <-. }
    constructor; simpl; try apply H; [pose proof (part_bound _ _ _ _ H); lia| |done].
    exists rest. by rewrite (part_data _ _ _ _ H).
Qed.

(** A payload of batches. *)
Record payload_of (y : Z) (k : list wire) (y' : Z) (payload : list (list byte)) : Prop := {
  payload_wires : Forall counted k;
  payload_some : k <> [];
  payload_run : run y (wire_record <$> k) y';
  payload_bytes : concat payload = wires k;
  payload_bound : remaining (wires k) < 2 ^ 31;
}.

Lemma multi_part_writes x g y k y' o payload :
  0 <= x -> multi_part_of x g y o -> remaining (wires g) < osize -> payload_of y k y' payload ->
  exists o', MultiPartObject.write o payload = Ret (o', (osize <=? remaining (wires (g ++ k)), y')) /\
    multi_part_of x (g ++ k) y' o'.
Proof.
  intros Hx H Hsz [Hk Hne Hrk Hp Hb]. pose proof (part_run _ _ _ _ H) as Hrg. pose proof (run_le _ _ _ Hrg).
  pose proof (run_le _ _ _ Hrk). pose proof (remaining_nonneg (wires g)). pose proof (remaining_nonneg (wires k)).
  pose proof (part_pass _ _ _ _ H). unfold MultiPartObject.write. rewrite Hp, (part_size _ _ _ _ H).
  rewrite as_uint_id by (unfold is_uint; lia). rewrite uint_add_Ret, bind_Ret by lia.
  rewrite (part_metadata _ _ _ _ H). cbn [ObjectMetadata.start_offset ObjectMetadata.new].
  destruct (gen_index x y payload k y' (MultiPartObject.last_pass_through_size o)) as (pass' & -> & Hpass'); [lia|done..|lia|lia|].
  rewrite bind_Ret, (part_object_size _ _ _ _ H), wires_app, remaining_app. eexists. split; [done|].
  assert (concat payload <> []) as Hpne.
  { rewrite Hp. destruct k as [|w k]; [done|]. rewrite wires_cons. apply wire_nonempty. }
  constructor; cbn [MultiPartObject.metadata MultiPartObject.key MultiPartObject.object_size MultiPartObject.size
    MultiPartObject.last_pass_through_size MultiPartObject.events]; rewrite ?wires_app, ?remaining_app; try apply H; try lia.
  - apply Forall_app. split; [apply H|done].
  - by destruct g.
  - rewrite fmap_app. apply run_app. by exists y.
  - done.
  - apply Forall_app. split; [apply H|]. by constructor.
  - unfold event_bytes. rewrite fmap_app, concat_app. simpl. rewrite app_nil_r, Hp. f_equal. apply H.
  - unfold events_end. rewrite foldl_app. simpl. fold (events_end x (MultiPartObject.events o)). rewrite (part_end _ _ _ _ H). lia.
Qed.

Lemma multi_part_new x k y' payload :
  0 <= x -> payload_of x k y' payload ->
  exists o', MultiPartObject.write (MultiPartObject.new (ObjectMetadata.new sid ri ep x)
      (gen_object_key cluster sid ri ep x) osize) payload = Ret (o', (osize <=? remaining (wires k), y')) /\
    multi_part_of x k y' o'.
Proof.
  intros Hx [Hk Hne Hrk Hp Hb]. pose proof (run_le _ _ _ Hrk). pose proof (remaining_nonneg (wires k)).
  unfold MultiPartObject.write. simpl MultiPartObject.size. rewrite Hp.
  rewrite as_uint_id by (unfold is_uint; lia). rewrite uint_add_Ret, bind_Ret by lia. simpl MultiPartObject.metadata.
  simpl MultiPartObject.last_pass_through_size. cbn [ObjectMetadata.start_offset ObjectMetadata.new].
  destruct (gen_index x x payload k y' 0) as (pass' & -> & Hpass'); [lia|done..|lia|].
  rewrite bind_Ret. simpl. eexists. split; [done|].
  assert (concat payload <> []) as Hpne.
  { rewrite Hp. destruct k as [|w k]; [done|]. rewrite wires_cons. apply wire_nonempty. }
  constructor; simpl; try done; try lia.
  - by constructor.
  - unfold event_bytes. simpl. by rewrite app_nil_r.
Qed.

Lemma object_writes x k y' payload :
  0 <= x -> y' - x < 2 ^ 32 -> payload_of x k y' payload ->
  exists st, write_object (gen_object_key cluster sid ri ep x) payload (ObjectMetadata.new sid ri ep x) SPARSE_SIZE =
      Ret (y', st) /\ stored_of x k y' st.
Proof.
  intros Hx Hy [Hk Hne Hrk Hp Hb]. pose proof (run_le _ _ _ Hrk). pose proof (remaining_nonneg (wires k)).
  unfold write_object. cbn [ObjectMetadata.start_offset ObjectMetadata.new].
  destruct (gen_index x x payload k y' 0) as (pass' & -> & _); [lia|done..|lia|]. rewrite bind_Ret, Hp.
  unfold set_extent. cbn [ObjectMetadata.start_offset ObjectMetadata.new]. rewrite uint_sub_Ret, bind_Ret by lia.
  rewrite !(as_uint_id 32 (remaining (wires k))), (as_uint_id 32 (y' - x)) by (unfold is_uint; lia). rewrite bind_Ret.
  unfold ObjectMetadata.gen_footer. rewrite uint_add_Ret by lia. rewrite !bind_Ret. eexists. split; [done|].
  constructor; simpl; try done; [lia|]. by eexists.
Qed.

(** What a range has offloaded of the batches [l], from [s] to [e]: objects that follow each
    other from [s] on, and an open one behind them. *)
Record offloaded (s : Z) (l : list wire) (e : Z) (r : RangeOffload.t) : Prop := {
  off_ids : RangeOffload.stream_id r = sid /\ RangeOffload.range_index r = ri /\ RangeOffload.epoch r = ep /\
    RangeOffload.cluster r = cluster /\ RangeOffload.object_size r = osize;
  off_start : 0 <= s;
  off_tiles : exists groups x open, l = concat groups ++ open /\ tiled s (RangeOffload.objects r) groups x /\ s <= x /\
    match RangeOffload.multi_part_object r with
    | None => open = [] /\ x = e
    | Some o => multi_part_of x open e o /\ remaining (wires open) < osize
    end;
}.

Lemma tiled_le x l groups y : tiled x l groups y -> x <= y.
Proof.
  revert x groups. induction l as [|st l IH]; intros x [|g groups]; simpl; try done; [lia|].
  intros (w & Hst & Ht%IH). pose proof (run_le _ _ _ (stored_run _ _ _ _ Hst)). lia.
Qed.

Lemma offload_flush s l e r :
  offloaded s l e r -> e - s < 2 ^ 32 ->
  exists r', RangeOffload.flush r = Ret r' /\ offloaded s l e r' /\ RangeOffload.multi_part_object r' = None.
Proof.
  intros [(H1 & H2 & H3 & H4 & H5) H0 (groups & x & open & -> & Ht & Hx & Hm)] He. unfold RangeOffload.flush.
  destruct (RangeOffload.multi_part_object r) as [o|] eqn:Ho.
  - destruct Hm as [Hm Hsz]. destruct (multi_part_completes x open e o r) as (st & -> & Hst); [lia|lia|done|].
    eexists. split; [done|]. split; [|done]. constructor; [done|done|]. simpl.
    exists (groups ++ [open]), e, []. split_and!; try done.
    + rewrite concat_app. simpl. by rewrite !app_nil_r.
    + by eapply tiled_snoc.
    + pose proof (run_le _ _ _ (part_run _ _ _ _ Hm)). lia.
  - exists r. split; [done|]. split; [|done]. constructor; [done|done|]. exists groups, x, open. by rewrite Ho.
Qed.

Lemma offload_write s l e r k e' payload :
  offloaded s l e r -> payload_of e k e' payload -> e' - s < 2 ^ 32 ->
  exists r', RangeOffload.write r e payload = Ret (r', e') /\ offloaded s (l ++ k) e' r'.
Proof.
  intros [(H1 & H2 & H3 & H4 & H5) H0 (groups & x & open & -> & Ht & Hx & Hm)] Hp He.
  pose proof (run_le _ _ _ (payload_run _ _ _ _ Hp)) as Hle. unfold RangeOffload.write.
  pose proof (payload_bound _ _ _ _ Hp) as Hb. pose proof (remaining_nonneg (wires k)).
  rewrite (payload_bytes _ _ _ _ Hp), as_uint_id, H1, H2, H3, H4, H5 by (unfold is_uint; lia).
  destruct (RangeOffload.multi_part_object r) as [o|] eqn:Ho.
  - destruct Hm as [Hm Hsz]. destruct (multi_part_writes x open e k e' o payload) as (o' & -> & Ho'); [lia|done..|].
    rewrite bind_Ret. destruct (Z.leb_spec osize (remaining (wires (open ++ k)))) as [Hfull|Hfull].
    + destruct (multi_part_completes x (open ++ k) e' o' r) as (st & -> & Hst); [lia|lia|done|]. rewrite bind_Ret.
      eexists. split; [done|]. constructor; [done|done|]. simpl. exists (groups ++ [open ++ k]), e', [].
      split_and!; try done; [|by eapply tiled_snoc|pose proof (run_le _ _ _ (part_run _ _ _ _ Hm)); lia].
      rewrite concat_app. simpl. by rewrite !app_nil_r, (assoc_L (++)).
    + eexists. split; [done|]. constructor; [done|done|]. simpl. exists groups, x, (open ++ k).
      split_and!; try done. by rewrite (assoc_L (++)).
  - destruct Hm as [-> ->]. rewrite app_nil_r. destruct (Z.leb_spec osize (remaining (wires k))) as [Hfull|Hfull].
    + destruct (object_writes e k e' payload) as (st & -> & Hst); [lia|lia|done|]. rewrite bind_Ret.
      eexists. split; [done|]. constructor; [done|done|]. simpl. exists (groups ++ [k]), e', [].
      split_and!; try done; [|by eapply tiled_snoc|lia]. rewrite concat_app. simpl. by rewrite !app_nil_r.
    + destruct (multi_part_new e k e' payload) as (o' & -> & Ho'); [lia|done|]. rewrite bind_Ret.
      eexists. split; [done|]. constructor; [done|done|]. simpl. exists groups, e, k. by split_and!.
Qed.

Lemma offloaded_new s : 0 <= s -> offloaded s [] s (RangeOffload.new sid ri ep cluster osize).
Proof. intros Hs. constructor; [done|done|]. exists [], s, []. simpl. split_and!; try done; lia. Qed.
End offload.

(** ** Keys *)

Definition unhex (c : Ascii.ascii) : Z :=
  let n := Z.of_nat (Ascii.nat_of_ascii c) in if n <? 58 then n - 48 else n - 87.

Lemma hex_digit_spec d : 0 <= d < 16 -> unhex (hex_digit d) = d /\ hex_digit d <> underscore.
Proof.
  intros Hd. assert (d ∈ seqZ 0 16) as Hin by (apply elem_of_seqZ; lia).
  assert (Forall (fun d => unhex (hex_digit d) = d /\ hex_digit d <> underscore) (seqZ 0 16)) as Hall.
  { repeat (constructor; [split; [by vm_compute|by vm_compute]|]). constructor. }
  rewrite Forall_forall in Hall. by apply Hall.
Qed.

Lemma hex_rev_inj fuel n m :
  0 <= n < 16 ^ Z.of_nat fuel -> 0 <= m < 16 ^ Z.of_nat fuel -> hex_rev fuel n = hex_rev fuel m -> n = m.
Proof.
  revert n m. induction fuel as [|fuel IH]; intros n m Hn Hm; [change (16 ^ Z.of_nat 0) with 1 in *; lia|].
  rewrite Nat2Z.inj_succ, Z.pow_succ_r in Hn, Hm by lia. simpl. intros Heq. injection Heq as Hd Hr.
  pose proof (Z.mod_pos_bound n 16). pose proof (Z.mod_pos_bound m 16).
  assert (n mod 16 = m mod 16) as Hmod.
  { rewrite <- (proj1 (hex_digit_spec (n mod 16) ltac:(lia))), Hd. by apply hex_digit_spec; lia. }
  assert (forall k, 0 <= k -> fuel <> O -> hex_rev fuel k <> []) as Hne by (intros k _; by destruct fuel).
  pose proof (Z.div_mod n 16). pose proof (Z.div_mod m 16).
  destruct (Z.ltb_spec n 16); destruct (Z.ltb_spec m 16).
  - rewrite !Z.mod_small in Hmod by lia. done.
  - exfalso. apply (Hne (m / 16)); [apply Z.div_pos; lia| |done]. intros ->. change (16 ^ Z.of_nat 0) with 1 in *. lia.
  - exfalso. apply (Hne (n / 16)); [apply Z.div_pos; lia| |done]. intros ->. change (16 ^ Z.of_nat 0) with 1 in *. lia.
  - assert (n / 16 = m / 16) as Hdiv.
    { apply IH; [split; [apply Z.div_pos; lia|apply Z.div_lt_upper_bound; lia]..|done]. }
    lia.
Qed.

Lemma hex_rev_digits fuel n : 0 <= n -> underscore ∉ hex_rev fuel n.
Proof.
  revert n. induction fuel as [|fuel IH]; intros n Hn; simpl; [apply not_elem_of_nil|].
  pose proof (Z.mod_pos_bound n 16). apply not_elem_of_cons. split.
  - intros Heq. by apply (proj2 (hex_digit_spec (n mod 16) ltac:(lia))).
  - case_match; [apply not_elem_of_nil|]. apply IH. apply Z.div_pos; lia.
Qed.

Lemma to_hex_inj n m : is_u64 n -> is_u64 m -> to_hex n = to_hex m -> n = m.
Proof.
  intros Hn Hm Heq%(inj reverse). apply (hex_rev_inj 16); [..|done];
    unfold is_u64, is_uint in *; change (16 ^ Z.of_nat 16) with (2 ^ 64); lia.
Qed.

Lemma to_hex_digits n : 0 <= n -> underscore ∉ to_hex n.
Proof. intros Hn. unfold to_hex. rewrite elem_of_reverse. by apply hex_rev_digits. Qed.

Lemma split_right {A} (u : A) a b c d :
  u ∉ b -> u ∉ d -> a ++ u :: b = c ++ u :: d -> a = c /\ b = d.
Proof.
  intros Hb Hd [(k & -> & Hk)|(k & -> & Hk)]%app_eq_inv; destruct k as [|v k]; simplify_eq/=.
  - by rewrite app_nil_r.
  - set_solver.
  - by rewrite app_nil_r.
  - set_solver.
Qed.

(** Two objects of a cluster never share a key: the key determines the stream, the range,
    the epoch of the owner and the first offset.  So an object that a former owner of a range
    still writes does not overwrite one of the new owner. *)
Theorem gen_object_key_inj cluster s r e o s' r' e' o' :
  is_u64 s -> is_u64 r -> is_u64 e -> is_u64 o -> is_u64 s' -> is_u64 r' -> is_u64 e' -> is_u64 o' ->
  gen_object_key cluster s r e o = gen_object_key cluster s' r' e' o' -> s = s' /\ r = r' /\ e = e' /\ o = o'.
Proof.
  intros Hs Hr He Ho Hs' Hr' He' Ho' H. unfold gen_object_key in H.
  set (p := reverse _) in H. set (p' := reverse _) in H. clearbody p p'.
  assert (forall p x y z w, p ++ [underscore] ++ cluster ++ [underscore] ++ x ++ [underscore] ++ y ++ [underscore] ++ z ++ [underscore] ++ w =
    ((((p ++ [underscore] ++ cluster) ++ underscore :: x) ++ underscore :: y) ++ underscore :: z) ++ underscore :: w) as Hassoc.
  { intros. by rewrite <- !(assoc_L (++)). }
  rewrite !Hassoc in H. clear Hassoc.
  assert (forall n, is_u64 n -> underscore ∉ to_hex n) as Hhex by (intros n Hn; apply to_hex_digits; apply Hn).
  apply split_right in H as [H Ho2]; [|by apply Hhex..]. apply split_right in H as [H He2]; [|by apply Hhex..].
  apply split_right in H as [H Hr2]; [|by apply Hhex..]. apply split_right in H as [_ Hs2]; [|by apply Hhex..].
  by split_and!; apply to_hex_inj.
Qed.

Lemma gen_object_key_inj_witness :
  gen_object_key [] 1 2 3 4 = gen_object_key [] 1 2 3 4 /\ (1 = 1 /\ 2 = 2 /\ 3 = 3 /\ 4 = 4).
Proof. split; [done|]. apply (gen_object_key_inj [] 1 2 3 4 1 2 3 4); done. Defined.
