(* ===== verification/ObjectStorage.v ===== *)
(** * Object storage of a range server

    [components/object-storage/src/range_accumulator.rs] and [object_storage.rs]: the sizes of
    what is committed to the ranges that the server offloads, the events that make a range
    offload, and the loop that reads the range and writes it to objects. *)

From S2P Require Import Prelude Bytes Collections Model Record RecordsBlock ReplicaCache Replication CacheStream ObjectStream Offload.

(** [RangeKey] of [lib.rs]: stream id and range index. *)
Abbreviation RangeKey := (Z * Z)%type.

(** ** [range_accumulator.rs] *)

Inductive EventKind := ObjectFull | PartFull | TimeExpired | Close.

Module DefaultRangeAccumulator.
(** [tx] is what the channel holds, of which the capacity is 16; times are in milliseconds. *)
Record t := mk {
  size : Z;                    (* u32 *)
  tx : list EventKind;
  object_size : Z;             (* u32 *)
  part_size : Z;               (* u32 *)
  timestamp : Z;
}.

Definition new (object_size part_size now : Z) : t := mk 0 [] object_size part_size now.

(** [try_send]: an event is lost when the channel is full. *)
Definition try_send (l : list EventKind) (ev : EventKind) : list EventKind :=
  if (length l <? 16)%nat then l ++ [ev] else l.

(** [-(old_size as i32)] *)
Definition neg_i32 (old_size : Z) : outcome Z := sint_sub 32 0 (as_sint 32 old_size).

Definition accumulate (a : t) (records_size now : Z) : outcome (t * (Z * bool)) :=
  sz ← u32_add (size a) records_size;
  if object_size a <=? sz then
    d ← neg_i32 (size a);
    Ret (mk 0 (try_send (tx a) ObjectFull) (object_size a) (part_size a) now, (d, false))
  else
    Ret (mk sz (tx a) (object_size a) (part_size a) (timestamp a), (as_sint 32 records_size, part_size a <=? sz)).

Definition try_flush (a : t) (max_duration now : Z) : outcome (t * Z) :=
  if negb (size a =? 0) && (max_duration <? now - timestamp a) then
    d ← neg_i32 (size a);
    Ret (mk 0 (try_send (tx a) TimeExpired) (object_size a) (part_size a) now, d)
  else Ret (a, 0).

Definition try_offload_part (a : t) : outcome (t * Z) :=
  if part_size a <=? size a then
    d ← neg_i32 (size a);
    Ret (mk 0 (try_send (tx a) PartFull) (object_size a) (part_size a) (timestamp a), d)
  else Ret (a, 0).

Section read_loop.
Context {B : BytesApi} {M : MetaApi}.

(** The inner loop of [read_loop]: the payloads that the fetches return, up to the one that
    is empty or finds no record; a fetch that fails otherwise is repeated. *)
Fixpoint read_all (r : RangeOffload.t) (next_offset : Z) (payloads : list (list (list byte)))
    : outcome (RangeOffload.t * Z) :=
  _ ← uint_mul 32 (RangeOffload.object_size r) 3;
  match payloads with
  | [] => Ret (r, next_offset)
  | payload :: payloads =>
      '(r, next_offset) ← RangeOffload.write r next_offset payload;
      read_all r next_offset payloads
  end.

(** An event of [read_loop], with what the fetches return; [None] when the loop ends.  A
    shutdown is handled as [Close]. *)
Definition read_event (r : RangeOffload.t) (next_offset : Z) (ev : EventKind) (payloads : list (list (list byte)))
    : outcome (RangeOffload.t * option Z) :=
  match ev with
  | Close => r ← RangeOffload.flush r; Ret (r, None)
  | _ =>
      '(r, next_offset) ← read_all r next_offset payloads;
      match ev with
      | TimeExpired => r ← RangeOffload.flush r; Ret (r, Some next_offset)
      | _ => Ret (r, Some next_offset)
      end
  end.
End read_loop.
End DefaultRangeAccumulator.

(** ** [object_storage.rs] *)

Module ObjectStorageConfig.
Record t := mk { object_size : Z; part_size : Z; max_cache_size : Z; cache_low_watermark : Z }.
End ObjectStorageConfig.

Module DefaultObjectStorage.
(** [op]: whether there is an operator; [running]: whether the shutdown channel is there. *)
Record t := mk {
  config : ObjectStorageConfig.t;
  ranges : gmap RangeKey DefaultRangeAccumulator.t;
  part_full_ranges : gset RangeKey;
  cache_size : Z;              (* i64 *)
  op : bool;
  running : bool;
}.

Definition new (config : ObjectStorageConfig.t) (op : bool) : t := mk config ∅ ∅ 0 op true.

Definition set_ranges (s : t) (m : gmap RangeKey DefaultRangeAccumulator.t) : t :=
  mk (config s) m (part_full_ranges s) (cache_size s) (op s) (running s).
Definition set_range (s : t) (k : RangeKey) (a : DefaultRangeAccumulator.t) : t := set_ranges s (<[k := a]> (ranges s)).
Definition set_cache_size (s : t) (n : Z) : t :=
  mk (config s) (ranges s) (part_full_ranges s) n (op s) (running s).
Definition set_part_full (s : t) (l : gset RangeKey) : t :=
  mk (config s) (ranges s) l (cache_size s) (op s) (running s).

(** The accumulator of a range that is replaced is dropped, which closes its loop. *)
Definition add_range (s : t) (k : RangeKey) (now : Z) : t :=
  if negb (op s) || negb (running s) then s
  else set_range s k (DefaultRangeAccumulator.new (ObjectStorageConfig.object_size (config s))
                        (ObjectStorageConfig.part_size (config s)) now).

Definition remove_range (s : t) (k : RangeKey) : t :=
  if negb (op s) then s else set_ranges s (delete k (ranges s)).

(** [handle_owner_event], with whether the server is the owner. *)
Definition handle_owner_event (s : t) (k : RangeKey) (owner : bool) (now : Z) : t :=
  if owner then add_range s k now else remove_range s k.

(** [*cache_size += i64::from(range.try_offload_part())] *)
Definition offload_part (s : t) (k : RangeKey) (a : DefaultRangeAccumulator.t) : outcome t :=
  '(a, d) ← DefaultRangeAccumulator.try_offload_part a;
  n ← sint_add 64 (cache_size s) d;
  Ret (set_cache_size (set_range s k a) n).

(** The loop over the ranges with a full part, in the order of the hash set; the keys to
    remove. *)
Fixpoint offload_parts (s : t) (order : list RangeKey) : outcome (t * list RangeKey) :=
  match order with
  | [] => Ret (s, [])
  | k :: order =>
      match ranges s !! k with
      | None => offload_parts s order
      | Some a =>
          s ← offload_part s k a;
          if cache_size s <? as_sint 64 (ObjectStorageConfig.cache_low_watermark (config s)) then Ret (s, [k])
          else
          '(s, l) ← offload_parts s order;
          Ret (s, k :: l)
      end
  end.

(** [order] is the order in which the hash set is traversed. *)
Definition new_commit (s : t) (k : RangeKey) (record_size : Z) (order : list RangeKey) (now : Z) : outcome t :=
  if negb (op s) then Ret s
  else
  match ranges s !! k with
  | None => Ret s
  | Some a =>
      '(a, (size_change, is_part_full)) ← DefaultRangeAccumulator.accumulate a record_size now;
      n ← sint_add 64 (cache_size s) size_change;
      let s := set_cache_size (set_range s k a) n in
      if as_uint 64 (cache_size s) <? ObjectStorageConfig.max_cache_size (config s) then
        Ret (if is_part_full : bool then set_part_full s ({[ k ]} ∪ part_full_ranges s) else s)
      else
      s ← (if is_part_full : bool then offload_part s k a else Ret s);
      '(s, remove_keys) ← offload_parts s order;
      Ret (set_part_full s (part_full_ranges s ∖ list_to_set remove_keys))
  end.

(** A tick of [run_force_flush_task]: the sizes that [try_flush] returns are not used. *)
Fixpoint force_flush (s : t) (keys : list RangeKey) (max_duration now : Z) : outcome t :=
  match keys with
  | [] => Ret s
  | k :: keys =>
      match ranges s !! k with
      | None => force_flush s keys max_duration now
      | Some a =>
          '(a, _) ← DefaultRangeAccumulator.try_flush a max_duration now;
          force_flush (set_range s k a) keys max_duration now
      end
  end.

Definition run_force_flush_task (s : t) (max_duration now : Z) : outcome t :=
  force_flush s (fst <$> map_to_list (ranges s)) max_duration now.
End DefaultObjectStorage.

(** ** The size of what is not offloaded yet *)

(** What [cache_size] counts and no accumulator holds. *)
Definition leak (s : DefaultObjectStorage.t) : Z :=
  DefaultObjectStorage.cache_size s - map_sum DefaultRangeAccumulator.size (DefaultObjectStorage.ranges s).

Definition accumulator_ok (a : DefaultRangeAccumulator.t) : Prop :=
  0 <= DefaultRangeAccumulator.size a < DefaultRangeAccumulator.object_size a /\
  DefaultRangeAccumulator.object_size a <= 2 ^ 31.

Definition storage_ok (s : DefaultObjectStorage.t) : Prop :=
  map_Forall (fun _ a => accumulator_ok a) (DefaultObjectStorage.ranges s) /\ 0 <= leak s /\
  0 < ObjectStorageConfig.object_size (DefaultObjectStorage.config s) <= 2 ^ 31.

Lemma neg_i32_Ret n : 0 <= n < 2 ^ 31 -> DefaultRangeAccumulator.neg_i32 n = Ret (- n).
Proof.
  intros Hn. unfold DefaultRangeAccumulator.neg_i32. rewrite as_sint_id by (unfold is_sint; lia).
  unfold sint_sub. rewrite sint_check_Ret by (unfold is_sint; lia). done.
Qed.

Lemma accumulate_ok a n now :
  accumulator_ok a -> 0 <= n < 2 ^ 31 ->
  exists a' d full, DefaultRangeAccumulator.accumulate a n now = Ret (a', (d, full)) /\ accumulator_ok a' /\
    DefaultRangeAccumulator.size a' = DefaultRangeAccumulator.size a + d /\ - 2 ^ 31 < d < 2 ^ 31.
Proof.
  intros [Ha Hs] Hn. unfold DefaultRangeAccumulator.accumulate. rewrite uint_add_Ret, bind_Ret by lia.
  destruct (Z.leb_spec (DefaultRangeAccumulator.object_size a) (DefaultRangeAccumulator.size a + n)).
  - rewrite neg_i32_Ret, bind_Ret by lia. eexists _, _, _. split; [done|]. unfold accumulator_ok. simpl. lia.
  - rewrite as_sint_id by (unfold is_sint; lia). eexists _, _, _. split; [done|]. unfold accumulator_ok. simpl. lia.
Qed.

Lemma try_offload_part_ok a :
  accumulator_ok a ->
  exists a' d, DefaultRangeAccumulator.try_offload_part a = Ret (a', d) /\ accumulator_ok a' /\
    DefaultRangeAccumulator.size a' = DefaultRangeAccumulator.size a + d /\ - 2 ^ 31 < d <= 0.
Proof.
  intros Ha. pose proof Ha as [H1 H2]. unfold DefaultRangeAccumulator.try_offload_part. case_match.
  - rewrite neg_i32_Ret, bind_Ret by lia. eexists _, _. split; [done|]. unfold accumulator_ok. simpl. lia.
  - eexists _, _. split; [done|]. split; [done|]. lia.
Qed.

Lemma try_flush_ok a max now :
  accumulator_ok a ->
  exists a' d, DefaultRangeAccumulator.try_flush a max now = Ret (a', d) /\ accumulator_ok a' /\
    DefaultRangeAccumulator.size a' = DefaultRangeAccumulator.size a + d /\ d <= 0.
Proof.
  intros Ha. pose proof Ha as [H1 H2]. unfold DefaultRangeAccumulator.try_flush. case_match.
  - rewrite neg_i32_Ret, bind_Ret by lia. eexists _, _. split; [done|]. unfold accumulator_ok. simpl. lia.
  - eexists _, _. split; [done|]. split; [done|]. lia.
Qed.

(** Replacing the accumulator of a range, when its size changes by [d] and [cache_size] by
    [d'], moves the leak by the difference. *)
Lemma leak_update s k a a' d d' :
  DefaultObjectStorage.ranges s !! k = Some a ->
  DefaultRangeAccumulator.size a' = DefaultRangeAccumulator.size a + d ->
  leak (DefaultObjectStorage.set_cache_size (DefaultObjectStorage.set_range s k a')
          (DefaultObjectStorage.cache_size s + d')) = leak s + (d' - d).
Proof.
  intros Hk Hd. unfold leak. simpl. rewrite map_sum_update, (map_sum_delete _ _ _ _ Hk). lia.
Qed.

Lemma storage_update s k a' n :
  storage_ok s -> accumulator_ok a' ->
  0 <= leak (DefaultObjectStorage.set_cache_size (DefaultObjectStorage.set_range s k a') n) ->
  storage_ok (DefaultObjectStorage.set_cache_size (DefaultObjectStorage.set_range s k a') n).
Proof.
  intros (Hr & _ & Hc) Ha Hl. split_and!; [|done|apply Hc..]. simpl. by apply map_Forall_insert_2.
Qed.

(** No step overflows while the counted size is well below [i64::MAX]. *)
Definition counts (s : DefaultObjectStorage.t) : Prop :=
  storage_ok s /\ DefaultObjectStorage.cache_size s < 2 ^ 62.

Lemma counted_nonneg s : storage_ok s -> 0 <= DefaultObjectStorage.cache_size s.
Proof.
  intros (Hr & Hl & _). unfold leak in Hl.
  assert (0 <= map_sum DefaultRangeAccumulator.size (DefaultObjectStorage.ranges s)); [|lia].
  clear Hl. induction (DefaultObjectStorage.ranges s) as [|k a m Hk IH] using map_ind; [done|].
  rewrite map_sum_insert by done. apply map_Forall_insert in Hr as [[Ha _] Hr]; [|done]. specialize (IH Hr). lia.
Qed.

Lemma counted_ge s k a :
  storage_ok s -> DefaultObjectStorage.ranges s !! k = Some a ->
  DefaultRangeAccumulator.size a <= DefaultObjectStorage.cache_size s.
Proof.
  intros Hs Hk. pose proof Hs as (Hr & Hl & Hc). unfold leak in Hl. rewrite (map_sum_delete _ _ _ _ Hk) in Hl.
  assert (storage_ok (DefaultObjectStorage.set_cache_size (DefaultObjectStorage.set_ranges s (delete k (DefaultObjectStorage.ranges s)))
    (map_sum DefaultRangeAccumulator.size (delete k (DefaultObjectStorage.ranges s))))) as H.
  { split_and!; [by apply map_Forall_delete|unfold leak; simpl; lia|apply Hc..]. }
  apply counted_nonneg in H. simpl in H. lia.
Qed.

Lemma offload_part_ok s k a :
  counts s -> DefaultObjectStorage.ranges s !! k = Some a ->
  exists s', DefaultObjectStorage.offload_part s k a = Ret s' /\ counts s' /\ leak s' = leak s /\
    dom (DefaultObjectStorage.ranges s') = dom (DefaultObjectStorage.ranges s).
Proof.
  intros [Hs Hlt] Hk. pose proof (counted_ge _ _ _ Hs Hk). pose proof Hs as (Hr & Hl & _).
  pose proof (Hr k a Hk) as Ha. destruct (try_offload_part_ok a Ha) as (a' & d & Hp & Ha' & Hsz & Hd).
  unfold DefaultObjectStorage.offload_part. rewrite Hp, bind_Ret. unfold sint_add.
  pose proof (proj1 (proj1 Ha')). rewrite sint_check_Ret, bind_Ret by (unfold is_sint; lia).
  pose proof (leak_update s k a a' d d Hk Hsz) as Hleak. rewrite Z.sub_diag, Z.add_0_r in Hleak.
  eexists. split; [done|]. split; [split; [apply storage_update; try done; lia|simpl; lia]|]. split; [done|].
  simpl. rewrite dom_insert_L. apply elem_of_dom_2 in Hk. set_solver.
Qed.

Lemma offload_parts_ok s order :
  counts s ->
  exists s' l, DefaultObjectStorage.offload_parts s order = Ret (s', l) /\ counts s' /\ leak s' = leak s.
Proof.
  revert s. induction order as [|k order IH]; intros s Hs; [by eexists _, _|]. simpl.
  destruct (DefaultObjectStorage.ranges s !! k) as [a|] eqn:Hk; [|eauto].
  destruct (offload_part_ok s k a Hs Hk) as (s1 & -> & Hs1 & Hl1 & _). rewrite bind_Ret.
  case_match; [by eexists _, _|]. destruct (IH s1 Hs1) as (s2 & l & -> & Hs2 & Hl2). rewrite bind_Ret.
  eexists _, _. split; [done|]. split; [done|]. lia.
Qed.

Lemma new_commit_ok s k n order now :
  storage_ok s -> DefaultObjectStorage.cache_size s < 2 ^ 61 -> 0 <= n < 2 ^ 31 ->
  exists s', DefaultObjectStorage.new_commit s k n order now = Ret s' /\ storage_ok s' /\ leak s' = leak s.
Proof.
  intros Hs Hlt Hn. unfold DefaultObjectStorage.new_commit. destruct (DefaultObjectStorage.op s); simpl; [|by exists s].
  destruct (DefaultObjectStorage.ranges s !! k) as [a|] eqn:Hk; [|by exists s].
  pose proof (counted_ge _ _ _ Hs Hk). pose proof Hs as (Hr & Hl & _). pose proof (Hr k a Hk) as Ha.
  destruct (accumulate_ok a n now Ha Hn) as (a' & d & full & -> & Ha' & Hsz & Hd). rewrite bind_Ret.
  unfold sint_add. pose proof (proj1 (proj1 Ha')). rewrite sint_check_Ret, bind_Ret by (unfold is_sint; lia).
  pose proof (leak_update s k a a' d d Hk Hsz) as Hleak. rewrite Z.sub_diag, Z.add_0_r in Hleak.
  set (s1 := DefaultObjectStorage.set_cache_size _ _) in *.
  assert (counts s1) as Hs1 by (split; [apply storage_update; try done; unfold s1 in Hleak; lia|simpl; lia]).
  case_match.
  { eexists. split; [done|]. destruct full; [|by destruct Hs1]. split; [|done]. apply Hs1. }
  assert (exists s2, (if full then DefaultObjectStorage.offload_part s1 k a' else Ret s1) = Ret s2 /\ counts s2 /\ leak s2 = leak s1)
    as (s2 & -> & Hs2 & Hl2).
  { destruct full; [|by exists s1]. destruct (offload_part_ok s1 k a' Hs1) as (s2 & ? & ? & ? & _); [|by exists s2].
    unfold s1. simpl. apply lookup_insert_eq. }
  rewrite bind_Ret. destruct (offload_parts_ok s2 order Hs2) as (s3 & l & -> & Hs3 & Hl3). rewrite bind_Ret.
  eexists. split; [done|]. split; [apply Hs3|]. change (leak s3 = leak s). lia.
Qed.

Lemma force_flush_ok s keys max now :
  storage_ok s ->
  exists s', DefaultObjectStorage.force_flush s keys max now = Ret s' /\ storage_ok s' /\ leak s <= leak s' /\
    DefaultObjectStorage.cache_size s' = DefaultObjectStorage.cache_size s.
Proof.
  revert s. induction keys as [|k keys IH]; intros s Hs; [by exists s|]. simpl.
  destruct (DefaultObjectStorage.ranges s !! k) as [a|] eqn:Hk; [|eauto]. pose proof Hs as (Hr & Hl & _).
  destruct (try_flush_ok a max now (Hr k a Hk)) as (a' & d & -> & Ha' & Hsz & Hd). rewrite bind_Ret.
  pose proof (leak_update s k a a' d 0 Hk Hsz) as Hleak. rewrite Z.add_0_r in Hleak.
  destruct (IH (DefaultObjectStorage.set_range s k a')) as (s' & -> & Hs' & Hle & Hc).
  - apply (storage_update s k a' (DefaultObjectStorage.cache_size s)); try done. lia.
  - exists s'. split; [done|]. split; [done|]. change (leak (DefaultObjectStorage.set_range s k a')) with
      (leak (DefaultObjectStorage.set_cache_size (DefaultObjectStorage.set_range s k a') (DefaultObjectStorage.cache_size s))) in Hle.
    split; [lia|done].
Qed.

(** What the storage is asked to do. *)
Inductive storage_event :=
| Commit (k : RangeKey) (record_size : Z) (order : list RangeKey)
| OwnerChange (k : RangeKey) (owner : bool)
| FlushTick (max_duration : Z).

Definition storage_step (s : DefaultObjectStorage.t) (ev : storage_event) (now : Z) : outcome DefaultObjectStorage.t :=
  match ev with
  | Commit k n order => DefaultObjectStorage.new_commit s k n order now
  | OwnerChange k owner => Ret (DefaultObjectStorage.handle_owner_event s k owner now)
  | FlushTick max => DefaultObjectStorage.run_force_flush_task s max now
  end.

Definition event_ok (ev : storage_event) : Prop := match ev with Commit _ n _ => 0 <= n < 2 ^ 31 | _ => True end.

Lemma owner_change_ok s k owner now :
  storage_ok s ->
  storage_ok (DefaultObjectStorage.handle_owner_event s k owner now) /\
  leak s <= leak (DefaultObjectStorage.handle_owner_event s k owner now).
Proof.
  intros Hs. pose proof Hs as (Hr & Hl & Hc). assert (forall m', map_Forall (fun _ a => accumulator_ok a) m' ->
    map_sum DefaultRangeAccumulator.size m' <= map_sum DefaultRangeAccumulator.size (DefaultObjectStorage.ranges s) ->
    storage_ok (DefaultObjectStorage.set_ranges s m') /\ leak s <= leak (DefaultObjectStorage.set_ranges s m')) as H.
  { intros m' Hm' Hle. assert (leak s <= leak (DefaultObjectStorage.set_ranges s m')) by (unfold leak; simpl; lia).
    split; [split_and!; [done|lia|apply Hc..]|done]. }
  assert (map_sum DefaultRangeAccumulator.size (delete k (DefaultObjectStorage.ranges s)) <=
    map_sum DefaultRangeAccumulator.size (DefaultObjectStorage.ranges s)) as Hdel.
  { destruct (DefaultObjectStorage.ranges s !! k) as [a|] eqn:Hk.
    - rewrite (map_sum_delete _ _ _ _ Hk). pose proof (Hr k a Hk) as [? _]. lia.
    - by rewrite delete_id. }
  unfold DefaultObjectStorage.handle_owner_event, DefaultObjectStorage.add_range, DefaultObjectStorage.remove_range.
  destruct owner, (DefaultObjectStorage.op s), (DefaultObjectStorage.running s); simpl; try (by split; [done|lia]).
  - apply H; [apply map_Forall_insert_2; [split; simpl; lia|done]|]. rewrite map_sum_update. simpl. lia.
  - apply H; [by apply map_Forall_delete|done].
  - apply H; [by apply map_Forall_delete|done].
Qed.

(** The size that steers the offloading only drifts upwards.  Whatever commits, changes
    of owner and ticks come, no step panics, [cache_size] never falls below what the
    accumulators hold, and what it counts beyond that never shrinks: a commit and the
    offloading it triggers leave it as it is, a tick that flushes ranges adds their size to
    it, since it empties the accumulators and leaves [cache_size] alone. *)
Theorem storage_size_drifts s ev now :
  storage_ok s -> DefaultObjectStorage.cache_size s < 2 ^ 61 -> event_ok ev ->
  exists s', storage_step s ev now = Ret s' /\ storage_ok s' /\ leak s <= leak s' /\
    match ev with
    | Commit _ _ _ => leak s' = leak s
    | OwnerChange _ _ | FlushTick _ => DefaultObjectStorage.cache_size s' = DefaultObjectStorage.cache_size s
    end.
Proof.
  intros Hs Hlt Hev. destruct ev as [k n order|k owner|max]; simpl.
  - destruct (new_commit_ok s k n order now Hs Hlt Hev) as (s' & ? & ? & Heq). exists s'. split_and!; try done. lia.
  - destruct (owner_change_ok s k owner now Hs). eexists. split_and!; try done.
    unfold DefaultObjectStorage.handle_owner_event, DefaultObjectStorage.add_range, DefaultObjectStorage.remove_range.
    by destruct owner, (DefaultObjectStorage.op s), (DefaultObjectStorage.running s).
  - destruct (force_flush_ok s (fst <$> map_to_list (DefaultObjectStorage.ranges s)) max now Hs) as (s' & ? & ? & ? & ?).
    by exists s'.
Qed.

(** ** From the range to the objects and back *)

Section round_trip.
Context {B : BytesApi} {BL : BytesLaws B} {M : MetaApi} {OP : OperatorApi}.
Context (sid ri ep : Z) (cluster : list Ascii.ascii) (osize : Z).

(** The events of the loop of a range: what is fetched for each are payloads of batches that
    follow each other. *)
Fixpoint payloads_of (x : Z) (l : list (list (list byte) * list wire)) (y : Z) : Prop :=
  match l with
  | [] => x = y
  | (payload, k) :: l => exists w, payload_of x k w payload /\ payloads_of w l y
  end.

Fixpoint read_events (r : RangeOffload.t) (next : Z) (l : list (EventKind * list (list (list byte))))
    : outcome (RangeOffload.t * option Z) :=
  match l with
  | [] => Ret (r, Some next)
  | (ev, payloads) :: l =>
      '(r, next) ← DefaultRangeAccumulator.read_event r next ev payloads;
      match next with
      | None => Ret (r, None)
      | Some next => read_events r next l
      end
  end.

Lemma payloads_le x l y : payloads_of x l y -> x <= y.
Proof.
  revert x. induction l as [|[p k] l IH]; intros x; simpl; [lia|]. intros (w & Hp & ?%IH).
  pose proof (run_le _ _ _ (payload_run _ _ _ _ Hp)). lia.
Qed.

Hypothesis Hosize : 0 < osize /\ osize * 3 < 2 ^ 32.

Lemma read_all_ok s l x r k y :
  offloaded sid ri ep cluster osize s l x r -> payloads_of x k y -> y - s < 2 ^ 32 ->
  exists r', DefaultRangeAccumulator.read_all r x k.*1 = Ret (r', y) /\
    offloaded sid ri ep cluster osize s (l ++ concat k.*2) y r'.
Proof.
  revert l x r. induction k as [|[p g] k IH]; intros l x r Hr Hk Hy;
    pose proof (off_ids _ _ _ _ _ _ _ _ _ Hr) as (_ & _ & _ & _ & Hsz); cbn [DefaultRangeAccumulator.read_all fmap list_fmap];
    rewrite uint_mul_Ret, bind_Ret by lia.
  - simpl in Hk. subst y. exists r. by rewrite app_nil_r.
  - destruct Hk as (w & Hp & Hk). pose proof (payloads_le _ _ _ Hk).
    destruct (offload_write sid ri ep cluster osize ltac:(lia) s l x r g w p) as (r1 & Hw & Hr1); [done|done|lia|].
    simpl. rewrite Hw, bind_Ret. destruct (IH _ _ _ Hr1 Hk Hy) as (r' & Hr' & Ho). exists r'. split; [done|].
    by rewrite <- (assoc_L (++)) in Ho.
Qed.

(** Events but the last one, with the payloads that are fetched for them. *)
Fixpoint events_of (x : Z) (l : list (EventKind * list (list (list byte) * list wire))) (y : Z) : Prop :=
  match l with
  | [] => x = y
  | (ev, k) :: l => ev <> Close /\ exists w, payloads_of x k w /\ events_of w l y
  end.

Definition fetched (l : list (EventKind * list (list (list byte) * list wire))) : list (EventKind * list (list (list byte))) :=
  (fun e => (e.1, e.2.*1)) <$> l.
Definition batches (l : list (EventKind * list (list (list byte) * list wire))) : list wire :=
  concat ((fun e => concat e.2.*2) <$> l).

Lemma events_le x l y : events_of x l y -> x <= y.
Proof.
  revert x. induction l as [|[ev k] l IH]; intros x; simpl; [lia|]. intros (_ & w & ?%payloads_le & ?%IH). lia.
Qed.

Lemma read_event_ok s l x r ev k y :
  offloaded sid ri ep cluster osize s l x r -> ev <> Close -> payloads_of x k y -> y - s < 2 ^ 32 ->
  exists r', DefaultRangeAccumulator.read_event r x ev k.*1 = Ret (r', Some y) /\
    offloaded sid ri ep cluster osize s (l ++ concat k.*2) y r'.
Proof.
  intros Hr Hev Hk Hy. destruct (read_all_ok s l x r k y Hr Hk Hy) as (r1 & Hall & Hr1).
  unfold DefaultRangeAccumulator.read_event. destruct ev; try done; rewrite Hall, bind_Ret.
  - by exists r1.
  - by exists r1.
  - destruct (offload_flush sid ri ep cluster osize s _ y r1 Hr1 Hy) as (r2 & -> & Hr2 & _). rewrite bind_Ret. by exists r2.
Qed.

Lemma read_events_ok s l x r evs y tail :
  offloaded sid ri ep cluster osize s l x r -> events_of x evs y -> y - s < 2 ^ 32 ->
  exists r', read_events r x (fetched evs ++ tail) = read_events r' y tail /\
    offloaded sid ri ep cluster osize s (l ++ batches evs) y r'.
Proof.
  revert l x r. induction evs as [|[ev k] evs IH]; intros l x r Hr Hev Hy.
  - simpl in Hev. subst y. exists r. unfold batches. simpl. by rewrite app_nil_r.
  - destruct Hev as (Hne & w & Hk & Hev). pose proof (events_le _ _ _ Hev).
    destruct (read_event_ok s l x r ev k w Hr Hne Hk) as (r1 & He & Hr1); [lia|].
    destruct (IH _ _ _ Hr1 Hev Hy) as (r' & Hrun & Hr'). exists r'. simpl. rewrite He, bind_Ret. split; [done|].
    unfold batches in *. simpl. by rewrite (assoc_L (++)).
Qed.

(** The storage has the objects. *)
Definition in_storage (l : list stored) : Prop :=
  forall st n, st ∈ l -> 0 <= n <= remaining (stored_bytes st) ->
    range_read (String.string_of_list_ascii (stored_key st)) 0 n = Some (take (Z.to_nat n) (stored_bytes st)).

Lemma stored_object x g y st :
  0 <= x -> y < 2 ^ 64 -> stored_of sid ri ep cluster x g y st -> in_storage [st] ->
  object_of (with_object_key cluster (stored_metadata st)) g.
Proof.
  intros Hx Hy [Hw Hne Hr H32 Hk [rest Hb] Hm] Hst. rewrite Hm.
  constructor; simpl; try done.
  - eapply Forall_impl; [exact Hw|]. by intros ? [].
  - by replace (x + (y - x)) with y by lia.
  - lia.
  - eexists. split; [done|]. rewrite <- Hk, Hst; [|apply list_elem_of_here|].
    + rewrite Hb. f_equal. unfold remaining. by rewrite Nat2Z.id, take_app_length.
    + rewrite Hb, remaining_app. pose proof (remaining_nonneg (wires g)). pose proof (remaining_nonneg rest). lia.
Qed.

Lemma tiled_readable x l groups y :
  0 <= x -> y < 2 ^ 64 -> tiled sid ri ep cluster x l groups y -> in_storage l ->
  exists blocks, Forall2 (fun st bl =>
      AsyncObjectReader.read true (with_object_key cluster (stored_metadata st))
        (0, ObjectMetadata.data_len (stored_metadata st)) = Ret (Ok bl)) l blocks /\
    concat (records_of <$> blocks) = wire_record <$> concat groups.
Proof.
  revert x groups. induction l as [|st l IH]; intros x [|g groups] Hx Hy Ht Hst; simpl in Ht; try done.
  { exists []. by split; [constructor|]. }
  destruct Ht as (w & Hg & Ht). pose proof (tiled_le _ _ _ _ _ _ _ _ Ht).
  destruct (IH w groups) as (blocks & Hf & Hc); [|done|done|intros ? ? ?; apply Hst; by right|].
  { pose proof (run_le _ _ _ (stored_run _ _ _ _ _ _ _ _ Hg)). lia. }
  exists (blocks_of g :: blocks). split.
  - constructor; [|done]. rewrite <- (read_whole _ g (stored_object x g w st Hx ltac:(lia) Hg
      (fun st' n Hin => Hst st' n (proj2 (elem_of_cons l st' st) (or_introl (proj1 (list_elem_of_singleton st' st) Hin)))))).
    done.
  - simpl. rewrite blocks_of_records, fmap_app. f_equal. exact Hc.
Qed.
End round_trip.

(** C13: What is offloaded can be read back.  Whatever events come and however the batches of
    a range are cut into payloads, large and small, the loop of the range offloads them
    without a panic; when it is closed, the objects, read back from the storage with the
    metadata that was committed for them, hold exactly the batches of the range, in order,
    and the objects follow each other from the first offset to the last. *)
Theorem offload_roundtrip {B : BytesApi} {BL : BytesLaws B} {M : MetaApi} {OP : OperatorApi}
    sid ri ep cluster osize s evs e :
  0 < osize -> osize * 3 < 2 ^ 32 -> 0 <= s -> e < 2 ^ 64 -> events_of s evs e -> e - s < 2 ^ 32 ->
  exists r, read_events (RangeOffload.new sid ri ep cluster osize) s (fetched evs ++ [(Close, [])]) = Ret (r, None) /\
    (in_storage (RangeOffload.objects r) ->
     exists blocks, Forall2 (fun st bl =>
         AsyncObjectReader.read true (with_object_key cluster (stored_metadata st))
           (0, ObjectMetadata.data_len (stored_metadata st)) = Ret (Ok bl)) (RangeOffload.objects r) blocks /\
       concat (records_of <$> blocks) = wire_record <$> batches evs) /\
    exists groups, tiled sid ri ep cluster s (RangeOffload.objects r) groups e /\ concat groups = batches evs.
Proof.
  intros Ho1 Ho2 Hs He Hev Hlt.
  destruct (read_events_ok sid ri ep cluster osize (conj Ho1 Ho2) s [] s (RangeOffload.new sid ri ep cluster osize) evs e
    [(Close, [])]) as (r1 & -> & Hr1); [by apply offloaded_new|done|done|].
  destruct (offload_flush sid ri ep cluster osize s _ e r1 Hr1 Hlt) as (r & Hf & Hr & Hnone).
  exists r. split; [simpl; rewrite Hf; done|].
  destruct (off_tiles _ _ _ _ _ _ _ _ _ Hr) as (groups & x & open & Hl & Ht & Hx & Hm). rewrite Hnone in Hm.
  destruct Hm as [-> ->]. rewrite app_nil_r in Hl. simpl in Hl. split; [|by exists groups].
  intros Hst. rewrite Hl. by apply (tiled_readable sid ri ep cluster s _ groups e).
Qed.

(** ** Witnesses *)

Module ObjectStorageExample.
Definition config : ObjectStorageConfig.t := ObjectStorageConfig.mk 1000 100 500 400.
Definition s0 : DefaultObjectStorage.t := DefaultObjectStorage.add_range (DefaultObjectStorage.new config true) (7, 0) 0.

Lemma s0_ok : storage_ok s0.
Proof.
  split; [|split; [by vm_compute|by vm_compute]].
  intros k a. simpl. intros [[_ <-]|[_ ?]]%lookup_insert_Some; [|done]. split; simpl; lia.
Qed.

Definition payload (w : wire) : list (list byte) := [wire_bytes w].
Definition evs : list (EventKind * list (list (list byte) * list wire)) :=
  [(PartFull, [(payload (sample_wire 0 10), [sample_wire 0 10])]);
   (TimeExpired, [(payload (sample_wire 10 10), [sample_wire 10 10])]);
   (ObjectFull, [([wires [sample_wire 20 10; sample_wire 30 10]], [sample_wire 20 10; sample_wire 30 10])])].

Lemma sample_counted base count : 0 <= count < 2 ^ 31 ->
  remaining (wire_bytes (sample_wire base count)) < 2 ^ 31 -> counted (sample_wire base count).
Proof. intros Hc Hl. split; [by apply sample_wire_ok|]. simpl. lia. Qed.

Lemma evs_ok : events_of 0 evs 40.
Proof.
  split; [done|]. exists 10. split.
  { exists 10. split; [|done]. constructor; [|done|by vm_compute|by vm_compute|by vm_compute].
    constructor; [apply sample_counted; by vm_compute|constructor]. }
  split; [done|]. exists 20. split.
  { exists 20. split; [|done]. constructor; [|done|by vm_compute|by vm_compute|by vm_compute].
    constructor; [apply sample_counted; by vm_compute|constructor]. }
  split; [done|]. exists 40. split; [|done].
  exists 40. split; [|done]. constructor; [|done|by vm_compute|by vm_compute|by vm_compute].
  constructor; [apply sample_counted; by vm_compute|]. constructor; [apply sample_counted; by vm_compute|constructor].
Qed.

Definition objects : list stored :=
  match read_events (RangeOffload.new 7 0 1 [] 100) 0 (fetched evs ++ [(Close, [])]) with
  | Ret (r, _) => RangeOffload.objects r
  | Panic => []
  end.

(** The storage keeps what was written. *)
#[export] Instance storage : OperatorApi := {|
  range_read key from to :=
    st ← List.find (fun st => String.eqb (String.string_of_list_ascii (stored_key st)) key) objects;
    Some (take (Z.to_nat (to - from)) (drop (Z.to_nat from) (stored_bytes st)))
|}.

Lemma objects_found : Forall (fun st =>
  List.find (fun st' => String.eqb (String.string_of_list_ascii (stored_key st')) (String.string_of_list_ascii (stored_key st)))
    objects = Some st) objects.
Proof. vm_compute. repeat (constructor; [done|]). constructor. Qed.

Lemma objects_stored : in_storage objects.
Proof.
  intros st n Hin _. pose proof objects_found as Hall. rewrite Forall_forall in Hall. simpl.
  rewrite (Hall st Hin). simpl. by rewrite Z.sub_0_r.
Qed.
End ObjectStorageExample.

#[local] Existing Instance ObjectStorageExample.storage.

Lemma offload_roundtrip_witness :
  exists blocks, Forall2 (fun st bl =>
      AsyncObjectReader.read true (with_object_key [] (stored_metadata st))
        (0, ObjectMetadata.data_len (stored_metadata st)) = Ret (Ok bl)) ObjectStorageExample.objects blocks /\
    concat (records_of <$> blocks) = wire_record <$> batches ObjectStorageExample.evs.
Proof.
  destruct (offload_roundtrip 7 0 1 [] 100 0 ObjectStorageExample.evs 40) as (r & Hr & Hread & _);
    [lia|lia|lia|lia|exact ObjectStorageExample.evs_ok|lia|].
  assert (ObjectStorageExample.objects = RangeOffload.objects r) as Heq by (unfold ObjectStorageExample.objects; by rewrite Hr).
  rewrite Heq. apply Hread. rewrite <- Heq. exact ObjectStorageExample.objects_stored.
Defined.

Lemma storage_size_drifts_witness :
  exists s', storage_step ObjectStorageExample.s0 (Commit (7, 0) 150 []) 5 = Ret s' /\ storage_ok s' /\
    leak ObjectStorageExample.s0 <= leak s' /\ leak s' = leak ObjectStorageExample.s0.
Proof. apply (storage_size_drifts ObjectStorageExample.s0 (Commit (7, 0) 150 []) 5 ObjectStorageExample.s0_ok); by vm_compute. Defined.
