(* ===== verification/ObjectManager.v ===== *)
(** * The objects of the ranges

    [components/object-storage/src/object_manager.rs]: the metadata of the objects of all
    ranges, which ranges this server offloads, and up to where they are offloaded, as they
    follow from the resource events of the placement driver.

    A sender of a channel is a number; [open] tells which receivers are still there, and an
    operation that sends returns what it sends. *)

From S2P Require Import Prelude Bytes Collections Model Record RecordsBlock ReplicaCache Replication CacheStream ObjectStream Offload ObjectStorage.

(** A loop of at most [p] steps. *)
Section loop.
Context {St R : Type} (step : St -> R + St).

Fixpoint loop (p : positive) (s : St) : R + St :=
  match p with
  | xH => step s
  | xO p => match loop p s with inl r => inl r | inr s => loop p s end
  | xI p =>
      match step s with
      | inl r => inl r
      | inr s => match loop p s with inl r => inl r | inr s => loop p s end
      end
  end.

Fixpoint loop_nat (n : nat) (s : St) : R + St :=
  match n with
  | O => inr s
  | S n => match step s with inl r => inl r | inr s => loop_nat n s end
  end.

Lemma loop_nat_add (a b : nat) (s : St) :
  loop_nat (a + b) s = match loop_nat a s with inl r => inl r | inr s => loop_nat b s end.
Proof.
  revert s. induction a as [|a IH]; intros s; [done|]. simpl. by destruct (step s).
Qed.

Lemma loop_eq (p : positive) (s : St) : loop p s = loop_nat (Pos.to_nat p) s.
Proof.
  revert s. induction p as [p IH|p IH|]; intros s.
  - rewrite Pos2Nat.inj_xI. simpl. destruct (step s) as [r|s']; [done|].
    rewrite IH, Nat.add_0_r, loop_nat_add. destruct (loop_nat _ s'); [done|]. apply IH.
  - rewrite Pos2Nat.inj_xO. simpl. rewrite IH, Nat.add_0_r, loop_nat_add.
    destruct (loop_nat _ s); [done|]. apply IH.
  - rewrite Pos2Nat.inj_1. simpl. by destruct (step s).
Qed.

(** A loop of which a measure decreases ends. *)
Lemma loop_ends (P : St -> Prop) (Q : R -> Prop) (mu : St -> Z) (s : St) (p : positive) :
  (forall s, P s -> match step s with inl r => Q r | inr s' => P s' /\ 0 <= mu s' < mu s end) ->
  P s -> 0 <= mu s < Zpos p -> exists r, loop p s = inl r /\ Q r.
Proof.
  intros Hstep. rewrite loop_eq, <- positive_nat_Z. generalize (Pos.to_nat p) as n. intros n. revert s.
  induction n as [|n IH]; intros s Hs Hn; [lia|]. simpl. specialize (Hstep s Hs) as H.
  destruct (step s) as [r|s']; [by exists r|]. destruct H as [H1 H2]. apply IH; [done|lia].
Qed.

(** What a loop returns has the property of the last state. *)
Lemma loop_inv (P : St -> Prop) (Q : R -> Prop) (s : St) (p : positive) r :
  (forall s, P s -> match step s with inl r => Q r | inr s' => P s' end) ->
  P s -> loop p s = inl r -> Q r.
Proof.
  intros Hstep. rewrite loop_eq. generalize (Pos.to_nat p) as n. intros n. revert s.
  induction n as [|n IH]; intros s Hs; [done|]. simpl. specialize (Hstep s Hs) as H.
  destruct (step s) as [r'|s']; [congruence|]. by apply IH.
Qed.
End loop.

Module ObjectKey.
Record t := mk { epoch : Z; start_offset : Z }.   (* u16, u64 *)

#[global] Instance t_eq_dec : EqDecision t.
Proof. solve_decision. Defined.

Definition from (m : ObjectMetadata.t) : t := mk (ObjectMetadata.epoch m) (ObjectMetadata.start_offset m).

(** The derived order. *)
Definition ltb (a b : t) : bool :=
  (epoch a <? epoch b) || ((epoch a =? epoch b) && (start_offset a <? start_offset b)).
End ObjectKey.

Module Object.
Record t := mk { end_offset_delta : Z; data_len : Z; sparse_index : list byte }.   (* u32, u32 *)
Definition from (m : ObjectMetadata.t) : t :=
  mk (ObjectMetadata.end_offset_delta m) (ObjectMetadata.data_len m) (ObjectMetadata.sparse_index m).
End Object.

Definition gen_object_metadata (key : ObjectKey.t) (object : Object.t) : ObjectMetadata.t :=
  ObjectMetadata.mk 0 0 (ObjectKey.epoch key) (ObjectKey.start_offset key) (Object.end_offset_delta object)
    (Object.data_len object) (Object.sparse_index object) None.

Module Objects.
(** [BTreeMap<ObjectKey, Object>], sorted by key. *)
Definition t := list (ObjectKey.t * Object.t).

Fixpoint insert (m : t) (k : ObjectKey.t) (v : Object.t) : t :=
  match m with
  | [] => [(k, v)]
  | (k', v') :: m' =>
      if ObjectKey.ltb k k' then (k, v) :: m
      else if bool_decide (k = k') then (k, v) :: m'
      else (k', v') :: insert m' k v
  end.

Definition get_key_value (m : t) (k : ObjectKey.t) : option (ObjectKey.t * Object.t) :=
  List.find (fun e => bool_decide (e.1 = k)) m.

(** [range((epoch, 0)..=(epoch, offset)).last()] *)
Definition last_up_to (m : t) (epoch offset : Z) : option (ObjectKey.t * Object.t) :=
  last (List.filter (fun e => (ObjectKey.epoch e.1 =? epoch) && (ObjectKey.start_offset e.1 <=? offset)) m).

Definition epoch_min (m : t) : Z := from_option (fun e => ObjectKey.epoch e.1) (2 ^ 16 - 1) (head m).
Definition epoch_max (m : t) : Z := from_option (fun e => ObjectKey.epoch e.1) 0 (last m).

(** The first loop: the first object that covers the offset, by epoch.  Every iteration goes
    to the next epoch. *)
Fixpoint find_first (fuel : nat) (m : t) (max epoch current_offset : Z)
    : outcome (Z * option (ObjectKey.t * Object.t * Z)) :=
  match fuel with
  | O => Panic
  | S fuel =>
      if max <? epoch then Ret (epoch, None)
      else
      let go_on := (epoch ← uint_add 16 epoch 1; find_first fuel m max epoch current_offset) in
      match last_up_to m epoch current_offset with
      | None => go_on
      | Some (key, object) =>
          end_offset ← u64_add (ObjectKey.start_offset key) (Object.end_offset_delta object);
          if (ObjectKey.start_offset key <=? current_offset) && (current_offset <? end_offset) then
            Ret (epoch, Some (key, object, end_offset))
          else go_on
      end
  end.

(** The second loop: the objects that continue; its state is the epoch, the offset, the size
    and the objects so far. *)
Definition next_state : Type := Z * Z * Z * list ObjectMetadata.t.

Definition next_step (m : t) (max end_offset size_hint : Z) (s : next_state) : outcome next_state + next_state :=
  let '(epoch, current_offset, size, objects) := s in
  if (epoch <=? max) && (current_offset <? end_offset) && (size <? size_hint) then
    match
      match get_key_value m (ObjectKey.mk epoch current_offset) with
      | Some (key, object) =>
          current_offset ← u64_add (ObjectKey.start_offset key) (Object.end_offset_delta object);
          size ← u32_add size (Object.data_len object);
          Ret (epoch, current_offset, size, objects ++ [gen_object_metadata key object])
      | None => epoch ← uint_add 16 epoch 1; Ret (epoch, current_offset, size, objects)
      end
    with
    | Ret s' => inr s'
    | Panic => inl Panic
    end
  else inl (Ret s).

(** More steps than offsets, sizes and epochs together. *)
Definition next_fuel : positive := (2 ^ 65)%positive.

Definition find_next (m : t) (max end_offset size_hint : Z) (s : next_state) : outcome next_state :=
  match loop (next_step m max end_offset size_hint) next_fuel s with
  | inl r => r
  | inr _ => Panic
  end.

Definition get_continuous_objects (m : t) (start_offset : Z) (end_offset size_hint : option Z)
    : outcome (list ObjectMetadata.t * bool) :=
  let max := epoch_max m in
  let e := default (2 ^ 64 - 1) end_offset in
  let h := default (2 ^ 32 - 1) size_hint in
  '(epoch, first) ← find_first (S (S (Z.to_nat (max - epoch_min m)))) m max (epoch_min m) start_offset;
  let '(objects, current_offset) :=
    match first with
    | Some (key, object, end_offset) => ([gen_object_metadata key object], end_offset)
    | None => ([], start_offset)
    end in
  '(_, current_offset, size, objects) ← find_next m max e h (epoch, current_offset, 0, objects);
  Ret (objects, (e <=? current_offset) || (h <=? size)).
End Objects.

Module ManagedObjects.
Record t := mk {
  objects : Objects.t;
  owner : bool;
  epoch : Z;                   (* u16 *)
  start_offset : Z;            (* u64 *)
  offloaded : bool;
}.

Definition default_ : t := mk [] false 0 0 false.

Definition offload_offset (m : t) : outcome Z :=
  '(l, _) ← Objects.get_continuous_objects (objects m) (start_offset m) None None;
  match last l with
  | None => Ret (start_offset m)
  | Some o => ObjectMetadata.end_offset o
  end.

(** [Owner] of [lib.rs]: the first offset to offload, and the epoch. *)
Definition get_owner (m : t) : outcome (option (Z * Z)) :=
  if owner m then offset ← offload_offset m; Ret (Some (offset, epoch m)) else Ret None.
End ManagedObjects.

(** What is sent to a watcher of owners, and to a listener of the offload progress. *)
Definition OwnerEvent : Type := RangeKey * option (Z * Z).
Definition OffloadProgress : Type := list (RangeKey * Z).

Inductive sent :=
| SentOwner (to : nat) (ev : OwnerEvent)
| SentProgress (to : nat) (progress : OffloadProgress).

Module Metadata.
(** A sender is the number of its channel. *)
Record t := mk {
  managed : gmap RangeKey ManagedObjects.t;
  other : gmap RangeKey Objects.t;
  owner_event_senders : list nat;
  offload_progress_listeners : list nat;
}.

Definition default_ : t := mk ∅ ∅ [] [].

Definition add_object (m : t) (object : ObjectMetadata.t) : outcome (t * option Z) :=
  let key := (ObjectMetadata.stream_id object, ObjectMetadata.range_index object) in
  match managed m !! key with
  | Some o =>
      let o' := ManagedObjects.mk (Objects.insert (ManagedObjects.objects o) (ObjectKey.from object) (Object.from object))
                  (ManagedObjects.owner o) (ManagedObjects.epoch o) (ManagedObjects.start_offset o)
                  (ManagedObjects.offloaded o) in
      offset ← ManagedObjects.offload_offset o';
      Ret (mk (<[key := o']> (managed m)) (other m) (owner_event_senders m) (offload_progress_listeners m), Some offset)
  | None =>
      let l := Objects.insert (default [] (other m !! key)) (ObjectKey.from object) (Object.from object) in
      Ret (mk (managed m) (<[key := l]> (other m)) (owner_event_senders m) (offload_progress_listeners m), None)
  end.

Definition with_range (key : RangeKey) (o : ObjectMetadata.t) : ObjectMetadata.t :=
  ObjectMetadata.mk key.1 key.2 (ObjectMetadata.epoch o) (ObjectMetadata.start_offset o)
    (ObjectMetadata.end_offset_delta o) (ObjectMetadata.data_len o) (ObjectMetadata.sparse_index o)
    (ObjectMetadata.key o).

Definition get_objects (m : t) (key : RangeKey) (start_offset end_offset size_hint : Z)
    : outcome (list ObjectMetadata.t * bool) :=
  let objects :=
    match managed m !! key with
    | Some o => Some (ManagedObjects.objects o)
    | None => other m !! key
    end in
  match objects with
  | None => Ret ([], false)
  | Some l =>
      '(objects, cover_all) ← Objects.get_continuous_objects l start_offset (Some end_offset) (Some size_hint);
      Ret (map (with_range key) objects, cover_all)
  end.

Definition reset (m : t) : t := mk ∅ ∅ (owner_event_senders m) (offload_progress_listeners m).
End Metadata.

Module DefaultObjectManager.
(** [open] tells whether the receiver of a channel is still there: [retain] drops the senders
    of which the receiver is gone, and the others have sent. *)
Definition handle_added_resource (m : Metadata.t) (resource : Resource) (server_id : Z) (open : nat -> bool)
    : outcome (Metadata.t * list sent) :=
  match resource with
  | ResRange range =>
      let key := (RangeMetadata.stream_id range, as_uint 32 (RangeMetadata.index range)) in
      if RangeMetadata.held_by range server_id then
        match RangeMetadata.offload_owner range with
        | Some owner =>
            let o := default ManagedObjects.default_ (Metadata.managed m !! key) in
            let o' := ManagedObjects.mk (ManagedObjects.objects o) (OffloadOwner.server_id owner =? server_id)
                        (as_uint 16 (OffloadOwner.epoch owner)) (RangeMetadata.start range)
                        (ManagedObjects.offloaded o) in
            ev ← ManagedObjects.get_owner o';
            let senders := List.filter open (Metadata.owner_event_senders m) in
            Ret (Metadata.mk (<[key := o']> (Metadata.managed m)) (Metadata.other m) senders
                   (Metadata.offload_progress_listeners m),
                 map (fun c => SentOwner c (key, ev)) senders)
        | None => Ret (m, [])
        end
      else
        Ret (Metadata.mk (Metadata.managed m)
               (<[key := default [] (Metadata.other m !! key)]> (Metadata.other m))
               (Metadata.owner_event_senders m) (Metadata.offload_progress_listeners m), [])
  | ResObject object =>
      '(m, offset) ← Metadata.add_object m object;
      match offset with
      | Some offload_offset =>
          let listeners := List.filter open (Metadata.offload_progress_listeners m) in
          Ret (Metadata.mk (Metadata.managed m) (Metadata.other m) (Metadata.owner_event_senders m) listeners,
               map (fun c => SentProgress c [((ObjectMetadata.stream_id object, ObjectMetadata.range_index object), offload_offset)])
                 listeners)
      | None => Ret (m, [])
      end
  | _ => Ret (m, [])
  end.

(** One event of [list_and_watch]. *)
Definition list_and_watch (m : Metadata.t) (event : ResourceEvent) (server_id : Z) (open : nat -> bool)
    : outcome (Metadata.t * list sent) :=
  match event_type event with
  | Listed | Added => handle_added_resource m (resource event) server_id open
  | Modified | Deleted => Ret (m, [])
  | Reset_ => Ret (Metadata.reset m, [])
  | EvNone | ListFinished => Ret (m, [])
  end.

Fixpoint send_owners (c : nat) (l : list (RangeKey * ManagedObjects.t)) : outcome (list sent) :=
  match l with
  | [] => Ret []
  | (key, o) :: l =>
      ev ← ManagedObjects.get_owner o;
      rest ← send_owners c l;
      Ret (SentOwner c (key, ev) :: rest)
  end.

(** [c] is the new channel. *)
Definition owner_watcher (m : Metadata.t) (c : nat) : outcome (Metadata.t * list sent) :=
  out ← send_owners c (map_to_list (Metadata.managed m));
  Ret (Metadata.mk (Metadata.managed m) (Metadata.other m) (Metadata.owner_event_senders m ++ [c])
         (Metadata.offload_progress_listeners m), out).

Fixpoint progress_of (l : list (RangeKey * ManagedObjects.t)) : outcome OffloadProgress :=
  match l with
  | [] => Ret []
  | (key, o) :: l =>
      offset ← ManagedObjects.offload_offset o;
      rest ← progress_of l;
      Ret ((key, offset) :: rest)
  end.

Definition watch_offload_progress (m : Metadata.t) (c : nat) : outcome (Metadata.t * list sent) :=
  offload_progress ← progress_of (map_to_list (Metadata.managed m));
  Ret (Metadata.mk (Metadata.managed m) (Metadata.other m) (Metadata.owner_event_senders m)
         (Metadata.offload_progress_listeners m ++ [c]), [SentProgress c offload_progress]).

Definition get_objects (cluster : list Ascii.ascii) (m : Metadata.t)
    (stream_id range_index start_offset end_offset size_hint : Z) : outcome (list ObjectMetadata.t * bool) :=
  '(objects, cover_all) ← Metadata.get_objects m (stream_id, range_index) start_offset end_offset size_hint;
  Ret (map (with_object_key cluster) objects, cover_all).

Definition get_offloading_range (m : Metadata.t) : list RangeKey :=
  map fst (List.filter (fun o => negb (ManagedObjects.offloaded o.2)) (map_to_list (Metadata.managed m))).
End DefaultObjectManager.

(** ** Continuous objects *)

Definition object_end (o : ObjectMetadata.t) : Z := ObjectMetadata.start_offset o + ObjectMetadata.end_offset_delta o.

Definition object_has (o : ObjectMetadata.t) (x : Z) : Prop := ObjectMetadata.start_offset o <= x < object_end o.

(** Every object starts where the one before ends. *)
Fixpoint continuous (l : list ObjectMetadata.t) : Prop :=
  match l with
  | o :: (o' :: _) as l' => ObjectMetadata.start_offset o' = object_end o /\ continuous l'
  | _ => True
  end.

Definition data_sum (l : list ObjectMetadata.t) : Z := foldr (fun o n => ObjectMetadata.data_len o + n) 0 l.

(** The objects of the map, as they are returned. *)
Definition metadata_of (m : Objects.t) : list ObjectMetadata.t := map (fun e => gen_object_metadata e.1 e.2) m.

Lemma continuous_snoc l o o' :
  continuous (l ++ [o]) -> ObjectMetadata.start_offset o' = object_end o -> continuous ((l ++ [o]) ++ [o']).
Proof.
  induction l as [|a l IH]; simpl; [done|]. intros H Ho.
  destruct (l ++ [o]) as [|b r] eqn:E; [by destruct l|]. simpl. destruct H as [H1 H2].
  split; [done|]. by apply IH.
Qed.

(** What a list of continuous objects has: all offsets from its start to its end. *)
Lemma continuous_has o l last_ x :
  continuous (o :: l) -> last (o :: l) = Some last_ -> ObjectMetadata.start_offset o <= x < object_end last_ ->
  exists o', o' ∈ o :: l /\ object_has o' x.
Proof.
  revert o. induction l as [|a l IH]; intros o Hc Hl Hx.
  - injection Hl as <-. exists o. split; [by left|done].
  - destruct (decide (x < object_end o)).
    + exists o. split; [by left|]. split; lia.
    + destruct Hc as [H1 H2]. destruct (IH a H2 Hl) as (o' & ? & ?); [lia|].
      exists o'. split; [by right|done].
Qed.

Lemma data_sum_snoc l o : data_sum (l ++ [o]) = data_sum l + ObjectMetadata.data_len o.
Proof. unfold data_sum. induction l as [|a l IH]; simpl; lia. Qed.

Lemma objects_insert_elem m k v e : e ∈ Objects.insert m k v -> e = (k, v) \/ e ∈ m.
Proof.
  induction m as [|[k' v'] m IH]; simpl.
  - rewrite list_elem_of_singleton. auto.
  - destruct (ObjectKey.ltb k k'); [rewrite elem_of_cons; tauto|].
    case_bool_decide; rewrite !elem_of_cons; tauto.
Qed.

Lemma get_key_value_Some m k k' v : Objects.get_key_value m k = Some (k', v) -> k' = k /\ (k, v) ∈ m.
Proof.
  unfold Objects.get_key_value. intros H. apply find_some in H as [H1 H2].
  apply bool_decide_eq_true in H2. simpl in H2. subst. by rewrite <- list_elem_of_In in H1.
Qed.

Lemma last_up_to_Some m ep offset k v :
  Objects.last_up_to m ep offset = Some (k, v) ->
  (k, v) ∈ m /\ ObjectKey.epoch k = ep /\ ObjectKey.start_offset k <= offset.
Proof.
  unfold Objects.last_up_to. intros H. apply last_Some_elem_of in H.
  rewrite list_elem_of_In in H. apply filter_In in H as [H1 H2]. rewrite <- list_elem_of_In in H1.
  bool_to_prop. simpl in *. bool_to_prop. auto.
Qed.

Lemma find_first_spec fuel m max ep cur ep' r :
  Objects.find_first fuel m max ep cur = Ret (ep', r) ->
  match r with
  | Some (k, v, e) =>
      (k, v) ∈ m /\ ObjectKey.epoch k = ep' /\ ep' <= max /\
      ObjectKey.start_offset k <= cur < e /\ e = ObjectKey.start_offset k + Object.end_offset_delta v
  | None => max < ep'
  end.
Proof.
  revert ep. induction fuel as [|fuel IH]; intros ep; simpl; [done|]. intros H.
  destruct (Z.ltb_spec max ep); [by inv_ret|].
  destruct (Objects.last_up_to m ep cur) as [[k v]|] eqn:E.
  - apply last_up_to_Some in E as (H1 & H2 & H3).
    inv_ret. case_bool; inv_ret; [|by eapply IH]. simpl in *. bool_to_prop. split_and!; auto; lia.
  - inv_ret. by eapply IH.
Qed.

(** The state of the second loop: the objects so far go from the start offset to the current
    one, and the size is the one of all but the first. *)
Definition found (m : Objects.t) (start max : Z) (s : Objects.next_state) : Prop :=
  let '(ep, cur, size, l) := s in
  (forall o, o ∈ l -> o ∈ metadata_of m) /\
  match l with
  | [] => cur = start /\ size = 0 /\ max < ep
  | o :: l' =>
      continuous l /\ object_has o start /\ size = data_sum l' /\
      exists z, last l = Some z /\ cur = object_end z
  end.

Lemma found_add m start max ep cur size l k v :
  found m start max (ep, cur, size, l) -> l <> [] -> (k, v) ∈ m -> ObjectKey.start_offset k = cur ->
  found m start max (ep, cur + Object.end_offset_delta v, size + Object.data_len v, l ++ [gen_object_metadata k v]).
Proof.
  intros [Hin H] Hl Hkv Hk. split.
  - intros o [Ho|Ho]%elem_of_app; [by apply Hin|]. apply list_elem_of_singleton in Ho as ->.
    unfold metadata_of. rewrite list_elem_of_fmap. by exists (k, v).
  - destruct l as [|o l']; [done|]. destruct H as (Hc & Ho & Hs & z & Hz & ->).
    change ((o :: l') ++ [gen_object_metadata k v]) with (o :: (l' ++ [gen_object_metadata k v])).
    split_and!; [|done|rewrite data_sum_snoc; subst size; done|].
    + apply last_Some in Hz as [l0 Hz]. rewrite app_comm_cons, Hz in *. by apply continuous_snoc.
    + exists (gen_object_metadata k v). rewrite app_comm_cons, last_snoc. split; [done|].
      unfold object_end. simpl. by rewrite Hk.
Qed.

Lemma next_step_found m start max e h s :
  found m start max s ->
  match Objects.next_step m max e h s with
  | inl Panic => True
  | inl (Ret s') =>
      found m start max s' /\
      (let '(ep, cur, size, _) := s' in max < ep \/ e <= cur \/ h <= size)
  | inr s' => found m start max s'
  end.
Proof.
  destruct s as [[[ep cur] size] l]. intros Hf. simpl. case_bool.
  - destruct (Objects.get_key_value m _) as [[k v]|] eqn:Eg.
    + apply get_key_value_Some in Eg as [-> Hin]. simpl.
      destruct (u64_add cur _) as [c|] eqn:Ec; [|done]. simpl.
      destruct (u32_add size _) as [n|] eqn:En; [|done]. simpl. inv_ret.
      apply (found_add m start max ep cur size l (ObjectKey.mk ep cur) v); [done| |done|done].
      intros ->. destruct Hf as (_ & _ & _ & ?). lia.
    + destruct (uint_add 16 ep 1) as [ep'|] eqn:Ee; [|done]. inv_ret.
      destruct Hf as [Hi Hf]. split; [done|]. destruct l; [|done]. destruct Hf as (? & ? & ?). split_and!; auto; lia.
  - split; [done|]. destruct (Z.leb_spec ep max), (Z.ltb_spec cur e), (Z.ltb_spec size h); simpl in *; auto; try done.
Qed.

(** What the first loop leaves is the start of the second. *)
Lemma find_first_found fuel m max ep start ep' r :
  Objects.find_first fuel m max ep start = Ret (ep', r) ->
  found m start max
    (match r with
     | Some (k, v, e) => (ep', e, 0, [gen_object_metadata k v])
     | None => (ep', start, 0, [])
     end).
Proof.
  intros H. apply find_first_spec in H. destruct r as [[[k v] e]|].
  - destruct H as (H1 & H2 & H3 & H4 & ->). split.
    + intros o ->%list_elem_of_singleton. unfold metadata_of. rewrite list_elem_of_fmap. by exists (k, v).
    + split_and!; [done|unfold object_has, object_end; simpl; lia|done|].
      by exists (gen_object_metadata k v).
  - split; [by intros o ?%elem_of_nil|done].
Qed.

Lemma find_next_found m start max e h s ep cur size l :
  found m start max s -> Objects.find_next m max e h s = Ret (ep, cur, size, l) ->
  found m start max (ep, cur, size, l) /\ (max < ep \/ e <= cur \/ h <= size).
Proof.
  unfold Objects.find_next. generalize Objects.next_fuel as p. intros p Hs H.
  destruct (loop (Objects.next_step m max e h) p s) as [r|] eqn:El; [|done]. subst r.
  exact (loop_inv _ (found m start max)
    (fun r => match r with
              | Panic => True
              | Ret s' => found m start max s' /\ (let '(ep, cur, size, _) := s' in max < ep \/ e <= cur \/ h <= size)
              end) s p _ (fun s1 => next_step_found m start max e h s1) Hs El).
Qed.

Lemma get_continuous_objects_found m start e h l cover :
  Objects.get_continuous_objects m start e h = Ret (l, cover) ->
  exists ep cur size, found m start (Objects.epoch_max m) (ep, cur, size, l) /\
    cover = (default (2 ^ 64 - 1) e <=? cur) || (default (2 ^ 32 - 1) h <=? size) /\
    (cover = false -> Objects.epoch_max m < ep).
Proof.
  unfold Objects.get_continuous_objects. intros H. apply bind_Ret_inv in H as ([ep first] & H1 & H2).
  apply find_first_found in H1.
  destruct first as [[[k v] e']|]; apply bind_Ret_inv in H2 as ([[[ep' cur] size] l'] & H3 & H4);
    injection H4 as <- <-; apply (find_next_found _ _ _ _ _ _ _ _ _ _ H1) in H3 as [H5 H6];
    exists ep', cur, size; (split; [done|]); (split; [done|]); intros Hc; bool_to_prop; lia.
Qed.

(** ** The loops end *)

(** An object within the integers of its metadata, of an epoch that is not the last one, that
    has a record or a byte. *)
Definition object_typed (e : ObjectKey.t * Object.t) : Prop :=
  0 <= ObjectKey.epoch e.1 < 2 ^ 16 - 1 /\ 0 <= ObjectKey.start_offset e.1 /\
  0 <= Object.end_offset_delta e.2 /\ ObjectKey.start_offset e.1 + Object.end_offset_delta e.2 < 2 ^ 64 /\
  0 <= Object.data_len e.2 /\ (0 < Object.end_offset_delta e.2 \/ 0 < Object.data_len e.2).

Lemma epoch_max_bound m : Forall object_typed m -> 0 <= Objects.epoch_max m < 2 ^ 16 - 1.
Proof.
  intros H. unfold Objects.epoch_max. destruct (last m) as [e|] eqn:E; simpl; [|lia].
  apply last_Some_elem_of in E. rewrite Forall_forall in H. by apply H in E as [? _].
Qed.

Lemma epoch_min_bound m : Forall object_typed m -> 0 <= Objects.epoch_min m < 2 ^ 16.
Proof. intros [|e l H _]; unfold Objects.epoch_min; simpl; [lia|]. destruct H. lia. Qed.

Lemma find_first_epoch m max start fuel : forall ep ep' r,
  0 <= ep < 2 ^ 16 -> Objects.find_first fuel m max ep start = Ret (ep', r) -> 0 <= ep' < 2 ^ 16.
Proof.
  induction fuel as [|fuel IH]; intros ep ep' r H0; simpl; [done|]. intros H.
  destruct (Z.ltb_spec max ep); [inv_ret; lia|].
  assert ((ep0 ← uint_add 16 ep 1; Objects.find_first fuel m max ep0 start) = Ret (ep', r) \/ ep' = ep) as [Hn| ->]; [| |lia].
  - destruct (Objects.last_up_to m ep start) as [[k v]|]; [|by left]. apply bind_Ret_inv in H as (c & _ & H).
    case_bool; auto.
  - apply bind_Ret_inv in Hn as (c & Hc & Hn). apply uint_add_inv in Hc as [-> ?]. apply IH in Hn; lia.
Qed.

Lemma find_first_total m max start : forall fuel ep,
  Forall object_typed m -> 0 <= ep -> max < 2 ^ 16 - 1 -> (Z.to_nat (max - ep) + 1 < fuel)%nat ->
  exists ep' r, Objects.find_first fuel m max ep start = Ret (ep', r) /\ ep <= ep'.
Proof.
  intros fuel ep Hm. revert ep. induction fuel as [|fuel IH]; intros ep Hep Hmax Hf; [lia|]. simpl.
  destruct (Z.ltb_spec max ep); [by exists ep, None|].
  assert (exists ep' r, (ep0 ← uint_add 16 ep 1; Objects.find_first fuel m max ep0 start) = Ret (ep', r) /\ ep <= ep') as Hgo.
  { rewrite uint_add_Ret by lia. simpl. destruct (Z.eq_dec ep max) as [->|].
    - destruct fuel as [|fuel]; [lia|]. simpl. destruct (Z.ltb_spec max (max + 1)); [|lia].
      exists (max + 1), None. split; [done|lia].
    - destruct (IH (ep + 1)) as (ep' & r & -> & ?); [lia..|]. exists ep', r. split; [done|lia]. }
  destruct (Objects.last_up_to m ep start) as [[k v]|] eqn:E; [|done].
  apply last_up_to_Some in E as (H1 & _ & _). rewrite Forall_forall in Hm.
  destruct (Hm _ H1) as (? & ? & ? & ? & ?). simpl in *.
  rewrite (uint_add_Ret 64 (ObjectKey.start_offset k)) by lia. rewrite bind_Ret.
  destruct (_ && _); [|done]. eexists _, _. split; [done|lia].
Qed.

Definition next_measure (s : Objects.next_state) : Z :=
  let '(ep, cur, size, _) := s in (2 ^ 64 - cur) + (2 ^ 32 - size) + (2 ^ 16 - ep).

Definition next_bounds (s : Objects.next_state) : Prop :=
  let '(ep, cur, size, _) := s in 0 <= ep < 2 ^ 16 /\ 0 <= cur < 2 ^ 64 /\ 0 <= size < 2 ^ 32.

Lemma next_step_decreases m max e h s :
  Forall object_typed m -> max < 2 ^ 16 - 1 -> Forall (fun x => h + Object.data_len x.2 <= 2 ^ 32) m -> next_bounds s ->
  match Objects.next_step m max e h s with
  | inl r => exists s', r = Ret s'
  | inr s' => next_bounds s' /\ 0 <= next_measure s' < next_measure s
  end.
Proof.
  intros Hm Hmax Hh. destruct s as [[[ep cur] size] l]. intros (He & Hc & Hs). unfold Objects.next_step.
  case_bool; [|by eexists].
  destruct (Objects.get_key_value m _) as [[k v]|] eqn:Eg.
  - apply get_key_value_Some in Eg as [-> Hin]. rewrite Forall_forall in Hm, Hh.
    destruct (Hm _ Hin) as (? & ? & ? & ? & ? & ?). specialize (Hh _ Hin). simpl in *.
    rewrite uint_add_Ret by lia. simpl. rewrite uint_add_Ret by lia. simpl. lia.
  - rewrite uint_add_Ret by lia. simpl. lia.
Qed.

Lemma find_next_total m max e h s :
  Forall object_typed m -> max < 2 ^ 16 - 1 -> Forall (fun x => h + Object.data_len x.2 <= 2 ^ 32) m -> next_bounds s ->
  exists s', Objects.find_next m max e h s = Ret s'.
Proof.
  intros Hm Hmax Hh Hs. unfold Objects.find_next.
  destruct (loop_ends (Objects.next_step m max e h) next_bounds (fun r => exists s', r = Ret s') next_measure s Objects.next_fuel)
    as (r & -> & s' & ->).
  - intros s1 H1. by apply next_step_decreases.
  - done.
  - destruct s as [[[ep cur] size] l]. destruct Hs as (? & ? & ?). unfold next_measure.
    change (Zpos Objects.next_fuel) with (2 ^ 65). lia.
  - by exists s'.
Qed.

Lemma get_continuous_objects_total (m : Objects.t) (start h : Z) (e : option Z) :
  Forall object_typed m -> 0 <= start < 2 ^ 64 -> 0 <= h ->
  Forall (fun x => h + Object.data_len x.2 <= 2 ^ 32) m ->
  exists l cover, Objects.get_continuous_objects m start e (Some h) = Ret (l, cover).
Proof.
  intros Hm Hs Hh Hl. pose proof (epoch_max_bound m Hm). pose proof (epoch_min_bound m Hm).
  unfold Objects.get_continuous_objects.
  destruct (find_first_total m (Objects.epoch_max m) start (S (S (Z.to_nat (Objects.epoch_max m - Objects.epoch_min m))))
    (Objects.epoch_min m)) as (ep & r & E & Hep); [done|lia|lia|lia|].
  pose proof (find_first_spec _ _ _ _ _ _ _ E) as Hr. apply find_first_epoch in E as He; [|done].
  rewrite E, bind_Ret. destruct r as [[[k v] e']|].
  - destruct Hr as (Hin & _ & ? & ? & ?). pose proof (proj1 (Forall_forall _ _) Hm _ Hin) as (? & ? & ? & ? & _). simpl in *.
    edestruct find_next_total as [[[[? ?] ?] ?] E2]; [done| |done| |rewrite E2; by eexists _, _]; [lia|]. simpl. lia.
  - edestruct find_next_total as [[[[? ?] ?] ?] E2]; [done| |done| |rewrite E2; by eexists _, _]; [lia|]. simpl. lia.
Qed.

(** C31: Looking for continuous objects ends, without an overflow, for objects that have a
    record or a byte and an epoch below 65535 ([object_typed]), and a size hint that is with
    the size of any object at most [2 ^ 32]; the objects it returns are of the map, each starts where the one before ends,
    the first has the start offset, and when it tells that all is covered they go up to the end
    offset or all but the first have the size of the hint. *)
Theorem get_continuous_objects_spec (m : Objects.t) (start e h : Z) :
  Forall object_typed m -> 0 <= start < 2 ^ 64 -> 0 <= h ->
  Forall (fun x => h + Object.data_len x.2 <= 2 ^ 32) m ->
  exists l cover, Objects.get_continuous_objects m start (Some e) (Some h) = Ret (l, cover) /\
    (forall o, o ∈ l -> o ∈ metadata_of m) /\
    continuous l /\
    (forall o, head l = Some o -> object_has o start) /\
    (cover = true -> h <= data_sum (tail l) \/ e <= from_option object_end start (last l)).
Proof.
  intros Hm Hs Hh Hl. destruct (get_continuous_objects_total m start h (Some e)) as (l & cover & E); [done..|].
  exists l, cover. apply get_continuous_objects_found in E as Hf.
  destruct Hf as (ep & cur & size & [Hin Hf] & Hc & _). split; [done|]. split; [done|].
  destruct l as [|o l].
  - destruct Hf as (-> & -> & _). split; [done|]. split; [done|]. intros ->. simpl in *.
    symmetry in Hc. apply orb_true_iff in Hc as [?|?]; bool_to_prop; auto.
  - destruct Hf as (H1 & H2 & -> & z & Hz & ->). split; [done|]. split; [by intros ? [= <-]|]. intros ->.
    rewrite Hz. simpl in *. symmetry in Hc. apply orb_true_iff in Hc as [?|?]; bool_to_prop; auto.
Qed.

(** ** The offload progress *)

Lemma offload_offset_covered m offset x :
  ManagedObjects.offload_offset m = Ret offset -> ManagedObjects.start_offset m <= x < offset ->
  exists o, o ∈ metadata_of (ManagedObjects.objects m) /\ object_has o x.
Proof.
  unfold ManagedObjects.offload_offset. intros H Hx. apply bind_Ret_inv in H as ([l cover] & H1 & H2).
  apply get_continuous_objects_found in H1 as (ep & cur & size & [Hin Hf] & _).
  destruct l as [|o l]; [simpl in H2; inv_ret; lia|].
  destruct Hf as (Hc & Ho & _ & z & Hz & _). rewrite Hz in H2. unfold ObjectMetadata.end_offset in H2.
  apply uint_add_inv in H2 as [-> _].
  destruct (continuous_has o l z x Hc Hz) as (o' & ? & ?); [unfold object_has, object_end in *; lia|].
  exists o'. auto.
Qed.

(** What happens to the manager: an event of the placement driver, with the receivers that are
    still there, a new watcher of owners, a new listener of the progress. *)
Inductive input :=
| Event (ev : ResourceEvent) (open : nat -> bool)
| WatchOwners (c : nat)
| WatchProgress (c : nat).

Definition handle (server_id : Z) (m : Metadata.t) (i : input) : outcome (Metadata.t * list sent) :=
  match i with
  | Event ev open => DefaultObjectManager.list_and_watch m ev server_id open
  | WatchOwners c => DefaultObjectManager.owner_watcher m c
  | WatchProgress c => DefaultObjectManager.watch_offload_progress m c
  end.

(** One after the other, and all that is sent. *)
Fixpoint watch (server_id : Z) (m : Metadata.t) (evs : list input) : outcome (Metadata.t * list sent) :=
  match evs with
  | [] => Ret (m, [])
  | ev :: evs =>
      '(m, out) ← handle server_id m ev;
      '(m, out') ← watch server_id m evs;
      Ret (m, out ++ out')
  end.

(** The event tells of an object of the range that has the offset. *)
Definition told (evs : list input) (k : RangeKey) (x : Z) : Prop :=
  exists ev open o, Event ev open ∈ evs /\ resource ev = ResObject o /\
    (ObjectMetadata.stream_id o, ObjectMetadata.range_index o) = k /\ object_has o x.

(** The event tells that the range starts at the offset. *)
Definition told_start (evs : list input) (k : RangeKey) (x : Z) : Prop :=
  exists ev open r, Event ev open ∈ evs /\ resource ev = ResRange r /\
    (RangeMetadata.stream_id r, as_uint 32 (RangeMetadata.index r)) = k /\ RangeMetadata.start r = x.

(** All objects of the manager are of the events. *)
Definition manager_of (evs : list input) (m : Metadata.t) : Prop :=
  forall k o, Metadata.managed m !! k = Some o ->
    told_start evs k (ManagedObjects.start_offset o) /\
    forall om x, om ∈ metadata_of (ManagedObjects.objects o) -> object_has om x -> told evs k x.

Lemma told_app evs evs' k x : told evs k x -> told (evs ++ evs') k x.
Proof. intros (ev & open & o & H & ?). exists ev, open, o. split; [|done]. apply elem_of_app. auto. Qed.

Lemma told_start_app evs evs' k x : told_start evs k x -> told_start (evs ++ evs') k x.
Proof. intros (ev & open & r & H & ?). exists ev, open, r. split; [|done]. apply elem_of_app. auto. Qed.

Lemma manager_of_app evs evs' m : manager_of evs m -> manager_of (evs ++ evs') m.
Proof.
  intros H k o Hk. destruct (H k o Hk) as [H1 H2]. split; [by apply told_start_app|].
  intros. eapply told_app, H2; done.
Qed.

(** What is sent of the offload progress: only offsets up to which the events tell of the
    objects. *)
Definition progress_ok (evs : list input) (s : sent) : Prop :=
  match s with
  | SentProgress _ l =>
      Forall (fun '(k, offset) => exists start, told_start evs k start /\ forall x, start <= x < offset -> told evs k x) l
  | SentOwner _ (k, Some (offset, _)) =>
      exists start, told_start evs k start /\ forall x, start <= x < offset -> told evs k x
  | SentOwner _ _ => True
  end.

Lemma progress_ok_app evs evs' s : progress_ok evs s -> progress_ok (evs ++ evs') s.
Proof.
  destruct s as [c [k [[offset ep]|]]|c l]; simpl; [|done|].
  - intros (start & H1 & H2). exists start. split; [by apply told_start_app|]. intros. by apply told_app, H2.
  - intros H. eapply Forall_impl; [exact H|]. intros [k offset] (start & H1 & H2). exists start.
    split; [by apply told_start_app|]. intros. by apply told_app, H2.
Qed.

Lemma managed_offset_ok evs k o offset :
  told_start evs k (ManagedObjects.start_offset o) ->
  (forall om x, om ∈ metadata_of (ManagedObjects.objects o) -> object_has om x -> told evs k x) ->
  ManagedObjects.offload_offset o = Ret offset ->
  exists start, told_start evs k start /\ forall x, start <= x < offset -> told evs k x.
Proof.
  intros H1 H2 H3. eexists. split; [exact H1|]. intros x Hx.
  destruct (offload_offset_covered o offset x H3 Hx) as (om & ? & ?). by eapply H2.
Qed.

Lemma metadata_of_insert m om o :
  o ∈ metadata_of (Objects.insert m (ObjectKey.from om) (Object.from om)) ->
  (forall x, object_has o x <-> object_has om x) \/ o ∈ metadata_of m.
Proof.
  unfold metadata_of. intros H. apply list_elem_of_fmap in H as (e & -> & He).
  apply objects_insert_elem in He as [->|He]; [left; done|right]. apply list_elem_of_fmap. by exists e.
Qed.

Lemma managed_insert evs m k o other_ s1 s2 :
  manager_of evs m ->
  told_start evs k (ManagedObjects.start_offset o) ->
  (forall om x, om ∈ metadata_of (ManagedObjects.objects o) -> object_has om x -> told evs k x) ->
  manager_of evs (Metadata.mk (<[k := o]> (Metadata.managed m)) other_ s1 s2).
Proof.
  intros Hm H1 H2 k' o'. simpl. destruct (decide (k = k')) as [<-|Hne].
  - rewrite lookup_insert_eq. intros [= <-]. by split.
  - rewrite lookup_insert_ne by done. apply Hm.
Qed.

Lemma get_owner_ok evs k o ow c :
  told_start evs k (ManagedObjects.start_offset o) ->
  (forall om x, om ∈ metadata_of (ManagedObjects.objects o) -> object_has om x -> told evs k x) ->
  ManagedObjects.get_owner o = Ret ow -> progress_ok evs (SentOwner c (k, ow)).
Proof.
  intros H1 H2. unfold ManagedObjects.get_owner. destruct (ManagedObjects.owner o); [|by intros [= <-]].
  intros (offset & H3 & [= <-])%bind_Ret_inv. simpl. by eapply managed_offset_ok.
Qed.

Section added.
Context (evs : list input) (ev : ResourceEvent) (m : Metadata.t) (server_id : Z) (open : nat -> bool).
Hypothesis Hm : manager_of evs m.
Let evs' := evs ++ [Event ev open].

Lemma event_last : Event ev open ∈ evs'.
Proof. apply elem_of_app. right. by left. Qed.

Lemma added_range_ok r m' out :
  resource ev = ResRange r ->
  DefaultObjectManager.handle_added_resource m (ResRange r) server_id open = Ret (m', out) ->
  manager_of evs' m' /\ Forall (progress_ok evs') out.
Proof.
  intros Hev. pose proof (manager_of_app _ [Event ev open] _ Hm) as Hm'. simpl.
  destruct (RangeMetadata.held_by r server_id); [|intros [= <- <-]; by split].
  destruct (RangeMetadata.offload_owner r) as [ow|]; [|intros [= <- <-]; by split].
  set (k := (RangeMetadata.stream_id r, _)). set (o' := ManagedObjects.mk _ _ _ _ _).
  intros (own & Hown & [= <- <-])%bind_Ret_inv.
  assert (told_start evs' k (ManagedObjects.start_offset o')) as H1.
  { exists ev, open, r. split; [apply event_last|done]. }
  assert (forall om x, om ∈ metadata_of (ManagedObjects.objects o') -> object_has om x -> told evs' k x) as H2.
  { intros om x Hom Hx. subst o'. simpl in Hom. destruct (Metadata.managed m !! k) as [o|] eqn:Ek; simpl in Hom.
    - by eapply (Hm' _ _ Ek).
    - by apply elem_of_nil in Hom. }
  split; [by apply managed_insert|]. apply Forall_map, Forall_forall. intros c _. by eapply get_owner_ok.
Qed.

Lemma added_object_ok om m' out :
  resource ev = ResObject om ->
  DefaultObjectManager.handle_added_resource m (ResObject om) server_id open = Ret (m', out) ->
  manager_of evs' m' /\ Forall (progress_ok evs') out.
Proof.
  intros Hev. pose proof (manager_of_app _ [Event ev open] _ Hm) as Hm'. simpl. unfold Metadata.add_object.
  set (k := (ObjectMetadata.stream_id om, _)). destruct (Metadata.managed m !! k) as [o|] eqn:Ek; simpl.
  - set (o' := ManagedObjects.mk _ _ _ _ _).
    intros ([m1 offset1] & (offset & Ho & [= <- <-])%bind_Ret_inv & [= <- <-])%bind_Ret_inv.
    destruct (Hm' _ _ Ek) as [H1 H2].
    assert (forall om' x, om' ∈ metadata_of (ManagedObjects.objects o') -> object_has om' x -> told evs' k x) as H3.
    { intros om' x Hom Hx. subst o'. apply metadata_of_insert in Hom as [Heq|Hom]; [|by eapply H2].
      exists ev, open, om. split; [apply event_last|]. split; [done|]. split; [done|]. by apply Heq. }
    split; [by apply (managed_insert evs' m)|]. apply Forall_map, Forall_forall. intros c _.
    constructor; [|done]. by eapply (managed_offset_ok evs' k o').
  - intros [= <- <-]. split; [|done]. intros k' o'. apply Hm'.
Qed.

Lemma list_and_watch_ok m' out :
  DefaultObjectManager.list_and_watch m ev server_id open = Ret (m', out) ->
  manager_of evs' m' /\ Forall (progress_ok evs') out.
Proof.
  pose proof (manager_of_app _ [Event ev open] _ Hm) as Hm'.
  assert (forall r, Ret r = Ret (m', out) -> r = (m, []) \/ r = (Metadata.reset m, []) ->
    manager_of evs' m' /\ Forall (progress_ok evs') out) as Hsame.
  { intros r [= ->] [[= -> ->]|[= -> ->]]; (split; [|done]); [done|]. intros k o. simpl. by rewrite lookup_empty. }
  unfold DefaultObjectManager.list_and_watch.
  destruct (event_type ev); intros H; try (eapply Hsame; [exact H|by auto]);
    (destruct (resource ev) as [| | |r|om] eqn:Er;
      [eapply Hsame; [exact H|by auto]..|by eapply added_range_ok|by eapply added_object_ok]).
Qed.
End added.

Lemma send_owners_ok evs m c l out :
  manager_of evs m -> (forall k o, (k, o) ∈ l -> Metadata.managed m !! k = Some o) ->
  DefaultObjectManager.send_owners c l = Ret out -> Forall (progress_ok evs) out.
Proof.
  intros Hm. revert out. induction l as [|[k o] l IH]; intros out Hl; simpl; [by intros [= <-]|].
  intros (ow & H1 & (rest & H2 & [= <-])%bind_Ret_inv)%bind_Ret_inv. constructor.
  - destruct (Hm k o (Hl k o ltac:(by left))). by eapply get_owner_ok.
  - apply IH; [|done]. intros. apply Hl. by right.
Qed.

Lemma progress_of_ok evs m c l out :
  manager_of evs m -> (forall k o, (k, o) ∈ l -> Metadata.managed m !! k = Some o) ->
  DefaultObjectManager.progress_of l = Ret out -> progress_ok evs (SentProgress c out).
Proof.
  intros Hm. revert out. induction l as [|[k o] l IH]; intros out Hl; simpl; [by intros [= <-]; constructor|].
  intros (ow & H1 & (rest & H2 & [= <-])%bind_Ret_inv)%bind_Ret_inv. constructor.
  - destruct (Hm k o (Hl k o ltac:(by left))). by eapply managed_offset_ok.
  - apply IH; [|done]. intros. apply Hl. by right.
Qed.

Lemma handle_ok server_id evs m i m' out :
  manager_of evs m -> handle server_id m i = Ret (m', out) ->
  manager_of (evs ++ [i]) m' /\ Forall (progress_ok (evs ++ [i])) out.
Proof.
  intros Hm. destruct i as [ev open|c|c]; simpl; [by apply list_and_watch_ok| |];
    intros (r & H & [= <- <-])%bind_Ret_inv.
  - apply (manager_of_app _ [WatchOwners c]) in Hm. split; [exact Hm|]. eapply send_owners_ok; [exact Hm| |exact H]. by intros k o ?%elem_of_map_to_list.
  - apply (manager_of_app _ [WatchProgress c]) in Hm. split; [exact Hm|]. constructor; [|done]. eapply progress_of_ok; [exact Hm| |exact H]. by intros k o ?%elem_of_map_to_list.
Qed.

Lemma watch_ok server_id : forall evs' evs m m' out,
  manager_of evs m -> watch server_id m evs' = Ret (m', out) ->
  manager_of (evs ++ evs') m' /\ Forall (progress_ok (evs ++ evs')) out.
Proof.
  induction evs' as [|ev evs' IH]; intros evs m m' out Hm; simpl.
  - intros [= <- <-]. by rewrite app_nil_r.
  - intros ([m1 out1] & H1 & ([m2 out2] & H2 & [= <- <-])%bind_Ret_inv)%bind_Ret_inv.
    apply (handle_ok _ evs) in H1 as [H3 H4]; [|done].
    apply (IH (evs ++ [ev])) in H2 as [H5 H6]; [|done]. rewrite <- app_assoc in H5, H6. simpl in H5, H6. split; [done|].
    apply Forall_app. split; [|done]. eapply Forall_impl; [exact H4|]. intros s0 Hs0.
    apply (progress_ok_app _ evs') in Hs0. by rewrite <- app_assoc in Hs0.
Qed.

(** C14: The offload progress that the manager sends, and the offset from which an owner goes
    on, are safe: for any events of the placement driver, in any order and with resets, and
    any watchers, the offset sent of a range is one up to which, from a start of the range,
    the events tell of an object for every offset.  So what is deleted by the progress is in
    an object. *)
Theorem offload_progress_covered (server_id : Z) (evs : list input) (m : Metadata.t) (out : list sent) :
  watch server_id Metadata.default_ evs = Ret (m, out) -> Forall (progress_ok evs) out.
Proof. intros H. apply (watch_ok _ _ []) in H as [_ H]; [done|]. intros k o. simpl. by rewrite lookup_empty. Qed.

(** ** Ranges of many gigabytes *)

Lemma data_sum_nonneg (l : list (ObjectKey.t * Object.t)) :
  (forall k v, (k, v) ∈ l -> 0 <= Object.data_len v) -> 0 <= data_sum (metadata_of l).
Proof.
  induction l as [|[k v] l IH]; simpl; [done|]. intros H.
  assert (0 <= data_sum (metadata_of l)); [apply IH; intros k' v' ?; apply (H k'); by right|].
  specialize (H k v ltac:(by left)). lia.
Qed.

Lemma next_chain m max h (l : list (ObjectKey.t * Object.t)) : forall ep cur size objects n s',
  (forall k v, (k, v) ∈ l -> Objects.get_key_value m k = Some (k, v) /\ ObjectKey.epoch k = ep /\
     0 <= Object.data_len v /\ ObjectKey.start_offset k + Object.end_offset_delta v < 2 ^ 64 - 1) ->
  continuous (metadata_of l) ->
  (forall e, head l = Some e -> ObjectKey.start_offset e.1 = cur) ->
  ep <= max -> cur < 2 ^ 64 - 1 -> size + data_sum (metadata_of l) < h -> h <= 2 ^ 32 ->
  s' = (ep, from_option object_end cur (last (metadata_of l)), size + data_sum (metadata_of l), objects ++ metadata_of l) ->
  loop_nat (Objects.next_step m max (2 ^ 64 - 1) h) (length l + n) (ep, cur, size, objects) =
    loop_nat (Objects.next_step m max (2 ^ 64 - 1) h) n s'.
Proof.
  induction l as [|[k v] l IH]; intros ep cur size objects n s' Hl Hc Hhd Hep Hcur Hsum Hh ->.
  - simpl. by rewrite app_nil_r, Z.add_0_r.
  - destruct (Hl k v ltac:(by left)) as (Hg & <- & Hd & He). specialize (Hhd _ eq_refl). simpl in Hhd, Hsum.
    assert (0 <= data_sum (metadata_of l)) as Hpos.
    { apply data_sum_nonneg. intros k' v' ?. apply (Hl k' v'). by right. }
    cbn [length Nat.add loop_nat]. unfold Objects.next_step at 1.
    rewrite (proj2 (Z.leb_le _ _)), (proj2 (Z.ltb_lt cur _)), (proj2 (Z.ltb_lt size _)) by lia. cbn [andb].
    rewrite <- Hhd. destruct k as [ep k]. simpl in *. rewrite Hg. simpl.
    rewrite (uint_add_Ret 64) by lia. simpl. rewrite (uint_add_Ret 32) by lia. simpl.
    apply IH; [|destruct l as [|[? ?] ?]; [done|by destruct Hc]| |done|lia|lia|done|].
    + intros k' v' H. apply Hl. by right.
    + destruct l as [|[k' v'] l]; [done|]. intros e [= <-]. by destruct Hc as [Hc _].
    + rewrite <- app_assoc, <- Z.add_assoc, last_cons. by destruct (last (metadata_of l)).
Qed.

(** The objects of a range that is offloaded in one epoch: one after the other, each with
    records. *)
Definition one_epoch (ep : Z) (m : Objects.t) : Prop :=
  continuous (metadata_of m) /\
  Forall (fun e => ObjectKey.epoch e.1 = ep /\ 0 <= ObjectKey.start_offset e.1 /\ 0 < Object.end_offset_delta e.2 /\
    ObjectKey.start_offset e.1 + Object.end_offset_delta e.2 < 2 ^ 64 - 1 /\ 0 <= Object.data_len e.2) m.

Lemma one_epoch_cons ep e m : one_epoch ep (e :: m) -> one_epoch ep m.
Proof. intros [H1 H2]. inversion H2; subst. split; [|done]. destruct m; [done|]. by destruct H1. Qed.

(** What follows an object starts after it, and ends after it. *)
Lemma one_epoch_after ep e m e' :
  one_epoch ep (e :: m) -> e' ∈ m -> ObjectKey.start_offset e.1 + Object.end_offset_delta e.2 <= ObjectKey.start_offset e'.1.
Proof.
  revert e. induction m as [|a m IH]; intros e H He; [by apply elem_of_nil in He|].
  pose proof (one_epoch_cons _ _ _ H) as Ha. destruct H as [[H1 _] _], Ha as [Hc Hf].
  unfold object_end in H1. simpl in H1. apply elem_of_cons in He as [->|He]; [lia|].
  specialize (IH a (conj Hc Hf) He). inversion Hf as [|? ? (_ & _ & ? & _) _]; subst. lia.
Qed.

Lemma one_epoch_get ep m k v : one_epoch ep m -> (k, v) ∈ m -> Objects.get_key_value m k = Some (k, v).
Proof.
  induction m as [|[k' v'] m IH]; intros H He; [by apply elem_of_nil in He|].
  unfold Objects.get_key_value. simpl. apply elem_of_cons in He as [[= -> ->]|He].
  - by rewrite bool_decide_eq_true_2.
  - rewrite bool_decide_eq_false_2; [apply IH; [by eapply one_epoch_cons|done]|]. intros ->.
    apply (one_epoch_after _ _ _ _ H) in He. destruct H as [_ H]. inversion H as [|? ? (_ & _ & ? & _) _]; subst. simpl in *. lia.
Qed.

Lemma one_epoch_last ep e m z :
  one_epoch ep (e :: m) -> last (e :: m) = Some z ->
  forall e', e' ∈ e :: m -> ObjectKey.start_offset e'.1 < ObjectKey.start_offset z.1 + Object.end_offset_delta z.2.
Proof.
  revert e. induction m as [|a m IH]; intros e H Hz e' He'.
  - injection Hz as <-. apply list_elem_of_singleton in He' as ->. destruct H as [_ H].
    inversion H as [|? ? (_ & _ & ? & _) _]; subst. lia.
  - pose proof (one_epoch_cons _ _ _ H) as Ha. pose proof (IH a Ha Hz) as IHz.
    apply elem_of_cons in He' as [->|He']; [|by apply IHz].
    pose proof (one_epoch_after _ _ _ a H ltac:(by left)). specialize (IHz a ltac:(by left)).
    destruct H as [_ H]. inversion H as [|? ? (_ & _ & ? & _) _]; subst. lia.
Qed.

Lemma one_epoch_first ep e m :
  one_epoch ep (e :: m) -> Objects.last_up_to (e :: m) ep (ObjectKey.start_offset e.1) = Some e.
Proof.
  intros H. unfold Objects.last_up_to. pose proof (fun e' => one_epoch_after _ _ _ e' H) as Hafter.
  destruct H as [_ H]. inversion H as [|? ? (He & _ & ? & _) _]; subst.
  assert (List.filter (fun e' => (ObjectKey.epoch e'.1 =? ObjectKey.epoch e.1) && (ObjectKey.start_offset e'.1 <=? ObjectKey.start_offset e.1)) m = []) as Hn.
  { clear H. induction m as [|a m IH]; [done|]. simpl. pose proof (Hafter a ltac:(by left)).
    rewrite (proj2 (Z.leb_gt _ _)), andb_false_r by lia. apply IH. intros e' ?. apply Hafter. by right. }
  simpl. by rewrite Z.eqb_refl, Z.leb_refl, Hn.
Qed.

Lemma one_epoch_min ep e m : one_epoch ep (e :: m) -> Objects.epoch_min (e :: m) = ep.
Proof. intros [_ H]. inversion H as [|? ? (He & _) _]; subst. done. Qed.

Lemma one_epoch_max ep e m : one_epoch ep (e :: m) -> Objects.epoch_max (e :: m) = ep.
Proof.
  intros [_ H]. unfold Objects.epoch_max. destruct (last (e :: m)) as [z|] eqn:E; [|by apply last_None in E].
  apply last_Some_elem_of in E. rewrite Forall_forall in H. by apply H in E as [? _].
Qed.

(** The second loop, started after the first of the objects, comes to the end of those whose
    sizes fit the hint. *)
Lemma one_epoch_run ep e pre post n h objects :
  one_epoch ep (e :: pre ++ post) -> data_sum (metadata_of pre) < h -> h <= 2 ^ 32 ->
  loop_nat (Objects.next_step (e :: pre ++ post) ep (2 ^ 64 - 1) h) (length pre + n)
    (ep, ObjectKey.start_offset e.1 + Object.end_offset_delta e.2, 0, objects) =
  loop_nat (Objects.next_step (e :: pre ++ post) ep (2 ^ 64 - 1) h) n
    (ep, from_option object_end (ObjectKey.start_offset e.1 + Object.end_offset_delta e.2) (last (metadata_of pre)),
     data_sum (metadata_of pre), objects ++ metadata_of pre).
Proof.
  intros H Hs Hh. pose proof H as [Hc Hf]. rewrite Forall_forall in Hf.
  apply next_chain; [| | |done| |lia|done|done].
  - intros k v Hkv. assert ((k, v) ∈ e :: pre ++ post) as Hin by (right; apply elem_of_app; auto).
    destruct (Hf _ Hin) as (? & ? & ? & ? & ?). split_and!; [by eapply one_epoch_get|done..].
  - apply one_epoch_cons in H as [H _]. unfold metadata_of in H. rewrite map_app in H. revert H.
    generalize (map (fun e => gen_object_metadata e.1 e.2) post). fold (metadata_of pre). intros l. clear.
    induction (metadata_of pre) as [|a [|b r] IH]; simpl; [done..|]. intros [? ?]. split; [done|]. by apply IH.
  - destruct pre as [|a pre]; [done|]. intros ? [= <-]. by destruct Hc as [? _].
  - destruct (Hf e ltac:(by left)) as (? & ? & ? & ? & ?). lia.
Qed.

Lemma one_epoch_length ep e m : one_epoch ep (e :: m) -> ObjectKey.start_offset e.1 + Z.of_nat (length m) < 2 ^ 64.
Proof.
  revert e. induction m as [|a m IH]; intros e H.
  - destruct H as [_ H]. inversion H as [|? ? (_ & _ & ? & ? & _) _]; subst. simpl. lia.
  - pose proof (one_epoch_after _ _ _ a H ltac:(by left)). pose proof (IH a (one_epoch_cons _ _ _ H)).
    destruct H as [_ H]. inversion H as [|? ? (_ & _ & ? & _) _]; subst. simpl. lia.
Qed.

Lemma pos_split (p : positive) (n : nat) : Z.of_nat n + 2 <= Zpos p -> exists k, Pos.to_nat p = (n + S (S k))%nat.
Proof. intros H. exists (Pos.to_nat p - n - 2)%nat. lia. Qed.

(** The fuel is more than the objects. *)
Lemma next_fuel_split ep e pre post s :
  one_epoch ep (e :: pre ++ post) ->
  exists n, loop (Objects.next_step (e :: pre ++ post) ep (2 ^ 64 - 1) (2 ^ 32 - 1)) Objects.next_fuel s =
    loop_nat (Objects.next_step (e :: pre ++ post) ep (2 ^ 64 - 1) (2 ^ 32 - 1)) (length pre + S (S n)) s.
Proof.
  intros H. pose proof (one_epoch_length _ _ _ H) as Hlen. rewrite length_app in Hlen.
  destruct H as [_ H]. inversion H as [|? ? (_ & ? & _) _]; subst.
  assert (Z.of_nat (length pre) + 2 <= Zpos Objects.next_fuel) as Hf
    by (change (Zpos Objects.next_fuel) with (2 ^ 65); lia).
  revert Hf. generalize Objects.next_fuel as p. intros p Hf. apply pos_split in Hf as [n Hn].
  exists n. by rewrite loop_eq, Hn.
Qed.

#[local] Opaque Objects.find_next.

Lemma one_epoch_continuous ep e m :
  one_epoch ep (e :: m) -> 0 <= ep ->
  Objects.get_continuous_objects (e :: m) (ObjectKey.start_offset e.1) None None =
  ('(_, current_offset, size, objects) ← Objects.find_next (e :: m) ep (2 ^ 64 - 1) (2 ^ 32 - 1)
      (ep, ObjectKey.start_offset e.1 + Object.end_offset_delta e.2, 0, [gen_object_metadata e.1 e.2]);
   Ret (objects, (2 ^ 64 - 1 <=? current_offset) || (2 ^ 32 - 1 <=? size))).
Proof.
  intros H Hep. unfold Objects.get_continuous_objects.
  rewrite (one_epoch_min _ _ _ H), (one_epoch_max _ _ _ H), Z.sub_diag. unfold Objects.find_first.
  rewrite Z.ltb_irrefl, (one_epoch_first _ _ _ H). destruct H as [_ H]. inversion H as [|? ? (_ & ? & ? & ? & _) _]; subst.
  destruct e as [k v]. cbn [fst snd] in *. rewrite (uint_add_Ret 64 (ObjectKey.start_offset k)) by lia. rewrite bind_Ret.
  rewrite Z.leb_refl, (proj2 (Z.ltb_lt _ _)) by lia. cbn [andb]. by rewrite bind_Ret.
Qed.

#[local] Transparent Objects.find_next.

Lemma one_epoch_next ep e pre x post :
  one_epoch ep (e :: pre ++ x :: post) ->
  from_option object_end (ObjectKey.start_offset e.1 + Object.end_offset_delta e.2) (last (metadata_of pre)) =
  ObjectKey.start_offset x.1.
Proof.
  revert e. induction pre as [|a pre IH]; intros e H.
  - by destruct H as [[H _] _].
  - rewrite <- (IH a (one_epoch_cons _ _ _ H)). unfold metadata_of. simpl map. rewrite last_cons. by destruct (last _).
Qed.

Section sizes.
Context (ep : Z) (e : ObjectKey.t * Object.t).
Hypothesis Hep : 0 <= ep < 2 ^ 16 - 1.

(** The state in which the second loop starts. *)
Let first_state : Objects.next_state :=
  (ep, ObjectKey.start_offset e.1 + Object.end_offset_delta e.2, 0, [gen_object_metadata e.1 e.2]).

Lemma find_next_pre pre post :
  one_epoch ep (e :: pre ++ post) -> data_sum (metadata_of pre) < 2 ^ 32 - 1 ->
  exists n, Objects.find_next (e :: pre ++ post) ep (2 ^ 64 - 1) (2 ^ 32 - 1) first_state =
    match loop_nat (Objects.next_step (e :: pre ++ post) ep (2 ^ 64 - 1) (2 ^ 32 - 1)) (S (S n))
      (ep, from_option object_end (ObjectKey.start_offset e.1 + Object.end_offset_delta e.2) (last (metadata_of pre)),
       data_sum (metadata_of pre), metadata_of (e :: pre)) with
    | inl r => r
    | inr _ => Panic
    end.
Proof.
  intros H Hs. destruct (next_fuel_split ep e pre post first_state H) as [n Hn]. exists n.
  unfold Objects.find_next. rewrite Hn. unfold first_state. by rewrite one_epoch_run by (done || lia).
Qed.

Lemma last_metadata pre :
  last (metadata_of (e :: pre)) =
  Some (default (gen_object_metadata e.1 e.2) (last (metadata_of pre))).
Proof. unfold metadata_of at 1. simpl map. rewrite last_cons. fold (metadata_of pre). by destruct (last (metadata_of pre)). Qed.

Lemma end_metadata pre :
  from_option object_end (ObjectKey.start_offset e.1 + Object.end_offset_delta e.2) (last (metadata_of pre)) =
  object_end (default (gen_object_metadata e.1 e.2) (last (metadata_of pre))).
Proof. by destruct (last (metadata_of pre)). Qed.

Lemma find_next_all pre z :
  one_epoch ep (e :: pre) -> data_sum (metadata_of pre) < 2 ^ 32 - 1 -> last (metadata_of (e :: pre)) = Some z ->
  Objects.find_next (e :: pre) ep (2 ^ 64 - 1) (2 ^ 32 - 1) first_state =
    Ret (ep + 1, object_end z, data_sum (metadata_of pre), metadata_of (e :: pre)) /\ object_end z < 2 ^ 64.
Proof.
  intros H Hs Hz. destruct (find_next_pre pre []) as [n Hn]; [by rewrite app_nil_r|done|]. rewrite app_nil_r in Hn.
  rewrite Hn, end_metadata. rewrite last_metadata in Hz. injection Hz as Hz. rewrite Hz.
  pose proof (last_metadata pre) as Hl. rewrite Hz in Hl. unfold metadata_of in Hl. rewrite fmap_last in Hl.
  destruct (last (e :: pre)) as [[k v]|] eqn:El; [|done]. injection Hl as Hl.
  assert (object_end z < 2 ^ 64 - 1 /\ Objects.get_key_value (e :: pre) (ObjectKey.mk ep (object_end z)) = None) as [He Hg].
  { rewrite <- Hl. unfold object_end, gen_object_metadata. cbn [ObjectMetadata.start_offset ObjectMetadata.end_offset_delta fst snd]. split.
    - destruct H as [_ H]. rewrite Forall_forall in H. apply last_Some_elem_of in El. apply H in El as (_ & _ & _ & ? & _). simpl in *. lia.
    - destruct (Objects.get_key_value _ _) as [[k' v']|] eqn:Eg; [|done]. apply get_key_value_Some in Eg as [-> Hin].
      apply (one_epoch_last ep e pre _ H El) in Hin. simpl in Hin. lia. }
  split; [|lia]. cbn [loop_nat]. unfold Objects.next_step at 1.
  rewrite Z.leb_refl, (proj2 (Z.ltb_lt _ _) He), (proj2 (Z.ltb_lt _ _) Hs), Hg. cbn [andb].
  rewrite (uint_add_Ret 16) by lia. rewrite bind_Ret. unfold Objects.next_step.
  rewrite (proj2 (Z.leb_gt (ep + 1) ep)) by lia. done.
Qed.

Lemma find_next_overflow pre x post :
  one_epoch ep (e :: pre ++ x :: post) -> data_sum (metadata_of pre) < 2 ^ 32 - 1 ->
  2 ^ 32 <= data_sum (metadata_of pre) + Object.data_len x.2 ->
  Objects.find_next (e :: pre ++ x :: post) ep (2 ^ 64 - 1) (2 ^ 32 - 1) first_state = Panic.
Proof.
  intros H Hs Hx. destruct (find_next_pre pre (x :: post)) as [n ->]; [done..|].
  rewrite (one_epoch_next _ _ _ _ _ H). destruct x as [k v].
  assert ((k, v) ∈ e :: pre ++ (k, v) :: post) as Hin by (right; apply elem_of_app; right; by left).
  pose proof (one_epoch_get _ _ _ _ H Hin) as Hg. destruct H as [_ H]. rewrite Forall_forall in H.
  destruct (H _ Hin) as (Hk & ? & ? & ? & ?). destruct k as [kep k]. cbn [fst snd ObjectKey.epoch ObjectKey.start_offset] in *.
  subst kep. cbn [loop_nat]. unfold Objects.next_step at 1.
  rewrite Z.leb_refl, (proj2 (Z.ltb_lt k (2 ^ 64 - 1))), (proj2 (Z.ltb_lt _ _) Hs), Hg by lia. cbn [andb ObjectKey.start_offset].
  rewrite (uint_add_Ret 64) by lia. rewrite bind_Ret. by rewrite (uint_add_Panic 32).
Qed.
End sizes.

(** C34: A range of which all objects are of one epoch, which is below 65535, have records and
    follow each other ([one_epoch]) is offloaded up to
    the end of the last one as long as the sizes of the objects after the first sum up to less
    than [u32::MAX]; the object that takes the sum to 4 GiB makes the computation of the
    offset overflow, on every call. *)
Theorem offload_offset_sizes (ep epoch : Z) (owner offloaded : bool) (first : ObjectKey.t * Object.t) (rest : Objects.t) :
  one_epoch ep (first :: rest) -> 0 <= ep < 2 ^ 16 - 1 ->
  let m := ManagedObjects.mk (first :: rest) owner epoch (ObjectKey.start_offset first.1) offloaded in
  (data_sum (metadata_of rest) < 2 ^ 32 - 1 ->
   forall z, last (metadata_of (first :: rest)) = Some z -> ManagedObjects.offload_offset m = Ret (object_end z)) /\
  (forall pre x post, rest = pre ++ x :: post -> data_sum (metadata_of pre) < 2 ^ 32 - 1 ->
   2 ^ 32 <= data_sum (metadata_of pre) + Object.data_len x.2 -> ManagedObjects.offload_offset m = Panic).
Proof.
  intros H Hep m. unfold ManagedObjects.offload_offset. subst m. simpl ManagedObjects.objects. simpl ManagedObjects.start_offset.
  rewrite (one_epoch_continuous ep first rest H) by lia. split.
  - intros Hs z Hz. destruct (find_next_all ep first Hep rest z H Hs Hz) as [-> Hend]. rewrite !bind_Ret, Hz.
    unfold ObjectMetadata.end_offset. by apply uint_add_Ret.
  - intros pre x post -> Hs Hx. by rewrite find_next_overflow.
Qed.

(** ** Examples *)

Definition example_objects : Objects.t :=
  [(ObjectKey.mk 1 0, Object.mk 10 100 []); (ObjectKey.mk 1 10, Object.mk 5 50 []); (ObjectKey.mk 2 15, Object.mk 5 50 [])].

Lemma get_continuous_objects_spec_witness :
  exists l cover, Objects.get_continuous_objects example_objects 3 (Some 18) (Some 1000) = Ret (l, cover) /\
    (forall o, o ∈ l -> o ∈ metadata_of example_objects) /\
    continuous l /\
    (forall o, head l = Some o -> object_has o 3) /\
    (cover = true -> 1000 <= data_sum (tail l) \/ 18 <= from_option object_end 3 (last l)).
Proof.
  apply (get_continuous_objects_spec example_objects 3 18 1000).
  - repeat constructor; simpl; lia.
  - lia.
  - lia.
  - repeat constructor; simpl; lia.
Defined.

(** Here all is covered, by the three objects. *)
Lemma get_continuous_objects_example :
  Objects.get_continuous_objects example_objects 3 (Some 18) (Some 1000) = Ret (metadata_of example_objects, true).
Proof. vm_compute. reflexivity. Qed.

Definition example_inputs : list input :=
  let all := fun _ : nat => true in
  let object start delta := ResObject (ObjectMetadata.mk 5 0 1 start delta 100 [] None) in
  [WatchProgress 0; WatchOwners 1;
   Event (mkEvent Listed (ResRange (RangeMetadata.mk 5 1 0 0 None [RangeServer.new 7 "a" 0] 1 1 (Some (OffloadOwner.mk 7 1))))) all;
   Event (mkEvent Listed (object 10 5)) all;
   Event (mkEvent Added (object 0 10)) all;
   WatchOwners 2].

Lemma offload_progress_covered_witness :
  exists m out, watch 7 Metadata.default_ example_inputs = Ret (m, out) /\
    out = [SentProgress 0 []; SentOwner 1 ((5, 0), Some (0, 1)); SentProgress 0 [((5, 0), 0)];
           SentProgress 0 [((5, 0), 15)]; SentOwner 2 ((5, 0), Some (15, 1))] /\
    Forall (progress_ok example_inputs) out.
Proof.
  assert (match watch 7 Metadata.default_ example_inputs with Ret (_, out) => out | Panic => [] end =
    [SentProgress 0 []; SentOwner 1 ((5, 0), Some (0, 1)); SentProgress 0 [((5, 0), 0)];
     SentProgress 0 [((5, 0), 15)]; SentOwner 2 ((5, 0), Some (15, 1))]) as Hout by (vm_compute; reflexivity).
  destruct (watch 7 Metadata.default_ example_inputs) as [[m out]|] eqn:E; [|discriminate Hout].
  exists m, out. split; [reflexivity|]. split; [exact Hout|]. exact (offload_progress_covered 7 example_inputs m out E).
Defined.

(** Three objects of 2 GiB. *)
Definition large_range : Objects.t :=
  [(ObjectKey.mk 1 0, Object.mk 10 (2 ^ 31) []); (ObjectKey.mk 1 10, Object.mk 5 (2 ^ 31) []);
   (ObjectKey.mk 1 15, Object.mk 5 (2 ^ 31) [])].

Lemma offload_offset_sizes_witness :
  ManagedObjects.offload_offset (ManagedObjects.mk (take 2 large_range) true 1 0 false) = Ret 15 /\
  ManagedObjects.offload_offset (ManagedObjects.mk large_range true 1 0 false) = Panic.
Proof.
  split.
  - apply (offload_offset_sizes 1 1 true false (ObjectKey.mk 1 0, Object.mk 10 (2 ^ 31) [])
      [(ObjectKey.mk 1 10, Object.mk 5 (2 ^ 31) [])]) with (z := gen_object_metadata (ObjectKey.mk 1 10) (Object.mk 5 (2 ^ 31) [])).
    + split; [done|]. repeat constructor; simpl; lia.
    + lia.
    + vm_compute. reflexivity.
    + reflexivity.
  - apply (offload_offset_sizes 1 1 true false (ObjectKey.mk 1 0, Object.mk 10 (2 ^ 31) [])
      [(ObjectKey.mk 1 10, Object.mk 5 (2 ^ 31) []); (ObjectKey.mk 1 15, Object.mk 5 (2 ^ 31) [])])
      with (pre := [(ObjectKey.mk 1 10, Object.mk 5 (2 ^ 31) [])]) (x := (ObjectKey.mk 1 15, Object.mk 5 (2 ^ 31) [])) (post := []).
    + split; [done|]. repeat constructor; simpl; lia.
    + lia.
    + reflexivity.
    + vm_compute. reflexivity.
    + vm_compute. discriminate.
Defined.
