(* ===== verification/MetadataManager.v ===== *)
(** * The metadata of a worker

    [range-server/src/metadata]: the watcher ([watcher.rs]) hands every resource event of the
    placement driver to the workers; the manager of a worker ([manager.rs]) passes it on to
    its observers and derives from it which data of the ranges that the server holds can be
    deleted.  Channels and observers are numbers: [open] tells whether the receiver of a
    channel is still there, [alive] whether the weak reference of an observer can be
    upgraded.  What is sent is part of the result. *)

From S2P Require Import Prelude Collections Model.

(** ** [components/model/src/range/mod.rs] *)

Definition RangeKey : Type := Z * Z. (* StreamId, RangeIndex *)

Inductive RangeEvent :=
| OffsetMove (range : RangeKey) (start_offset : Z)
| Offloaded (range : RangeKey)
| Del (range : RangeKey).

(** ** [watcher.rs] *)

Module DefaultMetadataWatcher.
(** The senders of the channels. *)
Record t := mk { listeners : list nat }.

Definition watch (w : t) (c : nat) : t := mk (listeners w ++ [c]).

(** One event of [start]: the new listeners, what is sent, and whether the loop goes on. *)
Definition start (w : t) (event : ResourceEvent) (open : nat -> bool) : t * list (nat * ResourceEvent) * bool :=
  let out := map (fun c => (c, event)) (List.filter open (listeners w)) in
  if existsb (fun c => negb (open c)) (listeners w) then
    let left := List.filter open (listeners w) in
    (mk left, out, match left with [] => false | _ => true end)
  else (w, out, true).
End DefaultMetadataWatcher.

(** ** [manager.rs] *)

Module MetadataStream.
Record t := mk {
  stream_id : Z;
  metadata : option StreamMetadata.t;
  (** With the offset below which the data can be deleted. *)
  ranges : BTreeMap.t (RangeMetadata.t * Z);
  range_offloaded_offsets : BTreeMap.t Z;
}.

Definition new (stream_id : Z) (metadata : option StreamMetadata.t) : t := mk stream_id metadata [] [].

Definition stream_start_offset (s : t) : Z :=
  match metadata s with Some m => StreamMetadata.start_offset m | None => 0 end.

Definition new_start_offset (s : t) (range_index : Z) : Z :=
  Z.max (stream_start_offset s)
    (Z.max (match BTreeMap.get (ranges s) range_index with Some r => RangeMetadata.start r.1 | None => 0 end)
       (default 0 (BTreeMap.get (range_offloaded_offsets s) range_index))).

Definition gen_event (range : RangeKey) (range_end_offset offloaded_offset : option Z) (new_start_offset : Z)
    : RangeEvent :=
  if match offloaded_offset, range_end_offset with Some a, Some b => b <=? a | _, _ => false end
  then Offloaded range
  else OffsetMove range new_start_offset.

Definition add (s : t) (range : RangeMetadata.t) : t * RangeEvent :=
  let range_index := as_uint 32 (RangeMetadata.index range) in
  let new_start_offset := Z.max (new_start_offset s range_index) (RangeMetadata.start range) in
  (mk (stream_id s) (metadata s) (BTreeMap.insert (ranges s) range_index (range, new_start_offset))
      (range_offloaded_offsets s),
   gen_event (stream_id s, range_index) (RangeMetadata.end_ range)
     (BTreeMap.get (range_offloaded_offsets s) range_index) new_start_offset).

Definition del (s : t) (range : RangeMetadata.t) : t * RangeEvent :=
  let range_index := as_uint 32 (RangeMetadata.index range) in
  (mk (stream_id s) (metadata s) (BTreeMap.remove (ranges s) range_index)
      (BTreeMap.remove (range_offloaded_offsets s) range_index),
   Del (RangeMetadata.stream_id range, range_index)).

(** One range of the loop of [update_stream]. *)
Definition update_range (s : t) (range_index : Z) : t * list RangeEvent :=
  let new_start_offset := new_start_offset s range_index in
  match BTreeMap.get (ranges s) range_index with
  | Some (range, last_start_offset) =>
      if new_start_offset =? last_start_offset then (s, [])
      else
        (mk (stream_id s) (metadata s) (BTreeMap.insert (ranges s) range_index (range, new_start_offset))
            (range_offloaded_offsets s),
         [gen_event (stream_id s, range_index) (RangeMetadata.end_ range)
            (BTreeMap.get (range_offloaded_offsets s) range_index) new_start_offset])
  | None => (s, []) (* the indexes are those of [ranges] *)
  end.

Fixpoint update_ranges (s : t) (range_indexes : list Z) : t * list RangeEvent :=
  match range_indexes with
  | [] => (s, [])
  | i :: l =>
      let '(s, events) := update_range s i in
      let '(s, rest) := update_ranges s l in
      (s, events ++ rest)
  end.

Definition update_stream (s : t) (metadata : StreamMetadata.t) : t * list RangeEvent :=
  let s := mk (stream_id s) (Some metadata) (ranges s) (range_offloaded_offsets s) in
  update_ranges s (map fst (ranges s)).

Definition update_offloaded_offset (s : t) (range_index offloaded_offset : Z) : t * RangeEvent :=
  let s := mk (stream_id s) (metadata s) (ranges s)
              (BTreeMap.insert (range_offloaded_offsets s) range_index offloaded_offset) in
  let new_start_offset := new_start_offset s range_index in
  let '(s, range_end_offset) :=
    match BTreeMap.get (ranges s) range_index with
    | Some (range, _) =>
        (mk (stream_id s) (metadata s) (BTreeMap.insert (ranges s) range_index (range, new_start_offset))
            (range_offloaded_offsets s), RangeMetadata.end_ range)
    | None => (s, None)
    end in
  (s, gen_event (stream_id s, range_index) range_end_offset
        (BTreeMap.get (range_offloaded_offsets s) range_index) new_start_offset).

Definition gen_destroy_events (s : t) : list RangeEvent :=
  map (fun r => Del (RangeMetadata.stream_id r.2.1, as_uint 32 (RangeMetadata.index r.2.1))) (ranges s).
End MetadataStream.

Definition notify_listeners (events : list RangeEvent) (listeners : list nat) (open : nat -> bool)
    : bool * list nat * list (nat * list RangeEvent) :=
  let out := map (fun c => (c, events)) (List.filter open listeners) in
  if existsb (fun c => negb (open c)) listeners then
    let left := List.filter open listeners in
    (match left with [] => false | _ => true end, left, out)
  else (true, listeners, out).

Module DefaultMetadataManager.
Definition StreamMap : Type := gmap Z MetadataStream.t.

(** The entry of the stream, made when there is none. *)
Definition stream_of (stream_map : StreamMap) (stream_id : Z) : MetadataStream.t :=
  default (MetadataStream.new stream_id None) (stream_map !! stream_id).

Definition handle_event (server_id : Z) (event : ResourceEvent) (stream_map : StreamMap)
    : StreamMap * list RangeEvent :=
  match resource event with
  | ResStream stream_metadata =>
      let stream_id := StreamMetadata.stream_id stream_metadata in
      match event_type event with
      | Listed | Added | Modified =>
          match stream_map !! stream_id with
          | Some stream =>
              let '(stream, events) := MetadataStream.update_stream stream stream_metadata in
              (<[stream_id := stream]> stream_map, events)
          | None => (<[stream_id := MetadataStream.new stream_id (Some stream_metadata)]> stream_map, [])
          end
      | Deleted =>
          (delete stream_id stream_map,
           match stream_map !! stream_id with Some s => MetadataStream.gen_destroy_events s | None => [] end)
      | _ => (stream_map, [])
      end
  | ResRange range =>
      if RangeMetadata.held_by range server_id then
        let stream_id := RangeMetadata.stream_id range in
        let stream := stream_of stream_map stream_id in
        match event_type event with
        | Listed | Added | Modified =>
            let '(stream, event) := MetadataStream.add stream range in
            (<[stream_id := stream]> stream_map, [event])
        | Deleted =>
            let '(stream, event) := MetadataStream.del stream range in
            (<[stream_id := stream]> stream_map, [event])
        | _ => (<[stream_id := stream]> stream_map, [])
        end
      else (stream_map, [])
  | _ => (stream_map, [])
  end.

(** The manager after [start]: the map and the observers are shared, each of the two tasks
    has its own listeners. *)
Record t := mk {
  server_id : Z;
  stream_map : StreamMap;
  observers : list nat;
  (** The task of the resource events. *)
  listeners : list nat;
  list_done_tx : bool;
  list_done : bool;
  list_done_buffer_events : list RangeEvent;
  running : bool;
  (** The task of the offload progress. *)
  object_listeners : list nat;
}.

Definition set_map (s : t) (m : StreamMap) : t :=
  mk (server_id s) m (observers s) (listeners s) (list_done_tx s) (list_done s) (list_done_buffer_events s)
     (running s) (object_listeners s).
Definition set_listeners (s : t) (l : list nat) (running : bool) : t :=
  mk (server_id s) (stream_map s) (observers s) l (list_done_tx s) (list_done s) (list_done_buffer_events s)
     running (object_listeners s).
Definition set_list_done (s : t) (buffer : list RangeEvent) : t :=
  mk (server_id s) (stream_map s) (observers s) (listeners s) false true buffer (running s) (object_listeners s).
Definition set_buffer (s : t) (buffer : list RangeEvent) : t :=
  mk (server_id s) (stream_map s) (observers s) (listeners s) (list_done_tx s) (list_done s) buffer
     (running s) (object_listeners s).

(** [watch] and [add_observer] come first; [start0] begins the tasks. *)
Definition start0 (server_id : Z) (listeners observers : list nat) : t :=
  mk server_id ∅ observers listeners true false [] true listeners.

(** One event of the loop of [listen_metadata_events]: what the observers get, and what is
    sent to the listeners. *)
Definition list_finished (s : t) (open : nat -> bool) : t * list (nat * list RangeEvent) :=
  let s := set_list_done s (list_done_buffer_events s) in
  let '(ok, l, out) := notify_listeners (list_done_buffer_events s) (listeners s) open in
  let s := set_listeners s l ok in
  (if ok then set_buffer s [] else s, out).

Definition incremental (s : t) (event : ResourceEvent) (open : nat -> bool) : t * list (nat * list RangeEvent) :=
  let '(m, events) := handle_event (server_id s) event (stream_map s) in
  let s := set_map s m in
  if list_done s then
    match events with
    | [] => (s, [])
    | _ => let '(ok, l, out) := notify_listeners events (listeners s) open in (set_listeners s l ok, out)
    end
  else (set_buffer s (list_done_buffer_events s ++ events), []).

Definition listen_metadata_events (s : t) (event : ResourceEvent) (alive open : nat -> bool)
    : t * list (nat * ResourceEvent) * list (nat * list RangeEvent) :=
  let observed := map (fun o => (o, event)) (List.filter alive (observers s)) in
  let '(s, out) :=
    match event_type event with
    | ListFinished => list_finished s open
    | _ => (s, [])
    end in
  if running s then
    let '(s, out') := incremental s event open in (s, observed, out ++ out')
  else (s, observed, out).

Fixpoint offloaded_events (m : StreamMap) (progress : list (RangeKey * Z)) : StreamMap * list RangeEvent :=
  match progress with
  | [] => (m, [])
  | ((stream_id, range_index), offloaded_offset) :: progress =>
      let '(stream, event) :=
        MetadataStream.update_offloaded_offset (stream_of m stream_id) range_index offloaded_offset in
      let '(m, events) := offloaded_events (<[stream_id := stream]> m) progress in
      (m, event :: events)
  end.

Definition listen_object_events (s : t) (offload_progress : list (RangeKey * Z)) (open : nat -> bool)
    : t * list (nat * list RangeEvent) :=
  let '(m, events) := offloaded_events (stream_map s) offload_progress in
  let s := set_map s m in
  match events with
  | [] => (s, [])
  | _ =>
      let '(_, l, out) := notify_listeners events (object_listeners s) open in
      (mk (server_id s) (stream_map s) (observers s) (listeners s) (list_done_tx s) (list_done s)
          (list_done_buffer_events s) (running s) l, out)
  end.

(** What the tasks do: the task of the offload progress runs once the list is complete. *)
Inductive input :=
| Metadata (event : ResourceEvent) (alive open : nat -> bool)
| Progress (offload_progress : list (RangeKey * Z)) (open : nat -> bool).

Definition step (s : t) (i : input) : t * list (nat * ResourceEvent) * list (nat * list RangeEvent) :=
  match i with
  | Metadata event alive open =>
      if running s then listen_metadata_events s event alive open else (s, [], [])
  | Progress progress open =>
      if negb (list_done_tx s) || negb (running s) then
        let '(s, out) := listen_object_events s progress open in (s, [], out)
      else (s, [], [])
  end.
End DefaultMetadataManager.

(** ** What is reported *)

Import DefaultMetadataManager.

Definition key_of (range : RangeMetadata.t) : RangeKey :=
  (RangeMetadata.stream_id range, as_uint 32 (RangeMetadata.index range)).

Section reported.
(** The metadata and the progress that the manager has received. *)
Context (stream : StreamMetadata.t -> Prop) (range : RangeMetadata.t -> Prop) (progress : RangeKey -> Z -> Prop).

(** The data of the range below the offset is trimmed, offloaded or not of the range. *)
Definition deletable (key : RangeKey) (x : Z) : Prop :=
  x = 0 \/
  (exists md, stream md /\ StreamMetadata.stream_id md = key.1 /\ StreamMetadata.start_offset md = x) \/
  (exists md, range md /\ key_of md = key /\ RangeMetadata.start md = x) \/
  progress key x.

Definition justified (ev : RangeEvent) : Prop :=
  match ev with
  | OffsetMove key x => deletable key x
  | Offloaded key => exists md e x, range md /\ key_of md = key /\ RangeMetadata.end_ md = Some e /\
                       progress key x /\ e <= x
  | Del key => exists md, range md /\ key_of md = key
  end.

Record stream_ok (sid : Z) (s : MetadataStream.t) : Prop := {
  so_id : MetadataStream.stream_id s = sid;
  so_metadata md : MetadataStream.metadata s = Some md -> stream md /\ StreamMetadata.stream_id md = sid;
  so_range i md x : (i, (md, x)) ∈ MetadataStream.ranges s -> range md /\ key_of md = (sid, i) /\ deletable (sid, i) x;
  so_offloaded i x : (i, x) ∈ MetadataStream.range_offloaded_offsets s -> progress (sid, i) x;
}.

Definition map_ok (m : StreamMap) : Prop := map_Forall stream_ok m.

Lemma btree_get_elem {V} (m : BTreeMap.t V) k v : BTreeMap.get m k = Some v -> (k, v) ∈ m.
Proof.
  induction m as [|[k0 v0] m IH]; simpl; [done|]. destruct (Z.eqb_spec k k0) as [->|]; [intros [= ->]; by left|].
  intros H. right. auto.
Qed.

Lemma deletable_max key x y : deletable key x -> deletable key y -> deletable key (Z.max x y).
Proof. intros. by destruct (Z.max_spec x y) as [[_ ->]|[_ ->]]. Qed.

Lemma new_start_deletable sid s i : stream_ok sid s -> deletable (sid, i) (MetadataStream.new_start_offset s i).
Proof.
  intros Hs. unfold MetadataStream.new_start_offset. repeat apply deletable_max.
  - unfold MetadataStream.stream_start_offset. destruct (MetadataStream.metadata s) as [md|] eqn:E; [|by left].
    right; left. exists md. by destruct (so_metadata _ _ Hs md E).
  - destruct (BTreeMap.get (MetadataStream.ranges s) i) as [[md x]|] eqn:E; [|by left].
    apply btree_get_elem in E. destruct (so_range _ _ Hs _ _ _ E) as (? & ? & _). right; right; left. by exists md.
  - destruct (BTreeMap.get (MetadataStream.range_offloaded_offsets s) i) as [x|] eqn:E; [|by left].
    apply btree_get_elem in E. right; right; right. by apply (so_offloaded _ _ Hs).
Qed.

Lemma gen_event_justified sid s i md x :
  stream_ok sid s -> range md -> key_of md = (sid, i) -> deletable (sid, i) x ->
  justified (MetadataStream.gen_event (sid, i) (RangeMetadata.end_ md)
               (BTreeMap.get (MetadataStream.range_offloaded_offsets s) i) x).
Proof.
  intros Hs Hr Hk Hx. unfold MetadataStream.gen_event.
  destruct (BTreeMap.get (MetadataStream.range_offloaded_offsets s) i) as [a|] eqn:Ea; [|done].
  destruct (RangeMetadata.end_ md) as [e|] eqn:Ee; [|done]. case_bool; [|done].
  apply btree_get_elem in Ea. exists md, e, a. split_and!; try done. by apply (so_offloaded _ _ Hs).
Qed.

(** A range of the stream is put at a new offset. *)
Lemma stream_ok_insert sid s i md x :
  stream_ok sid s -> range md -> key_of md = (sid, i) -> deletable (sid, i) x ->
  stream_ok sid (MetadataStream.mk (MetadataStream.stream_id s) (MetadataStream.metadata s)
    (BTreeMap.insert (MetadataStream.ranges s) i (md, x)) (MetadataStream.range_offloaded_offsets s)).
Proof.
  intros [] Hr Hk Hx. split; simpl; try done.
  intros i' md' x' [[= -> -> ->]|?]%BTreeMap.insert_elem; auto.
Qed.

Lemma add_ok sid s md s' ev :
  stream_ok sid s -> range md -> RangeMetadata.stream_id md = sid -> MetadataStream.add s md = (s', ev) ->
  stream_ok sid s' /\ justified ev.
Proof.
  intros Hs Hr Hid [= <- <-]. set (i := as_uint 32 _). pose proof (so_id _ _ Hs) as Hsid.
  assert (key_of md = (sid, i)) as Hk by by rewrite <- Hid.
  assert (deletable (sid, i) (Z.max (MetadataStream.new_start_offset s i) (RangeMetadata.start md))) as Hx.
  { apply deletable_max; [by apply new_start_deletable|]. right; right; left. by exists md. }
  split; [by apply stream_ok_insert|]. rewrite Hsid. by apply gen_event_justified.
Qed.

Lemma del_ok sid s md s' ev :
  stream_ok sid s -> range md -> MetadataStream.del s md = (s', ev) -> stream_ok sid s' /\ justified ev.
Proof.
  intros [] Hr [= <- <-]. split; [|by exists md].
  split; simpl; try done; [intros i md' x ?%BTreeMap.elem_of_remove|intros i x ?%BTreeMap.elem_of_remove]; auto.
Qed.

Lemma update_ranges_ok sid s l s' evs :
  stream_ok sid s -> MetadataStream.update_ranges s l = (s', evs) -> stream_ok sid s' /\ Forall justified evs.
Proof.
  revert s evs. induction l as [|i l IH]; intros s evs Hs; simpl; [by intros [= <- <-]|].
  destruct (MetadataStream.update_range s i) as [s1 ev1] eqn:E1.
  destruct (MetadataStream.update_ranges s1 l) as [s2 ev2] eqn:E2. intros [= <- <-].
  assert (stream_ok sid s1 /\ Forall justified ev1) as [Hs1 He1].
  { unfold MetadataStream.update_range in E1.
    destruct (BTreeMap.get (MetadataStream.ranges s) i) as [[md x]|] eqn:E; [|by simplify_eq].
    destruct (_ =? x); [by simplify_eq|]. injection E1 as <- <-. apply btree_get_elem in E.
    destruct (so_range _ _ Hs _ _ _ E) as (? & ? & _). pose proof (new_start_deletable _ _ i Hs).
    split; [by apply stream_ok_insert|]. rewrite (so_id _ _ Hs). apply Forall_singleton. by apply gen_event_justified. }
  destruct (IH _ _ Hs1 E2). split; [done|]. by apply Forall_app.
Qed.

Lemma update_stream_ok sid s md s' evs :
  stream_ok sid s -> stream md -> StreamMetadata.stream_id md = sid ->
  MetadataStream.update_stream s md = (s', evs) -> stream_ok sid s' /\ Forall justified evs.
Proof. intros [] Hm Hid. apply update_ranges_ok. split; simpl; try done. by intros md' [= <-]. Qed.

Lemma update_offloaded_ok sid s i x s' ev :
  stream_ok sid s -> progress (sid, i) x -> MetadataStream.update_offloaded_offset s i x = (s', ev) ->
  stream_ok sid s' /\ justified ev.
Proof.
  intros Hs Hp. unfold MetadataStream.update_offloaded_offset. set (s1 := MetadataStream.mk _ _ _ _).
  assert (stream_ok sid s1) as Hs1.
  { destruct Hs. split; simpl; try done. intros i' x' [[= -> ->]|?]%BTreeMap.insert_elem; auto. }
  pose proof (new_start_deletable _ _ i Hs1) as Hx. pose proof (so_id _ _ Hs1) as Hid.
  destruct (BTreeMap.get (MetadataStream.ranges s1) i) as [[md y]|] eqn:E; intros [= <- <-].
  - apply btree_get_elem in E. destruct (so_range _ _ Hs1 _ _ _ E) as (? & ? & _).
    split; [by apply (stream_ok_insert sid s1 i md)|]. simpl in Hid. rewrite Hid.
    by apply (gen_event_justified sid s1).
  - split; [done|]. simpl in Hid. rewrite Hid. unfold MetadataStream.gen_event.
    by destruct (BTreeMap.get (BTreeMap.insert _ _ _) i).
Qed.

Lemma stream_of_ok m sid : map_ok m -> stream_ok sid (stream_of m sid).
Proof.
  intros Hm. unfold stream_of. destruct (m !! sid) as [s|] eqn:E; [by apply (Hm sid)|].
  split; simpl; try done; [by intros i md x ?%not_elem_of_nil|by intros i x ?%not_elem_of_nil].
Qed.

(** What an event brings. *)
Definition brings (ev : ResourceEvent) : Prop :=
  match resource ev with
  | ResStream md => stream md
  | ResRange md => range md
  | _ => True
  end.

Lemma handle_event_ok id ev m m' evs :
  map_ok m -> brings ev -> handle_event id ev m = (m', evs) -> map_ok m' /\ Forall justified evs.
Proof.
  intros Hm. unfold brings, handle_event. destruct (resource ev) as [| |md|md|]; try by intros _ [= <- <-].
  - intros Hb. set (sid := StreamMetadata.stream_id md).
    assert (forall m' evs,
      match m !! sid with
      | Some s => let '(s, events) := MetadataStream.update_stream s md in (<[sid := s]> m, events)
      | None => (<[sid := MetadataStream.new sid (Some md)]> m, [])
      end = (m', evs) -> map_ok m' /\ Forall justified evs) as Hup.
    { intros m1 ev1. destruct (m !! sid) as [s|] eqn:Es.
      - destruct (MetadataStream.update_stream s md) as [s1 ev2] eqn:E. intros [= <- <-].
        eapply update_stream_ok in E as [? ?]; [|by apply Hm|done|done]. split; [|done].
        by apply map_Forall_insert_2.
      - intros [= <- <-]. split; [|done]. apply map_Forall_insert_2; [|done].
        split; simpl; try done; [by intros md' [= <-]|by intros i md' x ?%not_elem_of_nil|by intros i x ?%not_elem_of_nil]. }
    destruct (event_type ev); eauto; try by intros [= <- <-].
    intros [= <- <-]. split; [by apply map_Forall_delete|]. destruct (m !! sid) as [s|] eqn:Es; [|done].
    apply Forall_fmap, Forall_forall. intros [i [md' x]] Hin.
    destruct (so_range _ _ (Hm _ _ Es) _ _ _ Hin) as (? & ? & _). by exists md'.
  - intros Hb. destruct (RangeMetadata.held_by md id); [|by intros [= <- <-]].
    set (sid := RangeMetadata.stream_id md). pose proof (stream_of_ok m sid Hm) as Hs.
    assert (forall s, stream_ok sid s -> map_ok (<[sid := s]> m)) as Hins by (intros; by apply map_Forall_insert_2).
    destruct (event_type ev); try (intros [= <- <-]; by split; [apply Hins|]).
    1-3: destruct (MetadataStream.add _ md) as [s1 e1] eqn:E; intros [= <- <-];
      eapply add_ok in E as [? ?]; [|done..]; split; [by apply Hins|by apply Forall_singleton].
    destruct (MetadataStream.del _ md) as [s1 e1] eqn:E; intros [= <- <-].
    eapply del_ok in E as [? ?]; [|done..]; split; [by apply Hins|by apply Forall_singleton].
Qed.

Lemma offloaded_events_ok m l m' evs :
  map_ok m -> (forall key x, (key, x) ∈ l -> progress key x) -> offloaded_events m l = (m', evs) ->
  map_ok m' /\ Forall justified evs.
Proof.
  revert m evs. induction l as [|[[sid i] x] l IH]; intros m evs Hm Hl; simpl; [by intros [= <- <-]|].
  destruct (MetadataStream.update_offloaded_offset _ i x) as [s ev] eqn:E.
  destruct (offloaded_events _ l) as [m1 ev1] eqn:E1. intros [= <- <-].
  eapply update_offloaded_ok in E as [? ?]; [|by apply stream_of_ok|apply Hl; by left].
  eapply IH in E1 as [? ?]; [|by apply map_Forall_insert_2|intros; apply Hl; by right]. split; [done|]. by constructor.
Qed.

(** *** Steps *)

Definition brought (i : input) : Prop :=
  match i with
  | Metadata ev _ _ => brings ev
  | Progress l _ => forall key x, (key, x) ∈ l -> progress key x
  end.

Definition reports_ok (s : t) (out : list (nat * list RangeEvent)) : Prop :=
  map_ok (stream_map s) /\ Forall justified (list_done_buffer_events s) /\
  forall c evs, (c, evs) ∈ out -> Forall justified evs.

Lemma notify_ok evs l open ok l' out c evs' :
  notify_listeners evs l open = (ok, l', out) -> (c, evs') ∈ out -> evs' = evs.
Proof.
  unfold notify_listeners. intros H Hin. assert (out = map (fun c => (c, evs)) (List.filter open l)) as -> by
    (destruct (existsb _ l); by injection H as <- <- <-).
  apply list_elem_of_fmap in Hin as (? & [= -> ->] & _). done.
Qed.

Lemma incremental_ok s ev open s' out :
  map_ok (stream_map s) -> Forall justified (list_done_buffer_events s) -> brings ev ->
  incremental s ev open = (s', out) -> reports_ok s' out.
Proof.
  intros Hm Hb Hev. unfold incremental. destruct (handle_event _ ev _) as [m evs] eqn:E.
  apply handle_event_ok in E as [Hm' He]; [|done..]. simpl. destruct (list_done s).
  - destruct evs as [|e evs]; [intros [= <- <-]; split_and!; try done; by intros c l ?%not_elem_of_nil|].
    destruct (notify_listeners _ _ open) as [[ok l] out1] eqn:En. intros [= <- <-]. split_and!; try done.
    intros c evs' Hin. eapply notify_ok in En as ->; done.
  - intros [= <- <-]. split_and!; simpl; try done; [by apply Forall_app|by intros c l ?%not_elem_of_nil].
Qed.

Lemma step_reports s i s' obs out :
  map_ok (stream_map s) -> Forall justified (list_done_buffer_events s) -> brought i ->
  step s i = (s', obs, out) -> reports_ok s' out.
Proof.
  intros Hm Hb Hi. assert (forall s, map_ok (stream_map s) -> Forall justified (list_done_buffer_events s) ->
    reports_ok s []) as Hnil by (intros; split_and!; try done; by intros c l ?%not_elem_of_nil).
  destruct i as [ev alive open|l open]; simpl in *.
  - destruct (running s) eqn:Er; [|intros [= <- _ <-]; auto]. unfold listen_metadata_events.
    assert (exists s1 out1, match event_type ev with ListFinished => list_finished s open | _ => (s, []) end = (s1, out1) /\
      reports_ok s1 out1) as (s1 & out1 & -> & Hm1 & Hb1 & Ho1).
    { destruct (event_type ev); try by (eexists _, _; split; [done|]; auto). unfold list_finished. simpl.
      destruct (notify_listeners _ _ open) as [[ok l] out1] eqn:En. eexists _, _. split; [done|].
      split_and!; [by destruct ok|by destruct ok|]. intros c evs' Hin. eapply notify_ok in En as ->; done. }
    destruct (running s1); [|intros [= <- _ <-]; by split_and!].
    destruct (incremental s1 ev open) as [s2 out2] eqn:E2. intros [= <- _ <-].
    eapply incremental_ok in E2 as (? & ? & Ho2); [|done..]. split_and!; try done.
    intros c evs [?|?]%elem_of_app; eauto.
  - destruct (_ || _); [|intros [= <- _ <-]; auto]. unfold listen_object_events.
    destruct (offloaded_events _ l) as [m evs] eqn:E. apply offloaded_events_ok in E as [? He]; [|done..].
    destruct evs as [|e evs]; [intros [= <- _ <-]; auto|].
    destruct (notify_listeners _ _ open) as [[ok l1] out1] eqn:En. intros [= <- _ <-]. split_and!; try done.
    intros c evs' Hin. eapply notify_ok in En as ->; done.
Qed.
End reported.

(** ** Runs *)

Fixpoint run (s : t) (l : list input) : t * list (nat * ResourceEvent) * list (nat * list RangeEvent) :=
  match l with
  | [] => (s, [], [])
  | i :: l =>
      let '(s, obs, out) := step s i in
      let '(s, obs', out') := run s l in
      (s, obs ++ obs', out ++ out')
  end.

Definition stream_in (l : list input) (md : StreamMetadata.t) : Prop :=
  exists ev alive open, Metadata ev alive open ∈ l /\ resource ev = ResStream md.
Definition range_in (l : list input) (md : RangeMetadata.t) : Prop :=
  exists ev alive open, Metadata ev alive open ∈ l /\ resource ev = ResRange md.
Definition progress_in (l : list input) (key : RangeKey) (x : Z) : Prop :=
  exists p open, Progress p open ∈ l /\ (key, x) ∈ p.

Lemma input_brought l i : i ∈ l -> brought (stream_in l) (range_in l) (progress_in l) i.
Proof.
  intros Hin. destruct i as [ev alive open|p open]; simpl.
  - unfold brings. destruct (resource ev) as [| |md|md|] eqn:E; try done; by exists ev, alive, open.
  - intros key x Hx. by exists p, open.
Qed.

Lemma run_reports stream range progress s l s' obs out :
  map_ok stream range progress (stream_map s) -> Forall (justified stream range progress) (list_done_buffer_events s) ->
  Forall (brought stream range progress) l -> run s l = (s', obs, out) -> reports_ok stream range progress s' out.
Proof.
  revert s obs out. induction l as [|i l IH]; intros s obs out Hm Hb Hl; simpl.
  { intros [= <- _ <-]. split_and!; try done. by intros c evs ?%not_elem_of_nil. }
  apply Forall_cons in Hl as [Hi Hl].
  destruct (step s i) as [[s1 obs1] out1] eqn:E1. destruct (run s1 l) as [[s2 obs2] out2] eqn:E2. intros [= <- _ <-].
  eapply step_reports in E1 as (Hm1 & Hb1 & Ho1); [|done..].
  destruct (IH _ _ _ Hm1 Hb1 Hl E2) as (? & ? & Ho2). split_and!; try done.
  intros c evs [?|?]%elem_of_app; eauto.
Qed.

(** C15: What the manager reports as deletable is so.  An offset that it sends to a listener
    for a range is zero, or the start of the stream or of the range in metadata that it has
    received, or an offset up to which the range was reported as offloaded; a range that it
    reports as offloaded was reported as offloaded up to the end that its metadata had. *)
Theorem deletable_justified server_id listeners observers l s obs out c evs ev :
  run (start0 server_id listeners observers) l = (s, obs, out) -> (c, evs) ∈ out -> ev ∈ evs ->
  justified (stream_in l) (range_in l) (progress_in l) ev.
Proof.
  intros Hr Hin Hev. eapply run_reports in Hr as (_ & _ & Ho); [|done|done|apply Forall_forall, input_brought].
  specialize (Ho _ _ Hin). rewrite Forall_forall in Ho. by apply Ho.
Qed.

(** ** What the observers see *)

(** The resource events of the inputs. *)
Definition events_in (l : list input) : list ResourceEvent :=
  omap (fun i => match i with Metadata ev _ _ => Some ev | Progress _ _ => None end) l.

Definition seen (o : nat) (obs : list (nat * ResourceEvent)) : list ResourceEvent :=
  map snd (List.filter (fun e => Nat.eqb e.1 o) obs).

Definition stays_alive (o : nat) (i : input) : Prop :=
  match i with Metadata _ alive _ => alive o = true | Progress _ _ => True end.

Lemma seen_app o a b : seen o (a ++ b) = seen o a ++ seen o b.
Proof. unfold seen. by rewrite List.filter_app, map_app. Qed.

Lemma seen_none o ev l : o ∉ l -> seen o (map (fun x => (x, ev)) l) = [].
Proof.
  unfold seen. induction l as [|x l IH]; simpl; [done|]. intros [Hne Hl]%not_elem_of_cons.
  destruct (Nat.eqb_spec x o); [congruence|]. by apply IH.
Qed.

(** An observer that is alive gets the event once. *)
Lemma seen_notified o ev l alive :
  NoDup l -> o ∈ l -> alive o = true -> seen o (map (fun x => (x, ev)) (List.filter alive l)) = [ev].
Proof.
  intros Hnd Ho Ha. induction Hnd as [|x l Hx Hnd IH]; [by apply not_elem_of_nil in Ho|]. simpl.
  assert (forall y, y ∉ l -> y ∉ List.filter alive l) as Hsub.
  { intros y Hy Hin. apply Hy. rewrite list_elem_of_In in *. by apply filter_In in Hin as [? _]. }
  destruct (decide (o = x)) as [<-|Hne].
  - rewrite Ha. simpl. unfold seen. simpl. rewrite Nat.eqb_refl. simpl. f_equal. apply seen_none. auto.
  - assert (o ∈ l) as Hin by set_solver. destruct (alive x); simpl; [|by apply IH].
    unfold seen. simpl. rewrite (proj2 (Nat.eqb_neq x o)) by congruence. by apply IH.
Qed.

Lemma list_finished_observers s open s' out : list_finished s open = (s', out) -> observers s' = observers s.
Proof.
  unfold list_finished. destruct (notify_listeners _ _ open) as [[ok l] out1]. by destruct ok; intros [= <- _].
Qed.

Lemma incremental_observers s ev open s' out : incremental s ev open = (s', out) -> observers s' = observers s.
Proof.
  unfold incremental. destruct (handle_event _ ev _) as [m [|e evs]]; simpl; destruct (list_done s); try by intros [= <- _].
  destruct (notify_listeners _ _ open) as [[ok l] out1]. by intros [= <- _].
Qed.

(** A step tells the observers of its event, unless the task has ended. *)
Lemma step_observed s i s' obs out :
  step s i = (s', obs, out) ->
  observers s' = observers s /\ (running s' = true -> running s = true) /\
  obs = match i with
        | Metadata ev alive _ =>
            if running s then map (fun o => (o, ev)) (List.filter alive (observers s)) else []
        | Progress _ _ => []
        end.
Proof.
  destruct i as [ev alive open|l open]; simpl.
  - destruct (running s) eqn:Er; [|intros [= <- <- _]; split_and!; congruence]. unfold listen_metadata_events.
    assert (exists s1 out1, match event_type ev with ListFinished => list_finished s open | _ => (s, []) end = (s1, out1) /\
      observers s1 = observers s) as (s1 & out1 & -> & Ho).
    { destruct (event_type ev); try by (eexists _, _; split). destruct (list_finished s open) as [s1 out1] eqn:E.
      eexists _, _. split; [done|]. by eapply list_finished_observers. }
    destruct (running s1); [|by intros [= <- <- _]].
    destruct (incremental s1 ev open) as [s2 out2] eqn:E. intros [= <- <- _].
    apply incremental_observers in E. split_and!; congruence.
  - destruct (_ || _); [|by intros [= <- <- _]]. unfold listen_object_events.
    destruct (offloaded_events _ l) as [m [|e evs]]; [by intros [= <- <- _]|].
    destruct (notify_listeners _ _ open) as [[ok l1] out1]. by intros [= <- <- _].
Qed.

Lemma run_observed s l s' obs out o :
  run s l = (s', obs, out) -> NoDup (observers s) -> o ∈ observers s -> Forall (stays_alive o) l ->
  running s' = true -> running s = true /\ seen o obs = events_in l.
Proof.
  revert s obs out. induction l as [|i l IH]; intros s obs out; simpl; [by intros [= <- <- _]|].
  destruct (step s i) as [[s1 obs1] out1] eqn:E1. destruct (run s1 l) as [[s2 obs2] out2] eqn:E2.
  intros [= <- <- _] Hnd Ho [Hi Hl]%Forall_cons Hr. apply step_observed in E1 as (Hobs & Hrun & ->).
  rewrite <- Hobs in Hnd, Ho. destruct (IH _ _ _ E2 Hnd Ho Hl Hr) as [Hr1 Hs]. split; [auto|].
  rewrite seen_app, Hs, (Hrun Hr1). destruct i as [ev alive open|p open]; [|done]. simpl in *.
  by rewrite <- Hobs, seen_notified.
Qed.

(** An observer of the manager gets every resource event, once and in the order of the
    placement driver, as long as it lives and the task runs; so when the list is complete,
    which [start] waits for, the range manager has seen all ranges that were listed. *)
Theorem observers_see_events server_id listeners observers l s obs out o :
  run (start0 server_id listeners observers) l = (s, obs, out) -> NoDup observers -> o ∈ observers ->
  Forall (stays_alive o) l -> running s = true -> seen o obs = events_in l.
Proof. intros Hr Hnd Ho Hl Hs. by eapply run_observed in Hr as [_ ?]. Qed.

(** ** Witnesses *)

(** A stream that is trimmed to 5 and a range of it are listed; then the range is offloaded. *)
Module MetadataExample.
Definition md : RangeMetadata.t :=
  RangeMetadata.mk 1 0 0 0 (Some 10) [RangeServer.mk 3 "a" 0] 1 1 None.
Definition yes (_ : nat) : bool := true.
Definition inputs : list input :=
  [Metadata (mkEvent Listed (ResStream (StreamMetadata.mk 1 1 1 0 5 0 false))) yes yes;
   Metadata (mkEvent Listed (ResRange md)) yes yes;
   Metadata (mkEvent ListFinished ResNone) yes yes;
   Progress [((1, 0), 10)] yes].
Definition out : list (nat * list RangeEvent) := [(2%nat, [OffsetMove (1, 0) 5]); (2%nat, [Offloaded (1, 0)])].

Lemma inputs_run : exists s obs, run (start0 3 [2%nat] [7%nat]) inputs = (s, obs, out) /\ running s = true.
Proof. eexists _, _. split; [by vm_compute|done]. Qed.
End MetadataExample.

Lemma deletable_justified_witness :
  justified (stream_in MetadataExample.inputs) (range_in MetadataExample.inputs) (progress_in MetadataExample.inputs)
    (Offloaded (1, 0)).
Proof.
  destruct MetadataExample.inputs_run as (s & obs & Hr & _).
  apply (deletable_justified 3 [2%nat] [7%nat] MetadataExample.inputs s obs MetadataExample.out 2 [Offloaded (1, 0)]);
    [exact Hr|by right; left|by left].
Defined.

Lemma observers_see_events_witness :
  exists s obs, run (start0 3 [2%nat] [7%nat]) MetadataExample.inputs = (s, obs, MetadataExample.out) /\
    seen 7 obs = events_in MetadataExample.inputs.
Proof.
  destruct MetadataExample.inputs_run as (s & obs & Hr & Hs). exists s, obs. split; [exact Hr|].
  apply (observers_see_events 3 [2%nat] [7%nat] MetadataExample.inputs s obs MetadataExample.out 7);
    [exact Hr|apply NoDup_singleton|by left|by repeat constructor|exact Hs].
Defined.
