(* ===== verification/ElasticStore.v ===== *)
(** * The store of a range server

    [components/store/src/store/elastic_store.rs] with [index/driver.rs]: the store sends its
    appends and reads to the I/O loop and its look-ups and metadata to the driver of the
    index, and brings the answers to its callers.  Then the fetch handler of the range server,
    [range-server/src/handler/fetch.rs], which answers with what the store has and with the
    objects of the range.

    A call that waits is cut where it waits.  The channels are lists; a caller, and the
    observer of a task, is a number. *)

From S2P Require Import Prelude Bytes Model StoreTypes Collections AlignedBuf BlockCache Segment Record Wal SharedBufs.
From S2P Require Import Index Watermark Codec RangeManager Handler IoLoop Recovery ObjectStorage ObjectManager.

(** ** [option.rs], [fetch_result.rs] *)

Module ReadOptions.
Record t := mk {
  stream_id : Z;               (* u64 *)
  range : Z;                   (* u32 *)
  offset : Z;                  (* u64 *)
  max_offset : Z;              (* u64 *)
  max_wait_ms : Z;             (* i32 *)
  max_bytes : Z;               (* i32 *)
}.
End ReadOptions.

Module FetchResult.
Record t := mk {
  stream_id : Z;               (* u64 *)
  range : Z;                   (* u32 *)
  start_offset : Z;            (* u64 *)
  end_offset : Z;              (* u64 *)
  total_len : Z;               (* usize *)
  results : list SingleFetchResult.t;
}.
End FetchResult.

(** [advance_bytes] of [util/src/bytes.rs]: what is taken, and what is left of the buffers. *)
Fixpoint advance_bytes {B : BytesApi} (bufs : list (list byte)) (n : Z) : outcome (list byte * list (list byte)) :=
  match bufs with
  | [] => Ret ([], [])
  | buf :: bufs' =>
      if n =? 0 then Ret ([], bufs)
      else
        let to_advance := Z.min n (remaining buf) in
        '(taken, buf) ← copy_to_bytes (Z.to_nat to_advance) buf;
        '(rest, bufs') ← advance_bytes bufs' (n - to_advance);
        Ret (taken ++ rest, buf :: bufs')
  end.

(** ** [index/driver.rs] *)

Module IndexCommand.
(** The channels for the answers are left out: the answer is the result of [run]. *)
Inductive t :=
| Index (record : record)
| ScanRecord (stream_id range offset max_offset max_bytes : Z)
| ListRange
| ListRangeByStream (stream_id : Z)
| SealRange (range : RangeMetadata.t)
| CreateRange (range : RangeMetadata.t)
| RangeEvent (event_type : EventType) (metadata : RangeMetadata.t)
| StreamTrim (stream_id offset : Z)
| DataOffload (stream_id range offset delta : Z).
End IndexCommand.

Module IndexDriver.
Section driver.
Context {B : BytesApi} {K : KvApi}.

Record t := mk { indexer : Indexer.t K; watermark_manager : WatermarkManager.t }.

Inductive answer :=
| Done
| Scanned (res : option (list record))
| Ranges (l : list RangeMetadata.t)
| Changed (res : result unit StoreError.t).

(** The look-up of the watermarks in the index. *)
Definition tlb (d : t) : tlb_t := Indexer.scan_wal_offset (indexer d).

Definition with_indexer (d : t) (ix : Indexer.t K) : t := mk ix (watermark_manager d).
Definition with_watermarks (d : t) (m : WatermarkManager.t) : t := mk (indexer d) m.

Definition range_event (d : t) (event_type : EventType) (metadata : RangeMetadata.t) : outcome t :=
  let m := watermark_manager d in
  let index := RangeMetadata.index metadata in
  match event_type with
  | Added | Listed =>
      Ret (if 0 <=? index then
             with_watermarks d (WatermarkManager.add_range m (RangeMetadata.stream_id metadata) index
               (RangeMetadata.start metadata) (RangeMetadata.end_ metadata))
           else d)
  | Modified =>
      if 0 <=? index then
        m ← WatermarkManager.trim_range (tlb d) m (RangeMetadata.stream_id metadata) index
              (RangeMetadata.start metadata);
        Ret (with_watermarks d m)
      else Ret d
  | Deleted =>
      Ret (with_watermarks d (WatermarkManager.delete_range m (RangeMetadata.stream_id metadata) (as_uint 32 index)))
  | _ => Ret d
  end.

(** One command of [run]; [None] when [StreamDescriptor::trim] does not return within the
    fuel. *)
Definition run (fuel : nat) (d : t) (command : IndexCommand.t) : outcome (option (t * answer)) :=
  match command with
  | IndexCommand.Index r =>
      '(_, ix) ← Indexer.index (indexer d) r;
      Ret (Some (mk ix (WatermarkManager.on_index (watermark_manager d)
        (RecordIndex.stream_id (IndexRecord.index r)) (RecordIndex.range (IndexRecord.index r))
        (RecordIndex.offset (IndexRecord.index r))), Done))
  | IndexCommand.ScanRecord stream_id range offset max_offset max_bytes =>
      res ← Indexer.scan_record_left_shift (indexer d) stream_id range offset max_offset max_bytes;
      Ret (Some (d, Scanned res))
  | IndexCommand.ListRange => l ← Indexer.list_all (indexer d); Ret (Some (d, Ranges l))
  | IndexCommand.ListRangeByStream stream_id =>
      l ← Indexer.list_by_stream (indexer d) stream_id; Ret (Some (d, Ranges l))
  | IndexCommand.CreateRange range =>
      Ret (Some (with_indexer d (Indexer.add (indexer d) (RangeMetadata.stream_id range) range), Changed (Ok tt)))
  | IndexCommand.SealRange range =>
      match Indexer.seal (indexer d) (RangeMetadata.stream_id range) range with
      | Ok ix => Ret (Some (with_indexer d ix, Changed (Ok tt)))
      | Err e => Ret (Some (d, Changed (Err e)))
      end
  | IndexCommand.DataOffload stream_id range offset delta =>
      m ← WatermarkManager.on_data_offload (tlb d) (watermark_manager d) stream_id range offset delta;
      Ret (Some (with_watermarks d m, Done))
  | IndexCommand.RangeEvent event_type metadata =>
      d ← range_event d event_type metadata; Ret (Some (d, Done))
  | IndexCommand.StreamTrim stream_id offset =>
      res ← WatermarkManager.trim_stream fuel (tlb d) (watermark_manager d) stream_id offset;
      Ret (match res with Some m => Some (with_watermarks d m, Done) | None => None end)
  end.
End driver.
Arguments t K : clear implicits.
End IndexDriver.

(** ** [elastic_store.rs] *)

Module ElasticStore.
Section store.
Context {B : BytesApi} {C : Crc32Api} {K : KvApi}.

(** [sq] and [index_tx] are the channels to the I/O loop and to the index driver, [cq] is the
    channel in which the I/O loop answers the appends of this store. *)
Record t := mk {
  server_id : Z;               (* i32 *)
  segment_size : Z;            (* u64 *)
  sq : list IoTask;
  sq_connected : bool;
  index_tx : list IndexCommand.t;
  cq_tx : Z;
  cq : list (result AppendResult.t AppendError.t);
  inflight_appends : list nat;
}.

Definition set_sq (s : t) (l : list IoTask) : t :=
  mk (server_id s) (segment_size s) l (sq_connected s) (index_tx s) (cq_tx s) (cq s) (inflight_appends s).
Definition set_cq (s : t) (l : list (result AppendResult.t AppendError.t)) (appends : list nat) : t :=
  mk (server_id s) (segment_size s) (sq s) (sq_connected s) (index_tx s) (cq_tx s) l appends.
Definition push_index (s : t) (cmd : IndexCommand.t) : t :=
  mk (server_id s) (segment_size s) (sq s) (sq_connected s) (index_tx s ++ [cmd]) (cq_tx s) (cq s) (inflight_appends s).

Definition write_task (s : t) (request : AppendRecordRequest.t) : WriteTask.t :=
  WriteTask.mk (AppendRecordRequest.stream_id request) (as_uint 32 (AppendRecordRequest.range_index request))
    (AppendRecordRequest.offset request) (AppendRecordRequest.len request) (AppendRecordRequest.buffer request)
    None (cq_tx s).

Definition do_append (s : t) (request : AppendRecordRequest.t) : t :=
  if sq_connected s then set_sq s (sq s ++ [TaskWrite (write_task s request)])
  else set_cq s (cq s ++ [Err AppendError.SubmissionQueue]) (inflight_appends s).

(** [append] up to where it waits. *)
Definition append (s : t) (caller : nat) (request : AppendRecordRequest.t) : t :=
  do_append (set_cq s (cq s) (inflight_appends s ++ [caller])) request.

(** The inner loop of [start]: the results, and who gets them. *)
Fixpoint reap (results : list (result AppendResult.t AppendError.t)) (appends : list nat)
    : list nat * list (nat * result AppendResult.t AppendError.t) :=
  match results with
  | [] => (appends, [])
  | res :: results =>
      match appends with
      | tx :: appends => let '(appends, out) := reap results appends in (appends, (tx, res) :: out)
      | [] => reap results []
      end
  end.

Definition start_round (s : t) : t * list (nat * result AppendResult.t AppendError.t) :=
  let '(appends, out) := reap (cq s) (inflight_appends s) in (set_cq s [] appends, out).

(** *** [fetch] *)

Definition fetch_command (options : ReadOptions.t) : IndexCommand.t :=
  IndexCommand.ScanRecord (ReadOptions.stream_id options) (ReadOptions.range options)
    (ReadOptions.offset options) (ReadOptions.max_offset options) (as_uint 32 (ReadOptions.max_bytes options)).

Definition read_task (observer : Z) (r : record) : ReadTask.t :=
  ReadTask.mk (RecordIndex.stream_id (IndexRecord.index r)) (RecordIndex.range (IndexRecord.index r))
    (RecordIndex.offset (IndexRecord.index r)) (RecordHandle.wal_offset (IndexRecord.handle r))
    (RecordHandle.len (IndexRecord.handle r)) observer.

(** The read tasks; the observer of a task is its place.  [scanned] is [None] when the driver
    of the index has dropped the channel. *)
Definition fetch_scanned (scanned : option (result (option (list record)) StoreError.t))
    : result (list ReadTask.t) FetchError.t :=
  match scanned with
  | Some (Ok (Some records)) => Ok (imap (fun i r => read_task (Z.of_nat i) r) records)
  | Some (Ok None) => Err FetchError.NoRecord
  | _ => Err FetchError.TranslateIndex
  end.

(** What a closed channel to the I/O loop makes of a read. *)
Definition send_reads (s : t) (tasks : list ReadTask.t) : t * list (result SingleFetchResult.t FetchError.t) :=
  if sq_connected s then (set_sq s (sq s ++ map TaskRead tasks), [])
  else (s, map (fun _ => Err FetchError.SubmissionQueue) tasks).

(** Stripping the header of a record and checking it. *)
Definition check_record (segment_size : Z) (res : SingleFetchResult.t)
    : outcome (result SingleFetchResult.t FetchError.t) :=
  '(record_prefix, payload) ← advance_bytes (SingleFetchResult.payload res) RecordType.RECORD_PREFIX_LENGTH;
  if negb (remaining record_prefix =? RecordType.RECORD_PREFIX_LENGTH) then Ret (Err FetchError.DataCorrupted)
  else
  '(expected_crc32, record_prefix) ← get_uint 4 record_prefix;
  '(length_type, _) ← get_uint 4 record_prefix;
  let expected_length := Z.shiftr length_type 8 in
  let actual_length := remaining (concat payload) in
  if negb (expected_length =? as_uint 32 actual_length) then Ret (Err FetchError.DataCorrupted)
  else
  base ← uint_div (as_uint 64 (SingleFetchResult.wal_offset res)) segment_size;
  base_file_offset ← uint_mul 64 base segment_size;
  if negb (LogSegment.checksum_record payload base_file_offset =? expected_crc32) then Ret (Err FetchError.DataCorrupted)
  else
  Ret (Ok (SingleFetchResult.mk (SingleFetchResult.stream_id res) (SingleFetchResult.range res)
             (SingleFetchResult.offset res) (SingleFetchResult.wal_offset res) payload)).

(** The results that are not errors, with the offsets and the length; [None] stands for a
    channel that is closed. *)
Record collected := mk_collected {
  start_offset : Z; end_offset : Z; total_len : Z;
  flattened : list (result SingleFetchResult.t FetchError.t);
}.

Fixpoint collect (segment_size : Z) (c : collected) (io_result : list (option (result SingleFetchResult.t FetchError.t)))
    : outcome collected :=
  match io_result with
  | [] => Ret c
  | res :: io_result =>
      r ← (match res with
           | Some (Ok res) => check_record segment_size res
           | Some (Err e) => Ret (Err e)
           | None => Ret (Err FetchError.ChannelRecv)
           end);
      c ← (match r with
           | Ok res =>
               n ← usize_add (total_len c) (SingleFetchResult.total_len res);
               Ret (mk_collected (Z.min (start_offset c) (SingleFetchResult.offset res))
                      (Z.max (end_offset c) (SingleFetchResult.offset res)) n (flattened c ++ [r]))
           | Err _ => Ret (mk_collected (start_offset c) (end_offset c) (total_len c) (flattened c ++ [r]))
           end);
      collect segment_size c io_result
  end.

Fixpoint first_error (l : list (result SingleFetchResult.t FetchError.t)) : option FetchError.t :=
  match l with
  | [] => None
  | Err e :: _ => Some e
  | Ok _ :: l => first_error l
  end.

Definition successes (l : list (result SingleFetchResult.t FetchError.t)) : list SingleFetchResult.t :=
  omap (fun r => match r with Ok x => Some x | Err _ => None end) l.

Definition wal_le (a b : SingleFetchResult.t) : Prop := SingleFetchResult.wal_offset a <= SingleFetchResult.wal_offset b.
#[global] Instance wal_le_dec a b : Decision (wal_le a b).
Proof. unfold wal_le. apply _. Defined.

(** The rest of [fetch], once all reads are answered. *)
Definition fetch_done (segment_size : Z) (options : ReadOptions.t)
    (io_result : list (option (result SingleFetchResult.t FetchError.t))) : outcome (result FetchResult.t FetchError.t) :=
  c ← collect segment_size (mk_collected (2 ^ 64 - 1) 0 0 []) io_result;
  match first_error (flattened c) with
  | Some e => Ret (Err e)
  | None =>
      Ret (Ok (FetchResult.mk (ReadOptions.stream_id options) (ReadOptions.range options)
                 (start_offset c) (end_offset c) (total_len c) (merge_sort wal_le (successes (flattened c)))))
  end.

(** All of [fetch], with the driver of the index and with the I/O loop as the function that
    answers its reads. *)
Definition fetch (s : t) (d : IndexDriver.t K) (read : ReadTask.t -> option (result SingleFetchResult.t FetchError.t))
    (options : ReadOptions.t) : outcome (result FetchResult.t FetchError.t) :=
  answer ← IndexDriver.run 0 d (fetch_command options);
  match fetch_scanned (match answer with Some (_, IndexDriver.Scanned res) => Some (Ok res) | _ => None end) with
  | Err e => Ret (Err e)
  | Ok tasks => fetch_done (segment_size s) options (map read tasks)
  end.

(** *** The other operations *)

(** [list] and [list_by_stream] filter what the driver lists. *)
Definition list_ranges (filter : RangeMetadata.t -> bool) (listed : list RangeMetadata.t) : list RangeMetadata.t :=
  List.filter filter listed.

Definition get_range_end_offset (ix : Indexer.t K) (stream_id range : Z) : outcome (option Z) :=
  max_key ← Indexer.retrieve_max_key ix stream_id range;
  match max_key with
  | Some record => e ← IndexRecord.end_offset record; Ret (Some e)
  | None => Ret None
  end.

Definition on_range_event (s : t) (ty : EventType) (metadata : RangeMetadata.t) : t :=
  if existsb (fun rs => RangeServer.server_id rs =? server_id s) (RangeMetadata.replica metadata) then
    push_index s (IndexCommand.RangeEvent ty metadata)
  else s.

Definition on_data_offload (s : t) (ty : EventType) (metadata : ObjectMetadata.t) : t :=
  match ty with
  | Added =>
      push_index s (IndexCommand.DataOffload (ObjectMetadata.stream_id metadata) (ObjectMetadata.range_index metadata)
        (ObjectMetadata.start_offset metadata) (ObjectMetadata.end_offset_delta metadata))
  | _ => s
  end.

Definition on_stream_event (s : t) (ty : EventType) (metadata : StreamMetadata.t) : t :=
  match ty with
  | Modified => push_index s (IndexCommand.StreamTrim (StreamMetadata.stream_id metadata) (StreamMetadata.start_offset metadata))
  | _ => s
  end.

Definition on_resource_event (s : t) (event : ResourceEvent) : t :=
  match resource event with
  | ResStream metadata => on_stream_event s (event_type event) metadata
  | ResRange metadata => on_range_event s (event_type event) metadata
  | ResObject metadata => on_data_offload s (event_type event) metadata
  | _ => s
  end.

(** A clone shares the channels to the I/O loop and to the index, and has its own answers. *)
Definition clone (s : t) (cq_tx : Z) : t :=
  mk (server_id s) (segment_size s) (sq s) (sq_connected s) (index_tx s) cq_tx [] [].
End store.
End ElasticStore.

(** ** [handler/fetch.rs] *)

Module Fetch.
(** The request, as its flat buffer has it. *)
Record t := mk {
  stream_id : Z;               (* i64 *)
  index : Z;                   (* i32 *)
  offset : Z;                  (* i64 *)
  limit : Z;                   (* i64 *)
  max_wait_ms : Z;             (* i32 *)
  max_bytes : Z;               (* i32 *)
}.

(** [parse] reads the flat buffer of the header. *)
Definition parse_frame (parse : list byte -> option t) (request : Frame.t) : result t ErrorCode.t :=
  match Frame.header request with
  | None => Err ErrorCode.BAD_REQUEST
  | Some request_buf =>
      match parse request_buf with
      | Some fetch_request => Ok fetch_request
      | None => Err ErrorCode.BAD_REQUEST
      end
  end.

Definition convert_store_error (err : FetchError.t) : ErrorCode.t :=
  match err with
  | FetchError.SubmissionQueue | FetchError.ChannelRecv | FetchError.TranslateIndex => ErrorCode.RS_INTERNAL_SERVER_ERROR
  | FetchError.NoRecord => ErrorCode.NO_NEW_RECORD
  | FetchError.RangeNotFound => ErrorCode.RANGE_NOT_FOUND
  | FetchError.BadRequest => ErrorCode.BAD_REQUEST
  | FetchError.DataCorrupted => ErrorCode.RS_DATA_CORRUPTED
  end.

(** The header of the response and its payload. *)
Record response := mk_response {
  code : ErrorCode.t;
  object_metadata_list : list ObjectMetadata.t;
  payload : option (list (list byte));
}.

Definition handle_fetch_error (e : FetchError.t) : response := mk_response (convert_store_error e) [] None.

Definition build_read_opt (f : t) (m : Manager.t) : result ReadOptions.t FetchError.t :=
  if offset f <? 0 then Err FetchError.BadRequest
  else if Manager.has_range m (as_uint 64 (stream_id f)) (as_uint 32 (index f)) then
    Ok (ReadOptions.mk (as_uint 64 (stream_id f)) (as_uint 32 (index f)) (offset f) (as_uint 64 (limit f))
          (max_wait_ms f) (max_bytes f))
  else Err FetchError.RangeNotFound.

(** With the feature [object-first] nothing is read from the store when the objects have it
    all; [object_first] tells whether the feature is on. *)
Definition read_option (object_first : bool) (option : ReadOptions.t) (objects_cover_all : bool) : ReadOptions.t :=
  if object_first && objects_cover_all then
    ReadOptions.mk (ReadOptions.stream_id option) (ReadOptions.range option) (ReadOptions.offset option)
      (ReadOptions.max_offset option) (ReadOptions.max_wait_ms option) 0
  else option.

(** [get_objects] and [fetch] are those of the range manager, which forwards them to the
    object storage and to the store. *)
Definition apply (object_first : bool) (f : t) (m : Manager.t)
    (get_objects : Z -> Z -> Z -> Z -> Z -> outcome (list ObjectMetadata.t * bool))
    (fetch : ReadOptions.t -> outcome (result FetchResult.t FetchError.t)) : outcome response :=
  match build_read_opt f m with
  | Err e => Ret (handle_fetch_error e)
  | Ok option =>
      '(objects, cover_all) ← get_objects (ReadOptions.stream_id option) (ReadOptions.range option)
        (ReadOptions.offset option) (ReadOptions.max_offset option) (as_uint 32 (ReadOptions.max_bytes option));
      let option := read_option object_first option cover_all in
      if (ReadOptions.max_offset option <=? ReadOptions.offset option) || (ReadOptions.max_bytes option =? 0) then
        Ret (mk_response ErrorCode.OK objects None)
      else
        res ← fetch option;
        match res with
        | Ok fetch_result =>
            match FetchResult.results fetch_result with
            | [] => Ret (handle_fetch_error FetchError.NoRecord)
            | results => Ret (mk_response ErrorCode.OK objects (Some (concat (map SingleFetchResult.payload results))))
            end
        | Err e => Ret (handle_fetch_error e)
        end
  end.
End Fetch.

(** ** Reading records back *)

Section reading.
Context {B : BytesApi} {BL : BytesLaws B} {C : Crc32Api} {CL : Crc32Laws C} {K : KvApi} {KL : KvLaws K}.

Lemma advance_bytes_spec bufs n :
  0 <= n <= remaining (concat bufs) ->
  exists bufs', advance_bytes bufs n = Ret (take (Z.to_nat n) (concat bufs), bufs') /\
    concat bufs' = drop (Z.to_nat n) (concat bufs).
Proof.
  revert n. induction bufs as [|buf bufs IH]; intros n Hn; simpl in *.
  - exists []. by rewrite take_nil, drop_nil.
  - destruct (Z.eqb_spec n 0) as [->|Hne]; [by exists (buf :: bufs)|].
    rewrite remaining_app in Hn. pose proof (remaining_nonneg buf). unfold remaining in *.
    rewrite copy_to_bytes_take. destruct (Nat.ltb_spec (length buf) (Z.to_nat (n `min` Z.of_nat (length buf)))); [lia|].
    destruct (IH (n - n `min` Z.of_nat (length buf))) as (bufs' & -> & Hc); [lia|]. simpl.
    exists (drop (Z.to_nat (n `min` Z.of_nat (length buf))) buf :: bufs'). split; [|simpl; rewrite Hc].
    + f_equal. f_equal. rewrite take_app. f_equal.
      * destruct (decide (n <= Z.of_nat (length buf))); [by rewrite Z.min_l by lia|].
        rewrite Z.min_r by lia. rewrite !take_ge; [done|lia..].
      * f_equal. lia.
    + rewrite drop_app. f_equal; [|f_equal; lia].
      destruct (decide (n <= Z.of_nat (length buf))); [by rewrite Z.min_l by lia|].
      rewrite Z.min_r by lia. rewrite !drop_ge; [done|lia..].
Qed.

(** A record as it was written passes the check and leaves its payload. *)
Lemma check_record_ok fs res x :
  0 < fs -> 0 <= SingleFetchResult.wal_offset res < 2 ^ 63 -> remaining x < 2 ^ 24 ->
  let p := SingleFetchResult.wal_offset res in
  concat (SingleFetchResult.payload res) = record_bytes (p - p mod fs) RecordType.Full x ->
  exists payload, concat payload = x /\
    ElasticStore.check_record fs res =
      Ret (Ok (SingleFetchResult.mk (SingleFetchResult.stream_id res) (SingleFetchResult.range res)
                 (SingleFetchResult.offset res) p payload)).
Proof.
  intros Hfs Hp Hx p Hc. pose proof (remaining_nonneg x) as Hx0.
  destruct (with_length_spec RecordType.Full (remaining x)) as (Hu & Hlen & _); [done|].
  destruct (advance_bytes_spec (SingleFetchResult.payload res) 8) as (payload & Ha & Hd).
  { rewrite Hc, remaining_record. lia. }
  set (crc := LogSegment.checksum_record [x] (p - p mod fs)) in *.
  set (lt := RecordType.with_length RecordType.Full (remaining x)) in *.
  assert (length (put_uint 4 crc ++ put_uint 4 lt) = 8%nat) as H8 by (by rewrite length_app, !length_put_uint).
  rewrite Hc in Ha, Hd. unfold record_bytes in Ha, Hd. rewrite app_assoc in Ha, Hd.
  fold crc lt in Ha, Hd.
  change (Z.to_nat 8) with 8%nat in Ha, Hd. rewrite <- H8, take_app_length in Ha. rewrite <- H8, drop_app_length in Hd.
  exists payload. split; [exact Hd|]. unfold ElasticStore.check_record.
  change RecordType.RECORD_PREFIX_LENGTH with 8. rewrite Ha, bind_Ret. cbn beta iota.
  assert (remaining (put_uint 4 crc ++ put_uint 4 lt) = 8) as -> by (unfold remaining; by rewrite H8).
  rewrite Z.eqb_refl. cbn [negb]. rewrite get_put by apply checksum_u32. rewrite bind_Ret. cbn beta iota.
  rewrite <- (app_nil_r (put_uint 4 lt)), get_put by apply Hu. rewrite bind_Ret. cbn beta iota.
  rewrite Hd, Hlen, as_uint_id by (unfold is_uint; lia). rewrite Z.eqb_refl. cbn [negb].
  rewrite as_uint_id by (unfold is_uint; lia). rewrite uint_div_Ret by lia. rewrite bind_Ret.
  assert (p / fs * fs = p - p mod fs) as Hbase by (pose proof (Z_div_mod_eq_full p fs); lia).
  rewrite uint_mul_Ret; [|fold p; rewrite Hbase; pose proof (Z.mod_pos_bound p fs); lia].
  rewrite bind_Ret. fold p. rewrite Hbase.
  assert (LogSegment.checksum_record payload (p - p mod fs) = crc) as ->.
  { unfold crc, LogSegment.checksum_record. by rewrite !crc32_vectored_concat, Hd, concat_cons, app_nil_r. }
  by rewrite Z.eqb_refl.
Qed.

(** What the store relies on of the I/O loop: a read is answered with the bytes of the log. *)
Class LogReader (read : ReadTask.t -> option (result SingleFetchResult.t FetchError.t)) (log : Z -> byte) : Prop :=
  read_log t : 0 < ReadTask.len t ->
    exists chunks, read t = Some (Ok (SingleFetchResult.mk (ReadTask.stream_id t) (ReadTask.range t) (ReadTask.offset t)
        (as_sint 64 (ReadTask.wal_offset t)) chunks)) /\
      concat chunks = span log (ReadTask.wal_offset t) (ReadTask.len t).

Definition wal_of (r : record) : Z := RecordHandle.wal_offset (IndexRecord.handle r).
Definition len_of (r : record) : Z := RecordHandle.len (IndexRecord.handle r).

Section log.
Context (fs : Z) (log : Z -> byte) (batch : record -> list byte).
Hypothesis Hfs : 0 < fs.

(** The entry of the index refers to the record of the batch in the log. *)
Definition logged (r : record) : Prop :=
  0 <= wal_of r < 2 ^ 63 /\ 0 < len_of r < 2 ^ 24 /\
  span log (wal_of r) (len_of r) = record_bytes (wal_of r - wal_of r mod fs) RecordType.Full (batch r).

(** A result that holds the batch of the record. *)
Definition result_of (r : record) (x : SingleFetchResult.t) : Prop :=
  SingleFetchResult.stream_id x = RecordIndex.stream_id (IndexRecord.index r) /\
  SingleFetchResult.range x = RecordIndex.range (IndexRecord.index r) /\
  SingleFetchResult.offset x = IndexRecord.offset r /\
  SingleFetchResult.wal_offset x = wal_of r /\ concat (SingleFetchResult.payload x) = batch r.

Lemma logged_len r : logged r -> len_of r = 8 + remaining (batch r).
Proof.
  intros (Hw & Hl & Hs). apply (f_equal remaining) in Hs. rewrite remaining_record, remaining_span in Hs by lia. done.
Qed.

Lemma read_logged read i r :
  LogReader read log -> logged r ->
  exists res x, read (ElasticStore.read_task i r) = Some (Ok res) /\
    ElasticStore.check_record fs res = Ret (Ok x) /\ result_of r x.
Proof.
  intros Hread Hr. pose proof (logged_len r Hr) as Hlen. destruct Hr as (Hw & Hl & Hs). unfold wal_of, len_of in *.
  destruct (Hread (ElasticStore.read_task i r)) as (chunks & E & Hc); [simpl; lia|]. simpl in E, Hc.
  rewrite as_sint_id in E by (unfold is_sint; lia). rewrite Hs in Hc.
  destruct (check_record_ok fs (SingleFetchResult.mk (RecordIndex.stream_id (IndexRecord.index r))
    (RecordIndex.range (IndexRecord.index r)) (RecordIndex.offset (IndexRecord.index r))
    (RecordHandle.wal_offset (IndexRecord.handle r)) chunks) (batch r)) as (payload & Hp & Hck); [done|done|lia|done|].
  eexists _, _. split; [exact E|]. split; [exact Hck|]. by split_and!.
Qed.

Definition batch_sum (rs : list record) : Z := foldr (fun r n => remaining (batch r) + n) 0 rs.

Lemma collect_logged read (Hread : LogReader read log) : forall rs i c,
  Forall logged rs -> 0 <= ElasticStore.total_len c -> ElasticStore.total_len c + batch_sum rs < 2 ^ 64 ->
  exists xs, Forall2 result_of rs xs /\
    ElasticStore.collect fs c (map read (imap (fun j r => ElasticStore.read_task (Z.of_nat (i + j)) r) rs)) =
    Ret (ElasticStore.mk_collected (foldl Z.min (ElasticStore.start_offset c) (map IndexRecord.offset rs))
           (foldl Z.max (ElasticStore.end_offset c) (map IndexRecord.offset rs))
           (ElasticStore.total_len c + batch_sum rs) (ElasticStore.flattened c ++ map Ok xs)).
Proof.
  induction rs as [|r rs IH]; intros i c Hrs H0 Hsum.
  - exists []. split; [constructor|]. simpl. rewrite Z.add_0_r, app_nil_r. by destruct c.
  - apply Forall_cons in Hrs as [Hr Hrs]. simpl in Hsum.
    assert (0 <= batch_sum rs) as Hpos.
    { clear. induction rs as [|r rs IH]; simpl; [lia|]. pose proof (remaining_nonneg (batch r)). lia. }
    destruct (read_logged read (Z.of_nat (i + 0)) r Hread Hr) as (res & x & E & Hck & Hx).
    destruct (IH (S i) (ElasticStore.mk_collected (Z.min (ElasticStore.start_offset c) (IndexRecord.offset r))
      (Z.max (ElasticStore.end_offset c) (IndexRecord.offset r)) (ElasticStore.total_len c + remaining (batch r))
      (ElasticStore.flattened c ++ [Ok x]))) as (xs & Hxs & Hc); [done|simpl; pose proof (remaining_nonneg (batch r)); lia|simpl; lia|].
    exists (x :: xs). split; [by constructor|]. cbn [imap map ElasticStore.collect]. rewrite E, Hck, bind_Ret.
    destruct Hx as (_ & _ & Ho & _ & Hp). unfold SingleFetchResult.total_len. rewrite Hp, Ho.
    rewrite uint_add_Ret by lia. rewrite !bind_Ret. simpl in Hc.
    rewrite (imap_ext _ (fun j r => ElasticStore.read_task (Z.of_nat (S i + j)) r)) by (intros; simpl; do 2 f_equal; lia).
    simpl. rewrite Hc. by rewrite <- app_assoc, Z.add_assoc.
Qed.

Lemma first_error_ok (xs : list SingleFetchResult.t) : ElasticStore.first_error (map Ok xs) = None.
Proof. by induction xs. Qed.

Lemma successes_ok (xs : list SingleFetchResult.t) : ElasticStore.successes (map Ok xs) = xs.
Proof. unfold ElasticStore.successes. induction xs as [|x xs IH]; [done|]. cbn. f_equal. exact IH. Qed.

(** Results whose records are in the order of the log stay in place. *)
Lemma results_sorted rs xs :
  Forall2 result_of rs xs -> StronglySorted (fun a b => wal_of a < wal_of b) rs -> merge_sort ElasticStore.wal_le xs = xs.
Proof.
  intros H Hs.
  assert (StronglySorted (fun a b => SingleFetchResult.wal_offset a < SingleFetchResult.wal_offset b) xs) as Hx.
  { induction H as [|r x rs xs Hr H IH]; [constructor|]. apply StronglySorted_inv in Hs as [Hs Hall].
    constructor; [by apply IH|]. destruct Hr as (_ & _ & _ & -> & _). clear IH Hs.
    induction H as [|r' x' rs xs Hr' H IH]; [constructor|]. apply Forall_cons in Hall as [Hlt Hall].
    destruct Hr' as (_ & _ & _ & Hw & _). constructor; [by rewrite Hw|by apply IH]. }
  assert (Total ElasticStore.wal_le) as Htotal by (intros a b; unfold ElasticStore.wal_le; lia).
  assert (Transitive ElasticStore.wal_le) as Htrans by (intros a b c; unfold ElasticStore.wal_le; lia).
  apply (StronglySorted_unique_strong ElasticStore.wal_le); [|apply (StronglySorted_merge_sort _)| |apply merge_sort_Permutation].
  - intros x1 x2 H1 H2 Ha Hb. rewrite merge_sort_Permutation in H1.
    assert (SingleFetchResult.wal_offset x1 = SingleFetchResult.wal_offset x2) as Heq by (unfold ElasticStore.wal_le in *; lia).
    clear -Hx H1 H2 Heq. induction Hx as [|x xs Hs IH Hall]; [by apply elem_of_nil in H1|].
    rewrite Forall_forall in Hall. apply elem_of_cons in H1 as [->|H1]; apply elem_of_cons in H2 as [->|H2]; [done| | |by apply IH].
    + apply Hall in H2. lia.
    + apply Hall in H1. lia.
  - clear -Hx. induction Hx as [|x xs Hs IH Hall]; [constructor|]. constructor; [done|].
    eapply Forall_impl; [exact Hall|]. intros y Hy. cbn beta in Hy. unfold ElasticStore.wal_le. lia.
Qed.

Lemma fetch_done_logged read rs options :
  LogReader read log -> Forall logged rs -> batch_sum rs < 2 ^ 64 -> StronglySorted (fun a b => wal_of a < wal_of b) rs ->
  exists xs, Forall2 result_of rs xs /\
    ElasticStore.fetch_done fs options (map read (imap (fun i r => ElasticStore.read_task (Z.of_nat i) r) rs)) =
    Ret (Ok (FetchResult.mk (ReadOptions.stream_id options) (ReadOptions.range options)
      (foldl Z.min (2 ^ 64 - 1) (map IndexRecord.offset rs)) (foldl Z.max 0 (map IndexRecord.offset rs)) (batch_sum rs) xs)).
Proof.
  intros Hread Hrs Hsum Hs.
  destruct (collect_logged read Hread rs 0 (ElasticStore.mk_collected (2 ^ 64 - 1) 0 0 [])) as (xs & Hxs & Hc); [done|done|simpl; lia|].
  exists xs. split; [done|]. unfold ElasticStore.fetch_done. simpl in Hc. rewrite Hc, bind_Ret. cbn [ElasticStore.flattened].
  rewrite first_error_ok. cbn [ElasticStore.start_offset ElasticStore.end_offset ElasticStore.total_len].
  by rewrite successes_ok, (results_sorted rs).
Qed.

Lemma limit_len rs bytes max :
  Forall record_ok rs ->
  bytes + foldr (fun r n => len_of r + n) 0 (Index.limit bytes max rs) <= Z.max bytes (max + 2 ^ 24).
Proof.
  intros H. revert bytes. induction H as [|r rs Hr H IH]; intros bytes; cbn [Index.limit]; [simpl; lia|].
  case_bool; [simpl; lia|]. simpl. specialize (IH (bytes + len_of r)). unfold len_of in *.
  destruct Hr as [_ (_ & Hl & _)]. lia.
Qed.

Lemma batch_sum_len rs : Forall logged rs -> batch_sum rs <= foldr (fun r n => len_of r + n) 0 rs.
Proof. induction 1 as [|r rs Hr H IH]; simpl; [lia|]. pose proof (logged_len r Hr). lia. Qed.

Lemma limit_sublist rs bytes max : Index.limit bytes max rs `prefix_of` rs.
Proof.
  revert bytes. induction rs as [|r rs IH]; intros bytes; cbn [Index.limit]; [done|].
  case_bool; [apply prefix_nil|]. by apply prefix_cons.
Qed.
End log.

(** A fetch returns exactly the batches that were appended.  When the entries of a range in the
    index refer to records of the log, in its order, and the range has a record at or after
    the offset, the store returns the batches from the one that has the offset on, before the
    maximal offset and as many as the size asks for, in order and stripped of their headers,
    whatever pieces the reads return them in; and an error only if there is none. *)
Lemma store_fetch_exact (s : ElasticStore.t) (d : IndexDriver.t K) read log batch options :
  let db := Indexer.index_cf (IndexDriver.indexer d) in
  let stream := ReadOptions.stream_id options in
  let range := ReadOptions.range options in
  LogReader read log -> 0 < ElasticStore.segment_size s -> index_wf db ->
  0 <= stream < 2 ^ 64 - 1 -> 0 <= range < 2 ^ 32 - 1 ->
  is_u64 (ReadOptions.offset options) -> is_u64 (ReadOptions.max_offset options) ->
  0 <= ReadOptions.max_bytes options < 2 ^ 31 ->
  (forall x, in_range db stream range x -> logged (ElasticStore.segment_size s) log batch x) ->
  (forall x y, in_range db stream range x -> in_range db stream range y ->
     IndexRecord.offset x < IndexRecord.offset y -> wal_of x < wal_of y) ->
  (exists y, in_range db stream range y /\ ReadOptions.offset options <= IndexRecord.offset y) ->
  exists best rs, greatest db stream range (fun x => x <= ReadOptions.offset options) best /\
    slice_of db stream range (default (ReadOptions.offset options) (IndexRecord.offset <$> best)) (ReadOptions.max_offset options) rs /\
    match Index.limit 0 (ReadOptions.max_bytes options) rs with
    | [] => ElasticStore.fetch s d read options = Ret (Err FetchError.NoRecord)
    | l => exists fr, ElasticStore.fetch s d read options = Ret (Ok fr) /\
        Forall2 (result_of batch) l (FetchResult.results fr) /\ FetchResult.total_len fr = batch_sum batch l
    end.
Proof.
  intros db stream range Hread Hfs Hwf Hst Hrg Ho Hmo Hmb Hlog Hord Hex.
  destruct (scan_left_shift_spec (IndexDriver.indexer d) stream range (ReadOptions.offset options) (ReadOptions.max_offset options)
    (ReadOptions.max_bytes options)) as (best & rs & Hbest & Hsl & Hscan);
    [done|unfold is_uint in *; lia|lia|unfold is_uint; lia|lia|done|done|lia|done|].
  exists best, rs. split; [done|]. split; [done|]. unfold ElasticStore.fetch, ElasticStore.fetch_command.
  rewrite as_uint_id by (unfold is_uint; lia). cbn [IndexDriver.run]. fold stream range. rewrite Hscan, !bind_Ret.
  destruct Hsl as [Hsorted Helem].
  assert (forall x, x ∈ Index.limit 0 (ReadOptions.max_bytes options) rs -> in_range db stream range x) as Hin.
  { intros x Hx. destruct (limit_sublist rs 0 (ReadOptions.max_bytes options)) as [k Hk].
    assert (x ∈ rs) as Hxr by (rewrite Hk; apply elem_of_app; auto). apply Helem in Hxr as (? & ? & ? & _). done. }
  assert (StronglySorted (fun a b => wal_of a < wal_of b) (Index.limit 0 (ReadOptions.max_bytes options) rs)) as Hws.
  { destruct (limit_sublist rs 0 (ReadOptions.max_bytes options)) as [k Hk]. rewrite Hk in Hsorted.
    apply StronglySorted_app_1_l in Hsorted. revert Hin Hsorted. generalize (Index.limit 0 (ReadOptions.max_bytes options) rs).
    intros l Hin Hsorted. induction Hsorted as [|x l Hs IH Hall]; constructor.
    - apply IH. intros y Hy. apply Hin. by right.
    - rewrite Forall_forall in *. intros y Hy. apply Hord; [apply Hin; by left|apply Hin; by right|by apply Hall]. }
  assert (Forall (logged (ElasticStore.segment_size s) log batch) (Index.limit 0 (ReadOptions.max_bytes options) rs)) as Hl.
  { apply Forall_forall. intros x Hx. by apply Hlog, Hin. }
  assert (batch_sum batch (Index.limit 0 (ReadOptions.max_bytes options) rs) < 2 ^ 64) as Hsum.
  { pose proof (batch_sum_len _ _ _ _ Hl). pose proof (limit_len rs 0 (ReadOptions.max_bytes options)) as Hlim.
    assert (Forall record_ok rs) as Hok by (apply Forall_forall; intros x Hx; by apply Helem in Hx as [[? _] _]).
    specialize (Hlim Hok). lia. }
  destruct (fetch_done_logged _ _ _ Hfs read _ options Hread Hl Hsum Hws) as (xs & Hxs & Hdone).
  destruct (Index.limit 0 (ReadOptions.max_bytes options) rs) as [|r l] eqn:El; [done|].
  cbn [nonempty ElasticStore.fetch_scanned]. eexists. split; [exact Hdone|]. by split.
Qed.

(** *** The fetch handler *)

Lemma results_payload batch l xs :
  Forall2 (result_of batch) l xs -> concat (concat (map SingleFetchResult.payload xs)) = concat (map batch l).
Proof.
  induction 1 as [|r x l xs (_ & _ & _ & _ & Hp) H IH]; [done|]. simpl. rewrite concat_app, Hp. by rewrite IH.
Qed.

(** The request as read options. *)
Definition options_of (f : Fetch.t) : ReadOptions.t :=
  ReadOptions.mk (Fetch.stream_id f) (Fetch.index f) (Fetch.offset f) (Fetch.limit f) (Fetch.max_wait_ms f) (Fetch.max_bytes f).

(** A request within the bounds of its fields. *)
Record request_ok (f : Fetch.t) : Prop := {
  rq_stream : 0 <= Fetch.stream_id f < 2 ^ 63;
  rq_index : 0 <= Fetch.index f < 2 ^ 31;
  rq_offset : 0 <= Fetch.offset f < 2 ^ 63;
  rq_limit : Fetch.offset f < Fetch.limit f < 2 ^ 63;
  rq_bytes : 0 < Fetch.max_bytes f < 2 ^ 31;
}.

Lemma apply_reads f m objects_of fetch objects cover :
  request_ok f -> Manager.has_range m (Fetch.stream_id f) (Fetch.index f) = true ->
  objects_of (Fetch.stream_id f) (Fetch.index f) (Fetch.offset f) (Fetch.limit f) (Fetch.max_bytes f) = Ret (objects, cover) ->
  Fetch.apply false f m objects_of fetch =
    (res ← fetch (options_of f);
     match res with
     | Ok fetch_result =>
         match FetchResult.results fetch_result with
         | [] => Ret (Fetch.handle_fetch_error FetchError.NoRecord)
         | results => Ret (Fetch.mk_response ErrorCode.OK objects (Some (concat (map SingleFetchResult.payload results))))
         end
     | Err e => Ret (Fetch.handle_fetch_error e)
     end).
Proof.
  intros [H1 H2 H3 H4 H5] Hm Hobj. unfold Fetch.apply, Fetch.build_read_opt.
  rewrite (proj2 (Z.ltb_ge _ _)) by lia. rewrite !as_uint_id by (unfold is_uint; lia). rewrite Hm.
  cbn [ReadOptions.stream_id ReadOptions.range ReadOptions.offset ReadOptions.max_offset ReadOptions.max_bytes].
  rewrite as_uint_id by (unfold is_uint; lia). rewrite Hobj, bind_Ret. unfold Fetch.read_option. cbn [andb].
  cbn [ReadOptions.max_offset ReadOptions.offset ReadOptions.max_bytes].
  rewrite (proj2 (Z.leb_gt _ _)), (proj2 (Z.eqb_neq _ _)) by lia. done.
Qed.

(** C10: The fetch handler answers with exactly the batches that were appended, and with the
    objects of the range.  Let the entries of the range in the index refer to records of the
    log, in its order, let one of them be at or after the offset, and let every read be
    answered with the bytes of the log, in any pieces ([LogReader]).  Then the payload of the
    response is the batches from the one that has the offset on, before the limit and as many
    as the size asks for; when there is none before the limit, the answer is [NO_NEW_RECORD].
    An offset inside the last batch, which has no entry at or after it, is not found
    ([scan_misses_last_batch]). *)
Theorem fetch_apply_exact (f : Fetch.t) (m : Manager.t) (cluster : list Ascii.ascii) (om : Metadata.t)
    (s : ElasticStore.t) (d : IndexDriver.t K) read log batch objects cover :
  let db := Indexer.index_cf (IndexDriver.indexer d) in
  let mine := in_range db (Fetch.stream_id f) (Fetch.index f) in
  request_ok f -> Manager.has_range m (Fetch.stream_id f) (Fetch.index f) = true ->
  DefaultObjectManager.get_objects cluster om (Fetch.stream_id f) (Fetch.index f) (Fetch.offset f) (Fetch.limit f)
    (Fetch.max_bytes f) = Ret (objects, cover) ->
  LogReader read log -> 0 < ElasticStore.segment_size s -> index_wf db ->
  (forall x, mine x -> logged (ElasticStore.segment_size s) log batch x) ->
  (forall x y, mine x -> mine y -> IndexRecord.offset x < IndexRecord.offset y -> wal_of x < wal_of y) ->
  (exists y, mine y /\ Fetch.offset f <= IndexRecord.offset y) ->
  exists best rs, greatest db (Fetch.stream_id f) (Fetch.index f) (fun x => x <= Fetch.offset f) best /\
    slice_of db (Fetch.stream_id f) (Fetch.index f) (default (Fetch.offset f) (IndexRecord.offset <$> best)) (Fetch.limit f) rs /\
    match rs with
    | [] => Fetch.apply false f m (DefaultObjectManager.get_objects cluster om) (ElasticStore.fetch s d read) =
        Ret (Fetch.mk_response ErrorCode.NO_NEW_RECORD [] None)
    | _ => exists payload,
        Fetch.apply false f m (DefaultObjectManager.get_objects cluster om) (ElasticStore.fetch s d read) =
          Ret (Fetch.mk_response ErrorCode.OK objects (Some payload)) /\
        concat payload = concat (map batch (Index.limit 0 (Fetch.max_bytes f) rs))
    end.
Proof.
  intros db mine Hf Hm Hobj Hread Hfs Hwf Hlog Hord Hex. pose proof Hf as [H1 H2 H3 H4 H5].
  destruct (store_fetch_exact s d read log batch (options_of f)) as (best & rs & Hb & Hsl & Hfetch); simpl;
    [done|done|done|lia|lia|unfold is_uint; lia..|lia|done|done|done|].
  exists best, rs. split; [done|]. split; [done|].
  rewrite (apply_reads f m (DefaultObjectManager.get_objects cluster om) (ElasticStore.fetch s d read) objects cover Hf Hm Hobj).
  cbn [ReadOptions.max_bytes options_of] in Hfetch. destruct rs as [|r rs]; [by rewrite Hfetch|].
  cbn [Index.limit] in *. rewrite (proj2 (Z.leb_gt _ _)) in * by lia.
  destruct Hfetch as (fr & -> & Hres & _). rewrite bind_Ret.
  destruct (FetchResult.results fr) as [|x xs] eqn:Ex; [by inversion Hres|]. eexists. split; [done|].
  by rewrite (results_payload batch _ _ Hres).
Qed.

(** C40: A range that has been offloaded and removed from the log cannot be read: when the index
    has no record of the range at or after the offset, the handler answers that there is no
    new record, and leaves out the objects, also when they have everything that is asked for. *)
Theorem fetch_hides_objects (f : Fetch.t) (m : Manager.t) (cluster : list Ascii.ascii) (om : Metadata.t)
    (s : ElasticStore.t) (d : IndexDriver.t K) read objects :
  let db := Indexer.index_cf (IndexDriver.indexer d) in
  request_ok f -> Manager.has_range m (Fetch.stream_id f) (Fetch.index f) = true ->
  DefaultObjectManager.get_objects cluster om (Fetch.stream_id f) (Fetch.index f) (Fetch.offset f) (Fetch.limit f)
    (Fetch.max_bytes f) = Ret (objects, true) ->
  index_wf db ->
  (forall y, in_range db (Fetch.stream_id f) (Fetch.index f) y -> IndexRecord.offset y < Fetch.offset f) ->
  Fetch.apply false f m (DefaultObjectManager.get_objects cluster om) (ElasticStore.fetch s d read) =
    Ret (Fetch.mk_response ErrorCode.NO_NEW_RECORD [] None) /\
  Fetch.apply true f m (DefaultObjectManager.get_objects cluster om) (ElasticStore.fetch s d read) =
    Ret (Fetch.mk_response ErrorCode.OK objects None).
Proof.
  intros db Hf Hm Hobj Hwf Hnone. pose proof Hf as [H1 H2 H3 H4 H5]. split.
  - rewrite (apply_reads f m (DefaultObjectManager.get_objects cluster om) (ElasticStore.fetch s d read) objects true Hf Hm Hobj).
    unfold ElasticStore.fetch, ElasticStore.fetch_command. cbn [IndexDriver.run options_of ReadOptions.stream_id ReadOptions.range
      ReadOptions.offset ReadOptions.max_offset ReadOptions.max_bytes].
    rewrite as_uint_id by (unfold is_uint; lia).
    rewrite scan_misses_last_batch; [done|done|unfold is_uint in *; lia..|done].
  - unfold Fetch.apply, Fetch.build_read_opt.
    rewrite (proj2 (Z.ltb_ge _ _)) by lia. rewrite !as_uint_id by (unfold is_uint; lia). rewrite Hm.
    cbn [ReadOptions.stream_id ReadOptions.range ReadOptions.offset ReadOptions.max_offset ReadOptions.max_bytes].
    rewrite as_uint_id by (unfold is_uint; lia). rewrite Hobj, bind_Ret. unfold Fetch.read_option. cbn [andb].
    cbn [ReadOptions.max_offset ReadOptions.offset ReadOptions.max_bytes]. by rewrite orb_true_r.
Qed.
End reading.

(** What the I/O loop sends to the observer of a read is the bytes that the slices of its
    buffers make up, in their pieces. *)
Lemma slices_concat task bufs bytes :
  LogSegment.narrow_all (ReadTask.wal_offset task) (ReadTask.len task) bufs = Ret bytes ->
  exists chunks, IO.slices task bufs = Ret chunks /\ concat chunks = bytes.
Proof.
  revert bytes. induction bufs as [|b bufs IH]; intros bytes; simpl.
  - intros [= <-]. by exists [].
  - intros (x & Hx & (xs & Hxs & [= <-])%bind_Ret_inv)%bind_Ret_inv. destruct (IH _ Hxs) as (chunks & Hc & <-).
    exists (x :: chunks). by rewrite Hx, bind_Ret, Hc.
Qed.

Lemma complete_read_task_log `{BytesApi} {SL : SkipListApi} {R : RingApi} (io : IO.t SL R) task bufs bytes :
  LogSegment.narrow_all (ReadTask.wal_offset task) (ReadTask.len task) bufs = Ret bytes ->
  exists chunks, IO.complete_read_task io task bufs =
      Ret (IO.send io (Fetched (ReadTask.observer task)
        (Ok (SingleFetchResult.mk (ReadTask.stream_id task) (ReadTask.range task) (ReadTask.offset task)
               (as_sint 64 (ReadTask.wal_offset task)) chunks)))) /\
    concat chunks = bytes.
Proof.
  intros H1. apply slices_concat in H1 as (chunks & Hc & Hb). exists chunks. split; [|done].
  unfold IO.complete_read_task. by rewrite Hc, bind_Ret.
Qed.

(** ** Appends and their answers *)

(** What happens to a store whose I/O loop runs: a caller appends, the I/O loop answers, the
    task of [start] hands out the answers. *)
Inductive store_event :=
| CallAppend (caller : nat) (request : AppendRecordRequest.t)
| IoAnswer (res : result AppendResult.t AppendError.t)
| Reap.

Section fifo.
Context {B : BytesApi} {C : Crc32Api}.

Definition store_step (s : ElasticStore.t) (ev : store_event)
    : ElasticStore.t * list (nat * result AppendResult.t AppendError.t) :=
  match ev with
  | CallAppend caller request => (ElasticStore.append s caller request, [])
  | IoAnswer res => (ElasticStore.set_cq s (ElasticStore.cq s ++ [res]) (ElasticStore.inflight_appends s), [])
  | Reap => ElasticStore.start_round s
  end.

Fixpoint store_run (s : ElasticStore.t) (evs : list store_event)
    : ElasticStore.t * list (nat * result AppendResult.t AppendError.t) :=
  match evs with
  | [] => (s, [])
  | ev :: evs =>
      let '(s, out) := store_step s ev in
      let '(s, out') := store_run s evs in (s, out ++ out')
  end.

Definition callers (evs : list store_event) : list nat :=
  omap (fun ev => match ev with CallAppend c _ => Some c | _ => None end) evs.
Definition answers (evs : list store_event) : list (result AppendResult.t AppendError.t) :=
  omap (fun ev => match ev with IoAnswer r => Some r | _ => None end) evs.

(** The I/O loop answers only appends that were made: [n] of them are not answered yet. *)
Fixpoint answers_follow (n : nat) (evs : list store_event) : Prop :=
  match evs with
  | [] => True
  | CallAppend _ _ :: evs => answers_follow (S n) evs
  | IoAnswer _ :: evs => exists k, n = S k /\ answers_follow k evs
  | Reap :: evs => answers_follow n evs
  end.

Lemma reap_spec results appends :
  (length results <= length appends)%nat ->
  exists rest out, ElasticStore.reap results appends = (rest, out) /\
    appends = map fst out ++ rest /\ results = map snd out /\ (length rest = length appends - length results)%nat.
Proof.
  revert appends. induction results as [|r results IH]; intros appends Hl; simpl.
  - exists appends, []. split_and!; [done..|]. simpl. lia.
  - destruct appends as [|a appends]; simpl in Hl; [lia|].
    destruct (IH appends) as (rest & out & -> & -> & -> & Hrest); [lia|].
    exists rest, ((a, r) :: out). split_and!; [done..|]. simpl. rewrite !length_app, !length_map in *. lia.
Qed.

Lemma store_run_fifo evs : forall s n s' out,
  ElasticStore.sq_connected s = true ->
  (length (ElasticStore.inflight_appends s) = length (ElasticStore.cq s) + n)%nat ->
  answers_follow n evs -> store_run s evs = (s', out) ->
  ElasticStore.inflight_appends s ++ callers evs = map fst out ++ ElasticStore.inflight_appends s' /\
  ElasticStore.cq s ++ answers evs = map snd out ++ ElasticStore.cq s'.
Proof.
  induction evs as [|ev evs IH]; intros s n s' out Hsq Hlen Hf Hrun.
  - injection Hrun as <- <-. by rewrite !app_nil_r.
  - simpl in Hrun. destruct (store_step s ev) as [s1 out1] eqn:E1. destruct (store_run s1 evs) as [s2 out2] eqn:E2.
    injection Hrun as <- <-. destruct ev as [caller request|res|]; simpl in E1, Hf.
    + unfold ElasticStore.append, ElasticStore.do_append in E1. simpl in E1. rewrite Hsq in E1. injection E1 as <- <-.
      apply (IH _ (S n)) in E2 as [H1 H2]; simpl in *; [|done|rewrite length_app; simpl; lia|done].
      rewrite <- app_assoc in H1. by split.
    + destruct Hf as (k & -> & Hf). injection E1 as <- <-.
      apply (IH _ k) in E2 as [H1 H2]; simpl in *; [|done|rewrite length_app; simpl; lia|done].
      rewrite <- app_assoc in H2. by split.
    + unfold ElasticStore.start_round in E1.
      destruct (reap_spec (ElasticStore.cq s) (ElasticStore.inflight_appends s)) as (rest & out & Hr & Ha & Hc & Hl); [lia|].
      rewrite Hr in E1. injection E1 as <- <-.
      apply (IH _ n) in E2 as [H1 H2]; simpl in *; [|done|lia|done].
      rewrite Ha, Hc, !map_app, <- !app_assoc. rewrite <- H1, <- H2. by split.
Qed.

(** C11: The answers of the I/O loop go to the callers in the order of the calls: in every
    interleaving of calls, answers and rounds of the task that hands them out, the [k]-th
    answer is handed to the [k]-th caller, none is dropped and no caller gets two.  So a
    caller gets its own answer as long as the I/O loop answers in the order of its tasks; and
    if it loses a task, every later caller gets the answer of another append. *)
Theorem appends_answered_in_order (s : ElasticStore.t) (evs : list store_event) (s' : ElasticStore.t)
    (out : list (nat * result AppendResult.t AppendError.t)) :
  ElasticStore.sq_connected s = true -> ElasticStore.cq s = [] -> ElasticStore.inflight_appends s = [] ->
  answers_follow 0 evs -> store_run s evs = (s', out) ->
  callers evs = map fst out ++ ElasticStore.inflight_appends s' /\
  answers evs = map snd out ++ ElasticStore.cq s' /\
  (forall k caller res, out !! k = Some (caller, res) -> callers evs !! k = Some caller /\ answers evs !! k = Some res).
Proof.
  intros Hsq Hcq Hin Hf Hrun. destruct (store_run_fifo evs s 0 s' out) as [H1 H2]; [done|by rewrite Hcq, Hin|done|done|].
  rewrite Hin in H1. rewrite Hcq in H2. simpl in H1, H2. split; [done|]. split; [done|].
  intros k caller res Hk. rewrite H1, H2. split; apply lookup_app_l_Some; rewrite list_lookup_fmap, Hk; done.
Qed.
End fifo.

(** ** Examples *)

Module StoreExample.
(** The log holds a record of 120 bytes at every multiple of 128; the index is the one of
    [IndexExample], with batches at 10, 20 and 30. *)
Definition payload : list byte := replicate 120 Byte.x2a.
Definition log (x : Z) : byte := nth (Z.to_nat (x mod 128)) (record_bytes 0 RecordType.Full payload) Byte.x00.
Definition batch (r : record) : list byte := payload.
Definition read (t : ReadTask.t) : option (result SingleFetchResult.t FetchError.t) :=
  Some (Ok (SingleFetchResult.mk (ReadTask.stream_id t) (ReadTask.range t) (ReadTask.offset t)
    (as_sint 64 (ReadTask.wal_offset t)) [span log (ReadTask.wal_offset t) (ReadTask.len t)])).
Definition m : Manager.t := snd (Manager.create_range (Manager.mk ∅) (RangeMetadata.new 7 0 0 0 None)).
Definition d : IndexDriver.t gmap_kv := IndexDriver.mk IndexExample.ix WatermarkManager.new.
Definition s : ElasticStore.t := ElasticStore.mk 1 1024 [] true [] 0 [] [].
Definition f : Fetch.t := Fetch.mk 7 0 15 40 0 256.
Definition om : Metadata.t := Metadata.mk ∅ {[(7, 0) := [(ObjectKey.mk 1 0, Object.mk 100 5000 [])]]} [] [].
Definition f' : Fetch.t := Fetch.mk 7 0 50 60 0 256.

Lemma reader : LogReader read log.
Proof. intros t _. eexists. split; [done|]. by rewrite concat_cons, app_nil_r. Qed.

Lemma step_stored_eq ix r y :
  record_ok r -> stored (Indexer.index_cf (IndexExample.step ix r)) y -> y = r \/ stored (Indexer.index_cf ix) y.
Proof.
  intros Hr [Hy Hg]. unfold IndexExample.step in Hg. destruct (Indexer.index ix r) as [[b ix']|] eqn:Hi; [|by right].
  assert (Indexer.index_cf ix' = kv_put (Indexer.index_cf ix) (entry_of r).1 (entry_of r).2) as Hcf.
  { revert Hi. unfold Indexer.index. simpl. intros Hi. inv_ret. case_bool; by inv_ret. }
  rewrite Hcf, kv_get_put in Hg. case_decide as Hk; [left|by right]. apply Some_inj in Hg.
  pose proof (decode_entry_ok r Hr) as H1. pose proof (decode_entry_ok y Hy) as H2.
  unfold entry_of in Hk, Hg. cbn [fst snd] in Hk, Hg. rewrite Hk, <- Hg, H1 in H2. by injection H2 as ->.
Qed.

Lemma ix_all y :
  stored (Indexer.index_cf IndexExample.ix) y ->
  y = IndexExample.rec 30 384 10 \/ y = IndexExample.rec 20 256 10 \/ y = IndexExample.rec 10 128 10.
Proof.
  intros Hst. unfold IndexExample.ix in Hst. simpl foldl in Hst.
  apply step_stored_eq in Hst as [->|Hst]; [auto| |by apply IndexExample.rec_ok].
  apply step_stored_eq in Hst as [->|Hst]; [auto| |by apply IndexExample.rec_ok].
  apply step_stored_eq in Hst as [->|[_ Hst]]; [auto| |by apply IndexExample.rec_ok].
  simpl in Hst. by rewrite lookup_empty in Hst.
Qed.

Lemma ix_logged y : stored (Indexer.index_cf IndexExample.ix) y -> logged 1024 log batch y.
Proof.
  intros [-> | [-> | ->]]%ix_all; (split; [unfold wal_of; simpl; lia|]); (split; [unfold len_of; simpl; lia|]);
    vm_compute; reflexivity.
Qed.

Lemma f_ok : request_ok f.
Proof. split; simpl; lia. Qed.
Lemma f'_ok : request_ok f'.
Proof. split; simpl; lia. Qed.
End StoreExample.

Lemma fetch_apply_exact_witness :
  let db := Indexer.index_cf IndexExample.ix in
  exists best rs, greatest db 7 0 (fun x => x <= 15) best /\
    slice_of db 7 0 (default 15 (IndexRecord.offset <$> best)) 40 rs /\
    match rs with
    | [] => Fetch.apply false StoreExample.f StoreExample.m (DefaultObjectManager.get_objects [] Metadata.default_)
        (ElasticStore.fetch StoreExample.s StoreExample.d StoreExample.read) =
        Ret (Fetch.mk_response ErrorCode.NO_NEW_RECORD [] None)
    | _ => exists payload,
        Fetch.apply false StoreExample.f StoreExample.m (DefaultObjectManager.get_objects [] Metadata.default_)
          (ElasticStore.fetch StoreExample.s StoreExample.d StoreExample.read) =
          Ret (Fetch.mk_response ErrorCode.OK [] (Some payload)) /\
        concat payload = concat (map StoreExample.batch (Index.limit 0 256 rs))
    end.
Proof.
  apply (fetch_apply_exact StoreExample.f StoreExample.m [] Metadata.default_ StoreExample.s StoreExample.d
    StoreExample.read StoreExample.log StoreExample.batch [] false).
  - exact StoreExample.f_ok.
  - vm_compute. reflexivity.
  - vm_compute. reflexivity.
  - exact StoreExample.reader.
  - simpl. lia.
  - exact IndexExample.ix_wf.
  - intros x [Hx _]. exact (StoreExample.ix_logged x Hx).
  - intros x y [Hx _] [Hy _]. apply StoreExample.ix_all in Hx, Hy.
    destruct Hx as [-> | [-> | ->]], Hy as [-> | [-> | ->]]; unfold IndexRecord.offset, wal_of; simpl; lia.
  - exists (IndexExample.rec 30 384 10). split; [exact IndexExample.ix_last|simpl; unfold IndexRecord.offset; simpl; lia].
Defined.

(** Here the payload is the batches at 10 and 20. *)
Lemma fetch_apply_example :
  Fetch.apply false StoreExample.f StoreExample.m (DefaultObjectManager.get_objects [] Metadata.default_)
    (ElasticStore.fetch StoreExample.s StoreExample.d StoreExample.read) =
  Ret (Fetch.mk_response ErrorCode.OK [] (Some [StoreExample.payload; StoreExample.payload])).
Proof. vm_compute. reflexivity. Qed.

Lemma fetch_hides_objects_witness :
  exists objects, objects <> [] /\
  Fetch.apply false StoreExample.f' StoreExample.m (DefaultObjectManager.get_objects [] StoreExample.om)
    (ElasticStore.fetch StoreExample.s StoreExample.d StoreExample.read) =
    Ret (Fetch.mk_response ErrorCode.NO_NEW_RECORD [] None) /\
  Fetch.apply true StoreExample.f' StoreExample.m (DefaultObjectManager.get_objects [] StoreExample.om)
    (ElasticStore.fetch StoreExample.s StoreExample.d StoreExample.read) =
    Ret (Fetch.mk_response ErrorCode.OK objects None).
Proof.
  eexists. split; [|apply (fetch_hides_objects StoreExample.f' StoreExample.m [] StoreExample.om StoreExample.s StoreExample.d
    StoreExample.read)].
  2: exact StoreExample.f'_ok.
  2: vm_compute; reflexivity.
  2: vm_compute; reflexivity.
  2: exact IndexExample.ix_wf.
  2: intros y Hy; apply IndexExample.ix_records in Hy; simpl; lia.
  discriminate.
Defined.

Lemma appends_answered_in_order_witness :
  let request o := AppendRecordRequest.mk 7 0 o 10 [Byte.x2a] in
  let answer o := Ok (AppendResult.mk 7 0 o 10 0 1) in
  let evs := [CallAppend 1 (request 0); CallAppend 2 (request 10); IoAnswer (answer 0); Reap; IoAnswer (answer 10);
              CallAppend 3 (request 20); Reap] in
  exists s' out, store_run StoreExample.s evs = (s', out) /\ out = [(1%nat, answer 0); (2%nat, answer 10)] /\
    callers evs = map fst out ++ ElasticStore.inflight_appends s' /\
    answers evs = map snd out ++ ElasticStore.cq s' /\
    (forall k caller res, out !! k = Some (caller, res) -> callers evs !! k = Some caller /\ answers evs !! k = Some res).
Proof.
  intros request answer evs. eexists _, _. split; [reflexivity|]. split; [reflexivity|].
  apply (appends_answered_in_order StoreExample.s evs); [reflexivity..| |reflexivity].
  simpl. exists 1%nat. split; [reflexivity|]. exists 0%nat. split; [reflexivity|exact I].
Defined.
